(* ===== verification/_CoqProject ===== *)
-Q . S2P
Prelude.v
Rc5.v
Rkey.v
GuteFrame.v
Des.v
QuickLz.v
MediaProtocol.v
KcpReceive.v
StreamProtocol.v
V1Receive.v
AvReceive.v
TcpFraming.v
PushRtc.v
Account.v
ConnAuth.v
AccessFrames.v
Fragments.v
Broker.v
Mailbox.v
Ptz.v
BrokerAccount.v
Dispatch.v
Admission.v
Viewers.v
Recorder.v
Motion.v
Throttle.v
Mp4.v
Fanout.v
