(* ===== verification/Prelude.v ===== *)
(** * Verification of Community Cam Guard

    Community Cam Guard is a network video recorder written in Python.  Its
    backend lives under [src/backend/app/]; the largest part of it is the native
    client of one camera family, [drivers/yoosee/p2p/], which logs in to a
    vendor broker, opens encrypted peer-to-peer routes to a camera, carries
    media and control commands over them and must leave the camera in a safe
    state whatever the network does.  Around it are drivers for other cameras,
    media delivery ([media/]), recording, discovery, an HTTP API and a web
    front end.

    This development models the part of the backend that computes: ciphers and
    codecs, stream and message reassembly, budgets and sequence numbers, and the
    state machines that admit sources and viewers and drive a camera motor.

    ** Files

    [Prelude] holds what the others share: Python results and exceptions
    ([result], [exn]), slices, [struct] packing at a width, bit operations, the
    stateful monad [M] with its weakest preconditions ([wp], [wp_step]), and the
    tactics over them.  Paths below are relative to [src/backend/app/]; p2p is
    [drivers/yoosee/p2p/].

    - Cryptography, p2p [crypto.py], [wire.py], [auth.py]: [Rc5] (the block
      cipher), [Rkey] (handshake nibble transforms), [GuteFrame] (the encrypted
      24-byte-header frames, modes 0 to 2, and their builders), [Des] (the
      authentication token), [ConnAuth] (the signed connection frame).
    - Message formats: [AccessFrames] (p2p [access_protocol.py],
      [contracts.py]), [MediaProtocol] ([media_protocol.py], [kcp_window.py]),
      [StreamProtocol] ([stream_protocol.py]), [QuickLz] ([quicklz.py]), and the
      codec part of [Ptz] ([ptz_protocol.py]).
    - Reassembly: [KcpReceive] ([kcp_receive.py]: out-of-order segments to
      messages), [TcpFraming] ([push_framing.py], [mtp_tcp_framing.py],
      [mtp_tcp_kcp.py]: byte streams to records), [PushRtc] ([push_rtc*.py]:
      fragments to media payloads).
    - Ownership and budgets: [Account] ([account_policy.py],
      [account_output_budget.py], [broker_sequences.py], and the world in which
      a job of the account runs), [Ptz]
      ([ptz_scheduler.py], [ptz_command_reservation.py],
      [ptz_release_delivery.py]), [Admission] ([media/source_registry.py]),
      [Viewers] ([media/viewer_gate.py]).
    - Broker correlation: [Fragments] (p2p [resource_service_protocol.py]:
      masked fragment headers and the bounded reassembler), [Broker]
      ([broker_transactions.py], [broker_reads.py], [broker_model_reply.py],
      [broker_heartbeat.py], [broker_heartbeat_reply.py], [model_protocol.py]:
      receipts, property reads and the heartbeat over one sequence namespace),
      [Mailbox] ([broker_mailbox.py]: the slots between callers and the one
      worker of an account), [BrokerAccount] ([broker_account.py]: the owner of
      a broker session; its jobs are seen through the class [Jobs], which the
      gesture of [Ptz] implements), [Dispatch]
      ([account_read_dispatcher.py]: the two composed, with callers that act
      between any two accesses to the mailbox).
    - Reception: [V1Receive] (p2p [v1_receive.py]: the plaintext stream to
      records), [AvReceive] ([media_receive.py], [receive_lifecycle.py],
      [av_pending.py], [av_receive.py]: one media conversation, end to end).
    - Media delivery and access: [Mp4] ([media/fragmented_mp4.py]: the muxer's
      byte stream to fragments), [Fanout] ([media/mp4_fanout.py]: one ring of
      fragments, many readers), [Throttle] ([login_throttle.py]).
    - Recording and motion: [Recorder] ([recording/recorder.py],
      [recording/ingress_gate.py], [recording/storage.py]), [Motion]
      ([ptz_motion.py]).

    Components meet where the code composes them.  [ConnAuth] and
    [AccessFrames] seal their frames with [GuteFrame], which enciphers with
    [Rc5], and a certification request carries the blob of [ConnAuth]; [KcpReceive] consumes the segments [MediaProtocol] parses;
    [TcpFraming] carries both; a PTZ gesture charges its datagrams to a reserve
    of [Account], numbers them from the account's sequences and parses replies
    with [GuteFrame].  The two TCP framers are instances of one interface
    ([TcpFraming.Format], [FormatLaws]) and the reassembly theorems are proved
    against its laws.

    ** How the code is modelled

    A definition bears the name of the function or method it translates and
    keeps its guards in order.  Bytes are integers from 0 to 255 in a list,
    machine words are [Z] with the masks the code writes.  A function that can
    raise returns a [result]; a method is a computation in [M], so an exception
    keeps the state it leaves behind.  Guards on argument types are the typing
    of the model.

    Code under a lock is one transition.  Where a method gives the lock up, it
    is a thread with a program counter, and an inductive step relation
    interleaves the threads ([Admission.Registry.step],
    [Viewers.Viewers.gate_step]); invariants are proved by rule induction over
    the reachable states.  Histories of a single owner are lists of operations
    folded over the state ([Account], [PushRtc], [KcpReceive], [Ptz]).

    What is not source is an argument: clock readings, random words, AES-CBC
    and HMAC-MD5 (assumed to decrypt what they encrypt, and to have 16 bytes,
    [ConnAuth]), [json.loads] ([Ptz], [Broker]: a value or one of its
    exceptions).  Where several objects read one clock ([AvReceive], [Broker],
    [Mailbox], [BrokerAccount],
    [Dispatch])
    a state carries the number of readings made and the clock is an arbitrary
    function of that number; the shared parts are in [Prelude] ([state], [now],
    [ends]).  An object several owners share, the sequence namespace of
    [Broker], is a part of the state of its own.  Floats that hold seconds or
    tokens are exact rationals; a reading that is not finite is [None].

    ** Fuel and bounds

    Loops whose bound is not structural run with fuel, and a theorem shows the
    fuel enough: the segment loop of [MediaProtocol] and the record loops of
    [StreamProtocol], [PushRtc] and [TcpFraming] run with the length of their
    input, of which each round consumes at least one byte; the [QuickLz] loop
    runs with the advertised output length, to which each round adds at least
    one byte; the drain of [KcpReceive] with the number of pending segments, of
    which each round removes one; the record loop of [V1Receive] with the length
    of its buffer, of which a record takes at least 28 bytes; the traversal of a
    reply's value in [Broker] with 258 rounds, of which it uses at most 257.
    [OutOfFuel] is an outcome of the model only, and the totality theorems
    exclude it.

    ** Theorems

    - State machines: a PTZ gesture starts at most once and its release is
      always affordable and bounded (C1, C18); the supervised gesture bounds
      its own duration and attempts (C19); one source per camera and per
      resource, and a reservation outlives its cleanup (C8); viewers of a held
      camera drain (C11); the recorder owns its children and the disk policy
      pauses it (C9, C20).
    - Reassembly refines an abstract description: the delivered messages are a
      prefix of those sent, whatever the arrival order, and the records handed
      to a player are those of the camera's stream (C2, C7, C22, C23); the
      records of a stream do not depend on how it was cut (C16, C17, C34); an
      assembler holds exactly its fragment history (C12); the MP4 collector
      issues exactly the fragments of its stream (C14) and every reader of a
      ring gets them without a gap or is told why not (C15).
    - Correlation: a broker request ends exactly once and only by what answers
      it (C3); an account reports every request it opens, those apart that are
      pending when a PTZ request retires it (C5); a read handed through the
      mailbox ends once and answers what was asked (C4); the dispatcher that
      joins the two loses no read and mixes up none (C6); fragments are
      reassembled as an ideal set of pieces (C10).
    - Budgets: cleanup can always be paid for and ordinary traffic is refused
      only for want of tokens, a sequence number is never reused and login
      attempts are paced (C13, C24, C25).
    - Codecs invert each other, and parsers account for every byte of what
      they accept and raise only the errors stated: C21, C26, C27, C29, C30,
      C31, C32, C33.
    - Ciphers and frames are bijections on their domains, and sealed frames
      verify: C28, C35, C36, C37, C38, C39, C40.

    ** Not modelled

    Sockets, threads and timers as such, the database, HTTP handlers, processes
    ([ffmpeg], go2rtc), discovery, Bluetooth, diagnostics, the front end and
    scripts: they call libraries or the operating system and keep little state
    of their own that a model could say more about than its text.  Of p2p, the
    session drivers that move bytes between a socket and the codecs modelled
    here, the vendor-account client and the per-feature request builders are
    left out.  The components are listed with their reasons in the manifest. *)

From Stdlib Require Import ZArith Lia Zdiv Znumtheory.
From Stdlib Require Export ZifyBool.
From stdpp Require Export base list strings gmap numbers fin_maps.

#[global] Open Scope Z_scope.

(** ** Python results: a value or a raised exception *)

(** The exception classes the modelled code raises. [StructError] is
    [struct.error], raised by the [struct] module on a short buffer or an
    out-of-range field; [OverflowError] that of an integer too large for a
    float. *)
Inductive exn : Type :=
| ValueError (msg : string)
| TypeError (msg : string)
| RuntimeError (msg : string)
| AssertionError
| IndexError
| KeyError
| StructError
| OverflowError
| OutOfFuel.

#[global] Instance exn_eq_dec : EqDecision exn.
Proof. solve_decision. Defined.

Inductive result (A : Type) : Type :=
| Ok (a : A)
| Raise (e : exn).
Arguments Ok {A} a.
Arguments Raise {A} e.

#[global] Instance result_eq_dec {A} `{EqDecision A} : EqDecision (result A).
Proof. solve_decision. Defined.

#[global] Instance Ok_inj {A} : Inj (=) (=) (@Ok A).
Proof. by intros a b [= ->]. Qed.

#[global] Instance result_ret : MRet result := λ A a, Ok a.
#[global] Instance result_bind : MBind result := λ A B f m,
  match m with Ok a => f a | Raise e => Raise e end.
#[global] Instance result_fmap : FMap result := λ A B f m,
  match m with Ok a => Ok (f a) | Raise e => Raise e end.

(** [if c: raise e] followed by the rest of the body. *)
Definition raise_if (c : bool) (e : exn) : result unit :=
  if c then Raise e else Ok tt.

Lemma bind_Ok {A B} (m : result A) (f : A → result B) b :
  m ≫= f = Ok b ↔ ∃ a, m = Ok a ∧ f a = Ok b.
Proof. destruct m; simpl; split; intros H; [eauto|naive_solver|discriminate|naive_solver]. Qed.

Lemma raise_if_Ok c e u : raise_if c e = Ok u ↔ c = false.
Proof. destruct c, u; simpl; split; congruence || reflexivity. Qed.

Lemma raise_if_false c e : c = false → raise_if c e = Ok tt.
Proof. by intros ->. Qed.

(** Passes the guard at the head of a body. *)
Lemma guard_pass {A} c e (k : unit → result A) : c = false → raise_if c e ≫= k = k tt.
Proof. by intros ->. Qed.

(** Rewriting with this equation, rather than by conversion, keeps the kernel
    from comparing the continuations. *)
Lemma bind_ret {A B} (a : A) (k : A → result B) : Ok a ≫= k = k a.
Proof. done. Qed.

Ltac bind_simpl := cbn [mbind result_bind].

(** Case analysis on a computation in the [result] monad that returned. *)
Ltac res_inv :=
  repeat match goal with
  | H : _ ≫= _ = Ok _ |- _ => apply bind_Ok in H as (? & ? & H)
  | H : raise_if _ _ = Ok ?u |- _ => apply raise_if_Ok in H; try clear u
  | H : Ok _ = Ok _ |- _ => injection H as H; try subst
  | H : Raise _ = Ok _ |- _ => discriminate H
  | H : mret _ = Ok _ |- _ => injection H as H; try subst
  end.

(** The monadic left fold of a Python [for] loop. *)
Fixpoint foldM {A S} (f : S → A → result S) (s : S) (l : list A) : result S :=
  match l with
  | [] => Ok s
  | a :: l => s' ← f s a; foldM f s' l
  end.

(** A loop whose steps all return is the pure fold. *)
Lemma foldM_Ok {A S} (f : S → A → result S) (g : S → A → S) (l : list A) (s : S) :
  (∀ s a, a ∈ l → f s a = Ok (g s a)) → foldM f s l = Ok (foldl g s l).
Proof.
  revert s. induction l as [|a l IH]; intros s H; [done|]. simpl.
  rewrite H by set_solver. simpl. apply IH. intros. apply H. set_solver.
Qed.

(** ** Digits: a number in base [b], least significant digit first *)

Fixpoint digits (b : Z) (n : nat) (z : Z) : list Z :=
  match n with
  | O => []
  | S n => z mod b :: digits b n (z / b)
  end.

Fixpoint undigits (b : Z) (l : list Z) : Z :=
  match l with
  | [] => 0
  | d :: l => d + b * undigits b l
  end.

Definition digits_ok (b : Z) (l : list Z) : Prop := Forall (λ d, 0 ≤ d < b) l.

Section Digits.
Context (b : Z) (Hb : 0 < b).

Lemma length_digits n z : length (digits b n z) = n.
Proof. revert z; induction n as [|n IH]; intros z; simpl; [|rewrite IH]; done. Qed.

Lemma digits_digits_ok n z : digits_ok b (digits b n z).
Proof.
  revert z; induction n as [|n IH]; intros z; simpl; constructor; [|apply IH].
  apply Z.mod_pos_bound; lia.
Qed.

Lemma undigits_bound l : digits_ok b l → 0 ≤ undigits b l < b ^ Z.of_nat (length l).
Proof.
  induction 1 as [|d l Hd Hl IH]; [simpl; lia|].
  cbn [undigits length]. rewrite Nat2Z.inj_succ, Z.pow_succ_r by lia. nia.
Qed.

Lemma undigits_digits n z : undigits b (digits b n z) = z mod b ^ Z.of_nat n.
Proof.
  revert z; induction n as [|n IH]; intros z.
  - simpl. by rewrite Z.mod_1_r.
  - cbn [undigits digits]. rewrite IH, Nat2Z.inj_succ, Z.pow_succ_r by lia.
    rewrite Z.rem_mul_r; try lia; by apply Z.pow_pos_nonneg; lia.
Qed.

Lemma digits_undigits l : digits_ok b l → digits b (length l) (undigits b l) = l.
Proof.
  induction 1 as [|d l Hd Hl IH]; [done|].
  cbn [undigits digits length]. f_equal.
  - by rewrite Z.mul_comm, Z.mod_add, Z.mod_small by lia.
  - rewrite Z.mul_comm, Z.div_add, Z.div_small, Z.add_0_l by lia. apply IH.
Qed.

Lemma undigits_app l k :
  undigits b (l ++ k) = undigits b l + b ^ Z.of_nat (length l) * undigits b k.
Proof.
  induction l as [|d l IH]; cbn [undigits app length]; [lia|].
  rewrite IH, Nat2Z.inj_succ, Z.pow_succ_r by lia. lia.
Qed.

Lemma undigits_inj l k :
  digits_ok b l → digits_ok b k → length l = length k →
  undigits b l = undigits b k → l = k.
Proof.
  intros Hl Hk Hlen E. rewrite <-(digits_undigits l), <-(digits_undigits k) by done.
  by rewrite Hlen, E.
Qed.
End Digits.

(** ** Bytes *)

(** A Python [bytes] or [bytearray] value: its elements, each an octet. *)
Abbreviation bytes := (list Z).

Definition bytes_ok (l : bytes) : Prop := digits_ok 256 l.

(** [len(l)] as a Python integer. *)
Definition len {A} (l : list A) : Z := Z.of_nat (length l).

(** [l[a:b]] for [0 <= a <= b]: Python clamps both ends to the length. *)
Definition slice {A} (a b : nat) (l : list A) : list A := take (b - a) (drop a l).

(** [l[a:b] = v] on a bytearray, [a <= b]: the slice is replaced by [v]. *)
Definition slice_set {A} (a b : nat) (v l : list A) : list A :=
  take a l ++ v ++ drop b l.

(** [l[i]] for [0 <= i]. *)
Definition index (l : bytes) (i : nat) : result Z :=
  match l !! i with Some b => Ok b | None => Raise IndexError end.

(** [struct.unpack_from] of one little-endian unsigned field of [n] bytes. *)
Definition unpack_from (n : nat) (l : bytes) (off : nat) : result Z :=
  if decide (off + n ≤ length l)%nat
  then Ok (undigits 256 (slice off (off + n) l)) else Raise StructError.

(** [struct.pack_into] of one little-endian unsigned field of [n] bytes. *)
Definition pack_into (n : nat) (l : bytes) (off : nat) (v : Z) : result bytes :=
  if decide ((off + n ≤ length l)%nat ∧ 0 ≤ v < 256 ^ Z.of_nat n)
  then Ok (slice_set off (off + n) (digits 256 n v) l) else Raise StructError.

(** [struct.pack] of one little-endian unsigned field of [n] bytes. *)
Definition pack (n : nat) (v : Z) : result bytes :=
  if decide (0 ≤ v < 256 ^ Z.of_nat n) then Ok (digits 256 n v) else Raise StructError.

(** [bytes(n)], [bytearray(n)]. *)
Definition zeros (n : nat) : bytes := replicate n 0.

(** ** Lists: slices and updates *)

Create HintDb len.
#[export] Hint Rewrite @length_app @length_take @length_drop @length_replicate
  @length_insert @length_fmap @length_rev @length_seq length_digits : len.

Lemma length_slice {A} a b (l : list A) :
  length (slice a b l) = ((b - a) `min` (length l - a))%nat.
Proof. unfold slice. by autorewrite with len. Qed.

Lemma length_slice_set {A} a b (v l : list A) :
  length (slice_set a b v l) = (a `min` length l + (length v + (length l - b)))%nat.
Proof. unfold slice_set. by autorewrite with len. Qed.

Lemma length_zeros n : length (zeros n) = n.
Proof. unfold zeros. by autorewrite with len. Qed.

#[export] Hint Rewrite @length_slice @length_slice_set length_zeros : len.

(** Length side conditions. *)
Ltac len_simpl := unfold len in *; autorewrite with len in *; cbn [length] in *.
Ltac len_solve := len_simpl; lia.

(** Passes a guard decided by arithmetic on lengths. *)
Ltac pass_guard :=
  rewrite guard_pass by first
    [ lia | len_solve | apply Nat.ltb_ge; len_solve | apply Nat.leb_gt; len_solve | apply Nat.eqb_neq; len_solve ].

Lemma slice_app_l {A} a b (l k : list A) :
  (b ≤ length l)%nat → slice a b (l ++ k) = slice a b l.
Proof.
  intros H. unfold slice. destruct (decide (a ≤ b)%nat).
  - rewrite drop_app_le, take_app_le by (autorewrite with len; lia). done.
  - by replace (b - a)%nat with O by lia.
Qed.

Lemma slice_app_r {A} a b (l k : list A) :
  (length l ≤ a)%nat → slice a b (l ++ k) = slice (a - length l) (b - length l) k.
Proof.
  intros H. unfold slice. rewrite drop_app_ge by lia. f_equal; lia.
Qed.

Lemma slice_all {A} n (l : list A) : length l = n → slice 0 n l = l.
Proof. intros <-. unfold slice. rewrite drop_0, Nat.sub_0_r. apply firstn_all. Qed.

Lemma slice_all_prefix {A} n (l k : list A) : length l = n → slice 0 n (l ++ k) = l.
Proof. intros H. rewrite slice_app_l by lia. by apply slice_all. Qed.

(** The slice between two known pieces. *)
Lemma slice_mid {A} a b (l m r : list A) :
  length l = a → length m = (b - a)%nat → (a ≤ b)%nat →
  slice a b (l ++ m ++ r) = m.
Proof.
  intros <- Hm Hab. rewrite slice_app_r, Nat.sub_diag by lia.
  rewrite slice_app_l by lia. by apply slice_all.
Qed.

Lemma slice_set_mid {A} a b (v l m r : list A) :
  length l = a → length m = (b - a)%nat → (a ≤ b)%nat →
  slice_set a b v (l ++ m ++ r) = l ++ v ++ r.
Proof.
  intros <- Hm Hab. unfold slice_set. rewrite take_app_length.
  f_equal. f_equal. rewrite app_assoc, drop_app_length'; [done|autorewrite with len; lia].
Qed.

Lemma slice_drop_app {A} a b (l : list A) :
  (a ≤ b)%nat → slice a b l ++ drop b l = drop a l.
Proof.
  intros H. unfold slice. rewrite <-(take_drop (b - a) (drop a l)) at 2. f_equal.
  rewrite drop_drop. f_equal; lia.
Qed.

Lemma slice_concat {A} a b c (l : list A) : (a ≤ b ≤ c)%nat → slice a b l ++ slice b c l = slice a c l.
Proof.
  intros H. unfold slice. rewrite <-(take_drop (b - a) (take (c - a) (drop a l))).
  rewrite take_take, Nat.min_l, skipn_firstn_comm, drop_drop by lia. f_equal. f_equal; [lia|f_equal; lia].
Qed.

Lemma slice_split {A} a b (l : list A) :
  (a ≤ b)%nat → l = take a l ++ slice a b l ++ drop b l.
Proof. intros H. by rewrite slice_drop_app, take_drop. Qed.

Lemma slice_slice_set_eq {A} a b (v l : list A) :
  length v = (b - a)%nat → (a ≤ b)%nat → (b ≤ length l)%nat →
  slice a b (slice_set a b v l) = v.
Proof. intros. unfold slice_set. apply slice_mid; autorewrite with len; lia. Qed.

Lemma slice_slice_set_lt {A} a b c d (v l : list A) :
  (d ≤ a)%nat → (a ≤ length l)%nat → slice c d (slice_set a b v l) = slice c d l.
Proof.
  intros. unfold slice_set. rewrite slice_app_l by (autorewrite with len; lia).
  rewrite <-(take_drop a l) at 2. rewrite slice_app_l; [done|autorewrite with len; lia].
Qed.

Lemma slice_slice_set_ge {A} a b c d (v l : list A) :
  length v = (b - a)%nat → (a ≤ b)%nat → (b ≤ length l)%nat → (b ≤ c)%nat →
  slice c d (slice_set a b v l) = slice c d l.
Proof.
  intros. unfold slice_set. rewrite app_assoc.
  rewrite slice_app_r by (autorewrite with len; lia).
  replace (length (take a l ++ v)) with b by (autorewrite with len; lia).
  unfold slice. rewrite drop_drop. f_equal; [lia|f_equal; lia].
Qed.

Lemma bytes_ok_app l k : bytes_ok (l ++ k) ↔ bytes_ok l ∧ bytes_ok k.
Proof. apply Forall_app. Qed.

Lemma bytes_ok_take n l : bytes_ok l → bytes_ok (take n l).
Proof. apply Forall_take. Qed.

Lemma bytes_ok_drop n l : bytes_ok l → bytes_ok (drop n l).
Proof. apply Forall_drop. Qed.

Lemma bytes_ok_slice a b l : bytes_ok l → bytes_ok (slice a b l).
Proof. intros. by apply bytes_ok_take, bytes_ok_drop. Qed.

Lemma bytes_ok_slice_set a b v l : bytes_ok v → bytes_ok l → bytes_ok (slice_set a b v l).
Proof. intros. apply bytes_ok_app; split; [|apply bytes_ok_app; split]; auto using bytes_ok_take, bytes_ok_drop. Qed.

Lemma bytes_ok_zeros n : bytes_ok (zeros n).
Proof. apply Forall_replicate. lia. Qed.

Lemma bytes_ok_digits n z : bytes_ok (digits 256 n z).
Proof. by apply digits_digits_ok. Qed.

#[global] Instance bytes_ok_dec l : Decision (bytes_ok l).
Proof. unfold bytes_ok, digits_ok. apply _. Defined.

(** [bytes_ok] of a concrete byte string, by evaluation. *)
Ltac bytes_concrete := apply (bool_decide_unpack _); vm_compute; exact I.

Create HintDb bytes.
#[export] Hint Resolve bytes_ok_take bytes_ok_drop bytes_ok_slice bytes_ok_slice_set
  bytes_ok_zeros bytes_ok_digits : bytes.

Lemma le_bound n l : bytes_ok l → length l = n → 0 ≤ undigits 256 l < 256 ^ Z.of_nat n.
Proof. intros Hl <-. by apply undigits_bound. Qed.

Lemma le_encode_decode n l : bytes_ok l → length l = n → digits 256 n (undigits 256 l) = l.
Proof. intros Hl <-. by apply digits_undigits. Qed.

Lemma le_decode_encode n z : 0 ≤ z < 256 ^ Z.of_nat n → undigits 256 (digits 256 n z) = z.
Proof. intros. rewrite undigits_digits by lia. by apply Z.mod_small. Qed.

(** ** Words: masks and rotations *)

Lemma land_ones_mod w x : 0 ≤ w → Z.land x (2 ^ w - 1) = x mod 2 ^ w.
Proof. intros. rewrite Z.sub_1_r, <-Z.ones_equiv. by apply Z.land_ones. Qed.

Lemma land_mask16 x : Z.land x 0xFFFF = x mod 2 ^ 16.
Proof. by apply (land_ones_mod 16). Qed.

Lemma land_mask32 x : Z.land x 0xFFFFFFFF = x mod 2 ^ 32.
Proof. by apply (land_ones_mod 32). Qed.

Lemma land_mask64 x : Z.land x 0xFFFFFFFFFFFFFFFF = x mod 2 ^ 64.
Proof. by apply (land_ones_mod 64). Qed.

Lemma testbit_above w x i : 0 ≤ x < 2 ^ w → 0 ≤ w ≤ i → Z.testbit x i = false.
Proof. intros Hx Hi. rewrite <-(Z.mod_small x (2 ^ w)) by done. apply Z.mod_pow2_bits_high; lia. Qed.

Lemma lxor_bound w x y : 0 ≤ w → 0 ≤ x < 2 ^ w → 0 ≤ y < 2 ^ w → 0 ≤ Z.lxor x y < 2 ^ w.
Proof.
  intros Hw Hx Hy. assert (Z.lxor x y = Z.lxor x y mod 2 ^ w) as ->.
  { rewrite <-Z.land_ones by done. apply Z.bits_inj'. intros i Hi.
    rewrite Z.land_spec, Z.lxor_spec. destruct (decide (i < w)).
    - rewrite Z.ones_spec_low by lia. by rewrite andb_true_r.
    - by rewrite (testbit_above w x), (testbit_above w y) by lia. }
  apply Z.mod_pos_bound. lia.
Qed.

Lemma lxor_mod w x y : 0 ≤ w → Z.lxor x y mod 2 ^ w = Z.lxor (x mod 2 ^ w) (y mod 2 ^ w).
Proof.
  intros Hw. rewrite <-!Z.land_ones by done. apply Z.bits_inj'. intros i Hi.
  rewrite !Z.lxor_spec, !Z.land_spec, Z.lxor_spec.
  destruct (Z.testbit (Z.ones w) i); by rewrite ?andb_true_r, ?andb_false_r.
Qed.

(** [x | (y << k)] of disjoint fields is a sum. *)
Lemma lor_shiftl_add x y k : 0 ≤ k → 0 ≤ x < 2 ^ k → Z.lor (Z.shiftl y k) x = y * 2 ^ k + x.
Proof.
  intros Hk Hx. rewrite <-Z.shiftl_mul_pow2 by done. symmetry.
  apply Z.add_nocarry_lor, Z.bits_inj'. intros i Hi. rewrite Z.land_spec, Z.bits_0.
  destruct (decide (i < k)).
  - by rewrite (Z.shiftl_spec_low y k i) by lia.
  - by rewrite (testbit_above k x i), andb_false_r by lia.
Qed.

(** [((x << y) | (x >> (w - y))) & (2^w - 1)] *)
Definition rotate_left (w x y : Z) : Z :=
  Z.land (Z.lor (Z.shiftl x y) (Z.shiftr x (w - y))) (2 ^ w - 1).

Lemma rotate_left_bound w x y : 0 ≤ w → 0 ≤ rotate_left w x y < 2 ^ w.
Proof. intros. unfold rotate_left. rewrite land_ones_mod by done. apply Z.mod_pos_bound. lia. Qed.

Lemma rotate_left_spec w x y i :
  0 ≤ y ≤ w → 0 ≤ x < 2 ^ w → 0 ≤ i →
  Z.testbit (rotate_left w x y) i =
    (i <? w) && (if i <? y then Z.testbit x (i + w - y) else Z.testbit x (i - y)).
Proof.
  intros Hy Hx Hi. unfold rotate_left.
  rewrite land_ones_mod by lia. destruct (Z.ltb_spec i w).
  - rewrite Z.mod_pow2_bits_low, Z.lor_spec, Z.shiftl_spec, Z.shiftr_spec by lia. simpl.
    destruct (Z.ltb_spec i y).
    + rewrite (Z.testbit_neg_r x (i - y)) by lia. simpl. f_equal; lia.
    + rewrite (testbit_above w x (i + (w - y))) by lia. by rewrite orb_false_r.
  - by rewrite Z.mod_pow2_bits_high by lia.
Qed.

(** Rotating left by [y] and then by [w - y] is the identity. *)
Lemma rotate_left_inv w x y :
  0 ≤ y ≤ w → 0 ≤ x < 2 ^ w → rotate_left w (rotate_left w x y) (w - y) = x.
Proof.
  intros Hy Hx. apply Z.bits_inj'. intros i Hi.
  pose proof (rotate_left_bound w x y ltac:(lia)) as Hr.
  rewrite rotate_left_spec by lia.
  destruct (Z.ltb_spec i w); simpl.
  - destruct (Z.ltb_spec i (w - y)); rewrite rotate_left_spec by lia.
    + rewrite (proj2 (Z.ltb_lt _ _)) by lia. rewrite (proj2 (Z.ltb_ge _ _)) by lia. simpl. f_equal; lia.
    + rewrite !(proj2 (Z.ltb_lt _ _)) by lia. simpl. f_equal; lia.
  - by rewrite (testbit_above w x i) by lia.
Qed.

Lemma lxor_cancel x y : Z.lxor (Z.lxor x y) y = x.
Proof. by rewrite Z.lxor_assoc, Z.lxor_nilpotent, Z.lxor_0_r. Qed.

(** ** Loops that undo each other *)

(** A [for] loop whose steps are undone one by one, in the reverse order. *)
Lemma foldl_rev_inv {A St} (P : St → Prop) (f g : St → A → St) (l : list A) (s : St) :
  (∀ s a, P s → P (f s a) ∧ g (f s a) a = s) → P s →
  foldl g (foldl f s l) (rev l) = s.
Proof.
  intros H. revert s. induction l as [|a l IH]; intros s Hs; [done|].
  simpl. rewrite foldl_app. simpl. destruct (H s a Hs) as [HP E]. by rewrite IH.
Qed.

Lemma foldl_invariant {A St} (P : St → Prop) (f : St → A → St) (l : list A) (s : St) :
  (∀ s a, P s → P (f s a)) → P s → P (foldl f s l).
Proof. intros H. revert s. induction l as [|a l IH]; intros s Hs; simpl; eauto. Qed.

Lemma iter_invariant {St} (P : St → Prop) (f : St → St) n (s : St) :
  (∀ s, P s → P (f s)) → P s → P (Nat.iter n f s).
Proof. intros H Hs. induction n as [|n IH]; simpl; eauto. Qed.

(** ** Block-wise transforms

    [blocks T n l] applies [T] to the first [n] blocks of eight bytes of [l]
    and keeps the rest: what the in-place block loops of the codecs compute. *)

Fixpoint blocks (T : bytes → bytes) (n : nat) (l : bytes) : bytes :=
  match n with
  | O => l
  | S n => T (take 8 l) ++ blocks T n (drop 8 l)
  end.

Lemma slice_set_app_r {A} a b (v l k : list A) :
  (length l ≤ a)%nat → (length l ≤ b)%nat →
  slice_set a b v (l ++ k) = l ++ slice_set (a - length l) (b - length l) v k.
Proof.
  intros Ha Hb. unfold slice_set. rewrite take_app_ge, drop_app_ge by lia.
  by rewrite <-!app_assoc.
Qed.

Lemma slice_drop {A} a b n (l : list A) : slice a b (drop n l) = slice (n + a) (n + b) l.
Proof. unfold slice. rewrite drop_drop. f_equal. lia. Qed.

Section Blocks.
Context (T : bytes → bytes).
Context (T_len : ∀ b, length b = 8%nat → length (T b) = 8%nat).

Lemma length_blocks n l : (8 * n ≤ length l)%nat → length (blocks T n l) = length l.
Proof.
  revert l. induction n as [|n IH]; intros l H; [done|].
  cbn [blocks]. rewrite length_app, T_len, IH; len_solve.
Qed.

Lemma drop_blocks n l : (8 * n ≤ length l)%nat → drop (8 * n) (blocks T n l) = drop (8 * n) l.
Proof.
  revert l. induction n as [|n IH]; intros l H; [done|].
  cbn [blocks]. replace (8 * S n)%nat with (8 + 8 * n)%nat by lia. rewrite <-!drop_drop.
  rewrite drop_app_length' by (symmetry; apply T_len; len_solve). apply IH. len_solve.
Qed.

Lemma blocks_snoc n l : (8 * S n ≤ length l)%nat →
  slice_set (8 * n) (8 * n + 8) (T (slice (8 * n) (8 * n + 8) l)) (blocks T n l) = blocks T (S n) l.
Proof.
  revert l. induction n as [|n IH]; intros l H.
  { unfold slice_set, slice. simpl. by rewrite drop_0. }
  cbn [blocks]. assert (length (T (take 8 l)) = 8%nat) as L by (apply T_len; len_solve).
  rewrite slice_set_app_r by lia. rewrite L. f_equal.
  replace (8 * S n - 8)%nat with (8 * n)%nat by lia.
  replace (8 * S n + 8 - 8)%nat with (8 * n + 8)%nat by lia.
  replace (8 * S n)%nat with (8 + 8 * n)%nat by lia.
  replace (8 + 8 * n + 8)%nat with (8 + (8 * n + 8))%nat by lia.
  rewrite <-slice_drop. apply IH. len_solve.
Qed.

Lemma slice_blocks_next n l : (8 * S n ≤ length l)%nat →
  slice (8 * n) (8 * n + 8) (blocks T n l) = slice (8 * n) (8 * n + 8) l.
Proof.
  revert l. induction n as [|n IH]; intros l H; [done|].
  cbn [blocks]. assert (length (T (take 8 l)) = 8%nat) as L by (apply T_len; len_solve).
  rewrite slice_app_r by lia. rewrite L.
  replace (8 * S n - 8)%nat with (8 * n)%nat by lia.
  replace (8 * S n + 8 - 8)%nat with (8 * n + 8)%nat by lia.
  rewrite IH by len_solve. rewrite slice_drop. f_equal; lia.
Qed.

Lemma bytes_ok_blocks n l : (∀ b, bytes_ok b → length b = 8%nat → bytes_ok (T b)) →
  (8 * n ≤ length l)%nat → bytes_ok l → bytes_ok (blocks T n l).
Proof.
  intros HT. revert l. induction n as [|n IH]; intros l Hn Hl; [done|].
  cbn [blocks]. apply bytes_ok_app. split; [apply HT|apply IH]; auto with bytes; len_solve.
Qed.
End Blocks.

Lemma blocks_inverse T U n l :
  (∀ b, length b = 8%nat → length (T b) = 8%nat) →
  (∀ b, bytes_ok b → length b = 8%nat → U (T b) = b) →
  bytes_ok l → (8 * n ≤ length l)%nat → blocks U n (blocks T n l) = l.
Proof.
  intros HT HU. revert l. induction n as [|n IH]; intros l Hl Hn; [done|].
  cbn [blocks]. assert (length (T (take 8 l)) = 8%nat) as L by (apply HT; len_solve).
  rewrite take_app_length', drop_app_length' by done.
  rewrite HU, IH by (auto with bytes || len_solve). apply take_drop.
Qed.

(** An in-place loop over the blocks that follow a prefix. *)
Definition inplace_step (p : nat) (t : bytes → result bytes) (out : bytes) (k : nat) : result bytes :=
  let cursor := (p + k * 8)%nat in
  b ← t (slice cursor (cursor + 8) out);
  Ok (slice_set cursor (cursor + 8) b out).

(** The same loop reading its blocks from a separate source. *)
Definition copy_step (p : nat) (t : bytes → result bytes) (src out : bytes) (k : nat) : result bytes :=
  let cursor := (p + k * 8)%nat in
  b ← t (slice cursor (cursor + 8) src);
  Ok (slice_set cursor (cursor + 8) b out).

Section BlockLoops.
Context (t : bytes → result bytes) (T : bytes → bytes) (p : nat) (pre : bytes).
Context (Ht : ∀ b, length b = 8%nat → t b = Ok (T b) ∧ length (T b) = 8%nat).
Context (Hpre : length pre = p).

Lemma block_cursor k : (p + k * 8 - length pre = 8 * k ∧ p + k * 8 + 8 - length pre = 8 * k + 8)%nat.
Proof using Hpre. lia. Qed.

Lemma slice_set_block k (v l : bytes) :
  slice_set (p + k * 8) (p + k * 8 + 8) v (pre ++ l) = pre ++ slice_set (8 * k) (8 * k + 8) v l.
Proof using Hpre. destruct (block_cursor k) as [E1 E2]. rewrite slice_set_app_r by lia. by rewrite E1, E2. Qed.

Lemma slice_block k (l : bytes) :
  slice (p + k * 8) (p + k * 8 + 8) (pre ++ l) = slice (8 * k) (8 * k + 8) l.
Proof using Hpre. destruct (block_cursor k) as [E1 E2]. rewrite slice_app_r by lia. by rewrite E1, E2. Qed.

Lemma copy_step_ok k pl : (8 * S k ≤ length pl)%nat →
  copy_step p t (pre ++ pl) (pre ++ blocks T k pl) k = Ok (pre ++ blocks T (S k) pl).
Proof using Hpre Ht.
  intros Hk. unfold copy_step. cbv zeta. rewrite slice_block.
  destruct (Ht (slice (8 * k) (8 * k + 8) pl)) as [-> _]; [len_solve|]. rewrite bind_ret, slice_set_block.
  by rewrite blocks_snoc by (intros; apply Ht || lia; done).
Qed.

Lemma inplace_step_ok k pl : (8 * S k ≤ length pl)%nat →
  inplace_step p t (pre ++ blocks T k pl) k = Ok (pre ++ blocks T (S k) pl).
Proof using Hpre Ht.
  intros Hk. rewrite <-copy_step_ok by done. unfold inplace_step, copy_step. cbv zeta.
  rewrite !slice_block, slice_blocks_next by (intros; apply Ht || lia; done). done.
Qed.

Lemma block_loop (step : bytes → nat → result bytes) n pl :
  (∀ k, (8 * S k ≤ length pl)%nat → step (pre ++ blocks T k pl) k = Ok (pre ++ blocks T (S k) pl)) →
  (8 * n ≤ length pl)%nat →
  foldM step (pre ++ pl) (seq 0 n) = Ok (pre ++ blocks T n pl).
Proof using Hpre.
  intros Hstep Hn.
  enough (∀ m k, (8 * (k + m) ≤ length pl)%nat →
    foldM step (pre ++ blocks T k pl) (seq k m) = Ok (pre ++ blocks T (k + m) pl)) as H by (by apply (H n 0%nat)).
  intros m. induction m as [|m IH]; intros k Hk; [by rewrite Nat.add_0_r|].
  cbn [seq foldM]. rewrite Hstep by lia. rewrite bind_ret, IH by lia. by rewrite Nat.add_succ_r.
Qed.

Lemma copy_loop n pl : (8 * n ≤ length pl)%nat →
  foldM (copy_step p t (pre ++ pl)) (pre ++ pl) (seq 0 n) = Ok (pre ++ blocks T n pl).
Proof using Hpre Ht. intros. apply block_loop; [intros; by apply copy_step_ok|done]. Qed.

Lemma inplace_loop n pl : (8 * n ≤ length pl)%nat →
  foldM (inplace_step p t) (pre ++ pl) (seq 0 n) = Ok (pre ++ blocks T n pl).
Proof using Hpre Ht. intros. apply block_loop; [intros; by apply inplace_step_ok|done]. Qed.
End BlockLoops.

(** ** Fields *)

Lemma unpack_from_ok n l off : (off + n ≤ length l)%nat →
  unpack_from n l off = Ok (undigits 256 (slice off (off + n) l)).
Proof. intros. unfold unpack_from. by rewrite decide_True. Qed.

Lemma unpack_from_Ok n l off v : unpack_from n l off = Ok v →
  (off + n ≤ length l)%nat ∧ v = undigits 256 (slice off (off + n) l).
Proof. unfold unpack_from. case_decide; [|done]. intros [= <-]. done. Qed.

Lemma unpack_from_bound n l off v : bytes_ok l → unpack_from n l off = Ok v → 0 ≤ v < 256 ^ Z.of_nat n.
Proof. intros Hl [H ->]%unpack_from_Ok. apply le_bound; [auto with bytes|len_solve]. Qed.

Lemma unpack_from_ext n l k off : length l = length k →
  slice off (off + n) l = slice off (off + n) k → unpack_from n l off = unpack_from n k off.
Proof. intros Hl Hs. unfold unpack_from. by rewrite Hl, Hs. Qed.

Lemma pack_into_ok n l off v : (off + n ≤ length l)%nat → 0 ≤ v < 256 ^ Z.of_nat n →
  pack_into n l off v = Ok (slice_set off (off + n) (digits 256 n v) l).
Proof. intros. unfold pack_into. by rewrite decide_True. Qed.

Lemma pack_into_Ok n l off v k : pack_into n l off v = Ok k →
  (off + n ≤ length l)%nat ∧ 0 ≤ v < 256 ^ Z.of_nat n ∧
  k = slice_set off (off + n) (digits 256 n v) l.
Proof. unfold pack_into. case_decide as H; [|done]. intros [= <-]. naive_solver. Qed.

(** A field read from octets: its range, and its digits are the octets. *)
Lemma unpack_from_field n l off : bytes_ok l → (off + n ≤ length l)%nat →
  ∃ v, unpack_from n l off = Ok v ∧ 0 ≤ v < 256 ^ Z.of_nat n ∧ digits 256 n v = slice off (off + n) l.
Proof.
  intros Hl H. exists (undigits 256 (slice off (off + n) l)). rewrite unpack_from_ok by done.
  assert (length (slice off (off + n) l) = n) by len_solve.
  split; [done|split; [apply le_bound|apply le_encode_decode]; auto with bytes].
Qed.

(** Reading back the field just written. *)
Lemma unpack_pack_into n l off v k : pack_into n l off v = Ok k → unpack_from n k off = Ok v.
Proof.
  intros (Hl & Hv & ->)%pack_into_Ok. rewrite unpack_from_ok by len_solve.
  rewrite slice_slice_set_eq by len_solve. by rewrite le_decode_encode.
Qed.

Lemma slice_slice {A} a b c d (l : list A) : (c ≤ a)%nat → (b ≤ d)%nat →
  slice a b l = slice (a - c) (b - c) (slice c d l).
Proof.
  intros. unfold slice. rewrite skipn_firstn_comm, take_take, drop_drop.
  f_equal; [|f_equal]; lia.
Qed.

Lemma unpack_from_slice n l a b k : (0 < n)%nat → (a + k + n ≤ b)%nat → (b ≤ length l)%nat →
  unpack_from n (slice a b l) k = unpack_from n l (a + k).
Proof.
  intros. rewrite !unpack_from_ok by (rewrite ?length_slice; lia).
  rewrite (slice_slice (a + k) (a + k + n) a b) by lia. do 3 f_equal; lia.
Qed.

Lemma index_ok l i : (i < length l)%nat → index l i = Ok (l !!! i).
Proof.
  intros H. unfold index. destruct (lookup_lt_is_Some_2 l i H) as [b Hb].
  rewrite Hb. by rewrite (list_lookup_total_correct _ _ _ Hb).
Qed.

(** ** Indexed lists *)

(** [l[i]] and [l[i] = v] on a Python list, [0 <= i]. *)
Definition list_get {A} (l : list A) (i : nat) : result A :=
  match l !! i with Some a => Ok a | None => Raise IndexError end.
Definition list_put {A} (l : list A) (i : nat) (v : A) : result (list A) :=
  if decide (i < length l)%nat then Ok (<[i := v]> l) else Raise IndexError.

Lemma list_get_ok {A} (l : list A) i : (i < length l)%nat → ∃ a, list_get l i = Ok a ∧ l !! i = Some a.
Proof. intros [a Ha]%lookup_lt_is_Some_2. exists a. unfold list_get. by rewrite Ha. Qed.

Lemma list_put_ok {A} (l : list A) i v : (i < length l)%nat → list_put l i v = Ok (<[i := v]> l).
Proof. intros. unfold list_put. by rewrite decide_True. Qed.

(** [r] returns a value satisfying [P] or raises [ValueError]: the outcome a
    caller that handles [ValueError] relies on. *)
Definition value_or {A} (P : A → Prop) (r : result A) : Prop :=
  match r with
  | Ok a => P a
  | Raise (ValueError _) => True
  | Raise _ => False
  end.

Lemma value_or_bind {A B} (P : A → Prop) (Q : B → Prop) (m : result A) (f : A → result B) :
  value_or P m → (∀ a, P a → m = Ok a → value_or Q (f a)) → value_or Q (m ≫= f).
Proof. destruct m as [a|[]]; simpl; auto. Qed.

Lemma value_or_raise_if {B} (Q : B → Prop) c msg (k : result B) :
  (c = false → value_or Q k) → value_or Q (_ ← raise_if c (ValueError msg); k).
Proof. destruct c; simpl; auto. Qed.

Lemma value_or_impl {A} (P Q : A → Prop) r : value_or P r → (∀ a, P a → Q a) → value_or Q r.
Proof. destruct r as [a|[]]; simpl; auto. Qed.

Lemma foldM_value_or {A St} (I : St → Prop) (f : St → A → result St) (l : list A) s :
  (∀ s a, a ∈ l → I s → value_or I (f s a)) → I s → value_or I (foldM f s l).
Proof.
  revert s. induction l as [|a l IH]; intros s H Hs; [done|]. simpl.
  eapply value_or_bind; [apply H; [set_solver|done]|]. intros s' Hs' _. apply IH; [|done].
  intros ? ? ?. apply H. set_solver.
Qed.

Lemma land_small_bound x k : 0 ≤ k → 0 ≤ Z.land x (2 ^ k - 1) < 2 ^ k.
Proof. intros. rewrite land_ones_mod by done. apply Z.mod_pos_bound. lia. Qed.

(** ** Fixed layouts

    The builders fill a zeroed buffer field by field; [put] is the pure update
    they perform.  It keeps the length whatever the arguments, so the lengths of
    nested updates rewrite without side conditions. *)

(** [bytearray[i] = v]: [ValueError] outside an octet, [IndexError] outside
    the array. *)
Definition set_byte (l : bytes) (i : nat) (v : Z) : result bytes :=
  _ ← raise_if (negb ((0 <=? v) && (v <? 256))) (ValueError "byte must be in range(0, 256)");
  if (i <? length l)%nat then Ok (<[i := v]> l) else Raise IndexError.

Definition put (off : nat) (v l : bytes) : bytes :=
  take (length l) (slice_set off (off + length v) v l).

Lemma length_put off v l : length (put off v l) = length l.
Proof. unfold put. len_simpl. lia. Qed.

#[export] Hint Rewrite length_put : len.

Lemma put_slice_set off v l : (off + length v ≤ length l)%nat →
  put off v l = slice_set off (off + length v) v l.
Proof. intros. unfold put. apply take_ge. len_solve. Qed.

Lemma slice_put_eq off m v l : (off + length v ≤ length l)%nat → m = (off + length v)%nat →
  slice off m (put off v l) = v.
Proof. intros H ->. rewrite put_slice_set by done. apply slice_slice_set_eq; lia. Qed.

Lemma slice_put_ne off a b v l : (off + length v ≤ length l)%nat →
  (b ≤ off ∨ off + length v ≤ a)%nat → slice a b (put off v l) = slice a b l.
Proof.
  intros H [?|?]; rewrite put_slice_set by done.
  - apply slice_slice_set_lt; lia.
  - apply slice_slice_set_ge; lia.
Qed.

Lemma bytes_ok_put off v l : bytes_ok v → bytes_ok l → bytes_ok (put off v l).
Proof. intros. unfold put. auto with bytes. Qed.

#[export] Hint Resolve bytes_ok_put : bytes.

Lemma pack_into_put n l off v : (off + n ≤ length l)%nat → 0 ≤ v < 256 ^ Z.of_nat n →
  pack_into n l off v = Ok (put off (digits 256 n v) l).
Proof. intros. rewrite pack_into_ok, put_slice_set by len_solve. by rewrite length_digits. Qed.

Lemma set_byte_ok l i v : (i < length l)%nat → 0 ≤ v < 256 → set_byte l i v = Ok (<[i := v]> l).
Proof.
  intros Hi Hv. unfold set_byte. rewrite raise_if_false by (apply negb_false_iff, andb_true_iff; lia).
  bind_simpl. by destruct (Nat.ltb_spec i (length l)); [|lia].
Qed.

Lemma set_byte_put l i v : (i < length l)%nat → 0 ≤ v < 256 → set_byte l i v = Ok (put i [v] l).
Proof.
  intros Hi Hv. rewrite set_byte_ok by done. f_equal.
  rewrite put_slice_set by (simpl; lia). unfold slice_set. simpl.
  rewrite insert_take_drop by done. f_equal. f_equal. f_equal. lia.
Qed.

Lemma pack_ok n v : 0 ≤ v < 256 ^ Z.of_nat n → pack n v = Ok (digits 256 n v).
Proof. intros. unfold pack. by rewrite decide_True. Qed.

(** Reading a field that starts in the second part of a buffer. *)
Lemma unpack_from_app_r n l k off : (length l ≤ off)%nat →
  unpack_from n (l ++ k) off = unpack_from n k (off - length l).
Proof.
  intros H. unfold unpack_from. rewrite slice_app_r by done.
  replace (off + n - length l)%nat with (off - length l + n)%nat by lia.
  apply decide_ext. len_solve.
Qed.

Lemma unpack_from_skip n l k off : unpack_from n (l ++ k) (length l + off) = unpack_from n k off.
Proof. rewrite unpack_from_app_r by lia. f_equal. lia. Qed.

Lemma unpack_from_app_l n l k off : (off + n ≤ length l)%nat → unpack_from n (l ++ k) off = unpack_from n l off.
Proof. intros H. rewrite !unpack_from_ok by len_solve. by rewrite slice_app_l. Qed.

Lemma unpack_from_drop n l k off : (0 < n)%nat → unpack_from n l (k + off) = unpack_from n (drop k l) off.
Proof.
  intros Hn. unfold unpack_from. rewrite slice_drop, Nat.add_assoc. apply decide_ext. len_solve.
Qed.

Lemma index_app_l l k i : (i < length l)%nat → index (l ++ k) i = index l i.
Proof. intros H. unfold index. by rewrite lookup_app_l. Qed.

Lemma index_drop l k i : index l (k + i) = index (drop k l) i.
Proof. unfold index. by rewrite lookup_drop. Qed.

(** Reading a field known to hold the digits of [v]. *)
Lemma unpack_digits n l off v : (0 < n)%nat → 0 ≤ v < 256 ^ Z.of_nat n →
  slice off (off + n) l = digits 256 n v → unpack_from n l off = Ok v.
Proof.
  intros Hn Hv E. assert (length (slice off (off + n) l) = n) as L by by rewrite E, length_digits.
  rewrite unpack_from_ok by len_solve. by rewrite E, le_decode_encode.
Qed.

Lemma index_slice1 l i b : slice i (i + 1) l = [b] → index l i = Ok b.
Proof.
  unfold slice, index. replace (i + 1 - i)%nat with 1%nat by lia. intros H.
  destruct (drop i l) as [|c k] eqn:E; [done|]. injection H as ->.
  assert (drop i l !! 0%nat = Some b) as H by by rewrite E.
  rewrite lookup_drop, Nat.add_0_r in H. by rewrite H.
Qed.

Lemma lookup_total_slice1 (l : bytes) i b : slice i (i + 1) l = [b] → l !!! i = b.
Proof.
  intros H%index_slice1. unfold index in H. destruct (l !! i) eqn:E; [|done]. injection H as <-.
  by apply list_lookup_total_correct.
Qed.

Lemma slice_set_put a b v l : length v = (b - a)%nat → (a ≤ b ≤ length l)%nat →
  slice_set a b v l = put a v l.
Proof. intros Hv Hb. rewrite put_slice_set by lia. f_equal. lia. Qed.

(** Evaluates the powers [256 ^ n] of field widths, for [lia]. *)
Ltac eval_widths :=
  repeat match goal with
  | |- context [256 ^ Z.of_nat ?n] =>
      let c := eval vm_compute in (256 ^ Z.of_nat n) in change (256 ^ Z.of_nat n) with c
  | H : context [256 ^ Z.of_nat ?n] |- _ =>
      let c := eval vm_compute in (256 ^ Z.of_nat n) in change (256 ^ Z.of_nat n) with c in H
  end.

Lemma land16_range x : 0 ≤ Z.land x 0xFFFF < 65536.
Proof. apply (land_small_bound x 16). lia. Qed.
Lemma land32_range x : 0 ≤ Z.land x 0xFFFFFFFF < 4294967296.
Proof. apply (land_small_bound x 32). lia. Qed.
Lemma land64_range x : 0 ≤ Z.land x 0xFFFFFFFFFFFFFFFF < 18446744073709551616.
Proof. apply (land_small_bound x 64). lia. Qed.

(** The range of a field value: a constant, a masked word or a hypothesis. *)
Ltac field_range :=
  eval_widths;
  first [lia | apply land32_range | apply land64_range | apply land16_range].

(** Runs the field writes at the head of a builder. *)
Ltac build_step :=
  first
  [ rewrite pack_into_put by first [len_solve | field_range]
  | rewrite set_byte_put by first [len_solve | field_range]
  | rewrite slice_set_put by len_solve ];
  bind_simpl.

(** Reads the fields of nested [put]s. *)
Ltac fields :=
  repeat first
  [ rewrite slice_put_eq by len_solve
  | rewrite slice_put_ne by len_solve ];
  rewrite ?le_decode_encode by field_range.

(** A slice of untouched zero bytes. *)
Lemma slice_zeros a b n : (a ≤ b ≤ n)%nat → slice a b (zeros n) = zeros (b - a).
Proof. intros. unfold slice, zeros. rewrite drop_replicate, take_replicate. f_equal. lia. Qed.

Lemma undigits_zeros n : undigits 256 (zeros n) = 0.
Proof. induction n as [|n IH]; [done|]. cbn [zeros replicate undigits]. unfold zeros in IH. by rewrite IH. Qed.

(** ** Sums over a map *)

(** The sum of a measure over the values of a dictionary. *)
Definition map_sum {A} (f : A → Z) (m : gmap Z A) : Z := map_fold (λ _ a n, f a + n) 0 m.

Section MapSum.
Context {A : Type} (f : A → Z).

Lemma map_sum_insert m k a : m !! k = None → map_sum f (<[k := a]> m) = f a + map_sum f m.
Proof. intros H. unfold map_sum. by rewrite map_fold_insert_L by (lia || done). Qed.

Lemma map_sum_delete m k a : m !! k = Some a → map_sum f m = f a + map_sum f (delete k m).
Proof. intros H. unfold map_sum. by rewrite (map_fold_delete_L _ _ k a) by (lia || done). Qed.

Lemma map_sum_update m k a b : m !! k = Some a → map_sum f (<[k := b]> m) = map_sum f m - f a + f b.
Proof.
  intros H. rewrite <-insert_delete_eq, map_sum_insert by apply lookup_delete_eq.
  rewrite (map_sum_delete m k a) by done. lia.
Qed.

Lemma map_sum_nonneg m : (∀ a, 0 ≤ f a) → 0 ≤ map_sum f m.
Proof.
  intros H. unfold map_sum. apply (map_fold_weak_ind (λ r _, 0 ≤ r)); [done|].
  intros _ a _ r _ ?. specialize (H a). lia.
Qed.

Lemma map_sum_empty : map_sum f ∅ = 0.
Proof. done. Qed.
End MapSum.

(** The octets of a string of ASCII characters. *)
Definition ascii (s : string) : bytes := map (λ c, Z.of_nat (Ascii.nat_of_ascii c)) (String.list_ascii_of_string s).

(** A list of values made by a constructor, and what a projection finds in it. *)
Lemma omap_made {A B} (f : B → option A) (c : A → B) (l : list A) : (∀ a, f (c a) = Some a) → omap f (c <$> l) = l.
Proof. intros H. induction l as [|a l IH]; [done|]. cbn. by rewrite H, IH. Qed.

Lemma omap_none {A B C} (f : B → option C) (c : A → B) (l : list A) : (∀ a, f (c a) = None) → omap f (c <$> l) = [].
Proof. intros H. induction l as [|a l IH]; [done|]. cbn. by rewrite H. Qed.

(** ** Insertion-ordered dictionaries *)

(** A Python [dict] whose order is observed: its items, oldest first. *)
Section Dict.
Context {K V : Type} `{EqDecision K}.
Implicit Types d : list (K * V).

Fixpoint dict_get (k : K) d : option V :=
  match d with
  | [] => None
  | (k', v) :: d => if decide (k' = k) then Some v else dict_get k d
  end.

(** [d[k] = v]: an existing key keeps its place. *)
Fixpoint dict_set (k : K) (v : V) d : list (K * V) :=
  match d with
  | [] => [(k, v)]
  | (k', v') :: d => if decide (k' = k) then (k, v) :: d else (k', v') :: dict_set k v d
  end.

Definition dict_del (k : K) d : list (K * V) := filter (λ kv, kv.1 ≠ k) d.
(** [del d[k]] *)
Definition dict_pop (k : K) d : result (list (K * V)) :=
  match dict_get k d with Some _ => Ok (dict_del k d) | None => Raise KeyError end.

Lemma dict_get_elem k v d : dict_get k d = Some v → (k, v) ∈ d.
Proof.
  induction d as [|[k' v'] d IH]; simpl; [done|]. case_decide as E; intros H.
  - injection H as <-. subst. set_solver.
  - set_solver.
Qed.

Lemma dict_get_None k d : dict_get k d = None ↔ k ∉ d.*1.
Proof.
  induction d as [|[k' v'] d IH]; simpl; [set_solver|]. case_decide as E.
  - split; [done|]. subst. set_solver.
  - rewrite IH. set_solver.
Qed.

Lemma dict_get_nodup k v d : NoDup d.*1 → (k, v) ∈ d → dict_get k d = Some v.
Proof.
  induction d as [|[k' v'] d IH]; simpl; [set_solver|]. intros [Hni Hnd]%NoDup_cons [[= <- <-]|H]%elem_of_cons.
  - by rewrite decide_True.
  - rewrite decide_False; [by apply IH|]. intros ->. apply Hni, list_elem_of_fmap. by exists (k, v).
Qed.

Lemma dict_set_fresh k v d : dict_get k d = None → dict_set k v d = d ++ [(k, v)].
Proof. induction d as [|[k' v'] d IH]; simpl; [done|]. case_decide; [done|]. intros. by rewrite IH. Qed.

Lemma dict_set_keys k v d : is_Some (dict_get k d) → (dict_set k v d).*1 = d.*1.
Proof.
  induction d as [|[k' v'] d IH]; simpl; [by intros []|]. case_decide as E; [by subst|].
  intros H. cbn. by rewrite IH.
Qed.

Lemma dict_get_set k v d k' : dict_get k' (dict_set k v d) = if decide (k = k') then Some v else dict_get k' d.
Proof.
  induction d as [|[k0 v0] d IH]; simpl; [done|]. destruct (decide (k0 = k)) as [->|]; simpl.
  - by destruct (decide (k = k')).
  - rewrite IH. destruct (decide (k0 = k')) as [->|], (decide (k = k')); congruence.
Qed.

Lemma dict_set_elem k v d kv : kv ∈ dict_set k v d → kv = (k, v) ∨ kv ∈ d.
Proof.
  induction d as [|[k0 v0] d IH]; simpl; [set_solver|]. case_decide; set_solver.
Qed.

Lemma dict_del_keys k d : NoDup d.*1 → NoDup (dict_del k d).*1.
Proof.
  unfold dict_del. induction d as [|[k' v'] d IH]; [done|]. intros [Hni Hnd]%NoDup_cons. destruct (decide (k' = k)) as [->|Hne].
  - rewrite filter_cons_False by (simpl; tauto). by apply IH.
  - rewrite filter_cons_True by done. constructor; [|by apply IH]. intros ([k0 v0] & E & [_ Hin]%list_elem_of_filter)%list_elem_of_fmap.
    apply Hni, list_elem_of_fmap. by exists (k0, v0).
Qed.

Lemma dict_del_elem k d kv : kv ∈ dict_del k d ↔ kv ∈ d ∧ kv.1 ≠ k.
Proof. unfold dict_del. rewrite list_elem_of_filter. tauto. Qed.

Lemma dict_del_length k d : (length (dict_del k d) ≤ length d)%nat.
Proof. apply length_filter. Qed.

Lemma dict_del_fresh k d : dict_get k d = None → dict_del k d = d.
Proof.
  rewrite dict_get_None. intros H. unfold dict_del. induction d as [|[k' v'] d IH]; [done|].
  rewrite filter_cons_True by set_solver. f_equal. apply IH. set_solver.
Qed.

Lemma dict_del_perm k v d : NoDup d.*1 → dict_get k d = Some v → d ≡ₚ (k, v) :: dict_del k d.
Proof.
  unfold dict_del. induction d as [|[k' v'] d IH]; simpl; [done|]. intros [Hni Hnd]%NoDup_cons. case_decide as E.
  - intros [= ->]. subst. rewrite filter_cons_False by (simpl; tauto). f_equiv.
    pose proof (dict_del_fresh k d) as Hf. unfold dict_del in Hf. rewrite Hf; [done|]. by apply dict_get_None.
  - intros H. rewrite filter_cons_True by done. rewrite (IH Hnd H) at 1. apply Permutation_swap.
Qed.
Lemma dict_split k v d : NoDup d.*1 → dict_get k d = Some v →
  ∃ l1 l2, d = l1 ++ (k, v) :: l2 ∧ (∀ v', dict_set k v' d = l1 ++ (k, v') :: l2) ∧ dict_del k d = l1 ++ l2.
Proof.
  induction d as [|[k' v'] d IH]; [done|]. intros [Hni Hnd]%NoDup_cons. cbn [dict_get dict_set]. destruct (decide (k' = k)) as [->|Hne].
  - intros [= ->]. exists [], d. split_and!; [done|done|]. unfold dict_del. rewrite filter_cons_False by (simpl; tauto).
    pose proof (dict_del_fresh k d) as E. unfold dict_del in E. apply E. by apply dict_get_None.
  - intros H. destruct (IH Hnd H) as (l1 & l2 & -> & Hs & Hd). exists ((k', v') :: l1), l2. split_and!; [done|intros; by rewrite Hs|].
    unfold dict_del in *. rewrite filter_cons_True by done. cbn. f_equal. exact Hd.
Qed.

Lemma dict_del_set k v d : dict_del k (dict_set k v d) = dict_del k d.
Proof.
  unfold dict_del. induction d as [|[k' v'] d IH]; cbn [dict_set]; [by rewrite filter_cons_False by (simpl; tauto)|].
  case_decide as E; rewrite !filter_cons; cbn [fst]; [by subst; rewrite !decide_False by tauto|]. by rewrite IH.
Qed.
End Dict.

(** ** Stateful operations *)

(** A method of an object: its state, then its value or the exception it
    raises.  What was assigned before a [raise] stays assigned. *)
Definition M (S A : Type) : Type := S → S * result A.

#[global] Instance M_ret {S} : MRet (M S) := λ A a s, (s, Ok a).
#[global] Instance M_bind {S} : MBind (M S) := λ A B f m s,
  match m s with
  | (s, Ok a) => f a s
  | (s, Raise e) => (s, Raise e)
  end.

Definition get {S} : M S S := λ s, (s, Ok s).
Definition modify {S} (f : S → S) : M S unit := λ s, (f s, Ok tt).
Definition raise {S A} (e : exn) : M S A := λ s, (s, Raise e).
(** [if c: raise e] in a method. *)
Definition check {S} (c : bool) (e : exn) : M S unit := λ s, (s, raise_if c e).
(** A call that does not touch the object. *)
Definition lift {S A} (r : result A) : M S A := λ s, (s, r).

(** [try: m; except ValueError as exc: raise e from exc]. *)
Definition except_ValueError {S A} (e : exn) (m : M S A) : M S A := λ s,
  match m s with
  | (s, Raise (ValueError _)) => (s, Raise e)
  | r => r
  end.

(** The outcome of [m] from [s] satisfies [Q]. *)
Definition wp {S A} (m : M S A) (Q : result A → S → Prop) (s : S) : Prop := Q (m s).2 (m s).1.

Section Wp.
Context {S : Type}.

Lemma wp_bind {A B} (m : M S A) (f : A → M S B) (Q : result B → S → Prop) s :
  wp m (λ r s, match r with Ok a => wp (f a) Q s | Raise e => Q (Raise e) s end) s → wp (m ≫= f) Q s.
Proof. unfold wp, mbind, M_bind. by destruct (m s) as [? [?|?]]. Qed.

Lemma wp_mono {A} (m : M S A) (P Q : result A → S → Prop) s :
  wp m P s → (∀ r s, P r s → Q r s) → wp m Q s.
Proof. unfold wp. auto. Qed.

Lemma wp_ret {A} (a : A) (Q : result A → S → Prop) s : Q (Ok a) s → wp (mret a) Q s.
Proof. done. Qed.

Lemma wp_get (Q : result S → S → Prop) s : Q (Ok s) s → wp get Q s.
Proof. done. Qed.

Lemma wp_modify f (Q : result unit → S → Prop) s : Q (Ok tt) (f s) → wp (modify f) Q s.
Proof. done. Qed.

Lemma wp_raise {A} e (Q : result A → S → Prop) s : Q (Raise e) s → wp (raise e) Q s.
Proof. done. Qed.

Lemma wp_check c e (Q : result unit → S → Prop) s :
  (c = true → Q (Raise e) s) → (c = false → Q (Ok tt) s) → wp (check c e) Q s.
Proof. destruct c; unfold wp; simpl; auto. Qed.

Lemma wp_except {A} e (m : M S A) (Q : result A → S → Prop) s :
  wp m (λ r s, match r with Raise (ValueError _) => Q (Raise e) s | r => Q r s end) s →
  wp (except_ValueError e m) Q s.
Proof. unfold wp, except_ValueError. by destruct (m s) as [? [?|[]]]. Qed.

Lemma wp_lift {A} (r : result A) (Q : result A → S → Prop) s : Q r s → wp (lift r) Q s.
Proof. done. Qed.
End Wp.

(** Steps through the primitive operations of a method. *)
Ltac wp_step :=
  lazymatch goal with
  | |- wp (_ ≫= _) _ _ => apply wp_bind
  | |- wp (mret _) _ _ => apply wp_ret
  | |- wp get _ _ => apply wp_get
  | |- wp (modify _) _ _ => apply wp_modify
  | |- wp (raise _) _ _ => apply wp_raise
  | |- wp (check _ _) _ _ => apply wp_check; intros ?
  | |- wp (lift _) _ _ => apply wp_lift
  | |- wp (except_ValueError _ _) _ _ => apply wp_except
  | |- wp (if ?c then _ else _) _ _ => destruct c eqn:?
  | |- wp (match ?c with _ => _ end) _ _ => destruct c eqn:?
  end.

(** A loop over a list. *)
Fixpoint for_each {S A} (f : A → M S unit) (l : list A) : M S unit :=
  match l with [] => mret tt | a :: l => _ ← f a; for_each f l end.

(** ** Objects that share a clock *)

(** The state of a method that reads the clock: its object and the number of
    readings made so far.  The clock is a function of that number. *)
Section Objects.
Context {X Y : Type}.

Definition state : M (X * nat) X := λ s, (s, Ok s.1).
Definition assign (f : X → X) : M (X * nat) unit := modify (λ s, (f s.1, s.2)).
Definition now (clock : nat → Z) : M (X * nat) Z := λ s, ((s.1, S s.2), Ok (clock s.2)).

(** A call of a part of the object. *)
Definition on {A} (part : X → Y) (put : Y → X → X) (m : M (Y * nat) A) : M (X * nat) A := λ '(x, n),
  let '((y, n), r) := m (part x, n) in ((put y x, n), r).

(** A call of an object that reads no clock. *)
Definition timeless {A} (m : M X A) : M (X * nat) A := λ '(x, n), let '(x, r) := m x in ((x, n), r).
End Objects.

(** Whatever the clock says, [m] ends in a state and a result that satisfy [P]. *)
Definition ends {X A} (m : M (X * nat) A) (P : result A → X → Prop) (x : X) : Prop :=
  ∀ n, wp m (λ r s, P r s.1) (x, n).

Section Ends.
Context {X Y : Type}.
Implicit Types x : X.

Lemma ends_mono {A} (m : M (X * nat) A) (P Q : result A → X → Prop) x :
  ends m P x → (∀ r x, P r x → Q r x) → ends m Q x.
Proof. intros H HPQ n. eapply wp_mono; [apply H|]. intros r s. apply HPQ. Qed.

Lemma ends_bind {A B} (m : M (X * nat) A) (f : A → M (X * nat) B) (P : result B → X → Prop) x :
  ends m (λ r x, match r with Ok a => ends (f a) P x | Raise e => P (Raise e) x end) x → ends (m ≫= f) P x.
Proof. intros H n. apply wp_bind. eapply wp_mono; [apply H|]. intros [a|e] [x' n'] H'; [apply H'|done]. Qed.

Lemma ends_ret {A} (a : A) (P : result A → X → Prop) x : P (Ok a) x → ends (mret a) P x.
Proof. by intros H n. Qed.

Lemma ends_raise {A} e (P : result A → X → Prop) x : P (Raise e) x → ends (raise e) P x.
Proof. by intros H n. Qed.

Lemma ends_lift {A} r (P : result A → X → Prop) x : P r x → ends (lift r) P x.
Proof. by intros H n. Qed.

Lemma ends_check c e (P : result unit → X → Prop) x : (c = true → P (Raise e) x) → (c = false → P (Ok tt) x) → ends (check c e) P x.
Proof. intros H1 H2 n. apply wp_check; auto. Qed.

Lemma ends_state (P : result X → X → Prop) x : P (Ok x) x → ends state P x.
Proof. by intros H n. Qed.

Lemma ends_assign f (P : result unit → X → Prop) x : P (Ok tt) (f x) → ends (assign f) P x.
Proof. by intros H n. Qed.

Lemma ends_now clock (P : result Z → X → Prop) x : (∀ t, P (Ok t) x) → ends (now clock) P x.
Proof. intros H n. apply H. Qed.

Lemma ends_timeless {A} (m : M X A) (P : result A → X → Prop) x : wp m P x → ends (timeless m) P x.
Proof. intros H n. unfold wp, timeless in *. by destruct (m x). Qed.

Lemma ends_on {A} part put (m : M (Y * nat) A) (P : result A → X → Prop) x :
  ends m (λ r y, P r (put y x)) (part x) → ends (on part put m) P x.
Proof. intros H n. specialize (H n). unfold wp, on in *. by destruct (m _) as [[y n'] r]. Qed.
End Ends.

(** A loop, with an invariant of the state and what is left to do. *)
Lemma ends_each {X A} (f : A → M (X * nat) unit) (I : list A → X → Prop) l : ∀ x,
  (∀ a l x, I (a :: l) x → ends (f a) (λ r x, r = Ok tt ∧ I l x) x) → I l x → ends (for_each f l) (λ r x, r = Ok tt ∧ I [] x) x.
Proof.
  induction l as [|a l IH]; intros x Hf Hx; cbn [for_each]; [by apply ends_ret|].
  apply ends_bind. eapply ends_mono; [by apply Hf|]. intros r y [-> Hy]. by apply IH.
Qed.

Ltac ends_step :=
  lazymatch goal with
  | |- ends (_ ≫= _) _ _ => apply ends_bind
  | |- ends (mret _) _ _ => apply ends_ret
  | |- ends (raise _) _ _ => apply ends_raise
  | |- ends (lift _) _ _ => apply ends_lift
  | |- ends (check _ _) _ _ => apply ends_check; intros ?
  | |- ends state _ _ => apply ends_state
  | |- ends (assign _) _ _ => apply ends_assign
  | |- ends (now _) _ _ => apply ends_now; intros ?
  | |- ends (on _ _ _) _ _ => apply ends_on
  | |- ends (match ?c with _ => _ end) _ _ => destruct c eqn:?
  end.
