(* ===== verification/Rc5.v ===== *)
(** * The RC5 block cipher of the P2P transport

    Models class [RC5] of [src/backend/app/drivers/yoosee/p2p/crypto.py]: the
    constructor with its key schedule, and block encryption and decryption on
    bytes, for the three word sizes the class accepts.  The theorems show that
    the two block operations are inverse bijections for every key, and that
    the key schedule stays in range. *)

From Stdlib Require Import ZArith Lia.
From S2P Require Import Prelude.

Module Rc5.

(** The attributes the operations read; [mask], [ww], [bb] and [fmt] are
    functions of the word size. *)
Record RC5 := mkRC5 { w : Z; r : nat; S_ : list Z }.

Definition mask (w : Z) : Z := Z.shiftl 1 w - 1.
Definition ww (w : Z) : nat := Z.to_nat (w / 8).

Definition magic_P (w : Z) : Z :=
  if w =? 16 then 0xB7E1 else if w =? 32 then 0xB7E15163 else 0xB7E151628AED2A6B.
Definition magic_Q (w : Z) : Z :=
  if w =? 16 then 0x9E37 else if w =? 32 then 0x9E3779B9 else 0x9E3779B97F4A7C15.

Definition _rotl (w x y : Z) : Z :=
  let y := Z.land y (w - 1) in
  Z.land (Z.lor (Z.shiftl x y) (Z.shiftr x (w - y))) (mask w).

Definition _rotr (w x y : Z) : Z :=
  let y := Z.land y (w - 1) in
  Z.land (Z.lor (Z.shiftr x y) (Z.shiftl x (w - y))) (mask w).

(** The loop that loads the key bytes into the words [L]. *)
Definition load_key (w : Z) (key : bytes) : list Z :=
  let u := ww w in
  let b := length key in
  let c := Nat.max 1 ((b + u - 1) / u) in
  foldl (λ L i,
      <[(i / u)%nat := Z.land (Z.shiftl (L !!! (i / u)%nat) 8 + key !!! i) (mask w)]> L)
    (replicate c 0) (rev (seq 0 b)).

(** The loop variables of the mixing loop of [_expand]. *)
Record mixing := mkMix { mS : list Z; mL : list Z; mi : nat; mj : nat; mA : Z; mB : Z }.

Definition mix_step (w : Z) (t c : nat) (m : mixing) : mixing :=
  let A := _rotl w (Z.land (mS m !!! mi m + mA m + mB m) (mask w)) 3 in
  let S' := <[mi m := A]> (mS m) in
  let B := _rotl w (Z.land (mL m !!! mj m + A + mB m) (mask w)) (A + mB m) in
  let L' := <[mj m := B]> (mL m) in
  mkMix S' L' ((mi m + 1) mod t)%nat ((mj m + 1) mod c)%nat A B.

Definition _expand (w : Z) (r : nat) (key : bytes) (P Q : Z) : list Z :=
  let L := load_key w key in
  let c := length L in
  let t := (2 * (r + 1))%nat in
  let S0 := (λ i, Z.land (P + Z.of_nat i * Q) (mask w)) <$> seq 0 t in
  mS (Nat.iter (3 * Nat.max t c) (mix_step w t c) (mkMix S0 L 0 0 0 0)).

(** [RC5(key, rounds, w)] *)
Definition init (key : bytes) (rounds : nat) (w : Z) : result RC5 :=
  _ ← raise_if (negb ((w =? 16) || (w =? 32) || (w =? 64))) AssertionError;
  Ok (mkRC5 w rounds (_expand w rounds key (magic_P w) (magic_Q w))).

Definition encrypt_round (c : RC5) (AB : Z * Z) (i : nat) : Z * Z :=
  let '(A, B) := AB in
  let A := Z.land (_rotl (w c) (Z.lxor A B) B + S_ c !!! (2 * i)%nat) (mask (w c)) in
  let B := Z.land (_rotl (w c) (Z.lxor B A) A + S_ c !!! (2 * i + 1)%nat) (mask (w c)) in
  (A, B).

Definition decrypt_round (c : RC5) (AB : Z * Z) (i : nat) : Z * Z :=
  let '(A, B) := AB in
  let B := Z.lxor (_rotr (w c) (Z.land (B - S_ c !!! (2 * i + 1)%nat) (mask (w c))) A) A in
  let A := Z.lxor (_rotr (w c) (Z.land (A - S_ c !!! (2 * i)%nat) (mask (w c))) B) B in
  (A, B).

Definition whiten (c : RC5) (AB : Z * Z) : Z * Z :=
  (Z.land (AB.1 + S_ c !!! 0%nat) (mask (w c)), Z.land (AB.2 + S_ c !!! 1%nat) (mask (w c))).

Definition unwhiten (c : RC5) (AB : Z * Z) : Z * Z :=
  (Z.land (AB.1 - S_ c !!! 0%nat) (mask (w c)), Z.land (AB.2 - S_ c !!! 1%nat) (mask (w c))).

(** [struct.unpack("<" + fmt * 2, block)]: the block must have exactly two words. *)
Definition unpack2 (n : nat) (block : bytes) : result (Z * Z) :=
  if decide (length block = (2 * n)%nat)
  then Ok (undigits 256 (take n block), undigits 256 (drop n block))
  else Raise StructError.

Definition pack2 (n : nat) (AB : Z * Z) : result bytes :=
  a ← pack n AB.1; b ← pack n AB.2; Ok (a ++ b).

Definition encrypt_block (c : RC5) (block : bytes) : result bytes :=
  AB ← unpack2 (ww (w c)) block;
  pack2 (ww (w c)) (foldl (encrypt_round c) (whiten c AB) (seq 1 (r c))).

Definition decrypt_block (c : RC5) (block : bytes) : result bytes :=
  AB ← unpack2 (ww (w c)) block;
  pack2 (ww (w c)) (unwhiten c (foldl (decrypt_round c) AB (rev (seq 1 (r c))))).

(** ** Words *)

(** The word sizes of the class. *)
Definition word_size (w : Z) : Prop := w = 16 ∨ w = 32 ∨ w = 64.
Definition word (w x : Z) : Prop := 0 ≤ x < 2 ^ w.
Definition words (w : Z) (AB : Z * Z) : Prop := word w AB.1 ∧ word w AB.2.

Lemma mask_ones w : 0 ≤ w → mask w = 2 ^ w - 1.
Proof. intros. unfold mask. by rewrite Z.shiftl_1_l. Qed.

Lemma land_mask w x : word_size w → Z.land x (mask w) = x mod 2 ^ w.
Proof. intros Hw. assert (0 ≤ w) by (destruct Hw; lia). rewrite mask_ones by done. by apply land_ones_mod. Qed.

Lemma land_mask_word w x : word_size w → word w (Z.land x (mask w)).
Proof. intros Hw. rewrite land_mask by done. apply Z.mod_pos_bound. destruct Hw as [-> | [-> | ->]]; lia. Qed.

Lemma amount_bound w y : word_size w → 0 ≤ Z.land y (w - 1) < w.
Proof.
  intros [-> | [-> | ->]];
    [rewrite (land_ones_mod 4)|rewrite (land_ones_mod 5)|rewrite (land_ones_mod 6)];
    try lia; apply Z.mod_pos_bound; lia.
Qed.

Lemma rotl_rotate w x y : word_size w → _rotl w x y = rotate_left w x (Z.land y (w - 1)).
Proof. intros Hw. unfold _rotl, rotate_left. rewrite mask_ones; [done|]. destruct Hw; lia. Qed.

Lemma rotr_rotate w x y : word_size w → _rotr w x y = rotate_left w x (w - Z.land y (w - 1)).
Proof.
  intros Hw. unfold _rotr, rotate_left. rewrite mask_ones by (destruct Hw; lia).
  rewrite Z.lor_comm. do 3 f_equal. lia.
Qed.

Lemma rotl_word w x y : word_size w → word w (_rotl w x y).
Proof. intros Hw. rewrite rotl_rotate by done. apply rotate_left_bound. destruct Hw; lia. Qed.

Lemma rotr_word w x y : word_size w → word w (_rotr w x y).
Proof. intros Hw. rewrite rotr_rotate by done. apply rotate_left_bound. destruct Hw; lia. Qed.

Lemma rotr_rotl w x y : word_size w → word w x → _rotr w (_rotl w x y) y = x.
Proof.
  intros Hw Hx. pose proof (amount_bound w y Hw). rewrite rotr_rotate, rotl_rotate by done.
  apply rotate_left_inv; [lia|done].
Qed.

Lemma rotl_rotr w x y : word_size w → word w x → _rotl w (_rotr w x y) y = x.
Proof.
  intros Hw Hx. pose proof (amount_bound w y Hw). rewrite rotr_rotate, rotl_rotate by done.
  replace (Z.land y (w - 1)) with (w - (w - Z.land y (w - 1))) at 2 by lia.
  apply rotate_left_inv; [lia|done].
Qed.

Lemma lxor_word w x y : word_size w → word w x → word w y → word w (Z.lxor x y).
Proof. intros Hw ? ?. apply lxor_bound; try done. destruct Hw; lia. Qed.

Lemma add_sub_mask w x s : word_size w → word w x →
  Z.land (Z.land (x + s) (mask w) - s) (mask w) = x.
Proof.
  intros Hw Hx. rewrite !land_mask, Zminus_mod_idemp_l by done.
  replace (x + s - s) with x by lia. by apply Z.mod_small.
Qed.

Lemma sub_add_mask w x s : word_size w → word w x →
  Z.land (Z.land (x - s) (mask w) + s) (mask w) = x.
Proof.
  intros Hw Hx. rewrite !land_mask, Zplus_mod_idemp_l by done.
  replace (x - s + s) with x by lia. by apply Z.mod_small.
Qed.

Create HintDb rc5.
#[export] Hint Resolve land_mask_word rotl_word rotr_word lxor_word : rc5.

(** ** Rounds *)

Lemma encrypt_round_inv c AB i :
  word_size (w c) → words (w c) AB →
  words (w c) (encrypt_round c AB i) ∧ decrypt_round c (encrypt_round c AB i) i = AB.
Proof.
  destruct AB as [A B]. intros Hw [HA HB]. simpl in HA, HB.
  split; [split; simpl; auto with rc5|]. unfold encrypt_round, decrypt_round.
  set (A' := Z.land (_ + S_ c !!! (2 * i)%nat) _).
  assert (word (w c) A') by (unfold A'; auto with rc5).
  rewrite add_sub_mask, rotr_rotl, lxor_cancel by auto with rc5. unfold A'.
  by rewrite add_sub_mask, rotr_rotl, lxor_cancel by auto with rc5.
Qed.

Lemma decrypt_round_inv c AB i :
  word_size (w c) → words (w c) AB →
  words (w c) (decrypt_round c AB i) ∧ encrypt_round c (decrypt_round c AB i) i = AB.
Proof.
  destruct AB as [A B]. intros Hw [HA HB]. simpl in HA, HB.
  split; [split; simpl; auto 6 with rc5|]. unfold encrypt_round, decrypt_round.
  set (B' := Z.lxor (_rotr _ (Z.land (B - _) _) A) A).
  assert (word (w c) B') by (unfold B'; auto with rc5).
  rewrite lxor_cancel, rotl_rotr, sub_add_mask by auto with rc5. unfold B'.
  by rewrite lxor_cancel, rotl_rotr, sub_add_mask by auto with rc5.
Qed.

Lemma whiten_words c AB : word_size (w c) → words (w c) (whiten c AB).
Proof. split; simpl; auto with rc5. Qed.

Lemma unwhiten_words c AB : word_size (w c) → words (w c) (unwhiten c AB).
Proof. split; simpl; auto with rc5. Qed.

Lemma unwhiten_whiten c AB : word_size (w c) → words (w c) AB → unwhiten c (whiten c AB) = AB.
Proof. intros Hw [? ?]. destruct AB. unfold unwhiten, whiten. simpl in *. by rewrite !add_sub_mask. Qed.

Lemma whiten_unwhiten c AB : word_size (w c) → words (w c) AB → whiten c (unwhiten c AB) = AB.
Proof. intros Hw [? ?]. destruct AB. unfold unwhiten, whiten. simpl in *. by rewrite !sub_add_mask. Qed.

Definition encrypt_words (c : RC5) (AB : Z * Z) : Z * Z :=
  foldl (encrypt_round c) (whiten c AB) (seq 1 (r c)).
Definition decrypt_words (c : RC5) (AB : Z * Z) : Z * Z :=
  unwhiten c (foldl (decrypt_round c) AB (rev (seq 1 (r c)))).

Lemma encrypt_words_words c AB : word_size (w c) → words (w c) (encrypt_words c AB).
Proof.
  intros Hw. unfold encrypt_words. apply foldl_invariant; [|by apply whiten_words].
  intros s i Hs. by apply encrypt_round_inv.
Qed.

Lemma decrypt_encrypt_words c AB :
  word_size (w c) → words (w c) AB → decrypt_words c (encrypt_words c AB) = AB.
Proof.
  intros Hw HAB. unfold decrypt_words, encrypt_words.
  rewrite (foldl_rev_inv (words (w c))); [by apply unwhiten_whiten| |by apply whiten_words].
  intros s i Hs. by apply encrypt_round_inv.
Qed.

Lemma encrypt_decrypt_words c AB :
  word_size (w c) → words (w c) AB → encrypt_words c (decrypt_words c AB) = AB.
Proof.
  intros Hw HAB. unfold decrypt_words, encrypt_words.
  rewrite whiten_unwhiten; [|done|].
  - rewrite <-(rev_involutive (seq 1 (r c))) at 2.
    apply (foldl_rev_inv (words (w c))); [|done]. intros s i Hs. by apply decrypt_round_inv.
  - apply foldl_invariant; [|done]. intros s i Hs. by apply decrypt_round_inv.
Qed.

(** ** Blocks *)

Lemma ww_bytes w : word_size w → 2 ^ w = 256 ^ Z.of_nat (ww w) ∧ (0 < ww w)%nat.
Proof. intros [-> | [-> | ->]]; split; (reflexivity || (vm_compute; lia)). Qed.

Lemma pack2_ok w AB : word_size w → words w AB →
  pack2 (ww w) AB = Ok (digits 256 (ww w) AB.1 ++ digits 256 (ww w) AB.2).
Proof.
  intros Hw [HA HB]. destruct (ww_bytes w Hw) as [E _]. unfold word in *. rewrite E in *.
  unfold pack2, pack. rewrite decide_True by done. simpl. by rewrite decide_True by done.
Qed.

Lemma unpack2_words w block AB : word_size w → bytes_ok block →
  unpack2 (ww w) block = Ok AB → words w AB.
Proof.
  intros Hw Hb H. destruct (ww_bytes w Hw) as [E _]. unfold unpack2 in H. case_decide; [|done].
  injection H as <-. split; unfold word; simpl; rewrite E; apply le_bound;
    auto with bytes; len_solve.
Qed.

Lemma unpack2_pack2 w AB : word_size w → words w AB →
  unpack2 (ww w) (digits 256 (ww w) AB.1 ++ digits 256 (ww w) AB.2) = Ok AB.
Proof.
  intros Hw [HA HB]. destruct (ww_bytes w Hw) as [E _]. unfold word in *. rewrite E in *.
  destruct AB as [A B]. unfold unpack2. rewrite decide_True by len_solve.
  rewrite take_app_length', drop_app_length' by len_solve. simpl in *.
  by rewrite !le_decode_encode.
Qed.

Lemma pack2_unpack2 n block AB : bytes_ok block → unpack2 n block = Ok AB →
  digits 256 n AB.1 ++ digits 256 n AB.2 = block.
Proof.
  intros Hb H. unfold unpack2 in H. case_decide; [|done]. injection H as <-. simpl.
  rewrite !le_encode_decode by (auto with bytes || len_solve). apply take_drop.
Qed.

(** The bytes of an encrypted or decrypted block. *)
Definition block_of (c : RC5) (AB : Z * Z) : bytes :=
  digits 256 (ww (w c)) AB.1 ++ digits 256 (ww (w c)) AB.2.

Lemma length_block_of c AB : length (block_of c AB) = (2 * ww (w c))%nat.
Proof. unfold block_of. len_solve. Qed.

Lemma unpack2_total n block : length block = (2 * n)%nat → ∃ AB, unpack2 n block = Ok AB.
Proof. intros H. unfold unpack2. rewrite decide_True by done. eauto. Qed.

Lemma encrypt_block_ok c block : word_size (w c) → length block = (2 * ww (w c))%nat →
  ∃ AB, unpack2 (ww (w c)) block = Ok AB ∧ encrypt_block c block = Ok (block_of c (encrypt_words c AB)).
Proof.
  intros Hw Hl. destruct (unpack2_total _ _ Hl) as [AB E]. exists AB. split; [done|].
  unfold encrypt_block. rewrite E. simpl. rewrite pack2_ok; [done..|]. by apply encrypt_words_words.
Qed.

Lemma decrypt_block_ok c block : word_size (w c) → length block = (2 * ww (w c))%nat →
  ∃ AB, unpack2 (ww (w c)) block = Ok AB ∧ decrypt_block c block = Ok (block_of c (decrypt_words c AB)).
Proof.
  intros Hw Hl. destruct (unpack2_total _ _ Hl) as [AB E]. exists AB. split; [done|].
  unfold decrypt_block. rewrite E. simpl. rewrite pack2_ok; [done..|]. by apply unwhiten_words.
Qed.

Lemma decrypt_encrypt_block c block :
  word_size (w c) → bytes_ok block → length block = (2 * ww (w c))%nat →
  ∃ e, encrypt_block c block = Ok e ∧ bytes_ok e ∧ length e = length block ∧ decrypt_block c e = Ok block.
Proof.
  intros Hw Hb Hl. destruct (encrypt_block_ok c block Hw Hl) as (AB & E & HE).
  pose proof (unpack2_words _ _ _ Hw Hb E) as HAB.
  eexists. split; [exact HE|]. split; [apply bytes_ok_app; auto with bytes|].
  rewrite length_block_of. split; [done|].
  unfold decrypt_block. unfold block_of. rewrite unpack2_pack2 by (done || by apply encrypt_words_words).
  simpl. fold (decrypt_words c (encrypt_words c AB)). rewrite decrypt_encrypt_words, pack2_ok by done.
  f_equal. by apply pack2_unpack2.
Qed.

Lemma encrypt_decrypt_block c block :
  word_size (w c) → bytes_ok block → length block = (2 * ww (w c))%nat →
  ∃ d, decrypt_block c block = Ok d ∧ bytes_ok d ∧ length d = length block ∧ encrypt_block c d = Ok block.
Proof.
  intros Hw Hb Hl. destruct (decrypt_block_ok c block Hw Hl) as (AB & E & HE).
  pose proof (unpack2_words _ _ _ Hw Hb E) as HAB.
  eexists. split; [exact HE|]. split; [apply bytes_ok_app; auto with bytes|].
  rewrite length_block_of. split; [done|].
  unfold encrypt_block. unfold block_of. rewrite unpack2_pack2 by (done || by apply unwhiten_words).
  simpl. fold (encrypt_words c (decrypt_words c AB)). rewrite encrypt_decrypt_words, pack2_ok by done.
  f_equal. by apply pack2_unpack2.
Qed.

Lemma init_word_size key rounds w' c : init key rounds w' = Ok c → word_size (w c) ∧ w c = w'.
Proof.
  unfold init. intros H. res_inv. simpl. unfold word_size. split; [|done].
  apply negb_false_iff, orb_true_iff in H0 as [H0 | H0]; [apply orb_true_iff in H0 as [H0 | H0]|]; lia.
Qed.

(** ** Key schedule *)

Definition mixing_ok (w : Z) (t c : nat) (m : mixing) : Prop :=
  length (mS m) = t ∧ length (mL m) = c ∧ (mi m < t)%nat ∧ (mj m < c)%nat ∧
  Forall (word w) (mS m).

Lemma mix_step_ok w t c m :
  word_size w → mixing_ok w t c m → mixing_ok w t c (mix_step w t c m).
Proof.
  intros Hw (HS & HL & Hi & Hj & HF). unfold mixing_ok, mix_step. simpl.
  split_and!; try (len_solve || (apply Nat.mod_upper_bound; lia)).
  apply Forall_insert; auto with rc5.
Qed.

Lemma length_load_key w key : (0 < length (load_key w key))%nat.
Proof.
  unfold load_key. apply (foldl_invariant (λ L : list Z, (0 < length L)%nat)).
  - intros L i H. len_solve.
  - len_solve.
Qed.

Lemma expand_ok w r key P Q : word_size w →
  length (_expand w r key P Q) = (2 * (r + 1))%nat ∧ Forall (word w) (_expand w r key P Q).
Proof.
  intros Hw. unfold _expand.
  set (t := (2 * (r + 1))%nat). set (c := length (load_key w key)).
  assert (mixing_ok w t c (Nat.iter (3 * Nat.max t c) (mix_step w t c)
    (mkMix ((λ i, Z.land (P + Z.of_nat i * Q) (mask w)) <$> seq 0 t) (load_key w key) 0 0 0 0)))
    as (H1 & _ & _ & _ & H2); [|done].
  apply iter_invariant; [intros m; by apply mix_step_ok|].
  unfold mixing_ok. simpl. split_and!; try done; try len_solve.
  - apply length_load_key.
  - apply Forall_fmap, Forall_true. intros i. simpl. auto with rc5.
Qed.

(** The known answer the module's self-test checks: RC5-32/12/16 on zeros. *)
Example rfc2040_vector :
  (c ← init (zeros 16) 12 32; encrypt_block c (zeros 8)) =
    Ok [0x21; 0xa5; 0xdb; 0xee; 0x15; 0x4b; 0x8f; 0x6d].
Proof. vm_compute. reflexivity. Qed.

(** The key schedule of every accepted cipher has exactly [2 * (r + 1)] words,
    each within the word size, so every subkey the rounds index exists. *)
Lemma rc5_schedule_in_range key rounds w' c :
  init key rounds w' = Ok c →
  length (S_ c) = (2 * (rounds + 1))%nat ∧ Forall (word w') (S_ c) ∧
  ∀ i, (i ≤ r c)%nat → is_Some (S_ c !! (2 * i)%nat) ∧ is_Some (S_ c !! (2 * i + 1)%nat).
Proof.
  intros Hc. destruct (init_word_size _ _ _ _ Hc) as [Hw _]. unfold init in Hc. res_inv. simpl in *.
  destruct (expand_ok w' rounds key (magic_P w') (magic_Q w') Hw) as [HL HF].
  split_and!; [done..|]. intros i Hi. rewrite !lookup_lt_is_Some, HL. lia.
Qed.

(** ** Properties *)

(** C38: for every key, round count and accepted word size, [decrypt_block]
    undoes [encrypt_block] on every block of two words, and [encrypt_block]
    undoes [decrypt_block]: both always return, and a block transform is a
    bijection of the blocks. The key schedule has exactly two words a round and
    two more, each within the word size. *)
Theorem rc5_block_roundtrip key rounds w' c block :
  init key rounds w' = Ok c → bytes_ok block → length block = (2 * ww w')%nat →
  (e ← encrypt_block c block; decrypt_block c e) = Ok block ∧
  (d ← decrypt_block c block; encrypt_block c d) = Ok block ∧
  length (S_ c) = (2 * (rounds + 1))%nat ∧ Forall (word w') (S_ c).
Proof.
  intros Hc Hb Hl. destruct (rc5_schedule_in_range _ _ _ _ Hc) as (HL & HF & _).
  destruct (init_word_size _ _ _ _ Hc) as [Hw <-]. split_and!; try done.
  - destruct (decrypt_encrypt_block c block Hw Hb Hl) as (e & -> & _ & _ & H). exact H.
  - destruct (encrypt_decrypt_block c block Hw Hb Hl) as (d & -> & _ & _ & H). exact H.
Qed.

(** The transport cipher of the self-test: key [www.gwell.cc], six rounds. *)
Definition gwell_key : bytes := [119; 119; 119; 46; 103; 119; 101; 108; 108; 46; 99; 99].

Lemma rc5_block_roundtrip_witness :
  let block := [0x01; 0x23; 0x45; 0x67; 0x89; 0xab; 0xcd; 0xef] in
  ∃ c, init gwell_key 6 32 = Ok c ∧
    (e ← encrypt_block c block; decrypt_block c e) = Ok block.
Proof.
  intros block. eexists. split; [reflexivity|].
  refine (proj1 (rc5_block_roundtrip gwell_key 6 32 _ block _ _ _)).
  - reflexivity.
  - bytes_concrete.
  - reflexivity.
Defined.

End Rc5.
