(* ===== verification/Rkey.v ===== *)
(** * The nibble-substitution transforms of the P2P handshake

    Models [_sub_nibbles], [decrypt_rkey], [encrypt_rkey], [gw_m3], [gw_dm3]
    and [gw_encode_password] of
    [src/backend/app/drivers/yoosee/p2p/crypto.py].  The theorems show that
    each transform and its inverse cancel on every 32-bit word, which the
    module's self-test checks at five values, and that the password encoding
    loses no information. *)

From Stdlib Require Import ZArith Lia.
From S2P Require Import Prelude.

Module Rkey.

Definition _SBOX : list Z :=
  [1; 6; 0xD; 5; 0; 0xC; 0xE; 4; 0xB; 7; 0xF; 2; 8; 0xA; 3; 9].

(** [table.index(i)] *)
Fixpoint list_index (table : list Z) (i : Z) : Z :=
  match table with
  | [] => 0
  | x :: table => if x =? i then 0 else 1 + list_index table i
  end.

Definition _SBOX_INV : list Z := (λ i, list_index _SBOX (Z.of_nat i)) <$> seq 0 16.

(** One iteration of the loop of [_sub_nibbles], on [(out, x)]. *)
Definition sub_step (sbox : list Z) (s : Z * Z) : Z * Z :=
  let '(out, x) := s in
  (Z.land (Z.lor (Z.shiftl out 4) (sbox !!! Z.to_nat (Z.land x 0xF))) 0xFFFFFFFF,
   Z.shiftr x 4).

Definition _sub_nibbles (x : Z) (sbox : list Z) : Z :=
  (Nat.iter 8 (sub_step sbox) (0, x)).1.

Definition decrypt_rkey (x : Z) : Z :=
  let x := Z.land (Z.lxor x 0x25C314A6) 0xFFFFFFFF in
  let r := _sub_nibbles x _SBOX in
  let r := Z.land (Z.lor (Z.shiftl r 30) (Z.shiftr r 2)) 0xFFFFFFFF in
  let r := Z.lxor r 0x1D74CBA2 in
  _sub_nibbles r _SBOX.

Definition encrypt_rkey (x : Z) : Z :=
  let r := _sub_nibbles x _SBOX_INV in
  let r := Z.lxor r 0x1D74CBA2 in
  let r := Z.land (Z.lor (Z.shiftl r 2) (Z.shiftr r 30)) 0xFFFFFFFF in
  let r := _sub_nibbles r _SBOX_INV in
  Z.land (Z.lxor r 0x25C314A6) 0xFFFFFFFF.

Definition _M3 : list Z :=
  [4; 8; 0; 0xB; 0xA; 7; 6; 3; 0xD; 0xF; 2; 5; 0xE; 1; 9; 0xC].

Definition _M3_INV : list Z := (λ i, list_index _M3 (Z.of_nat i)) <$> seq 0 16.

Definition gw_m3 (x : Z) : Z :=
  let r := _sub_nibbles x _M3 in
  let r := Z.lxor r 0xA2E39FD9 in
  let r := Z.land (Z.lor (Z.shiftl r 2) (Z.shiftr r 30)) 0xFFFFFFFF in
  _sub_nibbles r _M3.

Definition gw_dm3 (x : Z) : Z :=
  let r := _sub_nibbles x _M3_INV in
  let r := Z.land (Z.lor (Z.shiftl r 30) (Z.shiftr r 2)) 0xFFFFFFFF in
  let r := Z.lxor r 0xA2E39FD9 in
  _sub_nibbles r _M3_INV.

(** [for i in range(17): x = (x * 0xA2E39FD9 + i) & 0xFFFFFFFF] *)
Definition gw_encode_password (x : Z) : Z :=
  foldl (λ x i, Z.land (x * 0xA2E39FD9 + Z.of_nat i) 0xFFFFFFFF)
    (Z.land x 0xFFFFFFFF) (seq 0 17).

(** ** Substitution of the eight nibbles *)

Definition sub (sbox : list Z) (d : Z) : Z := sbox !!! Z.to_nat d.

(** A substitution box: every nibble goes to a nibble. *)
Definition sbox_ok (sbox : list Z) : Prop := ∀ d, 0 ≤ d < 16 → 0 ≤ sub sbox d < 16.

Lemma nibble_cases d : 0 ≤ d < 16 → d ∈ Z.of_nat <$> seq 0 16.
Proof.
  intros H. apply list_elem_of_fmap. exists (Z.to_nat d). split; [lia|]. apply elem_of_seq. lia.
Qed.

(** Properties of a nibble are decided by evaluation at the sixteen nibbles. *)
Lemma nibbles_forall (P : Z → Prop) : Forall P (Z.of_nat <$> seq 0 16) → ∀ d, 0 ≤ d < 16 → P d.
Proof. intros H d Hd. destruct (proj1 (list_elem_of_lookup _ _) (nibble_cases d Hd)) as [i Hi]; by apply (Forall_lookup_1 _ _ _ _ H Hi). Qed.

Lemma SBOX_ok : sbox_ok _SBOX ∧ sbox_ok _SBOX_INV ∧ sbox_ok _M3 ∧ sbox_ok _M3_INV.
Proof.
  split_and!; unfold sbox_ok; apply nibbles_forall; apply (bool_decide_unpack _); vm_compute; exact I.
Qed.

Lemma SBOX_inverse d : 0 ≤ d < 16 → sub _SBOX_INV (sub _SBOX d) = d ∧ sub _SBOX (sub _SBOX_INV d) = d.
Proof. revert d. apply nibbles_forall; apply (bool_decide_unpack _); vm_compute; exact I. Qed.

Lemma M3_inverse d : 0 ≤ d < 16 → sub _M3_INV (sub _M3 d) = d ∧ sub _M3 (sub _M3_INV d) = d.
Proof. revert d. apply nibbles_forall; apply (bool_decide_unpack _); vm_compute; exact I. Qed.

Lemma sub_step_eq sbox out x :
  sbox_ok sbox → 0 ≤ out → out * 16 + 16 ≤ 2 ^ 32 →
  sub_step sbox (out, x) = (out * 16 + sub sbox (x mod 16), x / 16).
Proof.
  intros Hs H0 H1. unfold sub_step.
  change 0xF with (2 ^ 4 - 1). rewrite land_ones_mod by lia. change (2 ^ 4) with 16.
  fold (sub sbox (x mod 16)).
  pose proof (Hs (x mod 16) ltac:(apply Z.mod_pos_bound; lia)).
  rewrite (lor_shiftl_add _ out 4), land_mask32, Z.mod_small by lia.
  by rewrite Z.shiftr_div_pow2 by lia.
Qed.

(** The loop reads the nibbles from the low end and stores them from the
    high end: the result is the substituted digits in the reverse order. *)
Lemma sub_iter sbox n out x :
  sbox_ok sbox → 0 ≤ out → (out + 1) * 16 ^ Z.of_nat n ≤ 2 ^ 32 →
  (Nat.iter n (sub_step sbox) (out, x)).1 =
    out * 16 ^ Z.of_nat n + undigits 16 (rev (sub sbox <$> digits 16 n x)).
Proof.
  intros Hs. revert out x. induction n as [|n IH]; intros out x H0 H1; [simpl; lia|].
  rewrite Nat.iter_succ_r, Nat2Z.inj_succ, Z.pow_succ_r in * by lia.
  assert (0 < 16 ^ Z.of_nat n) by (apply Z.pow_pos_nonneg; lia).
  rewrite sub_step_eq by (done || nia).
  pose proof (Hs (x mod 16) ltac:(apply Z.mod_pos_bound; lia)).
  rewrite IH by nia. cbn [digits fmap list_fmap rev].
  rewrite undigits_app by lia. rewrite length_rev, length_fmap, length_digits. simpl. lia.
Qed.

Lemma sub_nibbles_digits sbox x : sbox_ok sbox →
  _sub_nibbles x sbox = undigits 16 (rev (sub sbox <$> digits 16 8 x)).
Proof. intros Hs. unfold _sub_nibbles. by rewrite sub_iter. Qed.

Lemma sub_digits_ok sbox l : sbox_ok sbox → digits_ok 16 l → digits_ok 16 (rev (sub sbox <$> l)).
Proof.
  intros Hs Hl. apply Forall_rev, Forall_fmap. eapply list.Forall_impl; [exact Hl|]. intros d Hd. by apply Hs.
Qed.

Lemma sub_nibbles_bound sbox x : sbox_ok sbox → 0 ≤ _sub_nibbles x sbox < 2 ^ 32.
Proof.
  intros Hs. rewrite sub_nibbles_digits by done.
  pose proof (undigits_bound 16 ltac:(lia) _ (sub_digits_ok sbox _ Hs (digits_digits_ok 16 ltac:(lia) 8 x))) as H.
  revert H. by rewrite length_rev, length_fmap, length_digits.
Qed.

Lemma sub_nibbles_inverse s t x : sbox_ok s → sbox_ok t →
  (∀ d, 0 ≤ d < 16 → sub t (sub s d) = d) →
  _sub_nibbles (_sub_nibbles x s) t = x mod 2 ^ 32.
Proof.
  intros Hs Ht Hst. rewrite (sub_nibbles_digits s), (sub_nibbles_digits t) by done.
  pose proof (digits_digits_ok 16 ltac:(lia) 8 x) as Hd.
  assert (length (rev (sub s <$> digits 16 8 x)) = 8%nat) as L
    by (by rewrite length_rev, length_fmap, length_digits).
  rewrite <-L at 1. rewrite digits_undigits by (lia || by apply sub_digits_ok).
  change (rev (sub t <$> rev (sub s <$> digits 16 8 x)))
    with (rev (map (sub t) (rev (sub s <$> digits 16 8 x)))).
  rewrite map_rev, rev_involutive. change (map (sub t)) with (fmap (M:=list) (sub t)). rewrite <-list_fmap_compose.
  rewrite (list_fmap_ext _ id), list_fmap_id.
  - rewrite undigits_digits by lia. done.
  - intros i d Hi. simpl. apply Hst. by apply (Forall_lookup_1 _ _ _ _ Hd Hi).
Qed.

(** ** Rotations and masks of 32-bit words *)

Lemma rot2_rot30 x : 0 ≤ x < 2 ^ 32 →
  Z.land (Z.lor (Z.shiftl (Z.land (Z.lor (Z.shiftl x 30) (Z.shiftr x 2)) 0xFFFFFFFF) 2)
                (Z.shiftr (Z.land (Z.lor (Z.shiftl x 30) (Z.shiftr x 2)) 0xFFFFFFFF) 30)) 0xFFFFFFFF = x.
Proof. intros. by apply (rotate_left_inv 32 x 30). Qed.

Lemma rot30_rot2 x : 0 ≤ x < 2 ^ 32 →
  Z.land (Z.lor (Z.shiftl (Z.land (Z.lor (Z.shiftl x 2) (Z.shiftr x 30)) 0xFFFFFFFF) 30)
                (Z.shiftr (Z.land (Z.lor (Z.shiftl x 2) (Z.shiftr x 30)) 0xFFFFFFFF) 2)) 0xFFFFFFFF = x.
Proof. intros. by apply (rotate_left_inv 32 x 2). Qed.

Lemma word32_mod x : 0 ≤ x < 2 ^ 32 → x mod 2 ^ 32 = x.
Proof. apply Z.mod_small. Qed.

Lemma land32_bound x : 0 ≤ Z.land x 0xFFFFFFFF < 2 ^ 32.
Proof. rewrite land_mask32. by apply Z.mod_pos_bound. Qed.

Lemma lxor32_bound x y : 0 ≤ x < 2 ^ 32 → 0 ≤ y < 2 ^ 32 → 0 ≤ Z.lxor x y < 2 ^ 32.
Proof. by apply lxor_bound. Qed.

(** The final mask of an xor with a 32-bit constant. *)
Lemma land_lxor32 x y : 0 ≤ y < 2 ^ 32 → Z.land (Z.lxor x y) 0xFFFFFFFF = Z.lxor (x mod 2 ^ 32) y.
Proof. intros. by rewrite land_mask32, lxor_mod, (Z.mod_small y) by done. Qed.

Lemma mask_lxor_twice x y : 0 ≤ x < 2 ^ 32 → 0 ≤ y < 2 ^ 32 →
  Z.land (Z.lxor (Z.land (Z.lxor x y) 0xFFFFFFFF) y) 0xFFFFFFFF = x.
Proof.
  intros. rewrite !land_lxor32 by done. rewrite (word32_mod x) by done.
  rewrite word32_mod by (by apply lxor32_bound). apply lxor_cancel.
Qed.

Lemma password_step_inj i a b :
  Z.land (a * 0xA2E39FD9 + i) 0xFFFFFFFF = Z.land (b * 0xA2E39FD9 + i) 0xFFFFFFFF →
  a mod 2 ^ 32 = b mod 2 ^ 32.
Proof.
  rewrite !land_mask32. intros H.
  apply (f_equal (λ v, ((v - i) * 0xac08f069) mod 2 ^ 32)) in H.
  assert (∀ v, (((v * 0xA2E39FD9 + i) mod 2 ^ 32 - i) * 0xac08f069) mod 2 ^ 32 = v mod 2 ^ 32) as E.
  { intros v. rewrite Zmult_mod, Zminus_mod_idemp_l, <-Zmult_mod.
    replace ((v * 0xA2E39FD9 + i - i) * 0xac08f069) with (v * 1 + v * 0x6D769F7B * 2 ^ 32)
      by lia. rewrite Z.mod_add by lia. by rewrite Z.mul_1_r. }
  by rewrite !E in H.
Qed.

(** [encrypt_rkey] and [decrypt_rkey] are inverse to each other on every
    32-bit word (an integer outside 32 bits is reduced to its low word). *)
Lemma rkey_inverse x :
  encrypt_rkey (decrypt_rkey x) = Z.land x 0xFFFFFFFF ∧
  decrypt_rkey (encrypt_rkey x) = Z.land x 0xFFFFFFFF.
Proof.
  destruct SBOX_ok as (Hs & Hi & _). unfold encrypt_rkey, decrypt_rkey.
  pose proof (sub_nibbles_bound _SBOX_INV x Hi).
  split.
  - rewrite (sub_nibbles_inverse _SBOX _SBOX_INV) by (done || apply SBOX_inverse).
    rewrite word32_mod by (apply lxor32_bound; [apply land32_bound|lia]).
    rewrite lxor_cancel, rot2_rot30 by (by apply sub_nibbles_bound).
    rewrite (sub_nibbles_inverse _SBOX _SBOX_INV) by (done || apply SBOX_inverse).
    rewrite word32_mod by apply land32_bound.
    rewrite !land_lxor32 by lia. rewrite Z.mod_small.
    + by rewrite lxor_cancel, land_mask32.
    + apply lxor32_bound; [by apply Z.mod_pos_bound|lia].
  - rewrite mask_lxor_twice by (lia || by apply sub_nibbles_bound).
    rewrite (sub_nibbles_inverse _SBOX_INV _SBOX) by (done || apply SBOX_inverse).
    rewrite word32_mod by apply land32_bound.
    rewrite rot30_rot2 by (apply lxor32_bound; [done|lia]). rewrite lxor_cancel.
    rewrite (sub_nibbles_inverse _SBOX_INV _SBOX) by (done || apply SBOX_inverse).
    by rewrite land_mask32.
Qed.

(** [gw_m3] and [gw_dm3] are inverse to each other on every 32-bit word. *)
Lemma gw_m3_inverse x :
  gw_dm3 (gw_m3 x) = Z.land x 0xFFFFFFFF ∧ gw_m3 (gw_dm3 x) = Z.land x 0xFFFFFFFF.
Proof.
  destruct SBOX_ok as (_ & _ & Hs & Hi). unfold gw_m3, gw_dm3. split.
  - rewrite (sub_nibbles_inverse _M3 _M3_INV) by (done || apply M3_inverse).
    rewrite word32_mod by apply land32_bound.
    rewrite rot30_rot2 by (apply lxor32_bound; [by apply sub_nibbles_bound|lia]).
    rewrite lxor_cancel, land_mask32. apply sub_nibbles_inverse; try done. apply M3_inverse.
  - rewrite (sub_nibbles_inverse _M3_INV _M3) by (done || apply M3_inverse).
    rewrite word32_mod by (apply lxor32_bound; [apply land32_bound|lia]).
    rewrite lxor_cancel, rot2_rot30 by (by apply sub_nibbles_bound).
    rewrite land_mask32. apply sub_nibbles_inverse; try done. apply M3_inverse.
Qed.

(** [gw_encode_password] is injective on 32-bit words: two passwords with
    the same encoding are the same word. *)
Lemma gw_encode_password_injective x y :
  gw_encode_password x = gw_encode_password y → Z.land x 0xFFFFFFFF = Z.land y 0xFFFFFFFF.
Proof.
  unfold gw_encode_password. intros H.
  assert (∀ l a b, foldl (λ x i, Z.land (x * 0xA2E39FD9 + Z.of_nat i) 0xFFFFFFFF) a l =
                   foldl (λ x i, Z.land (x * 0xA2E39FD9 + Z.of_nat i) 0xFFFFFFFF) b l →
                   a mod 2 ^ 32 = b mod 2 ^ 32) as Hinj.
  { intros l. induction l as [|i l IH]; intros a b E; simpl in E; [by subst|].
    apply IH in E. rewrite !(Z.mod_small (Z.land _ _)) in E by apply land32_bound.
    by apply password_step_inj in E. }
  apply Hinj in H. by rewrite !(Z.mod_small (Z.land _ _)) in H by apply land32_bound.
Qed.

(** ** Properties *)

(** C39: the word transforms of the handshake lose nothing. [encrypt_rkey] and
    [decrypt_rkey], and [gw_m3] and [gw_dm3], are inverse to each other on every
    32-bit word (an integer outside 32 bits is reduced to its low word), and two
    passwords with the same encoding are the same word. *)
Theorem handshake_words_injective :
  (∀ x, encrypt_rkey (decrypt_rkey x) = Z.land x 0xFFFFFFFF ∧ decrypt_rkey (encrypt_rkey x) = Z.land x 0xFFFFFFFF) ∧
  (∀ x, gw_dm3 (gw_m3 x) = Z.land x 0xFFFFFFFF ∧ gw_m3 (gw_dm3 x) = Z.land x 0xFFFFFFFF) ∧
  (∀ x y, gw_encode_password x = gw_encode_password y → Z.land x 0xFFFFFFFF = Z.land y 0xFFFFFFFF).
Proof. split_and!; [apply rkey_inverse|apply gw_m3_inverse|apply gw_encode_password_injective]. Qed.

Lemma handshake_words_injective_witness :
  decrypt_rkey (encrypt_rkey 0x12345678) = 0x12345678 ∧
  Z.land 123456 0xFFFFFFFF = Z.land (123456 + 2 ^ 32) 0xFFFFFFFF.
Proof.
  destruct handshake_words_injective as (H1 & _ & H3). split.
  - apply (H1 0x12345678).
  - apply (H3 123456 (123456 + 2 ^ 32)). reflexivity.
Defined.

End Rkey.
