(* ===== verification/GuteFrame.v ===== *)
(** * Encrypted "gute" frames

    Models the frame layer of [src/backend/app/drivers/yoosee/p2p/crypto.py]
    (additive checksum, encrypted length, id masking, payload encryption, the
    three encryption modes, xor checksum) and the frame builders of
    [src/backend/app/drivers/yoosee/p2p/wire.py].  A frame has 24 header
    bytes: protocol, subtype and declared length (0..4), the masked identity
    (4..12), sequence and checksum (12..20), flags (20..24), then the payload.
    The theorems show that decoding undoes encoding in every mode and
    conversely, and that what [finish_mode1]/[finish_mode2] seal passes the
    receiver's checksum test after decryption. *)

From Stdlib Require Import ZArith Lia.
From S2P Require Import Prelude Rc5.

Module GuteFrame.

Definition BASE_SESSION_KEY : bytes :=
  [119; 119; 119; 46; 103; 119; 101; 108; 108; 46; 99; 99].

(** [gute_checksum]: sum of the five header words, skipping the slot at 0x10. *)
Definition gute_checksum (hdr : bytes) : result Z :=
  a ← unpack_from 4 hdr 0; b ← unpack_from 4 hdr 4; c ← unpack_from 4 hdr 8;
  d ← unpack_from 4 hdr 0xC; e ← unpack_from 4 hdr 0x14;
  Ok (Z.land (a + b + c + d + e) 0xFFFFFFFF).

Definition set_checksum (frm : bytes) : result bytes :=
  c ← gute_checksum frm; pack_into 4 frm 0x10 c.

Definition verify_checksum (frm : bytes) : result bool :=
  s ← unpack_from 4 frm 0x10; c ← gute_checksum frm; Ok (s =? c).

(** [len(frm) < 0x18 or struct.unpack_from("<H", frm, 2)[0] != len(frm)] *)
Definition bad_length (frm : bytes) : result bool :=
  if (length frm <? 0x18)%nat then Ok true
  else declared ← unpack_from 2 frm 2; Ok (negb (declared =? len frm)).

Definition modern_encrypted_data_len (frm : bytes) : result Z :=
  _ ← raise_if (length frm <? 0x18)%nat (ValueError "truncated gute frame");
  declared ← unpack_from 2 frm 2;
  _ ← raise_if (negb (declared =? len frm)) (ValueError "invalid gute frame length");
  let encrypted_len := declared - 0x18 in
  flags ← unpack_from 4 frm 0x14;
  let encrypted_len :=
    if negb (Z.land flags (Z.shiftl 1 22) =? 0) then encrypted_len - 0x50 else encrypted_len in
  let encrypted_len :=
    if negb (Z.land flags (Z.shiftl 1 24) =? 0) then encrypted_len - 0x10 else encrypted_len in
  _ ← raise_if (encrypted_len <? 0) (ValueError "invalid gute encrypted length");
  Ok encrypted_len.

Definition transform (rc5 : Rc5.RC5) (encrypt : bool) : bytes → result bytes :=
  if encrypt then Rc5.encrypt_block rc5 else Rc5.decrypt_block rc5.

(** The loop body over the payload blocks. *)
Definition crypt_step (rc5 : Rc5.RC5) (encrypt : bool) (src : bytes) (out : bytes) (index : nat) :
    result bytes :=
  let off := (0x18 + index * 8)%nat in
  b ← transform rc5 encrypt (slice off (off + 8) src);
  Ok (slice_set off (off + 8) b out).

Definition _modern_crypt_payload (out src : bytes) (rc5 : Rc5.RC5) (encrypt : bool) : result bytes :=
  b ← transform rc5 encrypt (slice 0xC 0x14 src);
  let out := slice_set 0xC 0x14 b out in
  n ← modern_encrypted_data_len src;
  foldM (crypt_step rc5 encrypt src) out (seq 0 (Z.to_nat (n / 8))).

Definition _modern_decrypt_id (out wire : bytes) : result bytes :=
  let id_masked := zeros 8 in
  a ← unpack_from 4 wire 4; b ← unpack_from 4 wire 0xC;
  id_masked ← pack_into 4 id_masked 0 (Z.lxor a b);
  a ← unpack_from 4 wire 8; b ← unpack_from 4 wire 0x10;
  id_masked ← pack_into 4 id_masked 4 (Z.lxor a b);
  base ← Rc5.init BASE_SESSION_KEY 6 32;
  d ← Rc5.decrypt_block base id_masked;
  Ok (slice_set 4 12 d out).

Definition _modern_encrypt_id (out plain : bytes) : result bytes :=
  base ← Rc5.init BASE_SESSION_KEY 6 32;
  id_encrypted ← Rc5.encrypt_block base (slice 4 12 plain);
  a ← unpack_from 4 id_encrypted 0; b ← unpack_from 4 out 0xC;
  out ← pack_into 4 out 4 (Z.lxor a b);
  a ← unpack_from 4 id_encrypted 4; b ← unpack_from 4 out 0x10;
  pack_into 4 out 8 (Z.lxor a b).

(** [bytes(wire[0:4] + wire[0x14:0x17] + b"\x00")] *)
Definition mode_key (frm : bytes) : bytes := slice 0 4 frm ++ slice 0x14 0x17 frm ++ [0].

(** The length and mode guards every codec starts with. *)
Definition check_frame (frm : bytes) (mode : Z) (msg : string) : result unit :=
  bad ← bad_length frm;
  _ ← raise_if bad (ValueError "invalid gute frame length");
  m ← index frm 0x16;
  raise_if (negb (Z.land m 3 =? mode)) (ValueError msg).

Definition gute_mode1_decrypt (wire : bytes) : result bytes :=
  _ ← check_frame wire 1 "gute_mode1_decrypt requires mode 1";
  out ← _modern_decrypt_id wire wire;
  rc5 ← Rc5.init (mode_key wire) 6 32;
  _modern_crypt_payload out wire rc5 false.

Definition gute_mode1_encrypt (plain : bytes) : result bytes :=
  _ ← check_frame plain 1 "gute_mode1_encrypt requires mode 1";
  rc5 ← Rc5.init (mode_key plain) 6 32;
  out ← _modern_crypt_payload plain plain rc5 true;
  _modern_encrypt_id out plain.

Definition gute_mode2_decrypt (wire session_key : bytes) : result bytes :=
  _ ← raise_if (negb (length session_key =? 32)%nat)
        (ValueError "modern mode-2 requires a 32-byte session key");
  _ ← check_frame wire 2 "gute_mode2_decrypt requires mode 2";
  out ← _modern_decrypt_id wire wire;
  rc5 ← Rc5.init session_key 6 32;
  _modern_crypt_payload out wire rc5 false.

Definition gute_mode2_encrypt (plain session_key : bytes) : result bytes :=
  _ ← raise_if (negb (length session_key =? 32)%nat)
        (ValueError "modern mode-2 requires a 32-byte session key");
  _ ← check_frame plain 2 "gute_mode2_encrypt requires mode 2";
  rc5 ← Rc5.init session_key 6 32;
  out ← _modern_crypt_payload plain plain rc5 true;
  _modern_encrypt_id out plain.

Definition gute_mode0_decrypt (wire : bytes) : result bytes :=
  _ ← check_frame wire 0 "gute_mode0_decrypt requires mode 0";
  _modern_decrypt_id wire wire.

Definition gute_mode0_encrypt (plain : bytes) : result bytes :=
  _ ← check_frame plain 0 "gute_mode0_encrypt requires mode 0";
  _modern_encrypt_id plain plain.

Definition gute_mode1_xor_checksum (frm : bytes) : result Z :=
  bad ← bad_length frm;
  _ ← raise_if bad (ValueError "invalid gute frame length");
  encrypted_len ← modern_encrypted_data_len frm;
  flags ← unpack_from 4 frm 0x14;
  let xor_word := λ out off, v ← unpack_from 4 frm off; Ok (Z.lxor out v) in
  out ← foldM xor_word (Z.land flags 0xFFFFFF) [0; 4; 8; 0xC]%nat;
  out ← foldM xor_word out ((λ i, 0x18 + i * 4)%nat <$> seq 0 (Z.to_nat (encrypted_len / 4)));
  Ok (Z.land out 0xFFFFFFFF).

(** ** [wire.py] *)

Definition hash_string (data : bytes) : Z :=
  foldl (λ value byte,
      let value := Z.lxor value
        (Z.land (Z.shiftl value 5 + byte + Z.shiftr value 2) 0xFFFFFFFF) in
      Z.land value 0xFFFFFFFF)
    0x4E67C6A7 data.

Definition new_header (subtype : Z) (length : nat) (identity sequence flags : Z) : result bytes :=
  let frame := zeros length in
  frame ← set_byte frame 0 0x7F;
  frame ← set_byte frame 1 subtype;
  frame ← pack_into 2 frame 2 (Z.of_nat length);
  frame ← pack_into 8 frame 4 (Z.land identity 0xFFFFFFFFFFFFFFFF);
  frame ← pack_into 4 frame 0xC (Z.land sequence 0xFFFFFFFF);
  pack_into 4 frame 0x14 (Z.land flags 0xFFFFFFFF).

(** [secrets.randbits(15)] is the argument [random]. *)
Definition randomized_flags (random mode proc extra : Z) : Z :=
  Z.lor (Z.lor (Z.lor extra (Z.shiftl (Z.land random 0x7FFF) 1)) (Z.shiftl (Z.land mode 3) 16))
    (Z.shiftl (Z.land proc 3) 18).

Definition finish_mode1 (frame : bytes) : result bytes :=
  c ← gute_mode1_xor_checksum frame;
  frame ← pack_into 4 frame 0x10 c;
  gute_mode1_encrypt frame.

Definition finish_mode2 (frame session_key : bytes) : result bytes :=
  c ← gute_mode1_xor_checksum frame;
  frame ← pack_into 4 frame 0x10 c;
  gute_mode2_encrypt frame session_key.

Example mode1_sample :
  let frame := (f ← new_header 0x15 40 0x1122334455667788 7 (randomized_flags 5 1 0 0);
                pack_into 4 f 0x18 1) in
  (f ← frame; w ← finish_mode1 f; p ← gute_mode1_decrypt w; Ok (slice 0x14 40 p)) =
  (f ← frame; Ok (slice 0x14 40 f)).
Proof. vm_compute. reflexivity. Qed.

(** ** Block transforms as pure functions *)

(** [T c e]: the block transform on eight bytes, where it returns. *)
Definition T (c : Rc5.RC5) (e : bool) (b : bytes) : bytes :=
  match transform c e b with Ok x => x | Raise _ => b end.

Section Transform.
Context (c : Rc5.RC5) (Hc : Rc5.w c = 32).

Lemma w32 : Rc5.word_size (Rc5.w c) ∧ (2 * Rc5.ww (Rc5.w c))%nat = 8%nat.
Proof using Hc. rewrite Hc. split; [by right; left|reflexivity]. Qed.

Lemma transform_ok e b : length b = 8%nat →
  transform c e b = Ok (T c e b) ∧ length (T c e b) = 8%nat.
Proof using Hc.
  destruct w32 as [Hw H8]. intros Hl. rewrite <-H8 in Hl. unfold T, transform. destruct e.
  - destruct (Rc5.encrypt_block_ok c b Hw Hl) as (AB & _ & ->). by rewrite Rc5.length_block_of.
  - destruct (Rc5.decrypt_block_ok c b Hw Hl) as (AB & _ & ->). by rewrite Rc5.length_block_of.
Qed.

Lemma T_inverse e b : bytes_ok b → length b = 8%nat →
  bytes_ok (T c e b) ∧ T c (negb e) (T c e b) = b.
Proof using Hc.
  destruct w32 as [Hw H8]. intros Hb Hl. rewrite <-H8 in Hl. unfold T, transform. destruct e; simpl.
  - destruct (Rc5.decrypt_encrypt_block c b Hw Hb Hl) as (x & -> & ? & _ & ->). done.
  - destruct (Rc5.encrypt_decrypt_block c b Hw Hb Hl) as (x & -> & ? & _ & ->). done.
Qed.

Lemma T_dec_enc b : bytes_ok b → length b = 8%nat → T c false (T c true b) = b.
Proof using Hc. apply (T_inverse true). Qed.

Lemma T_enc_dec b : bytes_ok b → length b = 8%nat → T c true (T c false b) = b.
Proof using Hc. apply (T_inverse false). Qed.

Lemma crypt_step_ok e pre pre' pl k :
  length pre = 24%nat → length pre' = 24%nat → (8 * S k ≤ length pl)%nat →
  crypt_step c e (pre' ++ pl) (pre ++ blocks (T c e) k pl) k = Ok (pre ++ blocks (T c e) (S k) pl).
Proof using Hc.
  intros Hp Hp' Hk. unfold crypt_step. cbv zeta. rewrite slice_app_r by lia. rewrite Hp'.
  replace (0x18 + k * 8 + 8 - 24)%nat with (8 * k + 8)%nat by lia.
  replace (0x18 + k * 8 - 24)%nat with (8 * k)%nat by lia.
  destruct (transform_ok e (slice (8 * k) (8 * k + 8) pl)) as [-> _]; [len_solve|].
  cbn [mbind result_bind]. rewrite slice_set_app_r by lia. rewrite Hp.
  replace (0x18 + k * 8 + 8 - 24)%nat with (8 * k + 8)%nat by lia.
  replace (0x18 + k * 8 - 24)%nat with (8 * k)%nat by lia.
  rewrite blocks_snoc; [done|intros; by apply transform_ok|lia].
Qed.

Lemma crypt_loop e src pre pre' pl n :
  src = pre' ++ pl → length pre = 24%nat → length pre' = 24%nat → (8 * n ≤ length pl)%nat →
  foldM (crypt_step c e src) (pre ++ pl) (seq 0 n) = Ok (pre ++ blocks (T c e) n pl).
Proof using Hc.
  intros -> Hp Hp' Hn.
  enough (∀ m k, (8 * (k + m) ≤ length pl)%nat →
    foldM (crypt_step c e (pre' ++ pl)) (pre ++ blocks (T c e) k pl) (seq k m) =
      Ok (pre ++ blocks (T c e) (k + m) pl)) as H by (by apply (H n 0%nat)).
  intros m. induction m as [|m IH]; intros k Hk; [by rewrite Nat.add_0_r|].
  cbn [seq foldM]. rewrite crypt_step_ok by lia. cbn [mbind result_bind]. rewrite IH by lia. by rewrite Nat.add_succ_r.
Qed.
End Transform.

Lemma init32 key : ∃ c, Rc5.init key 6 32 = Ok c ∧ Rc5.w c = 32.
Proof. by eexists. Qed.

(** Every whole block of a payload. *)
Lemma transform_blocks cipher e pl : Rc5.w cipher = 32 → bytes_ok pl →
  bytes_ok (blocks (T cipher e) (length pl / 8) pl) ∧
  length (blocks (T cipher e) (length pl / 8) pl) = length pl ∧
  blocks (T cipher (negb e)) (length pl / 8) (blocks (T cipher e) (length pl / 8) pl) = pl.
Proof.
  intros Hw Hp. assert (8 * (length pl / 8) ≤ length pl)%nat by apply Nat.Div0.mul_div_le.
  split_and!.
  - apply bytes_ok_blocks; try done; intros; by first [apply transform_ok|apply T_inverse].
  - apply length_blocks; try done; intros; by apply transform_ok.
  - apply blocks_inverse; try done; intros; by first [apply transform_ok|apply T_inverse].
Qed.

(** ** The parts of a frame *)

Record parts := mkParts { p_head : bytes; p_id : bytes; p_ck : bytes; p_fl : bytes; p_pl : bytes }.

Definition parts_ok (p : parts) : Prop :=
  length (p_head p) = 4%nat ∧ length (p_id p) = 8%nat ∧ length (p_ck p) = 8%nat ∧ length (p_fl p) = 4%nat.

Definition join (p : parts) : bytes := p_head p ++ p_id p ++ p_ck p ++ p_fl p ++ p_pl p.

Definition split (f : bytes) : parts :=
  mkParts (take 4 f) (slice 4 12 f) (slice 12 20 f) (slice 20 24 f) (drop 24 f).

Lemma split_ok f : (24 ≤ length f)%nat → parts_ok (split f).
Proof. intros. unfold parts_ok, split. simpl. split_and!; len_solve. Qed.

Lemma join_split f : join (split f) = f.
Proof.
  unfold join, split. cbn [p_head p_id p_ck p_fl p_pl].
  rewrite !slice_drop_app by lia. apply take_drop.
Qed.

Lemma length_join p : parts_ok p → length (join p) = (24 + length (p_pl p))%nat.
Proof. intros (? & ? & ? & ?). unfold join. len_solve. Qed.

Lemma join_slices p : parts_ok p →
  slice 0 4 (join p) = p_head p ∧ slice 4 12 (join p) = p_id p ∧
  slice 12 20 (join p) = p_ck p ∧ slice 20 24 (join p) = p_fl p.
Proof.
  destruct p as [a i k fl l]. unfold parts_ok, join. cbn [p_head p_id p_ck p_fl p_pl].
  intros (Ha & Hi & Hk & Hf). split_and!.
  - rewrite slice_app_l by lia. by apply slice_all.
  - apply slice_mid; lia.
  - rewrite app_assoc. apply slice_mid; len_solve.
  - rewrite app_assoc, (app_assoc (a ++ i)). apply slice_mid; len_solve.
Qed.

Lemma split_join p : parts_ok p → split (join p) = p.
Proof.
  intros Hp. destruct (join_slices p Hp) as (E1 & E2 & E3 & E4). unfold split. rewrite E2, E3, E4.
  change (take 4 (join p)) with (slice 0 4 (join p)). rewrite E1. destruct p as [a i k fl l]. f_equal.
  destruct Hp as (? & ? & ? & ?). unfold join. simpl in *. rewrite !app_assoc.
  apply drop_app_length'. len_solve.
Qed.

(** Two frames with the same protocol bytes, flags and length. *)
Definition same_head (f g : bytes) : Prop :=
  length f = length g ∧ slice 0 4 f = slice 0 4 g ∧ slice 20 24 f = slice 20 24 g.

Lemma same_head_join p id ck pl : parts_ok p → length id = 8%nat → length ck = 8%nat →
  length pl = length (p_pl p) → same_head (join (mkParts (p_head p) id ck (p_fl p) pl)) (join p).
Proof.
  intros Hp Hi Hk Hl. assert (parts_ok (mkParts (p_head p) id ck (p_fl p) pl)) as Hq
    by (destruct Hp as (? & ? & ? & ?); split_and!; done).
  destruct (join_slices p Hp) as (E1 & _ & _ & E2). destruct (join_slices _ Hq) as (F1 & _ & _ & F2).
  unfold same_head. rewrite !length_join by done. rewrite E1, E2, F1, F2. simpl. rewrite Hl. done.
Qed.

Lemma index_slice (f g : bytes) i a b : (a ≤ i < b)%nat → slice a b f = slice a b g → length f = length g →
  index f i = index g i.
Proof.
  intros Hi Hs Hl. unfold index. apply (f_equal (.!! (i - a)%nat)) in Hs. unfold slice in Hs.
  rewrite !lookup_take_lt, !lookup_drop in Hs by lia. replace (a + (i - a))%nat with i in Hs by lia.
  by rewrite Hs.
Qed.

Section SameHead.
Context (f g : bytes) (H : same_head f g).

Lemma same_unpack n off :
  (off + n ≤ 4)%nat ∨ (20 ≤ off ∧ off + n ≤ 24)%nat → unpack_from n f off = unpack_from n g off.
Proof using H.
  destruct H as (Hl & H1 & H2). intros [? | ?]; apply unpack_from_ext; [done| |done|].
  - rewrite (slice_slice off (off + n) 0 4 f), (slice_slice off (off + n) 0 4 g) by lia. by rewrite H1.
  - rewrite (slice_slice off (off + n) 20 24 f), (slice_slice off (off + n) 20 24 g) by lia. by rewrite H2.
Qed.

Lemma same_data_len : modern_encrypted_data_len f = modern_encrypted_data_len g.
Proof using H.
  unfold modern_encrypted_data_len, len. rewrite (same_unpack 2 2), (same_unpack 4 20) by lia.
  by rewrite (proj1 H).
Qed.

Lemma same_check mode msg : check_frame f mode msg = check_frame g mode msg.
Proof using H.
  unfold check_frame, bad_length, len. rewrite (same_unpack 2 2) by lia.
  rewrite (index_slice f g 0x16 20 24) by (lia || apply H). by rewrite (proj1 H).
Qed.

Lemma same_mode_key : mode_key f = mode_key g.
Proof using H.
  destruct H as (Hl & H1 & H2). unfold mode_key. rewrite H1.
  rewrite (slice_slice 0x14 0x17 20 24 f), (slice_slice 0x14 0x17 20 24 g) by lia. by rewrite H2.
Qed.
End SameHead.

(** ** Identity masking *)

Definition with_id (p : parts) (x : bytes) : parts := mkParts (p_head p) x (p_ck p) (p_fl p) (p_pl p).
Definition with_ck (p : parts) (x : bytes) : parts := mkParts (p_head p) (p_id p) x (p_fl p) (p_pl p).
Definition with_pl (p : parts) (x : bytes) : parts := mkParts (p_head p) (p_id p) (p_ck p) (p_fl p) x.

(** The two 32-bit words of eight bytes, xored pairwise. *)
Definition xor8 (u v : bytes) : bytes :=
  digits 256 4 (Z.lxor (undigits 256 (take 4 u)) (undigits 256 (take 4 v))) ++
  digits 256 4 (Z.lxor (undigits 256 (drop 4 u)) (undigits 256 (drop 4 v))).

Lemma length_xor8 u v : length (xor8 u v) = 8%nat.
Proof. unfold xor8. len_solve. Qed.

Lemma bytes_ok_xor8 u v : bytes_ok (xor8 u v).
Proof. apply bytes_ok_app; auto with bytes. Qed.

Lemma le4_bound l : bytes_ok l → length l = 4%nat → 0 ≤ undigits 256 l < 2 ^ 32.
Proof. intros. by apply (le_bound 4). Qed.

Lemma lxor4_bound u v : bytes_ok u → bytes_ok v → length u = 4%nat → length v = 4%nat →
  0 ≤ Z.lxor (undigits 256 u) (undigits 256 v) < 256 ^ Z.of_nat 4.
Proof. intros. apply (lxor_bound 32); [lia|by apply le4_bound..]. Qed.

Lemma xor8_cancel u v : bytes_ok u → bytes_ok v → length u = 8%nat → length v = 8%nat →
  xor8 (xor8 u v) v = u.
Proof.
  intros Hu Hv Lu Lv. unfold xor8 at 1. unfold xor8.
  rewrite take_app_length', drop_app_length' by len_solve.
  rewrite !le_decode_encode by (apply lxor4_bound; auto with bytes; len_solve).
  rewrite !lxor_cancel, !le_encode_decode by (auto with bytes || len_solve). apply take_drop.
Qed.

(** The two masked words written into an empty identity block. *)
Lemma pack8 v1 v2 : 0 ≤ v1 < 256 ^ Z.of_nat 4 → 0 ≤ v2 < 256 ^ Z.of_nat 4 →
  ∃ m, pack_into 4 (zeros 8) 0 v1 = Ok m ∧ pack_into 4 m 4 v2 = Ok (digits 256 4 v1 ++ digits 256 4 v2).
Proof.
  intros H1 H2. eexists. split; [apply pack_into_ok; [len_solve|done]|].
  by rewrite pack_into_ok by (done || len_solve).
Qed.

Section Parts.
Context (p : parts) (Hp : parts_ok p).

Lemma set_id x : slice_set 4 12 x (join p) = join (with_id p x).
Proof using Hp. destruct Hp as (? & ? & ? & ?). unfold join. by rewrite slice_set_mid by lia. Qed.

Lemma set_ck x : slice_set 12 20 x (join p) = join (with_ck p x).
Proof using Hp.
  destruct Hp as (? & ? & ? & ?). unfold join. rewrite app_assoc, slice_set_mid by len_solve.
  by rewrite <-app_assoc.
Qed.

Lemma set_id_lo x : slice_set 4 8 x (join p) = join (with_id p (x ++ drop 4 (p_id p))).
Proof using Hp.
  destruct Hp as (? & ? & ? & ?). unfold join. cbn [with_id p_head p_id p_ck p_fl p_pl].
  rewrite <-(take_drop 4 (p_id p)) at 1. rewrite <-!app_assoc.
  apply slice_set_mid; len_solve.
Qed.

Lemma set_id_hi x : slice_set 8 12 x (join p) = join (with_id p (take 4 (p_id p) ++ x)).
Proof using Hp.
  destruct Hp as (? & ? & ? & ?). unfold join. cbn [with_id p_head p_id p_ck p_fl p_pl].
  rewrite <-(take_drop 4 (p_id p)) at 1. rewrite <-!app_assoc, (app_assoc (p_head p)).
  rewrite slice_set_mid by len_solve. by rewrite <-app_assoc.
Qed.

Lemma unpack_parts :
  unpack_from 4 (join p) 4 = Ok (undigits 256 (take 4 (p_id p))) ∧
  unpack_from 4 (join p) 8 = Ok (undigits 256 (drop 4 (p_id p))) ∧
  unpack_from 4 (join p) 12 = Ok (undigits 256 (take 4 (p_ck p))) ∧
  unpack_from 4 (join p) 16 = Ok (undigits 256 (drop 4 (p_ck p))).
Proof using Hp.
  pose proof (length_join p Hp). destruct (join_slices p Hp) as (_ & E1 & E2 & _).
  destruct Hp as (? & ? & ? & ?).
  rewrite !unpack_from_ok by lia. split_and!; do 2 f_equal.
  - rewrite (slice_slice _ _ 4 12), E1 by lia. done.
  - rewrite (slice_slice _ _ 4 12), E1 by lia. unfold slice. by rewrite firstn_all2 by len_solve.
  - rewrite (slice_slice _ _ 12 20), E2 by lia. done.
  - rewrite (slice_slice _ _ 12 20), E2 by lia. unfold slice. by rewrite firstn_all2 by len_solve.
Qed.
End Parts.

Lemma parts_bytes p : bytes_ok (join p) →
  bytes_ok (p_head p) ∧ bytes_ok (p_id p) ∧ bytes_ok (p_ck p) ∧ bytes_ok (p_fl p) ∧ bytes_ok (p_pl p).
Proof. unfold join. rewrite !bytes_ok_app. tauto. Qed.

Lemma bytes_ok_join p : bytes_ok (p_head p) → bytes_ok (p_id p) → bytes_ok (p_ck p) →
  bytes_ok (p_fl p) → bytes_ok (p_pl p) → bytes_ok (join p).
Proof. intros. unfold join. rewrite !bytes_ok_app. done. Qed.

Lemma parts_ok_with_id p x : parts_ok p → length x = 8%nat → parts_ok (with_id p x).
Proof. intros (? & ? & ? & ?) ?. split_and!; done. Qed.

Section Identity.
Context (base : Rc5.RC5) (Hbase : Rc5.init BASE_SESSION_KEY 6 32 = Ok base) (Hw : Rc5.w base = 32).

Lemma decrypt_id_spec p q : parts_ok p → parts_ok q → bytes_ok (join p) →
  _modern_decrypt_id (join q) (join p) = Ok (join (with_id q (T base false (xor8 (p_id p) (p_ck p))))).
Proof using Hbase Hw.
  intros Hp Hq (_ & Hi & Hk & _)%parts_bytes. destruct (unpack_parts p Hp) as (E1 & E2 & E3 & E4).
  destruct Hp as (_ & Li & Lk & _).
  destruct (pack8 (Z.lxor (undigits 256 (take 4 (p_id p))) (undigits 256 (take 4 (p_ck p))))
                  (Z.lxor (undigits 256 (drop 4 (p_id p))) (undigits 256 (drop 4 (p_ck p)))))
    as (m & P1 & P2); [apply lxor4_bound; auto with bytes; len_solve..|].
  unfold _modern_decrypt_id. rewrite E1, E3. bind_simpl. rewrite P1, E2, E4. bind_simpl.
  rewrite P2, Hbase. bind_simpl. fold (xor8 (p_id p) (p_ck p)).
  destruct (transform_ok base Hw false _ (length_xor8 (p_id p) (p_ck p))) as [E _].
  unfold transform in E. rewrite E. bind_simpl. by rewrite set_id.
Qed.

Lemma encrypt_id_spec p q : parts_ok p → parts_ok q → bytes_ok (join p) → bytes_ok (join q) →
  _modern_encrypt_id (join q) (join p) = Ok (join (with_id q (xor8 (T base true (p_id p)) (p_ck q)))).
Proof using Hbase Hw.
  intros Hp Hq (_ & Hi & _)%parts_bytes (_ & _ & Hk & _)%parts_bytes.
  unfold _modern_encrypt_id. rewrite Hbase. bind_simpl.
  destruct (join_slices p Hp) as (_ & -> & _). destruct Hp as (_ & Li & _).
  destruct (transform_ok base Hw true _ Li) as [E L]. unfold transform in E. rewrite E. bind_simpl.
  destruct (T_inverse base Hw true _ Hi Li) as [Hx _].
  set (x := T base true (p_id p)) in *.
  assert (length (p_ck q) = 8%nat) as Lk by apply Hq.
  rewrite (unpack_from_ok 4 x 0) by lia. destruct (unpack_parts q Hq) as (_ & _ & -> & _). bind_simpl.
  change (slice 0 (0 + 4) x) with (take 4 x).
  rewrite pack_into_ok; [|rewrite length_join by done; lia|apply lxor4_bound; auto with bytes; len_solve].
  bind_simpl. change (4 + 4)%nat with 8%nat. rewrite set_id_lo by done.
  set (d := digits 256 4 _). set (q' := with_id q _).
  assert (parts_ok q') as Hq'
    by (apply parts_ok_with_id; [done|]; destruct Hq as (_ & ? & _); unfold d; len_solve).
  rewrite (unpack_from_ok 4 x 4) by lia. destruct (unpack_parts q' Hq') as (_ & _ & _ & ->). bind_simpl.
  replace (slice 4 (4 + 4) x) with (drop 4 x) by (unfold slice; by rewrite firstn_all2 by len_solve).
  rewrite pack_into_ok; [|rewrite length_join by done; lia|apply lxor4_bound; auto with bytes; simpl; len_solve].
  change (8 + 4)%nat with 12%nat.
  by rewrite set_id_hi.
Qed.
End Identity.

(** ** Whole frames *)

Lemma data_len_bound f n : modern_encrypted_data_len f = Ok n →
  (24 ≤ length f)%nat ∧ 0 ≤ n ≤ len f - 24.
Proof.
  unfold modern_encrypted_data_len. intros H. res_inv.
  rename select ((length f <? 24)%nat = false) into H24.
  split; [by apply Nat.ltb_ge in H24|].
  repeat match goal with |- context [if ?b then _ else _] => destruct b end; lia.
Qed.

Lemma blocks_fit n f : modern_encrypted_data_len f = Ok n → (8 * Z.to_nat (n / 8) ≤ length (p_pl (split f)))%nat.
Proof.
  intros [H1 H2]%data_len_bound. simpl. unfold len in *. rewrite length_drop.
  assert (8 * (n / 8) ≤ n) by (apply Z.mul_div_le; lia). assert (0 ≤ n / 8) by (apply Z.div_pos; lia). lia.
Qed.

(** The parts of the encoded and of the decoded frame: [c] is the payload
    cipher, [base] the identity cipher, [n] the number of payload blocks. *)
Definition enc_parts (c base : Rc5.RC5) (n : nat) (p : parts) : parts :=
  mkParts (p_head p) (xor8 (T base true (p_id p)) (T c true (p_ck p))) (T c true (p_ck p)) (p_fl p)
    (blocks (T c true) n (p_pl p)).
Definition dec_parts (c base : Rc5.RC5) (n : nat) (p : parts) : parts :=
  mkParts (p_head p) (T base false (xor8 (p_id p) (p_ck p))) (T c false (p_ck p)) (p_fl p)
    (blocks (T c false) n (p_pl p)).

Section Frame.
Context (c base : Rc5.RC5) (Hc : Rc5.w c = 32) (Hw : Rc5.w base = 32).
Context (Hbase : Rc5.init BASE_SESSION_KEY 6 32 = Ok base).

Lemma T_len e b : length b = 8%nat → length (T c e b) = 8%nat.
Proof using Hc. apply transform_ok, Hc. Qed.

Lemma T_bytes e b : bytes_ok b → length b = 8%nat → bytes_ok (T c e b).
Proof using Hc. intros. by apply T_inverse. Qed.

Lemma crypt_payload_spec e p q n : parts_ok p → parts_ok q → p_pl q = p_pl p →
  modern_encrypted_data_len (join p) = Ok n → (8 * Z.to_nat (n / 8) ≤ length (p_pl p))%nat →
  _modern_crypt_payload (join q) (join p) c e =
    Ok (join (with_pl (with_ck q (T c e (p_ck p))) (blocks (T c e) (Z.to_nat (n / 8)) (p_pl p)))).
Proof using Hc.
  intros Hp Hq Epl En Hn. unfold _modern_crypt_payload.
  destruct (join_slices p Hp) as (_ & _ & -> & _).
  destruct (transform_ok c Hc e (p_ck p)) as [-> L]; [apply Hp|]. bind_simpl.
  rewrite En. bind_simpl. rewrite set_ck by done.
  assert (∀ r, join r = (p_head r ++ p_id r ++ p_ck r ++ p_fl r) ++ p_pl r) as J
    by (intros r; unfold join; by rewrite <-!app_assoc).
  rewrite (J (with_ck q _)). cbn [with_ck p_pl]. rewrite Epl.
  rewrite (crypt_loop c Hc e _ _ (p_head p ++ p_id p ++ p_ck p ++ p_fl p)); [by rewrite J|apply J| | |done].
  - destruct Hq as (? & ? & ? & ?). simpl. len_solve.
  - destruct Hp as (? & ? & ? & ?). len_solve.
Qed.

Definition encode (plain : bytes) : result bytes :=
  out ← _modern_crypt_payload plain plain c true; _modern_encrypt_id out plain.
Definition decode (wire : bytes) : result bytes :=
  out ← _modern_decrypt_id wire wire; _modern_crypt_payload out wire c false.

Lemma encode_spec f n : bytes_ok f → modern_encrypted_data_len f = Ok n →
  encode f = Ok (join (enc_parts c base (Z.to_nat (n / 8)) (split f))).
Proof using Hc Hw Hbase.
  intros Hb En. pose proof (blocks_fit _ _ En) as Hn. destruct (data_len_bound _ _ En) as [H24 _].
  pose proof (split_ok f H24) as Hp. unfold encode. set (p := split f) in *.
  rewrite <-(join_split f) in Hb |- *. rewrite <-(join_split f) in En. fold p in Hb, En |- *.
  rewrite (crypt_payload_spec true p p n) by done. bind_simpl.
  destruct (parts_bytes p Hb) as (? & ? & ? & ? & ?). destruct Hp as (? & ? & ? & ?).
  rewrite encrypt_id_spec with (base := base); [done..| | |done|].
  - split_and!; done.
  - split_and!; try done. by apply T_len.
  - apply bytes_ok_join; try done; [by apply T_bytes|].
    apply bytes_ok_blocks; try done. intros. by apply T_bytes.
Qed.

Lemma decode_spec f n : bytes_ok f → modern_encrypted_data_len f = Ok n →
  decode f = Ok (join (dec_parts c base (Z.to_nat (n / 8)) (split f))).
Proof using Hc Hw Hbase.
  intros Hb En. pose proof (blocks_fit _ _ En) as Hn. destruct (data_len_bound _ _ En) as [H24 _].
  pose proof (split_ok f H24) as Hp. unfold decode. set (p := split f) in *.
  rewrite <-(join_split f) in Hb |- *. rewrite <-(join_split f) in En. fold p in Hb, En |- *.
  rewrite decrypt_id_spec with (base := base) by done. bind_simpl.
  rewrite (crypt_payload_spec false p _ n); try done.
  apply parts_ok_with_id; [done|]. by apply transform_ok, length_xor8.
Qed.

Lemma enc_parts_ok n p : parts_ok p → bytes_ok (join p) → (8 * n ≤ length (p_pl p))%nat →
  parts_ok (enc_parts c base n p) ∧ bytes_ok (join (enc_parts c base n p)) ∧
  same_head (join (enc_parts c base n p)) (join p) ∧
  length (p_pl (enc_parts c base n p)) = length (p_pl p) ∧
  dec_parts c base n (enc_parts c base n p) = p.
Proof using Hc Hw.
  intros Hp Hb Hn. destruct (parts_bytes p Hb) as (? & Hi & Hk & ? & Hl).
  pose proof Hp as (? & Li & Lk & ?).
  assert (length (blocks (T c true) n (p_pl p)) = length (p_pl p)) as Lb
    by (apply length_blocks; [apply T_len|done]).
  split; [split_and!; simpl; try done; (apply length_xor8 || by apply T_len)|]. split_and!; try done.
  - apply bytes_ok_join; simpl; try done; [apply bytes_ok_xor8|by apply T_bytes|].
    apply bytes_ok_blocks; try done; intros; (by apply T_bytes || by apply T_len).
  - apply same_head_join; try done. by apply T_len.
  - unfold dec_parts, enc_parts. cbn [p_head p_id p_ck p_fl p_pl].
    rewrite xor8_cancel by (try apply T_inverse; try apply transform_ok; done).
    rewrite (blocks_inverse (T c true) (T c false))
      by (try done; intros; (by apply T_len) || by apply T_dec_enc).
    rewrite !T_dec_enc by done.
    by destruct p.
Qed.

Lemma dec_parts_ok n p : parts_ok p → bytes_ok (join p) → (8 * n ≤ length (p_pl p))%nat →
  parts_ok (dec_parts c base n p) ∧ bytes_ok (join (dec_parts c base n p)) ∧
  same_head (join (dec_parts c base n p)) (join p) ∧
  length (p_pl (dec_parts c base n p)) = length (p_pl p) ∧
  enc_parts c base n (dec_parts c base n p) = p.
Proof using Hc Hw.
  intros Hp Hb Hn. destruct (parts_bytes p Hb) as (? & Hi & Hk & ? & Hl).
  pose proof Hp as (? & Li & Lk & ?).
  pose proof (bytes_ok_xor8 (p_id p) (p_ck p)) as Hx. pose proof (length_xor8 (p_id p) (p_ck p)) as Lx.
  assert (length (blocks (T c false) n (p_pl p)) = length (p_pl p)) as Lb
    by (apply length_blocks; [apply T_len|done]).
  split; [split_and!; simpl; try done; by apply transform_ok|]. split_and!; try done.
  - apply bytes_ok_join; simpl; try done; [by apply T_inverse|by apply T_bytes|].
    apply bytes_ok_blocks; try done; intros; (by apply T_bytes || by apply T_len).
  - apply same_head_join; try done; [by apply transform_ok|by apply T_len].
  - unfold dec_parts, enc_parts. cbn [p_head p_id p_ck p_fl p_pl].
    rewrite !T_enc_dec by done.
    rewrite (blocks_inverse (T c false) (T c true))
      by (try done; intros; (by apply T_len) || by apply T_enc_dec).
    rewrite xor8_cancel by done. by destruct p.
Qed.
End Frame.

Section Inverse.
Context (c : Rc5.RC5) (Hc : Rc5.w c = 32).

Lemma encode_data_len f g : encode c f = Ok g → ∃ n, modern_encrypted_data_len f = Ok n.
Proof. unfold encode, _modern_crypt_payload. intros H. res_inv. eauto. Qed.

Lemma decode_data_len f g : decode c f = Ok g → ∃ n, modern_encrypted_data_len f = Ok n.
Proof. unfold decode, _modern_crypt_payload. intros H. res_inv. eauto. Qed.

Lemma decode_encode f g : bytes_ok f → encode c f = Ok g →
  same_head g f ∧ bytes_ok g ∧ decode c g = Ok f.
Proof using Hc.
  intros Hb E. destruct (init32 BASE_SESSION_KEY) as (base & Hbase & Hw).
  destruct (encode_data_len f g E) as [n En].
  rewrite (encode_spec c base Hc Hw Hbase f n Hb En) in E. injection E as <-.
  pose proof (split_ok f (proj1 (data_len_bound f n En))) as Hp. pose proof (blocks_fit n f En) as Hn.
  destruct (enc_parts_ok c base Hc Hw (Z.to_nat (n / 8)) (split f) Hp) as (Hq & Hqb & Hh & _ & Hi);
    [by rewrite join_split|done|]. rewrite join_split in Hh. split_and!; [done..|].
  assert (modern_encrypted_data_len (join (enc_parts c base (Z.to_nat (n / 8)) (split f))) = Ok n) as En'
    by (by rewrite (same_data_len _ f)).
  rewrite (decode_spec c base Hc Hw Hbase _ n Hqb En'), split_join, Hi, join_split by done. done.
Qed.

Lemma encode_decode f g : bytes_ok f → decode c f = Ok g →
  same_head g f ∧ bytes_ok g ∧ encode c g = Ok f.
Proof using Hc.
  intros Hb E. destruct (init32 BASE_SESSION_KEY) as (base & Hbase & Hw).
  destruct (decode_data_len f g E) as [n En].
  rewrite (decode_spec c base Hc Hw Hbase f n Hb En) in E. injection E as <-.
  pose proof (split_ok f (proj1 (data_len_bound f n En))) as Hp. pose proof (blocks_fit n f En) as Hn.
  destruct (dec_parts_ok c base Hc Hw (Z.to_nat (n / 8)) (split f) Hp) as (Hq & Hqb & Hh & _ & Hi);
    [by rewrite join_split|done|]. rewrite join_split in Hh. split_and!; [done..|].
  assert (modern_encrypted_data_len (join (dec_parts c base (Z.to_nat (n / 8)) (split f))) = Ok n) as En'
    by (by rewrite (same_data_len _ f)).
  rewrite (encode_spec c base Hc Hw Hbase _ n Hqb En'), split_join, Hi, join_split by done. done.
Qed.
End Inverse.

(** The codecs after their guards are [encode] and [decode]. *)
Lemma mode1_encrypt_encode f c : Rc5.init (mode_key f) 6 32 = Ok c →
  gute_mode1_encrypt f = (_ ← check_frame f 1 "gute_mode1_encrypt requires mode 1"; encode c f).
Proof. intros E. unfold gute_mode1_encrypt, encode. by rewrite E. Qed.

Lemma mode1_decrypt_decode f c : Rc5.init (mode_key f) 6 32 = Ok c →
  gute_mode1_decrypt f = (_ ← check_frame f 1 "gute_mode1_decrypt requires mode 1"; decode c f).
Proof. intros E. unfold gute_mode1_decrypt, decode. by rewrite E. Qed.

Lemma check_frame_msg f mode m1 m2 u : check_frame f mode m1 = Ok u → check_frame f mode m2 = Ok u.
Proof.
  unfold check_frame. destruct (bad_length f) as [b|]; [|done]. simpl. destruct b; [done|]. simpl.
  destruct (index f 22); [|done]. simpl. by destruct (negb _).
Qed.

Lemma check_frame_length f mode msg u : check_frame f mode msg = Ok u →
  (24 ≤ length f)%nat ∧ unpack_from 2 f 2 = Ok (len f) ∧ Z.land (f !!! 0x16%nat) 3 = mode.
Proof.
  unfold check_frame, bad_length. destruct (Nat.ltb_spec (length f) 24) as [Hl|Hl]; [done|].
  rewrite (unpack_from_ok 2 f 2), (index_ok f 0x16) by lia. bind_simpl.
  destruct (negb (_ =? len f)) eqn:E; [done|]. bind_simpl. intros H%raise_if_Ok.
  split_and!; [done|f_equal; lia|lia].
Qed.

Lemma mode1_inverse plain wire : bytes_ok plain → bytes_ok wire →
  gute_mode1_encrypt plain = Ok wire ↔ gute_mode1_decrypt wire = Ok plain.
Proof.
  intros Hp Hw. destruct (init32 (mode_key plain)) as (c & Ec & Hc). split.
  - rewrite (mode1_encrypt_encode plain c Ec). intros H. res_inv.
    destruct (decode_encode c Hc plain wire Hp H) as (Hh & _ & Hd).
    rewrite (mode1_decrypt_decode wire c) by (by rewrite (same_mode_key wire plain)).
    rewrite (same_check wire plain Hh). by erewrite check_frame_msg by eassumption.
  - destruct (init32 (mode_key wire)) as (c' & Ec' & Hc').
    rewrite (mode1_decrypt_decode wire c' Ec'). intros H. res_inv.
    destruct (encode_decode c' Hc' wire plain Hw H) as (Hh & _ & Hd).
    rewrite (mode1_encrypt_encode plain c') by (by rewrite (same_mode_key plain wire)).
    rewrite (same_check plain wire Hh). by erewrite check_frame_msg by eassumption.
Qed.

Lemma mode2_inverse plain wire key : bytes_ok plain → bytes_ok wire →
  gute_mode2_encrypt plain key = Ok wire ↔ gute_mode2_decrypt wire key = Ok plain.
Proof.
  intros Hp Hw. destruct (init32 key) as (c & Ec & Hc).
  unfold gute_mode2_encrypt, gute_mode2_decrypt. rewrite Ec.
  destruct (raise_if _ _); [|done]. bind_simpl.
  change (out ← _modern_crypt_payload plain plain c true; _modern_encrypt_id out plain) with (encode c plain).
  change (out ← _modern_decrypt_id wire wire; _modern_crypt_payload out wire c false) with (decode c wire).
  split; intros H; res_inv.
  - destruct (decode_encode c Hc plain wire Hp H) as (Hh & _ & Hd).
    rewrite (same_check wire plain Hh). by erewrite check_frame_msg by eassumption.
  - destruct (encode_decode c Hc wire plain Hw H) as (Hh & _ & Hd).
    rewrite (same_check plain wire Hh). by erewrite check_frame_msg by eassumption.
Qed.

Section IdentityInverse.
Context (base : Rc5.RC5) (Hbase : Rc5.init BASE_SESSION_KEY 6 32 = Ok base) (H32 : Rc5.w base = 32).
Context (p : parts) (Hp : parts_ok p) (Hb : bytes_ok (join p)).

Lemma same_head_with_id x : length x = 8%nat → same_head (join (with_id p x)) (join p).
Proof using Hp. intros. apply same_head_join; try done. apply Hp. Qed.

Lemma bytes_ok_with_id x : bytes_ok x → bytes_ok (join (with_id p x)).
Proof using Hb. destruct (parts_bytes p Hb) as (? & ? & ? & ? & ?). intros. by apply bytes_ok_join. Qed.

Lemma encrypt_decrypt_id g : _modern_encrypt_id (join p) (join p) = Ok g →
  same_head g (join p) ∧ _modern_decrypt_id g g = Ok (join p).
Proof using Hb Hbase Hp H32.
  rewrite (encrypt_id_spec base) by done. intros [= <-].
  destruct (parts_bytes p Hb) as (_ & Hi & Hk & _). pose proof Hp as (_ & Li & Lk & _).
  pose proof (length_xor8 (T base true (p_id p)) (p_ck p)).
  split; [by apply same_head_with_id|].
  rewrite (decrypt_id_spec base); auto using parts_ok_with_id, bytes_ok_with_id, bytes_ok_xor8.
  unfold with_id. cbn [p_head p_id p_ck p_fl p_pl].
  rewrite xor8_cancel, T_dec_enc by (try apply T_inverse; try apply transform_ok; done). by destruct p.
Qed.

Lemma decrypt_encrypt_id g : _modern_decrypt_id (join p) (join p) = Ok g →
  same_head g (join p) ∧ _modern_encrypt_id g g = Ok (join p).
Proof using Hb Hbase Hp H32.
  rewrite (decrypt_id_spec base) by done. intros [= <-].
  destruct (parts_bytes p Hb) as (_ & Hi & Hk & _). pose proof Hp as (_ & Li & Lk & _).
  destruct (T_inverse base H32 false (xor8 (p_id p) (p_ck p)) (bytes_ok_xor8 _ _) (length_xor8 _ _)) as [Hx _].
  destruct (transform_ok base H32 false (xor8 (p_id p) (p_ck p)) (length_xor8 _ _)) as [_ Lx].
  split; [by apply same_head_with_id|].
  rewrite (encrypt_id_spec base); auto using parts_ok_with_id, bytes_ok_with_id.
  unfold with_id. cbn [p_head p_id p_ck p_fl p_pl].
  rewrite T_enc_dec, xor8_cancel by (auto using bytes_ok_xor8, length_xor8). by destruct p.
Qed.
End IdentityInverse.

Lemma mode0_inverse plain wire : bytes_ok plain → bytes_ok wire →
  gute_mode0_encrypt plain = Ok wire ↔ gute_mode0_decrypt wire = Ok plain.
Proof.
  intros Hp Hw. destruct (init32 BASE_SESSION_KEY) as (base & Hbase & H32).
  unfold gute_mode0_encrypt, gute_mode0_decrypt. split; intros H; res_inv;
    match goal with H : check_frame _ _ _ = Ok _ |- _ =>
      rename H into Hck; pose proof (proj1 (check_frame_length _ _ _ _ Hck)) as Hl end.
  - destruct (encrypt_decrypt_id base Hbase H32 (split plain) (split_ok _ Hl)) with wire as [Hh Hd];
      rewrite ?join_split in *; try done.
    rewrite (same_check wire plain Hh). by erewrite check_frame_msg by eassumption.
  - destruct (decrypt_encrypt_id base Hbase H32 (split wire) (split_ok _ Hl)) with plain as [Hh Hd];
      rewrite ?join_split in *; try done.
    rewrite (same_check plain wire Hh). by erewrite check_frame_msg by eassumption.
Qed.

(** What a codec may do with [n] bytes: return [n] bytes, or raise [ValueError]. *)
Definition total_codec (n : nat) (r : result bytes) : Prop :=
  match r with
  | Ok g => bytes_ok g ∧ length g = n
  | Raise (ValueError _) => True
  | Raise _ => False
  end.

Lemma check_frame_cases f mode msg :
  (∃ m, check_frame f mode msg = Raise (ValueError m)) ∨
  (check_frame f mode msg = Ok tt ∧ (24 ≤ length f)%nat).
Proof.
  destruct (check_frame f mode msg) as [[]|e] eqn:E.
  { right. split; [done|]. by eapply check_frame_length. }
  left. revert E. unfold check_frame, bad_length.
  destruct (Nat.ltb_spec (length f) 24) as [Hl|Hl]; [simpl; intros [= <-]; eauto|].
  rewrite (unpack_from_ok 2 f 2), (index_ok f 0x16) by lia. bind_simpl.
  destruct (negb (_ =? len f)); simpl; [intros [= <-]; eauto|].
  destruct (negb (_ =? mode)); simpl; [intros [= <-]; eauto|done].
Qed.

Lemma data_len_cases f : (24 ≤ length f)%nat →
  (∃ m, modern_encrypted_data_len f = Raise (ValueError m)) ∨ (∃ n, modern_encrypted_data_len f = Ok n).
Proof.
  intros Hl. unfold modern_encrypted_data_len. rewrite (proj2 (Nat.ltb_ge _ _)) by lia.
  rewrite (unpack_from_ok 2 f 2), (unpack_from_ok 4 f 0x14) by lia. bind_simpl.
  destruct (negb (_ =? len f)); simpl; [eauto|]. destruct (_ <? 0); simpl; eauto.
Qed.

Section Total.
Context (f : bytes) (Hb : bytes_ok f) (Hl : (24 ≤ length f)%nat).
Context (c : Rc5.RC5) (Hc : Rc5.w c = 32).

Lemma id_spec base : Rc5.init BASE_SESSION_KEY 6 32 = Ok base → Rc5.w base = 32 →
  _modern_encrypt_id f f =
    Ok (join (with_id (split f) (xor8 (T base true (p_id (split f))) (p_ck (split f))))) ∧
  _modern_decrypt_id f f =
    Ok (join (with_id (split f) (T base false (xor8 (p_id (split f)) (p_ck (split f)))))).
Proof using Hb Hl.
  intros Hbase H32. pose proof (split_ok f Hl) as Hp. rewrite <-(join_split f) in Hb.
  generalize (split f) Hp Hb (join_split f). intros p Hp' Hb' <-. split.
  - by apply encrypt_id_spec.
  - by apply decrypt_id_spec.
Qed.

Lemma encode_total : total_codec (length f) (encode c f).
Proof using Hb Hl Hc.
  destruct (init32 BASE_SESSION_KEY) as (base & Hbase & H32).
  destruct (data_len_cases f Hl) as [[m E]|[n E]].
  - unfold encode, _modern_crypt_payload.
    destruct (transform_ok c Hc true (slice 0xC 0x14 f)) as [-> _]; [len_solve|].
    bind_simpl. rewrite E. simpl. exact I.
  - destruct (encode c f) as [g|] eqn:Eg; [|by rewrite (encode_spec c base Hc H32 Hbase f n Hb E) in Eg].
    destruct (decode_encode c Hc f g Hb Eg) as ((? & _) & ? & _). simpl. auto.
Qed.

Lemma decode_total : total_codec (length f) (decode c f).
Proof using Hb Hl Hc.
  destruct (init32 BASE_SESSION_KEY) as (base & Hbase & H32).
  destruct (data_len_cases f Hl) as [[m E]|[n E]].
  - unfold decode, _modern_crypt_payload. rewrite (proj2 (id_spec base Hbase H32)). bind_simpl.
    destruct (transform_ok c Hc false (slice 0xC 0x14 f)) as [-> _]; [len_solve|].
    bind_simpl. rewrite E. simpl. exact I.
  - destruct (decode c f) as [g|] eqn:Eg; [|by rewrite (decode_spec c base Hc H32 Hbase f n Hb E) in Eg].
    destruct (encode_decode c Hc f g Hb Eg) as ((? & _) & ? & _). simpl. auto.
Qed.

Lemma identity_total :
  total_codec (length f) (_modern_encrypt_id f f) ∧ total_codec (length f) (_modern_decrypt_id f f).
Proof using Hb Hl.
  destruct (init32 BASE_SESSION_KEY) as (base & Hbase & H32). pose proof (split_ok f Hl) as Hp.
  destruct (id_spec base Hbase H32) as [-> ->]. rewrite <-(join_split f) in Hb. simpl.
  assert (∀ x, length x = 8%nat → length (join (with_id (split f) x)) = length f) as Hlen.
  { intros x Hx. rewrite (proj1 (same_head_with_id (split f) Hp x Hx)). by rewrite join_split. }
  split.
  - split; [apply bytes_ok_with_id; [done|apply bytes_ok_xor8]|]. apply Hlen, length_xor8.
  - split; [apply bytes_ok_with_id; [done|]; apply T_inverse; auto using bytes_ok_xor8, length_xor8|].
    apply Hlen, transform_ok; [done|apply length_xor8].
Qed.
End Total.

(** ** Checksums *)

(** Fields outside the checksum slot survive a write to it. *)
Lemma slot_unpack f g v n off : pack_into 4 f 0x10 v = Ok g →
  (off + n ≤ 16)%nat ∨ (20 ≤ off)%nat → unpack_from n g off = unpack_from n f off.
Proof.
  intros (Hl & _ & ->)%pack_into_Ok Ho. apply unpack_from_ext; [len_solve|].
  destruct Ho; [apply slice_slice_set_lt|apply slice_slice_set_ge]; len_solve.
Qed.

Lemma slot_length f g v : pack_into 4 f 0x10 v = Ok g → length g = length f ∧ (20 ≤ length f)%nat.
Proof. intros (Hl & _ & ->)%pack_into_Ok. len_solve. Qed.

Lemma slot_data_len f g v : pack_into 4 f 0x10 v = Ok g →
  modern_encrypted_data_len g = modern_encrypted_data_len f ∧ bad_length g = bad_length f.
Proof.
  intros E. unfold modern_encrypted_data_len, bad_length, len.
  rewrite !(slot_unpack f g v 2 2 E), !(slot_unpack f g v 4 0x14 E) by lia.
  by rewrite (proj1 (slot_length f g v E)).
Qed.

Lemma foldM_ext {A St} (f g : St → A → result St) (l : list A) s :
  (∀ s a, a ∈ l → f s a = g s a) → foldM f s l = foldM g s l.
Proof.
  revert s. induction l as [|a l IH]; intros s H; [done|]. simpl. rewrite H by set_solver.
  destruct (g s a); [|done]. simpl. apply IH. set_solver.
Qed.

Lemma slot_xor_checksum f g v : pack_into 4 f 0x10 v = Ok g →
  gute_mode1_xor_checksum g = gute_mode1_xor_checksum f.
Proof.
  intros E. unfold gute_mode1_xor_checksum. destruct (slot_data_len f g v E) as [-> ->].
  rewrite (slot_unpack f g v 4 0x14 E) by lia.
  destruct (bad_length f) as [[|]|]; [done| |done]. bind_simpl.
  destruct (modern_encrypted_data_len f) as [n|]; [|done]. bind_simpl.
  destruct (unpack_from 4 f 0x14) as [fl|]; [|done]. bind_simpl.
  rewrite (foldM_ext _ (λ out off, v ← unpack_from 4 f off; Ok (Z.lxor out v)) [0; 4; 8; 0xC]%nat).
  2: { intros s a Ha. rewrite (slot_unpack f g v 4 a E); [done|]. left. set_unfold. lia. }
  destruct (foldM _ _ [0; 4; 8; 0xC]%nat) as [o|]; [|done]. bind_simpl.
  rewrite (foldM_ext _ (λ out off, v ← unpack_from 4 f off; Ok (Z.lxor out v)) (_ <$> _)); [done|].
  intros s a Ha. rewrite (slot_unpack f g v 4 a E); [done|]. right.
  apply list_elem_of_fmap in Ha as (i & -> & _). lia.
Qed.

Lemma xor_checksum_bound f x : gute_mode1_xor_checksum f = Ok x → 0 ≤ x < 256 ^ Z.of_nat 4.
Proof.
  unfold gute_mode1_xor_checksum. intros H. res_inv. rewrite land_mask32. by apply Z.mod_pos_bound.
Qed.

Lemma pack_slot_bytes f g v : bytes_ok f → pack_into 4 f 0x10 v = Ok g → bytes_ok g.
Proof. intros Hf (_ & _ & ->)%pack_into_Ok. auto with bytes. Qed.

(** A frame after its checksum is written: the field holds the checksum of
    the frame itself, and everything else is unchanged. *)
Lemma sealed f g x : gute_mode1_xor_checksum f = Ok x → pack_into 4 f 0x10 x = Ok g →
  gute_mode1_xor_checksum g = unpack_from 4 g 0x10 ∧
  slice 0 0x10 g = slice 0 0x10 f ∧ drop 0x14 g = drop 0x14 f.
Proof.
  intros Ex E. rewrite (slot_xor_checksum f g x E), Ex, (unpack_pack_into 4 f 0x10 x g E).
  split; [done|]. destruct (pack_into_Ok _ _ _ _ _ E) as (Hl & _ & ->). split.
  - apply slice_slice_set_lt; lia.
  - unfold slice_set. rewrite app_assoc. apply drop_app_length'. len_solve.
Qed.

(** Every codec is total on byte strings of any length and content: it
    returns a frame of the same length or raises [ValueError], never a
    [struct] or index error. *)
Lemma gute_codecs_total f session_key :
  bytes_ok f →
  total_codec (length f) (gute_mode1_encrypt f) ∧ total_codec (length f) (gute_mode1_decrypt f) ∧
  total_codec (length f) (gute_mode2_encrypt f session_key) ∧
  total_codec (length f) (gute_mode2_decrypt f session_key) ∧
  total_codec (length f) (gute_mode0_encrypt f) ∧ total_codec (length f) (gute_mode0_decrypt f).
Proof.
  intros Hb. destruct (init32 (mode_key f)) as (c & Ec & Hc). destruct (init32 session_key) as (d & Ed & Hd).
  assert (∀ mode msg k, ((24 ≤ length f)%nat → total_codec (length f) k) →
    total_codec (length f) (_ ← check_frame f mode msg; k)) as Hcheck.
  { intros mode msg k Hk. destruct (check_frame_cases f mode msg) as [[m ->]|[-> Hl]]; [exact I|by apply Hk]. }
  rewrite (mode1_encrypt_encode f c Ec), (mode1_decrypt_decode f c Ec).
  unfold gute_mode2_encrypt, gute_mode2_decrypt, gute_mode0_encrypt, gute_mode0_decrypt. rewrite Ed.
  split_and!; try (destruct (raise_if _ _) as [|e] eqn:Er;
    [bind_simpl|by unfold raise_if in Er; case_match; simplify_eq]);
    apply Hcheck; intros Hl.
  - by apply encode_total.
  - by apply decode_total.
  - by apply encode_total.
  - by apply decode_total.
  - by apply identity_total.
  - by apply identity_total.
Qed.

(** ** Properties *)

(** C35: decoding is the inverse of encoding in every encryption mode, and
    every codec is total: for byte strings, a frame encrypts to a wire exactly
    when that wire decrypts to the frame (mode 1 with its per-frame key, mode 2
    with the session key, mode 0 with only the identity masked); and on byte
    strings of any length and content a codec returns a frame of the same length
    or raises [ValueError], never a [struct] or index error. *)
Theorem gute_codec_inverse plain wire session_key :
  bytes_ok plain → bytes_ok wire →
  (gute_mode1_encrypt plain = Ok wire ↔ gute_mode1_decrypt wire = Ok plain) ∧
  (gute_mode2_encrypt plain session_key = Ok wire ↔ gute_mode2_decrypt wire session_key = Ok plain) ∧
  (gute_mode0_encrypt plain = Ok wire ↔ gute_mode0_decrypt wire = Ok plain) ∧
  total_codec (length plain) (gute_mode1_encrypt plain) ∧ total_codec (length wire) (gute_mode1_decrypt wire) ∧
  total_codec (length plain) (gute_mode2_encrypt plain session_key) ∧
  total_codec (length wire) (gute_mode2_decrypt wire session_key) ∧
  total_codec (length plain) (gute_mode0_encrypt plain) ∧ total_codec (length wire) (gute_mode0_decrypt wire).
Proof.
  intros Hp Hw. split_and!; [by apply mode1_inverse|by apply mode2_inverse|by apply mode0_inverse|..].
  all: first [apply (gute_codecs_total plain session_key Hp)|apply (gute_codecs_total wire session_key Hw)].
Qed.

(** A mode-1 frame with three payload blocks, the last one incomplete. *)
Definition sample_frame : bytes :=
  match (f ← new_header 0x15 45 0x1122334455667788 7 (randomized_flags 5 1 0 0); pack_into 4 f 0x18 1) with
  | Ok f => f | Raise _ => [] end.
Definition sample_wire : bytes :=
  match gute_mode1_encrypt sample_frame with Ok w => w | Raise _ => [] end.

Lemma gute_codec_inverse_witness :
  gute_mode1_encrypt sample_frame = Ok sample_wire ∧ gute_mode1_decrypt sample_wire = Ok sample_frame.
Proof.
  assert (gute_mode1_encrypt sample_frame = Ok sample_wire) as E by (vm_compute; reflexivity).
  split; [exact E|].
  apply (proj1 (proj1 (gute_codec_inverse sample_frame sample_wire [] ltac:(bytes_concrete) ltac:(bytes_concrete)))).
  exact E.
Defined.

(** What [finish_mode1] and [finish_mode2] put on the wire decrypts to
    the caller's frame, changed only in the checksum field, and that field
    holds the xor checksum of the decrypted frame, which is the test the
    receivers apply. *)
Lemma finish_seals_plain frame session_key wire :
  bytes_ok frame → bytes_ok wire →
  (finish_mode1 frame = Ok wire ∨ finish_mode2 frame session_key = Ok wire) →
  ∃ plain,
    (gute_mode1_decrypt wire = Ok plain ∨ gute_mode2_decrypt wire session_key = Ok plain) ∧
    gute_mode1_xor_checksum plain = unpack_from 4 plain 0x10 ∧
    slice 0 0x10 plain = slice 0 0x10 frame ∧ drop 0x14 plain = drop 0x14 frame.
Proof.
  intros Hf Hw [H|H]; unfold finish_mode1, finish_mode2 in H;
    apply bind_Ok in H as (x & Ex & H); apply bind_Ok in H as (g & Eg & H);
    exists g; (split; [|by apply (sealed frame g x)]);
    pose proof (pack_slot_bytes _ _ _ Hf Eg).
  - left. by apply mode1_inverse.
  - right. by apply mode2_inverse.
Qed.

(** [set_checksum] succeeds on every frame with a full header, and the
    frame it produces passes [verify_checksum]. *)
Lemma set_checksum_verifies frm :
  (24 ≤ length frm)%nat →
  ∃ frm', set_checksum frm = Ok frm' ∧ verify_checksum frm' = Ok true.
Proof.
  intros Hl. unfold set_checksum.
  destruct (gute_checksum frm) as [v|] eqn:E; [|by unfold gute_checksum in E; rewrite !unpack_from_ok in E by lia].
  assert (0 ≤ v < 256 ^ Z.of_nat 4) as Hv.
  { unfold gute_checksum in E. res_inv. rewrite land_mask32. by apply Z.mod_pos_bound. }
  destruct (pack_into 4 frm 0x10 v) as [g|] eqn:Eg; [|by rewrite pack_into_ok in Eg by (lia || done)].
  exists g. bind_simpl. split; [done|]. unfold verify_checksum. rewrite (unpack_pack_into _ _ _ _ _ Eg).
  assert (gute_checksum g = Ok v) as ->.
  { rewrite <-E. unfold gute_checksum. by rewrite !(slot_unpack frm g v 4 _ Eg) by lia. }
  simpl. by rewrite Z.eqb_refl.
Qed.

(** C36: what [finish_mode1] and [finish_mode2] put on the wire decrypts to
    the caller's frame, changed only in the checksum field, and that field
    holds the xor checksum of the decrypted frame, which is the test the
    receivers apply. [set_checksum] succeeds on every frame with a full header
    and its result passes [verify_checksum]. *)
Theorem finish_seals frame :
  bytes_ok frame →
  (∀ session_key wire, bytes_ok wire → (finish_mode1 frame = Ok wire ∨ finish_mode2 frame session_key = Ok wire) →
   ∃ plain,
    (gute_mode1_decrypt wire = Ok plain ∨ gute_mode2_decrypt wire session_key = Ok plain) ∧
    gute_mode1_xor_checksum plain = unpack_from 4 plain 0x10 ∧
    slice 0 0x10 plain = slice 0 0x10 frame ∧ drop 0x14 plain = drop 0x14 frame) ∧
  ((24 ≤ length frame)%nat → ∃ frame', set_checksum frame = Ok frame' ∧ verify_checksum frame' = Ok true).
Proof. intros Hf. split; [intros; by eapply finish_seals_plain|apply set_checksum_verifies]. Qed.

Definition sealed_wire : bytes := match finish_mode1 sample_frame with Ok w => w | Raise _ => [] end.

Lemma finish_seals_witness :
  (∃ plain,
    (gute_mode1_decrypt sealed_wire = Ok plain ∨ gute_mode2_decrypt sealed_wire [] = Ok plain) ∧
    gute_mode1_xor_checksum plain = unpack_from 4 plain 0x10 ∧
    slice 0 0x10 plain = slice 0 0x10 sample_frame ∧ drop 0x14 plain = drop 0x14 sample_frame) ∧
  ∃ frame', set_checksum sample_frame = Ok frame' ∧ verify_checksum frame' = Ok true.
Proof.
  destruct (finish_seals sample_frame ltac:(bytes_concrete)) as [H1 H2]. split.
  - apply (H1 [] sealed_wire ltac:(bytes_concrete)). left. vm_compute. reflexivity.
  - apply H2. vm_compute. lia.
Defined.

End GuteFrame.
