(* ===== verification/Des.v ===== *)
(** * Single DES: the handshake authentication token

    Models the DES section of [src/backend/app/drivers/yoosee/p2p/crypto.py]:
    the permutation tables and S-boxes as the source lists them, the key
    schedule, the sixteen Feistel rounds and [des_encrypt].  The theorems show
    that running the rounds with the subkeys in the reverse order recovers the
    block for every key, so [des_encrypt] is a permutation of the eight-byte
    blocks; the known-answer vector of the module's self-test is checked by
    evaluation. *)

From Stdlib Require Import ZArith Lia.
From S2P Require Import Prelude.

Module Des.

Definition _IP : list nat :=
  [ 58; 50; 42; 34; 26; 18; 10; 2; 60; 52; 44; 36; 28; 20; 12; 4;
    62; 54; 46; 38; 30; 22; 14; 6; 64; 56; 48; 40; 32; 24; 16; 8;
    57; 49; 41; 33; 25; 17; 9; 1; 59; 51; 43; 35; 27; 19; 11; 3;
    61; 53; 45; 37; 29; 21; 13; 5; 63; 55; 47; 39; 31; 23; 15; 7 ]%nat.

Definition _FP : list nat :=
  [ 40; 8; 48; 16; 56; 24; 64; 32; 39; 7; 47; 15; 55; 23; 63; 31;
    38; 6; 46; 14; 54; 22; 62; 30; 37; 5; 45; 13; 53; 21; 61; 29;
    36; 4; 44; 12; 52; 20; 60; 28; 35; 3; 43; 11; 51; 19; 59; 27;
    34; 2; 42; 10; 50; 18; 58; 26; 33; 1; 41; 9; 49; 17; 57; 25 ]%nat.

Definition _E : list nat :=
  [ 32; 1; 2; 3; 4; 5; 4; 5; 6; 7; 8; 9; 8; 9; 10; 11;
    12; 13; 12; 13; 14; 15; 16; 17; 16; 17; 18; 19; 20; 21; 20; 21;
    22; 23; 24; 25; 24; 25; 26; 27; 28; 29; 28; 29; 30; 31; 32; 1 ]%nat.

Definition _P : list nat :=
  [ 16; 7; 20; 21; 29; 12; 28; 17; 1; 15; 23; 26; 5; 18; 31; 10;
    2; 8; 24; 14; 32; 27; 3; 9; 19; 13; 30; 6; 22; 11; 4; 25 ]%nat.

Definition _PC1 : list nat :=
  [ 57; 49; 41; 33; 25; 17; 9; 1; 58; 50; 42; 34; 26; 18; 10; 2;
    59; 51; 43; 35; 27; 19; 11; 3; 60; 52; 44; 36; 63; 55; 47; 39;
    31; 23; 15; 7; 62; 54; 46; 38; 30; 22; 14; 6; 61; 53; 45; 37;
    29; 21; 13; 5; 28; 20; 12; 4 ]%nat.

Definition _PC2 : list nat :=
  [ 14; 17; 11; 24; 1; 5; 3; 28; 15; 6; 21; 10; 23; 19; 12; 4;
    26; 8; 16; 7; 27; 20; 13; 2; 41; 52; 31; 37; 47; 55; 30; 40;
    51; 45; 33; 48; 44; 49; 39; 56; 34; 53; 46; 42; 50; 36; 29; 32 ]%nat.

Definition _SHIFTS : list nat :=
  [ 1; 1; 2; 2; 2; 2; 2; 2; 1; 2; 2; 2; 2; 2; 2; 1 ]%nat.

Definition _DES_SBOX_0 : list Z :=
  [ 14; 4; 13; 1; 2; 15; 11; 8; 3; 10; 6; 12; 5; 9; 0; 7;
    0; 15; 7; 4; 14; 2; 13; 1; 10; 6; 12; 11; 9; 5; 3; 8;
    4; 1; 14; 8; 13; 6; 2; 11; 15; 12; 9; 7; 3; 10; 5; 0;
    15; 12; 8; 2; 4; 9; 1; 7; 5; 11; 3; 14; 10; 0; 6; 13 ].

Definition _DES_SBOX_1 : list Z :=
  [ 15; 1; 8; 14; 6; 11; 3; 4; 9; 7; 2; 13; 12; 0; 5; 10;
    3; 13; 4; 7; 15; 2; 8; 14; 12; 0; 1; 10; 6; 9; 11; 5;
    0; 14; 7; 11; 10; 4; 13; 1; 5; 8; 12; 6; 9; 3; 2; 15;
    13; 8; 10; 1; 3; 15; 4; 2; 11; 6; 7; 12; 0; 5; 14; 9 ].

Definition _DES_SBOX_2 : list Z :=
  [ 10; 0; 9; 14; 6; 3; 15; 5; 1; 13; 12; 7; 11; 4; 2; 8;
    13; 7; 0; 9; 3; 4; 6; 10; 2; 8; 5; 14; 12; 11; 15; 1;
    13; 6; 4; 9; 8; 15; 3; 0; 11; 1; 2; 12; 5; 10; 14; 7;
    1; 10; 13; 0; 6; 9; 8; 7; 4; 15; 14; 3; 11; 5; 2; 12 ].

Definition _DES_SBOX_3 : list Z :=
  [ 7; 13; 14; 3; 0; 6; 9; 10; 1; 2; 8; 5; 11; 12; 4; 15;
    13; 8; 11; 5; 6; 15; 0; 3; 4; 7; 2; 12; 1; 10; 14; 9;
    10; 6; 9; 0; 12; 11; 7; 13; 15; 1; 3; 14; 5; 2; 8; 4;
    3; 15; 0; 6; 10; 1; 13; 8; 9; 4; 5; 11; 12; 7; 2; 14 ].

Definition _DES_SBOX_4 : list Z :=
  [ 2; 12; 4; 1; 7; 10; 11; 6; 8; 5; 3; 15; 13; 0; 14; 9;
    14; 11; 2; 12; 4; 7; 13; 1; 5; 0; 15; 10; 3; 9; 8; 6;
    4; 2; 1; 11; 10; 13; 7; 8; 15; 9; 12; 5; 6; 3; 0; 14;
    11; 8; 12; 7; 1; 14; 2; 13; 6; 15; 0; 9; 10; 4; 5; 3 ].

Definition _DES_SBOX_5 : list Z :=
  [ 12; 1; 10; 15; 9; 2; 6; 8; 0; 13; 3; 4; 14; 7; 5; 11;
    10; 15; 4; 2; 7; 12; 9; 5; 6; 1; 13; 14; 0; 11; 3; 8;
    9; 14; 15; 5; 2; 8; 12; 3; 7; 0; 4; 10; 1; 13; 11; 6;
    4; 3; 2; 12; 9; 5; 15; 10; 11; 14; 1; 7; 6; 0; 8; 13 ].

Definition _DES_SBOX_6 : list Z :=
  [ 4; 11; 2; 14; 15; 0; 8; 13; 3; 12; 9; 7; 5; 10; 6; 1;
    13; 0; 11; 7; 4; 9; 1; 10; 14; 3; 5; 12; 2; 15; 8; 6;
    1; 4; 11; 13; 12; 3; 7; 14; 10; 15; 6; 8; 0; 5; 9; 2;
    6; 11; 13; 8; 1; 4; 10; 7; 9; 5; 0; 15; 14; 2; 3; 12 ].

Definition _DES_SBOX_7 : list Z :=
  [ 13; 2; 8; 4; 6; 15; 11; 1; 10; 9; 3; 14; 5; 0; 12; 7;
    1; 15; 13; 8; 10; 3; 7; 4; 12; 5; 6; 11; 0; 14; 9; 2;
    7; 11; 4; 1; 9; 12; 14; 2; 0; 6; 10; 13; 15; 3; 5; 8;
    2; 1; 14; 7; 4; 10; 8; 13; 15; 12; 9; 0; 3; 5; 6; 11 ].

Definition _DES_SBOX : list (list Z) :=
  [ _DES_SBOX_0; _DES_SBOX_1; _DES_SBOX_2; _DES_SBOX_3; _DES_SBOX_4; _DES_SBOX_5; _DES_SBOX_6; _DES_SBOX_7 ].

(** [[bits[i - 1] for i in table]] *)
Definition _permute (bits : list Z) (table : list nat) : list Z :=
  (λ i, bits !!! (i - 1)%nat) <$> table.

(** [[(key[i >> 3] >> (7 - (i & 7))) & 1 for i in range(64)]] *)
Definition to_bits (key : bytes) : list Z :=
  (λ i, Z.land (Z.shiftr (key !!! (i / 8)%nat) (Z.of_nat (7 - i mod 8))) 1) <$> seq 0 64.

(** [c[s:] + c[:s]] *)
Definition rotate (s : nat) (c : list Z) : list Z := drop s c ++ take s c.

Fixpoint subkey_loop (c d : list Z) (shifts : list nat) : list (list Z) :=
  match shifts with
  | [] => []
  | s :: shifts =>
      let c := rotate s c in
      let d := rotate s d in
      _permute (c ++ d) _PC2 :: subkey_loop c d shifts
  end.

Definition _des_subkeys (key : bytes) : list (list Z) :=
  let cd := _permute (to_bits key) _PC1 in
  subkey_loop (take 28 cd) (drop 28 cd) _SHIFTS.

(** [[a ^ b for a, b in zip(x, y, strict=True)]] *)
Definition xor_bits (x y : list Z) : list Z := zip_with Z.lxor x y.

(** The S-box step of a round on the chunk [er[i*6 : i*6+6]]. *)
Definition sbox_bits (er : list Z) (i : nat) : list Z :=
  let chunk := slice (i * 6) (i * 6 + 6) er in
  let row := Z.lor (Z.shiftl (chunk !!! 0%nat) 1) (chunk !!! 5%nat) in
  let col := Z.lor (Z.lor (Z.lor (Z.shiftl (chunk !!! 1%nat) 3) (Z.shiftl (chunk !!! 2%nat) 2))
                          (Z.shiftl (chunk !!! 3%nat) 1)) (chunk !!! 4%nat) in
  let val := (_DES_SBOX !!! i) !!! Z.to_nat (row * 16 + col) in
  [Z.land (Z.shiftr val 3) 1; Z.land (Z.shiftr val 2) 1; Z.land (Z.shiftr val 1) 1; Z.land val 1].

(** The round function on the right half. *)
Definition round_f (right k : list Z) : list Z :=
  let er := xor_bits (_permute right _E) k in
  let out := concat (sbox_bits er <$> seq 0 8) in
  _permute out _P.

Definition des_round (lr : list Z * list Z) (k : list Z) : list Z * list Z :=
  (lr.2, xor_bits lr.1 (round_f lr.2 k)).

(** [bytes(sum(fin[i*8+j] << (7-j) for j in range(8)) for i in range(8))] *)
Definition from_bits (fin : list Z) : bytes :=
  (λ i, foldr Z.add 0 ((λ j, Z.shiftl (fin !!! (i * 8 + j)%nat) (Z.of_nat (7 - j))) <$> seq 0 8))
    <$> seq 0 8.

Definition _des_block (block : bytes) (subkeys : list (list Z)) : bytes :=
  let bits := _permute (to_bits block) _IP in
  let lr := foldl des_round (take 32 bits, drop 32 bits) subkeys in
  from_bits (_permute (lr.2 ++ lr.1) _FP).

Definition des_encrypt (block8 key8 : bytes) : result bytes :=
  _ ← raise_if (negb ((length block8 =? 8)%nat && (length key8 =? 8)%nat)) AssertionError;
  Ok (_des_block block8 (_des_subkeys key8)).

Definition DES_AUTH_KEY : bytes := [0xa3; 0x16; 0xa9; 0x9d; 0x48; 0x30; 0x38; 0x21].

(** The known answer of the module's self-test. *)
Example des_vector :
  des_encrypt [0x01; 0x23; 0x45; 0x67; 0x89; 0xab; 0xcd; 0xef]
              [0x13; 0x34; 0x57; 0x79; 0x9b; 0xbc; 0xdf; 0xf1] =
  Ok [0x85; 0xe8; 0x13; 0x54; 0x0f; 0x0a; 0xb4; 0x05].
Proof. vm_compute. reflexivity. Qed.

(** ** Bits *)

Definition bit (b : Z) : Prop := b = 0 ∨ b = 1.
Definition bits_ok (n : nat) (l : list Z) : Prop := length l = n ∧ Forall bit l.

Lemma land1_bit x : bit (Z.land x 1).
Proof.
  assert (Z.land x 1 = x mod 2) as E by exact (land_ones_mod 1 x ltac:(lia)).
  unfold bit. rewrite E. pose proof (Z.mod_pos_bound x 2 ltac:(lia)). lia.
Qed.

Lemma xor_bit a b : bit a → bit b → bit (Z.lxor a b).
Proof. intros [-> | ->] [-> | ->]; unfold bit; vm_compute; auto. Qed.

Lemma length_permute l t : length (_permute l t) = length t.
Proof. unfold _permute. apply length_fmap. Qed.

Lemma lookup_total_bit (l : list Z) i : Forall bit l → bit (l !!! i).
Proof.
  intros H. rewrite list_lookup_total_alt. destruct (l !! i) as [b|] eqn:E; simpl; [|by right].
  by apply (Forall_lookup_1 _ _ _ _ H E).
Qed.

Lemma permute_bits l t : Forall bit l → bits_ok (length t) (_permute l t).
Proof.
  intros H. split; [apply length_permute|]. apply Forall_fmap, Forall_true. intros i.
  by apply lookup_total_bit.
Qed.

Lemma xor_bits_ok n x y : bits_ok n x → bits_ok n y → bits_ok n (xor_bits x y).
Proof.
  intros [Lx Hx] [Ly Hy]. split; [unfold xor_bits; rewrite length_zip_with; lia|].
  apply Forall_lookup. intros i b. unfold xor_bits. rewrite lookup_zip_with.
  destruct (x !! i) eqn:Ex, (y !! i) eqn:Ey; simpl; try done. intros [= <-].
  apply xor_bit; [by apply (Forall_lookup_1 _ _ _ _ Hx Ex)|by apply (Forall_lookup_1 _ _ _ _ Hy Ey)].
Qed.

Lemma xor_bits_cancel x y : length x = length y → xor_bits (xor_bits x y) y = x.
Proof.
  unfold xor_bits. revert y. induction x as [|a x IH]; intros [|b y] H; simplify_eq/=; [done|].
  by rewrite lxor_cancel, IH.
Qed.

Lemma to_bits_ok l : bits_ok 64 (to_bits l).
Proof. split; [reflexivity|]. apply Forall_fmap, Forall_true. intros i. apply land1_bit. Qed.

(** Permutations compose by indexing one table with the other. *)
Lemma permute_permute l t u : (∀ i, i ∈ u → (1 ≤ i ≤ length t)%nat) →
  _permute (_permute l t) u = _permute l ((λ i, t !!! (i - 1)%nat) <$> u).
Proof.
  intros H. unfold _permute. rewrite <-list_fmap_compose. apply list_fmap_ext. intros k i Hi. simpl.
  assert (1 ≤ i ≤ length t)%nat as Hi' by (apply H; by eapply list_elem_of_lookup_2).
  destruct (lookup_lt_is_Some_2 t (i - 1) ltac:(lia)) as [j Hj].
  rewrite (list_lookup_total_correct t _ _ Hj). apply list_lookup_total_correct.
  by rewrite list_lookup_fmap, Hj.
Qed.

Lemma permute_id l : length l = 64%nat → _permute l (seq 1 64) = l.
Proof.
  intros H. apply list_eq. intros i. unfold _permute. rewrite list_lookup_fmap.
  destruct (decide (i < 64)%nat) as [Hi|Hi].
  - rewrite lookup_seq_lt by lia. simpl. rewrite Nat.sub_0_r.
    destruct (lookup_lt_is_Some_2 l i ltac:(lia)) as [b Hb]. rewrite Hb.
    by rewrite (list_lookup_total_correct _ _ _ Hb).
  - rewrite lookup_seq_ge by lia. simpl. symmetry. apply lookup_ge_None_2. lia.
Qed.

(** The final permutation undoes the initial one, and conversely. *)
Lemma IP_FP l : length l = 64%nat → _permute (_permute l _FP) _IP = l.
Proof.
  intros H. rewrite permute_permute.
  - replace ((λ i, _FP !!! (i - 1)%nat) <$> _IP) with (seq 1 64) by (vm_compute; reflexivity).
    by apply permute_id.
  - intros i Hi. apply list_elem_of_lookup in Hi as [k Hk]. revert k i Hk. apply Forall_lookup.
    apply (bool_decide_unpack _). vm_compute. exact I.
Qed.

Lemma FP_IP l : length l = 64%nat → _permute (_permute l _IP) _FP = l.
Proof.
  intros H. rewrite permute_permute.
  - replace ((λ i, _IP !!! (i - 1)%nat) <$> _FP) with (seq 1 64) by (vm_compute; reflexivity).
    by apply permute_id.
  - intros i Hi. apply list_elem_of_lookup in Hi as [k Hk]. revert k i Hk. apply Forall_lookup.
    apply (bool_decide_unpack _). vm_compute. exact I.
Qed.

(** ** Bytes and bits *)

Definition byte_bits (b : Z) : list Z := (λ j, Z.land (Z.shiftr b (Z.of_nat (7 - j))) 1) <$> seq 0 8.
Definition bits_byte (l : list Z) : Z :=
  foldr Z.add 0 ((λ j, Z.shiftl (l !!! j) (Z.of_nat (7 - j))) <$> seq 0 8).

Lemma bits_byte_bits b : 0 ≤ b < 256 → bits_byte (byte_bits b) = b.
Proof.
  intros H. assert (Forall (λ n, bits_byte (byte_bits (Z.of_nat n)) = Z.of_nat n) (seq 0 256)) as F
    by (apply (bool_decide_unpack _); vm_compute; exact I).
  assert (seq 0 256 !! Z.to_nat b = Some (0 + Z.to_nat b)%nat) as E by (apply lookup_seq_lt; lia).
  pose proof (Forall_lookup_1 _ _ _ _ F E) as Hb. simpl in Hb. by rewrite Z2Nat.id in Hb by lia.
Qed.

Lemma to_bits_concat l : length l = 8%nat → to_bits l = concat (byte_bits <$> l).
Proof. intros H. do 9 (destruct l as [|? l]; try discriminate H). reflexivity. Qed.

Lemma from_bits_concat (l : bytes) : length l = 8%nat →
  from_bits (concat (byte_bits <$> l)) = (bits_byte ∘ byte_bits) <$> l.
Proof. intros H. do 9 (destruct l as [|? l]; try discriminate H). reflexivity. Qed.

Lemma from_to_bits l : bytes_ok l → length l = 8%nat → from_bits (to_bits l) = l.
Proof.
  intros Hl H. rewrite to_bits_concat, from_bits_concat by done.
  rewrite (list_fmap_ext _ id), list_fmap_id; [done|]. intros i b Hb. simpl.
  apply bits_byte_bits. by apply (Forall_lookup_1 _ _ _ _ Hl Hb).
Qed.

Lemma byte_bits_byte l : bits_ok 8 l → byte_bits (bits_byte l) = l.
Proof.
  intros [H F]. do 9 (destruct l as [|? l]; try discriminate H).
  repeat match goal with F : Forall bit (_ :: _) |- _ =>
    let B := fresh in apply Forall_cons_iff in F as [B F]; destruct B as [-> | ->] end; reflexivity.
Qed.

Definition chunks (l : list Z) : list (list Z) := (λ i, slice (i * 8) (i * 8 + 8) l) <$> seq 0 8.

Lemma chunks_concat l : length l = 64%nat → concat (chunks l) = l ∧ from_bits l = bits_byte <$> chunks l.
Proof. intros H. do 65 (destruct l as [|? l]; try discriminate H). split; reflexivity. Qed.

Lemma chunks_ok l : bits_ok 64 l → Forall (bits_ok 8) (chunks l).
Proof.
  intros [H F]. apply Forall_fmap, Forall_seq. intros i Hi. simpl. split; [len_solve|].
  by apply Forall_take, Forall_drop.
Qed.

Lemma to_from_bits l : bits_ok 64 l → to_bits (from_bits l) = l ∧ bytes_ok (from_bits l) ∧ length (from_bits l) = 8%nat.
Proof.
  intros Hl. destruct (chunks_concat l (proj1 Hl)) as [E1 E2]. pose proof (chunks_ok l Hl) as F.
  rewrite E2. split_and!; [|apply Forall_fmap|done].
  - rewrite to_bits_concat by done. rewrite <-list_fmap_compose, (list_fmap_ext _ id), list_fmap_id; [done|].
    intros i b Hb. simpl. apply byte_bits_byte. by apply (Forall_lookup_1 _ _ _ _ F Hb).
  - eapply list.Forall_impl; [exact F|]. intros b Hb. simpl. destruct Hb as [H Fb].
    do 9 (destruct b as [|? b]; try discriminate H). unfold bits_byte. simpl.
    repeat match goal with F : Forall bit (_ :: _) |- _ =>
      let B := fresh in apply Forall_cons_iff in F as [B F]; destruct B as [-> | ->] end; vm_compute; intuition done.
Qed.

(** ** Rounds *)

Lemma round_f_ok right k : Forall bit right → Forall bit k → bits_ok 32 (round_f right k).
Proof.
  intros Hr Hk. unfold round_f. apply (permute_bits _ _P). apply Forall_concat, Forall_fmap, Forall_true.
  intros i. unfold sbox_bits. simpl. repeat (apply Forall_cons_iff; split; [apply land1_bit|]). by apply Forall_nil.
Qed.

Definition halves_ok (lr : list Z * list Z) : Prop := bits_ok 32 lr.1 ∧ bits_ok 32 lr.2.

Definition swap_halves (lr : list Z * list Z) : list Z * list Z := (lr.2, lr.1).

(** A round on swapped halves undoes the round. *)
Lemma des_round_inv lr k : Forall bit k → halves_ok lr →
  halves_ok (des_round lr k) ∧ des_round (swap_halves (des_round lr k)) k = swap_halves lr.
Proof.
  destruct lr as [l r]. intros Hk [Hl Hr]. simpl in Hl, Hr.
  pose proof (round_f_ok r k (proj2 Hr) Hk) as Hf. split.
  - split; [done|]. by apply xor_bits_ok.
  - unfold des_round, swap_halves. simpl. rewrite xor_bits_cancel; [done|].
    destruct Hl as [-> _], Hf as [-> _]. done.
Qed.

Lemma des_rounds_inv ks lr : Forall (Forall bit) ks → halves_ok lr →
  halves_ok (foldl des_round lr ks) ∧
  foldl des_round (swap_halves (foldl des_round lr ks)) (rev ks) = swap_halves lr.
Proof.
  intros Hks. revert lr. induction Hks as [|k ks Hk Hks IH]; intros lr Hlr; [done|].
  simpl. destruct (des_round_inv lr k Hk Hlr) as [H1 H2]. destruct (IH _ H1) as [H3 H4].
  split; [done|]. rewrite foldl_app. rewrite H4. simpl. exact H2.
Qed.

Lemma subkeys_bits c d shifts : Forall bit c → Forall bit d → Forall (Forall bit) (subkey_loop c d shifts).
Proof.
  revert c d. induction shifts as [|s shifts IH]; intros c d Hc Hd; cbn [subkey_loop]; [constructor|].
  assert (Forall bit (rotate s c)) by (apply Forall_app; split; [by apply Forall_drop|by apply Forall_take]).
  assert (Forall bit (rotate s d)) by (apply Forall_app; split; [by apply Forall_drop|by apply Forall_take]).
  constructor; [|by apply IH]. apply (permute_bits _ _PC2). by apply Forall_app.
Qed.

Lemma des_subkeys_bits key : Forall (Forall bit) (_des_subkeys key) ∧ length (_des_subkeys key) = 16%nat.
Proof.
  split; [|reflexivity]. destruct (permute_bits _ _PC1 (proj2 (to_bits_ok key))) as [_ F].
  apply subkeys_bits; [by apply Forall_take|by apply Forall_drop].
Qed.

Lemma split_halves_ok bits : bits_ok 64 bits → halves_ok (take 32 bits, drop 32 bits).
Proof.
  intros [L F]. split; split; cbn [fst snd]; try len_solve; [by apply Forall_take|by apply Forall_drop].
Qed.

Lemma des_block_inverse block ks : bytes_ok block → length block = 8%nat → Forall (Forall bit) ks →
  let e := _des_block block ks in
  bytes_ok e ∧ length e = 8%nat ∧ _des_block e (rev ks) = block.
Proof.
  intros Hb Hl Hks e. unfold e, _des_block.
  assert (bits_ok 64 (_permute (to_bits block) _IP)) as Hbits
    by (apply (permute_bits _ _IP), to_bits_ok).
  remember (_permute (to_bits block) _IP) as bits eqn:Ebits.
  pose proof (split_halves_ok bits Hbits) as H0. set (lr0 := (take 32 bits, drop 32 bits)) in *.
  destruct (des_rounds_inv ks lr0 Hks H0) as [[[L1 F1] [L2 F2]] Hinv].
  set (lr := foldl des_round lr0 ks) in *.
  assert (bits_ok 64 (lr.2 ++ lr.1)) as Hx by (split; [len_solve|by apply Forall_app]).
  assert (bits_ok 64 (_permute (lr.2 ++ lr.1) _FP)) as Hy by (apply (permute_bits _ _FP), Hx).
  destruct (to_from_bits _ Hy) as (E & B & Le). split_and!; [done..|].
  rewrite E, IP_FP by apply Hx. rewrite take_app_length', drop_app_length' by lia.
  change (lr.2, lr.1) with (swap_halves lr). rewrite Hinv. unfold swap_halves, lr0. cbn [fst snd].
  rewrite take_drop, Ebits. rewrite FP_IP by apply to_bits_ok. by apply from_to_bits.
Qed.

Lemma des_encrypt_ok block key : length block = 8%nat → length key = 8%nat →
  des_encrypt block key = Ok (_des_block block (_des_subkeys key)).
Proof. intros Hl Hk. unfold des_encrypt. by rewrite raise_if_false by (by rewrite Hl, Hk). Qed.

(** ** Properties *)

(** C40: [des_encrypt] is a permutation of the eight-byte blocks under every
    eight-byte key: it returns eight bytes, from which the same rounds with
    the subkeys reversed recover the block; so two challenges with the same
    token are equal. *)
Theorem des_encrypt_permutation block key :
  bytes_ok block → length block = 8%nat → length key = 8%nat →
  ∃ e, des_encrypt block key = Ok e ∧ bytes_ok e ∧ length e = 8%nat ∧
    _des_block e (rev (_des_subkeys key)) = block ∧
    ∀ block', bytes_ok block' → length block' = 8%nat → des_encrypt block' key = Ok e → block' = block.
Proof.
  intros Hb Hl Hk. rewrite des_encrypt_ok by done. eexists. split; [done|].
  destruct (des_block_inverse block (_des_subkeys key) Hb Hl (proj1 (des_subkeys_bits key))) as (H1 & H2 & H3).
  split_and!; [done..|]. intros block' Hb' Hl' E. rewrite des_encrypt_ok in E by done. apply (inj Ok) in E.
  destruct (des_block_inverse block' (_des_subkeys key) Hb' Hl' (proj1 (des_subkeys_bits key))) as (_ & _ & H4).
  rewrite <-H4, <-H3. by rewrite E.
Qed.

Lemma des_encrypt_permutation_witness :
  let block := [1; 2; 3; 4; 5; 6; 7; 8] in
  ∃ e, des_encrypt block DES_AUTH_KEY = Ok e ∧ bytes_ok e ∧ length e = 8%nat ∧
    _des_block e (rev (_des_subkeys DES_AUTH_KEY)) = block ∧
    ∀ block', bytes_ok block' → length block' = 8%nat → des_encrypt block' DES_AUTH_KEY = Ok e → block' = block.
Proof.
  intros block. apply (des_encrypt_permutation block DES_AUTH_KEY).
  - bytes_concrete.
  - reflexivity.
  - reflexivity.
Defined.

End Des.
