(* ===== verification/QuickLz.v ===== *)
(** * The QuickLZ level-2 decoder of the resource service

    Models [src/backend/app/drivers/yoosee/p2p/quicklz.py]: block header
    parsing, the rolling hash table and the decoding loop, with every list and
    buffer access bounds-checked as Python checks it.  The loop is run with
    fuel; each iteration appends at least one byte, so the advertised output
    length is enough fuel.  The theorems show that the decoder always
    terminates, touches no index out of range, returns exactly the advertised
    number of bytes, and that its output is the expansion of literals of the
    block and of copies of earlier output. *)

From Stdlib Require Import ZArith Lia.
From S2P Require Import Prelude.

Module QuickLz.

Definition _HASH_VALUES : Z := 2048.
Definition _HASH_SLOTS : Z := 4.
Definition _MAX_OUTPUT : Z := 0x7FFF.

(** [_block_sizes]: header length, compressed length, output length. *)
Definition _block_sizes (source : bytes) : result (nat * Z * Z) :=
  _ ← raise_if (length source <? 3)%nat (ValueError "QuickLZ block is truncated");
  b0 ← index source 0;
  let header_length := if negb (Z.land b0 2 =? 0) then 9%nat else 3%nat in
  _ ← raise_if (length source <? header_length)%nat (ValueError "QuickLZ header is truncated");
  '(compressed_length, output_length) ←
    (if (header_length =? 9)%nat
     then c ← unpack_from 4 source 1; o ← unpack_from 4 source 5; Ok (c, o)
     else c ← index source 1; o ← index source 2; Ok (c, o));
  _ ← raise_if (negb (compressed_length =? len source))
        (ValueError "QuickLZ compressed length does not match the block");
  _ ← raise_if (negb ((0 <? output_length) && (output_length <=? _MAX_OUTPUT)))
        (ValueError "QuickLZ output length is outside the resource-service limit");
  Ok (header_length, compressed_length, output_length).

Definition _hash_at (output : bytes) (position : nat) : result Z :=
  a ← index output position; b ← index output (position + 1); c ← index output (position + 2);
  let value := Z.lor (Z.lor a (Z.shiftl b 8)) (Z.shiftl c 16) in
  Ok (Z.land (Z.lxor (Z.lxor (Z.shiftr value 9) (Z.shiftr value 13)) value) (_HASH_VALUES - 1)).

(** The local variables of the decoding loop. *)
Record state := mkState {
  cursor : nat;
  control : Z;
  output : bytes;
  hash_positions : list (list (option nat));
  hash_counts : list Z;
  last_hashed : Z
}.

(** The body of the [while] of [update_hashes]. *)
Definition hash_step (s : state) (_ : nat) : result state :=
  let last := last_hashed s + 1 in
  hashed ← _hash_at (output s) (Z.to_nat last);
  count ← list_get (hash_counts s) (Z.to_nat hashed);
  slots ← list_get (hash_positions s) (Z.to_nat hashed);
  slots' ← list_put slots (Z.to_nat (Z.land count (_HASH_SLOTS - 1))) (Some (Z.to_nat last));
  positions ← list_put (hash_positions s) (Z.to_nat hashed) slots';
  counts ← list_put (hash_counts s) (Z.to_nat hashed) (Z.land (count + 1) 0xFF);
  Ok (mkState (cursor s) (control s) (output s) positions counts last).

(** [update_hashes(through)]: the loop runs [through - last_hashed] times. *)
Definition update_hashes (s : state) (through : Z) : result state :=
  _ ← raise_if (len (output s) - 2 <=? through) (ValueError "QuickLZ hash update exceeds available output");
  foldM hash_step s (seq 0 (Z.to_nat (through - last_hashed s))).

(** [for offset in range(match_length): output.append(output[reference + offset])] *)
Definition copy_match (out : bytes) (reference match_length : nat) : result bytes :=
  foldM (λ out offset, b ← index out (reference + offset); Ok (out ++ [b])) out (seq 0 match_length).

Definition set_output (s : state) (out : bytes) : state :=
  mkState (cursor s) (control s) out (hash_positions s) (hash_counts s) (last_hashed s).
Definition set_last (s : state) (l : Z) : state :=
  mkState (cursor s) (control s) (output s) (hash_positions s) (hash_counts s) l.
Definition set_cursor (s : state) (c : nat) : state :=
  mkState c (control s) (output s) (hash_positions s) (hash_counts s) (last_hashed s).
Definition set_control (s : state) (c : Z) : state :=
  mkState (cursor s) c (output s) (hash_positions s) (hash_counts s) (last_hashed s).

(** [if control == 1: ...], reading the next control word. *)
Definition read_control (source : bytes) (s : state) : result state :=
  if control s =? 1 then
    _ ← raise_if (length source <? cursor s + 4)%nat (ValueError "QuickLZ control word is truncated");
    c ← unpack_from 4 source (cursor s);
    _ ← raise_if (Z.land c 0x80000000 =? 0) (ValueError "QuickLZ control word has no sentinel");
    Ok (set_control (set_cursor s (cursor s + 4)) c)
  else Ok s.

(** The branch [if control & 1]: a back reference. *)
Definition reference_step (source : bytes) (output_length : Z) (s : state) : result state :=
  _ ← raise_if (length source <? cursor s + 2)%nat (ValueError "QuickLZ reference is truncated");
  token ← unpack_from 2 source (cursor s);
  let slot := Z.land token 3 in
  let hashed := Z.land (Z.shiftr token 5) (_HASH_VALUES - 1) in
  let encoded_length := Z.land (Z.shiftr token 2) 7 in
  '(match_length, cursor') ←
    (if negb (encoded_length =? 0) then Ok (encoded_length + 2, (cursor s + 2)%nat)
     else
       _ ← raise_if (length source <? cursor s + 3)%nat
             (ValueError "QuickLZ long reference is truncated");
       m ← index source (cursor s + 2);
       _ ← raise_if (m <? 3) (ValueError "QuickLZ long reference is too short");
       Ok (m, (cursor s + 3)%nat));
  let s := set_cursor s cursor' in
  slots ← list_get (hash_positions s) (Z.to_nat hashed);
  reference ← list_get slots (Z.to_nat slot);
  let match_start := length (output s) in
  match reference with
  | None => Raise (ValueError "QuickLZ reference points outside decoded history")
  | Some reference =>
      _ ← raise_if (match_start <=? reference)%nat
            (ValueError "QuickLZ reference points outside decoded history");
      _ ← raise_if (output_length <? Z.of_nat match_start + match_length)
            (ValueError "QuickLZ reference exceeds advertised output");
      out ← copy_match (output s) reference (Z.to_nat match_length);
      let s := set_output s out in
      s ← (if last_hashed s <? Z.of_nat match_start then update_hashes s (Z.of_nat match_start) else Ok s);
      Ok (set_last s (len (output s) - 1))
  end.

(** The branch [else]: a literal. *)
Definition literal_step (source : bytes) (s : state) : result state :=
  _ ← raise_if (length source <=? cursor s)%nat (ValueError "QuickLZ literal is truncated");
  b ← index source (cursor s);
  let s := set_cursor (set_output s (output s ++ [b])) (cursor s + 1) in
  let through := len (output s) - 3 in
  if last_hashed s <? through then update_hashes s through else Ok s.

(** One iteration of the decoding loop. *)
Definition step (source : bytes) (output_length : Z) (s : state) : result state :=
  s ← read_control source s;
  s ← (if negb (Z.land (control s) 1 =? 0) then reference_step source output_length s
       else literal_step source s);
  Ok (set_control s (Z.shiftr (control s) 1)).

Fixpoint loop (fuel : nat) (source : bytes) (output_length : Z) (s : state) : result state :=
  if len (output s) <? output_length then
    match fuel with
    | O => Raise OutOfFuel
    | S fuel => s ← step source output_length s; loop fuel source output_length s
    end
  else Ok s.

Definition initial (header_length : nat) : state :=
  mkState header_length 1 [] (replicate (Z.to_nat _HASH_VALUES) (replicate (Z.to_nat _HASH_SLOTS) None))
    (replicate (Z.to_nat _HASH_VALUES) 0) (-1).

Definition decompress_level2 (source : bytes) (expected_length : Z) : result bytes :=
  '(header_length, compressed_length, output_length) ← _block_sizes source;
  _ ← raise_if (negb (expected_length =? output_length))
        (ValueError "QuickLZ header length does not match the gute frame");
  flags ← index source 0;
  _ ← raise_if (negb (Z.land (Z.shiftr flags 2) 3 =? 2))
        (ValueError "QuickLZ block is not compression level 2");
  if Z.land flags 1 =? 0 then
    let payload := drop header_length source in
    _ ← raise_if (negb (len payload =? output_length))
          (ValueError "uncompressed QuickLZ payload length is invalid");
    Ok payload
  else
    s ← loop (Z.to_nat output_length) source output_length (initial header_length);
    let trailing := slice (cursor s) (Z.to_nat compressed_length) source in
    _ ← raise_if ((4 <? length trailing)%nat || existsb (λ b, negb (b =? 0)) trailing)
          (ValueError "QuickLZ block has trailing data");
    Ok (output s).

(** Four literals, a three-byte match of the first ones, one more literal. *)
Definition sample_block : bytes :=
  [75; 20; 0; 0; 0; 8; 0; 0; 0; 16; 0; 0; 128; 65; 66; 67; 68; 68; 63; 69].

Example decompress_sample : decompress_level2 sample_block 8 = Ok [65; 66; 67; 68; 65; 66; 67; 69].
Proof. vm_compute. reflexivity. Qed.

(** ** Expansion of literals and copies *)

(** A copy of [n] bytes from position [p], byte by byte: it may overlap the
    bytes it produces. *)
Fixpoint lz_copy (n p : nat) (out : bytes) : bytes :=
  match n with
  | O => out
  | S n => lz_copy n (S p) (out ++ [out !!! p])
  end.

(** The outputs that literals of [src] and copies of earlier output build. *)
Inductive lz (src : bytes) : bytes → Prop :=
| lz_nil : lz src []
| lz_literal out b : lz src out → b ∈ src → lz src (out ++ [b])
| lz_match out p n : lz src out → (p < length out)%nat → (3 ≤ n ≤ 255)%nat → lz src (lz_copy n p out).

Lemma length_lz_copy n p out : length (lz_copy n p out) = (length out + n)%nat.
Proof. revert p out. induction n as [|n IH]; intros p out; simpl; [lia|]. rewrite IH. len_solve. Qed.

Lemma bytes_ok_lz_copy n p out : (p < length out)%nat → bytes_ok out → bytes_ok (lz_copy n p out).
Proof.
  revert p out. induction n as [|n IH]; intros p out Hp Ho; simpl; [done|].
  apply IH; [len_solve|]. apply bytes_ok_app. split; [done|].
  destruct (lookup_lt_is_Some_2 out p Hp) as [b Hb]. rewrite (list_lookup_total_correct _ _ _ Hb).
  apply Forall_cons_iff. split; [by apply (Forall_lookup_1 _ _ _ _ Ho Hb)|by apply Forall_nil].
Qed.

Lemma copy_match_lz out p n : (p < length out)%nat → copy_match out p n = Ok (lz_copy n p out).
Proof.
  unfold copy_match. intros Hp.
  enough (∀ m k out, (p + k < length out)%nat →
    foldM (λ out offset, b ← index out (p + offset); Ok (out ++ [b])) out (seq k m) = Ok (lz_copy m (p + k) out))
    as H by (rewrite H by lia; by rewrite Nat.add_0_r).
  clear. intros m. induction m as [|m IH]; intros k out Hk; [done|].
  cbn [seq foldM lz_copy]. rewrite index_ok by done. bind_simpl.
  rewrite IH by len_solve. by rewrite Nat.add_succ_r.
Qed.

Lemma lz_suffix src n : lz src (drop n src).
Proof.
  assert (∀ l, (∀ b, b ∈ l → b ∈ src) → lz src l) as H.
  { intros l. induction l as [|b l IH] using rev_ind; intros Hl; [constructor|].
    apply lz_literal; [apply IH|apply Hl]; set_solver. }
  apply H. intros b Hb. rewrite <-(take_drop n src). set_solver.
Qed.

(** ** The loop invariant *)

Record wf (src : bytes) (s : state) : Prop := {
  wf_cursor : (cursor s ≤ length src)%nat;
  wf_positions : length (hash_positions s) = 2048%nat;
  wf_slots : Forall (λ l, length l = 4%nat) (hash_positions s);
  wf_counts : length (hash_counts s) = 2048%nat;
  wf_last : -1 ≤ last_hashed s ≤ len (output s) - 1;
  wf_output : bytes_ok (output s);
  wf_lz : lz src (output s)
}.

(** What an update of the hash table leaves alone. *)
Definition same_output (s s' : state) : Prop :=
  output s' = output s ∧ cursor s' = cursor s ∧ control s' = control s.

Lemma hash_index_bound x : (Z.to_nat (Z.land x (_HASH_VALUES - 1)) < 2048)%nat.
Proof. pose proof (land_small_bound x 11). change (_HASH_VALUES - 1) with (2 ^ 11 - 1). lia. Qed.

Lemma slot_bound x : (Z.to_nat (Z.land x 3) < 4)%nat.
Proof. pose proof (land_small_bound x 2). change 3 with (2 ^ 2 - 1). lia. Qed.

Lemma hash_at_ok out p : (p + 2 < length out)%nat →
  ∃ h, _hash_at out p = Ok h ∧ (Z.to_nat h < 2048)%nat.
Proof.
  intros Hp. unfold _hash_at. rewrite !index_ok by lia. bind_simpl. eexists. split; [done|].
  apply hash_index_bound.
Qed.

Lemma hash_step_ok src s i : wf src s → last_hashed s + 3 < len (output s) →
  ∃ s', hash_step s i = Ok s' ∧ wf src s' ∧ same_output s s' ∧ last_hashed s' = last_hashed s + 1.
Proof.
  intros [Hc Hp Hs Hn Hl Ho Hz] Hlt. unfold len in *.
  destruct (hash_at_ok (output s) (Z.to_nat (last_hashed s + 1))) as (h & Eh & Hh); [lia|].
  destruct (list_get_ok (hash_counts s) (Z.to_nat h)) as (count & Ec & _); [lia|].
  destruct (list_get_ok (hash_positions s) (Z.to_nat h)) as (slots & Es & Hlk); [lia|].
  pose proof (Forall_lookup_1 _ _ _ _ Hs Hlk) as Hslots. simpl in Hslots.
  unfold hash_step. rewrite Eh. bind_simpl. rewrite Ec, Es. bind_simpl.
  rewrite (list_put_ok slots) by (rewrite Hslots; apply slot_bound). bind_simpl.
  rewrite (list_put_ok (hash_positions s)), (list_put_ok (hash_counts s)) by lia. bind_simpl.
  eexists. split; [done|]. split; [|done].
  constructor; simpl; try done; try len_solve.
  apply Forall_insert; [done|]. by rewrite length_insert.
Qed.

Lemma update_hashes_ok src s through : wf src s → last_hashed s ≤ through →
  value_or (λ s', wf src s' ∧ same_output s s' ∧ last_hashed s' = through) (update_hashes s through).
Proof.
  intros Hwf Hle. unfold update_hashes. apply value_or_raise_if. intros Hlt. apply Z.leb_gt in Hlt.
  enough (∀ n k s0, wf src s0 → same_output s s0 → last_hashed s0 + Z.of_nat n = through →
    value_or (λ s', wf src s' ∧ same_output s s' ∧ last_hashed s' = through) (foldM hash_step s0 (seq k n))) as H.
  { apply H; [done|done|]. pose proof (wf_last _ _ Hwf). lia. }
  intros n. induction n as [|n IH]; intros k s0 H0 Hsame Hn; [simpl; split_and!; try done; lia|].
  cbn [seq foldM]. destruct (hash_step_ok src s0 k H0) as (s' & -> & Hw & Hso & Hlast).
  { destruct Hsame as [-> _]. lia. }
  bind_simpl. apply IH; [done| |lia].
  destruct Hsame as (? & ? & ?), Hso as (? & ? & ?). split_and!; congruence.
Qed.

Lemma wf_set_control src s c : wf src s → wf src (set_control s c).
Proof. intros []. by constructor. Qed.

Lemma read_control_ok src s : wf src s →
  value_or (λ s', wf src s' ∧ output s' = output s) (read_control src s).
Proof.
  intros Hwf. unfold read_control. destruct (control s =? 1); [|done].
  apply value_or_raise_if. intros H%Nat.ltb_ge. rewrite unpack_from_ok by lia. bind_simpl.
  apply value_or_raise_if. intros _. simpl. split; [|done]. destruct Hwf. by constructor.
Qed.

Lemma literal_step_ok src s : bytes_ok src → wf src s →
  value_or (λ s', wf src s' ∧ length (output s') = S (length (output s))) (literal_step src s).
Proof.
  intros Hb Hwf. unfold literal_step. apply value_or_raise_if. intros H%Nat.leb_gt.
  rewrite index_ok by done. bind_simpl. cbv zeta.
  set (s1 := set_cursor _ _). set (b := src !!! cursor s) in *.
  destruct (lookup_lt_is_Some_2 src (cursor s) H) as [b' Hb'].
  assert (b = b') as Eb by (by apply list_lookup_total_correct). rewrite <-Eb in Hb'.
  assert (wf src s1) as Hwf1.
  { destruct Hwf as [Hc Hp Hs Hn Hl Ho Hz]. constructor; simpl; try done; try len_solve.
    - apply bytes_ok_app. split; [done|]. apply Forall_cons_iff.
      split; [by apply (Forall_lookup_1 _ _ _ _ Hb Hb')|by apply Forall_nil].
    - apply lz_literal; [done|]. by eapply list_elem_of_lookup_2. }
  assert (length (output s1) = S (length (output s))) as Hlen by (simpl; len_solve).
  destruct (_ <? _) eqn:E; [|done].
  eapply value_or_impl; [apply (update_hashes_ok src); [done|lia]|].
  intros s' (? & (-> & _) & _). done.
Qed.

(** The match length and cursor of a back reference. *)
Definition reference_token (source : bytes) (s : state) (encoded_length : Z) : result (Z * nat) :=
  if negb (encoded_length =? 0) then Ok (encoded_length + 2, (cursor s + 2)%nat)
  else
    _ ← raise_if (length source <? cursor s + 3)%nat (ValueError "QuickLZ long reference is truncated");
    m ← index source (cursor s + 2);
    _ ← raise_if (m <? 3) (ValueError "QuickLZ long reference is too short");
    Ok (m, (cursor s + 3)%nat).

Lemma reference_token_ok src s x : bytes_ok src → (cursor s + 2 ≤ length src)%nat →
  value_or (λ mc, 3 ≤ mc.1 ≤ 255 ∧ (mc.2 ≤ length src)%nat) (reference_token src s (Z.land x 7)).
Proof.
  intros Hb Hc. unfold reference_token. pose proof (land_small_bound x 3 ltac:(lia)) as Hx.
  change (2 ^ 3 - 1) with 7 in Hx.
  destruct (Z.eqb_spec (Z.land x 7) 0); simpl; [|lia].
  apply value_or_raise_if. intros H%Nat.ltb_ge.
  destruct (lookup_lt_is_Some_2 src (cursor s + 2)) as [b Eb]; [lia|].
  unfold index. rewrite Eb. bind_simpl. pose proof (Forall_lookup_1 _ _ _ _ Hb Eb) as Hb'. simpl in Hb'.
  apply value_or_raise_if. intros Hm. simpl. lia.
Qed.

(** The copy of a match and the hash update after it. *)
Lemma match_ok src N s reference m : wf src s → (reference < length (output s))%nat → 3 ≤ m ≤ 255 →
  len (output s) + m ≤ N →
  value_or (λ s', wf src s' ∧ len (output s') = len (output s) + m)
    (out ← copy_match (output s) reference (Z.to_nat m);
     s2 ← (if last_hashed (set_output s out) <? len (output s)
           then update_hashes (set_output s out) (len (output s)) else Ok (set_output s out));
     Ok (set_last s2 (len (output s2) - 1))).
Proof.
  intros Hwf Hr Hm HN. rewrite copy_match_lz by done. bind_simpl.
  set (s1 := set_output s _).
  pose proof (length_lz_copy (Z.to_nat m) reference (output s)) as Hlen.
  assert (wf src s1) as Hwf1.
  { destruct Hwf as [Hc Hp Hs Hn Hl Ho Hz]. constructor; simpl; try done.
    - unfold len in *. lia.
    - by apply bytes_ok_lz_copy.
    - apply lz_match; [done..|lia]. }
  assert (∀ s2, wf src s2 → output s2 = output s1 →
    wf src (set_last s2 (len (output s2) - 1)) ∧ len (output s2) = len (output s) + m) as Hfin.
  { intros s2 [] E. rewrite E. unfold s1. simpl. split; [|unfold len in *; lia].
    constructor; simpl; try done; [|by rewrite E..]. rewrite E. unfold s1, len. simpl. lia. }
  destruct (_ <? _) eqn:E.
  - eapply value_or_bind; [apply (update_hashes_ok src); [done|simpl in *; lia]|].
    intros s2 (H2 & (Eo & _) & _) _. simpl. by apply Hfin.
  - bind_simpl. simpl. by apply Hfin.
Qed.

Lemma reference_step_ok src N s : bytes_ok src → wf src s →
  value_or (λ s', wf src s' ∧ len (output s) < len (output s') ≤ N) (reference_step src N s).
Proof.
  intros Hb Hwf. unfold reference_step. apply value_or_raise_if. intros H%Nat.ltb_ge.
  rewrite unpack_from_ok by lia. bind_simpl. set (token := undigits 256 _). cbv zeta.
  eapply value_or_bind; [apply (reference_token_ok src s (Z.shiftr token 2) Hb); lia|].
  intros [m c'] [Hm Hc'] _. cbn [fst snd] in Hm, Hc'.
  set (s0 := set_cursor s c'). assert (wf src s0) as Hwf0 by (destruct Hwf; by constructor).
  destruct (list_get_ok (hash_positions s0) (Z.to_nat (Z.land (Z.shiftr token 5) (_HASH_VALUES - 1))))
    as (slots & -> & Hs); [rewrite (wf_positions _ _ Hwf0); apply hash_index_bound|]. bind_simpl.
  pose proof (Forall_lookup_1 _ _ _ _ (wf_slots _ _ Hwf0) Hs) as Hslots. simpl in Hslots.
  destruct (list_get_ok slots (Z.to_nat (Z.land token 3))) as (ref & -> & _);
    [rewrite Hslots; apply slot_bound|]. bind_simpl.
  destruct ref as [ref|]; [|done].
  apply value_or_raise_if. intros Hr%Nat.leb_gt. apply value_or_raise_if. intros HN%Z.ltb_ge.
  eapply value_or_impl; [apply (match_ok src N s0 ref m); try done|].
  intros s' [Hw Hl]. split; [done|]. change (output s0) with (output s) in *.
  unfold len in *. simpl in HN. lia.
Qed.

Lemma step_ok src N s : bytes_ok src → wf src s → len (output s) < N →
  value_or (λ s', wf src s' ∧ len (output s) < len (output s') ≤ N) (step src N s).
Proof.
  intros Hb Hwf HN. unfold step. eapply value_or_bind; [by apply read_control_ok|].
  intros s1 [Hw1 E] _. rewrite <-E in HN |- *.
  eapply (value_or_bind (λ s', wf src s' ∧ len (output s1) < len (output s') ≤ N)).
  - destruct (negb _); [by apply reference_step_ok|].
    eapply value_or_impl; [by apply literal_step_ok|]. intros s2 [? Hl]. split; [done|].
    unfold len in *. lia.
  - intros s2 [? ?] _. simpl. split; [by apply wf_set_control|done].
Qed.

Lemma loop_ok src N fuel s : bytes_ok src → wf src s → len (output s) ≤ N →
  N - len (output s) ≤ Z.of_nat fuel →
  value_or (λ s', wf src s' ∧ len (output s') = N) (loop fuel src N s).
Proof.
  intros Hb. revert s. induction fuel as [|fuel IH]; intros s Hwf HN Hf; simpl;
    (destruct (Z.ltb_spec (len (output s)) N); [|simpl; split; [done|lia]]); [lia|].
  eapply value_or_bind; [by apply step_ok|]. intros s' [? ?] _. apply IH; [done|lia..].
Qed.

Lemma initial_wf src h : (h ≤ length src)%nat → wf src (initial h).
Proof.
  intros Hh. constructor; cbn [initial cursor hash_positions hash_counts last_hashed output];
    [done|apply length_replicate|apply Forall_replicate, length_replicate|apply length_replicate
    |done|constructor|constructor].
Qed.

Lemma block_sizes_ok src : bytes_ok src →
  value_or (λ '(h, c, o), (h ≤ length src)%nat ∧ c = len src ∧ 0 < o ≤ _MAX_OUTPUT) (_block_sizes src).
Proof.
  intros Hb. unfold _block_sizes. apply value_or_raise_if. intros H3%Nat.ltb_ge.
  rewrite (index_ok _ 0) by lia. bind_simpl. cbv zeta.
  match goal with |- context [if ?b then 9%nat else 3%nat] => set (h := if b then 9%nat else 3%nat) end.
  apply value_or_raise_if. intros Hh%Nat.ltb_ge.
  eapply (value_or_bind (λ _, True)).
  - destruct (Nat.eqb_spec h 9); [rewrite !unpack_from_ok by lia|rewrite !index_ok by lia]; done.
  - intros [c o] _ _. apply value_or_raise_if. intros Hc. apply value_or_raise_if. intros Ho. simpl. lia.
Qed.

(** ** Properties *)

(** C21: the decoder is safe on every block and every expected length: it
    terminates within its fuel, raises nothing but [ValueError] (no access
    outside a buffer or table), and what it returns has exactly the expected
    length, at most 32767 bytes, and is an expansion of literals of the block
    and of copies of already decoded bytes. *)
Theorem decompress_safe source expected_length :
  bytes_ok source →
  value_or (λ out, len out = expected_length ∧ len out ≤ _MAX_OUTPUT ∧ bytes_ok out ∧ lz source out)
    (decompress_level2 source expected_length).
Proof.
  intros Hb. unfold decompress_level2. eapply value_or_bind; [by apply block_sizes_ok|].
  intros [[h c] o] (Hh & Hc & Ho) Hsz. apply value_or_raise_if. intros He.
  assert (0 < length source)%nat as H0.
  { destruct source; [by simpl in Hsz|simpl; lia]. }
  rewrite index_ok by done. bind_simpl. apply value_or_raise_if. intros _.
  destruct (Z.land _ 1 =? 0).
  - apply value_or_raise_if. intros Hp. simpl. split_and!; [lia|lia|auto with bytes|apply lz_suffix].
  - eapply value_or_bind; [apply loop_ok; [done|by apply initial_wf|cbn [output initial]; change (@len Z []) with 0; lia..]|].
    intros s [[Hcu ? ? ? ? Hob Hz] Hl] _. apply value_or_raise_if. intros _. simpl. split_and!; (done || lia).
Qed.

Lemma decompress_safe_witness :
  ∃ out, decompress_level2 sample_block 8 = Ok out ∧ len out = 8 ∧ lz sample_block out.
Proof.
  pose proof (decompress_safe sample_block 8 ltac:(bytes_concrete)) as H.
  exists [65; 66; 67; 68; 65; 66; 67; 69].
  assert (decompress_level2 sample_block 8 = Ok [65; 66; 67; 68; 65; 66; 67; 69]) as E by (vm_compute; reflexivity).
  rewrite E in H. destruct H as (Hl & _ & _ & Hz). split_and!; assumption.
Defined.

End QuickLz.
