(* ===== verification/MediaProtocol.v ===== *)
(** * MTP frames and KCP segments of the direct media route

    Models [src/backend/app/drivers/yoosee/p2p/media_protocol.py] and
    [kcp_window.py]: the checksummed [c0/xx] MTP frame, the KCP segments
    coalesced in a [c0/10] frame, the AV-session bodies and the media meter
    request and acknowledgement.  [time.monotonic() * 1000] is the argument
    [now_ms] of the builders that read it.  The segment loop runs with the frame
    length as fuel; a segment is at least 24 bytes long, so it is enough. *)

From Stdlib Require Import ZArith Lia.
From S2P Require Import Prelude.

Module MediaProtocol.

Definition MTP_PREFIX_SIZE : nat := 6.
Definition MTP_MAX_FRAME_SIZE : Z := 0x7FF.
Definition KCP_HEADER_size : nat := 24.
Definition KCP_PUSH : Z := 0x51.
Definition KCP_ACK : Z := 0x52.
Definition KCP_WASK : Z := 0x53.
Definition KCP_WINS : Z := 0x54.
Definition PLAYBACK_LINK_USER_DATA_SIZE : nat := 32.
Definition SD_PLAYBACK_CONNECTION_TYPE : Z := 2.

Record KcpSegment := mkSegment {
  conv : Z; command : Z; fragment : Z; window : Z; timestamp : Z;
  sequence : Z; unacknowledged : Z; body : bytes
}.

#[global] Instance KcpSegment_eq_dec : EqDecision KcpSegment.
Proof. solve_decision. Defined.

Record MediaMeter := mkMeter {
  kind : Z; link_id : Z; flags : Z; source_id : Z; destination_id : Z;
  m_sequence : Z; m_timestamp : Z; channel_type : Z; record_length : Z;
  role : Z; call_id : option Z
}.

Definition _rotate_left_16 (value shift : Z) : Z :=
  let shift := Z.land shift 15 in
  Z.land (Z.lor (Z.shiftl value shift) (Z.shiftr value (Z.land (16 - shift) 15))) 0xFFFF.

Definition mtp_frame_length (frame : bytes) : result Z :=
  _ ← raise_if (len frame <? 4) (ValueError "truncated MTP prefix");
  b2 ← index frame 2; b3 ← index frame 3;
  Ok (Z.lor (Z.land b2 0x07) (Z.shiftl b3 3)).

Definition checksum_step (frame : bytes) (checksum : Z) (index : nat) : result Z :=
  word ← unpack_from 2 frame (MTP_PREFIX_SIZE + index * 2);
  Ok (Z.lxor checksum (_rotate_left_16 word (Z.of_nat index))).

Definition mtp_checksum (frame : bytes) : result Z :=
  _ ← raise_if (len frame <? 30) (ValueError "MTP frame must contain 24 checksum bytes");
  checksum ← foldM (checksum_step frame) 0 (seq 0 12);
  Ok (Z.land checksum 0xFFFF).

Definition verify_mtp_frame (frame : bytes) : result bool :=
  if len frame <? 30 then Ok false else
  b0 ← index frame 0;
  if negb (b0 =? 0xC0) then Ok false else
  l ← mtp_frame_length frame;
  if negb (l =? len frame) then Ok false else
  length_word ← unpack_from 2 frame 2;
  stored ← unpack_from 2 frame 4;
  checksum ← mtp_checksum frame;
  Ok (stored =? Z.lxor checksum length_word).

Definition build_mtp_frame (subtype : Z) (payload : bytes) : result bytes :=
  _ ← raise_if (negb ((0 <=? subtype) && (subtype <=? 0xFF))) (ValueError "MTP subtype must fit in one byte");
  _ ← raise_if (len payload <? 24) (ValueError "MTP payload must contain at least 24 bytes");
  let total := (MTP_PREFIX_SIZE + length payload)%nat in
  _ ← raise_if (MTP_MAX_FRAME_SIZE <? Z.of_nat total) (ValueError "MTP frame exceeds the 11-bit length field");
  let frame := zeros total in
  frame ← set_byte frame 0 0xC0;
  frame ← set_byte frame 1 subtype;
  frame ← set_byte frame 2 (Z.land (Z.of_nat total) 0x07);
  frame ← set_byte frame 3 (Z.shiftr (Z.of_nat total) 3);
  let frame := slice_set MTP_PREFIX_SIZE (length frame) payload frame in
  c ← mtp_checksum frame;
  length_word ← unpack_from 2 frame 2;
  pack_into 2 frame 4 (Z.lxor c length_word).

(** [KCP_HEADER.unpack_from(frame, cursor)], format ["<IBBHIIII"]. *)
Definition kcp_header_unpack (frame : bytes) (cursor : nat) : result (Z * Z * Z * Z * Z * Z * Z * Z) :=
  c ← unpack_from 4 frame cursor; cmd ← unpack_from 1 frame (cursor + 4);
  frg ← unpack_from 1 frame (cursor + 5); wnd ← unpack_from 2 frame (cursor + 6);
  ts ← unpack_from 4 frame (cursor + 8); sn ← unpack_from 4 frame (cursor + 12);
  una ← unpack_from 4 frame (cursor + 16); l ← unpack_from 4 frame (cursor + 20);
  Ok (c, cmd, frg, wnd, ts, sn, una, l).

(** [KCP_HEADER.pack(...)]. *)
Definition kcp_header_pack (c cmd frg wnd ts sn una l : Z) : result bytes :=
  c ← pack 4 c; cmd ← pack 1 cmd; frg ← pack 1 frg; wnd ← pack 2 wnd;
  ts ← pack 4 ts; sn ← pack 4 sn; una ← pack 4 una; l ← pack 4 l;
  Ok (c ++ cmd ++ frg ++ wnd ++ ts ++ sn ++ una ++ l).

(** The [while] of [parse_kcp_segments]. *)
Fixpoint parse_loop (fuel : nat) (frame : bytes) (cursor : nat) (segments : list KcpSegment) :
    result (list KcpSegment) :=
  if (cursor <? length frame)%nat then
    match fuel with
    | O => Raise OutOfFuel
    | S fuel =>
        _ ← raise_if (length frame <? cursor + KCP_HEADER_size)%nat (ValueError "truncated KCP header");
        '(c, cmd, frg, wnd, ts, sn, una, l) ← kcp_header_unpack frame cursor;
        let e := Z.of_nat (cursor + KCP_HEADER_size) + l in
        _ ← raise_if (len frame <? e) (ValueError "truncated KCP payload");
        let s := mkSegment c cmd frg wnd ts sn una
                   (slice (cursor + KCP_HEADER_size) (Z.to_nat e) frame) in
        parse_loop fuel frame (Z.to_nat e) (segments ++ [s])
    end
  else Ok segments.

Definition parse_kcp_segments (frame : bytes) : result (list KcpSegment) :=
  v ← verify_mtp_frame frame;
  _ ← raise_if (negb v || negb (bool_decide (slice 0 2 frame = [0xC0; 0x10])))
        (ValueError "not a valid c0/10 MTP frame");
  segments ← parse_loop (length frame) frame MTP_PREFIX_SIZE [];
  _ ← raise_if (length segments =? 0)%nat (ValueError "empty KCP frame");
  Ok segments.

Definition build_kcp_push (now_ms conv sequence : Z) (body : bytes) (timestamp : option Z)
    (unacknowledged window : Z) : result bytes :=
  _ ← raise_if (negb ((0 <=? window) && (window <=? 0xFFFF))) (ValueError "invalid KCP receive window");
  let timestamp := match timestamp with Some t => t | None => Z.land now_ms 0xFFFFFFFF end in
  header ← kcp_header_pack (Z.land conv 0xFFFFFFFF) KCP_PUSH 0 window (Z.land timestamp 0xFFFFFFFF)
             (Z.land sequence 0xFFFFFFFF) (Z.land unacknowledged 0xFFFFFFFF) (len body);
  build_mtp_frame 0x10 (header ++ body).

Definition build_kcp_ack (conv sequence timestamp unacknowledged window : Z) : result bytes :=
  _ ← raise_if (negb ((0 <=? window) && (window <=? 0xFFFF))) (ValueError "invalid KCP receive window");
  segment ← kcp_header_pack (Z.land conv 0xFFFFFFFF) KCP_ACK 0 window (Z.land timestamp 0xFFFFFFFF)
             (Z.land sequence 0xFFFFFFFF) (Z.land unacknowledged 0xFFFFFFFF) 0;
  build_mtp_frame 0x10 segment.

(** [kcp_window.build_window_report] *)
Definition build_window_report (conv unacknowledged window : Z) : result bytes :=
  _ ← raise_if (existsb (λ '(value, maximum), negb ((0 <=? value) && (value <=? maximum)))
        [(conv, 0xFFFFFFFF); (unacknowledged, 0xFFFFFFFF); (window, 0xFFFF)])
        (ValueError "invalid KCP window report");
  segment ← kcp_header_pack conv KCP_WINS 0 window 0 0 unacknowledged 0;
  build_mtp_frame 0x10 segment.

(** The metadata choice at the head of [build_av_init]. *)
Definition av_metadata (request_user_data : option bytes) (connection_type : option Z) : result (Z * bytes) :=
  match request_user_data, connection_type with
  | None, None =>
      d ← pack_into 4 (zeros PLAYBACK_LINK_USER_DATA_SIZE) 0 1;
      d ← set_byte d 23 0x12;
      Ok (1, d)
  | Some d, Some t =>
      _ ← raise_if (negb (len d =? 32)) (ValueError "AV INIT request user data must be exactly 32 bytes");
      _ ← raise_if (negb ((t =? 1) || (t =? SD_PLAYBACK_CONNECTION_TYPE)))
            (ValueError "AV INIT connection type is unsupported");
      Ok (t, d)
  | _, _ => Raise (ValueError "AV INIT connection type and request user data must be provided together")
  end.

Definition build_av_init (call_id : Z) (request_user_data : option bytes) (connection_type : option Z) :
    result bytes :=
  '(effective_connection_type, effective_user_data) ← av_metadata request_user_data connection_type;
  let body := slice_set 0 4 [3; 2; 0x4C; 0] (zeros 76) in
  body ← pack_into 4 body 4 (Z.land call_id 0xFFFFFFFF);
  body ← pack_into 4 body 8 1;
  body ← pack_into 4 body 16 effective_connection_type;
  body ← pack_into 4 body 20 1;
  let body := slice_set 24 56 effective_user_data body in
  pack_into 4 body 64 9.

Definition build_av_control (call_id action : Z) : result bytes :=
  let body := slice_set 0 4 [3; 0; 0x4C; 0] (zeros 76) in
  body ← pack_into 4 body 4 (Z.land call_id 0xFFFFFFFF);
  body ← pack_into 4 body 8 (Z.land action 0xFFFFFFFF);
  pack_into 4 body 64 9.

Definition build_media_meter_request (now_ms access_id device_id link_id call_id sequence : Z)
    (timestamp : option Z) : result bytes :=
  let timestamp := match timestamp with Some t => t | None => Z.land now_ms 0xFFFFFFFF end in
  let inner := zeros 72 in
  inner ← set_byte inner 1 1;
  inner ← pack_into 2 inner 2 0x44;
  inner ← pack_into 4 inner 4 (Z.land link_id 0xFFFFFFFF);
  inner ← pack_into 4 inner 8 8;
  inner ← pack_into 8 inner 12 (Z.land access_id 0xFFFFFFFFFFFFFFFF);
  inner ← pack_into 8 inner 20 (Z.land device_id 0xFFFFFFFFFFFFFFFF);
  inner ← pack_into 4 inner 28 (Z.land sequence 0xFFFFFFFF);
  inner ← pack_into 4 inner 32 (Z.land timestamp 0xFFFFFFFF);
  inner ← pack_into 4 inner 48 4;
  inner ← pack_into 4 inner 52 (len inner);
  let inner := slice_set 64 68 [2; 1; 0; 0] inner in
  inner ← pack_into 4 inner 68 (Z.land call_id 0xFFFFFFFF);
  build_mtp_frame 0x90 inner.

Definition parse_media_meter (frame : bytes) : result (option MediaMeter) :=
  v ← verify_mtp_frame frame;
  if negb v || negb (bool_decide (slice 0 2 frame = [0xC0; 0x90])) then Ok None else
  let inner := drop MTP_PREFIX_SIZE frame in
  if negb ((len inner =? 68) || (len inner =? 72)) then Ok None else
  tag ← unpack_from 2 inner 2;
  if negb (tag =? 0x44) then Ok None else
  kind ← index inner 1;
  link_id ← unpack_from 4 inner 4;
  flags ← unpack_from 4 inner 8;
  source_id ← unpack_from 8 inner 12;
  destination_id ← unpack_from 8 inner 20;
  sequence ← unpack_from 4 inner 28;
  timestamp ← unpack_from 4 inner 32;
  channel_type ← unpack_from 4 inner 48;
  record_length ← unpack_from 4 inner 52;
  role ← index inner 65;
  call_id ← (if len inner =? 72 then c ← unpack_from 4 inner 68; Ok (Some c) else Ok None);
  Ok (Some (mkMeter kind link_id flags source_id destination_id sequence timestamp channel_type
              record_length role call_id)).

Definition build_media_meter_ack (frame : bytes) : result bytes :=
  parsed ← parse_media_meter frame;
  match parsed with
  | None => Raise (ValueError "not a camera meter request")
  | Some parsed =>
      _ ← raise_if (negb (kind parsed =? 1)) (ValueError "not a camera meter request");
      let inner := zeros 68 in
      inner ← set_byte inner 1 2;
      inner ← pack_into 2 inner 2 0x44;
      inner ← pack_into 4 inner 4 (link_id parsed);
      inner ← pack_into 8 inner 12 (destination_id parsed);
      inner ← pack_into 8 inner 20 (source_id parsed);
      inner ← pack_into 4 inner 28 (m_sequence parsed);
      let inner := slice_set 32 40 (slice 38 46 frame) inner in
      inner ← pack_into 4 inner 48 (channel_type parsed);
      inner ← pack_into 4 inner 52 (len inner);
      inner ← set_byte inner 64 2;
      build_mtp_frame 0x90 inner
  end.

(** ** The frame as a value *)

(** The checksum of the first 24 payload bytes. *)
Definition word_at (payload : bytes) (i : nat) : Z := undigits 256 (slice (i * 2) (i * 2 + 2) payload).
Definition csum_step (payload : bytes) (c : Z) (i : nat) : Z :=
  Z.lxor c (_rotate_left_16 (word_at payload i) (Z.of_nat i)).
Definition csum (payload : bytes) : Z := foldl (csum_step payload) 0 (seq 0 12).

(** What the receiver accepts. *)
Definition verified (f : bytes) : Prop :=
  30 ≤ len f ∧ f !!! 0%nat = 0xC0 ∧
  Z.lor (Z.land (f !!! 2%nat) 0x07) (Z.shiftl (f !!! 3%nat) 3) = len f ∧
  undigits 256 (slice 4 6 f) = Z.lxor (csum (drop 6 f)) (undigits 256 (slice 2 4 f)).

#[global] Instance verified_dec f : Decision (verified f).
Proof. unfold verified. apply _. Defined.

Definition total_of (payload : bytes) : Z := 6 + len payload.
Definition length_bytes (payload : bytes) : bytes :=
  [Z.land (total_of payload) 0x07; Z.shiftr (total_of payload) 3].
Definition mtp_frame (subtype : Z) (payload : bytes) : bytes :=
  [0xC0; subtype] ++ length_bytes payload ++
  digits 256 2 (Z.lxor (csum payload) (undigits 256 (length_bytes payload))) ++ payload.

(** The payloads [build_mtp_frame] accepts. *)
Definition payload_ok (payload : bytes) : Prop := 24 ≤ len payload ∧ total_of payload ≤ MTP_MAX_FRAME_SIZE.

Lemma rot_rotate_left v i : 0 ≤ v < 2 ^ 16 → _rotate_left_16 v i = rotate_left 16 v (Z.land i 15).
Proof.
  intros Hv. unfold _rotate_left_16, rotate_left. cbv zeta.
  pose proof (land_small_bound i 4 ltac:(lia)) as Hi. change (2 ^ 4 - 1) with 15 in Hi.
  change (2 ^ 16 - 1) with 0xFFFF. destruct (decide (Z.land i 15 = 0)) as [->|].
  - rewrite Z.shiftl_0_r, Z.sub_0_r. change (Z.land 16 15) with 0. rewrite Z.shiftr_0_r, Z.lor_diag.
    rewrite (Z.shiftr_div_pow2 v) by lia. by rewrite Z.div_small, Z.lor_0_r by lia.
  - rewrite (Z.land_ones (16 - _) 4) by lia. change (2 ^ 4) with 16 in *. by rewrite Z.mod_small by lia.
Qed.

Lemma rot_bound v i : 0 ≤ _rotate_left_16 v i < 2 ^ 16.
Proof. apply (land_small_bound _ 16). lia. Qed.

(** A rotation loses nothing. *)
Lemma rot_inj v w i : 0 ≤ v < 2 ^ 16 → 0 ≤ w < 2 ^ 16 →
  _rotate_left_16 v i = _rotate_left_16 w i → v = w.
Proof.
  intros Hv Hw. rewrite !rot_rotate_left by done. intros E.
  pose proof (land_small_bound i 4 ltac:(lia)) as Hi. change (2 ^ 4 - 1) with 15 in Hi.
  change (2 ^ 4) with 16 in Hi.
  by rewrite <-(rotate_left_inv 16 v (Z.land i 15)), E, rotate_left_inv by lia.
Qed.

Lemma csum_bound p : 0 ≤ csum p < 2 ^ 16.
Proof.
  unfold csum. apply (foldl_invariant (λ c, 0 ≤ c < 2 ^ 16)); [|lia].
  intros c i Hc. apply lxor_bound; [lia|done|apply rot_bound].
Qed.

Lemma checksum_step_ok f c i : (30 ≤ length f)%nat → (i < 12)%nat →
  checksum_step f c i = Ok (csum_step (drop 6 f) c i).
Proof.
  intros Hf Hi. unfold checksum_step, csum_step, word_at.
  rewrite slice_drop, unpack_from_ok by (unfold MTP_PREFIX_SIZE; lia). bind_simpl.
  unfold MTP_PREFIX_SIZE. by rewrite Nat.add_assoc.
Qed.

Lemma checksum_loop f : (30 ≤ length f)%nat →
  foldM (checksum_step f) 0 (seq 0 12) = Ok (csum (drop 6 f)).
Proof.
  intros H. unfold csum. apply foldM_Ok. intros c i [_ Hi]%elem_of_seq. by apply checksum_step_ok.
Qed.

Lemma checksum_spec f : (30 ≤ length f)%nat → mtp_checksum f = Ok (csum (drop 6 f)).
Proof.
  intros H. unfold mtp_checksum. rewrite guard_pass by (unfold len; lia).
  rewrite checksum_loop by done. bind_simpl.
  by rewrite land_mask16, (Z.mod_small _ _ (csum_bound (drop 6 f))).
Qed.

Lemma length_spec f : (4 ≤ length f)%nat →
  mtp_frame_length f = Ok (Z.lor (Z.land (f !!! 2%nat) 0x07) (Z.shiftl (f !!! 3%nat) 3)).
Proof.
  intros H. unfold mtp_frame_length. rewrite guard_pass by (unfold len; lia).
  by rewrite !index_ok by lia.
Qed.

Lemma verify_spec f : verify_mtp_frame f = Ok (bool_decide (verified f)).
Proof.
  unfold verify_mtp_frame. destruct (Z.ltb_spec (len f) 30) as [H|H].
  { rewrite bool_decide_eq_false_2; [done|]. unfold verified. lia. }
  assert (30 ≤ length f)%nat as L by (unfold len in *; lia).
  rewrite index_ok by lia. bind_simpl.
  destruct (Z.eqb_spec (f !!! 0%nat) 0xC0); cbn [negb].
  2:{ rewrite bool_decide_eq_false_2; [done|]. by intros (_&?&_). }
  rewrite length_spec by lia. bind_simpl.
  destruct (Z.eqb_spec (Z.lor (Z.land (f !!! 2%nat) 0x07) (Z.shiftl (f !!! 3%nat) 3)) (len f)); cbn [negb].
  2:{ rewrite bool_decide_eq_false_2; [done|]. by intros (_&_&?&_). }
  rewrite !unpack_from_ok, checksum_spec by lia. bind_simpl. f_equal.
  destruct (Z.eqb_spec (undigits 256 (slice 4 (4 + 2) f))
    (Z.lxor (csum (drop 6 f)) (undigits 256 (slice 2 (2 + 2) f)))) as [E|E].
  - rewrite bool_decide_eq_true_2; [done|]. by split_and!.
  - rewrite bool_decide_eq_false_2; [done|]. by intros (_&_&_&?).
Qed.

Lemma length_bytes_range p : payload_ok p →
  0 ≤ Z.land (total_of p) 0x07 < 256 ∧ 0 ≤ Z.shiftr (total_of p) 3 < 256.
Proof.
  unfold payload_ok, MTP_MAX_FRAME_SIZE. intros [? ?].
  pose proof (land_small_bound (total_of p) 3 ltac:(lia)) as Hm. change (2 ^ 3 - 1) with 7 in Hm.
  change (2 ^ 3) with 8 in Hm. rewrite Z.shiftr_div_pow2 by lia. change (2 ^ 3) with 8.
  unfold total_of in *. split; [lia|]. split; [apply Z.div_pos|apply Z.div_lt_upper_bound]; lia.
Qed.

Lemma length_bytes_ok p : payload_ok p → bytes_ok (length_bytes p).
Proof. intros H%length_bytes_range. unfold length_bytes. repeat constructor; lia. Qed.

Lemma mtp_word_range p : payload_ok p →
  0 ≤ Z.lxor (csum p) (undigits 256 (length_bytes p)) < 2 ^ 16.
Proof.
  intros H. apply lxor_bound; [lia|apply csum_bound|].
  apply (le_bound 2); [by apply length_bytes_ok|done].
Qed.

(** The 11-bit length field written and read back. *)
Lemma length_field p : payload_ok p →
  Z.lor (Z.land (total_of p) 7) (Z.shiftl (Z.shiftr (total_of p) 3) 3) = total_of p.
Proof.
  intros H. rewrite Z.lor_comm.
  pose proof (land_small_bound (total_of p) 3 ltac:(lia)) as Hb. change (2 ^ 3 - 1) with 7 in Hb.
  rewrite lor_shiftl_add, (Z.land_ones _ 3), Z.shiftr_div_pow2 by lia.
  pose proof (Z.div_mod (total_of p) (2 ^ 3) ltac:(lia)). lia.
Qed.

(** The four prefix bytes written before the payload. *)
Lemma prefix_built subtype a b n (k : bytes → result bytes) :
  0 ≤ subtype < 256 → 0 ≤ a < 256 → 0 ≤ b < 256 →
  (f ← set_byte (zeros (6 + n)) 0 0xC0; f ← set_byte f 1 subtype; f ← set_byte f 2 a;
   f ← set_byte f 3 b; k f) = k ([0xC0; subtype; a; b; 0; 0] ++ zeros n).
Proof.
  intros. change (zeros (6 + n)) with ([0;0;0;0;0;0] ++ zeros n).
  by do 4 (rewrite set_byte_ok by (first [len_solve|lia]); bind_simpl; cbn [insert list_insert app]).
Qed.

Lemma build_spec subtype p : 0 ≤ subtype < 256 → payload_ok p →
  build_mtp_frame subtype p = Ok (mtp_frame subtype p).
Proof.
  intros Hs Hp. pose proof (length_bytes_range p Hp) as [H2 H3].
  pose proof (mtp_word_range p Hp) as Hw. destruct Hp as [Hl Ht].
  unfold build_mtp_frame, MTP_PREFIX_SIZE. rewrite guard_pass by lia.
  rewrite guard_pass by lia.
  assert (Z.of_nat (6 + length p) = total_of p) as E by (unfold total_of, len; lia).
  cbv zeta. rewrite E, guard_pass by (unfold MTP_MAX_FRAME_SIZE in *; lia).
  rewrite prefix_built by lia.
  set (frame := [192; subtype] ++ length_bytes p ++ [0; 0] ++ p).
  replace (slice_set 6 _ p _) with frame.
  2:{ unfold slice_set. rewrite (drop_ge (_ ++ _)) by lia. by rewrite app_nil_r. }
  assert (drop 6 frame = p) as Ed by reflexivity.
  assert (slice 2 (2 + 2) frame = length_bytes p) as El by reflexivity.
  assert (length frame = 6 + length p)%nat as Lf by reflexivity.
  rewrite checksum_spec by (unfold len in *; lia). rewrite bind_ret.
  rewrite unpack_from_ok by lia. rewrite bind_ret. rewrite Ed, El.
  rewrite pack_into_ok by (eval_widths; lia). apply f_equal. unfold frame, mtp_frame.
  rewrite (app_assoc [192; subtype] (length_bytes p) ([0; 0] ++ p)), (app_assoc [192; subtype] (length_bytes p)).
  apply slice_set_mid; (done || lia).
Qed.

Lemma length_mtp_frame subtype p : len (mtp_frame subtype p) = total_of p.
Proof. unfold mtp_frame, total_of, length_bytes. len_simpl. lia. Qed.

Lemma mtp_frame_verified subtype p : 0 ≤ subtype < 256 → payload_ok p → verified (mtp_frame subtype p).
Proof.
  intros Hs Hp. unfold verified. rewrite length_mtp_frame. split_and!; [destruct Hp; unfold total_of; lia|done| |].
  - change (mtp_frame subtype p !!! 2%nat) with (Z.land (total_of p) 0x07).
    change (mtp_frame subtype p !!! 3%nat) with (Z.shiftr (total_of p) 3).
    rewrite <-Z.land_assoc. by apply length_field.
  - change (slice 4 6 _) with (digits 256 2 (Z.lxor (csum p) (undigits 256 (length_bytes p)))).
    rewrite le_decode_encode by (by apply mtp_word_range). done.
Qed.

(** ** Segments as values *)

Definition segment_ok (s : KcpSegment) : Prop :=
  0 ≤ conv s < 2 ^ 32 ∧ 0 ≤ command s < 2 ^ 8 ∧ 0 ≤ fragment s < 2 ^ 8 ∧ 0 ≤ window s < 2 ^ 16 ∧
  0 ≤ timestamp s < 2 ^ 32 ∧ 0 ≤ sequence s < 2 ^ 32 ∧ 0 ≤ unacknowledged s < 2 ^ 32 ∧
  len (body s) < 2 ^ 32 ∧ bytes_ok (body s).

#[global] Instance segment_ok_dec s : Decision (segment_ok s).
Proof. unfold segment_ok. apply _. Defined.

Definition header (s : KcpSegment) : bytes :=
  digits 256 4 (conv s) ++ digits 256 1 (command s) ++ digits 256 1 (fragment s) ++
  digits 256 2 (window s) ++ digits 256 4 (timestamp s) ++ digits 256 4 (sequence s) ++
  digits 256 4 (unacknowledged s) ++ digits 256 4 (len (body s)).
Definition encode (s : KcpSegment) : bytes := header s ++ body s.
Definition encode_all (ss : list KcpSegment) : bytes := concat (encode <$> ss).

#[local] Arguments header : simpl never.
#[local] Arguments encode : simpl never.
#[local] Arguments encode_all : simpl never.

Lemma length_header s : length (header s) = 24%nat.
Proof. done. Qed.

Lemma header_pack s : segment_ok s →
  kcp_header_pack (conv s) (command s) (fragment s) (window s) (timestamp s) (sequence s)
    (unacknowledged s) (len (body s)) = Ok (header s).
Proof.
  intros (?&?&?&?&?&?&?&?&?). unfold kcp_header_pack. assert (0 ≤ len (body s)) by (unfold len; lia).
  by rewrite !pack_ok by (split; [lia|eval_widths; lia]).
Qed.

Lemma header_unpack pre s rest : segment_ok s →
  kcp_header_unpack (pre ++ header s ++ rest) (length pre) =
  Ok (conv s, command s, fragment s, window s, timestamp s, sequence s, unacknowledged s, len (body s)).
Proof.
  intros (?&?&?&?&?&?&?&?&?). unfold kcp_header_unpack. assert (0 ≤ len (body s)) by (unfold len; lia).
  rewrite !unpack_from_skip. rewrite (unpack_from_app_r 4 pre), Nat.sub_diag by lia.
  rewrite (unpack_digits 4 _ 0 (conv s)), (unpack_digits 1 _ 4 (command s)),
    (unpack_digits 1 _ 5 (fragment s)), (unpack_digits 2 _ 6 (window s)),
    (unpack_digits 4 _ 8 (timestamp s)), (unpack_digits 4 _ 12 (sequence s)),
    (unpack_digits 4 _ 16 (unacknowledged s)), (unpack_digits 4 _ 20 (len (body s)));
    first [reflexivity|lia|split; [lia|eval_widths; lia]].
Qed.

(** One segment of the loop. *)
Lemma parse_loop_step fuel pre s rest acc : segment_ok s →
  parse_loop (S fuel) (pre ++ encode s ++ rest) (length pre) acc =
  parse_loop fuel ((pre ++ encode s) ++ rest) (length (pre ++ encode s)) (acc ++ [s]).
Proof.
  intros Hs. cbn [parse_loop]. assert (length (encode s) = 24 + length (body s))%nat as L.
  { unfold encode. rewrite length_app. done. }
  destruct (Nat.ltb_spec (length pre) (length (pre ++ encode s ++ rest))); [|len_solve].
  unfold KCP_HEADER_size. pass_guard.
  assert (∀ r, encode s ++ r = header s ++ body s ++ r) as Ee by (intros; apply (eq_sym (app_assoc _ _ _))).
  rewrite Ee at 1. rewrite header_unpack by done. bind_simpl.
  replace (Z.to_nat _) with (length (pre ++ encode s)) by len_solve.
  pass_guard. cbv zeta. rewrite <-app_assoc. f_equal.
  f_equal. f_equal. transitivity (mkSegment (conv s) (command s) (fragment s) (window s) (timestamp s)
    (sequence s) (unacknowledged s) (body s)); [f_equal|by destruct s].
  rewrite Ee, (app_assoc pre). apply slice_mid; rewrite ?length_app, ?length_header; lia.
Qed.

Lemma parse_loop_segments ss : ∀ fuel pre acc, Forall segment_ok ss → (length ss ≤ fuel)%nat →
  parse_loop fuel (pre ++ encode_all ss) (length pre) acc = Ok (acc ++ ss).
Proof.
  induction ss as [|s ss IH]; intros fuel pre acc Hss Hf.
  - unfold encode_all. simpl. rewrite !app_nil_r. destruct fuel; simpl; by rewrite Nat.ltb_irrefl.
  - apply Forall_cons_iff in Hss as [Hs Hss]. destruct fuel as [|fuel]; [simpl in Hf; lia|].
    change (encode_all (s :: ss)) with (encode s ++ encode_all ss). rewrite parse_loop_step by done.
    rewrite IH by (done || (simpl in Hf; lia)). by rewrite <-app_assoc.
Qed.

Lemma encode_all_length ss : (24 * length ss ≤ length (encode_all ss))%nat.
Proof.
  induction ss as [|s ss IH]; [done|]. change (encode_all (s :: ss)) with (encode s ++ encode_all ss).
  unfold encode. rewrite !length_app, length_header. simpl. lia.
Qed.

Lemma parse_built ss : Forall segment_ok ss → ss ≠ [] → payload_ok (encode_all ss) →
  parse_kcp_segments (mtp_frame 0x10 (encode_all ss)) = Ok ss.
Proof.
  intros Hss Hne Hp. unfold parse_kcp_segments.
  rewrite verify_spec, (bool_decide_eq_true_2 (verified _)) by (apply mtp_frame_verified; [lia|done]). bind_simpl.
  rewrite guard_pass by (change (slice 0 2 _) with [0xC0; 0x10]; by rewrite bool_decide_eq_true_2).
  unfold mtp_frame. rewrite !app_assoc. set (pre := _ ++ digits 256 2 _).
  change MTP_PREFIX_SIZE with (length pre). rewrite parse_loop_segments.
  - simpl. rewrite guard_pass; [done|]. destruct ss; done.
  - done.
  - pose proof (encode_all_length ss). len_solve.
Qed.

(** A header read from octets describes those octets. *)
Lemma header_unpack_sound f cursor : bytes_ok f → (cursor + 24 ≤ length f)%nat →
  ∃ c cmd frg wnd ts sn una l,
    kcp_header_unpack f cursor = Ok (c, cmd, frg, wnd, ts, sn, una, l) ∧ 0 ≤ l ∧
    ∀ b, bytes_ok b → len b = l →
      segment_ok (mkSegment c cmd frg wnd ts sn una b) ∧
      header (mkSegment c cmd frg wnd ts sn una b) = slice cursor (cursor + 24) f.
Proof.
  intros Hf Hc. unfold kcp_header_unpack.
  destruct (unpack_from_field 4 f cursor) as (c & -> & Rc & Dc); [done|lia|].
  destruct (unpack_from_field 1 f (cursor + 4)) as (cmd & -> & Rcmd & Dcmd); [done|lia|].
  destruct (unpack_from_field 1 f (cursor + 5)) as (frg & -> & Rf & Df); [done|lia|].
  destruct (unpack_from_field 2 f (cursor + 6)) as (w & -> & Rw & Dw); [done|lia|].
  destruct (unpack_from_field 4 f (cursor + 8)) as (ts & -> & Rt & Dt); [done|lia|].
  destruct (unpack_from_field 4 f (cursor + 12)) as (sn & -> & Rs & Ds); [done|lia|].
  destruct (unpack_from_field 4 f (cursor + 16)) as (u & -> & Ru & Du); [done|lia|].
  destruct (unpack_from_field 4 f (cursor + 20)) as (l & -> & Rl & Dl); [done|lia|].
  do 8 eexists. split; [reflexivity|]. eval_widths. split; [lia|]. intros b Hb Hl. split.
  - unfold segment_ok; simpl. split_and!; done || lia.
  - unfold header; cbn [conv command fragment window timestamp sequence unacknowledged body].
    rewrite Hl, Dc, Dcmd, Df, Dw, Dt, Ds, Du, Dl. rewrite <-!Nat.add_assoc. cbn [Nat.add].
    by rewrite !slice_concat by lia.
Qed.

Lemma parse_loop_sound f : bytes_ok f → ∀ fuel cursor acc, (cursor ≤ length f)%nat →
  (length f - cursor ≤ fuel)%nat →
  value_or (λ ss, ∃ new, ss = acc ++ new ∧ Forall segment_ok new ∧ encode_all new = drop cursor f)
    (parse_loop fuel f cursor acc).
Proof.
  intros Hf. induction fuel as [|fuel IH]; intros cursor acc Hc Hfu; cbn [parse_loop];
    (destruct (Nat.ltb_spec cursor (length f)); [try lia|exists []; rewrite app_nil_r, drop_ge by lia; done]).
  unfold KCP_HEADER_size. apply value_or_raise_if. intros Hh%Nat.ltb_ge.
  destruct (header_unpack_sound f cursor Hf Hh) as (c&cmd&frg&w&ts&sn&u&l&->&Hl&Hseg). bind_simpl.
  cbv zeta. apply value_or_raise_if. intros He%Z.ltb_ge. unfold len in He.
  destruct (Hseg (slice (cursor + 24) (Z.to_nat (Z.of_nat (cursor + 24) + l)) f)) as [Hok Eh];
    [auto with bytes|len_solve|].
  eapply value_or_impl; [apply IH; lia|]. intros ss (new & -> & Hn & En).
  eexists (_ :: new). rewrite <-app_assoc. split; [reflexivity|]. split; [by constructor|].
  unfold encode_all. cbn [fmap list_fmap concat]. unfold encode_all in En. rewrite En. unfold encode. rewrite Eh.
  cbn [body]. rewrite slice_concat by lia. apply slice_drop_app. lia.
Qed.

Lemma parse_sound f : bytes_ok f →
  value_or (λ ss, ss ≠ [] ∧ Forall segment_ok ss ∧ verified f ∧ encode_all ss = drop 6 f)
    (parse_kcp_segments f).
Proof.
  intros Hf. unfold parse_kcp_segments. rewrite verify_spec. bind_simpl.
  apply value_or_raise_if. intros [Hv%negb_false_iff%bool_decide_eq_true _]%orb_false_elim.
  eapply value_or_bind; [apply parse_loop_sound; [done|destruct Hv; unfold MTP_PREFIX_SIZE, len in *; lia..]|].
  intros ss (new & -> & Hn & En) _. apply value_or_raise_if. intros Hne%Nat.eqb_neq. simpl.
  split_and!; try done. by intros ->.
Qed.

(** ** Corruption of one checksum word *)

Lemma csum_step_fold p l c : foldl (csum_step p) c l = Z.lxor c (foldl (csum_step p) 0 l).
Proof.
  revert c. induction l as [|i l IH]; intros c; simpl; [by rewrite Z.lxor_0_r|].
  rewrite IH, (IH (csum_step p 0 i)). unfold csum_step. by rewrite Z.lxor_0_l, Z.lxor_assoc.
Qed.

Lemma csum_fold_ext p q l c : (∀ j, j ∈ l → word_at p j = word_at q j) →
  foldl (csum_step p) c l = foldl (csum_step q) c l.
Proof.
  revert c. induction l as [|i l IH]; intros c H; simpl; [done|].
  rewrite IH by (intros; apply H; set_solver). unfold csum_step. by rewrite H by set_solver.
Qed.

(** Payloads that differ in exactly one of the twelve words have different
    checksums. *)
Lemma csum_word_sensitive p q i : (i < 12)%nat →
  (∀ j, j ≠ i → word_at p j = word_at q j) →
  0 ≤ word_at p i < 2 ^ 16 → 0 ≤ word_at q i < 2 ^ 16 →
  csum p = csum q → word_at p i = word_at q i.
Proof.
  intros Hi Hj Hp Hq. unfold csum.
  assert (seq 0 12 = seq 0 i ++ i :: seq (S i) (11 - i)) as ->.
  { replace 12%nat with (i + S (11 - i))%nat by lia. by rewrite seq_app. }
  rewrite !foldl_app. cbn [foldl]. rewrite (csum_fold_ext p q (seq 0 i)).
  2:{ intros j [_ Hl]%elem_of_seq. apply Hj. lia. }
  rewrite (csum_step_fold p (seq (S i) _)), (csum_step_fold q (seq (S i) _)), (csum_fold_ext p q (seq (S i) _)).
  2:{ intros j [Hl _]%elem_of_seq. apply Hj. lia. }
  set (a := foldl _ 0 (seq 0 i)). set (b := foldl _ 0 (seq (S i) _)). unfold csum_step.
  intros E. apply (f_equal (λ x, Z.lxor (Z.lxor x b) a)) in E. rewrite !lxor_cancel in E.
  rewrite !(Z.lxor_comm a), !lxor_cancel in E. by apply rot_inj in E.
Qed.

Lemma put_word_other (f w : bytes) i j : length w = 2%nat → (6 + i * 2 + 2 ≤ length f)%nat → j ≠ i →
  word_at (drop 6 (put (6 + i * 2) w f)) j = word_at (drop 6 f) j.
Proof. intros Hw Hf Hj. unfold word_at. rewrite !slice_drop, slice_put_ne by lia. done. Qed.

Lemma put_word_same (f w : bytes) i : length w = 2%nat → (6 + i * 2 + 2 ≤ length f)%nat →
  word_at (drop 6 (put (6 + i * 2) w f)) i = undigits 256 w.
Proof. intros Hw Hf. unfold word_at. rewrite slice_drop, slice_put_eq by lia. done. Qed.

(** ** The media meter *)

(** The fields of an accepted meter record. *)
Definition meter_of (inner : bytes) : MediaMeter :=
  mkMeter (inner !!! 1%nat) (undigits 256 (slice 4 8 inner)) (undigits 256 (slice 8 12 inner))
    (undigits 256 (slice 12 20 inner)) (undigits 256 (slice 20 28 inner))
    (undigits 256 (slice 28 32 inner)) (undigits 256 (slice 32 36 inner))
    (undigits 256 (slice 48 52 inner)) (undigits 256 (slice 52 56 inner)) (inner !!! 65%nat)
    (if len inner =? 72 then Some (undigits 256 (slice 68 72 inner)) else None).

Lemma parse_meter_spec f : verified f → slice 0 2 f = [0xC0; 0x90] →
  len (drop 6 f) = 68 ∨ len (drop 6 f) = 72 → undigits 256 (slice 2 4 (drop 6 f)) = 0x44 →
  parse_media_meter f = Ok (Some (meter_of (drop 6 f))).
Proof.
  intros Hv Hs Hl Ht. unfold parse_media_meter. rewrite verify_spec. bind_simpl.
  rewrite !bool_decide_eq_true_2 by done. cbn [negb orb]. unfold MTP_PREFIX_SIZE. cbv zeta.
  set (inner := drop 6 f) in *.
  assert ((len inner =? 68) || (len inner =? 72) = true) as -> by (destruct Hl as [-> | ->]; done). cbn [negb].
  assert (68 ≤ length inner)%nat by (unfold len in Hl; lia).
  rewrite (unpack_from_ok 2) by lia. bind_simpl. change (2 + 2)%nat with 4%nat. rewrite Ht. change (negb (0x44 =? 0x44)) with false. cbv iota.
  rewrite !index_ok by lia. bind_simpl.
  rewrite (unpack_from_ok 4 _ 4), (unpack_from_ok 4 _ 8), (unpack_from_ok 8 _ 12), (unpack_from_ok 8 _ 20),
    (unpack_from_ok 4 _ 28), (unpack_from_ok 4 _ 32), (unpack_from_ok 4 _ 48), (unpack_from_ok 4 _ 52) by lia.
  unfold meter_of. destruct (Z.eqb_spec (len inner) 72); [rewrite (unpack_from_ok 4 _ 68) by (unfold len in *; lia)|]; done.
Qed.

Lemma meter_payload_ok inner : length inner = 68%nat ∨ length inner = 72%nat → payload_ok inner.
Proof. unfold payload_ok, total_of, len, MTP_MAX_FRAME_SIZE. lia. Qed.

Lemma meter_request_parsed now access device link call seq ts :
  ∃ f, build_media_meter_request now access device link call seq (Some ts) = Ok f ∧
  parse_media_meter f = Ok (Some (mkMeter 1 (Z.land link 0xFFFFFFFF) 8
    (Z.land access 0xFFFFFFFFFFFFFFFF) (Z.land device 0xFFFFFFFFFFFFFFFF) (Z.land seq 0xFFFFFFFF)
    (Z.land ts 0xFFFFFFFF) 4 72 1 (Some (Z.land call 0xFFFFFFFF)))).
Proof.
  unfold build_media_meter_request. cbv zeta. repeat build_step. len_simpl.
  match goal with |- context [build_mtp_frame _ ?x] => set (inner := x) end.
  assert (length inner = 72%nat) as L by (unfold inner; by len_simpl).
  eexists. split; [apply build_spec; [lia|by apply meter_payload_ok; right]|].
  assert (drop 6 (mtp_frame 144 inner) = inner) as D by done.
  rewrite parse_meter_spec; rewrite ?D; [| |done|unfold len; lia|unfold inner; fields; done].
  2:{ apply mtp_frame_verified; [lia|by apply meter_payload_ok; right]. }
  f_equal. f_equal. unfold meter_of.
  rewrite (lookup_total_slice1 inner 1 1), (lookup_total_slice1 inner 65 1).
  2:{ unfold inner. rewrite (slice_slice 65 _ 64 68) by lia. fields. done. }
  2:{ unfold inner. fields. done. }
  unfold len at 1. rewrite L. change (Z.of_nat 72 =? 72) with true. unfold inner. by fields.
Qed.

Lemma parse_meter_inv f m : parse_media_meter f = Ok (Some m) →
  verified f ∧ slice 0 2 f = [0xC0; 0x90] ∧ (len (drop 6 f) = 68 ∨ len (drop 6 f) = 72) ∧
  undigits 256 (slice 2 4 (drop 6 f)) = 0x44 ∧ m = meter_of (drop 6 f).
Proof.
  intros E. assert (verified f ∧ slice 0 2 f = [0xC0; 0x90] ∧ (len (drop 6 f) = 68 ∨ len (drop 6 f) = 72) ∧
    undigits 256 (slice 2 4 (drop 6 f)) = 0x44) as (?&?&?&?).
  { unfold parse_media_meter in E. rewrite verify_spec in E. cbn [mbind result_bind] in E.
    do 2 (case_bool_decide; cbn [negb orb] in E; [|done]). cbv zeta in E.
    unfold MTP_PREFIX_SIZE in E.
    destruct (Z.eqb_spec (len (drop 6 f)) 68), (Z.eqb_spec (len (drop 6 f)) 72); cbn [negb orb] in E; try done;
      (apply bind_Ok in E as (tag & [Ht ->]%unpack_from_Ok & E); change (2 + 2)%nat with 4%nat in E;
       destruct (Z.eqb_spec (undigits 256 (slice 2 4 (drop 6 f))) 0x44); [|done]; auto). }
  rewrite parse_meter_spec in E by done. injection E as <-. auto.
Qed.

Lemma field_bound f a b : bytes_ok f → (b ≤ length f)%nat → (a ≤ b)%nat →
  0 ≤ undigits 256 (slice a b f) < 256 ^ Z.of_nat (b - a).
Proof. intros. apply le_bound; [auto with bytes|len_solve]. Qed.

(** The acknowledgement record as a value. *)
Definition ack_inner (link dst src seq chan : Z) (ts : bytes) : bytes :=
  put 64 [2] (put 52 (digits 256 4 68) (put 48 (digits 256 4 chan) (put 32 ts (put 28 (digits 256 4 seq)
    (put 20 (digits 256 8 src) (put 12 (digits 256 8 dst) (put 4 (digits 256 4 link)
    (put 2 (digits 256 2 0x44) (put 1 [2] (zeros 68)))))))))).

Lemma length_ack_inner link dst src seq chan ts : length (ack_inner link dst src seq chan ts) = 68%nat.
Proof. unfold ack_inner. by len_simpl. Qed.

Lemma meter_ack_inner link dst src seq chan ts :
  0 ≤ link < 256 ^ 4 → 0 ≤ dst < 256 ^ 8 → 0 ≤ src < 256 ^ 8 → 0 ≤ seq < 256 ^ 4 → 0 ≤ chan < 256 ^ 4 →
  length ts = 8%nat →
  undigits 256 (slice 2 4 (ack_inner link dst src seq chan ts)) = 0x44 ∧
  meter_of (ack_inner link dst src seq chan ts) =
    mkMeter 2 link 0 dst src seq (undigits 256 (take 4 ts)) chan 68 0 None.
Proof.
  intros. set (inner := ack_inner link dst src seq chan ts). split; [unfold inner, ack_inner; by fields|].
  unfold meter_of, len. unfold inner at 11. rewrite length_ack_inner. change (Z.of_nat 68 =? 72) with false.
  rewrite (lookup_total_slice1 inner 1 2), (lookup_total_slice1 inner 65 0) by (unfold inner, ack_inner; by fields).
  rewrite (slice_slice 32 36 32 40) by lia. unfold inner, ack_inner. fields.
  rewrite slice_zeros, undigits_zeros by lia. done.
Qed.

Lemma meter_ack_parsed f m : bytes_ok f → parse_media_meter f = Ok (Some m) → kind m = 1 →
  ∃ a, build_media_meter_ack f = Ok a ∧ slice 38 46 a = slice 38 46 f ∧
  parse_media_meter a = Ok (Some (mkMeter 2 (link_id m) 0 (destination_id m) (source_id m)
    (m_sequence m) (m_timestamp m) (channel_type m) 68 0 None)).
Proof.
  intros Hf Hm Hk. pose proof (parse_meter_inv _ _ Hm) as (Hv & Hs & Hl & Ht & Em).
  assert (68 ≤ length (drop 6 f))%nat as Ld by (unfold len in Hl; lia).
  assert (bytes_ok (drop 6 f)) as Hd by auto with bytes.
  assert (length (slice 38 46 f) = 8%nat) as L8 by (rewrite length_drop in Ld; len_solve).
  set (inner := ack_inner (link_id m) (destination_id m) (source_id m) (m_sequence m) (channel_type m)
                  (slice 38 46 f)).
  assert (0 ≤ link_id m < 256 ^ 4 ∧ 0 ≤ destination_id m < 256 ^ 8 ∧ 0 ≤ source_id m < 256 ^ 8 ∧
    0 ≤ m_sequence m < 256 ^ 4 ∧ 0 ≤ channel_type m < 256 ^ 4) as (B1 & B2 & B3 & B4 & B5).
  { rewrite Em. split; [exact (field_bound _ 4 8 Hd ltac:(lia) ltac:(lia))|].
    split; [exact (field_bound _ 20 28 Hd ltac:(lia) ltac:(lia))|].
    split; [exact (field_bound _ 12 20 Hd ltac:(lia) ltac:(lia))|].
    split; [exact (field_bound _ 28 32 Hd ltac:(lia) ltac:(lia))|].
    exact (field_bound _ 48 52 Hd ltac:(lia) ltac:(lia)). }
  destruct (meter_ack_inner _ _ _ _ _ _ B1 B2 B3 B4 B5 L8) as [Et Emo]. fold inner in Et, Emo.
  assert (payload_ok inner) as Hp by (apply meter_payload_ok; left; apply length_ack_inner).
  exists (mtp_frame 0x90 inner). split_and!.
  - unfold build_media_meter_ack. rewrite Hm. bind_simpl. rewrite Hk. rewrite guard_pass by done. cbv zeta.
    clear Em Emo Et Hm. repeat build_step. len_simpl. rewrite <-build_spec by (lia || done).
    change (Z.of_nat 68) with 68. unfold inner, ack_inner. reflexivity.
  - change (slice 38 46 (mtp_frame 0x90 inner)) with (slice 32 40 inner). unfold inner, ack_inner. by fields.
  - rewrite parse_meter_spec; change (drop 6 (mtp_frame 0x90 inner)) with inner.
    + rewrite Emo, Em. cbn [m_timestamp meter_of link_id source_id destination_id m_sequence channel_type].
      assert (take 4 (slice 38 46 f) = slice 32 36 (drop 6 f)) as -> by
        (rewrite slice_drop; unfold slice; by rewrite take_take). done.
    + by apply mtp_frame_verified; [lia|].
    + done.
    + left. unfold len, inner. by rewrite length_ack_inner.
    + done.
Qed.

(** ** Properties *)

(** Parsing inverts building.  Every non-empty list of valid segments
    that fits one frame is built into a [c0/10] frame that verifies and parses
    back to exactly those segments, in order. *)
Lemma kcp_frame_roundtrip ss : Forall segment_ok ss → ss ≠ [] → payload_ok (encode_all ss) →
  ∃ f, build_mtp_frame 0x10 (encode_all ss) = Ok f ∧ verify_mtp_frame f = Ok true ∧
    parse_kcp_segments f = Ok ss.
Proof.
  intros Hss Hne Hp. exists (mtp_frame 0x10 (encode_all ss)). split_and!.
  - by apply build_spec; [lia|].
  - rewrite verify_spec, bool_decide_eq_true_2; [done|]. by apply mtp_frame_verified; [lia|].
  - by apply parse_built.
Qed.

Definition sample_segments : list KcpSegment :=
  [mkSegment 0x11223344 KCP_PUSH 1 128 1000 7 3 [1; 2; 3]; mkSegment 0x11223344 KCP_ACK 0 128 1001 8 3 []].


(** On any byte string the segment parser returns or raises
    [ValueError] (never [struct.error], [IndexError] or a non-terminating loop),
    and what it returns are valid segments whose encoding is exactly the
    payload of a verified frame: no byte is dropped or read twice. *)
Lemma kcp_parser_total_exact f : bytes_ok f →
  value_or (λ ss, ss ≠ [] ∧ Forall segment_ok ss ∧ verify_mtp_frame f = Ok true ∧
      encode_all ss = drop MTP_PREFIX_SIZE f)
    (parse_kcp_segments f).
Proof.
  intros Hf. eapply value_or_impl; [by apply parse_sound|]. intros ss (?&?&Hv&?).
  split_and!; try done. rewrite verify_spec. by rewrite bool_decide_eq_true_2.
Qed.


(** The rotating checksum detects every corruption of one 16-bit
    word of the first 24 payload bytes: the altered frame is rejected. *)
Lemma mtp_detects_word_corruption f i w : bytes_ok f → bytes_ok w → length w = 2%nat → (i < 12)%nat →
  verify_mtp_frame f = Ok true → w ≠ slice (6 + i * 2) (6 + i * 2 + 2) f →
  verify_mtp_frame (put (6 + i * 2) w f) = Ok false.
Proof.
  intros Hf Hw Lw Hi Hv Hne. rewrite verify_spec in *. apply Ok_inj, bool_decide_eq_true in Hv.
  f_equal. apply bool_decide_eq_false_2. intros Hv'. apply Hne.
  destruct Hv as (Hl&_&_&E), Hv' as (_&_&_&E'). assert (30 ≤ length f)%nat by (unfold len in Hl; lia).
  rewrite !(slice_put_ne _ _ _ _ f) in E' by lia. rewrite E in E'.
  apply (f_equal (λ x, Z.lxor x (undigits 256 (slice 2 4 f)))) in E'. rewrite !lxor_cancel in E'.
  apply undigits_inj with (b := 256); [lia|done|apply bytes_ok_slice, Hf|len_solve|].
  rewrite <-(put_word_same f w i) by lia. symmetry.
  replace (undigits 256 _) with (word_at (drop 6 f) i) by (unfold word_at; by rewrite slice_drop).
  assert (∀ g, bytes_ok g → length g = length f → 0 ≤ word_at (drop 6 g) i < 2 ^ 16) as B.
  { intros g Hg Lg. apply (le_bound 2); [apply bytes_ok_slice; auto with bytes|len_solve]. }
  apply csum_word_sensitive; [done| |apply B; auto with bytes|apply B; [auto with bytes|by len_simpl]|done].
  intros j Hj. by rewrite put_word_other by lia.
Qed.

Definition sample_frame : bytes := mtp_frame 0x10 (encode_all sample_segments).

(** C27: the KCP frame codec. Every non-empty list of valid segments that fits
    one frame is built into a [c0/10] frame that verifies and parses back to
    exactly those segments, in order. On any byte string the parser returns or
    raises [ValueError] (never [struct.error], [IndexError] or a non-terminating
    loop), and what it returns are valid segments whose encoding is exactly the
    payload of a verified frame. The rotating checksum detects every corruption
    of one 16-bit word of the first 24 payload bytes. *)
Theorem kcp_frame_codec :
  (∀ ss, Forall segment_ok ss → ss ≠ [] → payload_ok (encode_all ss) →
     ∃ f, build_mtp_frame 0x10 (encode_all ss) = Ok f ∧ verify_mtp_frame f = Ok true ∧ parse_kcp_segments f = Ok ss) ∧
  (∀ f, bytes_ok f →
     value_or (λ ss, ss ≠ [] ∧ Forall segment_ok ss ∧ verify_mtp_frame f = Ok true ∧
         encode_all ss = drop MTP_PREFIX_SIZE f)
       (parse_kcp_segments f)) ∧
  (∀ f i w, bytes_ok f → bytes_ok w → length w = 2%nat → (i < 12)%nat →
     verify_mtp_frame f = Ok true → w ≠ slice (6 + i * 2) (6 + i * 2 + 2) f →
     verify_mtp_frame (put (6 + i * 2) w f) = Ok false).
Proof. split_and!; [apply kcp_frame_roundtrip|apply kcp_parser_total_exact|apply mtp_detects_word_corruption]. Qed.

Lemma kcp_frame_codec_witness :
  (∃ f, build_mtp_frame 0x10 (encode_all sample_segments) = Ok f ∧ verify_mtp_frame f = Ok true ∧
    parse_kcp_segments f = Ok sample_segments) ∧
  verify_mtp_frame (put (6 + 3 * 2) [0; 0] sample_frame) = Ok false.
Proof.
  destruct kcp_frame_codec as (H1 & _ & H3). split.
  - apply H1; [apply (bool_decide_unpack _); vm_compute; exact I|discriminate|].
    split; apply (bool_decide_unpack _); vm_compute; exact I.
  - apply (H3 sample_frame 3%nat [0; 0]);
      [bytes_concrete|bytes_concrete|reflexivity|lia|vm_compute; reflexivity|vm_compute; discriminate].
Defined.

(** One segment built by any of the builders. *)
Lemma built_segment s : segment_ok s → len (body s) ≤ 0x7FF - 30 → ∃ f,
  (h ← kcp_header_pack (conv s) (command s) (fragment s) (window s) (timestamp s) (sequence s)
     (unacknowledged s) (len (body s)); build_mtp_frame 0x10 (h ++ body s)) = Ok f ∧
  parse_kcp_segments f = Ok [s].
Proof.
  intros Hs Hl. rewrite header_pack by done. bind_simpl. exists (mtp_frame 0x10 (encode s)).
  assert (encode_all [s] = encode s) as E by apply app_nil_r.
  assert (payload_ok (encode_all [s])) as Hp.
  { rewrite E. unfold encode, payload_ok, total_of, MTP_MAX_FRAME_SIZE, len in *.
    rewrite length_app, length_header. lia. }
  split; [apply build_spec; [lia|by rewrite <-E]|].
  rewrite <-E. apply parse_built; [by constructor|done|done].
Qed.

(** The three KCP builders produce frames that parse to the one
    segment they describe, whatever the (masked) numbers, for every body that
    fits. *)
Lemma kcp_builders_parsed now c sn b ts una wnd :
  bytes_ok b → len b ≤ MTP_MAX_FRAME_SIZE - 30 → 0 ≤ wnd < 2 ^ 16 →
  (∃ f, build_kcp_push now c sn b (Some ts) una wnd = Ok f ∧
     parse_kcp_segments f = Ok [mkSegment (Z.land c 0xFFFFFFFF) KCP_PUSH 0 wnd (Z.land ts 0xFFFFFFFF)
       (Z.land sn 0xFFFFFFFF) (Z.land una 0xFFFFFFFF) b]) ∧
  (∃ f, build_kcp_ack c sn ts una wnd = Ok f ∧
     parse_kcp_segments f = Ok [mkSegment (Z.land c 0xFFFFFFFF) KCP_ACK 0 wnd (Z.land ts 0xFFFFFFFF)
       (Z.land sn 0xFFFFFFFF) (Z.land una 0xFFFFFFFF) []]) ∧
  (∃ f, build_window_report (Z.land c 0xFFFFFFFF) (Z.land una 0xFFFFFFFF) wnd = Ok f ∧
     parse_kcp_segments f = Ok [mkSegment (Z.land c 0xFFFFFFFF) KCP_WINS 0 wnd 0 0 (Z.land una 0xFFFFFFFF) []]).
Proof.
  intros Hb Hl Hw. unfold MTP_MAX_FRAME_SIZE in Hl.
  pose proof (land32_range c). pose proof (land32_range sn). pose proof (land32_range ts).
  pose proof (land32_range una). assert (bytes_ok []) by constructor.
  split_and!.
  - unfold build_kcp_push. rewrite guard_pass by lia. cbv zeta.
    edestruct (built_segment (mkSegment (Z.land c 0xFFFFFFFF) KCP_PUSH 0 wnd (Z.land ts 0xFFFFFFFF)
      (Z.land sn 0xFFFFFFFF) (Z.land una 0xFFFFFFFF) b)) as (f & E & ?).
    { unfold segment_ok; simpl; split_and!; done || lia. }
    { done. }
    exists f. split; [exact E|done].
  - unfold build_kcp_ack. rewrite guard_pass by lia.
    edestruct (built_segment (mkSegment (Z.land c 0xFFFFFFFF) KCP_ACK 0 wnd (Z.land ts 0xFFFFFFFF)
      (Z.land sn 0xFFFFFFFF) (Z.land una 0xFFFFFFFF) [])) as (f & E & ?).
    { unfold segment_ok; simpl; split_and!; done || lia. }
    { done. }
    exists f. split; [|done]. rewrite <-E. cbn [conv command fragment window timestamp sequence unacknowledged body].
    change (len []) with 0. destruct (kcp_header_pack _ _ _ _ _ _ _ _); [|done]. bind_simpl. by rewrite app_nil_r.
  - unfold build_window_report. rewrite guard_pass by (simpl; lia).
    edestruct (built_segment (mkSegment (Z.land c 0xFFFFFFFF) KCP_WINS 0 wnd 0 0 (Z.land una 0xFFFFFFFF) []))
      as (f & E & ?).
    { unfold segment_ok; simpl; split_and!; done || lia. }
    { done. }
    exists f. split; [|done]. rewrite <-E. cbn [conv command fragment window timestamp sequence unacknowledged body].
    change (len []) with 0. destruct (kcp_header_pack _ _ _ _ _ _ _ _); [|done]. bind_simpl. by rewrite app_nil_r.
Qed.


Definition sample_meter : bytes :=
  match build_media_meter_request 0 11 22 33 44 55 (Some 66) with Ok f => f | Raise _ => [] end.

(** C32: what a builder sends is what a parser reads. The three KCP builders
    produce frames that parse to the one segment they describe, whatever the
    (masked) numbers, for every body that fits; a meter request parses to its
    masked fields, and the acknowledgement of any accepted camera request to a
    reply of kind 2 on the same link with source and destination exchanged, the
    same sequence and channel and all eight timestamp bytes. *)
Theorem media_builders_parsed :
  (∀ now c sn b ts una wnd,
     bytes_ok b → len b ≤ MTP_MAX_FRAME_SIZE - 30 → 0 ≤ wnd < 2 ^ 16 →
     (∃ f, build_kcp_push now c sn b (Some ts) una wnd = Ok f ∧
        parse_kcp_segments f = Ok [mkSegment (Z.land c 0xFFFFFFFF) KCP_PUSH 0 wnd (Z.land ts 0xFFFFFFFF)
          (Z.land sn 0xFFFFFFFF) (Z.land una 0xFFFFFFFF) b]) ∧
     (∃ f, build_kcp_ack c sn ts una wnd = Ok f ∧
        parse_kcp_segments f = Ok [mkSegment (Z.land c 0xFFFFFFFF) KCP_ACK 0 wnd (Z.land ts 0xFFFFFFFF)
          (Z.land sn 0xFFFFFFFF) (Z.land una 0xFFFFFFFF) []]) ∧
     (∃ f, build_window_report (Z.land c 0xFFFFFFFF) (Z.land una 0xFFFFFFFF) wnd = Ok f ∧
        parse_kcp_segments f = Ok [mkSegment (Z.land c 0xFFFFFFFF) KCP_WINS 0 wnd 0 0 (Z.land una 0xFFFFFFFF) []])) ∧
  (∀ now access device link call seq ts,
     ∃ g, build_media_meter_request now access device link call seq (Some ts) = Ok g ∧
      parse_media_meter g = Ok (Some (mkMeter 1 (Z.land link 0xFFFFFFFF) 8
        (Z.land access 0xFFFFFFFFFFFFFFFF) (Z.land device 0xFFFFFFFFFFFFFFFF) (Z.land seq 0xFFFFFFFF)
        (Z.land ts 0xFFFFFFFF) 4 72 1 (Some (Z.land call 0xFFFFFFFF))))) ∧
  (∀ f m, bytes_ok f → parse_media_meter f = Ok (Some m) → kind m = 1 →
     ∃ a, build_media_meter_ack f = Ok a ∧ slice 38 46 a = slice 38 46 f ∧
      parse_media_meter a = Ok (Some (mkMeter 2 (link_id m) 0 (destination_id m) (source_id m)
        (m_sequence m) (m_timestamp m) (channel_type m) 68 0 None))).
Proof. split_and!; [apply kcp_builders_parsed|apply meter_request_parsed|apply meter_ack_parsed]. Qed.

Lemma media_builders_parsed_witness :
  (∃ f, build_kcp_ack 5 6 7 8 256 = Ok f ∧ parse_kcp_segments f = Ok [mkSegment 5 KCP_ACK 0 256 7 6 8 []]) ∧
  (∃ a, build_media_meter_ack sample_meter = Ok a ∧ slice 38 46 a = slice 38 46 sample_meter ∧
    parse_media_meter a = Ok (Some (mkMeter 2 33 0 22 11 55 66 4 68 0 None))).
Proof.
  destruct media_builders_parsed as (H1 & _ & H3). split.
  - apply (H1 0 5 6 [1] 7 8 256); [bytes_concrete|vm_compute; discriminate|lia].
  - apply (H3 sample_meter (mkMeter 1 33 8 11 22 55 66 4 72 1 (Some 44)));
      [bytes_concrete|vm_compute; reflexivity|reflexivity].
Defined.

(** ** The AV-session bodies *)

Lemma av_control_body call action :
  ∃ b, build_av_control call action = Ok b ∧ len b = 76 ∧
    slice 0 4 b = [3; 0; 0x4C; 0] ∧ slice 4 8 b = digits 256 4 (Z.land call 0xFFFFFFFF) ∧
    slice 8 12 b = digits 256 4 (Z.land action 0xFFFFFFFF) ∧ slice 64 68 b = digits 256 4 9.
Proof.
  unfold build_av_control. cbv zeta. repeat build_step. eexists. split; [reflexivity|].
  split; [unfold len; by len_simpl|]. split_and!; by fields.
Qed.

Lemma av_metadata_ok d t r : av_metadata d t = Ok r →
  length (snd r) = 32%nat ∧ (fst r = 1 ∨ fst r = SD_PLAYBACK_CONNECTION_TYPE).
Proof.
  unfold av_metadata. destruct d as [d|], t as [t|]; intros E; try discriminate E.
  - res_inv. simpl. unfold SD_PLAYBACK_CONNECTION_TYPE in *. split; [unfold len in *; lia|lia].
  - vm_compute in E. injection E as <-. simpl. auto.
Qed.

End MediaProtocol.
