(* ===== verification/KcpReceive.v ===== *)
(** * Bounded KCP message assembly

    Models [src/backend/app/drivers/yoosee/p2p/kcp_receive.py]: the receiver of
    one conversation, its byte and segment budgets, its assembly deadline and
    the reassembly of fragmented messages.  A method is a computation in a state
    and failure monad over the [receiver] record; a failure keeps the state it
    leaves behind, because the caller must find the receiver closed.  Times are
    integers in milliseconds; the clock readings of one call are its arguments.
    The drain loop runs with the number of pending segments as fuel. *)

From Stdlib Require Import ZArith Lia.
From stdpp Require Import fin_maps.
From S2P Require Import Prelude MediaProtocol.
Import MediaProtocol.

Module KcpReceive.

Definition _MASK : Z := 0xFFFFFFFF.
Definition DEFAULT_RECEIVE_SEGMENTS : Z := 128.

(** The exceptions a receiver raises: [ReceiveError], and its subclass with the
    bounded counters. *)
Inductive failure : Type :=
| ReceiveError (reason : string)
| KcpAssemblyTimeout (facts : list (string * Z))
| LoopOutOfFuel.

Record ReceiveResult := mkResult {
  acknowledge : bool;
  r_unacknowledged : Z;
  messages : list bytes
}.

Record receiver := mkReceiver {
  r_conv : Z;
  next_sequence : Z;
  max_segments : Z;
  max_bytes : Z;
  timeout : Z;
  _pending : gmap Z KcpSegment;
  _parts : list bytes;
  _remaining : option Z;
  buffered_bytes : Z;
  _since : option Z;
  _window_rejected : Z;
  _first_rejected : option Z;
  _last_rejected : Z;
  closed : bool
}.

Definition M (A : Type) : Type := receiver → receiver * (failure + A).
#[global] Instance M_ret : MRet M := λ A a r, (r, inr a).
#[global] Instance M_bind : MBind M := λ A B f m r,
  match m r with (r', inr a) => f a r' | (r', inl e) => (r', inl e) end.

Definition get {A} (f : receiver → A) : M A := λ r, (r, inr (f r)).
Definition modify (f : receiver → receiver) : M unit := λ r, (f r, inr ()).
Definition throw {A} (e : failure) : M A := λ r, (r, inl e).

(** Assignments to the buffer fields. *)
Definition set_pending p r := mkReceiver (r_conv r) (next_sequence r) (max_segments r) (max_bytes r) (timeout r)
  p (_parts r) (_remaining r) (buffered_bytes r) (_since r) (_window_rejected r) (_first_rejected r)
  (_last_rejected r) (closed r).
Definition set_buffered b r := mkReceiver (r_conv r) (next_sequence r) (max_segments r) (max_bytes r) (timeout r)
  (_pending r) (_parts r) (_remaining r) b (_since r) (_window_rejected r) (_first_rejected r)
  (_last_rejected r) (closed r).
Definition set_since s r := mkReceiver (r_conv r) (next_sequence r) (max_segments r) (max_bytes r) (timeout r)
  (_pending r) (_parts r) (_remaining r) (buffered_bytes r) s (_window_rejected r) (_first_rejected r)
  (_last_rejected r) (closed r).
Definition set_next n r := mkReceiver (r_conv r) n (max_segments r) (max_bytes r) (timeout r)
  (_pending r) (_parts r) (_remaining r) (buffered_bytes r) (_since r) (_window_rejected r) (_first_rejected r)
  (_last_rejected r) (closed r).
Definition set_parts p rem r := mkReceiver (r_conv r) (next_sequence r) (max_segments r) (max_bytes r) (timeout r)
  (_pending r) p rem (buffered_bytes r) (_since r) (_window_rejected r) (_first_rejected r)
  (_last_rejected r) (closed r).
Definition set_rejected w f l r := mkReceiver (r_conv r) (next_sequence r) (max_segments r) (max_bytes r) (timeout r)
  (_pending r) (_parts r) (_remaining r) (buffered_bytes r) (_since r) w f l (closed r).

(** [KcpReceiver.__init__]; [timeout] in milliseconds. *)
Definition init (conv initial_sequence max_segments max_bytes timeout : Z) : result receiver :=
  _ ← raise_if (existsb (λ n, negb ((0 <=? n) && (n <=? _MASK))) [conv; initial_sequence])
        (ValueError "invalid KCP conversation/initial sequence");
  _ ← raise_if (negb ((1 <=? max_segments) && (max_segments <=? 128))) (ValueError "invalid KCP segment budget");
  _ ← raise_if (negb ((1 <=? max_bytes) && (max_bytes <=? 1024 * 1024))) (ValueError "invalid KCP byte budget");
  _ ← raise_if (negb ((100 <=? timeout) && (timeout <=? 10000))) (ValueError "invalid KCP assembly timeout");
  Ok (mkReceiver conv initial_sequence max_segments max_bytes timeout ∅ [] None 0 None 0 None 0 false).

Definition close (r : receiver) : receiver :=
  mkReceiver (r_conv r) (next_sequence r) (max_segments r) (max_bytes r) (timeout r) ∅ [] None 0 None
    (_window_rejected r) (_first_rejected r) (_last_rejected r) true.

Definition available_window (r : receiver) : Z :=
  if closed r then 0 else max_segments r - Z.of_nat (size (_pending r)) - len (_parts r).

Definition _fail {A} (reason : string) : M A := _ ← modify close; throw (ReceiveError reason).

Definition _reject_future (sequence : Z) : M ReceiveResult :=
  _ ← modify (λ r, set_rejected (Z.min _MASK (_window_rejected r + 1))
        (match _first_rejected r with None => Some sequence | f => f end) sequence r);
  n ← get next_sequence;
  mret (mkResult false n []).

(** [min(((seq - next) & _MASK for seq in pending), default=0)] *)
Definition gap (r : receiver) : Z :=
  match (λ '(seq, _), Z.land (seq - next_sequence r) _MASK) <$> map_to_list (_pending r) with
  | [] => 0
  | d :: l => foldr Z.min d l
  end.

Definition timeout_facts (r : receiver) : list (string * Z) :=
  [("kcp_next_sequence"%string, next_sequence r); ("kcp_pending"%string, Z.of_nat (size (_pending r)));
   ("kcp_parts"%string, len (_parts r)); ("kcp_gap"%string, gap r);
   ("kcp_remaining"%string, match _remaining r with Some n => n + 1 | None => 0 end);
   ("kcp_bytes"%string, buffered_bytes r); ("kcp_window_rejected"%string, _window_rejected r);
   ("kcp_first_rejected"%string, default 0 (_first_rejected r));
   ("kcp_last_rejected"%string, _last_rejected r)].

Definition expire (now : Z) : M unit :=
  c ← get closed;
  if (c : bool) then throw (ReceiveError "KCP receiver is closed") else
  since ← get _since; limit ← get timeout;
  match since with
  | Some s =>
      if limit <=? now - s then
        facts ← get timeout_facts;
        _ ← modify close;
        throw (KcpAssemblyTimeout facts)
      else mret ()
  | None => mret ()
  end.

(** The body of the drain loop once [current] has been popped. *)
Definition take_segment (current : KcpSegment) (msgs : list bytes) : M (list bytes) :=
  remaining ← get _remaining;
  if match remaining with Some n => negb (fragment current =? n) | None => false end
  then _fail "invalid KCP fragment chain"
  else
    _ ← modify (λ r, set_parts (_parts r ++ [body current]) (Some (fragment current - 1)) r);
    _ ← modify (λ r, set_next (Z.land (next_sequence r + 1) _MASK) r);
    if fragment current =? 0 then
      parts ← get _parts;
      let message := concat parts in
      _ ← modify (λ r, set_parts [] None (set_buffered (buffered_bytes r - len message) r));
      mret (msgs ++ [message])
    else mret msgs.

(** [while self.next_sequence in self._pending] *)
Fixpoint drain (fuel : nat) (msgs : list bytes) : M (list bytes) :=
  p ← get _pending; n ← get next_sequence;
  match p !! n with
  | None => mret msgs
  | Some current =>
      match fuel with
      | O => throw LoopOutOfFuel
      | S fuel =>
          _ ← modify (set_pending (delete n p));
          msgs ← take_segment current msgs;
          drain fuel msgs
      end
  end.

(** Storing an accepted segment, draining, and the deadline update. *)
Definition accept (t_start t_restart : Z) (segment : KcpSegment) : M ReceiveResult :=
  _ ← modify (λ r, match _since r with None => set_since (Some t_start) r | Some _ => r end);
  _ ← modify (λ r, set_pending (<[sequence segment := segment]> (_pending r)) r);
  _ ← modify (λ r, set_buffered (buffered_bytes r + len (body segment)) r);
  fuel ← get (λ r, size (_pending r));
  msgs ← drain fuel [];
  _ ← modify (λ r,
        if bool_decide (_pending r = ∅) && bool_decide (_parts r = []) then set_since None r
        else if bool_decide (msgs ≠ []) then set_since (Some t_restart) r else r);
  n ← get next_sequence;
  mret (mkResult true n msgs).

Definition receive (t_expire t_start t_restart : Z) (segment : KcpSegment) : M ReceiveResult :=
  _ ← expire t_expire;
  r ← get id;
  if negb (conv segment =? r_conv r) || negb (command segment =? KCP_PUSH)
  then mret (mkResult false (next_sequence r) []) else
  if negb ((0 <=? sequence segment) && (sequence segment <=? _MASK))
     || negb ((0 <=? fragment segment) && (fragment segment <? max_segments r))
     || (MTP_MAX_FRAME_SIZE - Z.of_nat MTP_PREFIX_SIZE - Z.of_nat KCP_HEADER_size <? len (body segment))
  then _fail "invalid KCP receive segment" else
  let distance := Z.land (sequence segment - next_sequence r) _MASK in
  if 0x80000000 <=? distance then mret (mkResult true (next_sequence r) []) else
  if max_segments r <=? distance then _reject_future (sequence segment) else
  match _pending r !! sequence segment with
  | Some previous =>
      if negb (bool_decide (body previous = body segment)) || negb (fragment previous =? fragment segment)
      then _fail "conflicting KCP duplicate"
      else mret (mkResult true (next_sequence r) [])
  | None =>
      if negb (distance =? 0) && (max_segments r - 1 <=? Z.of_nat (size (_pending r)) + len (_parts r))
      then _reject_future (sequence segment) else
      if (max_segments r <=? Z.of_nat (size (_pending r)) + len (_parts r))
         || (max_bytes r <? buffered_bytes r + len (body segment))
      then _fail "KCP receive budget exceeded"
      else accept t_start t_restart segment
  end.

(** A session: the calls made so far and the messages they delivered, in order.
    A failed call delivers nothing. *)
Definition delivered (o : failure + ReceiveResult) : list bytes :=
  match o with inr res => messages res | inl _ => [] end.

Fixpoint run (r : receiver) (calls : list (Z * Z * Z * KcpSegment)) : receiver * list bytes :=
  match calls with
  | [] => (r, [])
  | (t1, t2, t3, s) :: calls =>
      let '(r, o) := receive t1 t2 t3 s r in
      let '(r, out) := run r calls in
      (r, delivered o ++ out)
  end.

(** ** Sequence numbers *)

(** [(a - b) & _MASK] *)
Definition dist (a b : Z) : Z := Z.land (a - b) _MASK.

Lemma dist_mod a b : dist a b = (a - b) mod 2 ^ 32.
Proof. apply land_mask32. Qed.

Lemma dist_zero a b : 0 ≤ a < 2 ^ 32 → 0 ≤ b < 2 ^ 32 → dist a b = 0 → a = b.
Proof.
  intros Ha Hb. rewrite dist_mod. intros E%Z.mod_divide; [|lia]. destruct E as [q E].
  assert (q = 0) by lia. subst. lia.
Qed.

Lemma dist_same a : dist a a = 0.
Proof. unfold dist. by rewrite Z.sub_diag. Qed.

(** After the receiver moves past [n], every other distance shrinks by one. *)
Lemma dist_next a n : 0 < dist a n → dist a (Z.land (n + 1) _MASK) = dist a n - 1.
Proof.
  rewrite !dist_mod. unfold _MASK. rewrite land_mask32. intros H.
  pose proof (Z.mod_pos_bound (a - n) (2 ^ 32) ltac:(lia)).
  rewrite <-(Z.mod_small ((a - n) mod 2 ^ 32 - 1) (2 ^ 32)) by lia.
  rewrite Zminus_mod_idemp_r, Zminus_mod_idemp_l. f_equal. lia.
Qed.

(** ** The buffer invariant *)

Definition pending_bytes (p : gmap Z KcpSegment) : Z := map_sum (λ s, len (body s)) p.

Lemma pending_bytes_insert p k s : p !! k = None →
  pending_bytes (<[k := s]> p) = len (body s) + pending_bytes p.
Proof. apply (map_sum_insert (λ s, len (body s))). Qed.

Lemma pending_bytes_delete p k s : p !! k = Some s →
  pending_bytes p = len (body s) + pending_bytes (delete k p).
Proof. apply (map_sum_delete (λ s, len (body s))). Qed.

Lemma pending_bytes_nonneg p : 0 ≤ pending_bytes p.
Proof. apply map_sum_nonneg. intros s. unfold len. lia. Qed.

(** What holds of an open receiver, also between two iterations of the drain
    loop: budgets, byte accounting, and pending segments inside the window. *)
Record core (r : receiver) : Prop := {
  core_open : closed r = false;
  core_budget : 1 ≤ max_segments r ≤ 128 ∧ 1 ≤ max_bytes r ≤ 1024 * 1024;
  core_next : 0 ≤ next_sequence r < 2 ^ 32;
  core_slots : Z.of_nat (size (_pending r)) + len (_parts r) ≤ max_segments r;
  core_bytes : buffered_bytes r = pending_bytes (_pending r) + len (concat (_parts r));
  core_limit : buffered_bytes r ≤ max_bytes r;
  core_pending : map_Forall (λ k s, sequence s = k ∧ 0 ≤ k < 2 ^ 32 ∧ 0 ≤ fragment s < max_segments r ∧
                   dist k (next_sequence r) < max_segments r) (_pending r);
  core_remaining : match _remaining r with
                   | None => _parts r = []
                   | Some n => _parts r ≠ [] ∧ 0 ≤ n < max_segments r
                   end
}.

(** What holds of a receiver between two calls: it is closed and empty, or open
    with its head missing and a deadline exactly when something is buffered. *)
Definition idle (r : receiver) : Prop :=
  core r ∧ _pending r !! next_sequence r = None ∧
  (_since r = None ↔ _pending r = ∅ ∧ _parts r = []).

Definition is_closed (r : receiver) : Prop :=
  closed r = true ∧ _pending r = ∅ ∧ _parts r = [] ∧ _remaining r = None ∧ buffered_bytes r = 0 ∧ _since r = None.

Lemma close_is_closed r : is_closed (close r).
Proof. done. Qed.

(** The chain test of one iteration. *)
Definition chain_ok (r : receiver) (s : KcpSegment) : bool :=
  match _remaining r with Some n => fragment s =? n | None => true end.

Lemma take_segment_spec s msgs r :
  take_segment s msgs r =
  if chain_ok r s then
    let r := set_next (Z.land (next_sequence r + 1) _MASK)
               (set_parts (_parts r ++ [body s]) (Some (fragment s - 1)) r) in
    if fragment s =? 0
    then (set_parts [] None (set_buffered (buffered_bytes r - len (concat (_parts r))) r),
          inr (msgs ++ [concat (_parts r)]))
    else (r, inr msgs)
  else (close r, inl (ReceiveError "invalid KCP fragment chain")).
Proof.
  unfold take_segment, chain_ok, get, modify, mbind, M_bind. cbn.
  destruct (_remaining r) as [n|]; [destruct (fragment s =? n)|]; cbn; try done; by destruct (fragment s =? 0).
Qed.

(** Induction over the drain loop: what every popped segment preserves holds at
    the end, where the head is missing, and the loop never runs out of fuel. *)
Lemma drain_ind (J : list bytes → receiver → Prop) (E : receiver → Prop) :
  (∀ msgs r s, J msgs r → _pending r !! next_sequence r = Some s →
     match take_segment s msgs (set_pending (delete (next_sequence r) (_pending r)) r) with
     | (r', inr msgs') => J msgs' r'
     | (r', inl e) => E r'
     end) →
  ∀ fuel msgs r, J msgs r → (size (_pending r) ≤ fuel)%nat →
  match drain fuel msgs r with
  | (r', inr msgs') => J msgs' r' ∧ _pending r' !! next_sequence r' = None
  | (r', inl e) => E r' ∧ e ≠ LoopOutOfFuel
  end.
Proof.
  intros Hstep. induction fuel as [|fuel IH]; intros msgs r HJ Hf.
  - assert (_pending r = ∅) as Ep by (apply map_size_empty_inv; lia).
    unfold drain, mbind, M_bind, get. rewrite Ep, lookup_empty. unfold mret, M_ret. by rewrite Ep, lookup_empty.
  - cbn [drain]. unfold mbind, M_bind, get, modify.
    destruct (_pending r !! next_sequence r) as [s|] eqn:Es; [|done].
    specialize (Hstep msgs r s HJ Es). pose proof (take_segment_spec s msgs) as Hspec.
    specialize (Hspec (set_pending (delete (next_sequence r) (_pending r)) r)).
    destruct (take_segment s msgs _) as [r' [e|msgs']].
    + split; [done|]. revert Hspec. destruct (chain_ok _ _); [destruct (_ =? _)|]; congruence.
    + apply IH; [done|].
      assert (_pending r' = delete (next_sequence r) (_pending r)) as ->.
      { revert Hspec. destruct (chain_ok _ _); [destruct (_ =? _)|]; intros [= -> _]; done. }
      rewrite map_size_delete_Some by eauto. lia.
Qed.

Lemma core_take msgs r s : core r → _pending r !! next_sequence r = Some s →
  match take_segment s msgs (set_pending (delete (next_sequence r) (_pending r)) r) with
  | (r', inr _) => core r' ∧ _since r' = _since r
  | (r', inl _) => is_closed r'
  end.
Proof.
  intros H Es. rewrite take_segment_spec. set (r0 := set_pending _ r).
  destruct (chain_ok r0 s) eqn:Ec; [|apply close_is_closed].
  destruct H as [Ho Hb Hn Hs Hby Hl Hp Hr]. pose proof (Hp _ _ Es) as (Hseq & Hk & Hfr & Hd).
  pose proof (map_size_delete_Some (next_sequence r) (_pending r) (mk_is_Some _ _ Es)) as Hsz.
  assert (size (_pending r) ≠ 0%nat) as Hne by (intros E0%map_size_empty_inv; by rewrite E0 in Es).
  rewrite (pending_bytes_delete _ _ _ Es) in Hby.
  assert (map_Forall (λ k s0, sequence s0 = k ∧ 0 ≤ k < 2 ^ 32 ∧ 0 ≤ fragment s0 < max_segments r ∧
    dist k (Z.land (next_sequence r + 1) _MASK) < max_segments r) (delete (next_sequence r) (_pending r))) as Hp'.
  { intros k s' [Hne' Hl']%lookup_delete_Some. destruct (Hp _ _ Hl') as (?&?&?&?). split_and!; try done; try lia.
    rewrite dist_next; [lia|]. assert (dist k (next_sequence r) ≠ 0) by (intros E; apply dist_zero in E; congruence || lia).
    assert (0 ≤ dist k (next_sequence r)) by (rewrite dist_mod; apply Z.mod_pos_bound; lia). lia. }
  pose proof (land_mask32 (next_sequence r + 1)) as Em.
  pose proof (Z.mod_pos_bound (next_sequence r + 1) (2 ^ 32) ltac:(lia)) as Hm. rewrite <-Em in Hm.
  assert (len (_parts r ++ [body s]) = len (_parts r) + 1) as Lp by (unfold len; rewrite length_app; simpl; lia).
  assert (len (concat (_parts r ++ [body s])) = len (concat (_parts r)) + len (body s)) as Lc.
  { unfold len. rewrite concat_app, length_app. simpl. rewrite app_nil_r. lia. }
  pose proof (pending_bytes_nonneg (delete (next_sequence r) (_pending r))).
  assert (0 ≤ len (concat (_parts r))) by (unfold len; lia). assert (0 ≤ len (body s)) by (unfold len; lia).
  assert (0 ≤ len (_parts r)) by (unfold len; lia).
  destruct (Z.eqb_spec (fragment s) 0); (split; [constructor|done]); simpl in *; try done; try lia.
  - change (len []) with 0. lia.
  - change (len []) with 0. rewrite Lc. lia.
  - split; [by destruct (_parts r)|lia].
Qed.

(** The receiver just before its drain loop. *)
Definition stored (t_start : Z) (s : KcpSegment) (r : receiver) : receiver :=
  let r := match _since r with None => set_since (Some t_start) r | Some _ => r end in
  set_buffered (buffered_bytes r + len (body s)) (set_pending (<[sequence s := s]> (_pending r)) r).

Definition finish (t_restart : Z) (msgs : list bytes) (r : receiver) : receiver :=
  if bool_decide (_pending r = ∅) && bool_decide (_parts r = []) then set_since None r
  else if bool_decide (msgs ≠ []) then set_since (Some t_restart) r else r.

Lemma accept_spec t1 t2 s r :
  accept t1 t2 s r =
  match drain (size (_pending (stored t1 s r))) [] (stored t1 s r) with
  | (r', inr msgs) => (finish t2 msgs r', inr (mkResult true (next_sequence r') msgs))
  | (r', inl e) => (r', inl e)
  end.
Proof.
  unfold accept, mbind, M_bind, get, modify, stored. cbv zeta.
  destruct (_since r); cbn [set_since set_pending set_buffered _pending buffered_bytes];
    destruct (drain _ _ _) as [r' [e|msgs]]; try done; unfold finish, mret, M_ret;
    destruct (bool_decide _ && bool_decide _); try done; by destruct (bool_decide _).
Qed.

Lemma core_stored t s r : core r → _pending r !! sequence s = None →
  0 ≤ sequence s < 2 ^ 32 → 0 ≤ fragment s < max_segments r →
  dist (sequence s) (next_sequence r) < max_segments r →
  Z.of_nat (size (_pending r)) + len (_parts r) < max_segments r →
  buffered_bytes r + len (body s) ≤ max_bytes r →
  core (stored t s r) ∧ _since (stored t s r) ≠ None.
Proof.
  intros [Ho Hb Hn Hs Hby Hl Hp Hr] Hnew Hseq Hfr Hd Hsz Hlim.
  pose proof (pending_bytes_insert _ _ s Hnew) as Hpb.
  assert (size (<[sequence s := s]> (_pending r)) = S (size (_pending r))) as Hsi by by rewrite map_size_insert_None.
  unfold stored. destruct (_since r) eqn:Esi; (split; [constructor|]); simpl; try done; try lia; try congruence;
    (apply map_Forall_insert_2; [split_and!; done || lia|done]).
Qed.

Lemma finish_same t msgs r :
  r_conv (finish t msgs r) = r_conv r ∧ next_sequence (finish t msgs r) = next_sequence r ∧
  _parts (finish t msgs r) = _parts r ∧ _pending (finish t msgs r) = _pending r.
Proof. unfold finish. destruct (bool_decide _ && bool_decide _); [done|]. by destruct (bool_decide _). Qed.

Lemma finish_idle t msgs r : core r → _since r ≠ None → _pending r !! next_sequence r = None →
  idle (finish t msgs r).
Proof.
  intros [Ho Hb Hn Hs Hby Hl Hp Hr] Hsi Hh. unfold finish, idle.
  assert (∀ s, core (set_since s r)) as Hc by (intros; by constructor).
  assert (core r) as Hc' by by constructor.
  destruct (bool_decide_reflect (_pending r = ∅)), (bool_decide_reflect (_parts r = [])); cbn [andb];
    [split_and!; try done; apply Hc|..];
    (destruct (bool_decide_reflect (msgs ≠ [])); split_and!; try done; try apply Hc; simpl; naive_solver).
Qed.

Lemma accept_idle t1 t2 s r : core r → _pending r !! sequence s = None →
  0 ≤ sequence s < 2 ^ 32 → 0 ≤ fragment s < max_segments r →
  dist (sequence s) (next_sequence r) < max_segments r →
  Z.of_nat (size (_pending r)) + len (_parts r) < max_segments r →
  buffered_bytes r + len (body s) ≤ max_bytes r →
  match accept t1 t2 s r with
  | (r', inr _) => idle r'
  | (r', inl e) => is_closed r' ∧ e ≠ LoopOutOfFuel
  end.
Proof.
  intros Hc Hn Hs Hf Hd Hz Hl. rewrite accept_spec.
  pose proof (core_stored t1 s r Hc Hn Hs Hf Hd Hz Hl) as Hst.
  pose proof (drain_ind (λ _ r, core r ∧ _since r ≠ None) is_closed) as Hdr.
  specialize (Hdr ltac:(intros msgs r0 s0 [Hc0 Hs0] Es; pose proof (core_take msgs r0 s0 Hc0 Es) as Ht;
    destruct (take_segment _ _ _) as [r' [e|m]]; [done|destruct Ht as [? ->]; done])).
  specialize (Hdr _ [] (stored t1 s r) Hst (le_n _)).
  destruct (drain _ _ _) as [r' [e|msgs]]; [done|]. destruct Hdr as [[??] ?]. by apply finish_idle.
Qed.

Lemma expire_spec now r :
  expire now r =
  if closed r then (r, inl (ReceiveError "KCP receiver is closed"))
  else if match _since r with Some s => timeout r <=? now - s | None => false end
       then (close r, inl (KcpAssemblyTimeout (timeout_facts r)))
       else (r, inr ()).
Proof.
  unfold expire, mbind, M_bind, get, modify. destruct (closed r); [done|].
  destruct (_since r); [|done]. by destruct (_ <=? _).
Qed.

(** The decisions of [receive] on an open receiver whose deadline has not
    passed: a transcript of its guards, without the monad. *)
Inductive decision : Type :=
| Ignore | Invalid | Old | Reject | Conflict | Again | Budget | Store.

Definition decide_segment (s : KcpSegment) (r : receiver) : decision :=
  if negb (conv s =? r_conv r) || negb (command s =? KCP_PUSH) then Ignore else
  if negb ((0 <=? sequence s) && (sequence s <=? _MASK))
     || negb ((0 <=? fragment s) && (fragment s <? max_segments r))
     || (MTP_MAX_FRAME_SIZE - Z.of_nat MTP_PREFIX_SIZE - Z.of_nat KCP_HEADER_size <? len (body s)) then Invalid else
  if 0x80000000 <=? dist (sequence s) (next_sequence r) then Old else
  if max_segments r <=? dist (sequence s) (next_sequence r) then Reject else
  match _pending r !! sequence s with
  | Some p => if negb (bool_decide (body p = body s)) || negb (fragment p =? fragment s) then Conflict else Again
  | None =>
      if negb (dist (sequence s) (next_sequence r) =? 0)
         && (max_segments r - 1 <=? Z.of_nat (size (_pending r)) + len (_parts r)) then Reject else
      if (max_segments r <=? Z.of_nat (size (_pending r)) + len (_parts r))
         || (max_bytes r <? buffered_bytes r + len (body s)) then Budget else Store
  end.

Definition rejected (sequence : Z) (r : receiver) : receiver :=
  set_rejected (Z.min _MASK (_window_rejected r + 1))
    (match _first_rejected r with None => Some sequence | f => f end) sequence r.

Lemma receive_spec t1 t2 t3 s r : closed r = false →
  match _since r with Some s => timeout r <=? t1 - s | None => false end = false →
  receive t1 t2 t3 s r =
  match decide_segment s r with
  | Ignore => (r, inr (mkResult false (next_sequence r) []))
  | Invalid => (close r, inl (ReceiveError "invalid KCP receive segment"))
  | Old | Again => (r, inr (mkResult true (next_sequence r) []))
  | Reject => (rejected (sequence s) r, inr (mkResult false (next_sequence r) []))
  | Conflict => (close r, inl (ReceiveError "conflicting KCP duplicate"))
  | Budget => (close r, inl (ReceiveError "KCP receive budget exceeded"))
  | Store => accept t2 t3 s r
  end.
Proof.
  intros Hc Ht. unfold receive. unfold mbind at 1, M_bind at 1. rewrite expire_spec, Hc, Ht.
  unfold mbind, M_bind, get, decide_segment, dist. cbv zeta. cbn [id].
  repeat (case_match; simplify_eq; try done).
Qed.

(** The facts a stored segment satisfies. *)
Lemma store_facts s r : decide_segment s r = Store →
  conv s = r_conv r ∧ command s = KCP_PUSH ∧ 0 ≤ sequence s < 2 ^ 32 ∧ 0 ≤ fragment s < max_segments r ∧
  len (body s) ≤ 2017 ∧ dist (sequence s) (next_sequence r) < max_segments r ∧ _pending r !! sequence s = None ∧
  Z.of_nat (size (_pending r)) + len (_parts r) < max_segments r ∧
  buffered_bytes r + len (body s) ≤ max_bytes r.
Proof.
  unfold decide_segment, _MASK, MTP_MAX_FRAME_SIZE, MTP_PREFIX_SIZE, KCP_HEADER_size.
  repeat (case_match; try discriminate); intros _; split_and!; try done; lia.
Qed.

Lemma old_facts s r : decide_segment s r = Old →
  conv s = r_conv r ∧ command s = KCP_PUSH ∧ 2 ^ 31 ≤ dist (sequence s) (next_sequence r).
Proof. unfold decide_segment. repeat (case_match; try discriminate); intros _; lia. Qed.

Lemma again_facts s r : decide_segment s r = Again →
  conv s = r_conv r ∧ command s = KCP_PUSH ∧
  ∃ p, _pending r !! sequence s = Some p ∧ body p = body s ∧ fragment p = fragment s.
Proof.
  unfold decide_segment. repeat (case_match; try discriminate); intros _. split_and!; [lia..|].
  eexists. split; [done|].
  match goal with H : negb (bool_decide _) || _ = false |- _ => apply orb_false_elim in H as [Hbd%negb_false_iff ?] end.
  apply bool_decide_eq_true in Hbd. split; [done|lia].
Qed.

Definition valid (r : receiver) : Prop := idle r ∨ is_closed r.

Lemma rejected_idle n r : idle r → idle (rejected n r).
Proof. intros [[] []]. split; [by constructor|done]. Qed.

Lemma receive_valid t1 t2 t3 s r : valid r →
  match receive t1 t2 t3 s r with
  | (r', inr res) => idle r'
  | (r', inl e) => is_closed r' ∧ e ≠ LoopOutOfFuel
  end.
Proof.
  intros Hv. destruct (closed r) eqn:Hc.
  { unfold receive, mbind, M_bind. rewrite expire_spec, Hc. destruct Hv as [[[] _]|?]; [congruence|done]. }
  destruct Hv as [Hi|[? _]]; [|congruence].
  destruct (match _since r with Some s => timeout r <=? t1 - s | None => false end) eqn:Ht.
  { unfold receive, mbind, M_bind. by rewrite expire_spec, Hc, Ht. }
  rewrite receive_spec by done. destruct (decide_segment s r) eqn:Hd; try done; [by apply rejected_idle|].
  apply store_facts in Hd as (_&_&?&?&_&?&?&?&?). apply accept_idle; try done; apply Hi.
Qed.

Lemma store_near s r : decide_segment s r = Store → dist (sequence s) (next_sequence r) < 2 ^ 31.
Proof. unfold decide_segment. repeat (case_match; try discriminate); intros _; lia. Qed.

(** Every result reports the sequence number expected next. *)
Lemma receive_unacknowledged t1 t2 t3 s r :
  match receive t1 t2 t3 s r with
  | (r', inr res) => r_unacknowledged res = next_sequence r'
  | _ => True
  end.
Proof.
  destruct (closed r) eqn:Hc; [unfold receive, mbind, M_bind; by rewrite expire_spec, Hc|].
  destruct (match _since r with Some s => timeout r <=? t1 - s | None => false end) eqn:Ht;
    [unfold receive, mbind, M_bind; by rewrite expire_spec, Hc, Ht|].
  rewrite receive_spec by done. destruct (decide_segment s r); try done.
  rewrite accept_spec. destruct (drain _ _ _) as [r' [e|msgs]]; [done|].
  by destruct (finish_same t3 msgs r') as (_ & -> & _).
Qed.

(** ** Reassembly of a stream *)

(** What a stream of fragments means: the complete messages, in order, and the
    parts of the message under way. *)
Definition assemble_step (acc : list bytes * list bytes) (x : Z * bytes) : list bytes * list bytes :=
  let parts := acc.2 ++ [x.2] in
  if x.1 =? 0 then (acc.1 ++ [concat parts], []) else (acc.1, parts).
Definition assemble (l : list (Z * bytes)) : list bytes * list bytes := foldl assemble_step ([], []) l.

Lemma assemble_snoc l x : assemble (l ++ [x]) = assemble_step (assemble l) x.
Proof. unfold assemble. by rewrite foldl_app. Qed.

(** Nothing is lost between the messages and the parts. *)
Lemma assemble_concat l : concat (assemble l).1 ++ concat (assemble l).2 = concat (snd <$> l).
Proof.
  induction l as [|x l IH] using rev_ind; [done|]. rewrite assemble_snoc, fmap_app, concat_app, <-IH. unfold assemble_step.
  destruct (x.1 =? 0); cbn [fst snd]; rewrite ?concat_app; cbn [concat fmap list_fmap]; rewrite ?concat_app, ?app_nil_r, <-?app_assoc; cbn [concat]; by rewrite ?app_nil_r.
Qed.

(** The fragments of one message: a counter descending to zero. *)
Fixpoint fragments (parts : list bytes) : list (Z * bytes) :=
  match parts with
  | [] => []
  | p :: ps => (len ps, p) :: fragments ps
  end.

Section Stream.
(** The conversation, the sender's first sequence number and its stream of
    segments. *)
Context (c start : Z) (L : list (Z * bytes)).
Context (HL : len L ≤ 2 ^ 31).

Definition sequence_of (i : nat) : Z := (start + Z.of_nat i) mod 2 ^ 32.

(** A segment the sender put on the wire. *)
Definition sent (s : KcpSegment) : Prop :=
  ∃ i, L !! i = Some (fragment s, body s) ∧ sequence s = sequence_of i.

(** The receiver has consumed exactly the first [k] segments: the messages
    delivered are those complete among them, the parts kept are those of the
    message under way, and everything pending comes later in the stream. *)
Definition tracks (k : nat) (out : list bytes) (r : receiver) : Prop :=
  r_conv r = c ∧ (k ≤ length L)%nat ∧ next_sequence r = sequence_of k ∧ assemble (take k L) = (out, _parts r) ∧
  map_Forall (λ key s, ∃ i, (k ≤ i)%nat ∧ L !! i = Some (fragment s, body s) ∧ key = sequence_of i) (_pending r).

Lemma sequence_of_inj i j : (i ≤ length L)%nat → (j ≤ length L)%nat → sequence_of i = sequence_of j → i = j.
Proof.
  unfold sequence_of, len in *. intros Hi Hj E.
  assert ((Z.of_nat i - Z.of_nat j) mod 2 ^ 32 = 0) as [q D]%Z.mod_divide; [|lia|lia].
  replace (Z.of_nat i - Z.of_nat j) with (start + Z.of_nat i - (start + Z.of_nat j)) by lia.
  by rewrite Zminus_mod, E, Z.sub_diag.
Qed.

Lemma sequence_of_next k : Z.land (sequence_of k + 1) _MASK = sequence_of (S k).
Proof. unfold sequence_of, _MASK. rewrite land_mask32, Zplus_mod_idemp_l. f_equal. lia. Qed.

Lemma dist_sequence_of i k : dist (sequence_of i) (sequence_of k) = (Z.of_nat i - Z.of_nat k) mod 2 ^ 32.
Proof. rewrite dist_mod. unfold sequence_of. rewrite <-Zminus_mod. f_equal. lia. Qed.

Lemma take_tracks k out msgs r s : tracks k (out ++ msgs) r → _pending r !! next_sequence r = Some s →
  match take_segment s msgs (set_pending (delete (next_sequence r) (_pending r)) r) with
  | (r', inr msgs') => tracks (S k) (out ++ msgs') r' ∧ _pending r' = delete (next_sequence r) (_pending r)
  | (r', inl _) => is_closed r'
  end.
Proof.
  intros (Hcv & Hk & Hn & Ha & Hp) Es. rewrite take_segment_spec.
  destruct (chain_ok _ _); [|apply close_is_closed].
  destruct (Hp _ _ Es) as (i & Hi & Hl & Hkey). pose proof (lookup_lt_Some _ _ _ Hl) as Hlt.
  rewrite Hn in Hkey. apply sequence_of_inj in Hkey; [|lia..]. subst i.
  assert (assemble (take (S k) L) = assemble_step (out ++ msgs, _parts r) (fragment s, body s)) as Ha'.
  { by rewrite (take_S_r _ _ _ Hl), assemble_snoc, Ha. }
  assert (∀ r', r_conv r' = r_conv r → next_sequence r' = sequence_of (S k) → _pending r' = delete (next_sequence r) (_pending r) →
    ∀ o, assemble (take (S k) L) = (o, _parts r') → tracks (S k) o r' ∧ _pending r' = delete (next_sequence r) (_pending r)) as K.
  { intros r' Hc' Hn' Hp' o Ho. split; [|done]. split_and!; [congruence|lia|done|done|].
    rewrite Hp'. intros key s' [Hne Hs']%lookup_delete_Some. destruct (Hp _ _ Hs') as (i & ? & Hi' & ->).
    exists i. split_and!; try done. destruct (decide (i = k)) as [->|]; [congruence|lia]. }
  unfold assemble_step in Ha'. cbn [fst snd] in Ha'. cbv zeta. destruct (fragment s =? 0); apply K; try done;
    simpl; rewrite ?Hn, ?sequence_of_next, ?Ha', ?app_assoc; done.
Qed.

(** Storing the segment of index [i] keeps the receiver in step with the
    stream; afterwards that segment is consumed or still pending. *)
Lemma accept_tracks t1 t2 s r k out i : tracks k out r → _pending r !! sequence s = None →
  L !! i = Some (fragment s, body s) → sequence s = sequence_of i → (k ≤ i)%nat →
  match accept t1 t2 s r with
  | (r', inr res) => ∃ k', tracks k' (out ++ messages res) r' ∧ r_unacknowledged res = next_sequence r' ∧
      ((i < k')%nat ∨ _pending r' !! sequence s = Some s)
  | (r', inl _) => is_closed r'
  end.
Proof.
  intros (Hcv & Hk & Hn & Ha & Hp) Hnew Hl Hs Hi. rewrite accept_spec.
  pose (J := λ msgs r, ∃ k', tracks k' (out ++ msgs) r ∧ ((i < k')%nat ∨ _pending r !! sequence s = Some s)).
  assert (J [] (stored t1 s r)) as HJ.
  { exists k. unfold stored. split; [|right; destruct (_since r); apply lookup_insert_eq].
    rewrite app_nil_r. destruct (_since r); (split_and!; simpl; try done;
      (apply map_Forall_insert_2; [by exists i|done])). }
  pose proof (drain_ind J is_closed) as Hdr.
  specialize (Hdr ltac:(intros msgs r0 s0 (k0 & Ht0 & Hor) Es;
    pose proof (take_tracks k0 out msgs r0 s0 Ht0 Es) as Ht;
    destruct (take_segment _ _ _) as [r' [e|m]]; [done|];
    destruct Ht as [Ht Hp']; exists (S k0); split; [done|];
    destruct Hor as [?|Hor]; [left; lia|];
    destruct (decide (sequence s = next_sequence r0)) as [E|];
      [left; destruct Ht0 as (_ & Hk0 & Hn0 & _); rewrite Hs, Hn0 in E;
       apply sequence_of_inj in E; [lia|apply Nat.lt_le_incl, (lookup_lt_Some _ _ _ Hl)|done]
      |right; rewrite Hp', lookup_delete_ne by done; done])).
  specialize (Hdr _ [] (stored t1 s r) HJ (le_n _)).
  destruct (drain _ _ _) as [r' [e|msgs]]; [apply Hdr|]. destruct Hdr as [(k' & Ht & Hor) _].
  destruct (finish_same t2 msgs r') as (E1 & E2 & E3 & E4).
  exists k'. cbn [messages r_unacknowledged]. unfold tracks. rewrite E1, E2, E3, E4.
  split_and!; (apply Ht || done).
Qed.

(** Every call keeps an open receiver in step with the stream, and an
    acknowledged segment has been consumed or is retained. *)
Lemma receive_tracks t1 t2 t3 s r k out : valid r → tracks k out r ∨ is_closed r →
  (conv s = c → command s = KCP_PUSH → sent s) →
  match receive t1 t2 t3 s r with
  | (r', inr res) => ∃ k', tracks k' (out ++ messages res) r' ∧ r_unacknowledged res = next_sequence r' ∧
      (acknowledge res = true → ∃ i, sequence s = sequence_of i ∧ L !! i = Some (fragment s, body s) ∧
         ((i < k')%nat ∨ ∃ p, _pending r' !! sequence s = Some p ∧ body p = body s ∧ fragment p = fragment s))
  | (r', inl _) => is_closed r'
  end.
Proof.
  intros Hv Ht Hsent. destruct (closed r) eqn:Hc.
  { unfold receive, mbind, M_bind. rewrite expire_spec, Hc. destruct Hv as [[[] _]|?]; [congruence|done]. }
  destruct Ht as [Ht|[? _]]; [|congruence].
  destruct (match _since r with Some s => timeout r <=? t1 - s | None => false end) eqn:Hex.
  { unfold receive, mbind, M_bind. by rewrite expire_spec, Hc, Hex. }
  rewrite receive_spec by done. destruct Ht as (Hcv & Hk & Hn & Ha & Hp).
  assert (∀ r', r_conv r' = r_conv r → next_sequence r' = next_sequence r → _parts r' = _parts r → _pending r' = _pending r →
    tracks k (out ++ []) r') as Hsame.
  { intros r' E0 E1 E2 E3. rewrite app_nil_r. unfold tracks. by rewrite E0, E1, E2, E3. }
  destruct (decide_segment s r) eqn:Hd; try apply close_is_closed;
    try (exists k; split; [by apply Hsame|]; split; [done|]; intros Hack; try discriminate Hack).
  - (* already consumed *)
    apply old_facts in Hd as (Hcs & Hcm & Hd). destruct (Hsent ltac:(congruence) Hcm) as (i & Hl & Hs).
    exists i. split_and!; [done|done|]. left. pose proof (lookup_lt_Some _ _ _ Hl). unfold len in HL.
    destruct (decide (i < k)%nat); [done|]. rewrite Hs, Hn, dist_sequence_of, Z.mod_small in Hd by lia. lia.
  - (* a duplicate of a pending segment *)
    apply again_facts in Hd as (Hcs & Hcm & p & Hd). destruct (Hsent ltac:(congruence) Hcm) as (i & Hl & Hs).
    exists i. split_and!; [done|done|]. right. by exists p.
  - pose proof (store_facts _ _ Hd) as (Hcs & Hcm & Hsq & Hfr & _ & Hdi & Hnew & _).
    destruct (Hsent ltac:(congruence) Hcm) as (i & Hl & Hs). pose proof (lookup_lt_Some _ _ _ Hl).
    assert (k ≤ i)%nat as Hi.
    { destruct (decide (k ≤ i)%nat) as [|Hlt]; [done|exfalso]. rewrite Hs, Hn, dist_sequence_of in Hdi.
      rewrite <-(Z.mod_add _ 1), Z.mod_small in Hdi by (unfold len in HL; lia).
      pose proof (store_near s r Hd) as Hnear. rewrite Hs, Hn, dist_sequence_of in Hnear.
      rewrite <-(Z.mod_add _ 1), Z.mod_small in Hnear by (unfold len in HL; lia). unfold len in HL. lia. }
    pose proof (accept_tracks t2 t3 s r k out i ltac:(done) Hnew Hl Hs Hi) as Hacc.
    destruct (accept _ _ _ _) as [r' [e|res]]; [done|]. destruct Hacc as (k' & ? & ? & Hor).
    exists k'. split_and!; try done. intros _. exists i. split_and!; try done. destruct Hor; eauto.
Qed.

Lemma run_closed calls r : is_closed r → run r calls = (r, []).
Proof.
  intros [Hc Hr]. induction calls as [|[[[t1 t2] t3] s] calls IH]; [done|]. cbn [run].
  unfold receive, mbind, M_bind. rewrite expire_spec, Hc. by rewrite IH.
Qed.

Lemma run_tracks calls : ∀ r k out, idle r → tracks k out r →
  Forall (λ '(_, s), conv s = c → command s = KCP_PUSH → sent s) calls →
  ∃ k', (k' ≤ length L)%nat ∧ out ++ (run r calls).2 = (assemble (take k' L)).1 ∧
    (is_closed (run r calls).1 ∨ idle (run r calls).1 ∧ tracks k' (out ++ (run r calls).2) (run r calls).1).
Proof.
  induction calls as [|[[[t1 t2] t3] s] calls IH]; intros r k out Hi Ht Hs.
  { exists k. pose proof Ht as (_&?&_&Ha&_). rewrite Ha. simpl. rewrite app_nil_r. auto. }
  apply Forall_cons_iff in Hs as [Hs1 Hs]. cbn [run].
  pose proof (receive_tracks t1 t2 t3 s r k out (or_introl Hi) (or_introl Ht) Hs1) as Hrt.
  pose proof (receive_valid t1 t2 t3 s r (or_introl Hi)) as Hrv.
  destruct (receive t1 t2 t3 s r) as [r' [e|res]].
  - rewrite run_closed by done. exists k. destruct Ht as (_&?&_&Ha&_). rewrite Ha. simpl.
    rewrite app_nil_r. auto.
  - destruct Hrt as (k' & Ht' & _). destruct (IH r' k' (out ++ messages res) Hrv Ht' Hs) as (k2 & ? & E & HE).
    exists k2. split; [done|]. destruct (run r' calls) as [r2 o2]. simpl in *. by rewrite app_assoc.
Qed.

End Stream.

Lemma init_idle conv sn ms mb t r : init conv sn ms mb t = Ok r →
  idle r ∧ r_conv r = conv ∧ next_sequence r = sn ∧ 0 ≤ sn < 2 ^ 32 ∧ _pending r = ∅ ∧ _parts r = [].
Proof.
  unfold init, _MASK. intros E. apply bind_Ok in E as (? & G1%raise_if_Ok & E).
  apply bind_Ok in E as (? & G2%raise_if_Ok & E). apply bind_Ok in E as (? & G3%raise_if_Ok & E).
  apply bind_Ok in E as (? & G4%raise_if_Ok & E). injection E as <-. cbn [existsb] in G1.
  split_and!; try done; try lia. split; [constructor|split]; cbn -[size]; try done; try lia.
  rewrite map_size_empty. change (len []) with 0. lia.
Qed.

Lemma tracks_init conv sn ms mb t r L : init conv sn ms mb t = Ok r → tracks conv sn L 0 [] r.
Proof.
  intros (_ & Hc & Hn & Hb & Hp & Hpa)%init_idle. split_and!; try done; try lia.
  - rewrite Hn. unfold sequence_of. rewrite Z.add_0_r, Z.mod_small; done.
  - by rewrite Hpa.
  - rewrite Hp. apply map_Forall_empty.
Qed.

(** ** Messages and their fragments *)

Lemma fold_fragments ps out parts : ps ≠ [] →
  foldl assemble_step (out, parts) (fragments ps) = (out ++ [concat (parts ++ ps)], []).
Proof.
  revert parts. induction ps as [|p ps IH]; intros parts Hne; [done|]. cbn [fragments foldl].
  unfold assemble_step at 2. cbn [fst snd]. destruct ps as [|q ps]; [done|].
  destruct (Z.eqb_spec (len (q :: ps)) 0); [len_solve|]. rewrite IH by done. by rewrite <-app_assoc.
Qed.

Lemma fold_fragments_part j ps out parts : (j < length ps)%nat →
  (foldl assemble_step (out, parts) (take j (fragments ps))).1 = out.
Proof.
  revert j parts. induction ps as [|p ps IH]; intros j parts Hj; [simpl in Hj; lia|].
  destruct j as [|j]; [done|]. cbn [fragments take foldl]. unfold assemble_step at 2. cbn [fst snd].
  simpl in Hj. destruct (Z.eqb_spec (len ps) 0); [len_solve|]. apply IH. lia.
Qed.

Lemma length_fragments ps : length (fragments ps) = length ps.
Proof. induction ps as [|p ps IH]; simpl; congruence. Qed.

Lemma fold_messages (ms : list (list bytes)) : ∀ (k : nat) (out : list bytes), Forall (λ m, m ≠ []) ms →
  ∃ d, d `prefix_of` (@concat Z <$> ms) ∧
    (foldl assemble_step (out, []) (take k (concat (fragments <$> ms)))).1 = out ++ d.
Proof.
  induction ms as [|m ms IH]; intros k out Hms.
  { exists []. rewrite app_nil_r. split; [apply prefix_nil|by destruct k]. }
  apply Forall_cons_iff in Hms as [Hm Hms]. cbn [fmap list_fmap concat].
  destruct (decide (k < length m)%nat).
  - exists []. rewrite app_nil_r. split; [apply prefix_nil|].
    rewrite take_app_le by (rewrite length_fragments; lia). by apply fold_fragments_part.
  - rewrite take_app_ge by (rewrite length_fragments; lia). rewrite foldl_app, fold_fragments by done.
    destruct (IH (k - length (fragments m))%nat (out ++ [concat m]) Hms) as (d & Hd & E).
    exists (concat m :: d). split; [by apply prefix_cons|]. rewrite app_nil_l, E. by rewrite <-app_assoc.
Qed.

(** ** Properties *)

(** C22: every call keeps a receiver valid: closed and empty, or open with
    its buffered segments and bytes accounted for exactly and within both
    budgets, every pending segment inside the window and the head missing, and a
    deadline running exactly when something is buffered.  A failure always
    leaves the receiver closed and empty, and the drain loop always terminates
    within its fuel. *)
Theorem receive_preserves_valid t1 t2 t3 s r : valid r →
  match receive t1 t2 t3 s r with
  | (r', inr res) => valid r' ∧ r_unacknowledged res = next_sequence r' ∧ closed r' = false ∧
      0 ≤ available_window r' ≤ max_segments r' ∧ 0 ≤ buffered_bytes r' ≤ max_bytes r'
  | (r', inl e) => is_closed r' ∧ e ≠ LoopOutOfFuel
  end.
Proof.
  intros Hv. pose proof (receive_valid t1 t2 t3 s r Hv) as H.
  pose proof (receive_unacknowledged t1 t2 t3 s r) as Hu.
  destruct (receive t1 t2 t3 s r) as [r' [e|res]]; [done|]. split; [by left|]. split; [done|].
  destruct H as [[Ho Hb Hn Hs Hby Hl Hp Hr] _]. unfold available_window. rewrite Ho.
  pose proof (pending_bytes_nonneg (_pending r')). unfold len in *. split_and!; done || lia.
Qed.

Definition sample_receiver : receiver :=
  mkReceiver 9 7 4 1000 2000 ∅ [] None 0 None 0 None 0 false.
Definition sample_push (sn frg : Z) (b : bytes) : KcpSegment := mkSegment 9 KCP_PUSH frg 128 0 sn 0 b.

Lemma sample_receiver_valid : valid sample_receiver.
Proof.
  left. apply (init_idle 9 7 4 1000 2000). reflexivity.
Qed.

Lemma receive_preserves_valid_witness :
  ∃ r' res, receive 0 0 0 (sample_push 8 0 [5]) sample_receiver = (r', inr res) ∧ valid r' ∧
    0 ≤ available_window r' ≤ max_segments r'.
Proof.
  pose proof (receive_preserves_valid 0 0 0 (sample_push 8 0 [5]) sample_receiver sample_receiver_valid) as H.
  destruct (receive 0 0 0 (sample_push 8 0 [5]) sample_receiver) as [r' [e|res]] eqn:E.
  - vm_compute in E. discriminate E.
  - exists r', res. destruct H as (?&_&_&?&_). split_and!; done || lia.
Defined.

(** C7: in-order, exactly-once reassembly.  Whatever order the sender's
    segments arrive in, with duplicates, losses, foreign conversations and
    arbitrary timing, the messages delivered by a receiver are a prefix of the
    messages the sender split into fragments: none is altered, repeated,
    reordered or delivered in part. *)
Theorem receive_reassembles conv sn ms mb t r sent_messages calls :
  init conv sn ms mb t = Ok r → Forall (λ m, m ≠ []) sent_messages →
  len (concat (fragments <$> sent_messages)) ≤ 2 ^ 31 →
  Forall (λ '(_, s), MediaProtocol.conv s = conv → command s = KCP_PUSH →
            sent sn (concat (fragments <$> sent_messages)) s) calls →
  (run r calls).2 `prefix_of` (@concat Z <$> sent_messages).
Proof.
  intros Hi Hne HL Hs. set (L := concat (fragments <$> sent_messages)) in *.
  destruct (run_tracks conv sn L HL calls r 0 []) as (k & Hk & E & _);
    [apply (init_idle _ _ _ _ _ _ Hi)|by eapply tracks_init|done|].
  destruct (fold_messages sent_messages k [] Hne) as (d & Hd & Ed).
  simpl in E. rewrite E. unfold assemble. fold L in Ed. by rewrite Ed.
Qed.

Definition sample_messages : list (list bytes) := [[[1]; [2]]; [[3]]].

Lemma receive_reassembles_witness :
  (run sample_receiver [(0, 0, 0, sample_push 8 0 [2]); (0, 0, 0, sample_push 8 0 [2]);
     (0, 0, 0, sample_push 7 1 [1]); (0, 0, 0, sample_push 9 0 [3])]).2 = [[1; 2]; [3]] ∧
  [[1; 2]; [3]] `prefix_of` (@concat Z <$> sample_messages).
Proof.
  set (calls := [(0, 0, 0, sample_push 8 0 [2]); (0, 0, 0, sample_push 8 0 [2]);
     (0, 0, 0, sample_push 7 1 [1]); (0, 0, 0, sample_push 9 0 [3])]).
  assert ((run sample_receiver calls).2 = [[1; 2]; [3]]) as E by (vm_compute; reflexivity).
  split; [exact E|]. rewrite <-E.
  apply (receive_reassembles 9 7 4 1000 2000 sample_receiver sample_messages calls).
  - reflexivity.
  - repeat constructor; discriminate.
  - vm_compute. discriminate.
  - repeat (constructor; [intros _ _; (by exists 0%nat) || (by exists 1%nat) || (by exists 2%nat)|]); constructor.
Defined.

(** C23: an acknowledgement is a promise kept.  When a call acknowledges a
    segment of the stream, the receiver, which now expects the [k]th segment,
    has consumed exactly the first [k]: their complete messages are those
    delivered so far, the parts of the message under way are in the receiver,
    and together they are the payloads of these segments, byte for byte.  The
    segment acknowledged is one of them, or the receiver still holds it with its
    payload, to be consumed when the gap before it closes. *)
Theorem acknowledged_is_retained conv sn ms mb t r L calls t1 t2 t3 s r' res :
  init conv sn ms mb t = Ok r → len L ≤ 2 ^ 31 →
  Forall (λ '(_, s), MediaProtocol.conv s = conv → command s = KCP_PUSH → sent sn L s) (calls ++ [(t1, t2, t3, s)]) →
  receive t1 t2 t3 s (run r calls).1 = (r', inr res) → acknowledge res = true →
  ∃ k i, L !! i = Some (fragment s, body s) ∧ sequence s = sequence_of sn i ∧
    (k ≤ length L)%nat ∧ next_sequence r' = sequence_of sn k ∧ r_unacknowledged res = next_sequence r' ∧
    assemble (take k L) = ((run r calls).2 ++ messages res, _parts r') ∧
    concat ((run r calls).2 ++ messages res) ++ concat (_parts r') = concat (snd <$> take k L) ∧
    ((i < k)%nat ∨ (k ≤ i)%nat ∧ ∃ p, _pending r' !! sequence s = Some p ∧ body p = body s ∧ fragment p = fragment s).
Proof.
  intros Hi HL [Hs Hlast]%Forall_app Hr Hack. apply Forall_cons_iff in Hlast as [Hlast _].
  destruct (run_tracks conv sn L HL calls r 0 []) as (k & _ & _ & Ho);
    [apply (init_idle _ _ _ _ _ _ Hi)|by eapply tracks_init|done|].
  pose proof (receive_tracks conv sn L HL t1 t2 t3 s (run r calls).1 k ([] ++ (run r calls).2)) as Ht.
  rewrite Hr in Ht. destruct Ht as (k' & Ht & Hu & Ha); [destruct Ho as [?|[??]]; [by right|by left]|tauto|done|].
  destruct (Ha Hack) as (i & Hseq & Hl & Hor). exists k', i. pose proof Ht as (_&Hk&Hn&E&_).
  split_and!; try done.
  - rewrite <-(assemble_concat (take k' L)). by rewrite E.
  - destruct (decide (i < k')%nat) as [?|Hge]; [by left|]. destruct Hor as [?|?]; [by left|]. right. split; [lia|done].
Qed.

Lemma acknowledged_is_retained_witness :
  ∃ r' res k, receive 0 0 0 (sample_push 8 0 [2]) sample_receiver = (r', inr res) ∧
    assemble (take k [(1, [1]); (0, [2])]) = (messages res, _parts r') ∧ next_sequence r' = sequence_of 7 k.
Proof.
  destruct (receive 0 0 0 (sample_push 8 0 [2]) sample_receiver) as [r' [e|res]] eqn:E;
    [vm_compute in E; discriminate E|].
  destruct (acknowledged_is_retained 9 7 4 1000 2000 sample_receiver [(1, [1]); (0, [2])] [] 0 0 0
    (sample_push 8 0 [2]) r' res) as (k & i & _ & _ & _ & Hn & _ & Hk & _).
  - reflexivity.
  - vm_compute. discriminate.
  - constructor; [intros _ _; by exists 1%nat|constructor].
  - exact E.
  - vm_compute in E. by injection E as _ <-.
  - exists r', res, k. split; [reflexivity|]. split; [exact Hk|exact Hn].
Defined.

(** The comment of [receive] says that future packets never consume the last
    slot the missing head needs.  With a fragment already consumed they do: the
    four calls below are all acknowledged, the fifth is the missing head of a
    message that fits the budget, and it closes the receiver. *)
Example head_slot_not_reserved :
  let stream := [(3, [1]); (2, [2]); (1, [3]); (0, [4]); (0, [5])] in
  let seg i := match stream !! i with
               | Some (f, b) => sample_push (7 + Z.of_nat i) f b | None => sample_push 0 0 [] end in
  let r := (run sample_receiver [(0, 0, 0, seg 0%nat); (0, 0, 0, seg 3%nat); (0, 0, 0, seg 4%nat);
                                 (0, 0, 0, seg 1%nat)]).1 in
  closed r = false ∧ next_sequence r = 9 ∧
  (receive 0 0 0 (seg 2%nat) r).2 = inl (ReceiveError "KCP receive budget exceeded").
Proof. vm_compute. done. Qed.

End KcpReceive.
