(* ===== verification/StreamProtocol.v ===== *)
(** * StreamPipe framing of talk and live channels

    Models [src/backend/app/drivers/yoosee/p2p/stream_protocol.py]: the
    encrypted inner TLV, the built-in command body, the v1 user-data records,
    the audio and encoding headers and the v1 audio packet.  The wall clock
    ([time.time_ns() // 1000]) is the argument [now_us].  The record loop runs
    with the payload length as fuel; a record is at least eight bytes long. *)

From Stdlib Require Import ZArith Lia.
From S2P Require Import Prelude Rc5 GuteFrame.

Module StreamProtocol.

Definition V1_MAGIC : bytes := [0xFF; 0xFF; 0xFF; 0x88].
Definition MICROPHONE_STATE_CHANGE : Z := 0x32.

Record V1EncodingHeader := mkHeader {
  marker : Z; audio_codec : Z; audio_codec_option : Z; audio_channels : Z;
  audio_bit_width : Z; audio_sample_rate : Z; audio_frame_size : Z;
  video_codec : Z; video_frame_rate : Z; video_width : Z; video_height : Z
}.

Record BuiltinCommand := mkCommand {
  command : Z; flags : Z; timestamp : Z; payload : bytes
}.

(** The clear body before the block transform. *)
Definition tlv_body (payload : bytes) (inner_type : Z) (encrypt : bool) : result bytes :=
  if encrypt then
    let body := slice_set 0 2 [inner_type; 2] (zeros (4 + length payload)) in
    body ← pack_into 2 body 2 (len body);
    Ok (slice_set 4 (length body) payload body)
  else
    _ ← raise_if (len payload <? 4) (ValueError "unexpected inner TLV type");
    t ← index payload 0;
    _ ← raise_if (negb (t =? inner_type)) (ValueError "unexpected inner TLV type");
    n ← unpack_from 2 payload 2;
    _ ← raise_if (negb (n =? len payload)) (ValueError "inner TLV length mismatch");
    Ok payload.

Definition _crypt_tlv (payload cookie : bytes) (inner_type : Z) (encrypt : bool) : result bytes :=
  _ ← raise_if (negb (len cookie =? 8)) (ValueError "CALLING cookie must be eight bytes");
  body ← tlv_body payload inner_type encrypt;
  cipher ← Rc5.init cookie 6 32;
  let transform := GuteFrame.transform cipher encrypt in
  body ← foldM (inplace_step 4 transform) body (seq 0 (Z.to_nat ((len body - 4) / 8)));
  Ok (if encrypt then body else drop 4 body).

Definition encrypt_command_tlv (payload cookie : bytes) : result bytes := _crypt_tlv payload cookie 2 true.
Definition decrypt_command_tlv (frame cookie : bytes) : result bytes := _crypt_tlv frame cookie 2 false.
Definition encrypt_media_tlv (payload cookie : bytes) : result bytes := _crypt_tlv payload cookie 4 true.
Definition decrypt_media_tlv (frame cookie : bytes) : result bytes := _crypt_tlv frame cookie 4 false.

Definition pack_legacy_capture_header (frame_rate : Z) : result bytes :=
  _ ← raise_if (negb ((1 <=? frame_rate) && (frame_rate <=? 0x3F)))
        (ValueError "legacy capture frame rate must be between 1 and 63");
  let frame := slice_set 0 4 V1_MAGIC (zeros 28) in
  let frame := slice_set 4 11 [0x00; 0x01; 0x05; 0x21; 0x01; 0x14; 0xf0] frame in
  set_byte frame 11 (Z.shiftl frame_rate 2).

Definition pack_legacy_talk_control (enabled : bool) : bytes :=
  V1_MAGIC ++ [0; 2; 5; Z.b2z enabled] ++ zeros 20.

Definition build_builtin_command (now_us command : Z) (payload : bytes) (flags : Z) (timestamp_us : option Z) :
    result bytes :=
  _ ← raise_if (negb ((0 <=? command) && (command <=? 0xFF))) (ValueError "command must fit in one byte");
  _ ← raise_if (negb ((0 <=? flags) && (flags <=? 0x03)))
        (ValueError "only the low two command flag bits are defined");
  let timestamp_us := match timestamp_us with Some t => t | None => now_us end in
  r ← pack 1 0; c ← pack 1 command; f ← pack 2 flags; t ← pack 4 (Z.land timestamp_us 0xFFFFFFFF);
  Ok ((r ++ c ++ f ++ t) ++ payload).

Definition parse_builtin_command (frame : bytes) : result BuiltinCommand :=
  _ ← raise_if (len frame <? 8) (ValueError "built-in command body is shorter than eight bytes");
  reserved ← unpack_from 1 frame 0; command ← unpack_from 1 frame 1;
  flags ← unpack_from 2 frame 2; timestamp ← unpack_from 4 frame 4;
  _ ← raise_if (negb (reserved =? 0)) (ValueError "unexpected built-in command reserved byte");
  _ ← raise_if (negb (Z.land flags (Z.lnot 0x03) =? 0)) (ValueError "unexpected built-in command flag bits");
  Ok (mkCommand command flags timestamp (drop 8 frame)).

Definition pack_v1_sequence_user_data (body : bytes) : result bytes :=
  _ ← raise_if (0xFFFF <? len body) (ValueError "v1 sequenced user-data body is too large");
  m ← pack 2 0x0300; l ← pack 2 (len body);
  Ok (V1_MAGIC ++ (m ++ l) ++ zeros 20 ++ body).

(** [any(data)] *)
Definition any (data : bytes) : bool := existsb (λ b, negb (b =? 0)) data.

Definition unpack_v1_sequence_user_data (frame : bytes) : result bytes :=
  _ ← raise_if ((len frame <? 28) || negb (bool_decide (slice 0 4 frame = V1_MAGIC)))
        (ValueError "not a v1 sequenced user-data frame");
  marker ← unpack_from 2 frame 4; length ← unpack_from 2 frame 6;
  _ ← raise_if (negb (marker =? 0x0300) || any (slice 8 28 frame))
        (ValueError "invalid v1 sequenced user-data header");
  _ ← raise_if (negb (len frame =? length + 28)) (ValueError "v1 sequenced user-data length mismatch");
  Ok (drop 28 frame).

Fixpoint frames_loop (fuel : nat) (payload : bytes) (cursor : nat) (frames : list bytes) :
    result (list bytes) :=
  if (cursor <? length payload)%nat then
    match fuel with
    | O => Raise OutOfFuel
    | S fuel =>
        _ ← raise_if ((length payload <? cursor + 8)%nat
              || negb (bool_decide (slice cursor (cursor + 4) payload = V1_MAGIC)))
              (ValueError "not a complete v1 user-data record");
        marker ← unpack_from 2 payload (cursor + 4); l ← unpack_from 2 payload (cursor + 6);
        _ ← raise_if (negb (marker =? 0x0200)) (ValueError "invalid v1 user-data header");
        let e := (cursor + 8 + Z.to_nat l)%nat in
        _ ← raise_if (length payload <? e)%nat (ValueError "truncated v1 user-data body");
        frames_loop fuel payload e (frames ++ [slice (cursor + 8) e payload])
    end
  else Ok frames.

Definition unpack_v1_user_data_frames (payload : bytes) : result (list bytes) :=
  frames ← frames_loop (length payload) payload 0 [];
  _ ← raise_if (length frames =? 0)%nat (ValueError "empty v1 user-data payload");
  Ok frames.

Definition pack_microphone_command (now_us : Z) (enabled : bool) (timestamp_us : option Z) : result bytes :=
  b ← build_builtin_command now_us MICROPHONE_STATE_CHANGE [Z.b2z enabled] 0 timestamp_us;
  pack_v1_sequence_user_data b.

Definition pack_v1_audio_encoding_header (header : V1EncodingHeader) : result bytes :=
  _ ← raise_if (negb ((audio_channels header =? 1) || (audio_channels header =? 2)))
        (ValueError "v1 encoding header supports mono or stereo audio");
  _ ← raise_if (negb ((8 <=? audio_bit_width header) && (audio_bit_width header <=? 0xFF))
                || negb (audio_bit_width header mod 8 =? 0))
        (ValueError "audio bit width must be an 8-bit multiple fitting u8");
  _ ← raise_if (negb ((1 <=? audio_sample_rate header) && (audio_sample_rate header <=? 0xFFFFFFFF)))
        (ValueError "intercom sample rate must fit in the native u32 field");
  _ ← raise_if (negb ((1 <=? audio_frame_size header) && (audio_frame_size header <=? 0xFFFF)))
        (ValueError "intercom frame size must fit in the native u16 field");
  let descriptor := zeros 20 in
  descriptor ← set_byte descriptor 1 2;
  descriptor ← pack_into 4 descriptor 4 (audio_sample_rate header);
  descriptor ← pack_into 2 descriptor 8 (audio_frame_size header);
  descriptor ← set_byte descriptor 10 (audio_channels header);
  descriptor ← set_byte descriptor 11 (audio_bit_width header);
  descriptor ← set_byte descriptor 12 (Z.land (audio_codec header) 0xFF);
  descriptor ← set_byte descriptor 13 (Z.land (audio_codec_option header) 0xFF);
  let frame := slice_set 0 4 V1_MAGIC (zeros 28) in
  frame ← pack_into 2 frame 4 0x0500;
  let serialized := [0; 1] ++ descriptor in
  Ok (slice_set 8 (length frame) (slice 0 20 serialized) frame).

Definition unpack_v1_encoding_header (frame : bytes) : result V1EncodingHeader :=
  _ ← raise_if (negb (len frame =? 28) || negb (bool_decide (slice 0 4 frame = V1_MAGIC)))
        (ValueError "not a complete v1 encoding header");
  marker ← unpack_from 2 frame 4;
  _ ← raise_if (negb (Z.shiftr marker 8 =? 1) || negb (bool_decide (slice 6 8 frame = [0; 0])))
        (ValueError "invalid v1 encoding-header marker");
  b10 ← index frame 10;
  _ ← raise_if (negb ((b10 =? 0) || (b10 =? 1))) (ValueError "invalid v1 audio channel encoding");
  b8 ← index frame 8; b9 ← index frame 9; b11 ← index frame 11;
  rate ← unpack_from 4 frame 12; size ← unpack_from 2 frame 16;
  b18 ← index frame 18; b19 ← index frame 19;
  w ← unpack_from 4 frame 20; h ← unpack_from 4 frame 24;
  Ok (mkHeader marker b8 b9 (b10 + 1) ((b11 + 1) * 8) rate size b18 b19 w h).

(** The two loops that write the frame lengths and the frames. *)
Definition write_length (s : bytes * nat) (frame : bytes) : result (bytes * nat) :=
  p ← pack_into 2 s.1 s.2 (len frame); Ok (p, (s.2 + 2)%nat).
Definition write_frame (s : bytes * nat) (frame : bytes) : bytes * nat :=
  (slice_set s.2 (s.2 + length frame) frame s.1, (s.2 + length frame)%nat).

Definition build_v1_audio_packet (frames : list bytes) (timestamp record_marker : Z) : result bytes :=
  _ ← raise_if (length frames =? 0)%nat (ValueError "at least one audio frame is required");
  _ ← raise_if (0xFFFF <? len frames) (ValueError "too many audio frames");
  _ ← raise_if (existsb (λ frame, (length frame =? 0)%nat || (0xFFFF <? len frame)) frames)
        (ValueError "audio frames must contain 1..65535 bytes");
  let packet := zeros (28 + 2 * length frames + sum_list (length <$> frames)) in
  let packet := slice_set 0 4 V1_MAGIC packet in
  packet ← pack_into 2 packet 4 (Z.land record_marker 0xFFFF);
  packet ← pack_into 2 packet 6 (len frames);
  packet ← pack_into 8 packet 20 (Z.land timestamp 0xFFFFFFFFFFFFFFFF);
  s ← foldM write_length (packet, 28%nat) frames;
  Ok (foldl write_frame s frames).1.

(** ** The inner TLV *)

Definition tlv_header (t n : Z) : bytes := [t; 2] ++ digits 256 2 n.

Lemma tlv_body_encrypt payload t : tlv_body payload t true =
  if decide (4 + len payload < 65536) then Ok (tlv_header t (4 + len payload) ++ payload) else Raise StructError.
Proof.
  unfold tlv_body. cbv zeta. change (slice_set 0 2 [t; 2] (zeros (4 + length payload)))
    with ([t; 2; 0; 0] ++ zeros (length payload)).
  assert (len ([t; 2; 0; 0] ++ zeros (length payload)) = 4 + len payload) as L by len_solve.
  rewrite L. unfold pack_into. eval_widths. case_decide as H; case_decide as H'.
  - rewrite bind_ret. unfold slice_set at 1. simpl. rewrite drop_ge by len_solve. by rewrite app_nil_r.
  - lia.
  - exfalso. apply H. split; [len_solve|]. unfold len in *. lia.
  - done.
Qed.

Section Tlv.
Context (cookie : bytes) (cipher : Rc5.RC5).
Context (Hcookie : len cookie = 8) (Hc : Rc5.init cookie 6 32 = Ok cipher) (Hw : Rc5.w cipher = 32).

Lemma crypt_loop_tlv e h pl : length h = 4%nat →
  foldM (inplace_step 4 (GuteFrame.transform cipher e)) (h ++ pl) (seq 0 (Z.to_nat ((len (h ++ pl) - 4) / 8))) =
  Ok (h ++ blocks (GuteFrame.T cipher e) (length pl / 8) pl).
Proof using Hw.
  intros Hh. replace (Z.to_nat ((len (h ++ pl) - 4) / 8)) with (length pl / 8)%nat.
  2:{ unfold len. rewrite length_app, Hh. apply Nat2Z.inj. rewrite Nat2Z.inj_div.
      rewrite Z2Nat.id by (apply Z.div_pos; lia). f_equal. lia. }
  apply inplace_loop; [intros; by apply GuteFrame.transform_ok|done|].
  apply Nat.Div0.mul_div_le.
Qed.

Lemma crypt_tlv_encrypt payload t wire :
  _crypt_tlv payload cookie t true = Ok wire ↔
  4 + len payload < 65536 ∧
  wire = tlv_header t (4 + len payload) ++ blocks (GuteFrame.T cipher true) (length payload / 8) payload.
Proof using Hc Hcookie Hw.
  unfold _crypt_tlv. rewrite guard_pass by (by rewrite Hcookie). rewrite tlv_body_encrypt.
  case_decide as Hl; [|naive_solver]. rewrite bind_ret, Hc, bind_ret. cbv zeta.
  rewrite crypt_loop_tlv by done. rewrite bind_ret. naive_solver.
Qed.

Lemma crypt_tlv_decrypt wire t payload : (4 ≤ length wire)%nat →
  _crypt_tlv wire cookie t false = Ok payload ↔
  wire !!! 0%nat = t ∧ undigits 256 (slice 2 4 wire) = len wire ∧
  payload = blocks (GuteFrame.T cipher false) (length (drop 4 wire) / 8) (drop 4 wire).
Proof using Hc Hcookie Hw.
  intros Hl. unfold _crypt_tlv. rewrite guard_pass by (by rewrite Hcookie). unfold tlv_body.
  rewrite guard_pass by (unfold len; lia). rewrite index_ok, bind_ret by lia.
  destruct (Z.eqb_spec (wire !!! 0%nat) t); [|simpl; naive_solver]. rewrite guard_pass by done.
  rewrite unpack_from_ok, bind_ret by lia. change (2 + 2)%nat with 4%nat.
  destruct (Z.eqb_spec (undigits 256 (slice 2 4 wire)) (len wire)); [|simpl; naive_solver].
  rewrite guard_pass by done. rewrite bind_ret, Hc, bind_ret. cbv zeta.
  rewrite <-(take_drop 4 wire) at 1 2. rewrite crypt_loop_tlv by len_solve. rewrite bind_ret.
  rewrite drop_app_length' by len_solve. naive_solver.
Qed.
End Tlv.

Lemma tlv_inverse payload wire cookie t :
  bytes_ok payload → bytes_ok wire → (4 ≤ length wire)%nat → wire !!! 1%nat = 2 →
  _crypt_tlv payload cookie t true = Ok wire ↔ _crypt_tlv wire cookie t false = Ok payload.
Proof.
  intros Hp Hwi Hl H1. destruct (decide (len cookie = 8)) as [Hk|Hk].
  2:{ unfold _crypt_tlv. destruct (Z.eqb_spec (len cookie) 8); [done|]. simpl. naive_solver. }
  destruct (GuteFrame.init32 cookie) as (cipher & Hc & Hw).
  rewrite (crypt_tlv_encrypt cookie cipher) by done. rewrite (crypt_tlv_decrypt cookie cipher) by done.
  split.
  - intros [Hlt ->]. destruct (GuteFrame.transform_blocks cipher true payload Hw Hp) as (_ & Lb & Ib).
    set (ct := blocks _ _ payload) in *. change (drop 4 (tlv_header t (4 + len payload) ++ ct)) with ct.
    rewrite Lb. split_and!; [done| |done]. change (slice 2 4 (tlv_header t (4 + len payload) ++ ct))
      with (digits 256 2 (4 + len payload)).
    rewrite le_decode_encode by (unfold len in *; eval_widths; lia). unfold len. rewrite length_app, Lb.
    change (length (tlv_header _ _)) with 4%nat. lia.
  - intros (H0 & Hf & ->). set (pl := drop 4 wire) in *.
    assert (bytes_ok pl) as Hpl by (unfold pl; auto with bytes).
    destruct (GuteFrame.transform_blocks cipher false pl Hw Hpl) as (_ & Lb & Ib). set (pt := blocks _ _ pl) in *.
    assert (length pl = length wire - 4)%nat as Lpl by (unfold pl; len_solve).
    assert (4 + len pt = len wire) as El by (unfold len; rewrite Lb; lia).
    pose proof (le_bound 2 (slice 2 4 wire) ltac:(auto with bytes) ltac:(len_solve)) as Hb. rewrite Hf in Hb.
    split; [eval_widths; lia|]. rewrite Lb, El. cbn [negb] in Ib. rewrite Ib.
    rewrite <-(take_drop 4 wire) at 1. fold pl. f_equal. unfold tlv_header. rewrite <-Hf.
    rewrite le_encode_decode by first [by auto with bytes|len_solve].
    destruct wire as [|a [|b [|c [|d k]]]]; simpl in Hl; try lia. cbn in H0, H1. by subst.
Qed.

(** ** Built-in commands and sequenced user data *)

Lemma builtin_roundtrip now cmd fl b ts : 0 ≤ cmd < 256 → 0 ≤ fl ≤ 3 →
  ∃ f, build_builtin_command now cmd b fl (Some ts) = Ok f ∧
    parse_builtin_command f = Ok (mkCommand cmd fl (Z.land ts 0xFFFFFFFF) b) ∧
    len f = 8 + len b ∧ (bytes_ok b → bytes_ok f).
Proof.
  intros Hc Hf. pose proof (land32_range ts) as Ht. unfold build_builtin_command.
  rewrite guard_pass by lia. rewrite guard_pass by lia. cbv zeta.
  rewrite !pack_ok by (eval_widths; lia). rewrite !bind_ret. eexists. split; [reflexivity|].
  set (h := digits 256 1 0 ++ _). assert (length h = 8%nat) as Lh by done.
  split; [|split; [unfold len; rewrite length_app; lia|]].
  2:{ intros. apply bytes_ok_app. split; [|done]. unfold h. rewrite !bytes_ok_app. auto 10 with bytes. }
  unfold parse_builtin_command. rewrite guard_pass by (unfold len; rewrite length_app; lia).
  rewrite (unpack_digits 1 _ 0 0), (unpack_digits 1 _ 1 cmd), (unpack_digits 2 _ 2 fl),
    (unpack_digits 4 _ 4 (Z.land ts 0xFFFFFFFF)) by (first [reflexivity|lia|eval_widths; lia]).
  rewrite !bind_ret. rewrite guard_pass by done. rewrite drop_app_length' by done.
  rewrite guard_pass; [done|].
  assert (fl = 0 ∨ fl = 1 ∨ fl = 2 ∨ fl = 3) as [->|[->|[->| ->]]] by lia; done.
Qed.

Lemma any_false l : any l = false ↔ Forall (λ b, b = 0) l.
Proof.
  unfold any. induction l as [|b l IH]; simpl; [done|]. rewrite orb_false_iff, IH, Forall_cons_iff.
  rewrite negb_false_iff, Z.eqb_eq. done.
Qed.

Lemma zeros_of l : Forall (λ b, b = 0) l → l = zeros (length l).
Proof. induction 1 as [|b l -> _ IH]; [done|]. unfold zeros in *. simpl. by rewrite <-IH. Qed.

(** The 28-byte header of a sequenced record. *)
Definition seq_frame (body : bytes) : bytes :=
  V1_MAGIC ++ (digits 256 2 0x0300 ++ digits 256 2 (len body)) ++ zeros 20 ++ body.

Lemma pack_sequence_spec body :
  pack_v1_sequence_user_data body =
  if decide (len body ≤ 0xFFFF) then Ok (seq_frame body)
  else Raise (ValueError "v1 sequenced user-data body is too large").
Proof.
  unfold pack_v1_sequence_user_data. case_decide.
  - rewrite guard_pass by lia. assert (0 ≤ len body) by (unfold len; lia).
    by rewrite !pack_ok by (eval_widths; lia).
  - by replace (0xFFFF <? len body) with true by lia.
Qed.

Lemma unpack_sequence_spec f body : bytes_ok f →
  unpack_v1_sequence_user_data f = Ok body ↔ len body ≤ 0xFFFF ∧ f = seq_frame body.
Proof.
  intros Hf. unfold unpack_v1_sequence_user_data. split.
  - intros E. apply bind_Ok in E as (? & G1%raise_if_Ok & E). apply orb_false_elim in G1 as [G1 G2].
    apply negb_false_iff, bool_decide_eq_true in G2.
    apply bind_Ok in E as (m & Em & E). apply bind_Ok in E as (l & El & E).
    apply bind_Ok in E as (? & G3%raise_if_Ok & E). apply orb_false_elim in G3 as [G3 G4%any_false%zeros_of].
    apply bind_Ok in E as (? & G5%raise_if_Ok & E). injection E as <-.
    assert (28 ≤ length f)%nat by (unfold len in G1; lia).
    destruct (unpack_from_field 2 f 4) as (m' & E1 & B1 & D1); [done|lia|]. rewrite Em in E1. injection E1 as <-.
    destruct (unpack_from_field 2 f 6) as (l' & E2 & B2 & D2); [done|lia|]. rewrite El in E2. injection E2 as <-.
    eval_widths. assert (len (drop 28 f) = l) as Ll by len_solve. split; [lia|].
    unfold seq_frame. rewrite Ll, D2. assert (m = 0x0300) as -> by lia. rewrite D1, <-G2.
    replace (zeros 20) with (slice 8 28 f) by (rewrite G4; f_equal; len_solve).
    rewrite (app_assoc (_ ++ _)), (app_assoc (slice 0 4 f)), <-!(app_assoc (slice 4 _ f)).
    change (4 + 2)%nat with 6%nat. change (6 + 2)%nat with 8%nat.
    rewrite !slice_concat by lia. by rewrite slice_drop_app by lia.
  - intros [Hl ->]. assert (0 ≤ len body) by (unfold len; lia).
    assert (len (seq_frame body) = len body + 28) as Lf by (unfold seq_frame, V1_MAGIC; len_solve).
    rewrite guard_pass.
    2:{ apply orb_false_iff. split; [lia|]. by rewrite bool_decide_eq_true_2. }
    rewrite (unpack_digits 2 _ 4 0x0300), (unpack_digits 2 _ 6 (len body)) by (first [reflexivity|lia|eval_widths; lia]).
    rewrite !bind_ret. rewrite guard_pass by reflexivity. rewrite guard_pass by lia. done.
Qed.

(** ** Concatenated user-data records *)

Definition record (body : bytes) : bytes := V1_MAGIC ++ digits 256 2 0x0200 ++ digits 256 2 (len body) ++ body.

Lemma frames_loop_sound p : bytes_ok p → ∀ fuel cursor acc, (cursor ≤ length p)%nat →
  (length p - cursor ≤ fuel)%nat →
  value_or (λ fs, ∃ new, fs = acc ++ new ∧ Forall (λ b, len b ≤ 0xFFFF) new ∧ concat (record <$> new) = drop cursor p)
    (frames_loop fuel p cursor acc).
Proof.
  intros Hp. induction fuel as [|fuel IH]; intros cursor acc Hc Hf; cbn [frames_loop];
    (destruct (Nat.ltb_spec cursor (length p)); [try lia|exists []; rewrite app_nil_r, drop_ge by lia; done]).
  apply value_or_raise_if. intros [G1 G2%negb_false_iff%bool_decide_eq_true]%orb_false_elim.
  destruct (unpack_from_field 2 p (cursor + 4)) as (m & -> & Bm & Dm); [done|lia|].
  destruct (unpack_from_field 2 p (cursor + 6)) as (l & -> & Bl & Dl); [done|lia|].
  rewrite !bind_ret. apply value_or_raise_if. intros Hm. cbv zeta. apply value_or_raise_if. intros He.
  eapply value_or_impl; [apply IH; lia|]. intros fs (new & -> & Hn & En). eexists (_ :: new).
  rewrite <-app_assoc. split; [reflexivity|].
  assert (len (slice (cursor + 8) (cursor + 8 + Z.to_nat l) p) = l) as Lb by (unfold len; rewrite length_slice; lia).
  eval_widths. split; [constructor; [lia|done]|]. rewrite fmap_cons. cbn [concat]. unfold record at 1.
  assert (m = 0x0200) as -> by lia. rewrite Lb, Dm, Dl, <-G2. rewrite En.
  rewrite <-!app_assoc, <-!Nat.add_assoc. cbn [Nat.add]. by rewrite !slice_drop_app by lia.
Qed.

Lemma frames_loop_complete fs : ∀ fuel pre acc, Forall (λ b, len b ≤ 0xFFFF) fs → (length fs ≤ fuel)%nat →
  frames_loop fuel (pre ++ concat (record <$> fs)) (length pre) acc = Ok (acc ++ fs).
Proof.
  induction fs as [|b fs IH]; intros fuel pre acc Hfs Hf.
  - simpl. rewrite !app_nil_r. destruct fuel; simpl; by rewrite Nat.ltb_irrefl.
  - apply Forall_cons_iff in Hfs as [Hb Hfs]. destruct fuel as [|fuel]; [simpl in Hf; lia|].
    rewrite fmap_cons. cbn [concat]. set (rest := concat _). assert (0 ≤ len b) by (unfold len; lia).
    assert (length (record b) = 8 + length b)%nat as Lr by done.
    assert (∀ k, slice (length pre) (length pre + k) (pre ++ record b ++ rest) = slice 0 k (record b ++ rest)) as Sl.
    { intros k. rewrite slice_app_r by lia. f_equal; lia. }
    cbn [frames_loop]. destruct (Nat.ltb_spec (length pre) (length (pre ++ record b ++ rest))); [|len_solve].
    rewrite guard_pass.
    2:{ rewrite Sl. apply orb_false_iff. split; [len_solve|]. by rewrite bool_decide_eq_true_2. }
    rewrite !unpack_from_skip.
    rewrite (unpack_digits 2 _ 4 0x0200), (unpack_digits 2 _ 6 (len b)) by (first [reflexivity|lia|eval_widths; lia]).
    rewrite !bind_ret. rewrite guard_pass by done. cbv zeta.
    replace (length pre + 8 + Z.to_nat (len b))%nat with (length (pre ++ record b)) by (unfold len; rewrite length_app; lia).
    rewrite guard_pass by len_solve.
    replace (slice (length pre + 8) (length (pre ++ record b)) (pre ++ record b ++ rest)) with b.
    2:{ symmetry. rewrite slice_app_r by lia. rewrite length_app.
        replace (length pre + 8 - length pre)%nat with 8%nat by lia.
        replace (length pre + length (record b) - length pre)%nat with (length (record b)) by lia.
        unfold slice. change (drop 8 (record b ++ rest)) with (b ++ rest). rewrite Lr.
        replace (8 + length b - 8)%nat with (length b) by lia. by rewrite take_app_length. }
    rewrite app_assoc, IH by (done || (simpl in Hf; lia)). by rewrite <-app_assoc.
Qed.

(** ** The audio packet *)

Definition lengths (fs : list bytes) : bytes := concat ((λ f, digits 256 2 (len f)) <$> fs).

Definition packet_header (count timestamp record_marker : Z) : bytes :=
  V1_MAGIC ++ digits 256 2 (Z.land record_marker 0xFFFF) ++ digits 256 2 count ++ zeros 12 ++
  digits 256 8 (Z.land timestamp 0xFFFFFFFFFFFFFFFF).

Lemma write_length_loop fs : ∀ (a : bytes) k, Forall (λ f, len f ≤ 0xFFFF) fs →
  foldM write_length (a ++ zeros (2 * length fs + k), length a) fs =
  Ok (a ++ lengths fs ++ zeros k, (length a + 2 * length fs)%nat).
Proof.
  induction fs as [|f fs IH]; intros a k Hfs; [simpl; by rewrite Nat.add_0_r|].
  apply Forall_cons_iff in Hfs as [Hf Hfs]. cbn [foldM].
  assert (∀ x c, write_length (x, c) f = (p ← pack_into 2 x c (len f); Ok (p, (c + 2)%nat))) as -> by done.
  assert (0 ≤ len f) by (unfold len; lia).
  replace (zeros (2 * length (f :: fs) + k)) with (zeros 2 ++ zeros (2 * length fs + k)).
  2:{ unfold zeros. rewrite <-replicate_add. f_equal. cbn [length]. lia. }
  rewrite pack_into_ok by (first [len_solve|eval_widths; lia]). rewrite !bind_ret.
  rewrite slice_set_mid by (reflexivity || lia || (len_simpl; lia)). rewrite app_assoc.
  replace (length a + 2)%nat with (length (a ++ digits 256 2 (len f))) by len_solve.
  rewrite IH by done. unfold lengths. rewrite fmap_cons. cbn [concat]. rewrite <-!app_assoc.
  do 2 f_equal. len_simpl. lia.
Qed.

Lemma write_frame_loop fs : ∀ (a : bytes), (foldl write_frame (a ++ zeros (sum_list (length <$> fs)), length a) fs).1 =
  a ++ concat fs.
Proof.
  induction fs as [|f fs IH]; intros a; [done|]. cbn [foldl].
  assert (∀ x c, write_frame (x, c) f = (slice_set c (c + length f) f x, (c + length f)%nat)) as -> by done.
  replace (zeros (sum_list (length <$> f :: fs))) with (zeros (length f) ++ zeros (sum_list (length <$> fs))).
  2:{ unfold zeros. by rewrite <-replicate_add. }
  rewrite slice_set_mid by (reflexivity || lia || (len_simpl; lia)). rewrite app_assoc.
  replace (length a + length f)%nat with (length (a ++ f)) by len_solve.
  rewrite IH. cbn [concat]. by rewrite <-app_assoc.
Qed.

Lemma audio_packet_spec fs ts mk : fs ≠ [] → len fs ≤ 0xFFFF → Forall (λ f, 0 < len f ≤ 0xFFFF) fs →
  build_v1_audio_packet fs ts mk = Ok (packet_header (len fs) ts mk ++ lengths fs ++ concat fs).
Proof.
  intros Hne Hl Hfs. unfold build_v1_audio_packet. rewrite guard_pass by (destruct fs; done).
  rewrite guard_pass by lia.
  rewrite guard_pass.
  2:{ induction Hfs as [|f fs' Hf Hfs IH]; [done|]. simpl. destruct fs' as [|g fs'].
      - simpl. unfold len in Hf |- *. lia.
      - rewrite IH; [unfold len in Hf |- *; lia|done|unfold len in Hl |- *; simpl in Hl |- *; lia]. }
  cbv zeta. rewrite <-Nat.add_assoc. set (m := (2 * length fs + sum_list (length <$> fs))%nat).
  change (slice_set 0 4 V1_MAGIC (zeros (28 + m))) with (V1_MAGIC ++ (zeros 24 ++ zeros m)).
  assert (0 ≤ len fs) by (unfold len; lia).
  pose proof (land16_range mk). pose proof (land64_range ts).
  rewrite pack_into_ok by (first [len_solve|field_range]). rewrite bind_ret.
  change (slice_set 4 (4 + 2) (digits 256 2 (Z.land mk 0xFFFF)) _)
    with ((V1_MAGIC ++ digits 256 2 (Z.land mk 0xFFFF)) ++ zeros 2 ++ (zeros 20 ++ zeros m)).
  rewrite pack_into_ok by (first [len_solve|eval_widths; lia]). rewrite bind_ret.
  rewrite slice_set_mid by (reflexivity || lia).
  change (zeros 20 ++ zeros m) with (zeros 12 ++ zeros 8 ++ zeros m). rewrite !app_assoc.
  rewrite <-(app_assoc _ (zeros 8)).
  match goal with |- context [pack_into 8 (?x ++ _)] => set (pre := x) end.
  assert (length pre = 20%nat) as Lpre by done.
  rewrite pack_into_ok by (first [len_solve|field_range]). rewrite bind_ret.
  rewrite slice_set_mid by (done || lia). rewrite app_assoc.
  set (h := pre ++ digits 256 8 _). assert (length h = 28%nat) as Lh by done.
  rewrite <-Lh. unfold m. rewrite write_length_loop by (eapply list.Forall_impl; [done|simpl; lia]).
  rewrite bind_ret. rewrite app_assoc. replace (length h + 2 * length fs)%nat with (length (h ++ lengths fs)).
  2:{ rewrite length_app. f_equal. unfold lengths. clear. induction fs; [done|]. rewrite fmap_cons. cbn [concat].
      rewrite length_app, IHfs. simpl. lia. }
  rewrite write_frame_loop. unfold packet_header, h, pre. by rewrite <-!app_assoc.
Qed.

(** ** Properties *)

(** C31: the user-data codecs.  A sequenced record unpacks to a body exactly
    when it is the packing of that body; a concatenation of command records
    unpacks to exactly its bodies, any payload either splits into records that
    re-encode to it byte for byte or raises [ValueError]; and the microphone
    switch reaches the parser as the command it was built from. *)
Theorem user_data_codecs f body p bodies now enabled ts :
  bytes_ok f → bytes_ok p → Forall (λ b, len b ≤ 0xFFFF) bodies → bodies ≠ [] →
  (unpack_v1_sequence_user_data f = Ok body ↔ pack_v1_sequence_user_data body = Ok f) ∧
  unpack_v1_user_data_frames (concat (record <$> bodies)) = Ok bodies ∧
  value_or (λ fs, fs ≠ [] ∧ concat (record <$> fs) = p) (unpack_v1_user_data_frames p) ∧
  (∃ m b, pack_microphone_command now enabled (Some ts) = Ok m ∧
     unpack_v1_sequence_user_data m = Ok b ∧
     parse_builtin_command b = Ok (mkCommand MICROPHONE_STATE_CHANGE 0 (Z.land ts 0xFFFFFFFF) [Z.b2z enabled])).
Proof.
  intros Hf Hp Hb Hne. split_and!.
  - rewrite unpack_sequence_spec, pack_sequence_spec by done. case_decide; naive_solver.
  - unfold unpack_v1_user_data_frames. pose proof (frames_loop_complete bodies (length (concat (record <$> bodies))) [] []) as E.
    rewrite app_nil_l in E. change (length []) with 0%nat in E. rewrite E; [|done|].
    + rewrite bind_ret, guard_pass; [done|]. by destruct bodies.
    + clear. induction bodies as [|b bs IH]; [done|]. rewrite fmap_cons. cbn [concat length].
      rewrite length_app. change (length (record b)) with (8 + length b)%nat. lia.
  - unfold unpack_v1_user_data_frames. eapply value_or_bind; [apply frames_loop_sound; [done|lia|lia]|].
    intros fs (new & -> & _ & En) _. apply value_or_raise_if. intros Hn. simpl.
    split; [by intros ->|by rewrite drop_0 in En].
  - destruct (builtin_roundtrip now MICROPHONE_STATE_CHANGE 0 [Z.b2z enabled] ts) as (b & Eb & Pb & Lb & Hbb);
      [unfold MICROPHONE_STATE_CHANGE; lia|lia|].
    assert (len b ≤ 0xFFFF) by (rewrite Lb; by vm_compute).
    assert (bytes_ok b) by (apply Hbb; destruct enabled; bytes_concrete).
    exists (seq_frame b), b. unfold pack_microphone_command. rewrite Eb, bind_ret, pack_sequence_spec, decide_True by done.
    split_and!; [done| |done]. apply unpack_sequence_spec; [|done]. unfold seq_frame.
    repeat (apply bytes_ok_app; split); auto with bytes. bytes_concrete.
Qed.

Lemma user_data_codecs_witness :
  unpack_v1_user_data_frames (concat (record <$> [[1; 2]; []; [3]])) = Ok [[1; 2]; []; [3]].
Proof.
  apply (user_data_codecs [] [] [] [[1; 2]; []; [3]] 0 true 0);
    [constructor|constructor|repeat constructor; vm_compute; discriminate|discriminate].
Defined.

(** The audio packet is its 28-byte header (magic, marker, frame count,
    64-bit timestamp), the table of the frame lengths and the frames, in order
    and without a byte between them: the buffer the two loops fill has exactly
    the size computed for it. *)
Lemma audio_packet_layout fs ts mk : fs ≠ [] → len fs ≤ 0xFFFF → Forall (λ f, 0 < len f ≤ 0xFFFF) fs →
  ∃ p, build_v1_audio_packet fs ts mk = Ok p ∧
    take 28 p = packet_header (len fs) ts mk ∧ drop 28 p = lengths fs ++ concat fs.
Proof.
  intros. eexists. split; [by apply audio_packet_spec|]. done.
Qed.

Definition sample_cookie : bytes := [1; 2; 3; 4; 5; 6; 7; 8].
Definition sample_payload : bytes := [10; 20; 30; 40; 50; 60; 70; 80; 90; 100].
Definition sample_tlv : bytes :=
  Eval vm_compute in match encrypt_command_tlv sample_payload sample_cookie with Ok w => w | Raise _ => [] end.

(** C33: media records. The inner TLV of commands (type 2) and media (type 4)
    round-trips: for every eight-byte or malformed cookie, a payload encrypts to
    a wire body exactly when that body (with format byte 2) decrypts to the
    payload. The audio packet is its 28-byte header (magic, marker, frame count,
    64-bit timestamp), the table of the frame lengths and the frames, in order
    and without a byte between them: the buffer the two loops fill has exactly
    the size computed for it. *)
Theorem media_records_exact :
  (∀ payload wire cookie,
     bytes_ok payload → bytes_ok wire → (4 ≤ length wire)%nat → wire !!! 1%nat = 2 →
     (encrypt_command_tlv payload cookie = Ok wire ↔ decrypt_command_tlv wire cookie = Ok payload) ∧
     (encrypt_media_tlv payload cookie = Ok wire ↔ decrypt_media_tlv wire cookie = Ok payload)) ∧
  (∀ fs ts mk, fs ≠ [] → len fs ≤ 0xFFFF → Forall (λ f, 0 < len f ≤ 0xFFFF) fs →
     ∃ p, build_v1_audio_packet fs ts mk = Ok p ∧
       take 28 p = packet_header (len fs) ts mk ∧ drop 28 p = lengths fs ++ concat fs).
Proof. split; [intros; split; by apply tlv_inverse|apply audio_packet_layout]. Qed.

Lemma media_records_exact_witness :
  decrypt_command_tlv sample_tlv sample_cookie = Ok sample_payload ∧
  ∃ p, build_v1_audio_packet [[7; 8]; [9]] 5 6 = Ok p ∧ drop 28 p = [2; 0; 1; 0; 7; 8; 9].
Proof.
  destruct media_records_exact as [H1 H2]. split.
  - apply (H1 sample_payload sample_tlv sample_cookie);
      [bytes_concrete|bytes_concrete|vm_compute; lia|reflexivity|vm_compute; reflexivity].
  - destruct (H2 [[7; 8]; [9]] 5 6) as (p & E & _ & Hd);
      [discriminate|vm_compute; discriminate|repeat constructor; vm_compute; (reflexivity || discriminate)|].
    exists p. split; [exact E|exact Hd].
Defined.

End StreamProtocol.
