(* ===== verification/V1Receive.v ===== *)
(** * StreamPipe V1 records

    Models [src/backend/app/drivers/yoosee/p2p/v1_receive.py]: the incremental
    splitter of a decrypted media stream into encoding headers and audio/video
    records.  The loop of [feed] works on the buffer from its cursor on; it runs
    with the buffer length as fuel, of which every record takes at least 28. *)

From Stdlib Require Import ZArith Lia.
From S2P Require Import Prelude StreamProtocol.
Import StreamProtocol.

Module V1Receive.

Definition MAX_RECORD : Z := 1024 * 1024.
Definition MAX_CHUNK : Z := 65535.
Definition MAX_AUDIO_FRAMES : Z := 256.

Record V1Record := mkRecord {
  encoding : option V1EncodingHeader;
  audio : list bytes;
  video : bytes;
  audio_timestamp : Z;
  video_timestamp : Z
}.

Record V1Receiver := mkV1 { _buffer : bytes; closed : bool }.

Definition v1_receiver : V1Receiver := mkV1 [] false.
Definition buffered_bytes (s : V1Receiver) : Z := len (_buffer s).
Definition close (s : V1Receiver) : V1Receiver := mkV1 [] true.

Definition _fail {A} (reason : string) : M V1Receiver A := _ ← modify close; raise (ValueError reason).

(** [struct.unpack_from(f"<{count}H", buffer, offset)] *)
Fixpoint unpack_sizes (count : nat) (buffer : bytes) (offset : nat) : result (list nat) :=
  match count with
  | O => Ok []
  | S count =>
      size ← unpack_from 2 buffer offset;
      sizes ← unpack_sizes count buffer (offset + 2);
      Ok (Z.to_nat size :: sizes)
  end.

(** The audio payloads, and the offset after them. *)
Fixpoint cut_audio (sizes : list nat) (buffer : bytes) (offset : nat) : list bytes * nat :=
  match sizes with
  | [] => ([], offset)
  | size :: sizes =>
      let '(audio, last) := cut_audio sizes buffer (offset + size) in
      (slice offset (offset + size) buffer :: audio, last)
  end.

Definition encoding_record (header : bytes) : result V1Record :=
  match unpack_v1_encoding_header header with
  | Ok encoding => Ok (mkRecord (Some encoding) [] [] 0 0)
  | Raise (ValueError _) => Raise (ValueError "invalid V1 encoding header")
  | Raise e => Raise e
  end.

(** One round of the loop: the record the buffer starts with and its size, or
    [None] where the loop breaks because it is incomplete. *)
Definition next_record (buffer : bytes) : result (option (V1Record * nat)) :=
  let header := slice 0 28 buffer in
  _ ← raise_if (negb (bool_decide (slice 0 4 header = V1_MAGIC))) (ValueError "V1 record boundary mismatch");
  marker ← unpack_from 2 header 4;
  count ← unpack_from 2 header 6;
  if Z.shiftr marker 8 =? 1 then r ← encoding_record header; Ok (Some (r, 28%nat)) else
  _ ← raise_if (negb ((marker =? 0) || (marker =? 8)) || (MAX_AUDIO_FRAMES <? count))
        (ValueError "unsupported V1 record type or audio count");
  video_size ← unpack_from 4 header 8;
  let descriptors := (28 + Z.to_nat count * 2)%nat in
  _ ← raise_if (MAX_RECORD <? Z.of_nat descriptors + video_size) (ValueError "V1 record size exceeds budget");
  if (length buffer <? descriptors)%nat then Ok None else
  sizes ← unpack_sizes (Z.to_nat count) buffer 28;
  _ ← raise_if (existsb (Nat.eqb 0) sizes) (ValueError "invalid V1 audio frame size");
  let total := (descriptors + sum_list sizes + Z.to_nat video_size)%nat in
  _ ← raise_if (MAX_RECORD <? Z.of_nat total) (ValueError "V1 record size exceeds budget");
  if (length buffer <? total)%nat then Ok None else
  let '(audio, offset) := cut_audio sizes buffer descriptors in
  audio_ts ← unpack_from 8 header 20;
  video_ts ← unpack_from 8 header 12;
  Ok (Some (mkRecord None audio (slice offset (offset + Z.to_nat video_size) buffer) audio_ts video_ts, total)).

(** [while len(self._buffer) - cursor >= 28], and the buffer it leaves. *)
Fixpoint record_loop (fuel : nat) (buffer : bytes) (records : list V1Record) : result (list V1Record * bytes) :=
  if (length buffer <? 28)%nat then Ok (records, buffer) else
  match fuel with
  | O => Raise OutOfFuel
  | S fuel =>
      next ← next_record buffer;
      match next with
      | None => Ok (records, buffer)
      | Some (r, size) => record_loop fuel (drop size buffer) (records ++ [r])
      end
  end.

Definition feed (payload : bytes) : M V1Receiver (list V1Record) :=
  s ← get;
  _ ← check (closed s) (ValueError "V1 receiver is closed");
  _ ← (match (MAX_CHUNK <? len payload) || (MAX_RECORD + MAX_CHUNK <? len (_buffer s) + len payload) with
       | true => _fail "V1 input budget exceeded"
       | false => mret tt
       end);
  let buffer := _buffer s ++ payload in
  match record_loop (length buffer) buffer [] with
  | Ok (records, rest) => _ ← modify (λ _, mkV1 rest false); mret records
  | Raise (ValueError reason) => _fail reason
  | Raise e => _ ← modify (λ _, mkV1 buffer false); raise e
  end.

(** ** What a stream contains *)

(** No record can be taken from [b], which is not malformed either. *)
Definition stuck (b : bytes) : Prop := (length b < 28)%nat ∨ (28 ≤ length b)%nat ∧ next_record b = Ok None.

(** [b] is the records [rs] followed by [rest]. *)
Inductive splits : bytes → list V1Record → bytes → Prop :=
| splits_nil b : splits b [] b
| splits_cons b r n rs rest :
    (28 ≤ length b)%nat → next_record b = Ok (Some (r, n)) → splits (drop n b) rs rest → splits b (r :: rs) rest.

(** ** Lemmas *)

Lemma unpack_sizes_ok count buffer offset :
  (offset + 2 * count ≤ length buffer)%nat →
  ∃ sizes, unpack_sizes count buffer offset = Ok sizes ∧ length sizes = count ∧
    ∀ x, unpack_sizes count (buffer ++ x) offset = Ok sizes.
Proof.
  revert offset. induction count as [|count IH]; intros offset H; cbn [unpack_sizes]; [by exists []|].
  destruct (IH (offset + 2)%nat ltac:(lia)) as (sizes & E & L & Ex).
  rewrite unpack_from_ok by lia. bind_simpl. rewrite E. eexists. split_and!; [done|simpl; by rewrite L|].
  intros x. rewrite unpack_from_app_l by lia. rewrite unpack_from_ok by lia. bind_simpl. by rewrite Ex.
Qed.

Lemma cut_audio_app sizes buffer x offset :
  (offset + sum_list sizes ≤ length buffer)%nat →
  cut_audio sizes (buffer ++ x) offset = cut_audio sizes buffer offset ∧
  (cut_audio sizes buffer offset).2 = (offset + sum_list sizes)%nat.
Proof.
  revert offset. induction sizes as [|size sizes IH]; intros offset H; cbn [cut_audio]; [simpl; split; [done|lia]|].
  simpl in H. destruct (IH (offset + size)%nat ltac:(lia)) as [E L]. rewrite E.
  destruct (cut_audio sizes buffer (offset + size)) as [a l]. cbn in L |- *. rewrite slice_app_l by lia. split; [done|lia].
Qed.

Lemma unpack_header_value header : (28 ≤ length header)%nat →
  value_or (λ _, True) (unpack_v1_encoding_header header).
Proof.
  intros H. unfold unpack_v1_encoding_header.
  repeat first [apply value_or_raise_if; intros _ | rewrite unpack_from_ok by lia; bind_simpl | rewrite index_ok by lia; bind_simpl].
  done.
Qed.

Lemma encoding_record_value header : (28 ≤ length header)%nat →
  value_or (λ r, encoding r ≠ None) (encoding_record header).
Proof.
  intros H. unfold encoding_record. pose proof (unpack_header_value header H) as Hv.
  by destruct (unpack_v1_encoding_header header) as [|[]].
Qed.

(** What one round says does not depend on what follows in the buffer, unless
    it asks for more. *)
Lemma next_record_app b x : (28 ≤ length b)%nat → next_record b ≠ Ok None → next_record (b ++ x) = next_record b.
Proof.
  intros Hb. unfold next_record. rewrite (slice_app_l 0 28 b x) by lia.
  assert (Hl : length (slice 0 28 b) = 28%nat) by len_solve.
  destruct (raise_if _ _) as [[]|e]; bind_simpl; [|done].
  rewrite !unpack_from_ok by lia. rewrite !bind_ret. set (marker := undigits 256 (slice 4 (4 + 2) _)).
  set (count := undigits 256 (slice 6 (6 + 2) _)). destruct (Z.shiftr marker 8 =? 1); [done|].
  destruct (raise_if _ _) as [[]|e]; bind_simpl; [|done].
  set (vsize := undigits 256 (slice 8 (8 + 4) _)). set (desc := (28 + Z.to_nat count * 2)%nat).
  destruct (raise_if _ _) as [[]|e]; bind_simpl; [|done].
  destruct (Nat.ltb_spec (length b) desc) as [Hd|Hd]; [done|].
  destruct (Nat.ltb_spec (length (b ++ x)) desc); [len_solve|].
  destruct (unpack_sizes_ok (Z.to_nat count) b 28 ltac:(unfold desc in Hd; lia)) as (sizes & Es & Ls & Ex).
  rewrite Es, Ex. rewrite !bind_ret.
  destruct (raise_if _ _) as [[]|e]; bind_simpl; [|done].
  destruct (raise_if _ _) as [[]|e]; bind_simpl; [|done].
  destruct (Nat.ltb_spec (length b) (desc + sum_list sizes + Z.to_nat vsize)) as [Ht|Ht]; [done|intros _].
  destruct (Nat.ltb_spec (length (b ++ x)) (desc + sum_list sizes + Z.to_nat vsize)); [len_solve|].
  destruct (cut_audio_app sizes b x desc ltac:(lia)) as [Ec Lc]. rewrite Ec. destruct (cut_audio sizes b desc) as [a off].
  cbn [snd] in Lc. rewrite slice_app_l by lia. done.
Qed.

(** A round takes a record of at least a header, asks for more or fails with
    [ValueError]; a record of an encoding header carries nothing else. *)
Definition record_ok (r : V1Record) : Prop := encoding r ≠ None → audio r = [] ∧ video r = [].

Lemma next_record_value b : (28 ≤ length b)%nat →
  value_or (λ next, match next with None => True | Some (r, n) => (28 ≤ n ≤ length b)%nat ∧ record_ok r end) (next_record b).
Proof.
  intros Hb. unfold next_record. assert (Hl : length (slice 0 28 b) = 28%nat) by len_solve.
  apply value_or_raise_if; intros _. rewrite !unpack_from_ok by lia. rewrite !bind_ret.
  set (marker := undigits 256 (slice 4 (4 + 2) _)). set (count := undigits 256 (slice 6 (6 + 2) _)).
  destruct (Z.shiftr marker 8 =? 1).
  { unfold encoding_record. pose proof (unpack_header_value (slice 0 28 b) ltac:(lia)) as Hv.
    destruct (unpack_v1_encoding_header _) as [r|[]]; done. }
  apply value_or_raise_if; intros _.
  set (vsize := undigits 256 (slice 8 (8 + 4) _)). set (desc := (28 + Z.to_nat count * 2)%nat).
  apply value_or_raise_if; intros _. destruct (Nat.ltb_spec (length b) desc) as [Hd|Hd]; [done|].
  destruct (unpack_sizes_ok (Z.to_nat count) b 28 ltac:(unfold desc in Hd; lia)) as (sizes & Es & Ls & Ex).
  rewrite Es, bind_ret. apply value_or_raise_if; intros _. apply value_or_raise_if; intros _.
  destruct (Nat.ltb_spec (length b) (desc + sum_list sizes + Z.to_nat vsize)) as [Ht|Ht]; [done|].
  destruct (cut_audio sizes b desc) as [a off]. bind_simpl. split; [lia|done].
Qed.

Lemma splits_app b rs rest x rs' rest' :
  splits b rs rest → splits (rest ++ x) rs' rest' → splits (b ++ x) (rs ++ rs') rest'.
Proof.
  induction 1 as [b|b r n rs rest Hl Hn Hs IH]; intros H; [done|]. cbn [app]. apply (splits_cons _ _ n); [len_solve| |].
  - rewrite next_record_app; [done|done|by rewrite Hn].
  - pose proof (next_record_value b Hl) as Hv. rewrite Hn in Hv. destruct Hv as [? _].
    rewrite drop_app_le by lia. by apply IH.
Qed.

(** Splitting is deterministic: of two splits one goes on where the other stops. *)
Lemma splits_det b rs rest rs' rest' :
  splits b rs rest → splits b rs' rest' → (length rs ≤ length rs')%nat → ∃ rs2, rs' = rs ++ rs2 ∧ splits rest rs2 rest'.
Proof.
  intros H. revert rs' rest'. induction H as [b|b r n rs rest Hl Hn Hs IH]; intros rs' rest' H' L; [by exists rs'|].
  destruct H' as [b|b r' n' rs' rest' Hl' Hn' Hs']; [simpl in L; lia|]. rewrite Hn in Hn'. injection Hn' as <- <-.
  simpl in L. destruct (IH _ _ Hs' ltac:(lia)) as (rs2 & -> & ?). by exists rs2.
Qed.

Lemma splits_stuck b rs rest rs' rest' :
  splits b rs rest → splits b rs' rest' → stuck rest → rs' `prefix_of` rs.
Proof.
  intros H H' Hst. destruct (decide (length rs' ≤ length rs)%nat) as [L|L].
  - destruct (splits_det _ _ _ _ _ H' H L) as (rs2 & -> & _). by apply prefix_app_r.
  - destruct (splits_det _ _ _ _ _ H H' ltac:(lia)) as (rs2 & -> & Hs). destruct Hs as [|b' r n rs2 rest2 Hl Hn _]; [by rewrite app_nil_r|].
    destruct Hst as [?|[_ ?]]; [lia|congruence].
Qed.

Lemma record_loop_ok fuel : ∀ b records, (length b ≤ fuel)%nat →
  value_or (λ '(records', rest), ∃ new, records' = records ++ new ∧ splits b new rest ∧ stuck rest ∧ Forall record_ok new)
    (record_loop fuel b records).
Proof.
  induction fuel as [|fuel IH]; intros b records Hf; cbn [record_loop];
    (destruct (Nat.ltb_spec (length b) 28); [exists []; rewrite app_nil_r; split_and!; [done|constructor|by left|done]|]); [lia|].
  eapply value_or_bind; [by apply next_record_value|]. intros [[r n]|] Hv En.
  - destruct Hv as [Hn Hr]. eapply value_or_impl; [apply IH; len_solve|]. intros [records' rest] (new & -> & Hs & Hst & Hall).
    exists (r :: new). rewrite <- app_assoc. split_and!; [done|by eapply splits_cons|done|by constructor].
  - exists []. rewrite app_nil_r. split_and!; [done|constructor|by right|done].
Qed.

(** What [feed] does: it extends the split of the stream, or closes. *)
Lemma splitter_feed_ok payload s :
  wp (feed payload) (λ res s',
    match res with
    | Ok records => closed s = false ∧ closed s' = false ∧ splits (_buffer s ++ payload) records (_buffer s') ∧ stuck (_buffer s') ∧
        Forall record_ok records ∧ len (_buffer s') ≤ MAX_RECORD + MAX_CHUNK
    | Raise e => (∃ msg, e = ValueError msg) ∧ (s' = s ∧ closed s = true ∨ s' = close s)
    end) s.
Proof.
  unfold feed, _fail. do 3 wp_step. wp_step; [split; [by eexists|by left]|]. wp_step.
  wp_step; [do 3 wp_step; split; [by eexists|by right]|]. wp_step.
  apply orb_false_elim in Heqb as [_ Hb%Z.ltb_ge].
  pose proof (record_loop_ok (length (_buffer s ++ payload)) (_buffer s ++ payload) [] ltac:(lia)) as Hloop.
  destruct (record_loop _ _ _) as [[records rest]|[]]; try done; repeat wp_step.
  - destruct Hloop as (new & -> & Hs & Hst & Hall). split_and!; try done.
    assert (length rest ≤ length (_buffer s ++ payload))%nat.
    { clear -Hs. induction Hs; [done|]. len_simpl. lia. }
    cbn. len_simpl. lia.
  - split; [by eexists|by right].
Qed.
(** ** Streams *)

Fixpoint feed_all (chunks : list bytes) : M V1Receiver (list V1Record) :=
  match chunks with
  | [] => mret []
  | c :: chunks => records ← feed c; later ← feed_all chunks; mret (records ++ later)
  end.

Lemma feed_all_ok chunks : ∀ s, stuck (_buffer s) → len (_buffer s) ≤ MAX_RECORD + MAX_CHUNK →
  wp (feed_all chunks) (λ res s',
    match res with
    | Ok records => closed s' = closed s ∧ splits (_buffer s ++ concat chunks) records (_buffer s') ∧ stuck (_buffer s') ∧
        Forall record_ok records ∧ len (_buffer s') ≤ MAX_RECORD + MAX_CHUNK
    | Raise e => (∃ msg, e = ValueError msg) ∧ (closed s = false → s' = close s)
    end) s.
Proof.
  induction chunks as [|c chunks IH]; intros s Hst Hb; cbn [feed_all concat].
  { wp_step. rewrite app_nil_r. split_and!; [done|constructor|done..]. }
  wp_step. eapply wp_mono; [apply splitter_feed_ok|]. intros [records|e] s1 H1.
  - destruct H1 as (Hc & Hc1 & Hs & Hst1 & Hall & Hb1). wp_step. eapply wp_mono; [by apply IH|].
    intros [later|e] s2 H2; [|destruct H2 as [? H2]; split; [done|intros _; by rewrite H2]]. destruct H2 as (Hc2 & Hs2 & Hst2 & Hall2 & Hb2). wp_step. split_and!; try done.
    + congruence.
    + rewrite app_assoc. by eapply splits_app.
    + by apply Forall_app.
  - destruct H1 as [Hm [[-> ?]| ->]]; split; congruence.
Qed.

(** Passes the first guard of a body that returned. *)
Tactic Notation "pass_check" "as" ident(H) :=
  match goal with |- raise_if ?c _ ≫= _ = _ → _ => destruct c eqn:H; cbn [raise_if]; bind_simpl; [done|] end.
Ltac pass_check := let H := fresh in pass_check as H.

(** The parser asks for more only below the record limit, so the room of a
    whole read is left. *)
Lemma stuck_bound b : bytes_ok b → stuck b → len b ≤ MAX_RECORD.
Proof.
  intros Hbytes [Hb|[Hb Hn]]; [unfold MAX_RECORD, len; lia|]. revert Hn. unfold next_record.
  assert (Hl : length (slice 0 28 b) = 28%nat) by len_solve.
  pass_check.
  rewrite !unpack_from_ok by lia. rewrite !bind_ret. set (marker := undigits 256 (slice 4 (4 + 2) _)).
  set (count := undigits 256 (slice 6 (6 + 2) _)). destruct (Z.shiftr marker 8 =? 1); [by destruct (encoding_record _)|].
  pass_check.
  set (vsize := undigits 256 (slice 8 (8 + 4) _)). set (desc := (28 + Z.to_nat count * 2)%nat).
  assert (0 ≤ vsize) by (eapply le_bound; [|reflexivity]; auto with bytes).
  pass_check as Hmax. apply Z.ltb_ge in Hmax.
  destruct (Nat.ltb_spec (length b) desc) as [Hd|Hd]; [intros _; unfold len; lia|].
  destruct (unpack_sizes_ok (Z.to_nat count) b 28 ltac:(unfold desc in Hd; lia)) as (sizes & Es & Ls & Ex).
  rewrite Es, !bind_ret. pass_check.
  pass_check as Hmax2.
  apply Z.ltb_ge in Hmax2.
  destruct (Nat.ltb_spec (length b) (desc + sum_list sizes + Z.to_nat vsize)) as [Ht|Ht]; [intros _; unfold len; lia|].
  by destruct (cut_audio sizes b desc).
Qed.

(** The loop meets no error in a part of a stream of records. *)
Lemma splits_part stream rs b x : splits stream rs [] → b ++ x = stream → (28 ≤ length b)%nat →
  next_record b = Ok None ∨ ∃ r n rs', rs = r :: rs' ∧ next_record b = Ok (Some (r, n)) ∧ splits (drop n b ++ x) rs' [].
Proof.
  intros Hs Hbx Hb. remember [] as e eqn:He. destruct Hs as [b0|b0 r n rs rest Hl Hn Hs]; [subst b0; apply (f_equal length) in Hbx; subst; len_simpl; lia|].
  assert (next_record b = Ok None ∨ next_record b ≠ Ok None) as [?|Hne] by (destruct (next_record b) as [[|]|]; auto); [by left|right].
  subst b0 rest. rewrite next_record_app in Hn by done.
  exists r, n, rs. split_and!; [done..|]. pose proof (next_record_value b Hb) as Hv. rewrite Hn in Hv. destruct Hv as [? _].
  by rewrite drop_app_le in Hs by lia.
Qed.

Lemma record_loop_part fuel : ∀ b x rs records, (length b ≤ fuel)%nat → splits (b ++ x) rs [] →
  ∃ records' rest rs', record_loop fuel b records = Ok (records', rest) ∧ splits (rest ++ x) rs' [].
Proof.
  induction fuel as [|fuel IH]; intros b x rs records Hf Hs; cbn [record_loop];
    (destruct (Nat.ltb_spec (length b) 28); [by eexists _, _, _|]); [lia|].
  destruct (splits_part _ _ b x Hs eq_refl) as [E|(r & n & rs' & _ & E & Hs')]; [done|..]; rewrite E, bind_ret; [by eexists _, _, _|].
  pose proof (next_record_value b ltac:(done)) as Hv. rewrite E in Hv. destruct Hv as [? _].
  eapply IH; [len_solve|done].
Qed.

Lemma feed_part payload x rs s :
  closed s = false → bytes_ok (_buffer s) → stuck (_buffer s) → len payload ≤ MAX_CHUNK →
  splits (_buffer s ++ payload ++ x) rs [] →
  wp (feed payload) (λ res s', (∃ records, res = Ok records) ∧ closed s' = false ∧ ∃ rs', splits (_buffer s' ++ x) rs' []) s.
Proof.
  intros Hc Hbytes Hst Hl Hs. pose proof (stuck_bound _ Hbytes Hst). unfold feed. do 3 wp_step. wp_step; [congruence|]. wp_step.
  wp_step. { apply orb_prop in Heqb as [?%Z.ltb_lt|?%Z.ltb_lt]; lia. }
  wp_step. rewrite app_assoc in Hs.
  destruct (record_loop_part (length (_buffer s ++ payload)) (_buffer s ++ payload) x rs [] ltac:(lia) Hs) as (records & rest & rs' & -> & Hs').
  repeat wp_step. split; [by eexists|]. split; [done|]. by eexists.
Qed.

Lemma splits_bytes b rs rest : splits b rs rest → bytes_ok b → bytes_ok rest.
Proof. induction 1; auto with bytes. Qed.

Lemma feed_all_part chunks : ∀ x rs s,
  closed s = false → stuck (_buffer s) → bytes_ok (_buffer s ++ concat chunks ++ x) →
  Forall (λ c, len c ≤ MAX_CHUNK) chunks → splits (_buffer s ++ concat chunks ++ x) rs [] →
  wp (feed_all chunks) (λ res s', ∃ records, res = Ok records) s.
Proof.
  induction chunks as [|c chunks IH]; intros x rs s Hc Hst Hbytes Hall Hs; cbn [feed_all concat] in *; [wp_step; by eexists|].
  apply Forall_cons_iff in Hall as [Hlc Hall]. rewrite <- app_assoc in Hs, Hbytes.
  apply bytes_ok_app in Hbytes as [Hb1 Hb2]. apply bytes_ok_app in Hb2 as [Hb2 Hb3].
  pose proof (feed_part c (concat chunks ++ x) rs s Hc Hb1 Hst Hlc Hs) as Hp. pose proof (splitter_feed_ok c s) as Ho.
  wp_step. unfold wp in Hp, Ho |- *. destruct (feed c s) as [s1 res]. cbn in Hp, Ho |- *.
  destruct Hp as ([records ->] & Hc1 & rs1 & Hs1). destruct Ho as (_ & _ & Hsp & Hst1 & _ & _).
  assert (Hb4 : bytes_ok (_buffer s1)) by (eapply splits_bytes; [done|by apply bytes_ok_app]).
  pose proof (IH x rs1 s1 Hc1 Hst1) as Hi. unfold wp in Hi. unfold mbind, M_bind.
  destruct (feed_all chunks s1) as [s2 res2]. cbn in Hi. destruct Hi as [later ->]; [by apply bytes_ok_app|done|done|by eexists].
Qed.

(** ** Built packets *)

Lemma unpack_sizes_lengths fs : ∀ pre x, Forall (λ f, 0 < len f ≤ 0xFFFF) fs →
  unpack_sizes (length fs) (pre ++ lengths fs ++ x) (length pre) = Ok (length <$> fs).
Proof.
  induction fs as [|f fs IH]; intros pre x Hfs; [done|]. apply Forall_cons_iff in Hfs as [Hf Hfs].
  unfold lengths. rewrite fmap_cons. cbn [length unpack_sizes concat]. rewrite <- app_assoc.
  rewrite unpack_from_ok by len_solve. rewrite (slice_mid (length pre)) by (reflexivity || len_solve || lia).
  rewrite le_decode_encode by (eval_widths; lia). rewrite bind_ret. rewrite (app_assoc pre).
  replace (length pre + 2)%nat with (length (pre ++ digits 256 2 (len f))) by len_solve.
  fold (lengths fs). rewrite IH by done. rewrite bind_ret. unfold len. by rewrite Nat2Z.id.
Qed.

Lemma cut_audio_frames fs : ∀ pre x,
  cut_audio (length <$> fs) (pre ++ concat fs ++ x) (length pre) = (fs, (length pre + length (concat fs))%nat).
Proof.
  induction fs as [|f fs IH]; intros pre x; [simpl; by rewrite Nat.add_0_r|].
  rewrite fmap_cons. cbn [cut_audio concat]. rewrite <- app_assoc. rewrite (slice_mid (length pre)) by (reflexivity || lia).
  rewrite (app_assoc pre). rewrite <- length_app. rewrite IH. len_simpl. f_equal. lia.
Qed.

(** A media record as a sender writes it. *)
Definition media_wire (mk : Z) (fs : list bytes) (picture : bytes) (vts ats : Z) : bytes :=
  (V1_MAGIC ++ digits 256 2 mk ++ digits 256 2 (len fs) ++ digits 256 4 (len picture) ++ digits 256 8 vts ++ digits 256 8 ats) ++
  lengths fs ++ concat fs ++ picture.

Lemma length_lengths fs : length (lengths fs) = (2 * length fs)%nat.
Proof. unfold lengths. induction fs; [done|]. rewrite fmap_cons. cbn [concat]. len_simpl. lia. Qed.

Lemma length_frames (fs : list bytes) : length (concat fs) = sum_list (length <$> fs).
Proof. induction fs; [done|]. cbn. len_simpl. lia. Qed.

Lemma length_media_wire mk fs picture vts ats :
  length (media_wire mk fs picture vts ats) = (28 + length fs * 2 + sum_list (length <$> fs) + length picture)%nat.
Proof. unfold media_wire. rewrite <-length_frames. len_simpl. rewrite length_lengths. cbn. lia. Qed.

Lemma media_record_parsed mk fs picture vts ats :
  mk = 0 ∨ mk = 8 → len fs ≤ MAX_AUDIO_FRAMES → Forall (λ f, 0 < len f ≤ 0xFFFF) fs → 0 ≤ vts < 2 ^ 64 → 0 ≤ ats < 2 ^ 64 →
  len (media_wire mk fs picture vts ats) ≤ MAX_RECORD →
  next_record (media_wire mk fs picture vts ats) = Ok (Some (mkRecord None fs picture ats vts, length (media_wire mk fs picture vts ats))).
Proof.
  intros Hmk Hn Hfs Hvts Hats Hp. unfold MAX_AUDIO_FRAMES in Hn. pose proof (length_media_wire mk fs picture vts ats) as HL.
  pose proof (length_lengths fs) as Hl. pose proof (length_frames fs) as Hc. unfold media_wire in *.
  set (h := V1_MAGIC ++ _) in *. assert (Hh : length h = 28%nat) by done.
  assert (len picture < 4294967296) by (unfold len, MAX_RECORD in *; lia).
  assert (F : ∀ n off pre v post, h = pre ++ digits 256 n v ++ post → length pre = off → (0 < n)%nat → 0 ≤ v < 256 ^ Z.of_nat n →
    unpack_from n h off = Ok v).
  { intros n off pre v post -> Hpre Hn0 Hv. apply unpack_digits; [done|done|]. apply slice_mid; len_solve. }
  assert (F1 : unpack_from 2 h 4 = Ok mk) by (eapply (F 2%nat _ V1_MAGIC); [reflexivity|done|lia|eval_widths; destruct Hmk; lia]).
  assert (F2 : unpack_from 2 h 6 = Ok (len fs)).
  { eapply (F 2%nat _ (V1_MAGIC ++ digits 256 2 mk)); [by rewrite <-!app_assoc|done|lia|eval_widths; unfold len in *; lia]. }
  assert (F3 : unpack_from 4 h 8 = Ok (len picture)).
  { eapply (F 4%nat _ (V1_MAGIC ++ digits 256 2 mk ++ digits 256 2 (len fs))); [by rewrite <-!app_assoc|done|lia|eval_widths; unfold len in *; lia]. }
  assert (F5 : unpack_from 8 h 12 = Ok vts).
  { eapply (F 8%nat _ (V1_MAGIC ++ digits 256 2 mk ++ digits 256 2 (len fs) ++ digits 256 4 (len picture)));
      [by rewrite <-!app_assoc|done|lia|exact Hvts]. }
  assert (F4 : unpack_from 8 h 20 = Ok ats).
  { apply (F 8%nat _ (V1_MAGIC ++ digits 256 2 mk ++ digits 256 2 (len fs) ++ digits 256 4 (len picture) ++ digits 256 8 vts) _ []);
      [by rewrite <-!app_assoc, app_nil_r|done|lia|exact Hats]. }
  unfold next_record. cbv zeta. rewrite (slice_all_prefix 28) by done. change (slice 0 4 h) with V1_MAGIC.
  rewrite bool_decide_eq_true_2 by done. cbn [negb raise_if]. rewrite F1, F2, !bind_ret.
  replace (Z.shiftr mk 8 =? 1) with false by (by destruct Hmk as [->| ->]). cbn [raise_if].
  rewrite guard_pass by (destruct Hmk as [->| ->]; cbn; unfold MAX_AUDIO_FRAMES; lia). rewrite F3, bind_ret.
  assert (Hto : Z.to_nat (len fs) = length fs) by (unfold len; lia). assert (Htp : Z.to_nat (len picture) = length picture) by (unfold len; lia).
  rewrite Hto, Htp. assert (Hb : Z.of_nat (28 + length fs * 2 + sum_list (length <$> fs) + length picture) ≤ MAX_RECORD) by (rewrite <- HL; exact Hp).
  rewrite guard_pass by (unfold len; lia). rewrite HL. destruct (Nat.ltb_spec (28 + length fs * 2 + sum_list (length <$> fs) + length picture) (28 + length fs * 2)); [lia|].
  pose proof (unpack_sizes_lengths fs h (concat fs ++ picture) Hfs) as U. rewrite Hh in U. rewrite U, bind_ret. clear U.
  rewrite guard_pass.
  2:{ apply not_true_is_false. rewrite existsb_exists. intros (n & Hin & Hz%Nat.eqb_eq). subst n.
      apply list_elem_of_In, list_elem_of_fmap in Hin as (f & Hf & Hin). rewrite Forall_forall in Hfs.
      specialize (Hfs f Hin). unfold len in Hfs. lia. }
  rewrite guard_pass by lia. rewrite Nat.ltb_irrefl.
  replace (28 + length fs * 2)%nat with (length (h ++ lengths fs)) by (rewrite length_app; lia).
  rewrite (app_assoc h), cut_audio_frames, F4, F5, !bind_ret. do 3 f_equal. f_equal.
  rewrite (app_assoc (h ++ lengths fs)), slice_app_r by (rewrite length_app; lia).
    rewrite !length_app, Nat.sub_diag. apply slice_all. lia.
Qed.

Lemma audio_packet_parsed fs ts mk p :
  fs ≠ [] → len fs ≤ MAX_AUDIO_FRAMES → Forall (λ f, 0 < len f ≤ 0xFFFF) fs → mk = 0 ∨ mk = 8 → len p ≤ MAX_RECORD →
  build_v1_audio_packet fs ts mk = Ok p → p = media_wire mk fs [] 0 (Z.land ts 0xFFFFFFFFFFFFFFFF).
Proof.
  intros Hne Hn Hfs Hmk Hp E. unfold MAX_AUDIO_FRAMES in Hn. rewrite audio_packet_spec in E by (done || lia). apply (inj Ok) in E as <-.
  unfold media_wire, packet_header. assert (Z.land mk 0xFFFF = mk) as -> by (by destruct Hmk as [->| ->]). by rewrite app_nil_r.
Qed.

(** ** Properties *)

(** C17 [V1Receiver]: reads of any size give the records of the stream. When
    every read is accepted, the records returned, in order, and the bytes kept
    are exactly the bytes read, cut at record boundaries, so they do not depend
    on how the stream was cut; the rest is no complete record. A read that is
    refused raises [ValueError] and leaves the receiver closed and empty. A
    stream of well-formed records is accepted whole, whatever the reads; a media
    record on the wire is one record with its frames, its picture and its two
    times; and an audio packet the code builds is such a record. *)
Theorem v1_stream_exact :
  (∀ chunks, match feed_all chunks v1_receiver with
     | (s, Ok records) => closed s = false ∧ splits (concat chunks) records (_buffer s) ∧ stuck (_buffer s) ∧
         buffered_bytes s ≤ MAX_RECORD + MAX_CHUNK
     | (s, Raise e) => (∃ msg, e = ValueError msg) ∧ s = mkV1 [] true
     end) ∧
  (∀ chunks chunks' s s' records records', concat chunks = concat chunks' →
     feed_all chunks v1_receiver = (s, Ok records) → feed_all chunks' v1_receiver = (s', Ok records') →
     records = records' ∧ s = s') ∧
  (∀ stream records chunks x, splits stream records [] → bytes_ok stream → concat chunks ++ x = stream →
     Forall (λ c, len c ≤ MAX_CHUNK) chunks →
     ∃ s some, feed_all chunks v1_receiver = (s, Ok some) ∧ some `prefix_of` records ∧ (x = [] → some = records)) ∧
  (∀ mk fs picture vts ats, mk = 0 ∨ mk = 8 → len fs ≤ MAX_AUDIO_FRAMES → Forall (λ f, 0 < len f ≤ 0xFFFF) fs →
     0 ≤ vts < 2 ^ 64 → 0 ≤ ats < 2 ^ 64 → len (media_wire mk fs picture vts ats) ≤ MAX_RECORD →
     splits (media_wire mk fs picture vts ats) [mkRecord None fs picture ats vts] []) ∧
  (∀ frames ts marker p, frames ≠ [] → len frames ≤ MAX_AUDIO_FRAMES → Forall (λ f, 0 < len f ≤ 0xFFFF) frames →
     marker = 0 ∨ marker = 8 → len p ≤ MAX_RECORD → build_v1_audio_packet frames ts marker = Ok p →
     p = media_wire marker frames [] 0 (Z.land ts 0xFFFFFFFFFFFFFFFF)).
Proof.
  assert (Hnil : stuck []) by (left; simpl; lia).
  pose proof (λ chunks, feed_all_ok chunks v1_receiver Hnil ltac:(done)) as Hall.
  assert (Hstuck : ∀ rs rest rs' rest' b, splits b rs rest → splits b rs' rest' → stuck rest → stuck rest' → rs = rs' ∧ rest = rest').
  { intros rs rest rs' rest' b H H' St St'. pose proof (splits_stuck _ _ _ _ _ H H' St) as P. pose proof (splits_stuck _ _ _ _ _ H' H St') as P'.
    assert (rs = rs') as <- by (apply (anti_symm prefix); done). split; [done|].
    destruct (splits_det _ _ _ _ _ H H' ltac:(lia)) as (rs2 & E & H2).
    assert (rs2 = []) as -> by (apply (app_inv_head rs); by rewrite app_nil_r). by inversion H2. }
  split_and!.
  - intros chunks. specialize (Hall chunks). unfold wp in Hall. destruct (feed_all chunks v1_receiver) as [s [records|e]]; cbn in Hall |- *.
    + destruct Hall as (? & ? & ? & _ & ?). by split_and!.
    + destruct Hall as [? Hc]. split; [done|]. by apply Hc.
  - intros chunks chunks' s s' records records' Hcat H H'. pose proof (Hall chunks) as H1. pose proof (Hall chunks') as H2.
    unfold wp in H1, H2. rewrite H in H1. rewrite H' in H2. cbn in H1, H2. rewrite <- Hcat in H2.
    destruct H1 as (Hc1 & Hs1 & St1 & _), H2 as (Hc2 & Hs2 & St2 & _).
    destruct (Hstuck _ _ _ _ _ Hs1 Hs2 St1 St2) as [-> Hb]. split; [done|]. destruct s, s'. cbn in *. by subst.
  - intros stream records chunks x Hs Hbytes <- Hl.
    pose proof (feed_all_part chunks x records v1_receiver eq_refl ltac:(left; simpl; lia) Hbytes Hl Hs) as H.
    specialize (Hall chunks). unfold wp in H, Hall. destruct (feed_all chunks v1_receiver) as [s res]. cbn in H, Hall.
    destruct H as [some ->]. destruct Hall as (_ & Hsp & St & _ & _). exists s, some. split; [done|].
    split; [apply (splits_stuck (concat chunks ++ x) records [] some (_buffer s ++ x)); [done| |done]|].
    + rewrite <- (app_nil_r some). eapply splits_app; [done|constructor].
    + intros ->. rewrite app_nil_r in Hs. by destruct (Hstuck _ _ _ _ _ Hsp Hs St Hnil).
  - intros mk fs picture vts ats Hmk Hn Hf Hv Ha Hp. eapply splits_cons; [|by apply media_record_parsed|rewrite drop_all; constructor].
    rewrite length_media_wire. lia.
  - exact audio_packet_parsed.
Qed.

(** Two audio packets, cut in the middle of the second. *)
Definition sample_packet : bytes :=
  Eval vm_compute in match build_v1_audio_packet [[7; 8]; [9]] 5 0 with Ok p => p | Raise _ => [] end.

Lemma v1_stream_exact_witness :
  feed_all [sample_packet ++ take 30 sample_packet; drop 30 sample_packet] v1_receiver =
    (v1_receiver, Ok [mkRecord None [[7; 8]; [9]] [] 5 0; mkRecord None [[7; 8]; [9]] [] 5 0]) ∧
  splits sample_packet [mkRecord None [[7; 8]; [9]] [] 5 0] [].
Proof.
  split; [by vm_compute|]. destruct v1_stream_exact as (_ & _ & _ & H & _).
  apply (H 0 [[7; 8]; [9]] [] 0 5); [by left|done|repeat constructor; done|done|done|by vm_compute].
Defined.
End V1Receive.
