(* ===== verification/AvReceive.v ===== *)
(** * Reception of a camera's media

    Models the receive side of a negotiated media route, p2p [media_receive.py]
    (datagrams to messages and acknowledgements), [receive_lifecycle.py] (the
    deadlines of one conversation), [av_pending.py] (messages that wait for the
    acceptance) and [av_receive.py] (the negotiation and the records).  They are
    composed over [KcpReceive], [StreamProtocol] and [V1Receive] the way the
    code composes them.

    A state is an object with the number of clock readings made so far; the
    clock is an arbitrary function of that number.  Times are integers in
    milliseconds.  A call of a KCP receiver is given three readings whether it
    uses them or not, which an arbitrary clock allows.  [ReceiveError] is a
    [ValueError]; its handlers are those of [ValueError] here, and no other
    [ValueError] reaches them. *)

From Stdlib Require Import ZArith Lia.
From stdpp Require Import fin_maps.
From S2P Require Import Prelude MediaProtocol KcpReceive StreamProtocol V1Receive.

Module AvReceive.
Import MediaProtocol(KcpSegment, mkSegment, conv, command, fragment, sequence, body, KCP_PUSH, KCP_WASK, MTP_MAX_FRAME_SIZE, parse_kcp_segments,
  build_kcp_ack, build_window_report).
Import StreamProtocol(V1EncodingHeader, mkHeader, decrypt_media_tlv).
Import V1Receive(V1Record, encoding, V1Receiver, v1_receiver).

Abbreviation address := (string * Z)%type.
Abbreviation receiver := KcpReceive.receiver.

#[global] Instance header_eq_dec : EqDecision V1EncodingHeader.
Proof. solve_decision. Defined.

(** ** Exception handlers that close *)

Section Handlers.
Context {X : Type}.

(** [try: m; except ReceiveError: self.close(); raise] *)
Definition closing {A} (close : X → X) (m : M (X * nat) A) : M (X * nat) A := λ s,
  match m s with
  | ((x, n), Raise (ValueError e)) => ((close x, n), Raise (ValueError e))
  | r => r
  end.

(** [try: m; except ValueError: self.close(); raise e from None] *)
Definition failing {A} (close : X → X) (e : exn) (m : M (X * nat) A) : M (X * nat) A := λ s,
  match m s with
  | ((x, n), Raise (ValueError _)) => ((close x, n), Raise e)
  | r => r
  end.
End Handlers.

Section Clock.
Context (clock : nat → Z).

#[local] Notation now := (now clock).

(** ** [media_receive.py] *)

Definition failure_exn (e : KcpReceive.failure) : exn :=
  match e with
  | KcpReceive.ReceiveError reason => ValueError reason
  | KcpReceive.KcpAssemblyTimeout _ => ValueError "KCP assembly deadline exceeded"
  | KcpReceive.LoopOutOfFuel => OutOfFuel
  end.

Definition kcp {A} (m : KcpReceive.M A) : M receiver A := λ r,
  match m r with (r, inr a) => (r, Ok a) | (r, inl e) => (r, Raise (failure_exn e)) end.

Definition kcp_expire : M (receiver * nat) unit := t ← now; timeless (kcp (KcpReceive.expire t)).
Definition kcp_receive (segment : KcpSegment) : M (receiver * nat) KcpReceive.ReceiveResult :=
  t1 ← now; t2 ← now; t3 ← now; timeless (kcp (KcpReceive.receive t1 t2 t3 segment)).

Record MediaReceiver := mkMedia { peer : address; m_receiver : receiver }.
Definition set_receiver (r : receiver) (m : MediaReceiver) : MediaReceiver := mkMedia (peer m) r.

Record MediaReceiveBatch := mkBatch { acknowledgements : list bytes; b_messages : list bytes }.

(** [segment.command == KCP_WASK] with no fragment and no body *)
Definition window_probe (segment : KcpSegment) (r : receiver) : bool :=
  (conv segment =? KcpReceive.r_conv r) && (command segment =? KCP_WASK) && (fragment segment =? 0)
  && (length (body segment) =? 0)%nat.

(** One round of the loop over the segments of a datagram. *)
Definition media_segment (segment : KcpSegment) : M (MediaReceiver * nat) MediaReceiveBatch :=
  m ← state;
  match window_probe segment (m_receiver m) with
  | true =>
      report ← lift (build_window_report (conv segment) (KcpReceive.next_sequence (m_receiver m))
                       (KcpReceive.available_window (m_receiver m)));
      mret (mkBatch [report] [])
  | false =>
      result ← on m_receiver set_receiver (kcp_receive segment);
      m ← state;
      match KcpReceive.acknowledge result with
      | true =>
          ack ← lift (build_kcp_ack (conv segment) (sequence segment) (MediaProtocol.timestamp segment)
                        (KcpReceive.r_unacknowledged result) (KcpReceive.available_window (m_receiver m)));
          mret (mkBatch [ack] (KcpReceive.messages result))
      | false => mret (mkBatch [] (KcpReceive.messages result))
      end
  end.

Fixpoint media_segments (segments : list KcpSegment) : M (MediaReceiver * nat) MediaReceiveBatch :=
  match segments with
  | [] => mret (mkBatch [] [])
  | segment :: segments =>
      b ← media_segment segment;
      later ← media_segments segments;
      mret (mkBatch (acknowledgements b ++ acknowledgements later) (b_messages b ++ b_messages later))
  end.

Definition media_receive (wire : bytes) (from : address) : M (MediaReceiver * nat) MediaReceiveBatch :=
  _ ← on m_receiver set_receiver kcp_expire;
  m ← state;
  match negb (bool_decide (from = peer m)) || (MTP_MAX_FRAME_SIZE <? len wire) with
  | true => mret (mkBatch [] [])
  | false =>
      match parse_kcp_segments wire with
      | Ok segments => media_segments segments
      | Raise (ValueError _) => mret (mkBatch [] [])
      | Raise e => raise e
      end
  end.

(** ** [receive_lifecycle.py] *)

Inductive MediaPolicy := FINITE | CONTINUOUS.
Inductive phase := Initializing | Active | Closed.
#[global] Instance phase_eq_dec : EqDecision phase.
Proof. solve_decision. Defined.
#[global] Instance policy_eq_dec : EqDecision MediaPolicy.
Proof. solve_decision. Defined.

Record ReceiveLifecycle := mkLifecycle {
  l_policy : MediaPolicy; l_started : Z; l_progress : Z;
  l_initialization_timeout : Z; l_idle_timeout : Z; l_lifetime : Z; l_media : MediaReceiver; l_phase : phase
}.
Definition set_media m l := mkLifecycle (l_policy l) (l_started l) (l_progress l) (l_initialization_timeout l)
  (l_idle_timeout l) (l_lifetime l) m (l_phase l).
Definition set_progress t l := mkLifecycle (l_policy l) (l_started l) t (l_initialization_timeout l)
  (l_idle_timeout l) (l_lifetime l) (l_media l) (l_phase l).
Definition set_phase p l := mkLifecycle (l_policy l) (l_started l) (l_progress l) (l_initialization_timeout l)
  (l_idle_timeout l) (l_lifetime l) (l_media l) p.

(** The defaults of [KcpReceiver.__init__]. *)
Definition kcp_receiver (conv timeout : Z) : result receiver :=
  KcpReceive.init conv 0 KcpReceive.DEFAULT_RECEIVE_SEGMENTS (256 * 1024) timeout.

(** [ReceiveLifecycle.__init__], begun at the reading [began]. *)
Definition receive_lifecycle (peer : address) (conv initialization_timeout idle_timeout lifetime : Z) (policy : MediaPolicy)
    (began : Z) : result ReceiveLifecycle :=
  _ ← raise_if (existsb (λ '(value, upper), negb ((100 <=? value) && (value <=? upper)))
        [(initialization_timeout, 10000); (idle_timeout, 10000); (lifetime, 60000)])
        (ValueError "invalid receive lifecycle deadline");
  r ← kcp_receiver conv (if decide (policy = CONTINUOUS) then idle_timeout else 2000);
  Ok (mkLifecycle policy began began initialization_timeout idle_timeout lifetime (mkMedia peer r) Initializing).

Definition lifecycle_close (l : ReceiveLifecycle) : ReceiveLifecycle :=
  set_phase Closed (set_media (set_receiver (KcpReceive.close (m_receiver (l_media l))) (l_media l)) l).

Definition lifecycle_buffered (l : ReceiveLifecycle) : Z := KcpReceive.buffered_bytes (m_receiver (l_media l)).

Definition on_media {A} (m : M (MediaReceiver * nat) A) : M (ReceiveLifecycle * nat) A := on l_media set_media m.

Definition lifecycle_poll : M (ReceiveLifecycle * nat) unit :=
  closing lifecycle_close (
    _ ← on_media (on m_receiver set_receiver kcp_expire);
    t ← now;
    l ← state;
    _ ← check (bool_decide (l_policy l = FINITE) && (l_lifetime l <=? t - l_started l)) (ValueError "receive lifetime exceeded");
    match l_phase l with
    | Initializing => check (l_initialization_timeout l <=? t - l_started l) (ValueError "receive initialization deadline exceeded")
    | _ => check (l_idle_timeout l <=? t - l_progress l) (ValueError "receive progress deadline exceeded")
    end).

Definition activate : M (ReceiveLifecycle * nat) unit :=
  _ ← lifecycle_poll;
  l ← state;
  match l_phase l with
  | Initializing => assign (set_phase Active)
  | _ => _ ← assign lifecycle_close; raise (ValueError "receive lifecycle already activated")
  end.

Definition lifecycle_receive (wire : bytes) (from : address) : M (ReceiveLifecycle * nat) MediaReceiveBatch :=
  _ ← lifecycle_poll;
  result ← closing lifecycle_close (on_media (media_receive wire from));
  match b_messages result with
  | [] => mret result
  | _ => t ← now; _ ← assign (set_progress t); mret result
  end.

(** ** [av_pending.py] *)

Definition MAX_PENDING_BYTES : Z := 256 * 1024.
Definition MAX_PENDING_MESSAGES : Z := 128.
Definition PENDING_SECONDS : Z := 1000.

Record PendingAv := mkPending { p_since : option Z; p_messages : list bytes; p_buffered : Z }.

Definition pending_av : PendingAv := mkPending None [] 0.
Definition pending_clear (p : PendingAv) : PendingAv := mkPending None [] 0.

Definition pending_poll : M (PendingAv * nat) unit :=
  p ← state;
  match p_since p with
  | None => mret tt
  | Some since =>
      t ← now;
      match PENDING_SECONDS <=? t - since with
      | true => _ ← assign pending_clear; raise (ValueError "AV cross-channel acceptance deadline exceeded")
      | false => mret tt
      end
  end.

Definition pending_append (message : bytes) : M (PendingAv * nat) unit :=
  _ ← pending_poll;
  p ← state;
  match (MAX_PENDING_MESSAGES <=? len (p_messages p)) || (MAX_PENDING_BYTES <? p_buffered p + len message) with
  | true => _ ← assign pending_clear; raise (ValueError "AV cross-channel receive budget exceeded")
  | false =>
      _ ← (match p_since p with
           | None => t ← now; assign (λ p, mkPending (Some t) (p_messages p) (p_buffered p))
           | Some _ => mret tt
           end);
      assign (λ p, mkPending (p_since p) (p_messages p ++ [message]) (p_buffered p + len message))
  end.

Definition pending_take : M (PendingAv * nat) (list bytes) :=
  _ ← pending_poll;
  p ← state;
  _ ← assign pending_clear;
  mret (p_messages p).

(** ** [av_receive.py] *)

Record AvReceiver := mkAv {
  _control : option MediaReceiver; _call_id : Z; _cookie : bytes; _transport : ReceiveLifecycle;
  _parser : V1Receiver; _pending : PendingAv; _accepted : bool; _started : bool; _encoding : option V1EncodingHeader
}.
Definition set_control c s := mkAv c (_call_id s) (_cookie s) (_transport s) (_parser s) (_pending s) (_accepted s) (_started s) (_encoding s).
Definition set_transport l s := mkAv (_control s) (_call_id s) (_cookie s) l (_parser s) (_pending s) (_accepted s) (_started s) (_encoding s).
Definition set_parser p s := mkAv (_control s) (_call_id s) (_cookie s) (_transport s) p (_pending s) (_accepted s) (_started s) (_encoding s).
Definition set_pending p s := mkAv (_control s) (_call_id s) (_cookie s) (_transport s) (_parser s) p (_accepted s) (_started s) (_encoding s).
Definition set_accepted b s := mkAv (_control s) (_call_id s) (_cookie s) (_transport s) (_parser s) (_pending s) b (_started s) (_encoding s).
Definition set_started b s := mkAv (_control s) (_call_id s) (_cookie s) (_transport s) (_parser s) (_pending s) (_accepted s) b (_encoding s).
Definition set_encoding e s := mkAv (_control s) (_call_id s) (_cookie s) (_transport s) (_parser s) (_pending s) (_accepted s) (_started s) e.

(** [AvReceiver.__init__], with the clock reading of its lifecycle. *)
Definition av_receiver (peer : address) (conv call_id : Z) (cookie : bytes) (control_conv : option Z) (policy : MediaPolicy)
    (began : Z) : result AvReceiver :=
  _ ← raise_if (negb ((0 <=? call_id) && (call_id <=? 0xFFFFFFFF))) (ValueError "invalid AV call identifier");
  _ ← raise_if (negb (len cookie =? 8)) (ValueError "invalid AV cookie");
  _ ← raise_if (match control_conv with
                | Some c => negb ((0 <? conv) && (conv <=? 0xFFFFFF)) || negb (c =? Z.lor conv 0x80000000)
                | None => false
                end) (ValueError "invalid paired AV conversations");
  control ← (match control_conv with
             | Some c => r ← kcp_receiver c 2000; Ok (Some (mkMedia peer r))
             | None => Ok None
             end);
  transport ← receive_lifecycle peer conv 5000 5000 30000 policy began;
  Ok (mkAv control call_id cookie transport v1_receiver pending_av false false None).

Definition control_closed (c : option MediaReceiver) : option MediaReceiver :=
  (λ m, set_receiver (KcpReceive.close (m_receiver m)) m) <$> c.

Definition buffered_bytes (s : AvReceiver) : Z :=
  let control_bytes := match _control s with Some c => KcpReceive.buffered_bytes (m_receiver c) | None => 0 end in
  lifecycle_buffered (_transport s) + V1Receive.buffered_bytes (_parser s) + control_bytes + p_buffered (_pending s).

Definition av_close (s : AvReceiver) : AvReceiver :=
  mkAv (control_closed (_control s)) 0 [] (lifecycle_close (_transport s)) (V1Receive.close (_parser s))
    (pending_clear (_pending s)) false false None.

(** A call of the control receiver, where there is one. *)
Definition on_control {A} (none : A) (m : M (MediaReceiver * nat) A) : M (AvReceiver * nat) A := λ '(s, n),
  match _control s with
  | None => ((s, n), Ok none)
  | Some c => let '((c, n), r) := m (c, n) in ((set_control (Some c) s, n), r)
  end.

Definition av_poll : M (AvReceiver * nat) unit :=
  closing av_close (
    _ ← on _transport set_transport lifecycle_poll;
    _ ← on _pending set_pending pending_poll;
    on_control tt (on m_receiver set_receiver kcp_expire)).

Definition _check_control (call_id : Z) (message : bytes) (action : Z) : result unit :=
  _ ← raise_if (negb (len message =? 76) || negb (bool_decide (slice 0 4 message = [3; 0; 0x4C; 0])))
        (ValueError "unexpected AV control");
  call ← unpack_from 4 message 4;
  _ ← raise_if (negb (call =? call_id)) (ValueError "unexpected AV control");
  act ← unpack_from 4 message 8;
  raise_if (negb (act =? action)) (ValueError "unexpected AV control").

(** [len(message) < 4 or struct.unpack_from("<H", message, 2)[0] != len(message)] *)
Definition bad_envelope (message : bytes) : result bool :=
  if len message <? 4 then Ok true else n ← unpack_from 2 message 2; Ok (negb (n =? len message)).

(** [message[0] == kind and message[1] in (1, 2)] *)
Definition typed (kind : Z) (message : bytes) : bool :=
  match message with
  | b0 :: b1 :: _ => (b0 =? kind) && ((b1 =? 1) || (b1 =? 2))
  | _ => false
  end.

Definition is_control (message : bytes) : bool := match message with b0 :: _ => b0 =? 3 | [] => false end.

(** What a record tells the session. *)
Definition note_record (record : V1Record) : M (AvReceiver * nat) unit :=
  s ← state;
  match encoding record with
  | Some header =>
      _ ← check (match _encoding s with Some known => negb (bool_decide (known = header)) | None => false end)
            (ValueError "AV encoding changed");
      _ ← assign (set_encoding (Some header));
      s ← state;
      match l_phase (_transport s) with
      | Initializing => on _transport set_transport activate
      | _ => mret tt
      end
  | None => check (match _encoding s with Some _ => false | None => true end) (ValueError "AV record before encoding header")
  end.

Definition _message (message : bytes) : M (AvReceiver * nat) (list V1Record) :=
  bad ← lift (bad_envelope message);
  _ ← check bad (ValueError "invalid AV envelope");
  s ← state;
  let paired := match _control s with Some _ => true | None => false end in
  match paired && negb (_accepted s) with
  | true =>
      _ ← (match (p_buffered (_pending s) =? 0) || is_control message with
           | true => lift (_check_control (_call_id s) message 6)
           | false => check (negb (typed 4 message)) (ValueError "unexpected pre-accept AV message")
           end);
      _ ← on _pending set_pending (pending_append message);
      mret []
  | false =>
      match is_control message with
      | true =>
          _ ← lift (_check_control (_call_id s) message (if paired then 6 else 2));
          _ ← (match paired with
               | false => assign (set_accepted true)
               | true => check (negb (_accepted s)) (ValueError "START before correlated ACCEPT")
               end);
          _ ← assign (set_started true);
          mret []
      | false =>
          _ ← check (negb (typed 4 message) || negb (_accepted s) || negb (_started s))
                (ValueError "media without correlated acceptance");
          plain ← lift (decrypt_media_tlv message (_cookie s));
          records ← on _parser set_parser (timeless (V1Receive.feed plain));
          _ ← for_each note_record records;
          mret records
      end
  end.

(** One message of the control conversation; [true] for a command of it. *)
Definition control_message (message : bytes) : M (AvReceiver * nat) bool :=
  s ← state;
  unhandled ← lift (if _accepted s && negb (len message <? 4) && typed 2 message
                    then n ← unpack_from 2 message 2; Ok (n =? len message) else Ok false);
  match unhandled with
  | true => mret true
  | false =>
      _ ← lift (_check_control (_call_id s) message 2);
      _ ← assign (set_accepted true);
      mret false
  end.

Fixpoint control_messages (messages : list bytes) : M (AvReceiver * nat) Z :=
  match messages with
  | [] => mret 0
  | m :: messages => u ← control_message m; n ← control_messages messages; mret (Z.b2z u + n)
  end.

(** [for message in ...: records.extend(self._message(message))] *)
Fixpoint _messages (messages : list bytes) : M (AvReceiver * nat) (list V1Record) :=
  match messages with
  | [] => mret []
  | m :: messages => r ← _message m; later ← _messages messages; mret (r ++ later)
  end.

Record AvReceiveBatch := mkAvBatch { av_acknowledgements : list bytes; records : list V1Record; unhandled_commands : Z }.

Definition av_receive (wire : bytes) (from : address) : M (AvReceiver * nat) AvReceiveBatch :=
  failing av_close (ValueError "AV receive session failed") (
    _ ← av_poll;
    controls ← on_control (mkBatch [] []) (media_receive wire from);
    unhandled ← control_messages (b_messages controls);
    batch ← on _transport set_transport (lifecycle_receive wire from);
    s ← state;
    waited ← (match _accepted s with
              | true => early ← on _pending set_pending pending_take; _messages early
              | false => mret []
              end);
    fresh ← _messages (b_messages batch);
    mret (mkAvBatch (acknowledgements controls ++ acknowledgements batch) (waited ++ fresh) unhandled)).

(** ** Sessions *)

Inductive call := Poll | Receive (wire : bytes) (from : address) | CloseAv.

(** A call and the records it hands over. *)
Definition exec (c : call) (s : AvReceiver * nat) : (AvReceiver * nat) * list V1Record :=
  match c with
  | Poll => ((av_poll s).1, [])
  | Receive wire from =>
      match av_receive wire from s with
      | (s, Ok batch) => (s, records batch)
      | (s, Raise _) => (s, [])
      end
  | CloseAv => ((av_close s.1, s.2), [])
  end.

Fixpoint session (s : AvReceiver * nat) (calls : list call) : (AvReceiver * nat) * list V1Record :=
  match calls with
  | [] => (s, [])
  | c :: calls => let '(s, issued) := exec c s in let '(s, later) := session s calls in (s, issued ++ later)
  end.
End Clock.

(** ** Reasoning about objects with a clock *)

Section Ends.
Context {X : Type}.
Implicit Types x : X.

Lemma ends_closing {A} close (m : M (X * nat) A) (P : result A → X → Prop) x :
  ends m (λ r x, match r with Raise (ValueError e) => P (Raise (ValueError e)) (close x) | r => P r x end) x →
  ends (closing close m) P x.
Proof. intros H n. specialize (H n). unfold wp, closing in *. by destruct (m _) as [[y n'] [|[]]]. Qed.

Lemma ends_failing {A} close e (m : M (X * nat) A) (P : result A → X → Prop) x :
  ends m (λ r x, match r with Raise (ValueError _) => P (Raise e) (close x) | r => P r x end) x →
  ends (failing close e m) P x.
Proof. intros H n. specialize (H n). unfold wp, failing in *. by destruct (m _) as [[y n'] [|[]]]. Qed.
End Ends.

Ltac go1 :=
  lazymatch goal with
  | |- ends (closing _ _) _ _ => apply ends_closing
  | |- ends (failing _ _ _) _ _ => apply ends_failing
  | |- _ => ends_step
  end.

Definition value_error (e : exn) : Prop := ∃ msg, e = ValueError msg.
(** The call raised a [ValueError]. *)
Definition refused {A} (res : result A) : Prop := ∃ e, res = Raise e ∧ value_error e.

(** ** The transports *)

Section Transport.
Context (clock : nat → Z).

(** What a receiver has delivered, kept by every segment of a kind. *)
Context (J : list bytes → receiver → Prop) (genuine : KcpSegment → Prop).
Context (J_idle : ∀ D r, J D r → KcpReceive.idle r).
Context (J_step : ∀ t1 t2 t3 s r r' res D, J D r → genuine s → KcpReceive.receive t1 t2 t3 s r = (r', inr res) →
  J (D ++ KcpReceive.messages res) r').

Lemma idle_open r : KcpReceive.idle r → KcpReceive.closed r = false.
Proof. by intros [[] _]. Qed.

Lemma closed_expire r : KcpReceive.closed r = true → ends (kcp_expire clock) (λ res r', r' = r ∧ ∃ e, res = Raise e ∧ value_error e) r.
Proof.
  intros Hc. unfold kcp_expire. do 2 go1. intros n. unfold wp, timeless, kcp. rewrite KcpReceive.expire_spec, Hc. cbn.
  split; [done|]. eexists. split; [done|]. by eexists.
Qed.

Lemma expire_ok r : KcpReceive.idle r →
  ends (kcp_expire clock) (λ res r', match res with Ok _ => r' = r | Raise e => value_error e end) r.
Proof.
  intros Hi. unfold kcp_expire. do 2 go1. intros n. unfold wp, timeless, kcp. rewrite KcpReceive.expire_spec, (idle_open r Hi).
  destruct (match KcpReceive._since r with Some s => _ | None => _ end); cbn; [by eexists|done].
Qed.

Lemma kcp_receive_ok s r D : J D r → genuine s →
  ends (kcp_receive clock s) (λ res r', match res with
    | Ok b => J (D ++ KcpReceive.messages b) r' ∧ 0 ≤ KcpReceive.available_window r' ≤ 128
    | Raise e => value_error e end) r.
Proof.
  intros Hr Hs. unfold kcp_receive. do 6 go1. intros n. unfold wp, timeless, kcp.
  pose proof (KcpReceive.receive_valid t t0 t1 s r (or_introl (J_idle D r Hr))) as Hv.
  pose proof (J_step t t0 t1 s r) as Hj. destruct (KcpReceive.receive t t0 t1 s r) as [r' [e|b]]; cbn.
  - destruct Hv as [_ Hne]. destruct e; try done; by eexists.
  - split; [by eapply Hj|]. destruct Hv as [[Ho Hb Hn Hsl _ _ _ _] _]. unfold KcpReceive.available_window. rewrite Ho. unfold len in *. lia.
Qed.

Lemma ack_ok c sn ts una w : 0 ≤ w ≤ 128 → ∃ f, build_kcp_ack c sn ts una w = Ok f.
Proof.
  intros Hw. destruct (MediaProtocol.kcp_builders_parsed 0 c sn [] ts una w) as (_ & (f & E & _) & _);
    [constructor|vm_compute; discriminate|lia|]. by exists f.
Qed.

Lemma report_ok c una w : 0 ≤ c < 2 ^ 32 → 0 ≤ una < 2 ^ 32 → 0 ≤ w ≤ 128 → ∃ f, build_window_report c una w = Ok f.
Proof.
  intros Hc Hu Hw. destruct (MediaProtocol.kcp_builders_parsed 0 c 0 [] 0 una w) as (_ & _ & (f & E & _));
    [constructor|vm_compute; discriminate|lia|]. rewrite !land_mask32, !Z.mod_small in E by done. by exists f.
Qed.

Lemma idle_window r : KcpReceive.idle r → 0 ≤ KcpReceive.available_window r ≤ 128.
Proof. intros [[Ho Hb Hn Hsl _ _ _ _] _]. unfold KcpReceive.available_window. rewrite Ho. unfold len in *. lia. Qed.

Definition media_ok (from : address) (D : list bytes) (m : MediaReceiver) : Prop := peer m = from ∧ J D (m_receiver m).

Lemma media_segment_ok s from m D : media_ok from D m → genuine s → 0 ≤ conv s < 2 ^ 32 →
  ends (media_segment clock s) (λ res m', match res with
    | Ok b => media_ok from (D ++ b_messages b) m'
    | Raise e => value_error e end) m.
Proof.
  intros [Hp Hr] Hs Hc. pose proof (J_idle _ _ Hr) as Hi. unfold media_segment. do 2 go1. go1.
  - destruct (report_ok (conv s) (KcpReceive.next_sequence (m_receiver m)) (KcpReceive.available_window (m_receiver m)))
      as [f E]; [done|by apply Hi|by apply idle_window|]. rewrite E. do 3 go1. rewrite app_nil_r. by split.
  - go1. go1. eapply ends_mono; [by apply (kcp_receive_ok s _ D)|]. intros [b|e] r'; [|done]. intros [Hj Hw]. do 2 go1. go1; [|by go1].
    destruct (ack_ok (conv s) (sequence s) (MediaProtocol.timestamp s) (KcpReceive.r_unacknowledged b) (KcpReceive.available_window r') Hw) as [f E].
    cbn [m_receiver set_receiver]. rewrite E. by do 3 go1.
Qed.

Lemma media_segments_ok ss from : ∀ m D, media_ok from D m → Forall genuine ss → Forall (λ s, 0 ≤ conv s < 2 ^ 32) ss →
  ends (media_segments clock ss) (λ res m', match res with
    | Ok b => media_ok from (D ++ b_messages b) m'
    | Raise e => value_error e end) m.
Proof.
  induction ss as [|s ss IH]; intros m D Hm Hs Hc; cbn [media_segments]; [go1; by rewrite app_nil_r|].
  apply Forall_cons_iff in Hs as [Hs Hss]. apply Forall_cons_iff in Hc as [Hc Hcs]. go1.
  eapply ends_mono; [by apply media_segment_ok|]. intros [b|e] m' Hm'; [|done]. go1.
  eapply ends_mono; [by apply IH|]. intros [b'|e] m2 Hm2; [|done]. go1. cbn [b_messages]. by rewrite app_assoc.
Qed.

(** What the caller knows of a datagram. *)
Definition genuine_wire (wire : bytes) : Prop :=
  bytes_ok wire ∧ ∀ ss, parse_kcp_segments wire = Ok ss → Forall genuine ss.

Lemma media_receive_ok wire from from' m D : media_ok from D m → bytes_ok wire → (from' = from → genuine_wire wire) →
  ends (media_receive clock wire from') (λ res m', match res with
    | Ok b => media_ok from (D ++ b_messages b) m'
    | Raise e => value_error e end) m.
Proof.
  intros [Hp Hr] Hb Hw. pose proof (J_idle _ _ Hr) as Hi. unfold media_receive. do 2 go1.
  eapply ends_mono; [by apply expire_ok|]. intros [[]|e] r'; [|done]. intros ->. do 2 go1.
  assert (Hm : set_receiver (m_receiver m) m = m) by (by destruct m). rewrite Hm.
  assert (Hnil : media_ok from (D ++ []) m) by (rewrite app_nil_r; by split). go1; [by go1|].
  apply orb_false_elim in Heqb as [Hpeer%negb_false_iff%bool_decide_eq_true _].
  destruct (Hw ltac:(congruence)) as [_ Hg]. pose proof (MediaProtocol.parse_sound wire Hb) as Hs.
  destruct (parse_kcp_segments wire) as [ss|[]]; try done; [|by go1]. destruct Hs as (_ & Hs & _).
  apply media_segments_ok; [by split|by apply Hg|]. eapply list.Forall_impl; [done|]. intros s' Hok. apply Hok.
Qed.

Definition life_ok (from : address) (D : list bytes) (l : ReceiveLifecycle) : Prop :=
  l_phase l ≠ Closed ∧ media_ok from D (l_media l).
Definition life_closed (l : ReceiveLifecycle) : Prop := l_phase l = Closed ∧ KcpReceive.is_closed (m_receiver (l_media l)).

Lemma lifecycle_poll_ok l from D : life_ok from D l →
  ends (lifecycle_poll clock) (λ res l', match res with Ok _ => l' = l | Raise e => value_error e ∧ life_closed l' end) l.
Proof.
  intros [Hph [Hp Hr]]. pose proof (J_idle _ _ Hr) as Hi. unfold lifecycle_poll, on_media. do 4 go1.
  eapply ends_mono; [by apply expire_ok|]. intros [[]|e] r'; [|intros [msg ->]; split; [by eexists|done]]. intros ->.
  assert (Hl : set_media (set_receiver (m_receiver (l_media l)) (l_media l)) l = l) by (by destruct l as [??????[]]).
  rewrite Hl. repeat go1; try done; (split; [by eexists|done]).
Qed.

Lemma activate_ok l from D : life_ok from D l → l_phase l = Initializing →
  ends (activate clock) (λ res l', match res with Ok _ => l' = set_phase Active l | Raise e => value_error e end) l.
Proof.
  intros Hl Hph. unfold activate. go1. eapply ends_mono; [by eapply lifecycle_poll_ok|]. intros [[]|e] l'; [|by intros []].
  intros ->. do 2 go1. rewrite Hph. by go1.
Qed.

Lemma lifecycle_receive_ok wire from from' l D : life_ok from D l → bytes_ok wire → (from' = from → genuine_wire wire) →
  ends (lifecycle_receive clock wire from') (λ res l', match res with
    | Ok b => life_ok from (D ++ b_messages b) l' ∧ l_phase l' = l_phase l
    | Raise e => value_error e end) l.
Proof.
  intros Hl Hb Hw. unfold lifecycle_receive. go1. eapply ends_mono; [by eapply lifecycle_poll_ok|].
  intros [[]|e] l'; [|by intros []]. intros ->. destruct Hl as [Hph Hm]. unfold on_media. do 3 go1.
  eapply ends_mono; [by apply (media_receive_ok wire from from' (l_media l) D)|]. intros [b|e] m' Hm'.
  - assert (Hl' : life_ok from (D ++ b_messages b) (set_media m' l)) by (by split). 
    go1; repeat go1; (split; [|done]); rewrite Heql0; apply Hl'.
  - by destruct Hm' as [msg ->]; eexists.
Qed.

Lemma poll_closed l : life_closed l → ends (lifecycle_poll clock) (λ res l', refused res ∧ life_closed l') l.
Proof.
  intros [Hp Hc]. unfold lifecycle_poll, on_media. do 4 go1.
  eapply ends_mono; [apply closed_expire; apply Hc|]. intros res r' [-> (e & -> & msg & ->)]. split; [|done].
  eexists. split; [done|]. by eexists.
Qed.
End Transport.

(** A stream whose messages are delivered in order, and a conversation of which
    nothing is assumed. *)
Definition base (c : Z) (L : list (Z * bytes)) (D : list bytes) (r : receiver) : Prop :=
  KcpReceive.idle r ∧ ∃ k, KcpReceive.tracks c 0 L k D r.
Definition of_stream (c : Z) (L : list (Z * bytes)) (s : KcpSegment) : Prop :=
  conv s = c → command s = KCP_PUSH → KcpReceive.sent 0 L s.

Lemma base_step c L t1 t2 t3 s r r' res D : len L ≤ 2 ^ 31 → base c L D r → of_stream c L s →
  KcpReceive.receive t1 t2 t3 s r = (r', inr res) → base c L (D ++ KcpReceive.messages res) r'.
Proof.
  intros HL [Hi [k Hk]] Hs E. pose proof (KcpReceive.receive_valid t1 t2 t3 s r (or_introl Hi)) as Hv.
  pose proof (KcpReceive.receive_tracks c 0 L HL t1 t2 t3 s r k D (or_introl Hi) (or_introl Hk) Hs) as Ht.
  rewrite E in Hv, Ht. destruct Ht as (k' & Ht & _). split; [done|by exists k'].
Qed.

Lemma base_idle c L D r : base c L D r → KcpReceive.idle r.
Proof. by intros []. Qed.

Definition any_stream (D : list bytes) (r : receiver) : Prop := KcpReceive.idle r.

Lemma any_step t1 t2 t3 s r r' res D : any_stream D r → True →
  KcpReceive.receive t1 t2 t3 s r = (r', inr res) → any_stream (D ++ KcpReceive.messages res) r'.
Proof. intros Hi _ E. pose proof (KcpReceive.receive_valid t1 t2 t3 s r (or_introl Hi)) as Hv. by rewrite E in Hv. Qed.

(** ** The session *)

(** How the encoding header of a session follows from the records issued:
    [None] when a record contradicts it or comes before it. *)
Fixpoint follows (e : option V1EncodingHeader) (rs : list V1Record) : option (option V1EncodingHeader) :=
  match rs with
  | [] => Some e
  | r :: rs =>
      match encoding r, e with
      | Some h, Some known => if decide (known = h) then follows e rs else None
      | Some h, None => follows (Some h) rs
      | None, Some _ => follows e rs
      | None, None => None
      end
  end.

Lemma follows_app e rs rs' : follows e (rs ++ rs') = follows e rs ≫= λ e, follows e rs'.
Proof.
  revert e. induction rs as [|r rs IH]; intros e; [done|]. cbn [follows app].
  destruct (encoding r) as [h|], e as [known|]; try apply IH; [|done]. by destruct (decide (known = h)).
Qed.

Lemma follows_known h rs e : follows (Some h) rs = Some e →
  e = Some h ∧ Forall (λ r, encoding r = None ∨ encoding r = Some h) rs.
Proof.
  induction rs as [|r rs IH]; cbn [follows]; [by intros [= <-]|]. destruct (encoding r) as [h'|] eqn:He.
  - destruct (decide (h = h')) as [<-|]; [|done]. intros H. destruct (IH H). split; [done|]. constructor; [by right|done].
  - intros H. destruct (IH H). split; [done|]. constructor; [by left|done].
Qed.

Lemma follows_spec rs e : follows None rs = Some e →
  rs = [] ∧ e = None ∨
  ∃ h r rs', e = Some h ∧ rs = r :: rs' ∧ encoding r = Some h ∧ Forall (λ r, encoding r = None ∨ encoding r = Some h) rs.
Proof.
  destruct rs as [|r rs]; cbn [follows]; [intros [= <-]; by left|]. destruct (encoding r) as [h|] eqn:He; [|done].
  intros H. destruct (follows_known _ _ _ H) as [-> Hall]. right. exists h, r, rs. split_and!; try done.
  constructor; [by right|done].
Qed.

Section Session.
Context (clock : nat → Z) (from : address) (c : Z) (L : list (Z * bytes)) (cookie : bytes) (call_id : Z).
Context (HL : len L ≤ 2 ^ 31) (Hcookie : len cookie = 8).

Definition decrypts (m p : bytes) : Prop := decrypt_media_tlv m cookie = Ok p.
Definition media_of (processed : list bytes) : list bytes := List.filter (λ m, negb (is_control m)) processed.

(** The records [issued] are those of the media messages [processed]: the
    decrypted payloads joined and cut at record boundaries, with [rest] kept. *)
Definition issued_from (processed : list bytes) (issued : list V1Record) (rest : bytes) : Prop :=
  (∀ m, head processed = Some m → is_control m = true ∧ ∃ action, _check_control call_id m action = Ok tt) ∧
  ∃ payloads, Forall2 decrypts (media_of processed) payloads ∧ V1Receive.splits (concat payloads) issued rest.

Definition pending_ok (p : PendingAv) : Prop :=
  p_buffered p = len (concat (p_messages p)) ∧ p_buffered p ≤ MAX_PENDING_BYTES ∧ len (p_messages p) ≤ MAX_PENDING_MESSAGES ∧
  (p_since p = None → p_messages p = []).

Record open_ok (D todo : list bytes) (issued : list V1Record) (s : AvReceiver) : Prop := {
  oo_life : life_ok (base c L) from D (_transport s);
  oo_control : match _control s with Some m => media_ok any_stream from [] m | None => True end;
  oo_parser : V1Receive.closed (_parser s) = false ∧ V1Receive.stuck (V1Receive._buffer (_parser s)) ∧
    V1Receive.buffered_bytes (_parser s) ≤ V1Receive.MAX_RECORD + V1Receive.MAX_CHUNK;
  oo_cookie : _cookie s = cookie ∧ _call_id s = call_id;
  oo_pending : pending_ok (_pending s);
  oo_encoding : follows None issued = Some (_encoding s);
  oo_active : l_phase (_transport s) = Active ↔ is_Some (_encoding s);
  oo_order : (is_Some (_encoding s) → _started s = true) ∧ (_started s = true → _accepted s = true);
  oo_single : _control s = None → p_messages (_pending s) = [];
  oo_flow : ∃ processed, D = processed ++ p_messages (_pending s) ++ todo ∧
    issued_from processed issued (V1Receive._buffer (_parser s)) ∧ (_started s = false ↔ processed = [])
}.

(** Between two calls nothing waits for an acceptance that has come. *)
Definition settled (s : AvReceiver) : Prop := _accepted s = true → p_messages (_pending s) = [].

Record av_closed (s : AvReceiver) : Prop := {
  ac_life : life_closed (_transport s);
  ac_control : match _control s with Some m => KcpReceive.is_closed (m_receiver m) | None => True end;
  ac_parser : _parser s = V1Receive.mkV1 [] true;
  ac_pending : _pending s = pending_av;
  ac_secrets : _cookie s = [] ∧ _call_id s = 0;
  ac_flags : _accepted s = false ∧ _started s = false ∧ _encoding s = None
}.

Lemma av_close_closed s : av_closed (av_close s).
Proof. split; try done. cbn. by destruct (_control s). Qed.

Lemma av_closed_empty s : av_closed s → buffered_bytes s = 0.
Proof.
  intros [[_ (_ & _ & _ & _ & Hb & _)] Hc Hp Hq _ _]. unfold buffered_bytes, lifecycle_buffered. rewrite Hb, Hp, Hq.
  destruct (_control s) as [m|]; [|done]. cbn. by destruct Hc as (_ & _ & _ & _ & -> & _).
Qed.

(** *** The queue before the acceptance *)

Lemma pending_poll_ok p : ends (pending_poll clock) (λ res p', match res with Ok _ => p' = p | Raise e => value_error e end) p.
Proof. unfold pending_poll. repeat go1; try done; by eexists. Qed.

Lemma pending_append_ok m p : pending_ok p →
  ends (pending_append clock m) (λ res p', match res with
    | Ok _ => pending_ok p' ∧ p_messages p' = p_messages p ++ [m]
    | Raise e => value_error e end) p.
Proof.
  intros (Hb & Hm & Hn & Hs). unfold pending_append. go1. eapply ends_mono; [apply pending_poll_ok|].
  intros [[]|e] p'; [|done]. intros ->. do 2 go1. go1; [do 3 go1; by eexists|].
  apply orb_false_elim in Heqb as [Hl%Z.leb_gt Hby%Z.ltb_ge].
  assert (Hnew : ∀ since, since ≠ None → pending_ok (mkPending since (p_messages p ++ [m]) (p_buffered p + len m))).
  { intros since Hsi. split_and!; cbn; [|done| |done]; [|len_simpl; lia].
    rewrite Hb, concat_app. cbn. rewrite app_nil_r. len_simpl. lia. }
  go1. destruct (p_since p) as [since|] eqn:Hsi; repeat go1; (split; [|done]); cbn; rewrite ?Hsi; by apply Hnew.
Qed.

Lemma pending_take_ok p :
  ends (pending_take clock) (λ res p', match res with Ok ms => p' = pending_av ∧ ms = p_messages p | Raise e => value_error e end) p.
Proof.
  unfold pending_take. go1. eapply ends_mono; [apply pending_poll_ok|]. intros [[]|e] p'; [|done]. intros ->. by repeat go1.
Qed.

(** *** Messages *)

Definition phase_of (e : option V1EncodingHeader) : phase := match e with Some _ => Active | None => Initializing end.
Definition noted (e : option V1EncodingHeader) (s : AvReceiver) : AvReceiver :=
  set_encoding e (set_transport (set_phase (phase_of e) (_transport s)) s).

Lemma noted_same s : l_phase (_transport s) = phase_of (_encoding s) → noted (_encoding s) s = s.
Proof. intros H. unfold noted. rewrite <- H. by destruct s as [???[]]. Qed.

Lemma life_noted D e s : life_ok (base c L) from D (_transport s) → life_ok (base c L) from D (_transport (noted e s)).
Proof. intros [_ ?]. split; [|done]. by destruct e. Qed.

Lemma note_record_ok r D s : life_ok (base c L) from D (_transport s) → l_phase (_transport s) = phase_of (_encoding s) →
  ends (note_record clock r) (λ res s', match res with
    | Ok _ => ∃ e, follows (_encoding s) [r] = Some e ∧ s' = noted e s
    | Raise e => value_error e end) s.
Proof.
  intros Hl Hph. unfold note_record. do 2 go1. cbn [follows]. destruct (encoding r) as [h|] eqn:He.
  - do 2 go1; [by eexists|].
    assert (Hf : match _encoding s with Some known => if decide (known = h) then Some (_encoding s) else None | None => Some (Some h) end = Some (Some h)).
    { destruct (_encoding s) as [known|]; [|done]. apply negb_false_iff, bool_decide_eq_true in H as ->. by rewrite decide_True. }
    do 4 go1. cbn [_transport set_encoding]. destruct (l_phase (_transport s)) eqn:Hp.
    + go1. eapply ends_mono; [by eapply (activate_ok clock (base c L) (base_idle c L)); [exact Hl|]|].
      intros [[]|e] l'; [|done]. intros ->. exists (Some h). split; [exact Hf|done].
    + go1. exists (Some h). split; [done|]. unfold noted. cbn. rewrite <- Hp. by destruct s as [???[]].
    + by destruct Hl.
  - go1; [by eexists|]. exists (_encoding s). split; [by destruct (_encoding s)|]. by rewrite noted_same.
Qed.

Lemma note_records_ok rs D : ∀ s, life_ok (base c L) from D (_transport s) → l_phase (_transport s) = phase_of (_encoding s) →
  ends (for_each (note_record clock) rs) (λ res s', match res with
    | Ok _ => ∃ e, follows (_encoding s) rs = Some e ∧ s' = noted e s
    | Raise e => value_error e end) s.
Proof.
  induction rs as [|r rs IH]; intros s Hl Hph; cbn [for_each]; [go1; exists (_encoding s); by rewrite noted_same|].
  go1. eapply ends_mono; [by eapply note_record_ok|]. intros [[]|e] s1; [|done]. intros (e1 & Hf1 & ->).
  eapply ends_mono; [apply IH; [by apply life_noted|done]|]. intros [[]|e] s2; [|done]. intros (e2 & Hf2 & ->).
  exists e2. split; [|done]. change (r :: rs) with ([r] ++ rs). by rewrite follows_app, Hf1.
Qed.

Lemma media_of_app a b : media_of (a ++ b) = media_of a ++ media_of b.
Proof. apply List.filter_app. Qed.

(** One more message of the stream is processed. *)
Lemma issued_control processed issued rest m : issued_from processed issued rest → is_control m = true →
  (∃ action, _check_control call_id m action = Ok tt) → issued_from (processed ++ [m]) issued rest.
Proof.
  intros [Hh (ps & Hd & Hs)] Hm Hc. split; [by destruct processed; [intros ? [= <-]|]|]. exists ps. split; [|done].
  rewrite media_of_app. cbn. rewrite Hm. by rewrite app_nil_r.
Qed.

Lemma issued_media processed issued rest m p rs rest' : issued_from processed issued rest → processed ≠ [] →
  is_control m = false → decrypts m p → V1Receive.splits (rest ++ p) rs rest' →
  issued_from (processed ++ [m]) (issued ++ rs) rest'.
Proof.
  intros [Hh (ps & Hd & Hs)] Hne Hm Hp Hsp. split; [by destruct processed|]. exists (ps ++ [p]). split.
  - rewrite media_of_app. cbn. rewrite Hm. apply Forall2_app; [done|]. by constructor.
  - rewrite concat_app. cbn. rewrite app_nil_r. by eapply V1Receive.splits_app.
Qed.

Lemma envelope_value m : value_or (λ bad, bad = false → (4 ≤ length m)%nat) (bad_envelope m).
Proof.
  unfold bad_envelope. destruct (Z.ltb_spec (len m) 4); [done|]. rewrite unpack_from_ok by (unfold len in *; lia).
  bind_simpl. intros _. unfold len in *. lia.
Qed.

Lemma check_control_value call m action : value_or (λ _, True) (_check_control call m action).
Proof.
  unfold _check_control. apply value_or_raise_if. intros [Hl%negb_false_iff%Z.eqb_eq _]%orb_false_elim.
  assert (length m = 76%nat) by (unfold len in Hl; lia). rewrite !unpack_from_ok by lia. rewrite bind_ret.
  apply value_or_raise_if. intros _. rewrite bind_ret. by destruct (negb _).
Qed.

Lemma decrypt_value m : value_or (λ _, True) (decrypt_media_tlv m cookie).
Proof using Hcookie.
  clear HL. unfold decrypt_media_tlv, StreamProtocol._crypt_tlv. rewrite guard_pass by (by rewrite Hcookie).
  destruct (GuteFrame.GuteFrame.init32 cookie) as (cipher & Hc & Hw). rewrite Hc.
  eapply value_or_bind with (P := λ body, (4 ≤ length body)%nat).
  - unfold StreamProtocol.tlv_body. apply value_or_raise_if. intros Hl%Z.ltb_ge. unfold len in Hl.
    rewrite index_ok, bind_ret by lia. apply value_or_raise_if. intros _. rewrite unpack_from_ok, bind_ret by lia.
    apply value_or_raise_if. intros _. cbn. lia.
  - intros body Hl _. rewrite bind_ret. cbv zeta. rewrite <- (take_drop 4 body).
    by rewrite (StreamProtocol.crypt_loop_tlv cipher Hw) by len_solve.
Qed.

Lemma phase_known D todo issued s : open_ok D todo issued s → l_phase (_transport s) = phase_of (_encoding s).
Proof.
  intros [[Hne _] _ _ _ _ _ Hact _ _ _]. destruct (_encoding s) as [h|]; cbn; [by apply Hact|].
  destruct (l_phase (_transport s)) eqn:E; try done. destruct (proj1 Hact eq_refl). done.
Qed.

(** A message joins the queue. *)
Lemma open_queued D m todo issued s p : open_ok D (m :: todo) issued s → is_Some (_control s) → _accepted s = false →
  pending_ok p → p_messages p = p_messages (_pending s) ++ [m] → open_ok D todo issued (set_pending p s) ∧ settled (set_pending p s).
Proof.
  intros [Hl Hctl Hpar Hck Hpend Henc Hact Hord Hsingle (processed & HD & Hiss & Hst)] Hc Ha Hp Hm.
  split; [|by intros H; cbn in H; congruence]. split; try done.
  - cbn. intros H. rewrite H in Hc. by destruct Hc.
  - exists processed. cbn. rewrite Hm, <- app_assoc. by split_and!.
Qed.

(** A control message is consumed. *)
Lemma open_control D m todo issued s : open_ok D (m :: todo) issued s → p_messages (_pending s) = [] → is_control m = true →
  (∃ action, _check_control call_id m action = Ok tt) → let s' := set_started true (set_accepted true s) in open_ok D todo issued s' ∧ settled s'.
Proof.
  intros [Hl Hctl Hpar Hck Hpend Henc Hact Hord Hsingle (processed & HD & Hiss & Hst)] Hp Hm Hcc. split; [|by intros _]. split; try done.
  exists (processed ++ [m]). cbn. rewrite Hp in *. rewrite <- app_assoc. split_and!; [done|by apply issued_control|].
  split; [done|]. by intros [_ H]%app_eq_nil.
Qed.

(** A media message is consumed, and its records are noted. *)
Lemma open_media D m todo issued s plain records parser e : open_ok D (m :: todo) issued s → p_messages (_pending s) = [] →
  is_control m = false → _started s = true → decrypts m plain →
  V1Receive.closed parser = false → V1Receive.stuck (V1Receive._buffer parser) →
  V1Receive.buffered_bytes parser ≤ V1Receive.MAX_RECORD + V1Receive.MAX_CHUNK →
  V1Receive.splits (V1Receive._buffer (_parser s) ++ plain) records (V1Receive._buffer parser) →
  follows (_encoding s) records = Some e →
  let s' := noted e (set_parser parser s) in open_ok D todo (issued ++ records) s' ∧ settled s'.
Proof.
  intros [Hl Hctl Hpar Hck Hpend Henc Hact [Hord1 Hord2] Hsingle (processed & HD & Hiss & Hst)] Hp Hm Hs Hd Hc1 Hc2 Hc3 Hsp Hf.
  split; [|by intros _]. split; try done.
  - by apply (life_noted D e (set_parser parser s)).
  - rewrite follows_app, Henc. exact Hf.
  - cbn. destruct e; cbn; split; try done.
  - exists (processed ++ [m]). cbn. rewrite Hp in *. rewrite <- app_assoc. split_and!; [done| |].
    + eapply issued_media; try done. intros ->. by rewrite (proj2 Hst eq_refl) in Hs.
    + split; [congruence|]. by intros [_ H]%app_eq_nil.
Qed.

Lemma message_ok m D todo issued s : open_ok D (m :: todo) issued s → settled s →
  ends (_message clock m) (λ res s', match res with
    | Ok rs => open_ok D todo (issued ++ rs) s' ∧ settled s'
    | Raise e => value_error e end) s.
Proof.
  intros Ho Hset. pose proof Ho as [Hl Hctl Hpar [Hck Hid] Hpend Henc Hact [Hord1 Hord2] Hsingle (processed & HD & Hiss & Hst)].
  unfold _message. do 2 go1. pose proof (envelope_value m) as Hev. destruct (bad_envelope m) as [bad|[]]; try done; [|by eexists].
  go1. go1; [by eexists|]. specialize (Hev H). do 2 go1. cbv zeta. go1.
  - apply andb_prop in Heqb as [Hpaired Ha%negb_true_iff]. assert (Hc : is_Some (_control s)) by (by destruct (_control s)).
    go1. eapply ends_mono with (P := λ res s', match res with Ok _ => s' = s | Raise e => value_error e end).
    { go1; go1; [|by eexists|done]. pose proof (check_control_value (_call_id s) m 6) as Hv.
      destruct (_check_control _ _ _) as [|[]]; try done; by eexists. }
    intros [[]|e] s'; [|done]. intros ->. do 2 go1.
    eapply ends_mono; [by apply (pending_append_ok m)|]. intros [[]|e] p'; [|done]. intros [Hp Hm].
    go1. rewrite app_nil_r. by eapply open_queued.
  - assert (Hp : p_messages (_pending s) = []).
    { apply andb_false_iff in Heqb as [Hc|Ha%negb_false_iff]; [apply Hsingle; by destruct (_control s)|by apply Hset]. }
    go1.
    + do 2 go1. pose proof (check_control_value (_call_id s) m (match _control s with Some _ => 6 | None => 2 end)) as Hv.
      replace (if match _control s with Some _ => true | None => false end then 6 else 2)
        with (match _control s with Some _ => 6 | None => 2 end) by (by destruct (_control s)).
      destruct (_check_control _ _ _) as [[]|[]] eqn:Hchk; try done; [|by eexists]. rewrite Hid in Hchk.
      pose proof (open_control D m todo issued s Ho Hp Heqb0 ltac:(by eexists)) as Hnew. cbn zeta in Hnew.
      go1. destruct (_control s) as [ctl|] eqn:Hc.
      * go1; [by eexists|]. do 3 go1. rewrite app_nil_r. apply negb_false_iff in H0.
        replace (set_started true s) with (set_started true (set_accepted true s)) by (rewrite <- H0; by destruct s). done.
      * do 4 go1. by rewrite app_nil_r.
    + go1. go1; [by eexists|]. apply orb_false_elim in H0 as [[Hty Ha]%orb_false_elim Hs]. apply negb_false_iff in Ha, Hs.
      do 2 go1. rewrite Hck. pose proof (decrypt_value m) as Hdv. destruct (decrypt_media_tlv m cookie) as [plain|[]] eqn:Hd; try done; [|by eexists].
      do 2 go1. apply ends_timeless. eapply wp_mono; [apply V1Receive.splitter_feed_ok|]. intros [records|e] parser; [|by intros [[msg ->] _]; eexists].
      intros (_ & Hc1 & Hsp & Hc2 & _ & Hc3). go1.
      eapply ends_mono; [apply (note_records_ok records D); [exact Hl|exact (phase_known _ _ _ _ Ho)]|].
      intros [[]|e] s'; [|done]. intros (e & Hf & ->). go1. by eapply open_media.
Qed.

Lemma messages_ok ms D : ∀ todo issued s, open_ok D (ms ++ todo) issued s → settled s →
  ends (_messages clock ms) (λ res s', match res with
    | Ok rs => open_ok D todo (issued ++ rs) s' ∧ settled s'
    | Raise e => value_error e end) s.
Proof.
  induction ms as [|m ms IH]; intros todo issued s Ho Hs; cbn [_messages app] in *; [go1; by rewrite app_nil_r|].
  go1. eapply ends_mono; [by apply message_ok|]. intros [rs|e] s1; [|done]. intros [Ho1 Hs1]. go1.
  eapply ends_mono; [by apply IH|]. intros [later|e] s2; [|done]. intros [Ho2 Hs2]. go1. by rewrite app_assoc.
Qed.

(** *** The control conversation *)

Lemma ends_on_control {A} none (m : M (MediaReceiver * nat) A) (P : result A → AvReceiver → Prop) s :
  match _control s with
  | None => P (Ok none) s
  | Some k => ends m (λ r k, P r (set_control (Some k) s)) k
  end → ends (on_control none m) P s.
Proof.
  intros H n. unfold wp, on_control. destruct (_control s) as [k|]; [|done]. specialize (H n). unfold wp in H.
  by destruct (m _) as [[k' n'] r].
Qed.

Lemma control_message_ok m s :
  ends (control_message m) (λ res s', match res with
    | Ok _ => s' = s ∨ s' = set_accepted true s
    | Raise e => value_error e end) s.
Proof.
  unfold control_message. do 4 go1. destruct (_accepted s && negb (len m <? 4) && typed 2 m) eqn:Hc.
  - apply andb_prop in Hc as [[_ Hl%negb_true_iff%Z.ltb_ge]%andb_prop _]. rewrite unpack_from_ok by (unfold len in Hl; lia).
    rewrite bind_ret. go1; [go1; by left|]. go1. go1. pose proof (check_control_value (_call_id s) m 2) as Hv.
    destruct (_check_control _ _ _) as [|[]]; try done; [|by eexists]. do 3 go1. by right.
  - do 2 go1. pose proof (check_control_value (_call_id s) m 2) as Hv.
    destruct (_check_control _ _ _) as [|[]]; try done; [|by eexists]. do 3 go1. by right.
Qed.

Lemma control_messages_ok ms : ∀ s,
  ends (control_messages ms) (λ res s', match res with
    | Ok _ => s' = s ∨ s' = set_accepted true s
    | Raise e => value_error e end) s.
Proof.
  induction ms as [|m ms IH]; intros s; cbn [control_messages]; [go1; by left|].
  go1. eapply ends_mono; [apply control_message_ok|]. intros [u|e] s1; [|done]. intros H1. go1.
  eapply ends_mono; [apply IH|]. intros [k|e] s2; [|done]. intros H2. go1.
  destruct H1 as [->| ->], H2 as [->| ->]; auto.
Qed.

Lemma open_accepted D todo issued s : open_ok D todo issued s → open_ok D todo issued (set_accepted true s).
Proof. intros [Hl Hctl Hpar Hck Hpend Henc Hact [Hord1 _] Hsingle Hflow]. by split. Qed.

(** *** Polls and datagrams *)

Lemma any_idle D r : any_stream D r → KcpReceive.idle r.
Proof. done. Qed.

Lemma av_poll_ok D issued s : open_ok D [] issued s →
  ends (av_poll clock) (λ res s', match res with Ok _ => s' = s | Raise e => value_error e ∧ av_closed s' end) s.
Proof.
  intros [Hl Hctl Hpar Hck Hpend Henc Hact Hord Hsingle Hflow]. unfold av_poll. do 3 go1.
  eapply ends_mono; [apply (lifecycle_poll_ok clock (base c L) (base_idle c L) _ from D); exact Hl|].
  intros [[]|e] l'; [|intros [[msg ->] _]; split; [by eexists|apply av_close_closed]]. intros ->.
  replace (set_transport (_transport s) s) with s by (by destruct s). do 2 go1.
  eapply ends_mono; [apply pending_poll_ok|]. intros [[]|e] p'; [|intros [msg ->]; split; [by eexists|apply av_close_closed]]. intros ->.
  replace (set_pending (_pending s) s) with s by (by destruct s). apply ends_on_control.
  destruct (_control s) as [k|] eqn:Hk; [|done]. go1. eapply ends_mono; [apply expire_ok, Hctl|].
  intros [[]|e] r'; [|intros [msg ->]; split; [by eexists|apply av_close_closed]]. intros ->.
  replace (set_receiver (m_receiver k) k) with k by (by destruct k). rewrite <- Hk. by destruct s.
Qed.

Lemma av_poll_closed s : av_closed s → ends (av_poll clock) (λ res s', refused res ∧ av_closed s') s.
Proof.
  intros [Hl _ _ _ _ _]. unfold av_poll. do 3 go1. eapply ends_mono; [by apply poll_closed|].
  intros res l' [(e & -> & msg & ->) _]. split; [|apply av_close_closed]. eexists. split; [done|]. by eexists.
Qed.

Lemma open_received D issued s l ms : open_ok D [] issued s → life_ok (base c L) from (D ++ ms) l →
  l_phase l = l_phase (_transport s) → open_ok (D ++ ms) ms issued (set_transport l s).
Proof.
  intros [Hl Hctl Hpar Hck Hpend Henc Hact Hord Hsingle (processed & HD & Hiss & Hst)] Hl' Hph. split; try done.
  - cbn. by rewrite Hph.
  - exists processed. cbn. split_and!; [|done..]. by rewrite HD, app_nil_r, <- app_assoc.
Qed.

Lemma open_taken D todo issued s : open_ok D todo issued s →
  open_ok D (p_messages (_pending s) ++ todo) issued (set_pending pending_av s) ∧ settled (set_pending pending_av s).
Proof.
  intros [Hl Hctl Hpar Hck Hpend Henc Hact Hord Hsingle (processed & HD & Hiss & Hst)]. split; [|done]. split; try done.
  by exists processed.
Qed.

Definition genuine_datagram (wire : bytes) (from' : address) : Prop :=
  bytes_ok wire ∧ (from' = from → ∀ ss, parse_kcp_segments wire = Ok ss → Forall (of_stream c L) ss).

(** What [av_receive] does once the control conversation has its datagram. *)
Definition deliver (wire : bytes) (from' : address) (controls : MediaReceiveBatch) : M (AvReceiver * nat) AvReceiveBatch :=
  unhandled ← control_messages (b_messages controls);
  batch ← on _transport set_transport (lifecycle_receive clock wire from');
  s ← state;
  waited ← (match _accepted s with
            | true => early ← on _pending set_pending (pending_take clock); _messages clock early
            | false => mret []
            end);
  fresh ← _messages clock (b_messages batch);
  mret (mkAvBatch (acknowledgements controls ++ acknowledgements batch) (waited ++ fresh) unhandled).

Lemma deliver_ok wire from' controls D issued s : genuine_datagram wire from' → open_ok D [] issued s → settled s →
  ends (deliver wire from' controls) (λ res s', match res with
    | Ok b => ∃ D', open_ok D' [] (issued ++ records b) s' ∧ settled s'
    | Raise e => value_error e end) s.
Proof.
  intros [Hb Hg] Ho Hset. unfold deliver. go1. eapply ends_mono; [apply control_messages_ok|]. intros [u|e] s2; [|done]. intros H2.
  assert (Ho2 : open_ok D [] issued s2) by (destruct H2 as [->| ->]; [done|by apply open_accepted]).
  assert (Hset2 : _accepted s2 = false → settled s2) by (unfold settled; congruence). clear H2 Ho Hset s. do 2 go1.
  eapply ends_mono; [apply (lifecycle_receive_ok clock (base c L) (of_stream c L) (base_idle c L)) with (from := from) (D := D)|].
  { intros t1 t2 t3 s r r' res D'. by apply base_step. } { apply Ho2. } { done. } { intros Hf. split; [done|by apply Hg]. }
  intros [batch|e] l'; [|done]. intros [Hl' Hph]. pose proof (open_received _ _ _ _ _ Ho2 Hl' Hph) as Ho3. do 3 go1.
  eapply ends_mono with (P := λ res s', match res with
    | Ok rs => open_ok (D ++ b_messages batch) (b_messages batch) (issued ++ rs) s' ∧ settled s'
    | Raise e => value_error e end).
  { cbn [_accepted set_transport]. destruct (_accepted s2) eqn:Ha.
    - do 2 go1. eapply ends_mono; [apply pending_take_ok|]. intros [early|e] p'; [|done]. intros [-> ->].
      destruct (open_taken _ _ _ _ Ho3) as [Ho4 Hs4]. by apply messages_ok.
    - go1. rewrite app_nil_r. split; [done|]. intros H. cbn in H. congruence. }
  intros [waited|e] s4; [|done]. intros [Ho4 Hs4]. go1. eapply ends_mono; [apply messages_ok; [by rewrite app_nil_r|done]|].
  intros [fresh|e] s5; [|done]. intros [Ho5 Hs5]. go1. exists (D ++ b_messages batch). cbn [records]. by rewrite app_assoc.
Qed.

Lemma av_receive_ok wire from' D issued s : genuine_datagram wire from' → open_ok D [] issued s → settled s →
  ends (av_receive clock wire from') (λ res s', match res with
    | Ok b => ∃ D', open_ok D' [] (issued ++ records b) s' ∧ settled s'
    | Raise e => e = ValueError "AV receive session failed" ∧ av_closed s' end) s.
Proof.
  intros Hg Ho Hset. unfold av_receive. do 2 go1. eapply ends_mono; [by eapply av_poll_ok|].
  assert (Hbad : ∀ x, ValueError "AV receive session failed" = ValueError "AV receive session failed" ∧ av_closed (av_close x)).
  { intros x. split; [done|apply av_close_closed]. }
  intros [[]|e] s'; [|by intros [[msg ->] _]]. intros ->. go1. apply ends_on_control.
  destruct (_control s) as [k|] eqn:Hk.
  - destruct Hg as [Hb Hg]. pose proof (oo_control _ _ _ _ Ho) as Hctl. rewrite Hk in Hctl.
    eapply ends_mono; [apply (media_receive_ok clock any_stream (λ _, True) any_idle any_step wire from from' k []); [exact Hctl|done|]|].
    { intros _. split; [done|]. intros ss _. by apply list.Forall_true. }
    intros [b|e] k'; [|by intros [msg ->]]. intros [Hp Hi].
    assert (Ho' : open_ok D [] issued (set_control (Some k') s)).
    { destruct Ho as [Hl _ Hpar Hck Hpend Henc Hact Hord Hsingle Hflow]. by split. }
    eapply ends_mono; [by apply (deliver_ok wire from' b D issued)|]. intros [b'|e] s2; [done|]. by intros [msg ->].
  - eapply ends_mono; [by apply (deliver_ok wire from' (mkBatch [] []) D issued)|]. intros [b'|e] s2; [done|]. by intros [msg ->].
Qed.

(** *** Sessions *)

Definition genuine_call (k : call) : Prop := match k with Receive wire from' => genuine_datagram wire from' | _ => True end.

Lemma av_receive_closed wire from' s : av_closed s →
  ends (av_receive clock wire from') (λ res s', res = Raise (ValueError "AV receive session failed") ∧ av_closed s') s.
Proof.
  intros Hc. unfold av_receive. do 2 go1. eapply ends_mono; [by apply av_poll_closed|].
  intros [[]|e] s' [(e' & [= <-] & msg & ->) _]. split; [done|apply av_close_closed].
Qed.

(** What a session has handed over, and the state it is in. *)
Definition session_ok (issued : list V1Record) (s : AvReceiver) : Prop :=
  (∃ D processed rest r e, base c L D r ∧ processed `prefix_of` D ∧ issued_from processed issued rest ∧ follows None issued = Some e) ∧
  (av_closed s ∨ ∃ D, open_ok D [] issued s ∧ settled s).

Lemma open_session D issued s : open_ok D [] issued s → settled s → session_ok issued s.
Proof.
  intros Ho Hs. split; [|right; by exists D]. destruct Ho as [[_ [_ Hb]] _ _ _ _ Henc _ _ _ (processed & -> & Hiss & _)].
  eexists _, processed, _, _, _. split_and!; [exact Hb|by apply prefix_app_r|exact Hiss|exact Henc].
Qed.

Lemma exec_ok k s n issued : genuine_call k → session_ok issued s →
  let '((s', _), more) := exec clock k (s, n) in session_ok (issued ++ more) s'.
Proof.
  intros Hg Hs. pose proof Hs as [Hiss [Hc|(D & Ho & Hset)]].
  - destruct k as [|wire from'|]; cbn.
    + pose proof (av_poll_closed s Hc n) as H. unfold wp in H. destruct (av_poll clock (s, n)) as [[s' n'] res]. cbn in *.
      rewrite app_nil_r. split; [done|left; apply H].
    + pose proof (av_receive_closed wire from' s Hc n) as H. unfold wp in H. destruct (av_receive clock wire from' (s, n)) as [[s' n'] res].
      cbn in *. destruct H as [-> H]. rewrite app_nil_r. split; [done|by left].
    + rewrite app_nil_r. split; [done|left; apply av_close_closed].
  - destruct k as [|wire from'|]; cbn.
    + pose proof (av_poll_ok D issued s Ho n) as H. unfold wp in H. destruct (av_poll clock (s, n)) as [[s' n'] [u|e]]; cbn in *; rewrite app_nil_r.
      * by subst.
      * split; [done|left; apply H].
    + pose proof (av_receive_ok wire from' D issued s Hg Ho Hset n) as H. unfold wp in H.
      destruct (av_receive clock wire from' (s, n)) as [[s' n'] [b|e]]; cbn in *.
      * destruct H as (D' & H1 & H2). by eapply open_session.
      * rewrite app_nil_r. split; [done|left; apply H].
    + rewrite app_nil_r. split; [done|left; apply av_close_closed].
Qed.

Lemma session_all calls : ∀ s n issued, Forall genuine_call calls → session_ok issued s →
  let '((s', _), more) := session clock (s, n) calls in session_ok (issued ++ more) s'.
Proof.
  induction calls as [|k calls IH]; intros s n issued Hg Hs; cbn [session]; [by rewrite app_nil_r|].
  apply Forall_cons_iff in Hg as [Hk Hg]. pose proof (exec_ok k s n issued Hk Hs) as H1.
  destruct (exec clock k (s, n)) as [[s1 n1] more]. pose proof (IH s1 n1 _ Hg H1) as H2.
  destruct (session clock (s1, n1) calls) as [[s2 n2] later]. by rewrite app_assoc.
Qed.

(** *** The beginning *)

Lemma kcp_receiver_base c' timeout r : kcp_receiver c' timeout = Ok r → KcpReceive.idle r ∧ KcpReceive.tracks c' 0 L 0 [] r.
Proof.
  clear HL. unfold kcp_receiver. intros E. split; [apply (KcpReceive.init_idle _ _ _ _ _ _ E)|by eapply KcpReceive.tracks_init].
Qed.

Lemma av_receiver_open control policy began s :
  av_receiver from c call_id cookie control policy began = Ok s → open_ok [] [] [] s ∧ settled s.
Proof.
  unfold av_receiver, receive_lifecycle. intros E. do 3 (apply bind_Ok in E as (? & _ & E)).
  apply bind_Ok in E as (ctl & Ectl & E). apply bind_Ok in E as (transport & Et & E). apply (inj Ok) in E as <-.
  apply bind_Ok in Et as (? & _ & Et). apply bind_Ok in Et as (r & Er & Et). apply (inj Ok) in Et as <-.
  destruct (kcp_receiver_base _ _ _ Er) as [Hi Ht].
  assert (Hc : match ctl with Some m => media_ok any_stream from [] m | None => True end).
  { destruct control as [c'|]; [|by apply (inj Ok) in Ectl as <-]. apply bind_Ok in Ectl as (r' & Er' & Ectl).
    apply (inj Ok) in Ectl as <-. split; [done|]. apply (KcpReceive.init_idle _ _ _ _ _ _ Er'). }
  split; [|by intros _]. split; cbn; try done.
  - split; [done|]. split; [done|]. split; [done|]. by eexists.
  - split_and!; [done|left; simpl; lia|done].
  - exists []. split_and!; [done| |done]. split; [done|]. exists []. split; [constructor|constructor].
Qed.

Lemma idle_bytes r : KcpReceive.idle r → 0 ≤ KcpReceive.buffered_bytes r ≤ 1024 * 1024.
Proof.
  intros [[Ho [_ Hb] Hn Hs Hby Hl _ _] _]. rewrite Hby. pose proof (KcpReceive.pending_bytes_nonneg (KcpReceive._pending r)).
  unfold len in *. lia.
Qed.

Lemma open_bounds D issued s : open_ok D [] issued s → 0 ≤ buffered_bytes s ≤ 4 * 1024 * 1024.
Proof.
  intros [[_ [_ [Hi _]]] Hctl (_ & _ & Hp) _ (Hb & Hm & _) _ _ _ _ _]. unfold buffered_bytes, lifecycle_buffered.
  pose proof (idle_bytes _ Hi). assert (match _control s with Some m => 0 ≤ KcpReceive.buffered_bytes (m_receiver m) ≤ 1024 * 1024 | None => True end).
  { destruct (_control s); [|done]. apply idle_bytes, Hctl. }
  unfold V1Receive.buffered_bytes, V1Receive.MAX_RECORD, V1Receive.MAX_CHUNK, MAX_PENDING_BYTES, len in *.
  destruct (_control s); lia.
Qed.
End Session.

(** ** Properties *)

(** C2 [AvReceiver]: the records of a session are those of the camera's stream.
    Whatever datagrams arrive, in whatever order, from whatever peer, interleaved
    with polls, and whatever the clock says, provided the segments of the media
    conversation that come from the pinned peer are the camera's: the records
    handed over are exactly the first records of the decrypted payloads of the
    first media messages the camera sent, in order and each once, and the first
    message was the correlated START. The first record is an encoding header and
    no later one contradicts it. The session is closed and holds nothing, or is
    open within four megabytes, active exactly when its encoding is known, which
    it is only after START and ACCEPT. A datagram that fails raises
    [ReceiveError] and closes the session, and a closed session refuses every
    further call. *)
Theorem av_session_refines clock from conv call_id cookie control policy began s0 sent_messages calls :
  av_receiver from conv call_id cookie control policy began = Ok s0 →
  Forall (λ m, m ≠ []) sent_messages → len (concat (KcpReceive.fragments <$> sent_messages)) ≤ 2 ^ 31 →
  Forall (genuine_call from conv (concat (KcpReceive.fragments <$> sent_messages))) calls →
  let '((s, n), issued) := session clock (s0, 0%nat) calls in
  (∃ processed rest, processed `prefix_of` (@concat Z <$> sent_messages) ∧ issued_from cookie call_id processed issued rest) ∧
  (issued = [] ∨ ∃ h r later, issued = r :: later ∧ encoding r = Some h ∧
     Forall (λ r, encoding r = None ∨ encoding r = Some h) later) ∧
  (av_closed s ∧ buffered_bytes s = 0 ∨
   l_phase (_transport s) ≠ Closed ∧ 0 ≤ buffered_bytes s ≤ 4 * 1024 * 1024 ∧
   (l_phase (_transport s) = Active ↔ is_Some (_encoding s)) ∧ (is_Some (_encoding s) → _started s = true) ∧
   (_started s = true → _accepted s = true)) ∧
  (∀ wire from', genuine_datagram from conv (concat (KcpReceive.fragments <$> sent_messages)) wire from' →
     match av_receive clock wire from' (s, n) with
     | ((s', _), Raise e) => e = ValueError "AV receive session failed" ∧ av_closed s'
     | _ => ¬ av_closed s
     end).
Proof.
  intros Hinit Hne HL Hcalls. set (L := concat (KcpReceive.fragments <$> sent_messages)) in *.
  assert (Hck : len cookie = 8).
  { unfold av_receiver in Hinit. apply bind_Ok in Hinit as (? & _ & E). apply bind_Ok in E as (? & G%raise_if_Ok%negb_false_iff%Z.eqb_eq & _). done. }
  destruct (av_receiver_open from conv L cookie call_id control policy began s0 Hinit) as [Ho Hset].
  pose proof (session_all clock from conv L cookie call_id HL Hck calls s0 0%nat [] Hcalls (open_session _ _ _ _ _ _ _ _ Ho Hset)) as Hs.
  destruct (session clock (s0, 0%nat) calls) as [[s n] issued]. cbn [app] in Hs.
  destruct Hs as [(D & processed & rest & r & e & Hb & Hpre & Hiss & Hf) Hst]. split_and!.
  - exists processed, rest. split; [|done]. etrans; [exact Hpre|]. destruct Hb as [_ [k (_ & _ & _ & Ha & _)]].
    destruct (KcpReceive.fold_messages sent_messages k [] Hne) as (d & Hd & Ed). fold L in Ed.
    unfold KcpReceive.assemble in Ha. rewrite Ha in Ed. cbn in Ed. by subst D.
  - destruct (follows_spec _ _ Hf) as [[-> _]|(h & r0 & later & _ & -> & Hr & Hall)]; [by left|right].
    apply Forall_cons_iff in Hall as [_ Hall]. exists h, r0, later. split_and!; done.
  - destruct Hst as [Hc|(D' & Ho' & _)]; [left; split; [done|by apply av_closed_empty]|right].
    pose proof (open_bounds _ _ _ _ _ _ _ _ Ho'). destruct Ho' as [[Hne' _] _ _ _ _ _ Hact [Ho1 Ho2] _ _]. split; [done|]. split; [done|]. split; [exact Hact|]. by split.
  - intros wire from' Hg. destruct Hst as [Hc|(D' & Ho' & Hset')].
    + pose proof (av_receive_closed clock wire from' s Hc n) as H. unfold wp in H.
      destruct (av_receive clock wire from' (s, n)) as [[s' n'] res]. cbn in H. by destruct H as [-> H].
    + pose proof (av_receive_ok clock from conv L cookie call_id HL Hck wire from' D' issued s Hg Ho' Hset' n) as H. unfold wp in H.
      destruct (av_receive clock wire from' (s, n)) as [[s' n'] [b|e']]; cbn in H.
      * destruct Ho' as [[Hph _] _ _ _ _ _ _ _ _ _]. intros [[Hcl _] _ _ _ _ _]. congruence.
      * exact H.
Qed.

(** A camera that sends START, then an encoding header and an audio packet; the
    datagrams arrive in the wrong order. *)
Definition sample_peer : address := ("192.0.2.7"%string, 5000).
Definition sample_clock (n : nat) : Z := Z.of_nat n.
Definition sample_start : bytes := [3; 0; 0x4C; 0] ++ digits 256 4 77 ++ digits 256 4 2 ++ zeros 64.
Definition sample_header : bytes := StreamProtocol.V1_MAGIC ++ [0; 1; 0; 0; 4; 2; 0; 1] ++ digits 256 4 16000 ++ digits 256 2 1024 ++ [5; 15] ++ digits 256 4 640 ++ digits 256 4 360.
Definition sample_media : bytes :=
  Eval vm_compute in match StreamProtocol.encrypt_media_tlv (sample_header ++ V1Receive.sample_packet) StreamProtocol.sample_cookie with Ok m => m | Raise _ => [] end.
Definition sample_wire (sn : Z) (m : bytes) : bytes :=
  match MediaProtocol.build_kcp_push 0 9 sn m (Some 1) 0 128 with Ok w => w | Raise _ => [] end.
Definition sample_calls : list call :=
  [Receive (sample_wire 1 sample_media) sample_peer; Poll; Receive (sample_wire 0 sample_start) sample_peer].
Definition sample_stream : list (list bytes) := [[sample_start]; [sample_media]].
Definition sample_session : AvReceiver :=
  match av_receiver sample_peer 9 77 StreamProtocol.sample_cookie None FINITE 0 with
  | Ok s => s
  | Raise _ => mkAv None 0 [] (mkLifecycle FINITE 0 0 0 0 0 (mkMedia sample_peer KcpReceive.sample_receiver) Closed) v1_receiver pending_av false false None
  end.

Lemma av_session_refines_witness :
  let '((s, n), issued) := session sample_clock (sample_session, 0%nat) sample_calls in
  issued = [V1Receive.mkRecord (Some (mkHeader 256 4 2 1 16 16000 1024 5 15 640 360)) [] [] 0 0;
            V1Receive.mkRecord None [[7; 8]; [9]] [] 5 0] ∧
  l_phase (_transport s) = Active ∧
  ∃ processed rest, processed `prefix_of` [sample_start; sample_media] ∧
    issued_from StreamProtocol.sample_cookie 77 processed issued rest.
Proof.
  assert (Hg : Forall (genuine_call sample_peer 9 (concat (KcpReceive.fragments <$> sample_stream))) sample_calls).
  { assert (∀ sn m i, (i = 0%nat ∧ sn = 0 ∧ m = sample_start ∨ i = 1%nat ∧ sn = 1 ∧ m = sample_media) →
      genuine_datagram sample_peer 9 (concat (KcpReceive.fragments <$> sample_stream)) (sample_wire sn m) sample_peer) as H.
    { intros sn m i [(-> & -> & ->)|(-> & -> & ->)]; (split; [bytes_concrete|]); intros _ ss E; vm_compute in E; injection E as <-;
        (constructor; [|constructor]); intros _ _; [exists 0%nat|exists 1%nat]; by vm_compute. }
    constructor; [apply (H 1 sample_media 1%nat); by right|]. constructor; [done|].
    constructor; [apply (H 0 sample_start 0%nat); by left|constructor]. }
  pose proof (av_session_refines sample_clock sample_peer 9 77 StreamProtocol.sample_cookie None FINITE 0 sample_session sample_stream
    sample_calls eq_refl ltac:(repeat constructor; done) ltac:(by vm_compute) Hg) as H.
  revert H. destruct (session sample_clock (sample_session, 0%nat) sample_calls) as [[s n] issued] eqn:E.
  intros (H & _). vm_compute in E. injection E as <- <- <-. split; [reflexivity|]. split; [reflexivity|]. exact H.
Defined.
End AvReceive.
