(* ===== verification/TcpFraming.v ===== *)
(** * Record assembly on TCP streams

    Models [src/backend/app/drivers/yoosee/p2p/push_framing.py] (20-byte push
    headers), [mtp_tcp_framing.py] (checksummed MTP records) and the relay
    envelopes of [mtp_tcp_kcp.py].  The two framers run the same loop over their
    buffer; what differs is the interface [Format]: the prefix size, the limits,
    the guards on a prefix and on a complete record.  The theorems about the loop
    are proved against the laws [FormatLaws] of the interface and hold of both
    instances.  The loop runs with the buffer length as fuel; a record is never
    empty. *)

From Stdlib Require Import ZArith Lia.
From S2P Require Import Prelude MediaProtocol.

Module TcpFraming.

(** [PushFrameError], [MtpTcpFrameError], or any other exception escaping. *)
Inductive frame_error : Type :=
| FrameError (reason : string) (facts : list (string * Z))
| Escaped (e : exn).

(** What one protocol fixes. *)
Class Format := {
  prefix_size : nat;
  max_feed : Z;
  max_batch : nat;
  record_size : bytes → nat → frame_error + nat;
  check_record : bytes → option frame_error;
  closed_error : frame_error;
  admission_error : frame_error;
  batch_error : frame_error;
  truncated_error : frame_error
}.

Record framer := mkFramer { _buffer : bytes; _closed : bool }.

Definition fresh : framer := mkFramer [] false.
Definition buffered_bytes (s : framer) : Z := len (_buffer s).
(** [abort], and the state [_fail] leaves. *)
Definition abort (s : framer) : framer := mkFramer [] true.

Section Framer.
Context `{Format}.

(** The [while] of [feed]. *)
Fixpoint feed_loop (fuel : nat) (buffer : bytes) (offset : nat) (frames : list bytes) :
    frame_error + list bytes * nat :=
  if (length buffer - offset <? prefix_size)%nat then inr (frames, offset) else
  match fuel with
  | O => inl (Escaped OutOfFuel)
  | S fuel =>
      match record_size buffer offset with
      | inl e => inl e
      | inr size =>
          if (length buffer - offset <? size)%nat then inr (frames, offset) else
          if (max_batch <=? length frames)%nat then inl batch_error else
          let record := slice offset (offset + size) buffer in
          match check_record record with
          | Some e => inl e
          | None => feed_loop fuel buffer (offset + size) (frames ++ [record])
          end
      end
  end.

Definition feed (s : framer) (data : bytes) : framer * (frame_error + list bytes) :=
  if _closed s then (s, inl closed_error) else
  if max_feed <? len data then (abort s, inl admission_error) else
  let buffer := _buffer s ++ data in
  match feed_loop (length buffer) buffer 0 [] with
  | inl e => (abort s, inl e)
  | inr (frames, offset) => (mkFramer (drop offset buffer) false, inr frames)
  end.

Definition finish (s : framer) : framer * (frame_error + unit) :=
  if _closed s then (s, inl closed_error) else
  if negb (length (_buffer s) =? 0)%nat then (abort s, inl truncated_error) else
  (mkFramer (_buffer s) true, inr ()).
End Framer.

(** ** The push protocol *)

Definition HEADER_SIZE : nat := 20.
Definition MAX_FRAME_BYTES : Z := 0x8400.
Definition MAX_FEED_BYTES : Z := MAX_FRAME_BYTES.
Definition MAX_FRAMES_PER_FEED : nat := 256.

Definition push_record_size (buffer : bytes) (offset : nat) : frame_error + nat :=
  match index buffer offset with
  | Raise e => inl (Escaped e)
  | Ok b =>
      if negb (b =? 3) then inl (FrameError "invalid push protocol" []) else
      match unpack_from 2 buffer (offset + 4) with
      | Raise e => inl (Escaped e)
      | Ok l =>
          let size := Z.of_nat HEADER_SIZE + l in
          if negb ((Z.of_nat HEADER_SIZE <? size) && (size <=? MAX_FRAME_BYTES))
          then inl (FrameError "invalid push frame length" []) else inr (Z.to_nat size)
      end
  end.

#[global] Instance push_format : Format := {
  prefix_size := HEADER_SIZE;
  max_feed := MAX_FEED_BYTES;
  max_batch := MAX_FRAMES_PER_FEED;
  record_size := push_record_size;
  check_record := λ _, None;
  closed_error := FrameError "push decoder is closed" [];
  admission_error := FrameError "push read exceeds admission policy" [];
  batch_error := FrameError "push frame batch exceeds admission policy" [];
  truncated_error := FrameError "truncated push stream" []
}.

(** ** MTP records *)

Definition TCP_RECORD_LIMIT : Z := 1500.
Definition MAX_READ_BYTES : Z := 4096.
Definition MAX_RECORDS_PER_FEED : nat := 64.

Definition mtp_record_size (buffer : bytes) (offset : nat) : frame_error + nat :=
  let prefix := slice offset (offset + 4) buffer in
  match index prefix 0, index prefix 1 with
  | Ok b0, Ok b1 =>
      if negb (b0 =? 0xC0) || negb (existsb (Z.eqb b1) [0x10; 0x50; 0x90; 0xD0])
      then inl (FrameError "unmapped inbound MTP TCP prefix" []) else
      match MediaProtocol.mtp_frame_length prefix with
      | Raise e => inl (Escaped e)
      | Ok size =>
          if negb ((30 <=? size) && (size <=? TCP_RECORD_LIMIT))
          then inl (FrameError "invalid MTP TCP record length" [("mtp_kind"%string, b1); ("mtp_length"%string, size)])
          else inr (Z.to_nat size)
      end
  | Raise e, _ | _, Raise e => inl (Escaped e)
  end.

Definition mtp_check_record (record : bytes) : option frame_error :=
  match MediaProtocol.verify_mtp_frame record with
  | Ok true => None
  | Ok false => Some (FrameError "invalid MTP TCP record checksum" [])
  | Raise e => Some (Escaped e)
  end.

#[global] Instance mtp_format : Format := {
  prefix_size := 4;
  max_feed := MAX_READ_BYTES;
  max_batch := MAX_RECORDS_PER_FEED;
  record_size := mtp_record_size;
  check_record := mtp_check_record;
  closed_error := FrameError "MTP TCP decoder is closed" [];
  admission_error := FrameError "MTP TCP read exceeds admission policy" [];
  batch_error := FrameError "MTP TCP record batch exceeds admission policy" [];
  truncated_error := FrameError "truncated MTP TCP stream" []
}.

(** ** Relay envelopes ([mtp_tcp_kcp.py]) *)

Definition _validate_conversation (frame : bytes) (conversation : Z) : result unit :=
  _ ← raise_if (negb ((0 <=? conversation) && (conversation <=? 0xFFFFFFFF))) (ValueError "invalid KCP conversation");
  segments ← MediaProtocol.parse_kcp_segments frame;
  raise_if (existsb (λ s, negb (MediaProtocol.conv s =? conversation)) segments)
    (ValueError "KCP record belongs to a different conversation").

Definition wrap_tcp_relay_kcp (frame : bytes) (destination_id expected_conversation channel_type : Z) : result bytes :=
  _ ← raise_if (negb ((0 <=? destination_id) && (destination_id <? Z.shiftl 1 64)))
        (ValueError "invalid TCP relay destination");
  _ ← raise_if (negb ((channel_type =? 0x85) || (channel_type =? 0x86))) (ValueError "unsupported TCP relay channel");
  _ ← raise_if (TCP_RECORD_LIMIT <? len frame + (if channel_type =? 0x86 then 8 else 0))
        (ValueError "TCP relay record exceeds receive limit");
  _ ← _validate_conversation frame expected_conversation;
  let payload := drop 6 frame in
  if channel_type =? 0x86 then
    d ← pack 8 destination_id;
    MediaProtocol.build_mtp_frame 0x60 (d ++ payload)
  else MediaProtocol.build_mtp_frame 0 payload.

Definition unwrap_tcp_relay_kcp (frame : bytes) (expected_conversation : Z) : result bytes :=
  ok ← (if TCP_RECORD_LIMIT <? len frame then Ok false
        else if negb (bool_decide (slice 0 2 frame = [0xC0; 0x10]) || bool_decide (slice 0 2 frame = [0xC0; 0x50]))
        then Ok false
        else MediaProtocol.verify_mtp_frame frame);
  _ ← raise_if (negb ok) (ValueError "invalid inbound TCP relay KCP record");
  b1 ← index frame 1;
  let offset := if b1 =? 0x50 then 14%nat else 6%nat in
  normalized ← MediaProtocol.build_mtp_frame 0x10 (drop offset frame);
  _ ← _validate_conversation normalized expected_conversation;
  Ok normalized.

(** ** The framing loop, against the laws of a format *)

Class FormatLaws `(F : Format) := {
  prefix_pos : (0 < prefix_size)%nat;
  size_local b x : (prefix_size ≤ length b)%nat → record_size (b ++ x) 0 = record_size b 0;
  size_drop b off : record_size b off = record_size (drop off b) 0;
  size_bound b n : record_size b 0 = inr n → (prefix_size ≤ n)%nat;
  size_total b e : (prefix_size ≤ length b)%nat → record_size b 0 ≠ inl (Escaped e);
  check_total b e : check_record b ≠ Some (Escaped e);
  errors_mapped e : closed_error ≠ Escaped e ∧ admission_error ≠ Escaped e ∧ batch_error ≠ Escaped e ∧
    truncated_error ≠ Escaped e
}.

Section Loop.
Context `{FL : FormatLaws}.

(** A complete, accepted record. *)
Definition is_record (r : bytes) : Prop :=
  (prefix_size ≤ length r)%nat ∧ record_size r 0 = inr (length r) ∧ check_record r = None.

(** A buffer that starts with no complete record and is not malformed yet. *)
Definition incomplete (p : bytes) : Prop :=
  (length p < prefix_size)%nat ∨ (prefix_size ≤ length p)%nat ∧ ∃ n, record_size p 0 = inr n ∧ (length p < n)%nat.

Lemma incomplete_nil : incomplete [].
Proof using FL. left. simpl. apply prefix_pos. Qed.

Lemma record_nonempty r : is_record r → (0 < length r)%nat.
Proof using FL. intros [? _]. pose proof prefix_pos. lia. Qed.

(** A byte string splits into records and an incomplete rest in one way only. *)
Lemma split_unique rs p rs' p' : Forall is_record rs → Forall is_record rs' → incomplete p → incomplete p' →
  concat rs ++ p = concat rs' ++ p' → rs = rs' ∧ p = p'.
Proof using FL.
  assert (∀ r x p, is_record r → incomplete p → p ≠ r ++ x) as K.
  { intros r x q (Hr & Es & _) Hq ->. rewrite <-(size_local r x) in Es by done.
    destruct Hq as [Hq|(_ & n & E & Hn)]; rewrite length_app in *; [lia|]. rewrite Es in E. injection E as <-. lia. }
  intros Hrs. revert rs'. induction Hrs as [|r rs Hr Hrs IH]; intros rs' Hrs' Hp Hp' E.
  - destruct Hrs' as [|r' rs' Hr' Hrs']; [done|]. simpl in E. rewrite <-app_assoc in E. by eapply K in E.
  - destruct Hrs' as [|r' rs' Hr' Hrs']; simpl in E; rewrite <-!app_assoc in E; [symmetry in E; by eapply K in E|].
    assert (length r = length r') as L.
    { pose proof Hr as (Lr & Er & _). pose proof Hr' as (Lr' & Er' & _).
      rewrite <-(size_local r (concat rs ++ p)) in Er by done.
      rewrite <-(size_local r' (concat rs' ++ p')) in Er' by done. rewrite E, Er' in Er. by injection Er. }
    apply app_inj_1 in E as [-> E]; [|done]. destruct (IH rs' Hrs' Hp Hp' E) as [-> ->]. done.
Qed.

Lemma feed_loop_sound buffer : ∀ fuel offset frames, (offset ≤ length buffer)%nat →
  (length buffer - offset ≤ fuel)%nat →
  match feed_loop fuel buffer offset frames with
  | inr (frames', offset') => ∃ new, frames' = frames ++ new ∧ (offset' ≤ length buffer)%nat ∧
      drop offset buffer = concat new ++ drop offset' buffer ∧ Forall is_record new ∧ incomplete (drop offset' buffer)
  | inl e => ∀ x, e ≠ Escaped x
  end.
Proof using FL.
  pose proof prefix_pos as Hpos.
  induction fuel as [|fuel IH]; intros offset frames Ho Hf; cbn [feed_loop];
    (destruct (Nat.ltb_spec (length buffer - offset) prefix_size);
     [exists []; rewrite app_nil_r; split_and!; try done; left; len_solve|]); [lia|].
  assert (prefix_size ≤ length (drop offset buffer))%nat as Hl by len_solve.
  rewrite size_drop. destruct (record_size (drop offset buffer) 0) as [e|n] eqn:Es.
  { intros x ->. by apply (size_total _ x Hl). }
  destruct (Nat.ltb_spec (length buffer - offset) n).
  { exists []. rewrite app_nil_r. split_and!; try done. right. split; [done|]. exists n. len_simpl. auto. }
  destruct (_ <=? _)%nat; [intros x; apply errors_mapped|]. cbv zeta.
  destruct (check_record _) as [e|] eqn:Ec; [intros x ->; by apply check_total in Ec|].
  pose proof (size_bound _ _ Es). specialize (IH (offset + n)%nat (frames ++ [slice offset (offset + n) buffer])).
  destruct (feed_loop _ _ _ _) as [e|[frames' offset']]; [apply IH; lia|].
  destruct IH as (new & -> & Ho' & Ed & Hn & Hi); [lia|lia|].
  exists (slice offset (offset + n) buffer :: new). rewrite <-app_assoc. split_and!; try done.
  - cbn [concat]. rewrite <-app_assoc, <-Ed. by rewrite slice_drop_app by lia.
  - constructor; [|done]. assert (length (slice offset (offset + n) buffer) = n) as Ln by len_solve.
    split_and!; [lia| |done]. rewrite Ln, <-Es.
    rewrite <-(size_local _ (drop (offset + n) buffer)) by lia. by rewrite slice_drop_app by lia.
Qed.

Lemma feed_loop_complete rs : ∀ fuel pre p frames, Forall is_record rs → incomplete p →
  (length rs ≤ fuel)%nat → (length frames + length rs ≤ max_batch)%nat → (length p < prefix_size ∨ 0 < fuel - length rs)%nat →
  feed_loop fuel (pre ++ concat rs ++ p) (length pre) frames = inr (frames ++ rs, (length pre + length (concat rs))%nat).
Proof using FL.
  induction rs as [|r rs IH]; intros fuel pre p frames Hrs Hp Hf Hb Hg.
  - simpl. rewrite app_nil_r, Nat.add_0_r. destruct Hp as [Hp|(Hp & n & Es & Hn)].
    + destruct fuel; cbn [feed_loop]; (destruct (Nat.ltb_spec (length (pre ++ p) - length pre) prefix_size); [done|len_solve]).
    + destruct fuel as [|fuel]; [simpl in Hg; lia|]. cbn [feed_loop].
      destruct (Nat.ltb_spec (length (pre ++ p) - length pre) prefix_size); [done|].
      rewrite size_drop, drop_app_length, Es. destruct (Nat.ltb_spec (length (pre ++ p) - length pre) n); [done|len_solve].
  - apply Forall_cons_iff in Hrs as [Hr Hrs]. pose proof Hr as (Lr & Es & Ec). simpl in Hf, Hb, Hg.
    destruct fuel as [|fuel]; [lia|]. cbn [feed_loop concat]. rewrite <-app_assoc.
    destruct (Nat.ltb_spec (length (pre ++ r ++ concat rs ++ p) - length pre) prefix_size); [len_solve|].
    rewrite size_drop, drop_app_length, size_local, Es by done.
    destruct (Nat.ltb_spec (length (pre ++ r ++ concat rs ++ p) - length pre) (length r)); [len_solve|].
    destruct (Nat.leb_spec max_batch (length frames)); [lia|]. cbv zeta.
    rewrite (slice_mid (length pre)) by lia. rewrite Ec. rewrite app_assoc, <-length_app.
    rewrite IH by (try done; len_simpl; lia). rewrite <-app_assoc. do 2 f_equal. len_simpl. lia.
Qed.

(** More records in one buffer than a batch may have. *)
Lemma feed_loop_crowded rs : ∀ fuel pre p frames, Forall is_record rs → (length rs ≤ fuel)%nat →
  (length frames ≤ max_batch)%nat → (max_batch < length frames + length rs)%nat →
  feed_loop fuel (pre ++ concat rs ++ p) (length pre) frames = inl batch_error.
Proof using FL.
  induction rs as [|r rs IH]; intros fuel pre p frames Hrs Hf Hb Hc; simpl in Hf, Hc; [lia|].
  apply Forall_cons_iff in Hrs as [Hr Hrs]. pose proof Hr as (Lr & Es & Ec).
  destruct fuel as [|fuel]; [lia|]. cbn [feed_loop concat]. rewrite <-app_assoc.
  destruct (Nat.ltb_spec (length (pre ++ r ++ concat rs ++ p) - length pre) prefix_size); [len_solve|].
  rewrite size_drop, drop_app_length, size_local, Es by done.
  destruct (Nat.ltb_spec (length (pre ++ r ++ concat rs ++ p) - length pre) (length r)); [len_solve|].
  destruct (Nat.leb_spec max_batch (length frames)); [done|]. cbv zeta.
  rewrite (slice_mid (length pre)) by lia. rewrite Ec. rewrite app_assoc, <-length_app.
  apply IH; try done; len_simpl; lia.
Qed.
End Loop.

(** ** Streams of chunks *)

(** How many of the records are whole within their first [n] bytes. *)
Fixpoint whole (n : nat) (records : list bytes) : nat :=
  match records with
  | [] => O
  | r :: records => if (length r <=? n)%nat then S (whole (n - length r) records) else O
  end.

(** Whether some read completes more records than a batch may have, when
    [pending] bytes of the first record have been read. *)
Fixpoint crowded `{F : Format} (pending : nat) (records chunks : list bytes) : bool :=
  match chunks with
  | [] => false
  | c :: chunks =>
      let n := whole (pending + length c) records in
      (max_batch <? n)%nat || crowded (pending + length c - length (concat (take n records))) (drop n records) chunks
  end.

Fixpoint feed_all `{F : Format} (s : framer) (chunks : list bytes) : frame_error + framer * list bytes :=
  match chunks with
  | [] => inr (s, [])
  | c :: chunks =>
      match feed s c with
      | (_, inl e) => inl e
      | (s, inr frames) =>
          match feed_all s chunks with
          | inl e => inl e
          | inr (s, out) => inr (s, frames ++ out)
          end
      end
  end.

Section Streams.
Context `{FL : FormatLaws}.

Lemma feed_sound s data : _closed s = false →
  match feed s data with
  | (s', inr frames) => _closed s' = false ∧ _buffer s ++ data = concat frames ++ _buffer s' ∧
      Forall is_record frames ∧ incomplete (_buffer s')
  | (s', inl e) => s' = mkFramer [] true ∧ ∀ x, e ≠ Escaped x
  end.
Proof using FL.
  intros Hc. unfold feed. rewrite Hc. destruct (_ <? _); [split; [done|]; intros; apply errors_mapped|].
  cbv zeta. pose proof (feed_loop_sound (_buffer s ++ data) (length (_buffer s ++ data)) 0 []) as H.
  destruct (feed_loop _ _ _ _) as [e|[frames offset]]; [split; [done|apply H; lia]|].
  destruct H as (new & -> & ? & E & ? & ?); [lia|lia|]. rewrite drop_0 in E. by split_and!.
Qed.

Lemma feed_all_sound chunks : ∀ s s' out, _closed s = false → incomplete (_buffer s) →
  feed_all s chunks = inr (s', out) →
  _closed s' = false ∧ _buffer s ++ concat chunks = concat out ++ _buffer s' ∧ Forall is_record out ∧ incomplete (_buffer s').
Proof using FL.
  induction chunks as [|c chunks IH]; intros s s' out Hc Hi E; cbn [feed_all] in E.
  - injection E as <- <-. simpl. by rewrite app_nil_r.
  - pose proof (feed_sound s c Hc) as Hs. destruct (feed s c) as [s1 [e|frames]]; [done|].
    destruct Hs as (Hc1 & E1 & Hr1 & Hi1). destruct (feed_all s1 chunks) as [e|[s2 out2]] eqn:E2; [done|].
    injection E as <- <-. destruct (IH _ _ _ Hc1 Hi1 E2) as (? & E3 & ? & ?). split_and!; try done.
    + cbn [concat]. rewrite app_assoc, E1, concat_app, <-!app_assoc. by rewrite E3.
    + by apply Forall_app.
Qed.

(** The part of a record stream that has arrived. *)
Lemma prefix_split rs : ∀ x y, Forall is_record rs → x ++ y = concat rs →
  ∃ rs1 rs2 q, rs = rs1 ++ rs2 ∧ x = concat rs1 ++ q ∧ incomplete q ∧ q ++ y = concat rs2.
Proof using FL.
  induction rs as [|r rs IH]; intros x y Hrs E.
  - apply app_nil in E as [-> ->]. exists [], [], []. split_and!; try done. apply incomplete_nil.
  - apply Forall_cons_iff in Hrs as [Hr Hrs]. cbn [concat] in E. destruct (decide (length x < length r)%nat) as [Hx|Hx].
    + exists [], (r :: rs), x. split_and!; try done. destruct (decide (length x < prefix_size)%nat); [by left|right].
      split; [lia|]. exists (length r). split; [|done]. destruct Hr as (Lr & Er & _).
      assert (r = x ++ drop (length x) r) as Exr.
      { rewrite <-(take_drop (length x) r) at 1. f_equal. rewrite <-(take_app_le r (concat rs)) by lia. rewrite <-E.
        by rewrite take_app_length. }
      rewrite Exr in Er at 1. by rewrite size_local in Er by lia.
    + assert (x = r ++ drop (length r) x) as Ex.
      { rewrite <-(take_drop (length r) x) at 1. f_equal. rewrite <-(take_app_le x y) by lia. rewrite E.
        by rewrite take_app_length. }
      rewrite Ex, <-app_assoc in E. apply app_inv_head in E.
      destruct (IH _ _ Hrs E) as (rs1 & rs2 & q & -> & E1 & ? & ?). exists (r :: rs1), rs2, q.
      split_and!; try done. cbn [concat]. by rewrite <-app_assoc, <-E1.
Qed.

(** A buffer of records and an incomplete rest: the records, unless they are
    too many. *)
Lemma feed_complete s rs p data : _closed s = false → len data ≤ max_feed → Forall is_record rs → incomplete p →
  _buffer s ++ data = concat rs ++ p →
  feed s data = if (max_batch <? length rs)%nat then (abort s, inl batch_error) else (mkFramer p false, inr rs).
Proof using FL.
  intros Hc Hd Hrs Hp E. unfold feed. rewrite Hc. destruct (Z.ltb_spec max_feed (len data)); [lia|]. cbv zeta.
  rewrite E. pose proof prefix_pos. assert (length rs ≤ length (concat rs))%nat as Hl.
  { clear -Hrs FL. induction Hrs as [|r rs Hr Hrs IH]; [done|]. simpl. rewrite length_app.
    pose proof (record_nonempty r Hr). lia. }
  assert (length rs ≤ length (concat rs ++ p))%nat as Hf by (len_simpl; lia).
  destruct (Nat.ltb_spec max_batch (length rs)) as [Hb|Hb].
  - pose proof (feed_loop_crowded rs (length (concat rs ++ p)) [] p [] Hrs Hf) as Hx. cbn [length app] in Hx.
    rewrite Hx by lia. done.
  - pose proof (feed_loop_complete rs (length (concat rs ++ p)) [] p []) as Hx. cbn [length app] in Hx.
    rewrite Hx; try done.
    + cbn [Nat.add]. by rewrite drop_app_length.
    + len_simpl. destruct p; [left; simpl; lia|right; simpl; lia].
Qed.

Lemma whole_prefix rs1 : ∀ rs2 q y, Forall is_record (rs1 ++ rs2) → incomplete q → q ++ y = concat rs2 →
  whole (length (concat rs1 ++ q)) (rs1 ++ rs2) = length rs1.
Proof using FL.
  induction rs1 as [|r rs1 IH]; intros rs2 q y Hrs Hq E; cbn [app concat length whole].
  - destruct rs2 as [|r rs2]; [done|]. cbn [whole]. destruct (Nat.leb_spec (length r) (length q)) as [Hl|]; [|done].
    apply Forall_cons_iff in Hrs as [(Lr & Er & _) _]. cbn [concat] in E.
    assert (q = r ++ drop (length r) q) as Eq.
    { rewrite <-(take_drop (length r) q) at 1. f_equal. rewrite <-(take_app_le q y) by lia. rewrite E. by rewrite take_app_length. }
    rewrite <-(size_local r (drop (length r) q)), <-Eq in Er by done.
    destruct Hq as [?|(_ & n & En & ?)]; [lia|]. rewrite Er in En. injection En. lia.
  - apply Forall_cons_iff in Hrs as [Hr Hrs]. rewrite <-app_assoc, length_app.
    destruct (Nat.leb_spec (length r) (length r + length (concat rs1 ++ q))); [|lia].
    rewrite Nat.add_comm, Nat.add_sub. f_equal. by eapply IH.
Qed.

(** A stream of records gets through whole, or a read was crowded. *)
Lemma feed_all_exact chunks : ∀ s rs, _closed s = false → Forall (λ c, len c ≤ max_feed) chunks →
  Forall is_record rs → _buffer s ++ concat chunks = concat rs → incomplete (_buffer s) →
  feed_all s chunks = if crowded (length (_buffer s)) rs chunks then inl batch_error else inr (mkFramer [] false, rs).
Proof using FL.
  induction chunks as [|c chunks IH]; intros [b cl] rs Hc Hch Hrs E Hi; simpl in Hc; subst cl.
  - simpl in E, Hi. rewrite app_nil_r in E. cbn [feed_all crowded].
    destruct (split_unique [] b rs []) as [<- ->]; try done; [apply incomplete_nil|by rewrite app_nil_r].
  - apply Forall_cons_iff in Hch as [Hc1 Hch]. cbn [concat _buffer] in E. rewrite app_assoc in E.
    destruct (prefix_split rs _ _ Hrs E) as (rs1 & rs2 & q & -> & E1 & Hq & E2).
    pose proof (whole_prefix rs1 rs2 q _ Hrs Hq E2) as Hw. rewrite <-E1, length_app in Hw.
    pose proof Hrs as [Hrs1 Hrs2]%Forall_app. cbn [feed_all crowded _buffer]. rewrite Hw.
    rewrite (feed_complete _ rs1 q) by (done || lia). destruct (Nat.ltb_spec max_batch (length rs1)); [done|]. cbn [orb].
    rewrite take_app_length, drop_app_length. replace (length b + length c - length (concat rs1))%nat with (length q).
    2:{ rewrite <-length_app, E1, length_app. lia. }
    rewrite (IH _ rs2) by (done || lia). cbn [_buffer]. by destruct (crowded _ _ _).
Qed.
End Streams.

#[global] Instance push_laws : FormatLaws push_format.
Proof.
  constructor; simpl.
  - unfold HEADER_SIZE. lia.
  - unfold HEADER_SIZE, push_record_size. intros b x Hl. rewrite index_app_l, unpack_from_app_l by (simpl; lia). done.
  - intros b off. unfold push_record_size. rewrite <-(Nat.add_0_r off) at 1. rewrite index_drop.
    by rewrite unpack_from_drop by lia.
  - unfold push_record_size, HEADER_SIZE. intros b n E. repeat (case_match; try discriminate). injection E as <-. lia.
  - unfold push_record_size, HEADER_SIZE. intros b e Hl. rewrite index_ok, unpack_from_ok by lia.
    repeat (case_match; try discriminate).
  - done.
  - done.
Qed.

#[global] Instance mtp_laws : FormatLaws mtp_format.
Proof.
  constructor; simpl.
  - lia.
  - intros b x Hl. unfold mtp_record_size. by rewrite slice_app_l by (simpl; lia).
  - intros b off. unfold mtp_record_size. cbv zeta. by rewrite slice_drop, Nat.add_0_r.
  - unfold mtp_record_size. intros b n E. repeat (case_match; try discriminate). injection E as <-. lia.
  - unfold mtp_record_size. cbv zeta. intros b e Hl. assert (length (slice 0 (0 + 4) b) = 4%nat) by len_solve.
    rewrite !index_ok, MediaProtocol.length_spec by lia. repeat (case_match; try discriminate).
  - unfold mtp_check_record. intros b e. rewrite MediaProtocol.verify_spec. by case_bool_decide.
  - done.
Qed.

(** ** Relay envelopes *)

Lemma validate_ok f c u : bytes_ok f → _validate_conversation f c = Ok u →
  ∃ ss, MediaProtocol.parse_kcp_segments f = Ok ss ∧ Forall (λ s, MediaProtocol.conv s = c) ss.
Proof.
  intros Hf E. unfold _validate_conversation in E. apply bind_Ok in E as (? & _ & E).
  apply bind_Ok in E as (ss & Es & E%raise_if_Ok). exists ss. split; [done|].
  apply list.Forall_forall. intros s Hs. destruct (Z.eqb_spec (MediaProtocol.conv s) c); [done|].
  assert (existsb (λ s, negb (MediaProtocol.conv s =? c)) ss = true) as K; [|congruence].
  apply existsb_exists. exists s. split; [by apply list_elem_of_In|]. lia.
Qed.

Lemma build_inv st p f : MediaProtocol.build_mtp_frame st p = Ok f →
  f = MediaProtocol.mtp_frame st p ∧ 0 ≤ st < 256 ∧ MediaProtocol.payload_ok p.
Proof.
  intros E. assert (0 ≤ st < 256 ∧ MediaProtocol.payload_ok p) as [Hs Hp].
  { unfold MediaProtocol.build_mtp_frame in E. apply bind_Ok in E as (? & G1%raise_if_Ok & E).
    apply bind_Ok in E as (? & G2%raise_if_Ok & E). cbv zeta in E. apply bind_Ok in E as (? & G3%raise_if_Ok & E).
    unfold MediaProtocol.payload_ok, MediaProtocol.total_of, MediaProtocol.MTP_PREFIX_SIZE, len in *. lia. }
  rewrite MediaProtocol.build_spec in E by done. by injection E as <-.
Qed.

Lemma frame_payload st p : drop 6 (MediaProtocol.mtp_frame st p) = p.
Proof. done. Qed.

Lemma frame_bytes st p : 0 ≤ st < 256 → MediaProtocol.payload_ok p → bytes_ok p → bytes_ok (MediaProtocol.mtp_frame st p).
Proof.
  intros Hs Hp Hb. unfold MediaProtocol.mtp_frame. rewrite !bytes_ok_app. split_and!; auto with bytes.
  - repeat constructor; lia.
  - by apply MediaProtocol.length_bytes_ok.
Qed.

(** ** Properties *)

(** Chunking does not matter.  For both stream decoders, two ways of
    cutting the same bytes into reads that are both accepted yield the same
    records and leave the same buffer; the records and the buffer are the bytes
    received, without loss or duplication, every record is complete and passes
    the format's guards, and the buffer holds no complete record. *)
Lemma framing_chunking_independent `{FL : FormatLaws} chunks1 chunks2 s1 s2 out1 out2 :
  feed_all fresh chunks1 = inr (s1, out1) → feed_all fresh chunks2 = inr (s2, out2) →
  concat chunks1 = concat chunks2 →
  out1 = out2 ∧ s1 = s2 ∧ concat chunks1 = concat out1 ++ _buffer s1 ∧
  Forall is_record out1 ∧ incomplete (_buffer s1).
Proof.
  intros E1 E2 E.
  destruct (feed_all_sound chunks1 fresh s1 out1 eq_refl incomplete_nil E1) as (C1 & D1 & R1 & I1).
  destruct (feed_all_sound chunks2 fresh s2 out2 eq_refl incomplete_nil E2) as (C2 & D2 & R2 & I2).
  cbn [_buffer fresh app] in D1, D2. rewrite E in D1. rewrite D2 in D1.
  destruct (split_unique out2 (_buffer s2) out1 (_buffer s1)) as [<- Eb]; try done.
  split_and!; try done; [|by rewrite E, D2, Eb].
  destruct s1 as [b1 c1], s2 as [b2 c2]; simpl in *. congruence.
Qed.

Definition sample_push : bytes := [3; 0; 0; 0; 2; 0] ++ zeros 14 ++ [8; 9].

Lemma sample_push_record : is_record (F := push_format) sample_push.
Proof. split; [vm_compute; lia|]. split; vm_compute; reflexivity. Qed.

(** C16: chunking does not matter. For both stream decoders, two ways of cutting
    the same bytes into reads that are both accepted yield the same records and
    leave the same buffer: the bytes received, without loss or duplication, every
    record complete and past the format's guards, and no complete record kept.
    A stream of records that pass the guards, however it is cut into reads within
    the admission limit, is delivered whole and in order, and the decoder ends
    empty and open, unless some read completes more records than a batch may
    have (256 push frames, 64 MTP records): then the stream is refused with the
    error of an oversized batch. A read that is refused leaves the decoder closed
    and empty and the error is one of its own, never an [IndexError], a
    [struct.error] or a loop that does not end. *)
Theorem framing_exact `{FL : FormatLaws} :
  (∀ chunks1 chunks2 s1 s2 out1 out2,
     feed_all fresh chunks1 = inr (s1, out1) → feed_all fresh chunks2 = inr (s2, out2) →
     concat chunks1 = concat chunks2 →
     out1 = out2 ∧ s1 = s2 ∧ concat chunks1 = concat out1 ++ _buffer s1 ∧
     Forall is_record out1 ∧ incomplete (_buffer s1)) ∧
  (∀ records chunks, Forall is_record records → Forall (λ c, len c ≤ max_feed) chunks → concat chunks = concat records →
     feed_all fresh chunks = if crowded 0 records chunks then inl batch_error else inr (fresh, records)) ∧
  (∀ s data, _closed s = false →
     match feed s data with
     | (s', inr frames) => _buffer s ++ data = concat frames ++ _buffer s'
     | (s', inl e) => s' = mkFramer [] true ∧ ∃ reason facts, e = FrameError reason facts
     end).
Proof.
  split_and!.
  - intros *. apply framing_chunking_independent.
  - intros records chunks Hr Hc E. apply feed_all_exact; try done. apply incomplete_nil.
  - intros s data Hs. pose proof (feed_sound s data Hs) as Hf. destruct (feed s data) as [s' [e|frames]].
    + destruct Hf as [-> He]. split; [done|]. destruct e as [r f|x]; [eauto|by destruct (He x)].
    + apply Hf.
Qed.

(** Two frames cut anywhere, and a read of 257 frames. *)
Lemma framing_exact_witness :
  feed_all (F := push_format) fresh [take 5 sample_push; drop 5 sample_push ++ sample_push] =
    inr (fresh, [sample_push; sample_push]) ∧
  feed_all (F := push_format) fresh [concat (replicate 257 sample_push)] =
    inl (FrameError "push frame batch exceeds admission policy" []) ∧
  concat [sample_push ++ [3; 0]; drop 2 sample_push] = concat [sample_push; sample_push] ++ [].
Proof.
  destruct (framing_exact (F := push_format)) as (H1 & H2 & _). split; [|split].
  - apply (H2 [sample_push; sample_push]); [repeat constructor; apply sample_push_record| |reflexivity].
    repeat constructor; vm_compute; discriminate.
  - apply (H2 (replicate 257 sample_push)); [apply Forall_replicate, sample_push_record| |apply app_nil_r].
    repeat constructor. vm_compute. discriminate.
  - apply (H1 [sample_push ++ [3; 0]; drop 2 sample_push] [sample_push; sample_push] fresh fresh [sample_push; sample_push]
      [sample_push; sample_push]); vm_compute; reflexivity.
Defined.

(** C34: relay envelopes carry KCP data unchanged.  Wrapping accepts only a
    frame of the expected conversation and keeps its payload behind the
    destination id (channel 0x86) or bare (channel 0x85), in a frame that
    verifies; unwrapping accepts only verified inbound records and returns the
    canonical frame of the same payload, all of whose segments belong to the
    expected conversation. *)
Theorem relay_envelopes frame dest conv channel wire g normalized :
  bytes_ok frame → bytes_ok g →
  wrap_tcp_relay_kcp frame dest conv channel = Ok wire → unwrap_tcp_relay_kcp g conv = Ok normalized →
  (MediaProtocol.verify_mtp_frame wire = Ok true ∧
   drop 6 wire = (if channel =? 0x86 then digits 256 8 dest else []) ++ drop 6 frame ∧
   ∃ ss, MediaProtocol.parse_kcp_segments frame = Ok ss ∧ Forall (λ s, MediaProtocol.conv s = conv) ss) ∧
  (MediaProtocol.verify_mtp_frame g = Ok true ∧ MediaProtocol.verify_mtp_frame normalized = Ok true ∧
   drop 6 normalized = drop (if g !!! 1%nat =? 0x50 then 14 else 6) g ∧
   ∃ ss, MediaProtocol.parse_kcp_segments normalized = Ok ss ∧ Forall (λ s, MediaProtocol.conv s = conv) ss).
Proof.
  intros Hf Hg Ew Eu. split.
  - unfold wrap_tcp_relay_kcp in Ew. change (Z.shiftl 1 64) with (2 ^ 64) in Ew.
    apply bind_Ok in Ew as (? & G1%raise_if_Ok & Ew).
    apply bind_Ok in Ew as (? & _ & Ew). apply bind_Ok in Ew as (? & _ & Ew).
    apply bind_Ok in Ew as (u & Ev & Ew). cbv zeta in Ew.
    assert (∃ st, MediaProtocol.build_mtp_frame st ((if channel =? 0x86 then digits 256 8 dest else []) ++ drop 6 frame) = Ok wire)
      as (st & Eb).
    { destruct (channel =? 0x86); [|by exists 0]. rewrite pack_ok, bind_ret in Ew by (eval_widths; lia). by exists 0x60. }
    apply build_inv in Eb as (-> & Hst & Hp). split_and!; [|done|by eapply validate_ok].
    rewrite MediaProtocol.verify_spec, bool_decide_eq_true_2; [done|by apply MediaProtocol.mtp_frame_verified].
  - unfold unwrap_tcp_relay_kcp in Eu. apply bind_Ok in Eu as (ok & Eok & Eu).
    apply bind_Ok in Eu as (? & G%raise_if_Ok%negb_false_iff & Eu). subst ok.
    destruct (TCP_RECORD_LIMIT <? len g); [done|]. destruct (negb _); [done|].
    assert (30 ≤ length g)%nat as Lg.
    { rewrite MediaProtocol.verify_spec in Eok. apply Ok_inj, bool_decide_eq_true in Eok. destruct Eok as [? _].
      unfold len in *. lia. }
    rewrite index_ok, bind_ret in Eu by lia. cbv zeta in Eu. apply bind_Ok in Eu as (n & En & Eu).
    apply bind_Ok in Eu as (u & Ev & Eu). injection Eu as <-. apply build_inv in En as (-> & Hst & Hp).
    split_and!; [done| |done|eapply validate_ok; [|done]].
    + rewrite MediaProtocol.verify_spec, bool_decide_eq_true_2; [done|by apply MediaProtocol.mtp_frame_verified].
    + apply frame_bytes; auto with bytes.
Qed.

Definition sample_kcp : bytes := MediaProtocol.sample_frame.
Definition sample_inbound : bytes := MediaProtocol.mtp_frame 0x50 (zeros 8 ++ drop 6 sample_kcp).

Lemma relay_envelopes_witness :
  ∃ wire normalized, wrap_tcp_relay_kcp sample_kcp 77 0x11223344 0x86 = Ok wire ∧
    unwrap_tcp_relay_kcp sample_inbound 0x11223344 = Ok normalized ∧
    drop 6 wire = digits 256 8 77 ++ drop 6 sample_kcp ∧ drop 6 normalized = drop 14 sample_inbound.
Proof.
  destruct (wrap_tcp_relay_kcp sample_kcp 77 0x11223344 0x86) as [wire|e] eqn:Ew; [|vm_compute in Ew; discriminate Ew].
  destruct (unwrap_tcp_relay_kcp sample_inbound 0x11223344) as [n|e] eqn:Eu; [|vm_compute in Eu; discriminate Eu].
  destruct (relay_envelopes sample_kcp 77 0x11223344 0x86 wire sample_inbound n) as [(_ & Hw & _) (_ & _ & Hn & _)];
    [bytes_concrete|bytes_concrete|exact Ew|exact Eu|].
  exists wire, n. split_and!; [reflexivity|reflexivity|exact Hw|exact Hn].
Defined.

End TcpFraming.
