(* ===== verification/PushRtc.v ===== *)
(** * RTC records of the push relay

    Models [src/backend/app/drivers/yoosee/p2p/push_rtc*.py]: the selective
    cipher span and its decryption, header entries, format descriptors and codec
    identifiers, inner record boundaries, AV units, fragments and their bounded
    assembly.  A float32 frame rate is its bit pattern.  The boundary loop runs
    with the stream length as fuel; a record is at least nine bytes long. *)

From Stdlib Require Import ZArith Lia.
From stdpp Require Import fin_maps.
From S2P Require Import Prelude Rc5 GuteFrame.

Module PushRtc.

(** ** [push_rtc.py], [push_rtc_crypto.py] *)

(** [dict.get] on a literal dictionary. *)
Definition assoc {B} (k : Z) (d : list (Z * B)) : option B :=
  snd <$> List.find (λ x, x.1 =? k) d.

Definition _OFFSETS : list (Z * nat) :=
  [(0x80, 24%nat); (0x81, 8%nat); (0x82, 8%nat); (0x83, 8%nat); (0xF1, 20%nat); (0xF2, 20%nat)].
Definition _MAX_RTC_BYTES : Z := 0x8400 - 20.

Definition selective_rtc_cipher_span (frame : bytes) : result (nat * nat) :=
  _ ← raise_if (negb ((8 <=? len frame) && (len frame <=? _MAX_RTC_BYTES))) (ValueError "RTC record size is invalid");
  kind ← unpack_from 2 frame 0;
  size ← unpack_from 4 frame 4;
  _ ← raise_if (negb (size =? len frame - 8)) (ValueError "RTC record length does not match");
  match assoc kind _OFFSETS with
  | None => Raise (ValueError "RTC selective encryption type is unsupported")
  | Some offset =>
      _ ← raise_if (length frame <? offset)%nat (ValueError "RTC record is shorter than its clear prefix");
      Ok (offset, (length frame - offset)%nat)
  end.

Definition decrypt_selective_rtc (frame key : bytes) : result bytes :=
  _ ← raise_if (negb (len key =? 8)) (ValueError "RTC key must contain exactly eight immutable bytes");
  '(offset, count) ← selective_rtc_cipher_span frame;
  let e := (offset + (count / 8) * 8)%nat in
  if (e =? offset)%nat then Ok frame else
  cipher ← Rc5.init key 6 32;
  foldM (copy_step offset (GuteFrame.transform cipher false) frame) frame (seq 0 ((e - offset) / 8)).

(** ** [push_rtc_headers.py] *)

Definition parse_rtc_header_entries (frame : bytes) : result (list bytes) :=
  _ ← selective_rtc_cipher_span frame;
  kind ← unpack_from 2 frame 0;
  _ ← raise_if (negb ((kind =? 0x81) || (kind =? 0x83))) (ValueError "RTC header-only type is unsupported");
  _ ← raise_if (len frame <? 10) (ValueError "RTC header-only prefix is truncated");
  count ← index frame 9;
  _ ← raise_if (negb (len frame =? 10 + count * 20))
        (ValueError "RTC header entry count does not match record length");
  Ok (map (λ i, slice (10 + i * 20) (10 + i * 20 + 20) frame) (seq 0 (Z.to_nat count))).

(** ** [push_rtc_inner.py] *)

Definition minimum_size : list (Z * Z) := [(0x80, 24); (0x81, 10); (0x82, 9); (0x83, 10)].

(** The body of the boundary loop: where the record at [offset] ends, with
    [seen] records before it. *)
Definition inner_end (data : bytes) (seen offset : nat) : result nat :=
  _ ← raise_if ((256 <=? seen) || (length data - offset <? 8))%nat
        (ValueError "RTC inner record count or prefix is invalid");
  kind ← unpack_from 2 data offset;
  body_size ← unpack_from 4 data (offset + 4);
  match assoc kind minimum_size with
  | None => Raise (ValueError "RTC inner type is unsupported or nested")
  | Some minimum =>
      let size := body_size + 8 in
      let e := Z.of_nat offset + size in
      _ ← raise_if ((size <? minimum) || (len data <? e)) (ValueError "RTC inner record length is invalid");
      let e := Z.to_nat e in
      _ ← (if (kind =? 0x81) || (kind =? 0x83)
           then _ ← parse_rtc_header_entries (slice offset e data); Ok tt else Ok tt);
      Ok e
  end.

Fixpoint spans_loop (fuel : nat) (data : bytes) (offset : nat) (spans : list (nat * nat)) : result (list (nat * nat)) :=
  if (offset <? length data)%nat then
    match fuel with
    | O => Raise OutOfFuel
    | S fuel =>
        e ← inner_end data (length spans) offset;
        spans_loop fuel data e (spans ++ [(offset, e)])
    end
  else Ok spans.

Definition split_inner_rtc_records (data : bytes) : result (list bytes) :=
  _ ← raise_if (negb ((1 <=? len data) && (len data <=? 256 * 1024))) (ValueError "RTC inner stream size is invalid");
  spans ← spans_loop (length data) data 0 [];
  Ok (map (λ '(start, e), slice start e data) spans).

(** ** [push_rtc_av.py] *)

Record RTCAVUnit := mkUnit {
  discriminator : Z; clock_raw : Z; flag_raw : Z; index_raw : Z; tag_raw : Z; u_payload : bytes
}.

Inductive media : Type := Audio | Video.
#[global] Instance media_eq_dec : EqDecision media.
Proof. solve_decision. Defined.

Definition media_kind (u : RTCAVUnit) : option media :=
  if discriminator u =? 0 then Some Audio else if discriminator u =? 1 then Some Video else None.
Definition pts_raw (u : RTCAVUnit) : Z := clock_raw u.
Definition is_key_frame (u : RTCAVUnit) : option bool :=
  if discriminator u =? 1 then Some (negb (flag_raw u =? 0)) else None.
Definition sequence_number (u : RTCAVUnit) : Z := tag_raw u.

(** One iteration of the group loop. *)
Definition unit_step (frame : bytes) (clock index tag : Z) (s : list RTCAVUnit * nat) (_ : nat) :
    result (list RTCAVUnit * nat) :=
  let '(units, offset) := s in
  _ ← raise_if (length frame - offset <? 8)%nat (ValueError "RTC AV subframe prefix is truncated");
  length ← unpack_from 2 frame offset;
  delta ← unpack_from 4 frame (offset + 2);
  let start := (offset + 8)%nat in
  let e := (start + Z.to_nat length)%nat in
  _ ← raise_if (List.length frame <? e)%nat (ValueError "RTC AV subframe payload is truncated");
  Ok (units ++ [mkUnit 0 (Z.land (clock + delta) 0xFFFFFFFFFFFFFFFF) 1 index tag (slice start e frame)], e).

Definition parse_rtc_av_units (frame : bytes) : result (list RTCAVUnit) :=
  _ ← raise_if (negb ((24 <=? len frame) && (len frame <=? 256 * 1024))) (ValueError "RTC AV size is invalid");
  kind ← unpack_from 2 frame 0; body_size ← unpack_from 4 frame 4;
  _ ← raise_if (negb (kind =? 0x80) || negb (body_size =? len frame - 8))
        (ValueError "RTC AV type or length is invalid");
  flags ← index frame 8; b10 ← index frame 10; tag ← index frame 12;
  let index_ := b10 - 1 in
  clock ← unpack_from 8 frame 16;
  if Z.land flags 1 =? 0 then
    _ ← raise_if (Z.land flags 2 =? 0) (ValueError "RTC AV payload branch is unsupported");
    Ok [mkUnit 1 clock (Z.land (Z.shiftr flags 2) 1) index_ tag (drop 24 frame)]
  else
    b11 ← index frame 11;
    let count := Z.land b11 15 in
    _ ← raise_if (count =? 0) (ValueError "RTC AV group is empty");
    '(units, offset) ← foldM (unit_step frame clock index_ tag) ([], 24%nat) (seq 0 (Z.to_nat count));
    _ ← raise_if (negb (offset =? List.length frame)%nat) (ValueError "RTC AV group has unconsumed bytes");
    Ok units.

(** ** [push_rtc_codecs.py], [push_rtc_formats.py] *)

Definition _AUDIO_IDS : list (Z * Z) :=
  [(1, 65543); (2, 65542); (3, 69643); (4, 86018); (5, 73728); (6, 69641); (7, 86076)].
Definition _VIDEO_IDS : list (Z * Z) := [(1, 27); (2, 12); (3, 88); (4, 7); (5, 173)].
Definition _CODEC_NAMES : list (Z * string) :=
  [(7, "mjpeg"); (12, "mpeg4"); (27, "h264"); (88, "jpeg2000"); (173, "hevc");
   (65542, "pcm_mulaw"); (65543, "pcm_alaw"); (69641, "adpcm_adx"); (69643, "adpcm_g726");
   (73728, "amr_nb"); (86018, "aac"); (86076, "opus")]%string.

Definition rtc_avcodec_id (kind : media) (codec_id : Z) : result (option Z) :=
  _ ← raise_if (negb ((0 <=? codec_id) && (codec_id <=? 255))) (ValueError "RTC codec ID must be an unsigned byte");
  Ok (assoc codec_id (match kind with Audio => _AUDIO_IDS | Video => _VIDEO_IDS end)).

Definition rtc_codec_name (kind : media) (codec_id : Z) : result (option string) :=
  avcodec_id ← rtc_avcodec_id kind codec_id;
  Ok (match avcodec_id with None => None | Some i => assoc i _CODEC_NAMES end).

Record RTCVideoFormat := mkVideo {
  v_stream_index : Z; v_codec_id : Z; v_width : Z; v_height : Z; v_frame_rate : Z; v_raw : bytes }.
Record RTCAudioFormat := mkAudio {
  a_stream_index : Z; a_codec_id : Z; a_codec_option : Z; a_channels : Z; a_bit_width : Z;
  a_sample_rate : Z; a_frame_size : Z; a_raw : bytes }.

Definition RTCVideoFormat_avcodec_id (f : RTCVideoFormat) : result (option Z) := rtc_avcodec_id Video (v_codec_id f).
Definition RTCVideoFormat_codec_name (f : RTCVideoFormat) : result (option string) := rtc_codec_name Video (v_codec_id f).
Definition RTCAudioFormat_avcodec_id (f : RTCAudioFormat) : result (option Z) := rtc_avcodec_id Audio (a_codec_id f).
Definition RTCAudioFormat_codec_name (f : RTCAudioFormat) : result (option string) := rtc_codec_name Audio (a_codec_id f).

(** [math.isfinite] on the bit pattern of a float32. *)
Definition isfinite32 (bits : Z) : bool := negb (Z.land (Z.shiftr bits 23) 0xFF =? 0xFF).

Definition parse_rtc_format (entry : bytes) : result (RTCVideoFormat + RTCAudioFormat) :=
  _ ← raise_if (negb (len entry =? 20)) (ValueError "RTC format descriptor must contain twenty immutable bytes");
  b2 ← index entry 2;
  let index_ := Z.max 0 (b2 - 1) in
  b1 ← index entry 1;
  if b1 =? 1 then
    width ← unpack_from 2 entry 4; height ← unpack_from 2 entry 6; rate ← unpack_from 4 entry 8;
    _ ← raise_if (negb (isfinite32 rate)) (ValueError "RTC video frame rate is not finite");
    b12 ← index entry 12;
    Ok (inl (mkVideo index_ b12 width height rate entry))
  else if b1 =? 2 then
    sample_rate ← unpack_from 4 entry 4; frame_size ← unpack_from 2 entry 8;
    b12 ← index entry 12; b13 ← index entry 13; b10 ← index entry 10; b11 ← index entry 11;
    Ok (inr (mkAudio index_ b12 b13 b10 b11 sample_rate frame_size entry))
  else Raise (ValueError "RTC format descriptor kind is unsupported").

(** ** [push_rtc_fragments.py] *)

Record RTCFragment := mkFragment {
  f_kind : Z; fragment_id : Z; metadata : bytes; f_payload : bytes
}.

(** [struct] format ["<i"]. *)
Definition signed32 (v : Z) : Z := if v <? 2 ^ 31 then v else v - 2 ^ 32.

Definition error_code (f : RTCFragment) : result (option Z) :=
  if f_kind f =? 0xF3 then c ← unpack_from 4 (metadata f) 0; Ok (Some c) else Ok None.

Definition parse_rtc_fragment (frame : bytes) : result RTCFragment :=
  _ ← raise_if (negb ((20 <=? len frame) && (len frame <=? 0x8400 - 20))) (ValueError "RTC fragment size is invalid");
  kind ← unpack_from 2 frame 0;
  _ ← raise_if (negb (existsb (Z.eqb kind) [0xF0; 0xF1; 0xF2; 0xF3])) (ValueError "RTC fragment type is unsupported");
  size ← unpack_from 4 frame 4;
  _ ← raise_if (negb (size =? len frame - 8)) (ValueError "RTC fragment length does not match");
  id ← unpack_from 4 frame 8;
  Ok (mkFragment kind (signed32 id) (slice 12 20 frame) (drop 20 frame)).

(** ** [push_rtc_assembly.py] *)

(** The buffers are only reached through [_pending], and no exception is raised
    between extending a buffer and storing it again: values model them. *)
Record assembly := mkAssembly {
  _pending : gmap Z (bytes * Z);
  _size : Z;
  _closed : bool
}.

Definition fresh : assembly := mkAssembly ∅ 0 false.
Definition close (s : assembly) : assembly := mkAssembly ∅ 0 true.

Definition finish (s : assembly) : assembly * result unit :=
  if _closed s then (s, Raise (ValueError "RTC fragment assembly is closed")) else
  if negb (bool_decide (_pending s = ∅)) then (close s, Raise (ValueError "truncated RTC fragment stream"))
  else (close s, Ok tt).

(** The buffer and count a fragment continues. *)
Definition open_buffer (s : assembly) (fragment : RTCFragment) : result (bytes * Z) :=
  if f_kind fragment =? 0xF0 then
    _ ← raise_if (bool_decide (is_Some (_pending s !! fragment_id fragment)) || (4 <=? size (_pending s))%nat)
          (ValueError "RTC fragment begin conflicts with pending state");
    Ok ([], 0)
  else match _pending s !! fragment_id fragment with
       | None => Raise (ValueError "RTC fragment has no matching begin")
       | Some b => Ok b
       end.

Definition feed_fragment (s : assembly) (fragment : RTCFragment) : result (assembly * option bytes) :=
  let identity := fragment_id fragment in
  '(buffer, count) ← open_buffer s fragment;
  if f_kind fragment =? 0xF3 then
    Ok (mkAssembly (delete identity (_pending s)) (_size s - len buffer) (_closed s), None)
  else
    let count := count + 1 in
    _ ← raise_if ((256 <? count) || (256 * 1024 <? _size s + len (f_payload fragment)))
          (ValueError "RTC fragment assembly limit exceeded");
    let buffer := buffer ++ f_payload fragment in
    let size := _size s + len (f_payload fragment) in
    if f_kind fragment =? 0xF2
    then Ok (mkAssembly (delete identity (_pending s)) (size - len buffer) (_closed s), Some buffer)
    else Ok (mkAssembly (<[identity := (buffer, count)]> (_pending s)) size (_closed s), None).

Definition _feed (s : assembly) (frame : bytes) : result (assembly * option bytes) :=
  fragment ← parse_rtc_fragment frame; feed_fragment s fragment.

Definition feed (s : assembly) (frame : bytes) : assembly * result (option bytes) :=
  if _closed s then (s, Raise (ValueError "RTC fragment assembly is closed")) else
  match _feed s frame with
  | Ok (s, out) => (s, Ok out)
  | Raise (ValueError m) => (close s, Raise (ValueError m))
  | Raise e => (s, Raise e)
  end.

(** ** The assembly against its history *)

(** The payloads received so far under an identifier, since its last begin. *)
Definition open_step (id : Z) (acc : option (list bytes)) (f : RTCFragment) : option (list bytes) :=
  if fragment_id f =? id then
    if f_kind f =? 0xF0 then Some [f_payload f]
    else if f_kind f =? 0xF1 then (λ l, l ++ [f_payload f]) <$> acc
    else None
  else acc.
Definition open_payloads (log : list RTCFragment) (id : Z) : option (list bytes) :=
  foldl (open_step id) None log.

(** What accepting a fragment after a history returns. *)
Definition completed (log : list RTCFragment) (f : RTCFragment) : option bytes :=
  if f_kind f =? 0xF2
  then Some (concat (default [] (open_payloads log (fragment_id f)) ++ [f_payload f]))
  else None.

(** The states an assembly goes through, with the fragments it accepted. *)
Inductive reachable : list RTCFragment → assembly → Prop :=
| reachable_fresh : reachable [] fresh
| reachable_feed log s frame f s' out :
    reachable log s → parse_rtc_fragment frame = Ok f → feed s frame = (s', Ok out) →
    reachable (log ++ [f]) s'.

Record bounded (s : assembly) : Prop := {
  bd_open : _closed s = false;
  bd_size : _size s = map_sum (λ b, len b.1) (_pending s);
  bd_limit : _size s ≤ 256 * 1024;
  bd_pending : (size (_pending s) ≤ 4)%nat;
  bd_count : map_Forall (λ _ b, 1 ≤ b.2 ≤ 256) (_pending s)
}.

Definition holds (log : list RTCFragment) (s : assembly) : Prop :=
  ∀ id, _pending s !! id = (λ l, (concat l, len l)) <$> open_payloads log id.

Lemma kind_cases frame f : parse_rtc_fragment frame = Ok f →
  f_kind f = 0xF0 ∨ f_kind f = 0xF1 ∨ f_kind f = 0xF2 ∨ f_kind f = 0xF3.
Proof.
  unfold parse_rtc_fragment. intros E. apply bind_Ok in E as (? & _ & E). apply bind_Ok in E as (kind & _ & E).
  apply bind_Ok in E as (? & G%raise_if_Ok & E). apply bind_Ok in E as (? & _ & E). apply bind_Ok in E as (? & _ & E).
  apply bind_Ok in E as (? & _ & E). injection E as <-. cbn [existsb f_kind] in *. lia.
Qed.

Lemma parse_fragment_total frame : bytes_ok frame →
  value_or (λ f, f_payload f = drop 20 frame ∧ metadata f = slice 12 20 frame) (parse_rtc_fragment frame).
Proof.
  intros Hf. unfold parse_rtc_fragment. apply value_or_raise_if. intros G.
  assert (20 ≤ length frame)%nat by (unfold len in G; lia).
  rewrite (unpack_from_ok 2 frame 0), bind_ret by lia. apply value_or_raise_if. intros _.
  rewrite (unpack_from_ok 4 frame 4), bind_ret by lia. apply value_or_raise_if. intros _.
  by rewrite (unpack_from_ok 4 frame 8), bind_ret by lia.
Qed.

Lemma open_payloads_snoc log f id : open_payloads (log ++ [f]) id = open_step id (open_payloads log id) f.
Proof. unfold open_payloads. by rewrite foldl_app. Qed.

Lemma len_app {A} (l k : list A) : len (l ++ k) = len l + len k.
Proof. unfold len. rewrite length_app. lia. Qed.

(** Accepting one fragment, branch by branch. *)
Lemma feed_fragment_holds log s f s' out :
  f_kind f = 0xF0 ∨ f_kind f = 0xF1 ∨ f_kind f = 0xF2 ∨ f_kind f = 0xF3 →
  holds log s → feed_fragment s f = Ok (s', out) → holds (log ++ [f]) s' ∧ out = completed log f.
Proof.
  intros Hk Hh E. unfold feed_fragment in E. cbv zeta in E. apply bind_Ok in E as ([b n] & Eb & E).
  assert (if f_kind f =? 0xF0 then b = [] ∧ n = 0 ∧ _pending s !! fragment_id f = None
          else _pending s !! fragment_id f = Some (b, n)) as Hb.
  { unfold open_buffer in Eb. destruct (f_kind f =? 0xF0).
    - apply bind_Ok in Eb as (? & G%raise_if_Ok & Eb). injection Eb as <- <-.
      apply orb_false_elim in G as [G _]. apply bool_decide_eq_false in G.
      split_and!; try done. by apply eq_None_not_Some.
    - destruct (_pending s !! fragment_id f) as [[? ?]|]; [by injection Eb as <- <-|done]. }
  clear Eb. unfold holds, completed. setoid_rewrite open_payloads_snoc. unfold open_step.
  pose proof (Hh (fragment_id f)) as Hid.
  assert (∀ id, id ≠ fragment_id f → (fragment_id f =? id) = false) as Hne by (intros; lia).
  destruct Hk as [Hk|[Hk|[Hk|Hk]]]; rewrite Hk in Hb, E |- *; cbn [Z.eqb Pos.eqb] in Hb, E |- *.
  - destruct Hb as (-> & -> & _). apply bind_Ok in E as (? & _ & E). injection E as <- <-. split; [|done].
    intros id. cbn [_pending]. destruct (decide (id = fragment_id f)) as [->|Hi].
    + rewrite lookup_insert_eq, Z.eqb_refl. simpl. by rewrite app_nil_r.
    + rewrite lookup_insert_ne by done. rewrite (Hne _ Hi). apply Hh.
  - apply bind_Ok in E as (? & _ & E). injection E as <- <-. split; [|done].
    intros id. cbn [_pending]. destruct (decide (id = fragment_id f)) as [->|Hi].
    + rewrite lookup_insert_eq, Z.eqb_refl. rewrite Hb in Hid.
      destruct (open_payloads log (fragment_id f)) as [l|]; [|done]. injection Hid as -> ->. simpl.
      rewrite concat_app, len_app. simpl. by rewrite app_nil_r.
    + rewrite lookup_insert_ne by done. rewrite (Hne _ Hi). apply Hh.
  - apply bind_Ok in E as (? & _ & E). injection E as <- <-. split.
    + intros id. cbn [_pending]. destruct (decide (id = fragment_id f)) as [->|Hi].
      * by rewrite lookup_delete_eq, Z.eqb_refl.
      * rewrite lookup_delete_ne by done. rewrite (Hne _ Hi). apply Hh.
    + rewrite Hb in Hid. destruct (open_payloads log (fragment_id f)) as [l|]; [|done].
      injection Hid as -> _. simpl. rewrite concat_app. simpl. by rewrite app_nil_r.
  - injection E as <- <-. split; [|done].
    intros id. cbn [_pending]. destruct (decide (id = fragment_id f)) as [->|Hi].
    + by rewrite lookup_delete_eq, Z.eqb_refl.
    + rewrite lookup_delete_ne by done. rewrite (Hne _ Hi). apply Hh.
Qed.

Lemma feed_fragment_bounded s f : 
  f_kind f = 0xF0 ∨ f_kind f = 0xF1 ∨ f_kind f = 0xF2 ∨ f_kind f = 0xF3 → bounded s →
  value_or (λ '(s', _), bounded s') (feed_fragment s f).
Proof.
  intros Hk [Ho Hs Hl Hp Hc]. unfold feed_fragment. cbv zeta.
  assert (∀ b n, _pending s !! fragment_id f = Some (b, n) →
    bounded (mkAssembly (delete (fragment_id f) (_pending s)) (_size s - len b) (_closed s))) as Hdel.
  { intros b n E. pose proof (map_sum_delete (λ b, len b.1) _ _ _ E) as Hsum. cbn [fst] in Hsum.
    pose proof (map_size_delete_Some _ _ (mk_is_Some _ _ E)). assert (0 ≤ len b) by (unfold len; lia).
    constructor; cbn [_pending _size _closed]; try done; try lia. by apply map_Forall_delete. }
  unfold open_buffer. destruct Hk as [Hk|[Hk|[Hk|Hk]]]; rewrite Hk; cbn [Z.eqb Pos.eqb].
  - destruct (bool_decide_reflect (is_Some (_pending s !! fragment_id f))) as [|Hn]; [done|].
    apply eq_None_not_Some in Hn. destruct (Nat.leb_spec 4 (size (_pending s))); [done|]. cbn [orb raise_if].
    rewrite !bind_ret. apply value_or_raise_if. intros G. simpl.
    constructor; cbn [_pending _size _closed]; try done; try lia.
    + rewrite map_sum_insert by done. simpl. lia.
    + rewrite map_size_insert_None by done. lia.
    + by apply map_Forall_insert_2.
  - destruct (_pending s !! fragment_id f) as [[b n]|] eqn:E; [|done]. rewrite bind_ret.
    apply value_or_raise_if. intros G. simpl. pose proof (Hc _ _ E) as Hn. cbn [snd] in Hn.
    constructor; cbn [_pending _size _closed]; try done; try lia.
    + rewrite (map_sum_update _ _ _ _ _ E). cbn [fst]. rewrite len_app. lia.
    + by rewrite map_size_insert_Some.
    + apply map_Forall_insert_2; [simpl; lia|done].
  - destruct (_pending s !! fragment_id f) as [[b n]|] eqn:E; [|done]. rewrite bind_ret.
    apply value_or_raise_if. intros G. simpl. rewrite len_app.
    replace (_size s + len (f_payload f) - (len b + len (f_payload f))) with (_size s - len b) by lia. by eapply Hdel.
  - destruct (_pending s !! fragment_id f) as [[b n]|] eqn:E; [|done]. rewrite bind_ret. simpl. by eapply Hdel.
Qed.

Lemma feed_open s frame : _closed s = false →
  feed s frame = match _feed s frame with
                 | Ok (s, out) => (s, Ok out)
                 | Raise (ValueError m) => (close s, Raise (ValueError m))
                 | Raise e => (s, Raise e)
                 end.
Proof. intros H. unfold feed. by rewrite H. Qed.

Lemma reachable_bounded log s : reachable log s → bounded s ∧ holds log s.
Proof.
  induction 1 as [|log s frame f s' out Hr [IHb IHh] Ef Efeed].
  - split; [|done]. constructor; cbn; try done. rewrite map_size_empty. lia.
  - pose proof (kind_cases _ _ Ef) as Hk. rewrite feed_open in Efeed by apply IHb.
    unfold _feed in Efeed. rewrite Ef, bind_ret in Efeed.
    pose proof (feed_fragment_bounded s f Hk IHb) as Hb.
    destruct (feed_fragment s f) as [[s2 o2]|e] eqn:E; [|by destruct e].
    injection Efeed as <- <-. split; [done|]. by eapply feed_fragment_holds.
Qed.

(** ** Boundaries *)

Lemma concat_slices {A} a k n (l : list A) :
  concat (map (λ i, slice (a + i * k) (a + i * k + k) l) (seq 0 n)) = slice a (a + n * k) l.
Proof.
  induction n as [|n IH].
  - unfold slice. by rewrite Nat.mul_0_l, Nat.add_0_r, Nat.sub_diag.
  - rewrite seq_S, map_app, concat_app, IH. cbn [map concat]. rewrite app_nil_r, Nat.add_0_l, slice_concat by lia.
    f_equal. lia.
Qed.

(** A record the boundary scanner accepts, by itself. *)
Definition inner_record (r : bytes) : Prop := ∃ kind minimum,
  unpack_from 2 r 0 = Ok kind ∧ assoc kind minimum_size = Some minimum ∧ minimum ≤ len r ∧
  unpack_from 4 r 4 = Ok (len r - 8) ∧
  (kind = 0x81 ∨ kind = 0x83 → ∃ es, parse_rtc_header_entries r = Ok es).

Lemma minimum_bound kind m : assoc kind minimum_size = Some m → 9 ≤ m.
Proof.
  unfold assoc, minimum_size. cbn [List.find fst]. repeat case_match; intros [= <-]; simplify_eq/=; lia.
Qed.

Lemma inner_record_length r : inner_record r → (9 ≤ length r)%nat.
Proof. intros (kind & m & _ & Hm%minimum_bound & ? & _). unfold len in *. lia. Qed.

Lemma selective_span_total frame : bytes_ok frame →
  value_or (λ '(o, n), (o + n = length frame)%nat ∧ (8 ≤ length frame)%nat ∧ (8 ≤ o)%nat) (selective_rtc_cipher_span frame).
Proof.
  intros Hf. unfold selective_rtc_cipher_span. apply value_or_raise_if. intros G.
  assert (8 ≤ length frame)%nat by (unfold len in G; lia).
  rewrite (unpack_from_ok 2 frame 0), bind_ret by lia. rewrite (unpack_from_ok 4 frame 4), bind_ret by lia.
  apply value_or_raise_if. intros _. destruct (assoc _ _OFFSETS) as [o|] eqn:E; [|done].
  apply value_or_raise_if. intros Ho. simpl. split_and!; [lia|done|].
  unfold assoc, _OFFSETS in E. cbn [List.find fst] in E. repeat case_match; simplify_eq/=; lia.
Qed.

(** The entries of a header record are its bytes after the tenth. *)
Lemma header_entries_total frame : bytes_ok frame →
  value_or (λ es, concat es = drop 10 frame ∧ Forall (λ e, length e = 20%nat) es) (parse_rtc_header_entries frame).
Proof.
  intros Hf. unfold parse_rtc_header_entries.
  eapply value_or_bind; [by apply selective_span_total|]. intros [o n] (_ & H8 & _) _.
  rewrite (unpack_from_ok 2 frame 0), bind_ret by lia. do 2 (apply value_or_raise_if; intros ?).
  rewrite (index_ok frame 9), bind_ret by (unfold len in *; lia). apply value_or_raise_if. intros E.
  set (c := frame !!! 9%nat) in *. assert (length frame = 10 + Z.to_nat c * 20)%nat as L by (unfold len in *; lia).
  unfold value_or. split.
  - rewrite (concat_slices 10 20). unfold slice. apply take_ge. rewrite length_drop. lia.
  - apply list.Forall_forall. intros e He. apply list_elem_of_In, in_map_iff in He as (i & <- & Hi%in_seq).
    rewrite length_slice. lia.
Qed.

Lemma inner_end_total data seen offset : bytes_ok data → (offset < length data)%nat →
  value_or (λ e, (e ≤ length data)%nat ∧ (seen < 256)%nat ∧ (offset + 9 ≤ e)%nat ∧ inner_record (slice offset e data))
    (inner_end data seen offset).
Proof.
  intros Hd Ho. unfold inner_end. apply value_or_raise_if. intros G.
  destruct (unpack_from_field 2 data offset) as (kind & Ek & _ & _); [done|lia|]. rewrite Ek, bind_ret.
  destruct (unpack_from_field 4 data (offset + 4)) as (size & Es & Hs & _); [done|lia|]. rewrite Es, bind_ret.
  destruct (assoc kind minimum_size) as [m|] eqn:Em; [|done]. pose proof (minimum_bound _ _ Em) as Hm. cbv zeta.
  apply value_or_raise_if. intros G2. unfold len in G2.
  set (e := Z.to_nat (Z.of_nat offset + (size + 8))).
  assert (length (slice offset e data) = Z.to_nat (size + 8)) as L by (rewrite length_slice; subst e; lia).
  eapply (value_or_bind (λ _, kind = 0x81 ∨ kind = 0x83 → ∃ es, parse_rtc_header_entries (slice offset e data) = Ok es)).
  - destruct ((kind =? 0x81) || (kind =? 0x83)) eqn:Eh; [|simpl; lia].
    eapply value_or_bind; [apply header_entries_total; auto with bytes|]. intros es _ E _. by exists es.
  - intros _ He _. unfold value_or. split_and!; [lia|lia|lia|]. exists kind, m.
    rewrite !unpack_from_slice, Nat.add_0_r by lia. unfold len. rewrite L. split_and!; [done|done|lia| |done].
    rewrite Es. f_equal. lia.
Qed.

Lemma inner_end_record data seen offset e : (seen < 256)%nat → (e ≤ length data)%nat → (offset ≤ e)%nat →
  inner_record (slice offset e data) → inner_end data seen offset = Ok e.
Proof.
  intros Hs He Hoe Hr. pose proof (inner_record_length _ Hr) as L. rewrite length_slice in L.
  destruct Hr as (kind & m & Ek & Em & Hm & Es & Hh). unfold len in *. rewrite length_slice in Hm, Es.
  rewrite unpack_from_slice in Ek, Es by lia. rewrite Nat.add_0_r in Ek. unfold inner_end.
  rewrite guard_pass by lia. rewrite Ek, bind_ret, Es, bind_ret, Em. cbv zeta.
  replace (_ - 8 + 8) with (Z.of_nat (e - offset)) by lia.
  replace (Z.to_nat (Z.of_nat offset + Z.of_nat (e - offset))) with e by lia.
  rewrite guard_pass by (unfold len; lia).
  destruct ((kind =? 0x81) || (kind =? 0x83)) eqn:Eh; [|done].
  destruct Hh as [es ->]; [lia|done].
Qed.

(** The records of [data] from [offset] on, by their boundaries. *)
Fixpoint chained (a : nat) (spans : list (nat * nat)) (b : nat) : Prop :=
  match spans with
  | [] => a = b
  | (s, e) :: spans => s = a ∧ (a ≤ e)%nat ∧ chained e spans b
  end.
Definition pieces (data : bytes) (spans : list (nat * nat)) : list bytes :=
  map (λ '(start, e), slice start e data) spans.

Lemma chained_le a spans b : chained a spans b → (a ≤ b)%nat.
Proof. revert a. induction spans as [|[s e] spans IH]; intros a; simpl; [lia|]. intros (-> & ? & ?%IH). lia. Qed.

Lemma chained_pieces data spans a b : chained a spans b → concat (pieces data spans) = slice a b data.
Proof.
  revert a. induction spans as [|[s e] spans IH]; intros a; simpl.
  - intros ->. unfold slice. by rewrite Nat.sub_diag.
  - intros (-> & ? & H). rewrite (IH _ H). apply slice_concat. split; [done|by eapply chained_le].
Qed.

Lemma spans_loop_sound data fuel offset spans : bytes_ok data → (offset ≤ length data)%nat →
  (length data - offset ≤ fuel)%nat → (length spans ≤ 256)%nat →
  value_or (λ res, ∃ new, res = spans ++ new ∧ (length res ≤ 256)%nat ∧ chained offset new (length data) ∧
      Forall inner_record (pieces data new))
    (spans_loop fuel data offset spans).
Proof.
  intros Hd. revert offset spans. induction fuel as [|fuel IH]; intros offset spans Ho Hf Hn.
  - cbn [spans_loop]. destruct (Nat.ltb_spec offset (length data)); [lia|].
    exists []. rewrite app_nil_r. split_and!; [done|done|simpl; lia|constructor].
  - cbn [spans_loop]. destruct (Nat.ltb_spec offset (length data)).
    + eapply value_or_bind; [by apply inner_end_total|]. intros e (He & Hs & Hoe & Hr) _.
      eapply value_or_impl; [apply IH; [lia|lia|rewrite length_app; simpl; lia]|].
      intros res (new & -> & Hl & Hc & Hp). exists ((offset, e) :: new). rewrite <-app_assoc in *.
      split_and!; [done|done|simpl; split_and!; [done|lia|done]|by constructor].
    + exists []. rewrite app_nil_r. split_and!; [done|done|simpl; lia|constructor].
Qed.

Lemma spans_loop_complete data fuel offset spans rest : (length rest ≤ fuel)%nat →
  (length spans + length rest ≤ 256)%nat → chained offset rest (length data) →
  Forall inner_record (pieces data rest) → spans_loop fuel data offset spans = Ok (spans ++ rest).
Proof.
  revert fuel offset spans. induction rest as [|[a e] rest IH]; intros fuel offset spans Hf Hn Hc Hr.
  - simpl in Hc. subst. rewrite app_nil_r. destruct fuel; cbn [spans_loop]; by rewrite Nat.ltb_irrefl.
  - simpl in Hc. destruct Hc as (-> & Hoe & Hc). apply list.Forall_cons in Hr as [Hr Hrs]. simpl in Hn, Hf.
    pose proof (chained_le _ _ _ Hc). pose proof (inner_record_length _ Hr) as L. rewrite length_slice in L.
    destruct fuel as [|fuel]; [lia|]. cbn [spans_loop]. destruct (Nat.ltb_spec offset (length data)); [|lia].
    rewrite (inner_end_record data (length spans) offset e), bind_ret by (done || lia).
    rewrite IH; [by rewrite <-app_assoc|lia|rewrite length_app; simpl; lia|done|done].
Qed.

(** Records laid one after another have the boundaries of their lengths. *)
Lemma records_chained records pre : ∃ spans, length spans = length records ∧
  chained (length pre) spans (length (pre ++ concat records)) ∧ pieces (pre ++ concat records) spans = records.
Proof.
  revert pre. induction records as [|r records IH]; intros pre.
  - exists []. cbn. by rewrite app_nil_r.
  - destruct (IH (pre ++ r)) as (spans & L & Hc & Hp).
    exists ((length pre, (length pre + length r)%nat) :: spans). cbn [concat].
    rewrite <-app_assoc, length_app in Hc. rewrite <-app_assoc in Hp. cbn [length chained pieces map]. split_and!; [lia|done|lia|done|].
    unfold pieces in Hp. rewrite Hp. f_equal. apply slice_mid; lia.
Qed.

(** ** AV units *)

Definition unit_of (clock : Z) (p : bytes) (u : RTCAVUnit) : Prop :=
  length p = 8%nat ∧ unpack_from 2 p 0 = Ok (len (u_payload u)) ∧ discriminator u = 0 ∧
  ∃ delta, unpack_from 4 p 2 = Ok delta ∧ clock_raw u = (clock + delta) mod 2 ^ 64.
Definition grouped (clock : Z) (l : bytes) (us : list RTCAVUnit) : Prop := ∃ ps,
  Forall2 (unit_of clock) ps us ∧ l = concat (zip_with (λ p u, p ++ u_payload u) ps us).

Lemma grouped_snoc clock l us p u :
  grouped clock l us → unit_of clock p u → grouped clock (l ++ p ++ u_payload u) (us ++ [u]).
Proof.
  intros (ps & H & ->) Hu. exists (ps ++ [p]). split.
  - apply Forall2_app; [done|]. by constructor.
  - rewrite zip_with_app by (by eapply Forall2_length). rewrite concat_app. simpl. by rewrite app_nil_r.
Qed.

Lemma unit_step_total frame clock index tag s i : bytes_ok frame →
  (24 ≤ s.2 ≤ length frame)%nat → grouped clock (slice 24 s.2 frame) s.1 →
  value_or (λ s', (24 ≤ s'.2 ≤ length frame)%nat ∧ grouped clock (slice 24 s'.2 frame) s'.1) (unit_step frame clock index tag s i).
Proof.
  destruct s as [us o]. cbn [fst snd]. intros Hf Ho Hg. unfold unit_step. apply value_or_raise_if. intros G.
  destruct (unpack_from_field 2 frame o) as (n & En & Hn & _); [done|lia|]. rewrite En, bind_ret.
  destruct (unpack_from_field 4 frame (o + 2)) as (d & Ed & _ & _); [done|lia|]. rewrite Ed, bind_ret. cbv zeta.
  apply value_or_raise_if. intros G2. unfold value_or. cbn [fst snd]. split; [lia|].
  set (e := (o + 8 + Z.to_nat n)%nat) in *.
  rewrite <-(slice_concat 24 o e), <-(slice_concat o (o + 8) e) by lia.
  apply (grouped_snoc _ _ _ _ (mkUnit 0 _ 1 index tag (slice (o + 8) e frame))); [done|]. unfold unit_of. cbn [u_payload discriminator clock_raw].
  split_and!; [rewrite length_slice; lia| |done|].
  - rewrite unpack_from_slice, Nat.add_0_r, En by lia. f_equal. unfold len. rewrite length_slice. lia.
  - exists d. rewrite unpack_from_slice by lia. split; [done|]. by apply (Z.land_ones _ 64).
Qed.

Lemma av_units_total frame : bytes_ok frame →
  value_or (λ us, (24 ≤ length frame)%nat ∧ unpack_from 4 frame 4 = Ok (len frame - 8) ∧
      ∃ clock, unpack_from 8 frame 16 = Ok clock ∧
      ((∃ u, us = [u] ∧ media_kind u = Some Video ∧ pts_raw u = clock ∧ u_payload u = drop 24 frame) ∨
       grouped clock (drop 24 frame) us)) (parse_rtc_av_units frame).
Proof.
  intros Hf. unfold parse_rtc_av_units. apply value_or_raise_if. intros G.
  assert (24 ≤ length frame)%nat by (unfold len in G; lia).
  rewrite (unpack_from_ok 2 frame 0), bind_ret by lia. destruct (unpack_from_field 4 frame 4) as (n & En & _ & _); [done|lia|].
  rewrite En, bind_ret. apply value_or_raise_if. intros G2.
  rewrite (index_ok frame 8), bind_ret by lia. rewrite (index_ok frame 10), bind_ret by lia.
  rewrite (index_ok frame 12), bind_ret by lia. cbv zeta.
  destruct (unpack_from_field 8 frame 16) as (clock & Ec & _ & _); [done|lia|]. rewrite Ec, bind_ret.
  assert (n = len frame - 8) as -> by lia. case_match.
  - apply value_or_raise_if. intros _. unfold value_or. split_and!; [done|done|]. exists clock. split; [done|]. left. by eexists.
  - rewrite (index_ok frame 11), bind_ret by lia. apply value_or_raise_if. intros _.
    eapply (value_or_bind (λ s, (24 ≤ s.2 ≤ length frame)%nat ∧ grouped clock (slice 24 s.2 frame) s.1)).
    + apply foldM_value_or.
      * intros s i _ [Hs Hg]. by apply unit_step_total.
      * cbn [fst snd]. split; [lia|]. exists []. split; [constructor|]. unfold slice. by rewrite Nat.sub_diag.
    + intros [us o] [Ho Hg] _. apply value_or_raise_if. intros Ee. unfold value_or. split_and!; [done|done|].
      exists clock. split; [done|]. right. cbn [fst snd] in *. assert (o = length frame) as -> by lia.
      unfold slice in Hg. rewrite take_ge in Hg by (rewrite length_drop; lia). done.
Qed.

(** ** Format descriptors *)

(** A codec whose identifier is translated has a descriptor name. *)
Lemma codec_named kind codec : 0 ≤ codec ≤ 255 → ∃ i n,
  rtc_avcodec_id kind codec = Ok i ∧ rtc_codec_name kind codec = Ok n ∧ (is_Some i ↔ is_Some n).
Proof.
  intros Hc. unfold rtc_codec_name, rtc_avcodec_id. rewrite !guard_pass by lia. rewrite bind_ret.
  eexists _, _. split; [done|]. split; [done|].
  set (d := match kind with Audio => _AUDIO_IDS | Video => _VIDEO_IDS end).
  destruct (assoc codec d) as [i|] eqn:E; [|by split; intros [? ?]].
  assert (Forall (λ x, is_Some (assoc x.2 _CODEC_NAMES)) d) as Hd by (destruct kind; apply (bool_decide_unpack _); vm_compute; exact I).
  split; [intros _|by eexists]. unfold assoc in E. apply fmap_Some in E as (x & Hx%List.find_some & ->).
  rewrite list.Forall_forall in Hd. apply Hd. apply list_elem_of_In, Hx.
Qed.

Definition descriptor_of (entry : bytes) (f : RTCVideoFormat + RTCAudioFormat) : Prop :=
  match f with
  | inl v => v_raw v = entry ∧ 0 ≤ v_stream_index v ≤ 254 ∧ isfinite32 (v_frame_rate v) = true ∧
             ∃ i n, RTCVideoFormat_avcodec_id v = Ok i ∧ RTCVideoFormat_codec_name v = Ok n ∧ (is_Some i ↔ is_Some n)
  | inr a => a_raw a = entry ∧ 0 ≤ a_stream_index a ≤ 254 ∧
             ∃ i n, RTCAudioFormat_avcodec_id a = Ok i ∧ RTCAudioFormat_codec_name a = Ok n ∧ (is_Some i ↔ is_Some n)
  end.

Lemma format_total entry : bytes_ok entry → value_or (descriptor_of entry) (parse_rtc_format entry).
Proof.
  intros Hb. unfold parse_rtc_format. apply value_or_raise_if. intros G.
  assert (length entry = 20%nat) as L by (unfold len in G; lia).
  assert (∀ i, (i < 20)%nat → index entry i = Ok (entry !!! i) ∧ 0 ≤ entry !!! i ≤ 255) as Hi.
  { intros i Hi. rewrite index_ok by lia. split; [done|].
    assert (0 ≤ entry !!! i < 256) by (apply (list.Forall_lookup_total_1 (λ d, 0 ≤ d < 256) entry); [done|lia]). lia. }
  destruct (Hi 2%nat ltac:(lia)) as [-> H2]. rewrite bind_ret. cbv zeta. destruct (Hi 1%nat ltac:(lia)) as [-> H1]. rewrite bind_ret.
  destruct (Hi 12%nat ltac:(lia)) as [-> H12]. destruct (Hi 13%nat ltac:(lia)) as [-> _].
  destruct (Hi 10%nat ltac:(lia)) as [-> _]. destruct (Hi 11%nat ltac:(lia)) as [-> _].
  case_match; [|case_match; [|done]].
  - rewrite (unpack_from_ok 2 entry 4), bind_ret by lia. rewrite (unpack_from_ok 2 entry 6), bind_ret by lia.
    rewrite (unpack_from_ok 4 entry 8), bind_ret by lia. apply value_or_raise_if. intros Hf. rewrite bind_ret.
    unfold value_or, descriptor_of. cbn [v_raw v_stream_index v_frame_rate]. split_and!; [done|lia|lia| |by apply codec_named].
    by apply negb_false_iff.
  - rewrite (unpack_from_ok 4 entry 4), bind_ret by lia. rewrite (unpack_from_ok 2 entry 8), bind_ret by lia.
    rewrite !bind_ret. unfold value_or, descriptor_of. cbn [a_raw a_stream_index]. split_and!; [done|lia|lia|by apply codec_named].
Qed.

(** ** Selective decryption *)

Lemma span_prefix frame out o n : selective_rtc_cipher_span frame = Ok (o, n) → (8 ≤ o)%nat →
  length out = length frame → take o out = take o frame → selective_rtc_cipher_span out = Ok (o, n).
Proof.
  intros E Ho L T. rewrite <-E. unfold selective_rtc_cipher_span. unfold len. rewrite L.
  assert (∀ a b, (b ≤ 8)%nat → slice a b out = slice a b frame) as Es.
  { intros a b Hb. unfold slice. rewrite <-(take_drop o out), <-(take_drop o frame), T.
    assert (o ≤ length frame)%nat as Hl.
    { unfold selective_rtc_cipher_span in E. apply bind_Ok in E as (? & _ & E).
      apply bind_Ok in E as (? & _ & E). apply bind_Ok in E as (? & _ & E). apply bind_Ok in E as (? & _ & E).
      case_match; [|done]. apply bind_Ok in E as (? & G%raise_if_Ok & E). injection E as <- <-. lia. }
    change (slice a b (take o frame ++ drop o out) = slice a b (take o frame ++ drop o frame)).
    by rewrite !slice_app_l by (rewrite length_take; lia). }
  by rewrite (unpack_from_ext 2 out frame 0), (unpack_from_ext 4 out frame 4) by auto with lia.
Qed.

Lemma decrypt_blocks frame key : bytes_ok frame →
  value_or (λ out, ∃ o n cipher, selective_rtc_cipher_span frame = Ok (o, n) ∧ (8 ≤ o)%nat ∧ (o + n = length frame)%nat ∧
      Rc5.init key 6 32 = Ok cipher ∧ Rc5.w cipher = 32 ∧
      out = take o frame ++ blocks (GuteFrame.T cipher false) (n / 8) (drop o frame)) (decrypt_selective_rtc frame key).
Proof.
  intros Hf. unfold decrypt_selective_rtc. apply value_or_raise_if. intros Hk.
  eapply value_or_bind; [by apply selective_span_total|]. intros [o n] (L & _ & Ho) Espan. cbv beta iota zeta.
  destruct (GuteFrame.init32 key) as (cipher & Ec & Hw).
  assert (8 * (n / 8) ≤ n)%nat by apply Nat.Div0.mul_div_le.
  replace ((o + n / 8 * 8 - o) / 8)%nat with (n / 8)%nat.
  2:{ replace (o + n / 8 * 8 - o)%nat with (n / 8 * 8)%nat by lia. by rewrite Nat.div_mul. }
  destruct (Nat.eqb_spec (o + n / 8 * 8) o) as [Hz|_].
  - exists o, n, cipher. replace (n / 8)%nat with 0%nat by lia. simpl. by rewrite take_drop.
  - rewrite Ec, bind_ret.
    pose proof (copy_loop (GuteFrame.transform cipher false) (GuteFrame.T cipher false) o (take o frame)) as Hloop.
    specialize (Hloop ltac:(intros; by apply GuteFrame.transform_ok) ltac:(rewrite length_take; lia) (n / 8)%nat (drop o frame)).
    rewrite take_drop in Hloop. rewrite Hloop by (rewrite length_drop; lia). by exists o, n, cipher.
Qed.

Lemma selective_cipher_spec frame key : bytes_ok frame →
  value_or (λ out, ∃ o n cipher, Rc5.init key 6 32 = Ok cipher ∧
      selective_rtc_cipher_span frame = Ok (o, n) ∧ selective_rtc_cipher_span out = Ok (o, n) ∧
      length out = length frame ∧ take o out = take o frame ∧
      drop (o + 8 * (n / 8)) out = drop (o + 8 * (n / 8)) frame ∧
      foldM (copy_step o (GuteFrame.transform cipher true) out) out (seq 0 (n / 8)) = Ok frame)
    (decrypt_selective_rtc frame key).
Proof.
  intros Hf. eapply value_or_impl; [by apply decrypt_blocks|].
  intros out (o & n & cipher & Es & Ho & Hl & Ec & Hw & Eout). exists o, n, cipher.
  assert (length (drop o frame) = n) as Ln by (rewrite length_drop; lia).
  destruct (GuteFrame.transform_blocks cipher false (drop o frame) Hw) as (Hb & Lb & Ib); [auto with bytes|].
  rewrite Ln in Hb, Lb, Ib. set (ct := blocks _ _ _) in *.
  assert (length (take o frame) = o) as Lt by (rewrite length_take; lia).
  assert (length out = length frame) as Lo by (rewrite Eout, length_app; lia).
  assert (take o out = take o frame) as To by (by rewrite Eout, take_app_length').
  assert (8 * (n / 8) ≤ n)%nat by apply Nat.Div0.mul_div_le.
  split_and!; [done|done|by eapply span_prefix|done|done| |].
  - rewrite <-!drop_drop, Eout, drop_app_length' by done. subst ct. apply drop_blocks; [|lia].
    intros; by apply GuteFrame.transform_ok.
  - rewrite Eout. pose proof (copy_loop (GuteFrame.transform cipher true) (GuteFrame.T cipher true) o (take o frame)) as Hloop.
    specialize (Hloop ltac:(intros; by apply GuteFrame.transform_ok) Lt (n / 8)%nat ct). rewrite Hloop by lia.
    change true with (negb false). rewrite Ib. by rewrite take_drop.
Qed.

(** ** Properties *)

(** C26: the boundary scanner is exact.  It splits a stream into records
    exactly when these are at most 256 well-formed records laid out with no
    byte between them, so the split is unique; on any other bytes, and for any
    header or AV record, the parsers return a value that accounts for every
    byte of the record or raise [ValueError].  A format descriptor is parsed
    with its bytes kept and its codec named whenever the codec is known. *)
Theorem rtc_parsers_exact data records frame : bytes_ok data → bytes_ok frame →
  (split_inner_rtc_records data = Ok records ↔
   concat records = data ∧ 1 ≤ len data ≤ 256 * 1024 ∧ (length records ≤ 256)%nat ∧ Forall inner_record records) ∧
  value_or (λ _, True) (split_inner_rtc_records data) ∧
  value_or (λ es, concat es = drop 10 frame ∧ Forall (λ e, length e = 20%nat) es) (parse_rtc_header_entries frame) ∧
  value_or (λ us, ∃ clock, unpack_from 8 frame 16 = Ok clock ∧
      ((∃ u, us = [u] ∧ media_kind u = Some Video ∧ pts_raw u = clock ∧ u_payload u = drop 24 frame) ∨
       grouped clock (drop 24 frame) us)) (parse_rtc_av_units frame) ∧
  value_or (descriptor_of frame) (parse_rtc_format frame).
Proof.
  intros Hd Hf. pose proof (spans_loop_sound data (length data) 0 [] Hd ltac:(lia) ltac:(lia) (Nat.le_0_l 256)) as Hs.
  split_and!.
  - split.
    + unfold split_inner_rtc_records. intros E. apply bind_Ok in E as (? & G%raise_if_Ok & E).
      apply bind_Ok in E as (spans & Es & E). rewrite Es in Hs. destruct Hs as (new & -> & Hl & Hc & Hr).
      injection E as <-. change (Forall inner_record (pieces data new)) in Hr. split_and!; [|lia|lia| |done].
      * etrans; [by eapply (chained_pieces data new)|]. by apply slice_all.
      * rewrite length_map. done.
    + intros (<- & Hn & Hl & Hr). unfold split_inner_rtc_records. rewrite guard_pass by lia.
      destruct (records_chained records []) as (spans & Ll & Hc & Hp). rewrite app_nil_l in Hc, Hp.
      rewrite (spans_loop_complete _ _ _ _ spans), bind_ret; [by apply f_equal| |simpl; lia|done|by rewrite Hp].
      rewrite Ll. clear -Hr. induction Hr as [|r rs Hr%inner_record_length _ IH]; [simpl; lia|].
      cbn [concat length]. rewrite length_app. lia.
  - unfold split_inner_rtc_records. apply value_or_raise_if. intros _. by eapply value_or_bind.
  - by apply header_entries_total.
  - eapply value_or_impl; [by apply av_units_total|]. by intros us (_ & _ & H).
  - by apply format_total.
Qed.

Definition sample_records : list bytes := [[0x82; 0; 0; 0; 1; 0; 0; 0; 7]; [0x81; 0; 0; 0; 2; 0; 0; 0; 0; 0]].

Lemma rtc_parsers_exact_witness : split_inner_rtc_records (concat sample_records) = Ok sample_records.
Proof.
  destruct (rtc_parsers_exact (concat sample_records) sample_records []) as [[_ Hsplit] _]; [bytes_concrete|constructor|].
  apply Hsplit. split_and!; [reflexivity|vm_compute; discriminate|vm_compute; discriminate|vm_compute; lia|].
  repeat constructor.
  - exists 0x82, 9. split_and!; [reflexivity|reflexivity|vm_compute; discriminate|reflexivity|intros [H|H]; discriminate].
  - exists 0x81, 10. split_and!; [reflexivity|reflexivity|vm_compute; discriminate|reflexivity|].
    intros _. exists []. reflexivity.
Defined.

(** C12: the fragment assembler.  In every state reached from a fresh one, the
    byte count is the sum of the buffered payloads and within its limit, at most
    four identifiers are open, and each buffer is the concatenation of the
    payloads received since its begin.  A further record either is accepted,
    and then yields exactly the payloads of its identifier when it ends one and
    nothing otherwise, or raises [ValueError] and closes the assembler for good. *)
Theorem assembly_refines_history log s frame : reachable log s → bytes_ok frame →
  bounded s ∧ (∀ id, fst <$> _pending s !! id = (@concat Z) <$> open_payloads log id) ∧
  (match feed s frame with
   | (s', Ok out) => ∃ f, parse_rtc_fragment frame = Ok f ∧ reachable (log ++ [f]) s' ∧ out = completed log f
   | (s', Raise (ValueError _)) => s' = close s ∧ ∀ later, ∃ msg, feed s' later = (s', Raise (ValueError msg))
   | _ => False
   end) ∧
  (finish s = (close s, Ok tt) ↔ ∀ id, open_payloads log id = None).
Proof.
  intros Hr Hf. destruct (reachable_bounded _ _ Hr) as [Hb Hh]. split_and!; [done| | |].
  - intros id. rewrite (Hh id). by destruct (open_payloads log id).
  - pose proof (feed_open s frame (bd_open _ Hb)) as Ef. unfold _feed in Ef.
    pose proof (parse_fragment_total _ Hf) as Hp. destruct (parse_rtc_fragment frame) as [f|[]] eqn:Ep; try done.
    + rewrite bind_ret in Ef. pose proof (feed_fragment_bounded s f (kind_cases _ _ Ep) Hb) as Hfb.
      destruct (feed_fragment s f) as [[s' out]|[]] eqn:E; try done; rewrite Ef.
      * exists f. split_and!; [done|by eapply reachable_feed|]. eapply feed_fragment_holds; [by eapply kind_cases|done|done].
      * split; [done|]. intros. by eexists.
    + simpl in Ef. rewrite Ef. split; [done|]. intros. by eexists.
  - unfold finish. rewrite (bd_open _ Hb). destruct (bool_decide_reflect (_pending s = ∅)) as [He|He]; simpl.
    + split; [|done]. intros _ id. pose proof (Hh id) as Hid. rewrite He, lookup_empty in Hid.
      by destruct (open_payloads log id).
    + split; [done|]. intros Hn. exfalso. apply He, map_empty. intros id. by rewrite (Hh id), (Hn id).
Qed.

Definition sample_begin : bytes := [0xF0; 0; 0; 0; 14; 0; 0; 0; 5; 0; 0; 0] ++ zeros 8 ++ [1; 2].
Definition sample_end : bytes := [0xF2; 0; 0; 0; 13; 0; 0; 0; 5; 0; 0; 0] ++ zeros 8 ++ [3].

Lemma assembly_refines_history_witness :
  (feed (feed fresh sample_begin).1 sample_end).2 = Ok (Some [1; 2; 3]) ∧ bounded (feed fresh sample_begin).1.
Proof.
  split; [reflexivity|].
  apply (assembly_refines_history [mkFragment 0xF0 5 (zeros 8) [1; 2]] _ sample_end); [|bytes_concrete].
  apply (reachable_feed [] fresh sample_begin (mkFragment 0xF0 5 (zeros 8) [1; 2]) _ None);
    [apply reachable_fresh|reflexivity|reflexivity].
Defined.

(** C37: selective decryption keeps the length, the clear prefix and the partial
    last block of a record; encrypting the same blocks again gives the record
    back, so two records that decrypt alike under a key are the same record. *)
Theorem selective_cipher_inverse frame frame' key out : bytes_ok frame → bytes_ok frame' →
  value_or (λ out, ∃ o n cipher, Rc5.init key 6 32 = Ok cipher ∧
      selective_rtc_cipher_span frame = Ok (o, n) ∧ selective_rtc_cipher_span out = Ok (o, n) ∧
      length out = length frame ∧ take o out = take o frame ∧
      drop (o + 8 * (n / 8)) out = drop (o + 8 * (n / 8)) frame ∧
      foldM (copy_step o (GuteFrame.transform cipher true) out) out (seq 0 (n / 8)) = Ok frame)
    (decrypt_selective_rtc frame key) ∧
  (decrypt_selective_rtc frame key = Ok out → decrypt_selective_rtc frame' key = Ok out → frame = frame').
Proof.
  intros Hf Hf'. split; [by apply selective_cipher_spec|]. intros E E'.
  pose proof (selective_cipher_spec frame key Hf) as H. rewrite E in H. destruct H as (o & n & c & Hc & _ & Hs & _ & _ & _ & H).
  pose proof (selective_cipher_spec frame' key Hf') as H'. rewrite E' in H'. destruct H' as (? & ? & ? & Hc' & _ & Hs' & _ & _ & _ & H').
  rewrite Hs in Hs'. rewrite Hc in Hc'. simplify_eq. rewrite H in H'. by injection H'.
Qed.

Definition sample_frame : bytes := [0x82; 0; 0; 0; 10; 0; 0; 0; 1; 2; 3; 4; 5; 6; 7; 8; 9; 10].

Definition sample_plain : bytes :=
  Eval vm_compute in match decrypt_selective_rtc sample_frame (take 8 sample_frame) with Ok p => p | Raise _ => [] end.

Lemma selective_cipher_inverse_witness :
  decrypt_selective_rtc sample_frame (take 8 sample_frame) = Ok sample_plain ∧
  ∀ f, bytes_ok f → decrypt_selective_rtc f (take 8 sample_frame) = Ok sample_plain → sample_frame = f.
Proof.
  assert (decrypt_selective_rtc sample_frame (take 8 sample_frame) = Ok sample_plain) as E by (vm_compute; reflexivity).
  split; [exact E|]. intros f Hf Ef.
  by apply (selective_cipher_inverse sample_frame f (take 8 sample_frame) sample_plain); [bytes_concrete| | |].
Defined.

End PushRtc.
