(* ===== verification/Account.v ===== *)
(** * The account's output budget and sequence numbers

    Models [src/backend/app/drivers/yoosee/p2p/account_policy.py] (traffic
    budget), [account_output_budget.py] (the account budget and the reserves
    carved out of it for PTZ, siren and media cleanup) and
    [broker_sequences.py] (the sequence namespace of a generation).

    Token counts and clock readings are exact rationals where the source has
    floats; a reading that is not finite is [None].  Every method that reads the
    clock takes its reading as an argument.  A reserve object is its identity;
    its slots are kept with the owner's reference to it, since a reserve the
    owner does not refer to has been closed and holds no slots.  Also here is
    what every job of an account does with them: its charges to its own reserve,
    in a world whose other actors may call the budget and take sequence numbers
    between any two of its steps. *)

From Stdlib Require Import ZArith QArith Qminmax Lia Lqa.
From S2P Require Import Prelude.

#[global] Open Scope Z_scope.

Module Account.

(** ** [account_policy.py] *)

Definition MAX_CLEANUP_RESERVES : Z := 24.

Definition validate_media_capacity (capacity : Z) : result unit :=
  raise_if (capacity <? 1) (ValueError "invalid media route capacity").

Inductive AccountPolicy : Type := FINITE | CONTINUOUS.
#[global] Instance AccountPolicy_eq_dec : EqDecision AccountPolicy.
Proof. solve_decision. Defined.

Record TrafficBudget := mkTraffic {
  _max_packets : Z; _max_octets : Z;
  _packets : Q; _octets : Q;
  _policy : AccountPolicy;
  _cleanup_reserves : Z;
  _last : Q
}.

Definition traffic_budget (packets octets : Z) (policy : AccountPolicy) (clock : option Q) (members : Z) :
    result TrafficBudget :=
  _ ← validate_media_capacity members;
  _ ← raise_if (negb ((1 <=? packets) && (packets <=? 512 * members)) ||
                negb ((1 <=? octets) && (octets <=? 1024 * 1024 * members)))
        (ValueError "invalid traffic limits");
  match clock with
  | None => Raise (ValueError "invalid traffic clock")
  | Some last =>
      Ok (mkTraffic packets octets (inject_Z packets) (inject_Z octets) policy
            (Z.max MAX_CLEANUP_RESERVES (18 + 2 * members)) last)
  end.

(** [min(max, tokens + elapsed * max / 60)] *)
Definition refill (max : Z) (tokens elapsed : Q) : Q :=
  Qmin (inject_Z max) (tokens + elapsed * inject_Z max / 60).

Definition refilled (now : Q) (t : TrafficBudget) : TrafficBudget :=
  match _policy t with
  | CONTINUOUS =>
      mkTraffic (_max_packets t) (_max_octets t)
        (refill (_max_packets t) (_packets t) (now - _last t))
        (refill (_max_octets t) (_octets t) (now - _last t))
        (_policy t) (_cleanup_reserves t) now
  | FINITE =>
      mkTraffic (_max_packets t) (_max_octets t) (_packets t) (_octets t) (_policy t) (_cleanup_reserves t) now
  end.

Definition Qgeb (a b : Q) : bool := Qle_bool b a.

Definition available (now : option Q) (packets octets : Z) : M TrafficBudget bool :=
  t ← get;
  match now with
  | None => raise (ValueError "invalid traffic clock")
  | Some now =>
      _ ← check (negb (Qle_bool (_last t) now)) (ValueError "invalid traffic clock");
      _ ← modify (refilled now);
      t ← get;
      mret (Qgeb (_packets t) (inject_Z packets) && Qgeb (_octets t) (inject_Z octets))
  end.

Definition spend (size : Z) (t : TrafficBudget) : TrafficBudget :=
  mkTraffic (_max_packets t) (_max_octets t) (_packets t - 1) (_octets t - inject_Z size)
    (_policy t) (_cleanup_reserves t) (_last t).

Definition traffic_charge (now : option Q) (size reserved : Z) : M TrafficBudget unit :=
  t ← get;
  _ ← check (negb ((0 <=? size) && (size <=? 1024 * 1024)) ||
             negb ((0 <=? reserved) && (reserved <=? _cleanup_reserves t)))
        (ValueError "invalid traffic charge");
  ok ← available now (1 + reserved) (size + reserved * 4096);
  _ ← check (negb ok) (ValueError "traffic budget exhausted");
  modify (spend size).

(** ** The slots of a reserve: a literal dictionary of counts *)

Definition slots : Type := list (string * Z).
Definition remaining (s : slots) : Z := foldr (λ kv n, kv.2 + n) 0 s.
Definition slot (kind : string) (s : slots) : option Z :=
  snd <$> List.find (λ kv, bool_decide (kv.1 = kind)) s.
Definition take_slot (kind : string) (s : slots) : slots :=
  map (λ kv, if bool_decide (kv.1 = kind) then (kv.1, kv.2 - 1) else kv) s.

Definition ptz_slots : slots := [("start", 1); ("release", 3); ("receipt", 2)]%string.
Definition siren_slots : slots := [("on", 1); ("off", 2); ("read", 3); ("receipt", 6)]%string.
Definition media_slots : slots := [("open", 1); ("close", 1)]%string.

(** ** [account_output_budget.py] *)

Record AccountOutputBudget := mkAccount {
  _traffic : TrafficBudget;
  _ptz : option (Z * slots);
  _media : gmap Z slots;
  _media_capacity : Z;
  _siren : option (Z * slots);
  allocated : Z (** identities given to reserve objects so far *)
}.

Definition account_output_budget (packets octets : option Z) (policy : AccountPolicy) (clock : option Q)
    (media_capacity : Z) : result AccountOutputBudget :=
  _ ← validate_media_capacity media_capacity;
  t ← traffic_budget (default (512 * media_capacity) packets) (default (1024 * 1024 * media_capacity) octets)
        policy clock media_capacity;
  Ok (mkAccount t None ∅ media_capacity None 0).

(** A call of the traffic budget from the account. *)
Definition in_traffic {A} (m : M TrafficBudget A) : M AccountOutputBudget A := λ b,
  let '(t, r) := m (_traffic b) in
  (mkAccount t (_ptz b) (_media b) (_media_capacity b) (_siren b) (allocated b), r).

Definition held (o : option (Z * slots)) : Z := match o with Some (_, s) => remaining s | None => 0 end.
Definition _reserved (b : AccountOutputBudget) : Z :=
  held (_ptz b) + map_sum remaining (_media b) + held (_siren b).

Definition charge (now : option Q) (size : Z) : M AccountOutputBudget unit :=
  _ ← check (negb ((0 <? size) && (size <=? 1024 * 1024))) (ValueError "invalid datagram size");
  b ← get;
  except_ValueError (ValueError "account output budget exhausted")
    (in_traffic (traffic_charge now size (_reserved b))).

Definition with_ptz (o : option (Z * slots)) (b : AccountOutputBudget) : AccountOutputBudget :=
  mkAccount (_traffic b) o (_media b) (_media_capacity b) (_siren b) (allocated b).
Definition with_siren (o : option (Z * slots)) (b : AccountOutputBudget) : AccountOutputBudget :=
  mkAccount (_traffic b) (_ptz b) (_media b) (_media_capacity b) o (allocated b).
Definition with_media (m : gmap Z slots) (b : AccountOutputBudget) : AccountOutputBudget :=
  mkAccount (_traffic b) (_ptz b) m (_media_capacity b) (_siren b) (allocated b).

(** [object()]: an identity not given before. *)
Definition new_object : M AccountOutputBudget Z :=
  b ← get;
  _ ← modify (λ b, mkAccount (_traffic b) (_ptz b) (_media b) (_media_capacity b) (_siren b) (allocated b + 1));
  mret (allocated b).

Definition is_none {A} (o : option A) : bool := match o with None => true | Some _ => false end.

(** [self._ptz is not None or not self._traffic.available(...)]: the second
    operand is evaluated only when the first is false. *)
Definition refused (taken : bool) (now : option Q) (required : Z) : M AccountOutputBudget bool :=
  if taken then mret true
  else ok ← in_traffic (available now required (required * 4096)); mret (negb ok).

Definition reserve_ptz (now : option Q) : M AccountOutputBudget Z :=
  b ← get;
  no ← refused (negb (is_none (_ptz b))) now (_reserved b + 6);
  _ ← check no (ValueError "PTZ cleanup capacity unavailable");
  id ← new_object;
  _ ← modify (with_ptz (Some (id, ptz_slots)));
  mret id.

Definition reserve_siren (now : option Q) : M AccountOutputBudget Z :=
  b ← get;
  no ← refused (negb (is_none (_siren b))) now (_reserved b + 12);
  _ ← check no (ValueError "siren cleanup capacity unavailable");
  id ← new_object;
  _ ← modify (with_siren (Some (id, siren_slots)));
  mret id.

Definition reserve_media (now : option Q) : M AccountOutputBudget Z :=
  b ← get;
  no ← refused (_media_capacity b <=? Z.of_nat (size (_media b))) now (_reserved b + 2);
  _ ← check no (ValueError "media cleanup capacity unavailable");
  id ← new_object;
  _ ← modify (λ b, with_media (<[id := media_slots]> (_media b)) b);
  mret id.

(** The slots of the reserve [id], when the owner still refers to it. *)
Definition active (o : option (Z * slots)) (id : Z) : option slots :=
  match o with Some (i, s) => if i =? id then Some s else None | None => None end.
(** [kind in self._slots and self._slots[kind]] and the size bound. *)
Definition unusable (o : option slots) (kind : string) (size : Z) : bool :=
  match o ≫= slot kind with
  | None => true
  | Some n => (n =? 0) || negb ((0 <? size) && (size <=? 4096))
  end.

Definition ptz_charge (id : Z) (now : option Q) (kind : string) (size : Z) : M AccountOutputBudget unit :=
  b ← get;
  _ ← check (unusable (active (_ptz b) id) kind size) (ValueError "PTZ output reservation unavailable");
  _ ← in_traffic (traffic_charge now size 0);
  modify (λ b, with_ptz ((λ '(i, s), (i, take_slot kind s)) <$> _ptz b) b).

Definition ptz_close (id : Z) : M AccountOutputBudget unit :=
  modify (λ b, if bool_decide (is_Some (active (_ptz b) id)) then with_ptz None b else b).

Definition siren_charge (id : Z) (now : option Q) (kind : string) (size : Z) : M AccountOutputBudget unit :=
  b ← get;
  _ ← check (unusable (active (_siren b) id) kind size) (ValueError "siren output reservation unavailable");
  _ ← in_traffic (traffic_charge now size 0);
  modify (λ b, with_siren ((λ '(i, s), (i, take_slot kind s)) <$> _siren b) b).

Definition siren_close (id : Z) : M AccountOutputBudget unit :=
  modify (λ b, if bool_decide (is_Some (active (_siren b) id)) then with_siren None b else b).

Definition media_charge (id : Z) (now : option Q) (kind : string) (size : Z) : M AccountOutputBudget unit :=
  b ← get;
  _ ← check (unusable (_media b !! id) kind size) (ValueError "media output reservation unavailable");
  _ ← in_traffic (traffic_charge now size 0);
  modify (λ b, with_media (alter (take_slot kind) id (_media b)) b).

Definition media_close (id : Z) : M AccountOutputBudget unit :=
  modify (λ b, with_media (delete id (_media b)) b).

(** ** [broker_sequences.py] *)

Record BrokerSequences := mkSequences {
  _session : Z; _generation : Z; _next : Z; closed : bool
}.

Definition broker_sequences (session_id generation next_sequence : Z) : result BrokerSequences :=
  _ ← raise_if (negb ((0 <? session_id) && (session_id <? 2 ^ 64)) || (generation <=? 0) ||
                negb ((0 <=? next_sequence) && (next_sequence <? 2 ^ 32)))
        (ValueError "invalid broker sequence identity");
  Ok (mkSequences session_id generation next_sequence false).

Definition matches (s : BrokerSequences) (session_id generation : Z) : bool :=
  negb (closed s) && ((session_id =? _session s) && (generation =? _generation s)).

Definition reserve (count : Z) : M BrokerSequences (list Z) :=
  s ← get;
  _ ← check (negb ((1 <=? count) && (count <=? 64))) (ValueError "sequence reservation must contain 1..64 IDs");
  _ ← check (closed s) (ValueError "broker sequence namespace closed");
  _ ← check (2 ^ 32 <? _next s + count) (ValueError "broker sequence exhausted; new generation required");
  let first := _next s in
  _ ← modify (λ s, mkSequences (_session s) (_generation s) (_next s + count) (closed s));
  mret (seqZ first count).

Definition allocate : M BrokerSequences Z :=
  l ← reserve 1;
  match l with x :: _ => mret x | [] => raise IndexError end.

Definition close : M BrokerSequences unit :=
  modify (λ s, mkSequences 0 (_generation s) (_next s) true).

(** ** The traffic budget *)

(** Token counts within their maxima. *)
Record sane (t : TrafficBudget) : Prop := {
  sane_packets : (_packets t <= inject_Z (_max_packets t))%Q;
  sane_octets : (_octets t <= inject_Z (_max_octets t))%Q;
  sane_max : 0 ≤ _max_packets t ∧ 0 ≤ _max_octets t
}.

(** What admission itself does to a budget: time passes and tokens return. *)
Record grown (t u : TrafficBudget) : Prop := {
  gr_packets : (_packets t <= _packets u)%Q;
  gr_octets : (_octets t <= _octets u)%Q;
  gr_last : (_last t <= _last u)%Q;
  gr_same : _max_packets u = _max_packets t ∧ _max_octets u = _max_octets t ∧ _policy u = _policy t ∧
            _cleanup_reserves u = _cleanup_reserves t
}.

Lemma grown_refl t : grown t t.
Proof. constructor; auto using Qle_refl. Qed.

Lemma refill_bounds max tokens elapsed : 0 ≤ max → (tokens <= inject_Z max)%Q → (0 <= elapsed)%Q →
  (tokens <= refill max tokens elapsed)%Q ∧ (refill max tokens elapsed <= inject_Z max)%Q.
Proof.
  intros Hm Ht He. split; [|apply Q.le_min_l]. apply Q.min_glb; [done|].
  assert (0 <= inject_Z max)%Q as Hm' by (change 0%Q with (inject_Z 0); by rewrite <-Zle_Qle).
  pose proof (Qmult_le_0_compat _ _ He Hm') as Hp. set (p := (elapsed * inject_Z max)%Q) in *.
  assert (0 <= p / 60)%Q by (apply Qle_shift_div_l; [done|lra]). lra.
Qed.

Lemma refilled_grown now t : sane t → (_last t <= now)%Q → sane (refilled now t) ∧ grown t (refilled now t).
Proof.
  intros [Hp Ho [Hmp Hmo]] Hl. assert (0 <= now - _last t)%Q as He by lra. unfold refilled.
  destruct (_policy t) eqn:Ep; [split; constructor; cbn; auto using Qle_refl|].
  pose proof (refill_bounds _ _ _ Hmp Hp He) as [? ?]. pose proof (refill_bounds _ _ _ Hmo Ho He) as [? ?].
  split; constructor; cbn; auto.
Qed.

Lemma available_spec now p o t : sane t →
  wp (available now p o) (λ r u, sane u ∧ grown t u ∧
    match r with
    | Ok ok => (∃ q, now = Some q ∧ (_last t <= q)%Q ∧ _last u = q) ∧
               (ok = true ↔ (inject_Z p <= _packets u)%Q ∧ (inject_Z o <= _octets u)%Q)
    | Raise e => e = ValueError "invalid traffic clock" ∧ ∀ q, now = Some q → ¬ (_last t <= q)%Q
    end) t.
Proof.
  intros Hs. unfold available. repeat wp_step.
  - rewrite negb_true_iff in H. split_and!; [done|apply grown_refl|done|].
    intros ? [= <-] Hq%Qle_bool_iff. congruence.
  - rewrite negb_false_iff, Qle_bool_iff in H. destruct (refilled_grown q t Hs H) as [Hs' Hg]. split_and!; [done|done| |].
    + exists q. split_and!; [done|done|]. unfold refilled. by destruct (_policy t).
    + unfold Qgeb. rewrite andb_true_iff, !Qle_bool_iff. done.
  - split_and!; [done|apply grown_refl|done|done].
Qed.

Lemma traffic_charge_spec now size reserved t : sane t →
  0 ≤ size ≤ 1024 * 1024 → 0 ≤ reserved ≤ _cleanup_reserves t →
  wp (traffic_charge now size reserved) (λ r u, ∃ g, grown t g ∧ sane g ∧
    match r with
    | Ok _ => u = spend size g ∧ (inject_Z (1 + reserved) <= _packets g)%Q ∧
              (inject_Z (size + reserved * 4096) <= _octets g)%Q
    | Raise e => u = g ∧
        (e = ValueError "invalid traffic clock" ∧ (∀ q, now = Some q → ¬ (_last t <= q)%Q) ∨
         e = ValueError "traffic budget exhausted" ∧
         ¬ ((inject_Z (1 + reserved) <= _packets g)%Q ∧ (inject_Z (size + reserved * 4096) <= _octets g)%Q))
    end) t.
Proof.
  intros Hs Hz Hr. unfold traffic_charge. do 2 wp_step. wp_step. wp_step; [lia|]. wp_step.
  eapply wp_mono; [by apply available_spec|]. intros r u (Hu & Hg & Hm). destruct r as [ok|e].
  - destruct Hm as [_ Hok]. repeat wp_step.
    + exists u. split_and!; [done|done|done|]. right. split; [done|]. rewrite <-Hok. by destruct ok.
    + exists u. destruct ok; [|done]. destruct Hok as [[? ?] _]; done.
  - exists u. split_and!; [done|done|done|]. by left.
Qed.

(** ** Slots *)

(** A table of [init] with some of its slots used. *)
Definition table (init s : slots) : Prop := Forall2 (λ kv0 kv, kv.1 = kv0.1 ∧ 0 ≤ kv.2 ≤ kv0.2) init s.

Lemma table_refl init : Forall (λ kv, 0 ≤ kv.2) init → table init init.
Proof. intros H. unfold table. induction H; constructor; [cbn beta in *; split; [done|lia]|done]. Qed.

Lemma table_remaining init s : table init s → 0 ≤ remaining s ≤ remaining init.
Proof. unfold table, remaining. induction 1 as [|? ? ? ? [_ ?] _ IH]; simpl in *; lia. Qed.

Lemma slot_in kind s n : slot kind s = Some n → (kind, n) ∈ s.
Proof.
  unfold slot. intros ([k v] & [Hx E]%List.find_some & ->)%fmap_Some. simpl in *.
  apply bool_decide_eq_true in E as <-. by apply list_elem_of_In.
Qed.

Lemma take_slot_other kind s : kind ∉ s.*1 → take_slot kind s = s.
Proof.
  unfold take_slot. induction s as [|[k v] s IH]; [done|]. rewrite fmap_cons, not_elem_of_cons. intros [Hk Hs]. simpl.
  rewrite bool_decide_eq_false_2 by (simpl in *; congruence). by rewrite IH.
Qed.

Lemma remaining_take kind s n : NoDup s.*1 → slot kind s = Some n → remaining (take_slot kind s) = remaining s - 1.
Proof.
  unfold slot. induction s as [|[k v] s IH]; [done|]. rewrite fmap_cons, NoDup_cons. intros [Hk Hn]. simpl in *.
  case_bool_decide; simpl.
  - subst k. intros _. fold (take_slot kind s). rewrite take_slot_other by done. lia.
  - intros H'. fold (take_slot kind s). rewrite (IH Hn H'). lia.
Qed.

Lemma table_keys init s : table init s → s.*1 = init.*1.
Proof. unfold table. induction 1 as [|? ? ? ? [E _] _ IH]; [done|]. rewrite !fmap_cons. by rewrite E, IH. Qed.

Lemma table_take init kind s n : NoDup init.*1 → table init s → slot kind s = Some n → n ≠ 0 →
  table init (take_slot kind s) ∧ remaining (take_slot kind s) = remaining s - 1.
Proof.
  intros Hn Ht Hs Hnz. pose proof (table_keys _ _ Ht) as Hk. split; [|eapply remaining_take; [by rewrite Hk|done]].
  unfold table, slot in *. clear Hk. induction Ht as [|[k0 v0] [k v] init s [E Hv] Ht IH]; [done|].
  rewrite fmap_cons, NoDup_cons in Hn. destruct Hn as [Hin Hn]. simpl in *. subst k0.
  case_bool_decide as Hd; simpl in *.
  - injection Hs as ->. constructor; [split; [done|simpl; lia]|]. fold (take_slot kind s). rewrite take_slot_other; [done|].
    fold (table init s) in Ht. by rewrite (table_keys _ _ Ht), <-Hd.
  - constructor; [split; [done|simpl; lia]|]. by apply IH.
Qed.

(** ** The account *)

Definition held_ok (init : slots) (o : option (Z * slots)) : Prop :=
  match o with Some (_, s) => table init s | None => True end.

(** What is promised to cleanup is covered by tokens, of packets and of octets. *)
Record covered (b : AccountOutputBudget) : Prop := {
  cov_sane : sane (_traffic b);
  cov_packets : (inject_Z (_reserved b) <= _packets (_traffic b))%Q;
  cov_octets : (inject_Z (_reserved b * 4096) <= _octets (_traffic b))%Q;
  cov_ptz : held_ok ptz_slots (_ptz b);
  cov_siren : held_ok siren_slots (_siren b);
  cov_media : map_Forall (λ _ s, table media_slots s) (_media b);
  cov_count : Z.of_nat (size (_media b)) ≤ _media_capacity b;
  cov_cleanup : 18 + 2 * _media_capacity b ≤ _cleanup_reserves (_traffic b);
  cov_fresh : map_Forall (λ id _, id < allocated b) (_media b)
}.

Lemma held_bound init o : 0 ≤ remaining init → held_ok init o → 0 ≤ held o ≤ remaining init.
Proof. destruct o as [[? s]|]; simpl; [intros _; apply table_remaining|lia]. Qed.

Lemma media_bound (m : gmap Z slots) : map_Forall (λ _ s, table media_slots s) m →
  0 ≤ map_sum remaining m ≤ 2 * Z.of_nat (size m).
Proof.
  induction m as [|k s m Hk IH] using map_ind; [by rewrite map_sum_empty, map_size_empty|].
  intros [Hs H]%map_Forall_insert; [|done]. rewrite map_sum_insert, map_size_insert_None by done.
  apply table_remaining in Hs. change (remaining media_slots) with 2 in Hs. specialize (IH H). lia.
Qed.

(** The promises of an account stay within what the traffic budget admits. *)
Lemma reserved_bound b : covered b → 0 ≤ _reserved b ≤ _cleanup_reserves (_traffic b).
Proof.
  intros H. pose proof (held_bound ptz_slots _ ltac:(vm_compute; discriminate) (cov_ptz _ H)) as Hp.
  pose proof (held_bound siren_slots _ ltac:(vm_compute; discriminate) (cov_siren _ H)) as Hsi.
  pose proof (media_bound _ (cov_media _ H)). pose proof (cov_count _ H). pose proof (cov_cleanup _ H).
  change (remaining ptz_slots) with 6 in Hp. change (remaining siren_slots) with 12 in Hsi. unfold _reserved. lia.
Qed.

Lemma wp_in_traffic {A} (m : M TrafficBudget A) Q b :
  wp m (λ r t, Q r (mkAccount t (_ptz b) (_media b) (_media_capacity b) (_siren b) (allocated b))) (_traffic b) →
  wp (in_traffic m) Q b.
Proof. unfold wp, in_traffic. by destruct (m (_traffic b)). Qed.

Lemma injZ_le a b : a ≤ b → (inject_Z a <= inject_Z b)%Q.
Proof. by rewrite Zle_Qle. Qed.

(** Replacing the parts of an account that a method changed. *)
Lemma covered_step b b' k : covered b → sane (_traffic b') →
  _cleanup_reserves (_traffic b') = _cleanup_reserves (_traffic b) → _media_capacity b' = _media_capacity b →
  _reserved b' ≤ _reserved b + k →
  (inject_Z (_reserved b + k) <= _packets (_traffic b'))%Q →
  (inject_Z ((_reserved b + k) * 4096) <= _octets (_traffic b'))%Q →
  held_ok ptz_slots (_ptz b') → held_ok siren_slots (_siren b') → map_Forall (λ _ s, table media_slots s) (_media b') →
  Z.of_nat (size (_media b')) ≤ _media_capacity b → map_Forall (λ id _, id < allocated b') (_media b') → covered b'.
Proof.
  intros H Hs Hc Hm Hr Hp Ho. intros. constructor; try done.
  - eapply Qle_trans; [|exact Hp]. by apply injZ_le.
  - eapply Qle_trans; [|exact Ho]. apply injZ_le. lia.
  - by rewrite Hm.
  - rewrite Hm, Hc. apply H.
Qed.

(** Time passing keeps the promises covered. *)
Lemma covered_grown b u : covered b → sane u → grown (_traffic b) u →
  covered (mkAccount u (_ptz b) (_media b) (_media_capacity b) (_siren b) (allocated b)).
Proof.
  intros H Hs [Hp Ho _ (? & ? & ? & Hc)].
  eapply (covered_step b _ 0); try apply H; try done; cbn [_traffic].
  - unfold _reserved. simpl. lia.
  - rewrite Z.add_0_r. eapply Qle_trans; [apply H|done].
  - rewrite Z.add_0_r. eapply Qle_trans; [apply H|done].
Qed.

Lemma spend_sane size g : 0 ≤ size → sane g → sane (spend size g).
Proof.
  intros Hz%injZ_le [Hp Ho ?]. change (inject_Z 0) with 0%Q in Hz. constructor; cbn; [lra|lra|done].
Qed.

(** One packet out of [k] promises fewer. *)
Lemma spend_enough b g size k : covered b → grown (_traffic b) g → 0 < size ≤ 4096 * k →
  (inject_Z (_reserved b + 1 - k) <= _packets g)%Q → (inject_Z (size + (_reserved b - k) * 4096) <= _octets g)%Q →
  (inject_Z (_reserved b - k) <= _packets (spend size g))%Q ∧
  (inject_Z ((_reserved b - k) * 4096) <= _octets (spend size g))%Q.
Proof.
  intros H Hg Hz. rewrite (inject_Z_plus size). replace (_reserved b + 1 - k) with (_reserved b - k + 1) by lia.
  rewrite (inject_Z_plus _ 1). cbn [_packets _octets spend]. change (inject_Z 1) with 1%Q. intros. split; lra.
Qed.

Lemma charge_covered now size b : covered b →
  wp (charge now size) (λ r b', covered b' ∧
    match r with
    | Ok _ => True
    | Raise e => (e = ValueError "invalid datagram size" ∧ ¬ 0 < size ≤ 1024 * 1024) ∨
                 (e = ValueError "account output budget exhausted" ∧
                  ((∀ q, now = Some q → ¬ (_last (_traffic b) <= q)%Q) ∨
                   ¬ ((inject_Z (1 + _reserved b) <= _packets (_traffic b'))%Q ∧
                      (inject_Z (size + _reserved b * 4096) <= _octets (_traffic b'))%Q)))
    end) b.
Proof.
  intros H. unfold charge. wp_step. wp_step; [split; [done|left; split; [done|lia]]|]. do 3 wp_step.
  apply wp_in_traffic. eapply wp_mono; [apply traffic_charge_spec; [apply H|lia|by apply reserved_bound]|].
  intros r u (g & Hg & Hs & Hr). destruct r as [[]|e].
  - destruct Hr as (-> & Hp & Ho). split; [|done].
    eapply (covered_step b _ 0); try apply H; try done; cbn [_traffic].
    + apply spend_sane; [lia|done].
    + apply Hg.
    + unfold _reserved. simpl. lia.
    + rewrite Z.add_0_r. rewrite Z.add_comm, inject_Z_plus in Hp. change (inject_Z 1) with 1%Q in Hp. cbn. lra.
    + rewrite Z.add_0_r. rewrite inject_Z_plus in Ho. cbn. lra.
  - destruct Hr as (-> & [[-> Hc]|[-> Hn]]); (split; [by apply covered_grown|]); right; (split; [done|]); auto.
Qed.

(** A cleanup charge, over the three kinds of reserve. *)
Lemma cleanup_charge_covered b now size upd : covered b → 0 < size ≤ 4096 →
  (∀ t, sane t → _cleanup_reserves t = _cleanup_reserves (_traffic b) →
     (inject_Z (_reserved b - 1) <= _packets t)%Q → (inject_Z ((_reserved b - 1) * 4096) <= _octets t)%Q →
     covered (upd (mkAccount t (_ptz b) (_media b) (_media_capacity b) (_siren b) (allocated b)))) →
  wp (_ ← in_traffic (traffic_charge now size 0); modify upd) (λ r b', covered b') b.
Proof.
  intros H Hz Hupd. wp_step. apply wp_in_traffic.
  eapply wp_mono; [apply traffic_charge_spec; [apply H|lia|pose proof (reserved_bound _ H); lia]|].
  intros r u (g & Hg & Hs & Hr). destruct r as [[]|e].
  - destruct Hr as (-> & _ & _). wp_step.
    assert (inject_Z (_reserved b) <= _packets g)%Q as Hp by (eapply Qle_trans; [apply H|apply Hg]).
    assert (inject_Z (_reserved b * 4096) <= _octets g)%Q as Ho by (eapply Qle_trans; [apply H|apply Hg]).
    apply Hupd; [apply spend_sane; [lia|done]|apply Hg| |].
    + unfold Z.sub. rewrite inject_Z_plus. change (inject_Z (- (1))) with (-1)%Q. cbn. lra.
    + replace ((_reserved b - 1) * 4096) with (_reserved b * 4096 + -4096) by lia. rewrite inject_Z_plus.
      change (inject_Z (-4096)) with (-4096)%Q. assert (inject_Z size <= 4096)%Q by (apply (injZ_le size 4096); lia). cbn. lra.
  - destruct Hr as (-> & _). by apply covered_grown.
Qed.

Lemma usable o kind size : unusable o kind size = false →
  ∃ s n, o = Some s ∧ slot kind s = Some n ∧ n ≠ 0 ∧ 0 < size ≤ 4096.
Proof.
  unfold unusable. destruct o as [s|]; [|done]. simpl. destruct (slot kind s) as [n|] eqn:E; [|done]. intros ?.
  exists s, n. split_and!; [done|done|lia|lia|lia].
Qed.

Lemma active_Some o id s : active o id = Some s → o = Some (id, s).
Proof. unfold active. destruct o as [[i s']|]; [|done]. destruct (Z.eqb_spec i id); [|done]. congruence. Qed.

Lemma ptz_keys : NoDup ptz_slots.*1.
Proof. apply (bool_decide_unpack _). by vm_compute. Qed.
Lemma siren_keys : NoDup siren_slots.*1.
Proof. apply (bool_decide_unpack _). by vm_compute. Qed.
Lemma media_keys : NoDup media_slots.*1.
Proof. apply (bool_decide_unpack _). by vm_compute. Qed.

Lemma ptz_charge_covered id now kind size b : covered b → wp (ptz_charge id now kind size) (λ _ b', covered b') b.
Proof.
  intros H. unfold ptz_charge. wp_step. wp_step. wp_step. wp_step; [done|].
  apply usable in H0 as (s & n & Ea%active_Some & Es & Hn & Hz).
  apply cleanup_charge_covered; [done|done|]. intros t Ht Hc Hp Ho.
  pose proof (cov_ptz _ H) as Hh. unfold held_ok in Hh. rewrite Ea in Hh.
  destruct (table_take _ _ _ _ ptz_keys Hh Es Hn) as [Hh' Hr].
  eapply (covered_step b _ (-1)); try apply H; try done; cbn [_traffic _ptz with_ptz].
  - unfold _reserved. cbn [_ptz _media _siren with_ptz]. rewrite Ea. cbn [fmap option_fmap option_map held]. lia.
  - by rewrite Ea.
Qed.

Lemma siren_charge_covered id now kind size b : covered b → wp (siren_charge id now kind size) (λ _ b', covered b') b.
Proof.
  intros H. unfold siren_charge. wp_step. wp_step. wp_step. wp_step; [done|].
  apply usable in H0 as (s & n & Ea%active_Some & Es & Hn & Hz).
  apply cleanup_charge_covered; [done|done|]. intros t Ht Hc Hp Ho.
  pose proof (cov_siren _ H) as Hh. unfold held_ok in Hh. rewrite Ea in Hh.
  destruct (table_take _ _ _ _ siren_keys Hh Es Hn) as [Hh' Hr].
  eapply (covered_step b _ (-1)); try apply H; try done; cbn [_traffic _siren with_siren].
  - unfold _reserved. cbn [_ptz _media _siren with_siren]. rewrite Ea. cbn [fmap option_fmap option_map held]. lia.
  - by rewrite Ea.
Qed.

Lemma media_charge_covered id now kind size b : covered b → wp (media_charge id now kind size) (λ _ b', covered b') b.
Proof.
  intros H. unfold media_charge. wp_step. wp_step. wp_step. wp_step; [done|].
  apply usable in H0 as (s & n & Ea & Es & Hn & Hz).
  apply cleanup_charge_covered; [done|done|]. intros t Ht Hc Hp Ho.
  pose proof (cov_media _ H _ _ Ea) as Hh. destruct (table_take _ _ _ _ media_keys Hh Es Hn) as [Hh' Hr].
  assert (alter (take_slot kind) id (_media b) = <[id := take_slot kind s]> (_media b)) as E.
  { apply map_eq. intros j. destruct (decide (j = id)) as [->|Hj].
    - by rewrite lookup_alter_eq, lookup_insert_eq, Ea.
    - by rewrite lookup_alter_ne, lookup_insert_ne. }
  eapply (covered_step b _ (-1)); try apply H; try done; cbn [_traffic _media _ptz _siren with_media allocated]; rewrite ?E.
  - unfold _reserved. cbn [_ptz _media _siren with_media]. rewrite (map_sum_update _ _ _ _ _ Ea). lia.
  - apply map_Forall_insert_2; [done|apply H].
  - rewrite map_size_insert_Some by done. apply H.
  - apply map_Forall_insert_2; [apply (cov_fresh _ H _ _ Ea)|apply H].
Qed.

(** Reserving [k] more packets, over the three kinds of reserve. *)
Lemma reserve_covered b taken now k msg (m : M AccountOutputBudget Z) : covered b →
  (taken = false → ∀ t, sane t → _cleanup_reserves t = _cleanup_reserves (_traffic b) →
     (inject_Z (_reserved b + k) <= _packets t)%Q → (inject_Z ((_reserved b + k) * 4096) <= _octets t)%Q →
     wp m (λ _ b', covered b') (mkAccount t (_ptz b) (_media b) (_media_capacity b) (_siren b) (allocated b))) →
  wp (no ← refused taken now (_reserved b + k); _ ← check no (ValueError msg); m) (λ _ b', covered b') b.
Proof.
  intros H Hm. unfold refused. wp_step. destruct taken.
  - wp_step. wp_step. by wp_step.
  - wp_step. apply wp_in_traffic. eapply wp_mono; [apply available_spec, H|]. intros r u (Hs & Hg & Hr).
    destruct r as [ok|e]; [|by apply covered_grown]. destruct Hr as [_ Hok]. do 2 wp_step. wp_step.
    + by apply covered_grown.
    + destruct ok; [|done]. destruct Hok as [Hok _]. destruct (Hok eq_refl). apply Hm; try done. apply Hg.
Qed.

Lemma reserve_ptz_covered now b : covered b → wp (reserve_ptz now) (λ _ b', covered b') b.
Proof.
  intros H. unfold reserve_ptz. wp_step. wp_step. apply reserve_covered; [done|]. intros Ht t Hs Hc Hp Ho.
  unfold new_object. repeat wp_step. eapply (covered_step b _ 6); try apply H; try done.
  - unfold _reserved. cbn. assert (0 ≤ held (_ptz b)) by (destruct (_ptz b); [done|simpl; lia]). lia.
  - apply table_refl. repeat constructor; simpl; lia.
  - cbn. intros i s Hi. pose proof (cov_fresh _ H _ _ Hi). cbn in *. lia.
Qed.

Lemma reserve_siren_covered now b : covered b → wp (reserve_siren now) (λ _ b', covered b') b.
Proof.
  intros H. unfold reserve_siren. wp_step. wp_step. apply reserve_covered; [done|]. intros Ht t Hs Hc Hp Ho.
  unfold new_object. repeat wp_step. eapply (covered_step b _ 12); try apply H; try done.
  - unfold _reserved. cbn. assert (0 ≤ held (_siren b)) by (destruct (_siren b); [done|simpl; lia]). lia.
  - apply table_refl. repeat constructor; simpl; lia.
  - cbn. intros i s Hi. pose proof (cov_fresh _ H _ _ Hi). cbn in *. lia.
Qed.

Lemma reserve_media_covered now b : covered b → wp (reserve_media now) (λ _ b', covered b') b.
Proof.
  intros H. unfold reserve_media. wp_step. wp_step. apply reserve_covered; [done|]. intros Ht t Hs Hc Hp Ho.
  assert (_media b !! allocated b = None) as Hn.
  { destruct (_media b !! allocated b) eqn:E; [|done]. pose proof (cov_fresh _ H _ _ E). cbn in *. lia. }
  unfold new_object. repeat wp_step. eapply (covered_step b _ 2); try apply H; try done; cbn [_media with_media allocated _media_capacity].
  - unfold _reserved. cbn [_ptz _media _siren with_media]. rewrite map_sum_insert by done.
    change (remaining media_slots) with 2. lia.
  - apply map_Forall_insert_2; [apply table_refl; repeat constructor; simpl; lia|apply H].
  - rewrite map_size_insert_None by done. lia.
  - apply map_Forall_insert_2; [lia|]. intros i s Hi. pose proof (cov_fresh _ H _ _ Hi). cbn in *. lia.
Qed.

Lemma ptz_close_covered id b : covered b → wp (ptz_close id) (λ _ b', covered b') b.
Proof.
  intros H. unfold ptz_close. wp_step. case_bool_decide; [|done].
  eapply (covered_step b _ 0); try apply H; try done; rewrite ?Z.add_0_r; try apply H.
  unfold _reserved. cbn [_ptz _media _siren with_ptz held].
  pose proof (held_bound ptz_slots _ ltac:(vm_compute; discriminate) (cov_ptz _ H)). lia.
Qed.

Lemma siren_close_covered id b : covered b → wp (siren_close id) (λ _ b', covered b') b.
Proof.
  intros H. unfold siren_close. wp_step. case_bool_decide; [|done].
  eapply (covered_step b _ 0); try apply H; try done; rewrite ?Z.add_0_r; try apply H.
  unfold _reserved. cbn [_ptz _media _siren with_siren held].
  pose proof (held_bound siren_slots _ ltac:(vm_compute; discriminate) (cov_siren _ H)). lia.
Qed.

Lemma media_close_covered id b : covered b → wp (media_close id) (λ _ b', covered b') b.
Proof.
  intros H. unfold media_close. wp_step. destruct (_media b !! id) as [s|] eqn:E.
  - pose proof (map_sum_delete remaining _ _ _ E). pose proof (table_remaining _ _ (cov_media _ H _ _ E)).
    pose proof (map_size_delete_Some id (_media b) (mk_is_Some _ _ E)).
    eapply (covered_step b _ 0); try apply H; try done; rewrite ?Z.add_0_r; try apply H; cbn [_media with_media].
    + unfold _reserved. cbn [_ptz _media _siren with_media]. lia.
    + apply map_Forall_delete, H.
    + pose proof (cov_count _ H). lia.
    + apply map_Forall_delete, H.
  - unfold with_media. rewrite delete_id by done. by destruct b.
Qed.

(** ** Histories *)

(** The calls an account's owner makes. *)
Inductive call : Type :=
| Charge (now : option Q) (size : Z)
| ReservePtz (now : option Q) | ReserveSiren (now : option Q) | ReserveMedia (now : option Q)
| PtzCharge (id : Z) (now : option Q) (kind : string) (size : Z)
| SirenCharge (id : Z) (now : option Q) (kind : string) (size : Z)
| MediaCharge (id : Z) (now : option Q) (kind : string) (size : Z)
| PtzClose (id : Z) | SirenClose (id : Z) | MediaClose (id : Z).

Definition exec (c : call) (b : AccountOutputBudget) : AccountOutputBudget :=
  match c with
  | Charge now size => (charge now size b).1
  | ReservePtz now => (reserve_ptz now b).1
  | ReserveSiren now => (reserve_siren now b).1
  | ReserveMedia now => (reserve_media now b).1
  | PtzCharge id now kind size => (ptz_charge id now kind size b).1
  | SirenCharge id now kind size => (siren_charge id now kind size b).1
  | MediaCharge id now kind size => (media_charge id now kind size b).1
  | PtzClose id => (ptz_close id b).1
  | SirenClose id => (siren_close id b).1
  | MediaClose id => (media_close id b).1
  end.

Inductive reachable : AccountOutputBudget → Prop :=
| reachable_new packets octets policy clock capacity b :
    account_output_budget packets octets policy clock capacity = Ok b → reachable b
| reachable_call c b : reachable b → reachable (exec c b).

Lemma new_covered packets octets policy clock capacity b :
  account_output_budget packets octets policy clock capacity = Ok b → covered b.
Proof.
  unfold account_output_budget, traffic_budget, validate_media_capacity. intros E.
  apply bind_Ok in E as (? & G1%raise_if_Ok & E). apply bind_Ok in E as (t & Et & E). injection E as <-.
  apply bind_Ok in Et as (? & _ & Et). apply bind_Ok in Et as (? & G2%raise_if_Ok & Et).
  destruct clock as [last|]; [|done]. injection Et as <-. set (p := default _ packets) in *. set (o := default _ octets) in *.
  assert (inject_Z 0 <= inject_Z p)%Q by (apply injZ_le; lia). assert (inject_Z 0 <= inject_Z o)%Q by (apply injZ_le; lia).
  constructor; cbn -[inject_Z Z.max MAX_CLEANUP_RESERVES]; try done.
  - constructor; cbn -[inject_Z]; [apply Qle_refl|apply Qle_refl|lia].
  - change (MAX_CLEANUP_RESERVES) with 24. rewrite map_size_empty. lia.
  - lia.
Qed.

Lemma exec_covered c b : covered b → covered (exec c b).
Proof.
  intros H. destruct c; cbn [exec].
  - by apply (charge_covered now size b).
  - by apply (reserve_ptz_covered now b).
  - by apply (reserve_siren_covered now b).
  - by apply (reserve_media_covered now b).
  - by apply (ptz_charge_covered id now kind size b).
  - by apply (siren_charge_covered id now kind size b).
  - by apply (media_charge_covered id now kind size b).
  - by apply (ptz_close_covered id b).
  - by apply (siren_close_covered id b).
  - by apply (media_close_covered id b).
Qed.

Lemma reachable_covered b : reachable b → covered b.
Proof. induction 1 as [|c b Hr H]; [by eapply new_covered|by apply exec_covered]. Qed.

(** A promised packet is affordable, whatever happened since the promise. *)
Lemma promised_charge b q size : covered b → 1 ≤ _reserved b → 0 < size ≤ 4096 → (_last (_traffic b) <= q)%Q →
  wp (traffic_charge (Some q) size 0) (λ r _, r = Ok tt) (_traffic b).
Proof.
  intros H H1 Hz Hq. eapply wp_mono; [apply traffic_charge_spec; [apply H|lia|pose proof (reserved_bound _ H); lia]|].
  intros r u (g & Hg & _ & Hr). destruct r as [[]|e]; [done|]. destruct Hr as (_ & [[_ Hc]|[_ []]]); [by destruct (Hc q)|].
  rewrite !Z.add_0_r. pose proof (cov_packets _ H). pose proof (cov_octets _ H). destruct Hg as [Hp Ho _ _].
  assert (inject_Z 1 <= inject_Z (_reserved b))%Q by by apply injZ_le.
  assert (inject_Z size <= inject_Z (_reserved b * 4096))%Q by (apply injZ_le; lia). split; lra.
Qed.

Lemma slot_remaining init s kind n : table init s → slot kind s = Some n → n ≠ 0 → 1 ≤ remaining s.
Proof.
  unfold table, slot, remaining. induction 1 as [|[k0 v0] [k v] init s [E Hv] Ht IH]; [done|]. simpl in *.
  fold (table init s) in Ht. pose proof (table_remaining _ _ Ht) as Hr. unfold remaining in Hr.
  case_bool_decide; simpl; [intros [= ->]; lia|]. intros Hs Hn. specialize (IH Hs Hn). lia.
Qed.

Lemma in_traffic_ok {A} (m : M TrafficBudget A) (P : result A → Prop) b :
  wp m (λ r _, P r) (_traffic b) → P (in_traffic m b).2.
Proof. unfold wp, in_traffic. by destruct (m (_traffic b)). Qed.

(** A cleanup charge whose packet is affordable returns. *)
Lemma cleanup_returns b o kind size n q s upd msg : covered b → o = Some s → slot kind s = Some n → n ≠ 0 →
  1 ≤ _reserved b → 0 < size ≤ 4096 → (_last (_traffic b) <= q)%Q →
  wp (_ ← check (unusable o kind size) (ValueError msg);
      _ ← in_traffic (traffic_charge (Some q) size 0); modify upd) (λ r _, r = Ok tt) b.
Proof.
  intros H -> Hk Hn H1 Hz Hq. wp_step. wp_step.
  - unfold unusable in H0. simpl in H0. rewrite Hk in H0. lia.
  - wp_step. apply wp_in_traffic. eapply wp_mono; [by apply promised_charge|]. by intros ? ? ->.
Qed.

Lemma held_slot init o id s kind n : held_ok init o → active o id = Some s → slot kind s = Some n → n ≠ 0 →
  1 ≤ held o.
Proof. intros Hh ->%active_Some. apply slot_remaining with init, Hh. Qed.

Lemma media_slot b id s kind n : covered b → _media b !! id = Some s → slot kind s = Some n → n ≠ 0 →
  1 ≤ map_sum remaining (_media b).
Proof.
  intros H E Hs Hn. rewrite (map_sum_delete remaining _ _ _ E).
  pose proof (media_bound (delete id (_media b)) (map_Forall_delete _ _ _ (cov_media _ H))).
  pose proof (slot_remaining _ _ _ _ (cov_media _ H _ _ E) Hs Hn). lia.
Qed.

Lemma reserved_parts b : covered b →
  0 ≤ held (_ptz b) ∧ 0 ≤ map_sum remaining (_media b) ∧ 0 ≤ held (_siren b).
Proof.
  intros H. pose proof (held_bound ptz_slots _ ltac:(vm_compute; discriminate) (cov_ptz _ H)).
  pose proof (held_bound siren_slots _ ltac:(vm_compute; discriminate) (cov_siren _ H)).
  pose proof (media_bound _ (cov_media _ H)). lia.
Qed.

(** What an ordinary charge does at a reading of the clock not before the last. *)
Lemma charge_exact b q size : covered b → 0 < size ≤ 1024 * 1024 → (_last (_traffic b) <= q)%Q →
  let t := refilled q (_traffic b) in
  let enough := Qle_bool (inject_Z (1 + _reserved b)) (_packets t) && Qle_bool (inject_Z (size + _reserved b * 4096)) (_octets t) in
  charge (Some q) size b =
    (mkAccount (if enough then spend size t else t) (_ptz b) (_media b) (_media_capacity b) (_siren b) (allocated b),
     if enough then Ok tt else Raise (ValueError "account output budget exhausted")).
Proof.
  intros H Hz Hq. pose proof (reserved_bound _ H) as Hr. cbv zeta.
  assert (traffic_charge (Some q) size (_reserved b) (_traffic b) =
    let t := refilled q (_traffic b) in
    if Qle_bool (inject_Z (1 + _reserved b)) (_packets t) && Qle_bool (inject_Z (size + _reserved b * 4096)) (_octets t)
    then (spend size t, Ok tt) else (t, Raise (ValueError "traffic budget exhausted"))) as E.
  { apply Qle_bool_iff in Hq. unfold traffic_charge, available, mbind, M_bind, mret, M_ret, get, check, modify.
    replace (negb ((0 <=? size) && (size <=? 1024 * 1024)) || negb ((0 <=? _reserved b) && (_reserved b <=? _cleanup_reserves (_traffic b)))) with false by lia.
    cbn [raise_if]. rewrite Hq. cbn [negb raise_if]. unfold Qgeb. by destruct (Qle_bool _ _ && Qle_bool _ _). }
  unfold charge, in_traffic, except_ValueError, mbind, M_bind, get, check.
  replace (negb ((0 <? size) && (size <=? 1024 * 1024))) with false by lia. cbn [raise_if]. rewrite E. cbv zeta.
  by destruct (Qle_bool _ _ && Qle_bool _ _).
Qed.

(** ** A reserve across the calls of the account *)

(** A call made at a reading of the clock. *)
Definition at_time (q : Q) (c : call) : call :=
  match c with
  | Charge _ size => Charge (Some q) size
  | ReservePtz _ => ReservePtz (Some q)
  | ReserveSiren _ => ReserveSiren (Some q)
  | ReserveMedia _ => ReserveMedia (Some q)
  | PtzCharge id _ kind size => PtzCharge id (Some q) kind size
  | SirenCharge id _ kind size => SirenCharge id (Some q) kind size
  | MediaCharge id _ kind size => MediaCharge id (Some q) kind size
  | PtzClose _ | SirenClose _ | MediaClose _ => c
  end.

(** The two reserves an account has one of, and their methods. *)
Inductive cleanup : Type := ForPtz | ForSiren.
Definition owner (w : cleanup) (b : AccountOutputBudget) : option (Z * slots) :=
  match w with ForPtz => _ptz b | ForSiren => _siren b end.
Definition initial (w : cleanup) : slots := match w with ForPtz => ptz_slots | ForSiren => siren_slots end.
Definition reserve_for (w : cleanup) : option Q → M AccountOutputBudget Z :=
  match w with ForPtz => reserve_ptz | ForSiren => reserve_siren end.
Definition charge_for (w : cleanup) : Z → option Q → string → Z → M AccountOutputBudget unit :=
  match w with ForPtz => ptz_charge | ForSiren => siren_charge end.
Definition close_for (w : cleanup) : Z → M AccountOutputBudget unit :=
  match w with ForPtz => ptz_close | ForSiren => siren_close end.

(** A call that does not use the reserve [id]. *)
Definition foreign (w : cleanup) (id : Z) (c : call) : Prop :=
  match w, c with
  | ForPtz, PtzCharge i _ _ _ | ForPtz, PtzClose i => i ≠ id
  | ForSiren, SirenCharge i _ _ _ | ForSiren, SirenClose i => i ≠ id
  | _, _ => True
  end.

(** What every call keeps: the reserve of someone else, the clock bound. *)
Definition undisturbed (w : cleanup) (id : Z) (s : slots) (q : Q) (b : AccountOutputBudget) : Prop :=
  active (owner w b) id = Some s ∧ (_last (_traffic b) <= q)%Q.

Lemma undisturbed_later w id s p q b : undisturbed w id s p b → (p <= q)%Q → undisturbed w id s q b.
Proof. intros [? Hl] Hpq. split; [done|]. by eapply Qle_trans. Qed.

Lemma traffic_last now p o q t : now = Some q → (_last t <= q)%Q →
  wp (available now p o) (λ _ u, (_last u <= q)%Q) t ∧ wp (traffic_charge now p o) (λ _ u, (_last u <= q)%Q) t.
Proof.
  intros -> Hq. assert (∀ p o, wp (available (Some q) p o) (λ _ u, (_last u <= q)%Q) t) as Ha.
  { intros p' o'. unfold available. repeat wp_step; try done. unfold refilled. destruct (_policy t); apply Qle_refl. }
  split; [apply Ha|]. unfold traffic_charge. wp_step. wp_step. wp_step. wp_step; [done|]. wp_step.
  eapply wp_mono; [apply Ha|]. intros [ok|e] u Hu; [|done]. by repeat wp_step.
Qed.

Lemma active_other o id i s : active o id = Some s → i ≠ id → active o i = None.
Proof. intros ->%active_Some Hi. cbn. destruct (Z.eqb_spec id i); [congruence|done]. Qed.

Section Undisturbed.
Context (w : cleanup) (id : Z) (s : slots) (q : Q) (b : AccountOutputBudget) (Hu : undisturbed w id s q b).
#[local] Notation kept := (undisturbed w id s q).

Lemma kept_traffic p o :
  wp (in_traffic (available (Some q) p o)) (λ _ b', kept b') b ∧
  wp (in_traffic (traffic_charge (Some q) p o)) (λ _ b', kept b') b.
Proof using Hu.
  destruct Hu as [Ha Hl]. destruct (traffic_last (Some q) p o q _ eq_refl Hl).
  split; apply wp_in_traffic; (eapply wp_mono; [eassumption|]); intros ? ? ?; split; [by destruct w|done|by destruct w|done].
Qed.

Lemma kept_reserve (taken : bool) n msg upd : (taken = false → ∀ b' i, kept b' → kept (upd i b')) →
  wp (no ← refused taken (Some q) n; _ ← check no (ValueError msg);
      i ← new_object; _ ← modify (upd i); mret i) (λ _ b', kept b') b.
Proof using Hu.
  intros Hupd. unfold refused. wp_step. destruct taken; [wp_step; wp_step; by wp_step|].
  wp_step. eapply wp_mono; [apply kept_traffic|]. intros [ok|e] b' Hb'; [|done]. wp_step. wp_step. wp_step; [done|].
  unfold new_object. repeat wp_step. apply Hupd; [done|]. destruct Hb'. by split; [destruct w|].
Qed.

Lemma kept_charge o kind size msg upd : (unusable o kind size = false → ∀ b', kept b' → kept (upd b')) →
  wp (_ ← check (unusable o kind size) (ValueError msg); _ ← in_traffic (traffic_charge (Some q) size 0); modify upd)
    (λ _ b', kept b') b.
Proof using Hu.
  intros Hupd. wp_step. wp_step; [done|]. wp_step. eapply wp_mono; [apply kept_traffic|].
  intros [ok|e] b' Hb'; [|done]. wp_step. by apply Hupd.
Qed.

Lemma exec_undisturbed c : foreign w id c → kept (exec (at_time q c) b).
Proof using Hu.
  intros Hf. destruct Hu as [Ha Hl].
  assert (negb (is_none (owner w b)) = true) as Htaken by by rewrite (active_Some _ _ _ Ha).
  assert (∀ i kind size, i ≠ id → unusable (active (owner w b) i) kind size = true) as Hother.
  { intros i kind size Hi. by rewrite (active_other _ _ _ _ Ha Hi). }
  destruct c; cbn [at_time exec foreign] in *.
  - change (wp (charge (Some q) size) (λ _ b', kept b') b). unfold charge. wp_step. wp_step; [done|]. wp_step. wp_step. wp_step.
    eapply wp_mono; [apply kept_traffic|]. intros [?|[]] ? ?; done.
  - change (wp (reserve_ptz (Some q)) (λ _ b', kept b') b). unfold reserve_ptz. do 2 wp_step. apply kept_reserve.
    intros Ht. destruct w; [cbn in Htaken; congruence|by intros ? ? []].
  - change (wp (reserve_siren (Some q)) (λ _ b', kept b') b). unfold reserve_siren. do 2 wp_step. apply kept_reserve.
    intros Ht. destruct w; [by intros ? ? []|cbn in Htaken; congruence].
  - change (wp (reserve_media (Some q)) (λ _ b', kept b') b). unfold reserve_media. do 2 wp_step. apply (kept_reserve _ _ _ (λ id b, with_media (<[id := media_slots]> (_media b)) b)).
    intros _ ? ? []. by split; [destruct w|].
  - change (wp (ptz_charge id0 (Some q) kind size) (λ _ b', kept b') b). unfold ptz_charge. do 2 wp_step. apply kept_charge.
    intros Hx. destruct w; [cbn in Hother; by rewrite Hother in Hx|by intros ? []].
  - change (wp (siren_charge id0 (Some q) kind size) (λ _ b', kept b') b). unfold siren_charge. do 2 wp_step. apply kept_charge.
    intros Hx. destruct w; [by intros ? []|cbn in Hother; by rewrite Hother in Hx].
  - change (wp (media_charge id0 (Some q) kind size) (λ _ b', kept b') b). unfold media_charge. do 2 wp_step. apply kept_charge.
    intros _ ? []. by split; [destruct w|].
  - unfold ptz_close, modify. cbn [fst]. case_bool_decide as Hd; [|by split]. destruct w; [|by split].
    cbn in Ha. rewrite (active_other _ _ _ _ Ha Hf) in Hd. by destruct Hd.
  - unfold siren_close, modify. cbn [fst]. case_bool_decide as Hd; [|by split]. destruct w; [by split|].
    cbn in Ha. rewrite (active_other _ _ _ _ Ha Hf) in Hd. by destruct Hd.
  - by split; [destruct w|].
Qed.
End Undisturbed.

Lemma reserve_for_covered w now b : covered b → wp (reserve_for w now) (λ _ b', covered b') b.
Proof. destruct w; [apply reserve_ptz_covered|apply reserve_siren_covered]. Qed.
Lemma charge_for_covered w id now kind size b : covered b → wp (charge_for w id now kind size) (λ _ b', covered b') b.
Proof. destruct w; [apply ptz_charge_covered|apply siren_charge_covered]. Qed.
Lemma close_for_covered w id b : covered b → wp (close_for w id) (λ _ b', covered b') b.
Proof. destruct w; [apply ptz_close_covered|apply siren_close_covered]. Qed.
Lemma cov_owner w b : covered b → held_ok (initial w) (owner w b) ∧ held (owner w b) ≤ _reserved b.
Proof.
  intros H. pose proof (reserved_parts _ H). unfold _reserved. destruct w; (split; [apply H|cbn; lia]).
Qed.

(** A fresh reserve holds all its slots. *)
Lemma reserve_gives w q b : covered b → (_last (_traffic b) <= q)%Q →
  wp (reserve_for w (Some q)) (λ r b', ∀ id, r = Ok id → covered b' ∧ undisturbed w id (initial w) q b') b.
Proof.
  intros H Hl. pose proof (reserve_for_covered w (Some q) b H) as Hc. revert Hc. unfold wp at 1. intros Hc.
  assert (wp (reserve_for w (Some q)) (λ r b', ∀ id, r = Ok id → undisturbed w id (initial w) q b') b) as Hw.
  { destruct w; cbn [reserve_for]; [unfold reserve_ptz|unfold reserve_siren]; do 2 wp_step; wp_step; unfold refused;
      (destruct (negb _); [by repeat wp_step|]); wp_step; apply wp_in_traffic;
      (eapply wp_mono; [by apply (traffic_last (Some q))|]); (intros [ok|e] t Ht; [|done]);
      (wp_step; wp_step; wp_step; [done|]); unfold new_object; repeat wp_step; intros id [= <-];
      (split; [|done]); cbn; by rewrite Z.eqb_refl. }
  unfold wp in *. intros id E. split; [done|by apply Hw].
Qed.

(** A charge on a reserve takes its slot and nothing else. *)
Lemma charge_takes w b id s kind n size q : covered b → undisturbed w id s q b → slot kind s = Some n → n ≠ 0 →
  0 < size ≤ 4096 → ∃ b', charge_for w id (Some q) kind size b = (b', Ok tt) ∧ covered b' ∧
    undisturbed w id (take_slot kind s) q b'.
Proof.
  intros H [Ha Hl] Hs Hn Hz. pose proof (reserved_parts _ H) as (? & ? & ?). destruct (cov_owner w b H) as [Hk Hr].
  pose proof (held_slot _ _ _ _ _ _ Hk Ha Hs Hn) as Hheld.
  assert (wp (charge_for w id (Some q) kind size) (λ r b', r = Ok tt ∧ undisturbed w id (take_slot kind s) q b') b) as Hw.
  { assert (unusable (active (owner w b) id) kind size = false) as Hx by (unfold unusable; rewrite Ha; simpl; rewrite Hs; lia).
    pose proof (promised_charge b q size H ltac:(lia) Hz Hl) as Hp.
    pose proof (proj2 (traffic_last (Some q) size 0 q _ eq_refl Hl)) as Ht. apply active_Some in Ha as Eo.
    destruct w; cbn [charge_for owner] in *; [unfold ptz_charge|unfold siren_charge]; do 2 wp_step; rewrite Hx; wp_step; (wp_step; [done|]);
      wp_step; apply wp_in_traffic; unfold wp in Hp, Ht |- *; destruct (traffic_charge (Some q) size 0 (_traffic b)) as [t r];
      cbn [fst snd] in *; subst r; (split; [done|]); (split; [|done]); unfold modify; cbn [fst _ptz _siren with_ptz with_siren owner];
      rewrite Eo; cbn; by rewrite Z.eqb_refl. }
  pose proof (charge_for_covered w id (Some q) kind size b H) as Hc. unfold wp in Hw, Hc.
  destruct (charge_for w id (Some q) kind size b) as [b' r]. cbn [fst snd] in *. destruct Hw as [-> Hu]. by exists b'.
Qed.

(** ** A job on the account *)

(** The account a job shares with everything else its owner runs, and the
    number of readings of the one clock so far; [clock n] is the [n]th. *)
Record world := mkWorld { budget : AccountOutputBudget; sequences : BrokerSequences; ticks : nat }.

Definition the_job {J} : M (world * J) J := λ '(w, j), ((w, j), Ok j).
Definition on_job {J} (f : J → J) : M (world * J) unit := λ '(w, j), ((w, f j), Ok tt).
Definition on_budget {J A} (m : M AccountOutputBudget A) : M (world * J) A := λ '(w, j),
  let '(b, r) := m (budget w) in ((mkWorld b (sequences w) (ticks w), j), r).
Definition tick {J} (clock : nat → Q) : M (world * J) Q := λ '(w, j),
  ((mkWorld (budget w) (sequences w) (S (ticks w)), j), Ok (clock (ticks w))).
Definition ticked {J} (s : world * J) : world * J := (mkWorld (budget s.1) (sequences s.1) (S (ticks s.1)), s.2).

(** [self._reserve.charge(kind, size)]; the budget reads the same clock. *)
Definition charge_reserve {J} (clock : nat → Q) (w : cleanup) (id : Z) (kind : string) (size : Z) : M (world * J) unit :=
  now ← tick clock; on_budget (charge_for w id (Some now) kind size).

(** What the rest of the account does around the job. *)
Definition elsewhere {J} (clock : nat → Q) (c : call) : M (world * J) unit :=
  now ← tick clock; on_budget (modify (exec (at_time now c))).

Section Job.
Context {J : Type} (clock : nat → Q) (monotone : ∀ n, (clock n <= clock (S n))%Q).

Lemma wp_the_job (P : result J → world * J → Prop) s : P (Ok s.2) s → wp the_job P s.
Proof using. by destruct s. Qed.
Lemma wp_on_job f (P : result unit → world * J → Prop) s : P (Ok tt) (s.1, f s.2) → wp (on_job f) P s.
Proof using. by destruct s. Qed.
Lemma wp_tick (P : result Q → world * J → Prop) s : P (Ok (clock (ticks s.1))) (ticked s) → wp (tick clock) P s.
Proof using. by destruct s. Qed.

Lemma wp_charge_reserve w id kind n sl size (P : result unit → world * J → Prop) s : covered (budget s.1) →
  undisturbed w id sl (clock (ticks s.1)) (budget s.1) → slot kind sl = Some n → n ≠ 0 → 0 < size ≤ 4096 →
  (∀ b', covered b' → undisturbed w id (take_slot kind sl) (clock (S (ticks s.1))) b' →
     P (Ok tt) (mkWorld b' (sequences s.1) (S (ticks s.1)), s.2)) →
  wp (charge_reserve clock w id kind size) P s.
Proof using monotone.
  intros Hc Hu Hs Hn Hz HP. unfold charge_reserve. wp_step. apply wp_tick.
  destruct (charge_takes w _ _ _ _ _ size _ Hc Hu Hs Hn Hz) as (b' & E & Hc' & Hu').
  unfold wp, on_budget, ticked. cbn [fst snd budget sequences ticks]. rewrite E. cbn [fst snd]. apply HP; [done|].
  eapply undisturbed_later; [exact Hu'|apply monotone].
Qed.

Lemma wp_elsewhere w id sl c (P : result unit → world * J → Prop) s : covered (budget s.1) →
  foreign w id c →
  (∀ b', covered b' →
     (undisturbed w id sl (clock (ticks s.1)) (budget s.1) → undisturbed w id sl (clock (S (ticks s.1))) b') →
     P (Ok tt) (mkWorld b' (sequences s.1) (S (ticks s.1)), s.2)) →
  wp (elsewhere clock c) P s.
Proof using monotone.
  intros Hc Hf HP. unfold elsewhere. wp_step. apply wp_tick. unfold wp, on_budget, ticked, modify. cbn [fst snd budget sequences ticks].
  apply HP; [by apply exec_covered|]. intros Hu. eapply undisturbed_later; [by apply exec_undisturbed|apply monotone].
Qed.
End Job.

(** ** Sequence histories *)

Inductive seq_call : Type := Reserve (count : Z) | Allocate | Close.

(** The identifiers a call returns. *)
Definition seq_exec (c : seq_call) (s : BrokerSequences) : BrokerSequences * list Z :=
  match c with
  | Reserve count => match reserve count s with (s, Ok l) => (s, l) | (s, Raise _) => (s, []) end
  | Allocate => match allocate s with (s, Ok x) => (s, [x]) | (s, Raise _) => (s, []) end
  | Close => ((close s).1, [])
  end.

Fixpoint seq_run (calls : list seq_call) (s : BrokerSequences) : BrokerSequences * list Z :=
  match calls with
  | [] => (s, [])
  | c :: calls => let '(s, l) := seq_exec c s in let '(s, k) := seq_run calls s in (s, l ++ k)
  end.

Lemma reserve_spec count s :
  wp (reserve count) (λ r s', _next s ≤ _next s' ∧ closed s' = closed s ∧
    match r with
    | Ok l => closed s = false ∧ 1 ≤ count ≤ 64 ∧ l = seqZ (_next s) count ∧ _next s' = _next s + count ∧ _next s' ≤ 2 ^ 32
    | Raise e => s' = s ∧ ∃ msg, e = ValueError msg
    end) s.
Proof.
  unfold reserve. do 2 wp_step. wp_step. wp_step; [split_and!; eauto; lia|]. wp_step. wp_step; [split_and!; eauto; lia|].
  wp_step. wp_step; [split_and!; eauto; lia|]. repeat wp_step. cbn [_next closed]. split_and!; try done; lia.
Qed.

Lemma seq_exec_spec c s : let '(s', l) := seq_exec c s in
  l = seqZ (_next s) (_next s' - _next s) ∧ _next s ≤ _next s' ∧ (_next s ≤ 2 ^ 32 → _next s' ≤ 2 ^ 32) ∧
  (closed s = true → l = [] ∧ closed s' = true).
Proof.
  destruct c as [count| |]; cbn [seq_exec].
  - pose proof (reserve_spec count s) as H. unfold wp in H. destruct (reserve count s) as [s' [l|e]]; cbn [fst snd] in H.
    + destruct H as (? & ? & ? & ? & -> & Hn & ?). rewrite Hn. split_and!; [f_equal; lia|lia|lia|congruence].
    + destruct H as (_ & ? & -> & _). rewrite Z.sub_diag. split_and!; [done|lia|done|done].
  - unfold allocate, mbind, M_bind. pose proof (reserve_spec 1 s) as H. unfold wp in H.
    destruct (reserve 1 s) as [s' [l|e]]; cbn [fst snd] in H.
    + destruct H as (? & ? & ? & ? & -> & Hn & ?). rewrite (seqZ_cons (_next s) 1) by lia. unfold mret, M_ret. rewrite Hn.
      replace (_next s + 1 - _next s) with 1 by lia. rewrite (seqZ_cons (_next s) 1) by lia.
      split_and!; [done|lia|lia|congruence].
    + destruct H as (_ & ? & -> & _). rewrite Z.sub_diag. split_and!; [done|lia|done|done].
  - cbn. rewrite Z.sub_diag. split_and!; [done|lia|done|done].
Qed.

Lemma seqZ_split a b c : a ≤ b ≤ c → seqZ a (b - a) ++ seqZ b (c - b) = seqZ a (c - a).
Proof.
  intros H. replace (c - a) with ((b - a) + (c - b)) by lia. rewrite seqZ_app by lia. do 2 f_equal. lia.
Qed.

(** ** Properties *)

(** C13: cleanup promised is cleanup that can be paid for.  In every history of
    the account, whatever was charged, reserved or closed in between and
    however tokens ran out, each slot a PTZ, siren or media reserve still holds
    can be charged for a datagram of up to 4096 bytes.  An ordinary datagram of
    any size the budget admits, up to a megabyte, is either charged, at one
    packet and its octets, or refused with nothing spent because the tokens left,
    at that reading of the clock, do not cover it beside the promises; never
    because the promises overflow the traffic budget's own bound, and what is
    promised stays covered either way. *)
Theorem cleanup_always_affordable b q size : reachable b → 0 < size ≤ 4096 → (_last (_traffic b) <= q)%Q →
  covered b ∧
  (∀ id s kind n, active (_ptz b) id = Some s → slot kind s = Some n → n ≠ 0 →
     (ptz_charge id (Some q) kind size b).2 = Ok tt) ∧
  (∀ id s kind n, active (_siren b) id = Some s → slot kind s = Some n → n ≠ 0 →
     (siren_charge id (Some q) kind size b).2 = Ok tt) ∧
  (∀ id s kind n, _media b !! id = Some s → slot kind s = Some n → n ≠ 0 →
     (media_charge id (Some q) kind size b).2 = Ok tt) ∧
  (∀ big, 0 < big ≤ 1024 * 1024 →
     let '(b', r) := charge (Some q) big b in
     let t := refilled q (_traffic b) in
     covered b' ∧
     if Qle_bool (inject_Z (1 + _reserved b)) (_packets t) && Qle_bool (inject_Z (big + _reserved b * 4096)) (_octets t)
     then r = Ok tt ∧ _traffic b' = spend big t
     else r = Raise (ValueError "account output budget exhausted") ∧ _traffic b' = t).
Proof.
  intros Hr Hz Hq. pose proof (reachable_covered _ Hr) as H. pose proof (reserved_parts _ H) as (Hp & Hm & Hs).
  split_and!; [done| | | |].
  - intros id s kind n Ha Hk Hn. pose proof (held_slot _ _ _ _ _ _ (cov_ptz _ H) Ha Hk Hn).
    eapply (cleanup_returns b); try done; unfold _reserved; lia.
  - intros id s kind n Ha Hk Hn. pose proof (held_slot _ _ _ _ _ _ (cov_siren _ H) Ha Hk Hn).
    eapply (cleanup_returns b); try done; unfold _reserved; lia.
  - intros id s kind n Ha Hk Hn. pose proof (media_slot _ _ _ _ _ H Ha Hk Hn).
    eapply (cleanup_returns b); try done; unfold _reserved; lia.
  - intros big Hb. pose proof (charge_covered (Some q) big b H) as [Hc _]. rewrite (charge_exact b q big H Hb Hq) in *. cbn [fst] in Hc.
    cbv zeta. destruct (Qle_bool _ _ && Qle_bool _ _); by split_and!.
Qed.

Definition sample_account : AccountOutputBudget :=
  match account_output_budget (Some 8) None FINITE (Some 0%Q) 1 with
  | Ok b => exec (Charge (Some 2%Q) 100) (exec (Charge (Some 1%Q) 100) (exec (ReservePtz (Some 1%Q)) b))
  | Raise _ => mkAccount (mkTraffic 0 0 0 0 FINITE 0 0) None ∅ 0 None 0
  end.

Lemma cleanup_always_affordable_witness :
  (charge (Some 3%Q) 100 sample_account).2 = Raise (ValueError "account output budget exhausted") ∧
  (ptz_charge 0 (Some 3%Q) "start" 100 sample_account).2 = Ok tt.
Proof.
  split; [vm_compute; reflexivity|].
  assert (reachable sample_account) as Hr.
  { apply reachable_call, reachable_call, reachable_call.
    apply (reachable_new (Some 8) None FINITE (Some 0%Q) 1). reflexivity. }
  destruct (cleanup_always_affordable sample_account 3 100 Hr) as (_ & H & _); [lia|vm_compute; discriminate|].
  by apply (H 0 ptz_slots "start"%string 1).
Defined.

(** C24: a generation's sequence numbers are never reused, wrapped or recycled:
    in every history of reservations, allocations and closures the numbers
    handed out are consecutive from the first, distinct and 32-bit, and none is
    handed out once the namespace is closed. *)
Theorem sequences_never_reused session generation next s calls :
  broker_sequences session generation next = Ok s →
  let '(s', ids) := seq_run calls s in
  ids = seqZ next (_next s' - next) ∧ NoDup ids ∧ Forall (λ i, 0 ≤ i < 2 ^ 32) ids ∧
  (∀ later, (seq_run later (close s').1).2 = []) ∧ matches (close s').1 session generation = false.
Proof.
  unfold broker_sequences. intros E. apply bind_Ok in E as (? & G%raise_if_Ok & E). injection E as <-.
  assert (∀ calls s, let '(s', ids) := seq_run calls s in
    ids = seqZ (_next s) (_next s' - _next s) ∧ _next s ≤ _next s' ∧ (_next s ≤ 2 ^ 32 → _next s' ≤ 2 ^ 32) ∧
    (closed s = true → ids = [])) as Hrun.
  { clear. intros calls. induction calls as [|c calls IH]; intros s; cbn [seq_run].
    - rewrite Z.sub_diag. split_and!; [done|lia|done|done].
    - pose proof (seq_exec_spec c s) as Hc. destruct (seq_exec c s) as [s1 l]. specialize (IH s1).
      destruct (seq_run calls s1) as [s2 k]. destruct Hc as (-> & ? & ? & Hc), IH as (-> & ? & ? & IH).
      split_and!; [by apply seqZ_split|lia|auto|]. intros Hcl. destruct (Hc Hcl) as [-> ?]. by rewrite IH. }
  pose proof (Hrun calls (mkSequences session generation next false)) as H.
  destruct (seq_run calls _) as [s' ids]. cbn [_next] in H. destruct H as (-> & ? & ? & _).
  split_and!; [done|apply NoDup_seqZ| | |done].
  - apply list.Forall_forall. intros i Hi%elem_of_seqZ. lia.
  - intros later. pose proof (Hrun later (close s').1) as Hl. destruct (seq_run later _) as [? ?]. by apply Hl.
Qed.

Lemma sequences_never_reused_witness :
  seq_run [Reserve 3; Allocate; Reserve 2] (mkSequences 7 1 (2 ^ 32 - 5) false) =
    (mkSequences 7 1 (2 ^ 32 - 1) false, [2 ^ 32 - 5; 2 ^ 32 - 4; 2 ^ 32 - 3; 2 ^ 32 - 2]) ∧
  (let '(_, ids) := seq_run [Reserve 3; Allocate; Reserve 2] (mkSequences 7 1 (2 ^ 32 - 5) false) in NoDup ids).
Proof.
  split; [vm_compute; reflexivity|].
  pose proof (sequences_never_reused 7 1 (2 ^ 32 - 5) (mkSequences 7 1 (2 ^ 32 - 5) false) [Reserve 3; Allocate; Reserve 2] eq_refl) as H.
  destruct (seq_run [Reserve 3; Allocate; Reserve 2] (mkSequences 7 1 (2 ^ 32 - 5) false)) as [s ids]. apply H.
Defined.

End Account.
