(* ===== verification/ConnAuth.v ===== *)
(** * Connection authentication

    Models [src/backend/app/drivers/yoosee/p2p/auth.py]: AES key normalization,
    the halfword checksum, the connection-auth blob, the 108-byte frame around
    it and its parser.  AES-CBC comes from the [cryptography] package and
    HMAC-MD5 from [hmac] and [hashlib]: both are parameters, of which the
    theorems use that decryption undoes encryption on whole blocks and that a
    digest has sixteen bytes.  [secrets.token_bytes] and [secrets.randbits] are
    the arguments [nonce] and [header_random15]. *)

From Stdlib Require Import ZArith Lia.
From S2P Require Import Prelude.

Module ConnAuth.

Definition IOTVIDEO_AES_IV : bytes := [105; 111; 116; 86; 105; 100; 101; 111] ++ zeros 8.
Definition CONN_AUTH_FRAME_LEN : nat := 0x6C.
Definition CONN_AUTH_BLOB_LEN : nat := 0x50.

Definition _u32 (value : Z) : Z := Z.land value 0xFFFFFFFF.

Definition key_step (h : Z * Z * Z * Z) (byte : Z) : Z * Z * Z * Z :=
  let '(h0, h1, h2, h3) := h in
  (_u32 (h0 * 0x83 + byte),
   _u32 (Z.lxor h1 (_u32 (byte + _u32 (Z.shiftl h1 5) + Z.shiftr h1 2))),
   _u32 (byte + _u32 (Z.shiftl h2 5) + h2),
   _u32 (byte + _u32 (Z.shiftl h3 6) + _u32 (Z.shiftl h3 16) - h3)).

Definition normalize_aes_key (key : bytes) : result bytes :=
  if existsb (Z.eqb (len key)) [16; 24; 32] then Ok key else
  let '(h0, h1, h2, h3) := foldl key_step (0, 0x4E67C6A7, 0x1505, 0) key in
  a ← pack 4 h0; b ← pack 4 h1; c ← pack 4 h2; d ← pack 4 h3; Ok (a ++ b ++ c ++ d).

(** The sum of the little-endian halfwords. *)
Fixpoint halfwords (data : bytes) : list Z :=
  match data with
  | a :: b :: data => undigits 256 [a; b] :: halfwords data
  | _ => []
  end.

Definition sum_u16 (data : bytes) : result Z :=
  _ ← raise_if (negb (len data mod 2 =? 0)) (ValueError "checksum input must contain whole 16-bit words");
  Ok (Z.land (foldr Z.add 0 (halfwords data)) 0xFFFF).

Definition hash_step (h : Z * Z) (byte : Z) : Z * Z :=
  let '(h0, h1) := h in
  (_u32 (h0 * 0x83 + byte), _u32 (Z.lxor h1 (_u32 (byte + _u32 (Z.shiftl h1 5) + Z.shiftr h1 2)))).

Definition strdat_hash64 (data : bytes) : result bytes :=
  let '(h0, h1) := foldl hash_step (0, 0x4E67C6A7) data in
  a ← pack 4 h0; b ← pack 4 h1; Ok (a ++ b).

Definition gute_init_checksum (frame : bytes) : result Z :=
  _ ← raise_if (len frame <? 0x18) (ValueError "truncated gute frame");
  declared ← unpack_from 2 frame 2;
  _ ← raise_if (len frame <? declared) (ValueError "declared frame length exceeds buffer");
  flags ← unpack_from 4 frame 0x14;
  let encrypted_len := declared - 0x18 in
  let encrypted_len :=
    if negb (Z.land flags (Z.shiftl 1 22) =? 0) then encrypted_len - 0x50 else encrypted_len in
  let encrypted_len :=
    if negb (Z.land flags (Z.shiftl 1 24) =? 0) then encrypted_len - 0x10 else encrypted_len in
  _ ← raise_if ((encrypted_len <? 0) || negb (encrypted_len mod 4 =? 0))
        (ValueError "invalid checksum-covered payload length");
  let xor_word := λ checksum off, v ← unpack_from 4 frame off; Ok (Z.lxor checksum v) in
  checksum ← foldM xor_word (Z.land flags 0xFFFFFF) [0; 4; 8; 0xC]%nat;
  checksum ← foldM xor_word checksum ((λ i, 0x18 + i * 4)%nat <$> seq 0 (Z.to_nat (encrypted_len / 4)));
  Ok (_u32 checksum).

Record ParsedConnAuth := mkParsed {
  access_id : Z; sequence : Z; terminal_auth : bool; p_nonce : bytes; token_prefix : bytes;
  signature_valid : bool; blob_checksum_valid : bool; frame_checksum_valid : bool
}.

(** [str(n).encode("ascii")]: the decimal digits, at most one more than the
    binary ones. *)
Fixpoint decimal (fuel : nat) (n : Z) : bytes :=
  match fuel with
  | O => []
  | S fuel => if n <? 10 then [48 + n] else decimal fuel (n / 10) ++ [48 + n mod 10]
  end.
Definition ascii_number (n : Z) : bytes :=
  let digits := decimal (S (Z.to_nat (Z.log2 (Z.abs n)))) (Z.abs n) in
  if n <? 0 then 45 :: digits else digits.

Section Crypto.
(** [Cipher(algorithms.AES(key), modes.CBC(iv))], encrypting and decrypting. *)
Context (aes_encrypt aes_decrypt : bytes → bytes → bytes → bytes).
(** [hmac.new(key, message, hashlib.md5).digest()]. *)
Context (hmac_md5 : bytes → bytes → bytes).

Definition aes_cbc (data key : bytes) (encrypt : bool) : result bytes :=
  _ ← raise_if (negb (len data mod 16 =? 0)) (ValueError "AES-CBC data length must be a multiple of 16");
  key ← normalize_aes_key key;
  Ok ((if encrypt then aes_encrypt else aes_decrypt) key IOTVIDEO_AES_IV data).

Definition build_conn_auth_blob (access_token signed_header nonce : bytes) : result bytes :=
  _ ← raise_if (negb (len access_token =? 64)) (ValueError "connection auth requires a 64-byte access token");
  _ ← raise_if (negb (len signed_header =? 8)) (ValueError "signed header must be exactly eight bytes");
  _ ← raise_if (negb (len nonce =? 12)) (ValueError "nonce must be exactly 12 bytes");
  let blob := zeros CONN_AUTH_BLOB_LEN in
  blob ← set_byte blob 0 1;
  b1 ← index blob 1;
  blob ← set_byte blob 1 (Z.lor b1 1);
  let blob := slice_set 4 16 nonce blob in
  let blob := slice_set 16 64 (slice 0 48 access_token) blob in
  sum ← sum_u16 (slice 4 64 blob);
  blob ← pack_into 2 blob 2 sum;
  let blob := slice_set 64 80 (hmac_md5 (slice 48 64 access_token) (signed_header ++ slice 0 64 blob)) blob in
  sealed ← aes_cbc (slice 16 64 blob) (slice 4 16 blob) true;
  Ok (slice_set 16 64 sealed blob).

Definition build_conn_authinfo (access_id : Z) (access_token : bytes) (sequence terminal_id : Z) (terminal_auth : bool)
    (nonce : bytes) (header_random15 : Z) : result bytes :=
  _ ← raise_if (negb (len access_token =? 64)) (ValueError "connection auth requires a 64-byte access token");
  _ ← raise_if (negb (len nonce =? 12)) (ValueError "nonce must be exactly 12 bytes");
  _ ← raise_if (negb ((0 <=? header_random15) && (header_random15 <=? 0x7FFF)))
        (ValueError "header_random15 must fit in 15 bits");
  let frame := zeros (CONN_AUTH_FRAME_LEN + (if terminal_auth then 16 else 0)) in
  frame ← set_byte frame 0 0x7F;
  frame ← pack_into 2 frame 2 (Z.of_nat CONN_AUTH_FRAME_LEN);
  frame ← pack_into 8 frame 4 (Z.land access_id 0xFFFFFFFFFFFFFFFF);
  frame ← pack_into 4 frame 0x0C (Z.land sequence 0xFFFFFFFF);
  frame ← pack_into 4 frame 0x14 (Z.lor 0x00400000 (Z.shiftl header_random15 1));
  frame ← (if terminal_auth then pack_into 2 frame 0x18 1 else Ok frame);
  checksum ← gute_init_checksum frame;
  frame ← pack_into 4 frame 0x10 checksum;
  blob ← build_conn_auth_blob access_token (slice 0x0C 0x14 frame) nonce;
  let frame := slice_set (CONN_AUTH_FRAME_LEN - CONN_AUTH_BLOB_LEN) CONN_AUTH_FRAME_LEN blob frame in
  if terminal_auth then
    terminal_key ← strdat_hash64 (ascii_number access_id ++ ascii_number terminal_id);
    Ok (slice_set CONN_AUTH_FRAME_LEN (length frame) (hmac_md5 terminal_key (slice 64 80 blob)) frame)
  else Ok frame.

Definition parse_conn_authinfo (frame access_token : bytes) : result ParsedConnAuth :=
  _ ← raise_if (negb (len access_token =? 64)) (ValueError "connection auth requires a 64-byte access token");
  _ ← raise_if (negb (existsb (Nat.eqb (length frame)) [CONN_AUTH_FRAME_LEN; (CONN_AUTH_FRAME_LEN + 16)%nat]))
        (ValueError "unexpected connection-auth frame size");
  b0 ← index frame 0; declared ← unpack_from 2 frame 2;
  _ ← raise_if (negb (b0 =? 0x7F) || negb (declared =? Z.of_nat CONN_AUTH_FRAME_LEN))
        (ValueError "not a connection-auth frame");
  t ← unpack_from 2 frame 0x18;
  let blob := slice (CONN_AUTH_FRAME_LEN - CONN_AUTH_BLOB_LEN) CONN_AUTH_FRAME_LEN frame in
  opened ← aes_cbc (slice 16 64 blob) (slice 4 16 blob) false;
  let blob := slice_set 16 64 opened blob in
  let signed := slice 0x0C 0x14 frame ++ slice 0 64 blob in
  let expected_signature := hmac_md5 (slice 48 64 access_token) signed in
  stored_frame_checksum ← unpack_from 4 frame 0x10;
  id ← unpack_from 8 frame 4; sequence ← unpack_from 4 frame 0x0C;
  blob_sum ← unpack_from 2 blob 2; sum ← sum_u16 (slice 4 64 blob);
  checksum ← gute_init_checksum frame;
  Ok (mkParsed id sequence (negb (Z.land t 1 =? 0)) (slice 4 16 blob) (slice 16 64 blob)
        (bool_decide (slice 64 80 blob = expected_signature)) (blob_sum =? sum) (stored_frame_checksum =? checksum)).

(** ** Checksums *)

Lemma u32_range x : 0 ≤ _u32 x < 2 ^ 32.
Proof. apply (land32_range x). Qed.

Lemma fold_u32 {A} (f : A → Z → A) (P : A → Prop) l a : P a → (∀ a x, P (f a x)) → P (foldl f a l).
Proof. intros H Hf. revert a H. induction l; simpl; auto. Qed.

(** The normalized key has one of the three AES lengths. *)
Lemma normalize_total key : bytes_ok key → ∃ k, normalize_aes_key key = Ok k ∧ bytes_ok k ∧ len k ∈ [16; 24; 32].
Proof.
  intros Hk. unfold normalize_aes_key. destruct (existsb _ _) eqn:E.
  - exists key. split_and!; [done|done|]. apply existsb_exists in E as (n & Hn & E). apply list_elem_of_In.
    by replace (len key) with n by lia.
  - assert (∀ h, let '(h0, h1, h2, h3) := h in
      ∃ k, (a ← pack 4 (_u32 h0); b ← pack 4 (_u32 h1); c ← pack 4 (_u32 h2); d ← pack 4 (_u32 h3); Ok (a ++ b ++ c ++ d)) = Ok k ∧
        bytes_ok k ∧ len k ∈ [16; 24; 32]) as Hpack.
    { intros [[[h0 h1] h2] h3]. pose proof (u32_range h0). pose proof (u32_range h1).
      pose proof (u32_range h2). pose proof (u32_range h3).
      rewrite !pack_ok by (eval_widths; lia). rewrite !bind_ret. eexists. split; [done|]. split.
      - rewrite !bytes_ok_app. split_and!; auto with bytes.
      - unfold len. rewrite !length_app, !length_digits. set_solver. }
    assert (∃ h0 h1 h2 h3, foldl key_step (0, 0x4E67C6A7, 0x1505, 0) key = (_u32 h0, _u32 h1, _u32 h2, _u32 h3)) as (h0 & h1 & h2 & h3 & ->).
    { apply (fold_u32 key_step (λ h, ∃ h0 h1 h2 h3, h = (_u32 h0, _u32 h1, _u32 h2, _u32 h3))).
      - exists 0, 0x4E67C6A7, 0x1505, 0. reflexivity.
      - intros [[[? ?] ?] ?] x. unfold key_step. by do 4 eexists. }
    exact (Hpack (h0, h1, h2, h3)).
Qed.

Lemma strdat_total data : ∃ k, strdat_hash64 data = Ok k ∧ length k = 8%nat.
Proof.
  unfold strdat_hash64.
  assert (∃ h0 h1, foldl hash_step (0, 0x4E67C6A7) data = (_u32 h0, _u32 h1)) as (h0 & h1 & ->).
  { apply (fold_u32 hash_step (λ h, ∃ h0 h1, h = (_u32 h0, _u32 h1))); [by exists 0, 0x4E67C6A7|].
    intros [? ?] x. unfold hash_step. by do 2 eexists. }
  pose proof (u32_range h0). pose proof (u32_range h1). rewrite !pack_ok by (eval_widths; lia). by eexists.
Qed.

Lemma sum_u16_total data : Nat.Even (length data) → ∃ s, sum_u16 data = Ok s ∧ 0 ≤ s < 65536.
Proof.
  intros [k Hk]. unfold sum_u16. rewrite guard_pass.
  - eexists. split; [done|]. apply land16_range.
  - unfold len. rewrite Hk. apply negb_false_iff, Z.eqb_eq. rewrite Nat2Z.inj_mul, Z.mul_comm. apply Z.mod_mul. lia.
Qed.

Lemma land_pow2_small x k : 0 ≤ k → 0 ≤ x < 2 ^ k → Z.land x (2 ^ k) = 0.
Proof.
  intros Hk Hx. apply Z.bits_inj'. intros n Hn. rewrite Z.land_spec, Z.pow2_bits_eqb, Z.bits_0 by done.
  destruct (Z.eqb_spec k n) as [<-|]; [|by rewrite andb_false_r]. rewrite andb_true_r.
  rewrite <-(Z.mod_small x (2 ^ k)) by done. apply Z.mod_pow2_bits_high. lia.
Qed.

(** The checksum of a frame whose covered payload is one word. *)
Definition word (f : bytes) (off : nat) : Z := undigits 256 (slice off (off + 4) f).
Definition xor6 (f : bytes) : Z :=
  _u32 (Z.lxor (Z.lxor (Z.lxor (Z.lxor (Z.lxor (Z.land (word f 0x14) 0xFFFFFF) (word f 0)) (word f 4)) (word f 8)) (word f 0xC)) (word f 0x18)).

Lemma init_checksum_eq f : (0x6C ≤ length f)%nat → unpack_from 2 f 2 = Ok 0x6C →
  Z.land (word f 0x14) (2 ^ 22) ≠ 0 → Z.land (word f 0x14) (2 ^ 24) = 0 → gute_init_checksum f = Ok (xor6 f).
Proof.
  intros Hl H2 H22 H24. unfold gute_init_checksum. rewrite guard_pass by (unfold len; lia). rewrite H2, bind_ret.
  rewrite guard_pass by (unfold len; lia). rewrite (unpack_from_ok 4 f 0x14), bind_ret by lia. fold (word f 0x14).
  rewrite !Z.shiftl_1_l. rewrite (proj2 (Z.eqb_neq _ _) H22), H24. cbn [negb Z.eqb].
  change (0x6C - 0x18 - 0x50) with 4. change ((4 <? 0) || negb (4 mod 4 =? 0)) with false. cbn [raise_if].
  rewrite bind_ret. change (seq 0 (Z.to_nat (4 / 4))) with [0%nat]. cbn [foldM fmap list_fmap].
  rewrite !unpack_from_ok by lia. rewrite !bind_ret. done.
Qed.

Lemma xor6_ext f g : slice 0 16 f = slice 0 16 g → slice 0x14 0x1C f = slice 0x14 0x1C g → xor6 f = xor6 g.
Proof.
  intros H1 H2. unfold xor6, word.
  assert (∀ a, (a + 4 ≤ 16)%nat → slice a (a + 4) f = slice a (a + 4) g) as E1.
  { intros a Ha. rewrite (slice_slice a (a + 4) 0 16 f), (slice_slice a (a + 4) 0 16 g) by lia. by rewrite H1. }
  assert (∀ a, (0x14 ≤ a)%nat → (a + 4 ≤ 0x1C)%nat → slice a (a + 4) f = slice a (a + 4) g) as E2.
  { intros a Ha Hb. rewrite (slice_slice a (a + 4) 0x14 0x1C f), (slice_slice a (a + 4) 0x14 0x1C g) by lia. by rewrite H2. }
  by rewrite (E2 0x14%nat), (E1 0%nat), (E1 4%nat), (E1 8%nat), (E1 0xC%nat), (E2 0x18%nat) by lia.
Qed.

(** ** The blob *)

(** The first 64 bytes of the blob before its token prefix is encrypted. *)
Definition clear64 (s : Z) (nonce prefix : bytes) : bytes := [1; 1] ++ digits 256 2 s ++ nonce ++ prefix.

Section Blob.
Context (token header nonce : bytes).
Context (Ht : length token = 64%nat) (Hh : length header = 8%nat) (Hn : length nonce = 12%nat).
Context (Hnb : bytes_ok nonce).
Context (hmac_length : ∀ k m, length (hmac_md5 k m) = 16%nat).

Lemma build_blob_ok : ∃ k s, normalize_aes_key nonce = Ok k ∧
  sum_u16 (nonce ++ slice 0 48 token) = Ok s ∧ 0 ≤ s < 65536 ∧
  build_conn_auth_blob token header nonce =
    Ok ([1; 1] ++ digits 256 2 s ++ nonce ++ aes_encrypt k IOTVIDEO_AES_IV (slice 0 48 token) ++
        hmac_md5 (slice 48 64 token) (header ++ clear64 s nonce (slice 0 48 token))).
Proof using Ht Hh Hn Hnb hmac_length.
  set (prefix := slice 0 48 token). assert (length prefix = 48%nat) as Lp by (subst prefix; rewrite length_slice; lia).
  destruct (normalize_total nonce Hnb) as (k & Ek & _). exists k.
  destruct (sum_u16_total (nonce ++ prefix)) as (s & Es & Hs); [exists 30%nat; rewrite length_app; lia|].
  exists s. split_and!; [done|done|lia|lia|]. unfold build_conn_auth_blob. unfold len. rewrite Ht, Hh, Hn.
  rewrite !guard_pass by done. cbv zeta.
  change (set_byte (zeros CONN_AUTH_BLOB_LEN) 0 1) with (Ok (1 :: zeros 79) : result bytes). rewrite bind_ret.
  change (index (1 :: zeros 79) 1) with (Ok 0 : result Z). rewrite bind_ret.
  change (set_byte (1 :: zeros 79) 1 (Z.lor 0 1)) with (Ok ([1; 1; 0; 0] ++ zeros 12 ++ zeros 48 ++ zeros 16) : result bytes).
  rewrite bind_ret. rewrite (slice_set_mid 4 16 nonce [1; 1; 0; 0] (zeros 12)) by (done || lia).
  rewrite (app_assoc [1; 1; 0; 0] nonce). fold prefix.
  rewrite (slice_set_mid 16 64 prefix ([1; 1; 0; 0] ++ nonce) (zeros 48)) by (rewrite ?length_app; simpl; lia).
  rewrite <-(app_assoc [1; 1; 0; 0] nonce).
  replace (slice 4 64 ([1; 1; 0; 0] ++ nonce ++ prefix ++ zeros 16)) with (nonce ++ prefix).
  2:{ rewrite (app_assoc nonce). symmetry. apply slice_mid; [done|rewrite length_app; lia|lia]. }
  rewrite Es, bind_ret. rewrite (pack_into_ok 2 _ 2 s), bind_ret by first [eval_widths; lia | simpl; lia].
  change ([1; 1; 0; 0] ++ nonce ++ prefix ++ zeros 16) with ([1; 1] ++ [0; 0] ++ nonce ++ prefix ++ zeros 16).
  rewrite (slice_set_mid 2 (2 + 2) (digits 256 2 s) [1; 1] [0; 0]) by (done || lia).
  set (l := [1; 1] ++ digits 256 2 s ++ nonce ++ prefix ++ zeros 16).
  assert (l = clear64 s nonce prefix ++ zeros 16 ++ []) as El by (unfold l, clear64; by rewrite <-!app_assoc, app_nil_r).
  assert (length (clear64 s nonce prefix) = 64%nat) as Lc.
  { unfold clear64. rewrite !length_app, length_digits. simpl. lia. }
  rewrite El. rewrite (slice_all_prefix 64 (clear64 s nonce prefix)) by done. set (mac := hmac_md5 _ _).
  rewrite (slice_set_mid 64 80 mac (clear64 s nonce prefix) (zeros 16) []) by first [reflexivity | done | apply hmac_length | lia]. rewrite app_nil_r.
  unfold clear64. rewrite <-!app_assoc. set (hd := [1; 1] ++ digits 256 2 s).
  assert (length hd = 4%nat) as Lhd by done.
  replace ([1; 1] ++ digits 256 2 s ++ nonce ++ prefix ++ mac) with (hd ++ nonce ++ prefix ++ mac) by (unfold hd; by rewrite <-app_assoc).
  rewrite (slice_mid 4 16 hd nonce (prefix ++ mac)) by lia.
  rewrite (app_assoc hd nonce), (slice_mid 16 64 (hd ++ nonce) prefix mac) by (rewrite ?length_app; lia).
  unfold aes_cbc. unfold len. rewrite Lp. rewrite guard_pass by done. rewrite Ek, bind_ret, bind_ret.
  rewrite (slice_set_mid 16 64 _ (hd ++ nonce) prefix mac) by (rewrite ?length_app; lia).
  unfold hd. by rewrite <-!app_assoc.
Qed.
End Blob.

(** ** The frame *)

Section Frame.
Context (aes_inverse : ∀ key iv d, bytes_ok d → len d mod 16 = 0 → aes_decrypt key iv (aes_encrypt key iv d) = d).
Context (aes_length : ∀ key iv d, length (aes_encrypt key iv d) = length d).
Context (hmac_length : ∀ k m, length (hmac_md5 k m) = 16%nat).

(** What a frame of [build_conn_authinfo] holds, by its fields. *)
Record auth_frame (g blob : bytes) (id seq t flags : Z) : Prop := {
  af_length : length g = 0x6C%nat ∨ length g = 0x7C%nat;
  af_tag : slice 0 1 g = [0x7F];
  af_declared : slice 2 4 g = digits 256 2 0x6C;
  af_id : slice 4 12 g = digits 256 8 id ∧ 0 ≤ id < 2 ^ 64;
  af_seq : slice 0xC 0x10 g = digits 256 4 seq ∧ 0 ≤ seq < 2 ^ 32;
  af_checksum : slice 0x10 0x14 g = digits 256 4 (xor6 g);
  af_flags : slice 0x14 0x18 g = digits 256 4 flags ∧ 0 ≤ flags < 2 ^ 32;
  af_bits : Z.land flags (2 ^ 22) ≠ 0 ∧ Z.land flags (2 ^ 24) = 0;
  af_terminal : slice 0x18 0x1A g = digits 256 2 t ∧ 0 ≤ t < 2;
  af_blob : slice 0x1C 0x6C g = blob
}.

Lemma auth_frame_checksum g blob id seq t flags : auth_frame g blob id seq t flags → gute_init_checksum g = Ok (xor6 g).
Proof using.
  intros H. assert (0x6C ≤ length g)%nat by (destruct (af_length _ _ _ _ _ _ H); lia).
  assert (word g 0x14 = flags) as Ew.
  { unfold word. change (0x14 + 4)%nat with 0x18%nat. destruct (af_flags _ _ _ _ _ _ H) as [-> ?].
    by apply le_decode_encode. }
  apply init_checksum_eq; [done| |rewrite Ew; apply H|rewrite Ew; apply H].
  apply unpack_digits; [lia|eval_widths; lia|apply H].
Qed.

Lemma parse_frame g blob id seq t flags token nonce : length token = 64%nat → bytes_ok token →
  length nonce = 12%nat → bytes_ok nonce → auth_frame g blob id seq t flags →
  build_conn_auth_blob token (slice 0xC 0x14 g) nonce = Ok blob →
  parse_conn_authinfo g token = Ok (mkParsed id seq (t =? 1) nonce (slice 0 48 token) true true true).
Proof using aes_inverse aes_length hmac_length.
  intros Ht Htb Hn Hnb H Eb. assert (0x6C ≤ length g)%nat as Hg by (destruct (af_length _ _ _ _ _ _ H); lia).
  destruct (build_blob_ok token (slice 0xC 0x14 g) nonce Ht ltac:(rewrite length_slice; lia) Hn Hnb hmac_length)
    as (k & s & Ek & Es & Hs & Eb'). rewrite Eb' in Eb. clear Eb'.
  set (prefix := slice 0 48 token) in *. assert (length prefix = 48%nat) as Lp by (subst prefix; rewrite length_slice; lia).
  set (sealed := aes_encrypt k IOTVIDEO_AES_IV prefix) in *.
  assert (length sealed = 48%nat) as Ls by (subst sealed; by rewrite aes_length).
  set (mac := hmac_md5 _ _) in *. apply (inj Ok) in Eb. unfold parse_conn_authinfo.
  unfold len at 1. rewrite Ht. rewrite guard_pass by done. rewrite guard_pass.
  2:{ destruct (af_length _ _ _ _ _ _ H) as [-> | ->]; done. }
  rewrite (index_ok g 0), bind_ret by lia. rewrite (lookup_total_slice1 g 0 0x7F) by (lia || apply H).
  assert (∀ n off v, (0 < n)%nat → 0 ≤ v < 256 ^ Z.of_nat n → slice off (off + n) g = digits 256 n v →
    unpack_from n g off = Ok v) as Hu by (intros; by apply unpack_digits).
  rewrite (Hu 2%nat 2%nat 0x6C), bind_ret by (done || (eval_widths; lia) || apply H). rewrite guard_pass by done.
  rewrite (Hu 2%nat 0x18%nat t), bind_ret by (try lia; try apply H; eval_widths; pose proof (af_terminal _ _ _ _ _ _ H); lia).
  change (CONN_AUTH_FRAME_LEN - CONN_AUTH_BLOB_LEN)%nat with 0x1C%nat. change CONN_AUTH_FRAME_LEN with 0x6C%nat.
  rewrite (af_blob _ _ _ _ _ _ H), <-Eb. cbv zeta. set (hd := [1; 1] ++ digits 256 2 s).
  assert (length hd = 4%nat) as Lhd by done. rewrite (app_assoc [1; 1] (digits 256 2 s)). fold hd.
  rewrite (slice_mid 4 16 hd nonce) by lia.
  rewrite (app_assoc hd nonce), (slice_mid 16 64 (hd ++ nonce) sealed mac) by (rewrite ?length_app; lia).
  unfold aes_cbc. unfold len at 1. rewrite Ls. rewrite guard_pass by done. rewrite Ek, bind_ret, bind_ret.
  assert (aes_decrypt k IOTVIDEO_AES_IV sealed = prefix) as ->.
  { apply aes_inverse; [subst prefix; auto with bytes|]. unfold len. by rewrite Lp. }
  rewrite (slice_set_mid 16 64 prefix (hd ++ nonce) sealed mac) by (rewrite ?length_app; lia).
  rewrite (Hu 4%nat 0x10%nat (xor6 g)), bind_ret by (lia || apply H || (eval_widths; pose proof (u32_range 0); apply u32_range)).
  rewrite (Hu 8%nat 4%nat id), bind_ret by (lia || apply H || (eval_widths; apply H)).
  rewrite (Hu 4%nat 0xC%nat seq), bind_ret by (lia || apply H || (eval_widths; apply H)).
  rewrite <-!app_assoc.
  rewrite (unpack_digits 2 _ 2 s), bind_ret; [|lia|eval_widths; lia|].
  2:{ unfold hd. rewrite <-app_assoc. apply (slice_mid 2 4 [1; 1] (digits 256 2 s)); done || lia. }
  replace (slice 4 64 (hd ++ nonce ++ prefix ++ mac)) with (nonce ++ prefix).
  2:{ rewrite (app_assoc nonce). symmetry. apply slice_mid; rewrite ?length_app; lia. }
  rewrite Es, bind_ret, (auth_frame_checksum _ _ _ _ _ _ H), bind_ret. apply f_equal.
  assert (hd ++ nonce ++ prefix ++ mac = clear64 s nonce prefix ++ mac ++ []) as Ecl.
  { unfold hd, clear64. by rewrite <-!app_assoc, app_nil_r. }
  assert (length (clear64 s nonce prefix) = 64%nat) as Lc.
  { unfold clear64. rewrite !length_app, length_digits. simpl. lia. }
  f_equal.
  - destruct (af_terminal _ _ _ _ _ _ H) as [_ Hr]. assert (t = 0 ∨ t = 1) as [-> | ->] by lia; done.
  - apply slice_mid; lia.
  - rewrite (app_assoc hd nonce). apply slice_mid; rewrite ?length_app; lia.
  - apply bool_decide_eq_true_2. rewrite Ecl, (slice_all_prefix 64) by done.
    apply slice_mid; [done|by rewrite hmac_length|lia].
  - apply Z.eqb_refl.
  - apply Z.eqb_refl.
Qed.

Lemma auth_flags r : 0 ≤ r ≤ 0x7FFF → let fl := Z.lor 0x00400000 (Z.shiftl r 1) in
  0 ≤ fl < 2 ^ 32 ∧ Z.land fl (2 ^ 22) ≠ 0 ∧ Z.land fl (2 ^ 24) = 0.
Proof using.
  intros Hr. cbv zeta. assert (Z.shiftl r 1 = 2 * r) as E by (rewrite Z.shiftl_mul_pow2 by lia; lia). rewrite E.
  assert (Z.land (2 ^ 22) (2 * r) = 0) as Hd by (rewrite Z.land_comm; apply land_pow2_small; lia).
  change 0x00400000 with (2 ^ 22). split_and!.
  - rewrite <-Z.lxor_lor, <-Z.add_nocarry_lxor by done. lia.
  - rewrite <-Z.lxor_lor, <-Z.add_nocarry_lxor by done. lia.
  - rewrite Z.land_lor_distr_l, (land_pow2_small (2 * r)) by lia. done.
  - rewrite Z.land_lor_distr_l, (land_pow2_small (2 * r)) by lia. done.
Qed.

Lemma build_frame_ok id token seq terminal_id ta nonce r : length token = 64%nat →
  length nonce = 12%nat → bytes_ok nonce → 0 ≤ r ≤ 0x7FFF →
  ∃ g blob, build_conn_authinfo id token seq terminal_id ta nonce r = Ok g ∧
    length g = (CONN_AUTH_FRAME_LEN + if ta then 16 else 0)%nat ∧
    build_conn_auth_blob token (slice 0xC 0x14 g) nonce = Ok blob ∧
    auth_frame g blob (Z.land id 0xFFFFFFFFFFFFFFFF) (Z.land seq 0xFFFFFFFF) (Z.b2z ta) (Z.lor 0x00400000 (Z.shiftl r 1)).
Proof using aes_length hmac_length.
  intros Ht Hn Hnb Hr. pose proof (auth_flags r Hr) as (Hfl & H22 & H24). set (fl := Z.lor _ _) in *.
  pose proof (land64_range id) as Hid. pose proof (land32_range seq) as Hseq.
  unfold build_conn_authinfo. unfold len. rewrite Ht, Hn. rewrite !guard_pass by (done || lia). cbv zeta. fold fl.
  set (n := (CONN_AUTH_FRAME_LEN + (if ta then 16 else 0))%nat).
  assert (n = 0x6C ∨ n = 0x7C)%nat as Hlen by (subst n; destruct ta; auto).
  assert (length (zeros n) = n) as Lz by apply length_replicate.
  change (Z.of_nat CONN_AUTH_FRAME_LEN) with 0x6C. do 5 build_step.
  set (f := put 20 _ _). assert (length f = n) as Lf by (subst f; len_solve).
  assert (∃ f', (if ta then pack_into 2 f 0x18 1 else Ok f) = Ok f' ∧ length f' = n ∧
    slice 0 0x18 f' = slice 0 0x18 f ∧ slice 0x18 0x1A f' = digits 256 2 (Z.b2z ta)) as (f' & -> & Lf' & Hf' & Htf').
  { destruct ta.
    - eexists. rewrite pack_into_put by (lia || (eval_widths; lia)). split; [done|].
      split_and!; [len_solve|by rewrite slice_put_ne by len_solve|by fields].
    - exists f. split_and!; [done|done|done|]. subst f. rewrite !slice_put_ne by len_solve. by rewrite slice_zeros by lia. }
  bind_simpl.
  assert (∀ a b, (a ≤ b)%nat → (b ≤ 0x18)%nat → slice a b f' = slice a b f) as Hsub.
  { intros a b Hab Hb. rewrite (slice_slice a b 0 0x18 f'), (slice_slice a b 0 0x18 f) by lia. by rewrite Hf'. }
  assert (slice 0 1 f' = [0x7F] ∧ slice 2 4 f' = digits 256 2 0x6C ∧ slice 4 12 f' = digits 256 8 (Z.land id 0xFFFFFFFFFFFFFFFF) ∧
    slice 0xC 0x10 f' = digits 256 4 (Z.land seq 0xFFFFFFFF) ∧ slice 0x14 0x18 f' = digits 256 4 fl) as (F0 & F2 & F4 & FC & F14).
  { rewrite !Hsub by lia. subst f. split_and!; by rewrite ?slice_put_ne, ?slice_put_eq by len_solve. }
  rewrite (init_checksum_eq f').
  2: lia.
  2:{ apply unpack_digits; [lia|eval_widths; lia|exact F2]. }
  2:{ unfold word. change (0x14 + 4)%nat with 0x18%nat. rewrite F14, le_decode_encode by (eval_widths; lia). exact H22. }
  2:{ unfold word. change (0x14 + 4)%nat with 0x18%nat. rewrite F14, le_decode_encode by (eval_widths; lia). exact H24. }
  bind_simpl. pose proof (u32_range (Z.lxor (Z.lxor (Z.lxor (Z.lxor (Z.lxor (Z.land (word f' 0x14) 0xFFFFFF) (word f' 0)) (word f' 4)) (word f' 8)) (word f' 0xC)) (word f' 0x18))) as Hx.
  fold (xor6 f') in Hx. build_step. set (f1 := put 16 _ f').
  assert (length f1 = n) as Lf1 by (subst f1; len_solve).
  assert (∀ a b, (b ≤ 16 ∨ 20 ≤ a)%nat → slice a b f1 = slice a b f') as H1 by (intros; subst f1; by rewrite slice_put_ne by len_solve).
  destruct (build_blob_ok token (slice 0xC 0x14 f1) nonce Ht ltac:(rewrite length_slice; lia) Hn Hnb hmac_length)
    as (k & s & _ & _ & _ & Eb). set (blob := [1; 1] ++ _) in Eb.
  assert (length blob = 80%nat) as Lb.
  { subst blob. rewrite !length_app, length_digits, aes_length, hmac_length, length_slice, Hn, Ht. done. }
  rewrite Eb, bind_ret. change (CONN_AUTH_FRAME_LEN - CONN_AUTH_BLOB_LEN)%nat with 0x1C%nat. change CONN_AUTH_FRAME_LEN with 0x6C%nat.
  rewrite (slice_set_put 0x1C 0x6C blob f1) by lia. set (f2 := put 28 blob f1).
  assert (length f2 = n) as Lf2 by (subst f2; len_solve).
  assert (∃ g, (if ta then terminal_key ← strdat_hash64 (ascii_number id ++ ascii_number terminal_id);
      Ok (slice_set 0x6C (length f2) (hmac_md5 terminal_key (slice 64 80 blob)) f2) else Ok f2) = Ok g ∧
    length g = n ∧ slice 0 0x6C g = slice 0 0x6C f2) as (g & -> & Lg & Hg).
  { destruct ta; [|by exists f2]. destruct (strdat_total (ascii_number id ++ ascii_number terminal_id)) as (tk & -> & _).
    bind_simpl. eexists. split; [done|]. rewrite Lf2. change n with 0x7C%nat in Lf2 |- *. set (mac := hmac_md5 _ _).
    assert (length mac = 16%nat) by apply hmac_length. rewrite (slice_set_put 0x6C 0x7C) by lia.
    split; [len_solve|]. by rewrite slice_put_ne by len_solve. }
  assert (∀ a b, (a ≤ b)%nat → (b ≤ 0x6C)%nat → slice a b g = slice a b f2) as Hg2.
  { intros a b Hab Hb. rewrite (slice_slice a b 0 0x6C g), (slice_slice a b 0 0x6C f2) by lia. by rewrite Hg. }
  assert (∀ a b, (a ≤ b)%nat → (b ≤ 0x1C)%nat → slice a b g = slice a b f1) as Hg1.
  { intros a b Hab Hb. rewrite Hg2 by lia. subst f2. by rewrite slice_put_ne by len_solve. }
  exists g, blob. split; [done|]. split; [done|]. split; [by rewrite Hg1 by lia|]. constructor.
  - rewrite Lg. tauto.
  - by rewrite Hg1, H1 by lia.
  - by rewrite Hg1, H1 by lia.
  - split; [by rewrite Hg1, H1 by lia|exact Hid].
  - split; [by rewrite Hg1, H1 by lia|exact Hseq].
  - rewrite Hg1 by lia. subst f1. rewrite slice_put_eq by len_solve. apply f_equal, xor6_ext.
    + rewrite Hg1 by lia. by rewrite slice_put_ne by len_solve.
    + rewrite Hg1 by lia. by rewrite slice_put_ne by len_solve.
  - split; [by rewrite Hg1, H1 by lia|exact Hfl].
  - done.
  - split; [by rewrite Hg1, H1 by lia|destruct ta; simpl; lia].
  - rewrite Hg2 by lia. subst f2. by rewrite slice_put_eq by len_solve.
Qed.

(** ** Properties *)

(** C28: a connection-auth frame round-trips.  For every 64-byte token, nonce
    and identifiers of any size, with or without terminal authentication, the
    frame is built, and parsing it with the same token gives back the access
    identifier and sequence at their wire widths, the terminal flag, the nonce
    and the token prefix, with the signature, the blob checksum and the frame
    checksum all valid. *)
Theorem conn_auth_roundtrip id token seq terminal_id ta nonce r :
  length token = 64%nat → bytes_ok token → length nonce = 12%nat → bytes_ok nonce → 0 ≤ r ≤ 0x7FFF →
  ∃ frame, build_conn_authinfo id token seq terminal_id ta nonce r = Ok frame ∧
    length frame = (CONN_AUTH_FRAME_LEN + if ta then 16 else 0)%nat ∧
    parse_conn_authinfo frame token =
      Ok (mkParsed (Z.land id 0xFFFFFFFFFFFFFFFF) (Z.land seq 0xFFFFFFFF) ta nonce (slice 0 48 token) true true true).
Proof using aes_inverse aes_length hmac_length.
  intros Ht Htb Hn Hnb Hr.
  destruct (build_frame_ok id token seq terminal_id ta nonce r Ht Hn Hnb Hr) as (g & blob & Eg & Lg & Eb & Hg).
  exists g. split; [done|]. split; [done|].
  rewrite (parse_frame _ _ _ _ _ _ token nonce Ht Htb Hn Hnb Hg Eb). by destruct ta.
Qed.
End Frame.
End Crypto.

(** A cipher that reverses its data, and the first sixteen bytes as a digest. *)
Lemma conn_auth_roundtrip_witness : ∃ frame,
  build_conn_authinfo (λ _ _ d, rev d) (λ _ _ d, rev d) (λ _ m, take 16 (m ++ zeros 16)) 5 (zeros 64) 7 9 true (zeros 12) 3 = Ok frame ∧
  length frame = (CONN_AUTH_FRAME_LEN + 16)%nat ∧
  parse_conn_authinfo (λ _ _ d, rev d) (λ _ _ d, rev d) (λ _ m, take 16 (m ++ zeros 16)) frame (zeros 64) =
    Ok (mkParsed 5 7 true (zeros 12) (slice 0 48 (zeros 64)) true true true).
Proof.
  refine (conn_auth_roundtrip (λ _ _ d, rev d) (λ _ _ d, rev d) (λ _ m, take 16 (m ++ zeros 16))
    _ _ _ 5 (zeros 64) 7 9 true (zeros 12) 3 _ _ _ _ _).
  - intros _ _ d _ _. apply rev_involutive.
  - intros _ _ d. apply length_rev.
  - intros _ m. rewrite length_take, length_app. unfold zeros. rewrite length_replicate. apply Nat.min_l, Nat.le_add_l.
  - reflexivity.
  - bytes_concrete.
  - reflexivity.
  - bytes_concrete.
  - split; discriminate.
Defined.

End ConnAuth.
