(* ===== verification/AccessFrames.v ===== *)
(** * Access-node frames

    Models [src/backend/app/drivers/yoosee/p2p/access_protocol.py] and the
    records of [contracts.py] it uses: discovery, certification, initialization,
    TermDNS, acknowledgement and heartbeat frames, and their parsers.  Random
    words ([secrets.randbits]), the monotonic clock in milliseconds and the
    packed local address ([socket.inet_aton]) are arguments; a [str] is the list
    of its code points. *)

From Stdlib Require Import ZArith Lia.
From S2P Require Import Prelude Rc5 GuteFrame ConnAuth.

Module AccessFrames.

(** ** [contracts.py] *)

Record LoginMaterial := mkMaterial { m_access_id : Z; access_token : bytes }.

Record CertifiedNode := mkNode {
  address : bytes * Z; session_id : Z; session_key : bytes; next_sequence : Z
}.

Record OnlineDevice := mkDevice {
  device_id : Z; status : Z; new_platform : bool; server_id : Z; terminal_id : bytes
}.

(** ** [access_protocol.py] *)

(** [struct] format [">H"]. *)
Definition unpack_be16 (l : bytes) (off : nat) : result Z :=
  if decide (off + 2 ≤ length l)%nat
  then Ok (undigits 256 (rev (slice off (off + 2) l))) else Raise StructError.

(** [socket.inet_ntoa]: four numbers between dots. *)
Definition inet_ntoa (packed : bytes) : bytes :=
  match map ConnAuth.ascii_number packed with
  | [] => []
  | n :: ns => n ++ concat (map (λ m, 46 :: m) ns)
  end.

Definition build_list_query (access_id sequence random : Z) : result bytes :=
  frame ← GuteFrame.new_header 0x15 40 access_id sequence (GuteFrame.randomized_flags random 1 0 0);
  frame ← pack_into 4 frame 0x18 1;
  GuteFrame.finish_mode1 frame.

Definition endpoint : Type := bytes * Z.

(** The ports of a record, then the records, each endpoint once. *)
Definition port_step (host record : bytes) (endpoints : list endpoint) (offset : nat) : result (list endpoint) :=
  port ← unpack_be16 record offset;
  if negb (port =? 0) && negb (bool_decide ((host, port) ∈ endpoints))
  then Ok (endpoints ++ [(host, port)]) else Ok endpoints.

Definition record_step (frame : bytes) (endpoints : list endpoint) (index : nat) : result (list endpoint) :=
  let record := slice (0x20 + index * 0x24) (0x20 + (index + 1) * 0x24) frame in
  let host := inet_ntoa (take 4 record) in
  foldM (port_step host record) endpoints [0x18; 0x1A; 0x1C; 0x1E]%nat.

Definition parse_list_reply (wire : bytes) : result (list endpoint) :=
  frame ← GuteFrame.gute_mode1_decrypt wire;
  _ ← raise_if (negb (bool_decide (slice 0 2 frame = [0x7F; 0x16])) || (len frame <? 0x20))
        (ValueError "not a modern list response");
  count ← index frame 0x1E;
  _ ← raise_if (negb (len frame =? 0x20 + count * 0x24)) (ValueError "invalid modern list record layout");
  foldM (record_step frame) [] (seq 0 (Z.to_nat count)).

Definition build_nat_probe (access_id sequence random millis : Z) : result bytes :=
  frame ← GuteFrame.new_header 0x01 68 access_id sequence (GuteFrame.randomized_flags random 1 0 0);
  frame ← pack_into 4 frame 0x18 2;
  frame ← pack_into 4 frame 0x1C (Z.land millis 0xFFFFFFFF);
  GuteFrame.finish_mode1 frame.

Definition _wrap_certification_key (session_key access_token : bytes) : result bytes :=
  rc5 ← Rc5.init (slice 48 64 access_token) 6 64;
  foldM (λ out i, b ← Rc5.encrypt_block rc5 (slice (i * 16) (i * 16 + 16) session_key); Ok (out ++ b)) []
    (seq 0 ((length session_key + 15) / 16)).

Section Certification.
Context (aes_encrypt aes_decrypt : bytes → bytes → bytes → bytes) (hmac_md5 : bytes → bytes → bytes).

Definition build_certification_request (material : LoginMaterial) (sequence : Z) (session_key : bytes)
    (mtu random millis : Z) (nonce : bytes) : result bytes :=
  _ ← raise_if (negb (len session_key =? 32)) (ValueError "certification key must be 32 bytes");
  frame ← GuteFrame.new_header 0x0C 0xA4 (m_access_id material) sequence
            (GuteFrame.randomized_flags random 1 3 (Z.lor (Z.shiftl 1 22) (Z.shiftl 1 24)));
  frame ← pack_into 2 frame 0x18 1;
  frame ← pack_into 4 frame 0x1C (GuteFrame.hash_string session_key);
  wrapped ← _wrap_certification_key session_key (access_token material);
  let frame := slice_set 0x20 0x40 wrapped frame in
  frame ← pack_into 4 frame 0x40 mtu;
  frame ← pack_into 8 frame 0x44 millis;
  checksum ← GuteFrame.gute_mode1_xor_checksum frame;
  frame ← pack_into 4 frame 0x10 checksum;
  blob ← ConnAuth.build_conn_auth_blob aes_encrypt aes_decrypt hmac_md5 (access_token material) (slice 0x0C 0x14 frame) nonce;
  let frame := slice_set 0x54 0xA4 blob frame in
  GuteFrame.gute_mode1_encrypt frame.
End Certification.

Definition build_certification_ack (response : bytes) : result bytes :=
  identity ← unpack_from 8 response 4;
  sequence ← unpack_from 4 response 0x0C;
  frame ← GuteFrame.new_header 0x0D 32 identity sequence (Z.lor (Z.shiftl 1 20) (Z.shiftl 1 16));
  frame ← pack_into 4 frame 0x18 4;
  GuteFrame.finish_mode1 frame.

Definition build_init_info (node : CertifiedNode) (random : Z) : result bytes :=
  frame ← GuteFrame.new_header 0xA6 62 (session_id node) (next_sequence node) (GuteFrame.randomized_flags random 2 3 0);
  frame ← set_byte frame 0 0x7E;
  frame ← pack_into 2 frame 0x18 0x3E;
  frame ← set_byte frame 0x1B 2;
  frame ← pack_into 4 frame 0x20 0x28000000;
  let frame := slice_set 0x38 0x3E [0; 0; 0; 0; 0; 0x11] frame in
  GuteFrame.finish_mode2 frame (session_key node).

(** [str.encode("ascii")]; the error is a [ValueError]. *)
Definition encode_ascii (s : list Z) : result bytes :=
  _ ← raise_if (negb (forallb (λ c, (0 <=? c) && (c <? 128)) s)) (ValueError "ordinal not in range(128)");
  Ok s.

Definition build_term_dns (node : CertifiedNode) (term : list Z) (random : Z) : result bytes :=
  encoded ← encode_ascii term;
  frame ← GuteFrame.new_header 0xDB (0x1C + length encoded + 1) (session_id node) (next_sequence node)
            (GuteFrame.randomized_flags random 2 1 0);
  frame ← set_byte frame 0 0x7E;
  frame ← pack_into 2 frame 0x18 (len encoded);
  let frame := slice_set 0x1C (0x1C + length encoded) encoded frame in
  GuteFrame.finish_mode2 frame (session_key node).

(** [bytes.rstrip(b"\x00")] *)
Fixpoint rstrip0 (l : bytes) : bytes :=
  match l with
  | [] => []
  | b :: l => match rstrip0 l with [] => if b =? 0 then [] else [b] | l => b :: l end
  end.

Definition parse_term_dns (wire : bytes) (node : CertifiedNode) (expected_term : list Z) : result (bytes * Z) :=
  b ← index wire 0x16;
  let mode := Z.land b 3 in
  frame ← (if mode =? 2 then GuteFrame.gute_mode2_decrypt wire (session_key node)
           else if mode =? 1 then GuteFrame.gute_mode1_decrypt wire else Ok wire);
  is_dc ← (if len frame <? 0x24 then Ok false else t ← index frame 1; Ok (t =? 0xDC));
  _ ← raise_if (negb is_dc) (ValueError "not a TermDNS response");
  domain_len ← unpack_from 2 frame 0x18;
  domain ← encode_ascii (rstrip0 (slice 0x24 (0x24 + Z.to_nat domain_len) frame));
  _ ← raise_if (negb (bool_decide (domain = expected_term)))
        (ValueError "TermDNS response does not match the requested term");
  port ← unpack_from 4 frame 0x20;
  Ok (slice 0x1C 0x20 frame, port).

Definition build_mode2_response_ack (node : CertifiedNode) (response : bytes) : result bytes :=
  subtype ← index response 1;
  sequence ← unpack_from 4 response 0x0C;
  frame ← GuteFrame.new_header subtype 32 (session_id node) sequence (Z.lor (Z.shiftl 1 20) (Z.shiftl 2 16));
  frame ← set_byte frame 0 0x7E;
  frame ← pack_into 4 frame 0x18 4;
  GuteFrame.finish_mode2 frame (session_key node).

Definition build_mode1_response_ack (node : CertifiedNode) (response : bytes) : result bytes :=
  response_flags ← unpack_from 4 response 0x14;
  subtype ← index response 1;
  sequence ← unpack_from 4 response 0x0C;
  frame ← GuteFrame.new_header subtype 32 (session_id node) sequence
            (Z.lor (Z.lor (Z.shiftl 1 20) (Z.shiftl 1 16)) (Z.land response_flags (Z.shiftl 1 25)));
  frame ← set_byte frame 0 0x7E;
  frame ← pack_into 4 frame 0x18 4;
  GuteFrame.finish_mode1 frame.

Definition device_step (response : bytes) (devices : list OnlineDevice) (index_ : nat) : result (list OnlineDevice) :=
  let record := slice (0x20 + index_ * 0x1C) (0x20 + (index_ + 1) * 0x1C) response in
  id ← unpack_from 8 record 0;
  b8 ← index record 8; b9 ← index record 9;
  server ← unpack_from 2 record 0x0A;
  Ok (devices ++ [mkDevice id b8 (negb (Z.land b9 1 =? 0)) server (slice 0x0C 0x1C record)]).

Definition parse_init_devices (response : bytes) : result (list OnlineDevice) :=
  options ← unpack_from 2 response 0x18;
  if Z.land options 1 =? 0 then Ok [] else
  offline_count ← unpack_from 2 response 0x1C; online_count ← unpack_from 2 response 0x1E;
  let total := offline_count + online_count in
  _ ← raise_if (len response <? 0x20 + total * 0x1C) (ValueError "truncated init-info device table");
  foldM (device_step response) [] (seq 0 (Z.to_nat total)).

Definition build_heartbeat (node : CertifiedNode) (local_ip : bytes) (local_port random : Z) : result bytes :=
  frame ← GuteFrame.new_header 0xA0 48 (session_id node) (next_sequence node) (GuteFrame.randomized_flags random 2 2 0);
  frame ← set_byte frame 0 0x7E;
  frame ← pack_into 2 frame 0x18 2;
  frame ← pack_into 2 frame 0x1A local_port;
  let frame := slice_set 0x1C 0x20 local_ip frame in
  frame ← set_byte frame 0x21 1;
  frame ← pack_into 4 frame 0x2C 1;
  GuteFrame.finish_mode2 frame (session_key node).

(** ** Frames as fields *)

(** A frame by its fields; [ck] is the checksum slot. *)
Definition frame_of (tag subtype identity sequence : Z) (ck : bytes) (flags : Z) (body : bytes) : bytes :=
  ([tag; subtype] ++ digits 256 2 (24 + len body) ++ digits 256 8 identity ++ digits 256 4 sequence ++ ck ++
   digits 256 4 flags) ++ body.

Lemma length_prefix tag subtype n identity sequence ck flags : length ck = 4%nat →
  length ([tag; subtype] ++ digits 256 2 n ++ digits 256 8 identity ++ digits 256 4 sequence ++ ck ++ digits 256 4 flags) = 24%nat.
Proof. intros H. rewrite !length_app, !length_digits, H. done. Qed.

Section FrameOf.
Context (tag subtype identity sequence flags : Z) (ck body : bytes).
Context (Hck : length ck = 4%nat).
Notation F := (frame_of tag subtype identity sequence ck flags).

Lemma length_frame_of : length (F body) = (24 + length body)%nat.
Proof using Hck. unfold frame_of. by rewrite length_app, length_prefix. Qed.

Lemma len_frame_of : len (F body) = 24 + len body.
Proof using Hck. unfold len. rewrite length_frame_of. lia. Qed.

(** Writes in the body. *)
Lemma pack_body n off v : (off + n ≤ length body)%nat → 0 ≤ v < 256 ^ Z.of_nat n →
  pack_into n (F body) (24 + off) v = Ok (F (put off (digits 256 n v) body)).
Proof using Hck.
  intros Ho Hv. rewrite pack_into_put by (rewrite ?length_frame_of; lia || done). apply f_equal. unfold frame_of at 1.
  rewrite put_slice_set by (rewrite length_app, length_prefix, length_digits; lia). rewrite slice_set_app_r by (rewrite length_prefix; lia).
  rewrite length_prefix by done. unfold frame_of. f_equal.
  - do 2 f_equal. unfold len. rewrite length_put. done.
  - rewrite put_slice_set by (rewrite length_digits; lia). f_equal; lia.
Qed.

Lemma byte_body off v : (off < length body)%nat → 0 ≤ v < 256 →
  set_byte (F body) (24 + off) v = Ok (F (put off [v] body)).
Proof using Hck.
  intros Ho Hv. rewrite set_byte_put by (rewrite ?length_frame_of; lia). apply f_equal. unfold frame_of at 1.
  rewrite put_slice_set by (rewrite length_app, length_prefix; simpl; lia). rewrite slice_set_app_r by (rewrite length_prefix; lia).
  rewrite length_prefix by done. unfold frame_of. f_equal.
  - do 2 f_equal. unfold len. rewrite length_put. done.
  - rewrite put_slice_set by (simpl; lia). f_equal; simpl; lia.
Qed.

Lemma slice_body off e v : (off + length v ≤ length body)%nat → e = (24 + off + length v)%nat →
  slice_set (24 + off) e v (F body) = F (put off v body).
Proof using Hck.
  intros Ho ->. unfold frame_of at 1. rewrite slice_set_app_r by (rewrite length_prefix; lia).
  rewrite length_prefix by done. unfold frame_of. f_equal.
  - do 2 f_equal. unfold len. rewrite length_put. done.
  - rewrite put_slice_set by lia. f_equal; lia.
Qed.

Lemma set_tag t : 0 ≤ t < 256 → set_byte (F body) 0 t = Ok (frame_of t subtype identity sequence ck flags body).
Proof using Hck. intros H. rewrite set_byte_ok by (rewrite ?length_frame_of; lia). done. Qed.

(** The fields of a frame. *)
Lemma frame_fields : 0 ≤ flags < 2 ^ 32 → 24 + len body < 65536 →
  slice 0 16 (F body) = [tag; subtype] ++ digits 256 2 (24 + len body) ++ digits 256 8 identity ++ digits 256 4 sequence ∧
  unpack_from 2 (F body) 2 = Ok (24 + len body) ∧ slice 0x10 0x14 (F body) = ck ∧
  unpack_from 4 (F body) 0x14 = Ok flags ∧ drop 0x18 (F body) = body ∧
  F body !!! 0x16%nat = flags / 65536 mod 256.
Proof using Hck.
  intros Hf Hb. assert (0 ≤ len body) by (unfold len; lia). unfold frame_of.
  set (d2 := digits 256 2 _). set (d8 := digits 256 8 _). set (d4 := digits 256 4 sequence). set (fl := digits 256 4 flags).
  assert (length d2 = 2%nat ∧ length d8 = 8%nat ∧ length d4 = 4%nat ∧ length fl = 4%nat) as (L2 & L8 & L4 & Lf) by done.
  assert (∀ x, (([tag; subtype] ++ d2 ++ d8 ++ d4 ++ ck ++ fl) ++ x) =
    ([tag; subtype] ++ d2 ++ d8 ++ d4) ++ ck ++ fl ++ x) as E by (intros; by rewrite <-!app_assoc).
  assert (length ([tag; subtype] ++ d2 ++ d8 ++ d4) = 16%nat) as L16 by (rewrite !length_app, L2, L8, L4; done).
  split_and!.
  - rewrite E. by apply slice_all_prefix.
  - apply unpack_digits; [lia|eval_widths; lia|]. rewrite <-!app_assoc. apply (slice_mid 2 4 [tag; subtype] d2); done || lia.
  - rewrite E. apply slice_mid; done || lia.
  - apply unpack_digits; [lia|eval_widths; lia|]. rewrite E, (app_assoc _ ck). apply slice_mid; [rewrite length_app; lia|done|lia].
  - apply drop_app_length'. symmetry. by apply length_prefix.
  - rewrite E, (app_assoc _ ck). rewrite list_lookup_total_alt, lookup_app_r by (rewrite length_app; lia).
    rewrite length_app, L16, Hck. subst fl. simpl. by rewrite Z.div_div by lia.
Qed.
End FrameOf.

Lemma zeros_put_len n : len (zeros n) = Z.of_nat n.
Proof. unfold len, zeros. by rewrite length_replicate. Qed.

Lemma new_header_eq subtype n identity sequence flags : (24 ≤ n)%nat → Z.of_nat n < 65536 → 0 ≤ subtype < 256 →
  GuteFrame.new_header subtype n identity sequence flags =
    Ok (frame_of 0x7F subtype (Z.land identity 0xFFFFFFFFFFFFFFFF) (Z.land sequence 0xFFFFFFFF) (zeros 4)
          (Z.land flags 0xFFFFFFFF) (zeros (n - 24))).
Proof.
  intros Hn Hs Hb. unfold GuteFrame.new_header. cbv zeta.
  pose proof (land64_range identity). pose proof (land32_range sequence). pose proof (land32_range flags).
  set (i := Z.land identity _) in *. set (q := Z.land sequence _) in *. set (fl := Z.land flags _) in *.
  assert (zeros n = zeros 24 ++ zeros (n - 24)) as ->.
  { unfold zeros. rewrite <-replicate_add. f_equal. lia. }
  set (z := zeros (n - 24)). assert (length z = n - 24)%nat as Lz by apply length_replicate.
  change (zeros 24 ++ z) with ([0; 0] ++ [0; 0] ++ zeros 8 ++ zeros 4 ++ zeros 4 ++ zeros 4 ++ z).
  rewrite set_byte_ok by (rewrite ?length_app; simpl; lia). bind_simpl.
  rewrite set_byte_ok by (simpl; lia). bind_simpl.
  change (<[1%nat:=subtype]> (<[0%nat:=127]> ([0; 0] ++ [0; 0] ++ zeros 8 ++ zeros 4 ++ zeros 4 ++ zeros 4 ++ z)))
    with ([127; subtype] ++ [0; 0] ++ zeros 8 ++ zeros 4 ++ zeros 4 ++ zeros 4 ++ z).
  rewrite pack_into_ok by first [eval_widths; lia | simpl; lia]. bind_simpl.
  rewrite (slice_set_mid 2 (2 + 2) _ [127; subtype] [0; 0]) by (done || lia).
  rewrite (app_assoc [127; subtype]). set (h2 := [127; subtype] ++ _).
  assert (length h2 = 4%nat) as L2 by done.
  rewrite pack_into_ok by first [eval_widths; lia | rewrite length_app, L2; simpl; lia]. bind_simpl.
  rewrite (slice_set_mid 4 (4 + 8) _ h2 (zeros 8)) by (done || lia). rewrite (app_assoc h2). set (h3 := h2 ++ digits 256 8 i).
  assert (length h3 = 12%nat) as L3 by done.
  rewrite pack_into_ok by first [eval_widths; lia | rewrite length_app, L3; simpl; lia]. bind_simpl.
  rewrite (slice_set_mid 0xC (0xC + 4) _ h3 (zeros 4)) by (done || lia). rewrite (app_assoc h3), (app_assoc _ (zeros 4)).
  set (h4 := (h3 ++ digits 256 4 q) ++ zeros 4). assert (length h4 = 20%nat) as L4 by done.
  rewrite pack_into_ok by first [eval_widths; lia | rewrite length_app, L4; simpl; lia].
  rewrite (slice_set_mid 0x14 (0x14 + 4) _ h4 (zeros 4)) by (done || lia). apply f_equal.
  unfold frame_of. subst z. rewrite zeros_put_len. replace (24 + Z.of_nat (n - 24)) with (Z.of_nat n) by lia.
  unfold h4, h3, h2. by rewrite <-!app_assoc.
Qed.

(** ** Flags *)

(** A word carries the flag bits above it. *)
Lemma lor_add a b k : 0 ≤ k → 0 ≤ a < 2 ^ k → 0 ≤ b → Z.lor a (b * 2 ^ k) = a + b * 2 ^ k.
Proof.
  intros Hk Ha Hb. rewrite <-Z.lxor_lor, <-Z.add_nocarry_lxor; [done| |];
    apply Z.bits_inj'; intros n Hn; rewrite Z.land_spec, Z.bits_0; destruct (Z.ltb_spec n k);
    try (rewrite (Z.mul_pow2_bits_low b) by lia; apply andb_false_r);
    rewrite <-(Z.mod_small a (2 ^ k)), Z.mod_pow2_bits_high by lia; done.
Qed.

Lemma flags_value random mode proc : 0 ≤ mode < 4 → 0 ≤ proc < 4 →
  GuteFrame.randomized_flags random mode proc 0 = 2 * Z.land random 0x7FFF + 65536 * mode + 262144 * proc.
Proof.
  intros Hm Hp. unfold GuteFrame.randomized_flags. assert (∀ x, 0 ≤ x < 4 → Z.land x 3 = x) as E.
  { intros x Hx. change 3 with (Z.ones 2). rewrite Z.land_ones, Z.mod_small by lia. done. }
  rewrite !E by done. rewrite Z.lor_0_l, !Z.shiftl_mul_pow2 by lia.
  assert (0 ≤ Z.land random 0x7FFF < 32768) as Hr.
  { change 0x7FFF with (Z.ones 15). rewrite Z.land_ones by lia. by apply Z.mod_pos_bound. }
  set (r := Z.land random 0x7FFF) in *.
  rewrite (lor_add (r * 2 ^ 1) mode 16), (lor_add _ proc 18) by lia. lia.
Qed.

(** ** Sealing *)

Section Seal.
Context (tag subtype identity sequence flags : Z) (body : bytes).
Context (Htag : 0 ≤ tag < 256) (Hsub : 0 ≤ subtype < 256) (Hbody : bytes_ok body) (Hlen : 24 + len body < 65536).
Context (Hflags : 0 ≤ flags < 2 ^ 32).
Notation F ck := (frame_of tag subtype identity sequence ck flags body).

Lemma frame_of_bytes ck : bytes_ok ck → bytes_ok (F ck).
Proof using Htag Hsub Hbody.
  intros H. assert (bytes_ok [tag; subtype]) by (constructor; [done|constructor; [done|constructor]]).
  unfold frame_of. rewrite !bytes_ok_app. split_and!; auto with bytes.
Qed.

(** The bytes a frame encrypts, by the two options of its flags. *)
Definition covered_bytes : Z :=
  len body - (if Z.land flags (2 ^ 22) =? 0 then 0 else 0x50) - (if Z.land flags (2 ^ 24) =? 0 then 0 else 0x10).
Context (Hcovered : 0 ≤ covered_bytes).

Lemma covered_bound : covered_bytes ≤ len body.
Proof using. unfold covered_bytes. repeat destruct (_ =? 0); lia. Qed.

Lemma frame_data_len ck : length ck = 4%nat → GuteFrame.modern_encrypted_data_len (F ck) = Ok covered_bytes.
Proof using Hlen Hflags Hcovered.
  intros Hc. destruct (frame_fields tag subtype identity sequence flags ck body Hc Hflags Hlen) as (_ & E2 & _ & E14 & _ & _).
  unfold GuteFrame.modern_encrypted_data_len.
  pose proof (length_frame_of tag subtype identity sequence flags ck body Hc) as L.
  rewrite guard_pass by lia. rewrite E2, bind_ret. rewrite (len_frame_of tag subtype identity sequence flags ck body Hc).
  rewrite guard_pass by lia.
  rewrite E14, bind_ret. cbv zeta. rewrite !Z.shiftl_1_l. unfold covered_bytes in *. revert Hcovered.
  destruct (Z.land flags (2 ^ 22) =? 0), (Z.land flags (2 ^ 24) =? 0); cbn [negb]; intros; rewrite guard_pass by lia; f_equal; lia.
Qed.

(** The checksum covers the header and the bytes that are encrypted. *)
Lemma frame_xor_eq ck : length ck = 4%nat → GuteFrame.gute_mode1_xor_checksum (F ck) =
  Ok (Z.land (foldl (λ out off, Z.lxor out (undigits 256 (slice off (off + 4) (F ck))))
    (foldl (λ out off, Z.lxor out (undigits 256 (slice off (off + 4) (F ck)))) (Z.land flags 0xFFFFFF) [0; 4; 8; 0xC]%nat)
    ((λ i, 0x18 + i * 4)%nat <$> seq 0 (Z.to_nat (covered_bytes / 4)))) 0xFFFFFFFF).
Proof using Hlen Hflags Hcovered.
  intros Hc. destruct (frame_fields tag subtype identity sequence flags ck body Hc Hflags Hlen) as (_ & E2 & _ & E14 & _ & _).
  pose proof (length_frame_of tag subtype identity sequence flags ck body Hc) as L.
  unfold GuteFrame.gute_mode1_xor_checksum, GuteFrame.bad_length.
  destruct (Nat.ltb_spec (length (F ck)) 24) as [|_]; [lia|]. rewrite E2, bind_ret, bind_ret.
  rewrite (len_frame_of tag subtype identity sequence flags ck body Hc). rewrite guard_pass by lia. rewrite frame_data_len, bind_ret by done. rewrite E14, bind_ret. cbv zeta.
  rewrite (foldM_Ok _ (λ out off, Z.lxor out (undigits 256 (slice off (off + 4) (F ck))))), bind_ret.
  2:{ intros s a Ha. rewrite unpack_from_ok; [done|]. rewrite L. set_unfold in Ha. lia. }
  rewrite (foldM_Ok _ (λ out off, Z.lxor out (undigits 256 (slice off (off + 4) (F ck))))), bind_ret; [done|].
  intros s a (i & -> & Hi)%list_elem_of_fmap. apply elem_of_seq in Hi. rewrite unpack_from_ok; [done|]. rewrite L.
  assert (covered_bytes / 4 * 4 ≤ covered_bytes) by (pose proof (Z.mul_div_le covered_bytes 4); lia).
  pose proof covered_bound. unfold len in *. lia.
Qed.

Lemma frame_xor ck : length ck = 4%nat → ∃ c, GuteFrame.gute_mode1_xor_checksum (F ck) = Ok c.
Proof using Hlen Hflags Hcovered. intros Hc. rewrite frame_xor_eq by done. by eexists. Qed.

(** A frame packed with its checksum. *)
Lemma pack_checksum ck c : length ck = 4%nat → 0 ≤ c < 2 ^ 32 →
  pack_into 4 (F ck) 0x10 c = Ok (F (digits 256 4 c)).
Proof using.
  intros Hc Hr. rewrite pack_into_ok by (eval_widths; rewrite ?(length_frame_of tag subtype identity sequence flags ck body Hc); lia).
  apply f_equal. unfold frame_of. rewrite <-!app_assoc.
  rewrite (app_assoc (digits 256 8 identity)), (app_assoc (digits 256 2 _)), (app_assoc [tag; subtype]).
  rewrite (slice_set_mid 0x10 (0x10 + 4) _ _ ck) by (done || lia). by rewrite <-!app_assoc.
Qed.

(** [decrypt] opens [wire] to a frame with these fields and a valid checksum. *)
Definition opens (decrypt : bytes → result bytes) (wire : bytes) : Prop := ∃ plain,
  decrypt wire = Ok plain ∧ length wire = (24 + length body)%nat ∧
  GuteFrame.gute_mode1_xor_checksum plain = unpack_from 4 plain 0x10 ∧
  slice 0 16 plain = [tag; subtype] ++ digits 256 2 (24 + len body) ++ digits 256 8 identity ++ digits 256 4 sequence ∧
  unpack_from 4 plain 0x14 = Ok flags ∧ drop 0x18 plain = body.

Lemma opens_frame decrypt wire ck c : length ck = 4%nat → GuteFrame.gute_mode1_xor_checksum (F ck) = Ok c →
  decrypt wire = Ok (F (digits 256 4 c)) → length wire = (24 + length body)%nat → opens decrypt wire.
Proof using Hlen Hflags.
  intros Hc Ec Ed Lw. pose proof (GuteFrame.xor_checksum_bound _ _ Ec) as Hr.
  assert (length (digits 256 4 c) = 4%nat) as Ld by done.
  destruct (frame_fields tag subtype identity sequence flags (digits 256 4 c) body Ld Hflags Hlen) as (E0 & _ & E10 & E14 & E18 & _).
  exists (F (digits 256 4 c)). split_and!; [done|done| |done|done|done].
  destruct (GuteFrame.sealed (F ck) (F (digits 256 4 c)) c) as [-> _].
  - done.
  - apply pack_checksum; [done|]. revert Hr. eval_widths. lia.
  - done.
Qed.

Lemma check_frame_of ck mode msg : length ck = 4%nat → flags / 65536 mod 4 = mode →
  GuteFrame.check_frame (F ck) mode msg = Ok tt.
Proof using Hlen Hflags.
  intros Hc Hm. destruct (frame_fields tag subtype identity sequence flags ck body Hc Hflags Hlen) as (_ & E2 & _ & _ & _ & E16).
  pose proof (length_frame_of tag subtype identity sequence flags ck body Hc) as L.
  unfold GuteFrame.check_frame, GuteFrame.bad_length. destruct (Nat.ltb_spec (length (F ck)) 24) as [|_]; [lia|].
  rewrite E2, bind_ret, bind_ret. rewrite (len_frame_of tag subtype identity sequence flags ck body Hc). rewrite guard_pass by lia.
  rewrite index_ok, bind_ret by (rewrite L; lia). rewrite E16. change 3 with (Z.ones 2). rewrite Z.land_ones by lia.
  unfold raise_if. replace (_ mod 2 ^ 2) with mode; [by rewrite Z.eqb_refl|]. rewrite <-Hm.
  change (2 ^ 2) with 4. rewrite (Z.mod_mod_divide _ 256 4); [done|by exists 64].
Qed.

Lemma seal_mode2 ck key : length ck = 4%nat → bytes_ok ck → length key = 32%nat → flags / 65536 mod 4 = 2 →
  ∃ wire, GuteFrame.finish_mode2 (F ck) key = Ok wire ∧ bytes_ok wire ∧ opens (λ w, GuteFrame.gute_mode2_decrypt w key) wire.
Proof using Htag Hsub Hbody Hlen Hflags Hcovered.
  intros Hc Hcb Hk Hm. destruct (frame_xor ck Hc) as [c Ec]. pose proof (GuteFrame.xor_checksum_bound _ _ Ec) as Hr.
  unfold GuteFrame.finish_mode2. rewrite Ec, bind_ret, pack_checksum, bind_ret by (revert Hr; eval_widths; (done || lia)).
  set (ck' := digits 256 4 c). assert (length ck' = 4%nat) as Lc by done.
  assert (bytes_ok (F ck')) as Hb by (apply frame_of_bytes; subst ck'; auto with bytes).
  destruct (GuteFrame.init32 key) as (rc & Erc & Hrc). destruct (GuteFrame.init32 GuteFrame.BASE_SESSION_KEY) as (base & Ebase & Hbase).
  pose proof (length_frame_of tag subtype identity sequence flags ck' body Lc) as L.
  pose proof (GuteFrame.encode_spec rc base Hrc Hbase Ebase (F ck') _ Hb (frame_data_len ck' Lc)) as Eenc.
  pose proof (GuteFrame.encode_total (F ck') Hb ltac:(lia) rc Hrc) as Ht. rewrite Eenc in Ht. destruct Ht as [Hwb Hwl].
  set (w := GuteFrame.join _) in *. exists w.
  assert (GuteFrame.gute_mode2_encrypt (F ck') key = Ok w) as Eencrypt.
  { unfold GuteFrame.gute_mode2_encrypt. rewrite Hk. rewrite guard_pass by done.
    rewrite check_frame_of, bind_ret, Erc, bind_ret by done. exact Eenc. }
  split; [done|]. split; [done|]. eapply opens_frame; [exact Hc|exact Ec| |lia].
  by apply (GuteFrame.mode2_inverse _ _ key Hb Hwb).
Qed.

(** A mode-1 frame is encrypted, and decryption gives it back. *)
Lemma mode1_wire ck : length ck = 4%nat → bytes_ok ck → flags / 65536 mod 4 = 1 →
  ∃ wire, GuteFrame.gute_mode1_encrypt (F ck) = Ok wire ∧ bytes_ok wire ∧ length wire = (24 + length body)%nat ∧
    GuteFrame.gute_mode1_decrypt wire = Ok (F ck).
Proof using Htag Hsub Hbody Hlen Hflags Hcovered.
  intros Lc Hcb Hm. assert (bytes_ok (F ck)) as Hb by by apply frame_of_bytes.
  destruct (GuteFrame.init32 (GuteFrame.mode_key (F ck))) as (rc & Erc & Hrc).
  destruct (GuteFrame.init32 GuteFrame.BASE_SESSION_KEY) as (base & Ebase & Hbase).
  pose proof (length_frame_of tag subtype identity sequence flags ck body Lc) as L.
  pose proof (GuteFrame.encode_spec rc base Hrc Hbase Ebase (F ck) _ Hb (frame_data_len ck Lc)) as Eenc.
  pose proof (GuteFrame.encode_total (F ck) Hb ltac:(lia) rc Hrc) as Ht. rewrite Eenc in Ht. destruct Ht as [Hwb Hwl].
  set (w := GuteFrame.join _) in *. exists w.
  assert (GuteFrame.gute_mode1_encrypt (F ck) = Ok w) as Eencrypt.
  { unfold GuteFrame.gute_mode1_encrypt. rewrite check_frame_of, bind_ret, Erc, bind_ret by done. exact Eenc. }
  split_and!; [done|done|lia|]. by apply (GuteFrame.mode1_inverse _ _ Hb Hwb).
Qed.

Lemma seal_mode1 ck : length ck = 4%nat → bytes_ok ck → flags / 65536 mod 4 = 1 →
  ∃ wire, GuteFrame.finish_mode1 (F ck) = Ok wire ∧ bytes_ok wire ∧ opens GuteFrame.gute_mode1_decrypt wire.
Proof using Htag Hsub Hbody Hlen Hflags Hcovered.
  intros Hc Hcb Hm. destruct (frame_xor ck Hc) as [c Ec]. pose proof (GuteFrame.xor_checksum_bound _ _ Ec) as Hr.
  unfold GuteFrame.finish_mode1. rewrite Ec, bind_ret, pack_checksum, bind_ret by (revert Hr; eval_widths; (done || lia)).
  destruct (mode1_wire (digits 256 4 c)) as (w & Ew & Hwb & Lw & Ed); [done|auto with bytes|done|].
  exists w. split; [done|]. split; [done|]. by eapply opens_frame.
Qed.
End Seal.

Lemma covered_all flags body : Z.land flags (2 ^ 22) = 0 → Z.land flags (2 ^ 24) = 0 → 0 ≤ covered_bytes flags body.
Proof. intros H22 H24. unfold covered_bytes. rewrite H22, H24. cbn. unfold len. lia. Qed.

(** Two frames that differ past the covered bytes have the same checksum. *)
Lemma xor_covered tag subtype identity sequence flags pre b1 b2 ck : length ck = 4%nat → length b1 = length b2 →
  24 + len (pre ++ b1) < 65536 → 0 ≤ flags < 2 ^ 32 → 0 ≤ covered_bytes flags (pre ++ b1) ≤ len pre →
  GuteFrame.gute_mode1_xor_checksum (frame_of tag subtype identity sequence ck flags (pre ++ b1)) =
  GuteFrame.gute_mode1_xor_checksum (frame_of tag subtype identity sequence ck flags (pre ++ b2)).
Proof.
  intros Hc Hb Hl Hf Hcov. assert (len (pre ++ b2) = len (pre ++ b1)) as L by (unfold len; rewrite !length_app; lia).
  assert (covered_bytes flags (pre ++ b2) = covered_bytes flags (pre ++ b1)) as Ecov by (unfold covered_bytes; by rewrite L).
  rewrite !frame_xor_eq by (rewrite ?Ecov, ?L; lia || done). rewrite Ecov.
  unfold frame_of. rewrite L. set (hd := [tag; subtype] ++ _).
  assert (length hd = 24%nat) as Lh by (subst hd; rewrite !length_app, Hc, !length_digits; done).
  assert (∀ b off, (off + 4 ≤ 24 + length pre)%nat → slice off (off + 4) (hd ++ pre ++ b) = slice off (off + 4) (hd ++ pre)) as Es.
  { intros b off Ho. rewrite app_assoc. apply slice_app_l. rewrite length_app. lia. }
  set (n := Z.to_nat _). assert (4 * n ≤ length pre)%nat as Hn.
  { subst n. unfold len in Hcov. pose proof (Z.mul_div_le (covered_bytes flags (pre ++ b1)) 4). lia. }
  apply f_equal, (f_equal (λ x, Z.land x _)).
  assert (∀ (l : list nat) x, (∀ off, off ∈ l → (off + 4 ≤ 24 + length pre)%nat) →
    foldl (λ out off, Z.lxor out (undigits 256 (slice off (off + 4) (hd ++ pre ++ b1)))) x l =
    foldl (λ out off, Z.lxor out (undigits 256 (slice off (off + 4) (hd ++ pre ++ b2)))) x l) as Hfold.
  { induction l as [|o l IH]; intros x Hin; [done|]. cbn [foldl]. rewrite !Es by (apply Hin; set_solver).
    apply IH. intros o' Ho'. apply Hin. set_solver. }
  rewrite (Hfold [0; 4; 8; 0xC]%nat).
  - apply Hfold. intros off (i & -> & Hi)%list_elem_of_fmap. apply elem_of_seq in Hi. lia.
  - intros off Ho. set_unfold in Ho. lia.
Qed.

(** ** Builders *)

(** The mode-2 frame of a session, opened by its key. *)
Definition session_frame (node : CertifiedNode) (subtype sequence flags : Z) (body wire : bytes) : Prop :=
  opens 0x7E subtype (Z.land (session_id node) 0xFFFFFFFFFFFFFFFF) sequence flags body
    (λ w, GuteFrame.gute_mode2_decrypt w (session_key node)) wire.

(** The flags the builders use: a random word, a mode and a processing class. *)
Lemma flags_ok random mode proc : 0 ≤ mode < 4 → 0 ≤ proc < 4 →
  let fl := GuteFrame.randomized_flags random mode proc 0 in
  Z.land fl 0xFFFFFFFF = fl ∧ 0 ≤ fl < 2 ^ 32 ∧ Z.land fl (2 ^ 22) = 0 ∧ Z.land fl (2 ^ 24) = 0 ∧ fl / 65536 mod 4 = mode.
Proof.
  intros Hm Hp. cbv zeta. rewrite flags_value by done.
  assert (0 ≤ Z.land random 0x7FFF < 32768) as Hr.
  { change 0x7FFF with (Z.ones 15). rewrite Z.land_ones by lia. by apply Z.mod_pos_bound. }
  set (r := Z.land random 0x7FFF) in *. set (fl := 2 * r + 65536 * mode + 262144 * proc).
  assert (0 ≤ fl < 2 ^ 20) by (subst fl; lia). split_and!; try (apply ConnAuth.land_pow2_small; lia); try lia.
  - change 0xFFFFFFFF with (Z.ones 32). rewrite Z.land_ones by lia. apply Z.mod_small. lia.
  - subst fl. replace (2 * r + 65536 * mode + 262144 * proc) with (2 * r + (mode + proc * 4) * 65536) by lia.
    rewrite Z.div_add, Z.div_small, Z.add_0_l, Z.mod_add, Z.mod_small by lia. done.
Qed.

Lemma masked32 x : 0 ≤ x < 2 ^ 32 → Z.land x 0xFFFFFFFF = x.
Proof. intros H. change 0xFFFFFFFF with (Z.ones 32). rewrite Z.land_ones by lia. by apply Z.mod_small. Qed.

Lemma masked64 x : 0 ≤ x < 2 ^ 64 → Z.land x 0xFFFFFFFFFFFFFFFF = x.
Proof. intros H. change 0xFFFFFFFFFFFFFFFF with (Z.ones 64). rewrite Z.land_ones by lia. by apply Z.mod_small. Qed.

Lemma land31_range x : 0 ≤ Z.land x 0x7FFFFFFF < 2 ^ 31.
Proof. change 0x7FFFFFFF with (Z.ones 31). rewrite Z.land_ones by lia. by apply Z.mod_pos_bound. Qed.

(** A header, its tag and its body writes, then the seal of mode 2. *)
Lemma session_seal node subtype sequence fl body : length (session_key node) = 32%nat → 0 ≤ subtype < 256 →
  bytes_ok body → 24 + len body < 65536 → 0 ≤ fl < 2 ^ 32 → Z.land fl (2 ^ 22) = 0 → Z.land fl (2 ^ 24) = 0 →
  fl / 65536 mod 4 = 2 →
  ∃ wire, GuteFrame.finish_mode2 (frame_of 0x7E subtype (Z.land (session_id node) 0xFFFFFFFFFFFFFFFF)
      (Z.land sequence 0xFFFFFFFF) (zeros 4) fl body) (session_key node) = Ok wire ∧ bytes_ok wire ∧
    session_frame node subtype (Z.land sequence 0xFFFFFFFF) fl body wire.
Proof. intros. apply seal_mode2; auto using covered_all with bytes; lia. Qed.

(** [body_write] turns the writes of a builder into writes of its body. *)
Ltac body_side := first [len_solve | eval_widths; lia | field_range | simpl; lia].
Ltac body_write :=
  first
  [ rewrite set_tag by (done || lia)
  | match goal with
    | |- context [pack_into ?n (frame_of ?t ?s ?i ?q ?ck ?fl ?b) ?off ?v] =>
        let o := eval vm_compute in (off - 24)%nat in
        let H := fresh in
        pose proof (pack_body t s i q fl ck b eq_refl n o v) as H;
        change (24 + o)%nat with off in H; rewrite H by body_side; clear H
    | |- context [set_byte (frame_of ?t ?s ?i ?q ?ck ?fl ?b) ?off ?v] =>
        let o := eval vm_compute in (off - 24)%nat in
        let H := fresh in
        pose proof (byte_body t s i q fl ck b eq_refl o v) as H;
        change (24 + o)%nat with off in H; rewrite H by body_side; clear H
    | |- context [slice_set ?a ?e ?v (frame_of ?t ?s ?i ?q ?ck ?fl ?b)] =>
        let o := eval vm_compute in (a - 24)%nat in
        let H := fresh in
        pose proof (slice_body t s i q fl ck b eq_refl o e v) as H;
        change (24 + o)%nat with a in H; rewrite H by body_side; clear H
    end ];
  bind_simpl.

Lemma mode2_ack_ok node response : length (session_key node) = 32%nat → bytes_ok response → (16 ≤ length response)%nat →
  ∃ wire, build_mode2_response_ack node response = Ok wire ∧ length wire = 32%nat ∧
    session_frame node (response !!! 1%nat) (undigits 256 (slice 0xC 0x10 response)) (2 ^ 20 + 2 * 2 ^ 16)
      (digits 256 4 4 ++ zeros 4) wire.
Proof.
  intros Hk Hb Hl. unfold build_mode2_response_ack. rewrite index_ok, bind_ret by lia.
  rewrite (unpack_from_ok 4 response 0xC), bind_ret by lia.
  assert (0 ≤ response !!! 1%nat < 256) by (apply (list.Forall_lookup_total_1 (λ d, 0 ≤ d < 256) response); [done|lia]).
  rewrite new_header_eq by lia. bind_simpl. change (32 - 24)%nat with 8%nat. body_write. body_write.
  change (put 0 (digits 256 4 4) (zeros 8)) with (digits 256 4 4 ++ zeros 4).
  change (Z.land (Z.lor (Z.shiftl 1 20) (Z.shiftl 2 16)) 0xFFFFFFFF) with (2 ^ 20 + 2 * 2 ^ 16).
  destruct (session_seal node (response !!! 1%nat) (undigits 256 (slice 0xC 0x10 response)) (2 ^ 20 + 2 * 2 ^ 16)
    (digits 256 4 4 ++ zeros 4) Hk) as (w & Ew & Hw & Ho); try done; try lia; try bytes_concrete.
  rewrite masked32 in Ho.
  - exists w. split; [done|]. split; [|done]. destruct Ho as (? & _ & -> & _). done.
  - pose proof (le_bound 4 (slice 0xC 0x10 response)). eval_widths. apply H0; [auto with bytes|rewrite length_slice; lia].
Qed.

(** Mode-1 frames, opened without a session. *)
Definition open_frame (tag subtype identity sequence flags : Z) (body wire : bytes) : Prop :=
  opens tag subtype identity sequence flags body GuteFrame.gute_mode1_decrypt wire.

Lemma list_query_ok access_id sequence random : ∃ wire, build_list_query access_id sequence random = Ok wire ∧
  open_frame 0x7F 0x15 (Z.land access_id 0xFFFFFFFFFFFFFFFF) (Z.land sequence 0xFFFFFFFF)
    (GuteFrame.randomized_flags random 1 0 0) (digits 256 4 1 ++ zeros 12) wire.
Proof.
  destruct (flags_ok random 1 0 ltac:(lia) ltac:(lia)) as (Hm & Hr & H22 & H24 & Hmode).
  unfold build_list_query. set (fl := GuteFrame.randomized_flags random 1 0 0) in *.
  rewrite new_header_eq by lia. bind_simpl. rewrite Hm. change (40 - 24)%nat with 16%nat. body_write.
  change (put 0 (digits 256 4 1) (zeros 16)) with (digits 256 4 1 ++ zeros 12).
  destruct (seal_mode1 0x7F 0x15 (Z.land access_id 0xFFFFFFFFFFFFFFFF) (Z.land sequence 0xFFFFFFFF) fl (digits 256 4 1 ++ zeros 12)
    ltac:(lia) ltac:(lia) ltac:(bytes_concrete) eq_refl Hr (covered_all _ _ H22 H24) (zeros 4) eq_refl ltac:(bytes_concrete) Hmode) as (w & Ew & _ & Ho).
  by exists w.
Qed.

Lemma nat_probe_ok access_id sequence random millis : ∃ wire, build_nat_probe access_id sequence random millis = Ok wire ∧
  open_frame 0x7F 0x01 (Z.land access_id 0xFFFFFFFFFFFFFFFF) (Z.land sequence 0xFFFFFFFF)
    (GuteFrame.randomized_flags random 1 0 0)
    (digits 256 4 2 ++ digits 256 4 (Z.land millis 0xFFFFFFFF) ++ zeros 36) wire.
Proof.
  destruct (flags_ok random 1 0 ltac:(lia) ltac:(lia)) as (Hm & Hr & H22 & H24 & Hmode).
  unfold build_nat_probe. set (fl := GuteFrame.randomized_flags random 1 0 0) in *.
  rewrite new_header_eq by lia. bind_simpl. rewrite Hm. change (68 - 24)%nat with 44%nat.
  pose proof (land32_range millis) as Hms. set (ms := Z.land millis 0xFFFFFFFF) in *. body_write. body_write.
  set (body := digits 256 4 2 ++ digits 256 4 ms ++ zeros 36).
  change (put 4 (digits 256 4 ms) (put 0 (digits 256 4 2) (zeros 44))) with body.
  assert (bytes_ok body) as Hb by (subst body; rewrite !bytes_ok_app; split_and!; auto with bytes).
  destruct (seal_mode1 0x7F 0x01 (Z.land access_id 0xFFFFFFFFFFFFFFFF) (Z.land sequence 0xFFFFFFFF) fl body
    ltac:(lia) ltac:(lia) Hb eq_refl Hr (covered_all _ _ H22 H24) (zeros 4) eq_refl ltac:(bytes_concrete) Hmode) as (w & Ew & _ & Ho).
  by exists w.
Qed.

Lemma init_info_ok node random : length (session_key node) = 32%nat → ∃ wire, build_init_info node random = Ok wire ∧
  session_frame node 0xA6 (Z.land (next_sequence node) 0xFFFFFFFF) (GuteFrame.randomized_flags random 2 3 0)
    (digits 256 2 0x3E ++ [0; 2] ++ zeros 4 ++ digits 256 4 0x28000000 ++ zeros 25 ++ [0x11]) wire.
Proof.
  intros Hk. destruct (flags_ok random 2 3 ltac:(lia) ltac:(lia)) as (Hm & Hr & H22 & H24 & Hmode).
  unfold build_init_info. set (fl := GuteFrame.randomized_flags random 2 3 0) in *.
  rewrite new_header_eq by lia. bind_simpl. rewrite Hm. change (62 - 24)%nat with 38%nat. body_write. body_write. body_write. body_write.
  cbv zeta. body_write. match goal with |- context [frame_of _ _ _ _ _ _ ?b] => set (body := b) end.
  change (digits 256 2 0x3E ++ [0; 2] ++ zeros 4 ++ digits 256 4 0x28000000 ++ zeros 25 ++ [0x11]) with body.
  destruct (session_seal node 0xA6 (next_sequence node) fl body Hk ltac:(lia) ltac:(subst body; bytes_concrete) eq_refl Hr H22 H24 Hmode)
    as (w & Ew & _ & Ho). by exists w.
Qed.

Lemma heartbeat_ok node ip port random : length (session_key node) = 32%nat → length ip = 4%nat → bytes_ok ip →
  0 ≤ port < 65536 → ∃ wire, build_heartbeat node ip port random = Ok wire ∧
  session_frame node 0xA0 (Z.land (next_sequence node) 0xFFFFFFFF) (GuteFrame.randomized_flags random 2 2 0)
    (digits 256 2 2 ++ digits 256 2 port ++ ip ++ [0; 1] ++ zeros 10 ++ digits 256 4 1) wire.
Proof.
  intros Hk Hip Hipb Hport. destruct (flags_ok random 2 2 ltac:(lia) ltac:(lia)) as (Hm & Hr & H22 & H24 & Hmode).
  unfold build_heartbeat. set (fl := GuteFrame.randomized_flags random 2 2 0) in *.
  rewrite new_header_eq by lia. bind_simpl. rewrite Hm. change (48 - 24)%nat with 24%nat. body_write. body_write. body_write.
  cbv zeta. body_write. body_write. body_write. set (body := digits 256 2 2 ++ _).
  match goal with |- context [frame_of _ _ _ _ _ _ ?b] => replace b with body end.
  2:{ subst body. destruct ip as [|a [|b [|c [|d [|]]]]]; try done. }
  assert (bytes_ok body) as Hb by (subst body; rewrite !bytes_ok_app; split_and!; auto with bytes; bytes_concrete).
  assert (len body = 24) as Lb by (subst body; unfold len; rewrite !length_app, Hip; done).
  destruct (session_seal node 0xA0 (next_sequence node) fl body Hk ltac:(lia) Hb ltac:(lia) Hr H22 H24 Hmode)
    as (w & Ew & _ & Ho). by exists w.
Qed.

Lemma term_dns_ok node term random : length (session_key node) = 32%nat → Forall (λ c, 0 ≤ c < 128) term →
  len term ≤ 0x8000 → ∃ wire, build_term_dns node term random = Ok wire ∧
  session_frame node 0xDB (Z.land (next_sequence node) 0xFFFFFFFF) (GuteFrame.randomized_flags random 2 1 0)
    (digits 256 2 (len term) ++ [0; 0] ++ term ++ [0]) wire.
Proof.
  intros Hk Ht Hl. destruct (flags_ok random 2 1 ltac:(lia) ltac:(lia)) as (Hm & Hr & H22 & H24 & Hmode).
  unfold build_term_dns, encode_ascii. rewrite guard_pass.
  2:{ apply negb_false_iff, forallb_forall. intros c Hc%list_elem_of_In. rewrite list.Forall_forall in Ht. specialize (Ht c Hc). lia. }
  rewrite bind_ret. set (fl := GuteFrame.randomized_flags random 2 1 0) in *.
  assert (len term = Z.of_nat (length term)) as Elen by done.
  rewrite new_header_eq by lia. bind_simpl. rewrite Hm. replace (28 + length term + 1 - 24)%nat with (4 + length term + 1)%nat by lia.
  assert (length (zeros (4 + length term + 1)) = 4 + length term + 1)%nat as Lz by apply length_replicate.
  body_write. body_write. cbv zeta. body_write. set (body := digits 256 2 _ ++ _).
  replace (put 4 term _) with body.
  2:{ unfold zeros. rewrite !replicate_add. fold (zeros 4) (zeros (length term)) (zeros 1).
      change (zeros 4) with ([0; 0] ++ [0; 0]). subst body. rewrite <-!app_assoc.
      rewrite (put_slice_set 0 (digits 256 2 (len term))) by (rewrite length_digits; simpl; lia).
      rewrite length_digits. change (0 + 2)%nat with 2%nat.
      match goal with |- context [slice_set 0 2 ?v ?l] => change l with ([] ++ l) end.
      rewrite (slice_set_mid 0 2 _ [] [0; 0]) by (done || lia). rewrite app_nil_l.
      rewrite (put_slice_set 4 term) by (rewrite !length_app; unfold zeros; rewrite length_replicate; simpl; lia).
      rewrite (app_assoc (digits 256 2 _) [0; 0] (zeros (length term) ++ _)).
      rewrite (slice_set_mid 4 (4 + length term) term _ (zeros (length term))) by (unfold zeros; rewrite ?length_replicate; done || lia).
      by rewrite <-app_assoc. }
  assert (bytes_ok term) as Htb by (eapply list.Forall_impl; [exact Ht|]; simpl; lia).
  assert (bytes_ok body) as Hb by (subst body; rewrite !bytes_ok_app; split_and!; auto with bytes; bytes_concrete).
  assert (len body = 4 + len term + 1) as Lb by (subst body; unfold len; rewrite !length_app, length_digits; simpl; lia).
  destruct (session_seal node 0xDB (next_sequence node) fl body Hk ltac:(lia) Hb ltac:(unfold len in *; lia) Hr H22 H24 Hmode)
    as (w & Ew & _ & Ho). by exists w.
Qed.

Lemma land_bit x k : 0 ≤ k → Z.land x (2 ^ k) = if Z.testbit x k then 2 ^ k else 0.
Proof.
  intros Hk. apply Z.bits_inj'. intros n Hn. rewrite Z.land_spec, Z.pow2_bits_eqb by lia.
  destruct (Z.eqb_spec k n) as [<-|Hne]; [|rewrite andb_false_r; destruct (Z.testbit x k); [rewrite Z.pow2_bits_false by lia|rewrite Z.bits_0]; done].
  rewrite andb_true_r. destruct (Z.testbit x k) eqn:E; [by rewrite Z.pow2_bits_true|by rewrite Z.bits_0].
Qed.

(** The flags of an acknowledgement: one option of the response is copied. *)
Definition ack_flags (response_flags : Z) : Z := 2 ^ 20 + 2 ^ 16 + Z.land response_flags (2 ^ 25).

Lemma ack_flags_ok x : let fl := ack_flags x in
  Z.land (Z.lor (Z.lor (Z.shiftl 1 20) (Z.shiftl 1 16)) (Z.land x (Z.shiftl 1 25))) 0xFFFFFFFF = fl ∧ 0 ≤ fl < 2 ^ 32 ∧
  Z.land fl (2 ^ 22) = 0 ∧ Z.land fl (2 ^ 24) = 0 ∧ fl / 65536 mod 4 = 1.
Proof.
  unfold ack_flags. change (Z.shiftl 1 25) with (2 ^ 25). rewrite land_bit by lia. by destruct (Z.testbit x 25).
Qed.

Lemma mode1_ack_ok node response fl : bytes_ok response → (0x18 ≤ length response)%nat → unpack_from 4 response 0x14 = Ok fl →
  ∃ wire, build_mode1_response_ack node response = Ok wire ∧
    open_frame 0x7E (response !!! 1%nat) (Z.land (session_id node) 0xFFFFFFFFFFFFFFFF) (undigits 256 (slice 0xC 0x10 response))
      (ack_flags fl) (digits 256 4 4 ++ zeros 4) wire.
Proof.
  intros Hb Hl Ef. unfold build_mode1_response_ack. rewrite Ef, bind_ret. rewrite index_ok, bind_ret by lia.
  destruct (unpack_from_field 4 response 0xC) as (q & Eq & Hq & Dq); [done|lia|]. rewrite Eq, bind_ret.
  rewrite unpack_from_ok in Eq by lia. injection Eq as Eq. change (0xC + 4)%nat with 0x10%nat in Eq. rewrite Eq.
  assert (0 ≤ response !!! 1%nat < 256) as Hsub by (apply (list.Forall_lookup_total_1 (λ d, 0 ≤ d < 256) response); [done|lia]).
  destruct (ack_flags_ok fl) as (Em & Hr & H22 & H24 & Hmode).
  rewrite new_header_eq by lia. bind_simpl. rewrite Em. change (32 - 24)%nat with 8%nat. body_write. body_write.
  change (put 0 (digits 256 4 4) (zeros 8)) with (digits 256 4 4 ++ zeros 4).
  rewrite (masked32 q) by (eval_widths; lia).
  destruct (seal_mode1 0x7E (response !!! 1%nat) (Z.land (session_id node) 0xFFFFFFFFFFFFFFFF) q (ack_flags fl) (digits 256 4 4 ++ zeros 4)
    ltac:(lia) Hsub ltac:(bytes_concrete) eq_refl Hr (covered_all _ _ H22 H24) (zeros 4) eq_refl ltac:(bytes_concrete) Hmode) as (w & Ew & _ & Ho).
  by exists w.
Qed.

Lemma certification_ack_ok response : bytes_ok response → (0x10 ≤ length response)%nat →
  ∃ wire, build_certification_ack response = Ok wire ∧
    open_frame 0x7F 0x0D (undigits 256 (slice 4 12 response)) (undigits 256 (slice 0xC 0x10 response)) (2 ^ 20 + 2 ^ 16)
      (digits 256 4 4 ++ zeros 4) wire.
Proof.
  intros Hb Hl. unfold build_certification_ack.
  destruct (unpack_from_field 8 response 4) as (i & Ei & Hi & _); [done|lia|]. rewrite Ei, bind_ret.
  destruct (unpack_from_field 4 response 0xC) as (q & Eq & Hq & _); [done|lia|]. rewrite Eq, bind_ret.
  rewrite unpack_from_ok in Ei, Eq by lia. injection Ei as Ei. injection Eq as Eq.
  change (0xC + 4)%nat with 0x10%nat in Eq. change (4 + 8)%nat with 12%nat in Ei. rewrite Ei, Eq.
  rewrite new_header_eq by lia. bind_simpl. change (32 - 24)%nat with 8%nat. body_write.
  change (put 0 (digits 256 4 4) (zeros 8)) with (digits 256 4 4 ++ zeros 4).
  change (Z.land (Z.lor (Z.shiftl 1 20) (Z.shiftl 1 16)) 0xFFFFFFFF) with (2 ^ 20 + 2 ^ 16).
  rewrite (masked32 q), (masked64 i) by (eval_widths; lia).
  destruct (seal_mode1 0x7F 0x0D i q (2 ^ 20 + 2 ^ 16) (digits 256 4 4 ++ zeros 4)
    ltac:(lia) ltac:(lia) ltac:(bytes_concrete) eq_refl ltac:(lia) ltac:(vm_compute; discriminate) (zeros 4) eq_refl ltac:(bytes_concrete) eq_refl) as (w & Ew & _ & Ho).
  by exists w.
Qed.

Lemma put_mid a v pre mid post : length pre = a → length mid = length v → put a v (pre ++ mid ++ post) = pre ++ v ++ post.
Proof.
  intros <- Hm. rewrite put_slice_set by (rewrite !length_app; lia). apply slice_set_mid; lia.
Qed.

(** The flags of a certification request: both extensions, a random word. *)
Definition certification_flags (random : Z) : Z := 20 * 2 ^ 20 + GuteFrame.randomized_flags random 1 3 0.

Lemma certification_flags_ok random : let fl := certification_flags random in
  Z.land (GuteFrame.randomized_flags random 1 3 (Z.lor (Z.shiftl 1 22) (Z.shiftl 1 24))) 0xFFFFFFFF = fl ∧ 0 ≤ fl < 2 ^ 32 ∧
  Z.land fl (2 ^ 22) ≠ 0 ∧ Z.land fl (2 ^ 24) ≠ 0 ∧ fl / 65536 mod 4 = 1.
Proof.
  cbv zeta. destruct (flags_ok random 1 3 ltac:(lia) ltac:(lia)) as (_ & _ & _ & _ & Hmode).
  assert (0 ≤ GuteFrame.randomized_flags random 1 3 0 < 2 ^ 20) as Hr.
  { rewrite flags_value by lia. assert (0 ≤ Z.land random 0x7FFF < 32768); [|lia].
    change 0x7FFF with (Z.ones 15). rewrite Z.land_ones by lia. by apply Z.mod_pos_bound. }
  assert (GuteFrame.randomized_flags random 1 3 (Z.lor (Z.shiftl 1 22) (Z.shiftl 1 24)) = certification_flags random) as ->.
  { unfold certification_flags. rewrite Z.add_comm, <-(lor_add _ 20 20) by lia. unfold GuteFrame.randomized_flags.
    rewrite Z.lor_0_l. change (Z.lor (Z.shiftl 1 22) (Z.shiftl 1 24)) with (20 * 2 ^ 20). by rewrite (Z.lor_comm _ (20 * 2 ^ 20)), <-!Z.lor_assoc. }
  assert (∀ k, (k = 22 ∨ k = 24) → Z.land (certification_flags random) (2 ^ k) ≠ 0) as Hbit.
  { intros k Hk. rewrite land_bit by lia. unfold certification_flags. rewrite Z.add_comm, <-(lor_add _ 20 20) by lia.
    rewrite Z.lor_spec. destruct Hk as [-> | ->]; by rewrite (orb_true_r (Z.testbit _ _)). }
  unfold certification_flags in *. set (r := GuteFrame.randomized_flags random 1 3 0) in *.
  split_and!; [by apply masked32; lia|lia|lia|by apply Hbit; left|by apply Hbit; right|].
  rewrite <-Hmode. replace (20 * 2 ^ 20 + r) with (r + 320 * 65536) by lia. rewrite Z.div_add by lia.
  change 320 with (80 * 4). by rewrite Z.mod_add.
Qed.

Lemma hash_string_range data : 0 ≤ GuteFrame.hash_string data < 2 ^ 32.
Proof. unfold GuteFrame.hash_string. apply ConnAuth.fold_u32; [done|]. intros a x. apply ConnAuth.u32_range. Qed.

(** The wrapped key is the session key under the RC5 of the token's tail. *)
Definition wraps (session_key access_token wrapped : bytes) : Prop := ∃ c, Rc5.init (slice 48 64 access_token) 6 64 = Ok c ∧
  length wrapped = 32%nat ∧
  Rc5.decrypt_block c (slice 0 16 wrapped) = Ok (slice 0 16 session_key) ∧
  Rc5.decrypt_block c (slice 16 32 wrapped) = Ok (slice 16 32 session_key).

Lemma wrap_key_ok session_key access_token : length session_key = 32%nat → bytes_ok session_key →
  ∃ wrapped, _wrap_certification_key session_key access_token = Ok wrapped ∧ bytes_ok wrapped ∧ wraps session_key access_token wrapped.
Proof.
  intros Hk Hb. unfold _wrap_certification_key, wraps. rewrite Hk. change ((32 + 15) / 16)%nat with 2%nat.
  set (c := Rc5.mkRC5 64 6 (Rc5._expand 64 6 (slice 48 64 access_token) (Rc5.magic_P 64) (Rc5.magic_Q 64))).
  change (Rc5.init (slice 48 64 access_token) 6 64) with (Ok c : result Rc5.RC5). rewrite bind_ret.
  assert (Rc5.word_size (Rc5.w c)) as Hw by (right; by right).
  destruct (Rc5.decrypt_encrypt_block c (slice 0 16 session_key)) as (a & Ea & Ba & La & Da); [done|auto with bytes|change (2 * _)%nat with 16%nat; rewrite length_slice; lia|].
  destruct (Rc5.decrypt_encrypt_block c (slice 16 32 session_key)) as (b & Eb & Bb & Lb & Db); [done|auto with bytes|change (2 * _)%nat with 16%nat; rewrite length_slice; lia|].
  rewrite length_slice in La, Lb. exists (a ++ b).
  change (seq 0 2) with [0%nat; 1%nat]. cbn [foldM]. change (0 * 16)%nat with 0%nat. change (1 * 16)%nat with 16%nat.
  change (0 + 16)%nat with 16%nat. change (16 + 16)%nat with 32%nat. rewrite Ea, !bind_ret, Eb, !bind_ret, app_nil_l.
  split; [done|]. split; [by apply bytes_ok_app|]. exists c. split; [done|]. split; [rewrite length_app; lia|].
  rewrite (slice_all_prefix 16 a) by lia.
  pose proof (slice_mid 16 32 a b [] ltac:(lia) ltac:(lia) ltac:(lia)) as Es. rewrite app_nil_r in Es. by rewrite Es.
Qed.

(** The body of a certification request: the connection-auth blob is last. *)
Definition certification_head (session_key wrapped : bytes) (mtu millis : Z) : bytes :=
  [1; 0; 0; 0] ++ digits 256 4 (GuteFrame.hash_string session_key) ++ wrapped ++ digits 256 4 mtu ++ digits 256 8 millis ++ zeros 8.

Lemma length_certification_head session_key wrapped mtu millis : length wrapped = 32%nat →
  length (certification_head session_key wrapped mtu millis) = 60%nat.
Proof. intros H. unfold certification_head. rewrite !length_app, H, !length_digits. done. Qed.

(** The writes of a certification request up to its blob. *)
Lemma head_writes h w m t : length h = 4%nat → length w = 32%nat → length m = 4%nat → length t = 8%nat →
  put 44 t (put 40 m (put 8 w (put 4 h (put 0 (digits 256 2 1) (zeros 140))))) =
    ([1; 0; 0; 0] ++ h ++ w ++ m ++ t ++ zeros 8) ++ zeros 80.
Proof.
  intros Hh Hw Hm Ht.
  change (put 0 (digits 256 2 1) (zeros 140)) with ([1; 0; 0; 0] ++ zeros 4 ++ zeros 32 ++ zeros 4 ++ zeros 8 ++ zeros 8 ++ zeros 80).
  rewrite (put_mid 4 h [1; 0; 0; 0] (zeros 4)) by done. rewrite (app_assoc _ h).
  rewrite (put_mid 8 w ([1; 0; 0; 0] ++ h) (zeros 32)) by (rewrite ?length_app, ?Hh; done). rewrite (app_assoc _ w).
  rewrite (put_mid 40 m (([1; 0; 0; 0] ++ h) ++ w) (zeros 4)) by (rewrite ?length_app, ?Hh, ?Hw; done). rewrite (app_assoc _ m).
  rewrite (put_mid 44 t ((([1; 0; 0; 0] ++ h) ++ w) ++ m) (zeros 8)) by (rewrite ?length_app, ?Hh, ?Hw, ?Hm; done).
  by rewrite <-!app_assoc.
Qed.

(** The signed part of the header: its sequence and its checksum. *)
Lemma signed_header tag subtype identity sequence flags ck body : length ck = 4%nat →
  slice 0x0C 0x14 (frame_of tag subtype identity sequence ck flags body) = digits 256 4 sequence ++ ck.
Proof.
  intros Hc. unfold frame_of. rewrite <-!app_assoc.
  rewrite (app_assoc (digits 256 2 _)), (app_assoc [tag; subtype]), (app_assoc (digits 256 4 sequence)).
  apply slice_mid; [done|rewrite length_app, Hc, length_digits; done|lia].
Qed.

Section CertificationSpec.
Context (aes_encrypt aes_decrypt : bytes → bytes → bytes → bytes) (hmac_md5 : bytes → bytes → bytes).
Context (aes_bytes : ∀ k iv d, bytes_ok d → bytes_ok (aes_encrypt k iv d)).
Context (aes_length : ∀ k iv d, length (aes_encrypt k iv d) = length d).
Context (hmac_bytes : ∀ k m, bytes_ok (hmac_md5 k m)) (hmac_length : ∀ k m, length (hmac_md5 k m) = 16%nat).
Notation build_blob := (ConnAuth.build_conn_auth_blob aes_encrypt aes_decrypt hmac_md5).

(** What the peer reads of a certification request [w]: after decryption the
    header, the hash and the wrapping of the session key, the figures of the
    link, a valid checksum, and the blob signed over sequence and checksum. *)
Definition certification_read (material : LoginMaterial) (sequence : Z) (session_key : bytes) (mtu random millis : Z)
    (nonce w : bytes) : Prop := ∃ wrapped blob ck,
  let plain := frame_of 0x7F 0x0C (Z.land (m_access_id material) 0xFFFFFFFFFFFFFFFF) (Z.land sequence 0xFFFFFFFF) ck
                 (certification_flags random) (certification_head session_key wrapped mtu millis ++ blob) in
  GuteFrame.gute_mode1_decrypt w = Ok plain ∧ length w = 0xA4%nat ∧ length ck = 4%nat ∧ length blob = 80%nat ∧
  GuteFrame.gute_mode1_xor_checksum plain = Ok (undigits 256 ck) ∧
  wraps session_key (access_token material) wrapped ∧
  build_blob (access_token material) (digits 256 4 (Z.land sequence 0xFFFFFFFF) ++ ck) nonce = Ok blob.

Lemma blob_shape token header nonce : length token = 64%nat → bytes_ok token → length header = 8%nat → length nonce = 12%nat →
  bytes_ok nonce → ∃ blob, build_blob token header nonce = Ok blob ∧ length blob = 80%nat ∧ bytes_ok blob.
Proof using aes_bytes aes_length hmac_bytes hmac_length.
  intros Ht Htb Hh Hn Hnb.
  destruct (ConnAuth.build_blob_ok aes_encrypt aes_decrypt hmac_md5 token header nonce Ht Hh Hn Hnb hmac_length) as (k & s & _ & _ & Hs & E).
  rewrite E. eexists. split; [reflexivity|]. split.
  - rewrite !length_app, length_digits, aes_length, hmac_length, length_slice, Ht, Hn. done.
  - rewrite !bytes_ok_app. split_and!; [bytes_concrete|auto with bytes|done|apply aes_bytes; auto with bytes|apply hmac_bytes].
Qed.

Lemma certification_request_ok material sequence session_key mtu random millis nonce :
  length (access_token material) = 64%nat → bytes_ok (access_token material) → length session_key = 32%nat → bytes_ok session_key →
  length nonce = 12%nat → bytes_ok nonce → 0 ≤ mtu < 2 ^ 32 → 0 ≤ millis < 2 ^ 64 →
  ∃ w, build_certification_request aes_encrypt aes_decrypt hmac_md5 material sequence session_key mtu random millis nonce = Ok w ∧
    certification_read material sequence session_key mtu random millis nonce w.
Proof using aes_bytes aes_length hmac_bytes hmac_length.
  intros Ht Htb Hk Hkb Hn Hnb Hmtu Hms. destruct (certification_flags_ok random) as (Em & Hr & H22 & H24 & Hmode).
  unfold build_certification_request. unfold len at 1. rewrite Hk. rewrite guard_pass by done.
  rewrite new_header_eq by lia. rewrite bind_ret. rewrite Em. change (0xA4 - 24)%nat with 140%nat.
  set (fl := certification_flags random) in *.
  set (id := Z.land (m_access_id material) _). set (sq := Z.land sequence _).
  pose proof (hash_string_range session_key) as Hh. body_write. body_write.
  destruct (wrap_key_ok session_key (access_token material) Hk Hkb) as (wrapped & Ew & Hwb & Hwr). rewrite Ew, bind_ret.
  assert (length wrapped = 32%nat) as Lw by (by destruct Hwr as (? & _ & ? & _)).
  cbv zeta. body_write. body_write. body_write. rewrite head_writes by done.
  fold (certification_head session_key wrapped mtu millis). set (hd := certification_head _ _ _ _).
  pose proof (length_certification_head session_key wrapped mtu millis Lw) as Lhd. fold hd in Lhd.
  assert (∀ b, length b = 80%nat → len (hd ++ b) = 140) as Lb by (intros b Hb; unfold len; rewrite length_app, Lhd, Hb; done).
  assert (∀ b, length b = 80%nat → covered_bytes fl (hd ++ b) = 44) as Hcov.
  { intros b Hb. unfold covered_bytes. rewrite Lb by done. by rewrite (proj2 (Z.eqb_neq _ _) H22), (proj2 (Z.eqb_neq _ _) H24). }
  assert (length (zeros 80) = 80%nat) as Lz by done.
  destruct (frame_xor 0x7F 0x0C id sq fl (hd ++ zeros 80) ltac:(rewrite Lb; [lia|done]) Hr ltac:(rewrite Hcov; [lia|done]) (zeros 4) eq_refl) as [c Ec].
  pose proof (GuteFrame.xor_checksum_bound _ _ Ec) as Hc. rewrite Ec, bind_ret.
  rewrite pack_checksum, bind_ret by (revert Hc; eval_widths; (done || lia)).
  set (ck := digits 256 4 c). assert (length ck = 4%nat) as Lck by done.
  rewrite (signed_header _ _ _ _ _ ck) by done.
  destruct (blob_shape (access_token material) (digits 256 4 sq ++ ck) nonce) as (blob & Eblob & Lblob & Bblob); try done.
  rewrite Eblob, bind_ret. change 84%nat with (24 + 60)%nat.
  rewrite slice_body by first [done | rewrite Lblob; done | rewrite length_app, Lhd, Lz, Lblob; done].
  rewrite <-(app_nil_r (zeros 80)), (put_mid 60 blob hd (zeros 80)) by (rewrite ?Lblob; done). rewrite app_nil_r.
  assert (bytes_ok (hd ++ blob)) as Hbody.
  { subst hd. unfold certification_head. rewrite !bytes_ok_app. split_and!; auto with bytes; bytes_concrete. }
  destruct (mode1_wire 0x7F 0x0C id sq fl (hd ++ blob) ltac:(lia) ltac:(lia) Hbody ltac:(rewrite Lb; [lia|done]) Hr
    ltac:(rewrite Hcov; [lia|done]) ck Lck ltac:(subst ck; auto with bytes) Hmode) as (w & Ewire & _ & Lwire & Edec).
  exists w. split; [done|]. exists wrapped, blob, ck. cbv zeta. fold id sq fl hd. split_and!; try done.
  - rewrite Lwire, length_app, Lhd, Lblob. done.
  - subst ck. rewrite le_decode_encode by done. rewrite <-Ec.
    rewrite (xor_covered 0x7F 0x0C id sq fl hd (zeros 80) blob (zeros 4)) by first
      [done | by rewrite Lblob | rewrite Lb by done; lia | rewrite Hcov by done; unfold len; rewrite Lhd; lia].
    apply (GuteFrame.slot_xor_checksum _ _ c), pack_checksum; [done|]. revert Hc. eval_widths. lia.
Qed.
End CertificationSpec.

(** ** Parsers *)

Lemma mode1_decrypt_total wire : bytes_ok wire → value_or (λ f, bytes_ok f ∧ length f = length wire) (GuteFrame.gute_mode1_decrypt wire).
Proof.
  intros Hb. unfold GuteFrame.gute_mode1_decrypt.
  destruct (GuteFrame.check_frame_cases wire 1 "gute_mode1_decrypt requires mode 1") as [[m ->]|[-> Hl]]; [done|].
  rewrite bind_ret. destruct (GuteFrame.init32 (GuteFrame.mode_key wire)) as (c & Ec & Hc).
  pose proof (GuteFrame.decode_total wire Hb Hl c Hc) as Ht. unfold GuteFrame.decode in Ht.
  destruct (GuteFrame._modern_decrypt_id wire wire) as [out|e]; [|by destruct e]. bind_simpl. rewrite Ec. bind_simpl.
  revert Ht. bind_simpl. by destruct (GuteFrame._modern_crypt_payload out wire c false) as [f|[]].
Qed.

(** The endpoint a port field offers, then those of a frame, record by record. *)
Definition offer (host record : bytes) (off : nat) : list endpoint :=
  let port := undigits 256 (rev (slice off (off + 2) record)) in if port =? 0 then [] else [(host, port)].
Definition reply_record (frame : bytes) (i : nat) : bytes := slice (0x20 + i * 0x24) (0x20 + (i + 1) * 0x24) frame.
Definition port_offsets : list nat := [0x18; 0x1A; 0x1C; 0x1E]%nat.
Definition record_offers (frame : bytes) (i : nat) : list endpoint :=
  concat (map (offer (inet_ntoa (take 4 (reply_record frame i))) (reply_record frame i)) port_offsets).
Definition offered (frame : bytes) (count : nat) : list endpoint := concat (map (record_offers frame) (seq 0 count)).

(** The list without its repetitions, each element where it is first. *)
Definition add_first (es : list endpoint) (e : endpoint) : list endpoint := if bool_decide (e ∈ es) then es else es ++ [e].

Lemma foldl_concat {A B S} (f : S → B → S) (h : A → list B) (l : list A) s :
  foldl (λ s a, foldl f s (h a)) s l = foldl f s (concat (map h l)).
Proof. revert s. induction l as [|a l IH]; intros s; [done|]. cbn. by rewrite foldl_app, IH. Qed.

Lemma add_first_spec l : let es := foldl add_first [] l in NoDup es ∧ es `sublist_of` l ∧ (∀ e, e ∈ es ↔ e ∈ l).
Proof.
  induction l as [|e l IH] using rev_ind; [by split_and!; [constructor|constructor|]|]. cbv zeta in *. rewrite foldl_app. cbn [foldl].
  set (es := foldl add_first [] l) in *. destruct IH as (Hn & Hs & He). unfold add_first. case_bool_decide as Hin.
  - split_and!; [done|by apply sublist_inserts_r|]. set_solver.
  - split_and!; [|by apply sublist_app|set_solver]. apply NoDup_app. split; [done|]. split; [set_solver|apply NoDup_singleton].
Qed.

Lemma port_step_eq host record es off : (off + 2 ≤ length record)%nat →
  port_step host record es off = Ok (foldl add_first es (offer host record off)).
Proof.
  intros Ho. unfold port_step, unpack_be16, offer. rewrite decide_True by done. rewrite bind_ret. cbv zeta.
  set (p := undigits 256 _). destruct (p =? 0); [done|]. cbn [negb andb foldl]. unfold add_first.
  by repeat case_bool_decide.
Qed.

Lemma record_step_eq frame es i : (0x20 + (i + 1) * 0x24 ≤ length frame)%nat →
  record_step frame es i = Ok (foldl add_first es (record_offers frame i)).
Proof.
  intros Hl. unfold record_step, record_offers. cbv zeta. fold (reply_record frame i).
  assert (length (reply_record frame i) = 0x24%nat) as Lr by (unfold reply_record; rewrite length_slice; lia).
  rewrite (foldM_Ok _ (λ es off, foldl add_first es (offer (inet_ntoa (take 4 (reply_record frame i))) (reply_record frame i) off))).
  - by rewrite foldl_concat.
  - intros es' off Hoff. apply port_step_eq. rewrite Lr. set_unfold in Hoff. lia.
Qed.

Lemma offered_in frame count e : e ∈ offered frame count ↔ ∃ i off, (i < count)%nat ∧ off ∈ port_offsets ∧
  e = (inet_ntoa (take 4 (reply_record frame i)), undigits 256 (rev (slice off (off + 2) (reply_record frame i)))) ∧ e.2 ≠ 0.
Proof.
  unfold offered, record_offers. rewrite list_elem_of_In, in_concat. setoid_rewrite in_map_iff. split.
  - intros (l & (i & <- & Hi) & He). apply in_concat in He as (k & (off & <- & Hoff)%in_map_iff & He).
    exists i, off. apply in_seq in Hi. apply list_elem_of_In in Hoff. unfold offer in He. cbv zeta in He.
    destruct (Z.eqb_spec (undigits 256 (rev (slice off (off + 2) (reply_record frame i)))) 0); [by destruct He|].
    destruct He as [<-|[]]. split_and!; [lia|done|done|done].
  - intros (i & off & Hi & Hoff & -> & Hp). eexists. split; [exists i; split; [done|apply in_seq; lia]|].
    apply in_concat. eexists. split; [apply in_map, list_elem_of_In, Hoff|]. unfold offer. cbv zeta. cbn [snd] in Hp.
    rewrite (proj2 (Z.eqb_neq _ _) Hp). by left.
Qed.

(** What a list reply lists: the endpoints its records hold, each once, in
    their order. *)
Definition listed (wire : bytes) (es : list endpoint) : Prop := ∃ frame,
  GuteFrame.gute_mode1_decrypt wire = Ok frame ∧ slice 0 2 frame = [0x7F; 0x16] ∧
  len frame = 0x20 + frame !!! 0x1E%nat * 0x24 ∧
  NoDup es ∧ es `sublist_of` offered frame (Z.to_nat (frame !!! 0x1E%nat)) ∧ Forall (λ e, 0 < e.2 < 65536) es ∧
  ∀ e, e ∈ es ↔ ∃ i off, (i < Z.to_nat (frame !!! 0x1E%nat))%nat ∧ off ∈ port_offsets ∧
    e = (inet_ntoa (take 4 (reply_record frame i)), undigits 256 (rev (slice off (off + 2) (reply_record frame i)))) ∧ e.2 ≠ 0.

Lemma list_reply_total wire : bytes_ok wire → value_or (listed wire) (parse_list_reply wire).
Proof.
  intros Hb. unfold parse_list_reply. eapply value_or_bind; [by apply mode1_decrypt_total|].
  intros f [Hf _] Ef. apply value_or_raise_if. intros [G1%negb_false_iff%bool_decide_eq_true G2]%orb_false_elim.
  rewrite index_ok, bind_ret by (unfold len in G2; lia).
  apply value_or_raise_if. intros Hc%negb_false_iff%Z.eqb_eq.
  assert (0 ≤ f !!! 0x1E%nat) as Hn by (apply (list.Forall_lookup_total_1 (λ d, 0 ≤ d < 256) f); [done|unfold len in G2; lia]).
  rewrite (foldM_Ok _ (λ es i, foldl add_first es (record_offers f i))).
  2:{ intros es i Hi%elem_of_seq. apply record_step_eq. unfold len in Hc. lia. }
  unfold value_or. rewrite foldl_concat. fold (offered f (Z.to_nat (f !!! 0x1E%nat))).
  destruct (add_first_spec (offered f (Z.to_nat (f !!! 0x1E%nat)))) as (Hd & Hs & He). exists f. split_and!; try done.
  - apply list.Forall_forall. intros e Hin. apply He, offered_in in Hin as (i & off & Hi & Hoff & -> & Hp). cbn [snd] in *.
    pose proof (le_bound 2 (rev (slice off (off + 2) (reply_record f i)))) as H. revert H. eval_widths. intros H.
    enough (0 ≤ undigits 256 (rev (slice off (off + 2) (reply_record f i))) < 65536) by lia. apply H.
    + apply Forall_rev. unfold reply_record. by do 2 apply bytes_ok_slice.
    + rewrite length_rev, length_slice. unfold reply_record. rewrite length_slice. unfold len in Hc. set_unfold in Hoff. lia.
  - intros e. by rewrite He, offered_in.
Qed.

(** A reply whose length is that of its records is not refused. *)
Lemma list_reply_complete wire f : bytes_ok wire → GuteFrame.gute_mode1_decrypt wire = Ok f → slice 0 2 f = [0x7F; 0x16] →
  (0x20 ≤ length f)%nat → len f = 0x20 + f !!! 0x1E%nat * 0x24 → ∃ es, parse_list_reply wire = Ok es.
Proof.
  intros Hb Ef Ht Hl Hc. pose proof (mode1_decrypt_total wire Hb) as H. rewrite Ef in H. destruct H as [Hf _].
  assert (0 ≤ f !!! 0x1E%nat) as Hn by (apply (list.Forall_lookup_total_1 (λ d, 0 ≤ d < 256) f); [done|lia]).
  unfold parse_list_reply. rewrite Ef, bind_ret. rewrite Ht, bool_decide_eq_true_2 by done.
  rewrite guard_pass by (unfold len; cbn [negb orb]; lia). rewrite index_ok, bind_ret by lia.
  rewrite guard_pass by (rewrite Hc, Z.eqb_refl; done). rewrite (foldM_Ok _ (λ es i, foldl add_first es (record_offers f i))); [by eexists|].
  intros es i Hi%elem_of_seq. apply record_step_eq. unfold len in Hc. lia.
Qed.

(** A TermDNS response, opened by the mode of its flags. *)
Definition dns_frame (wire : bytes) (node : CertifiedNode) : result bytes :=
  let mode := Z.land (wire !!! 0x16%nat) 3 in
  if mode =? 2 then GuteFrame.gute_mode2_decrypt wire (session_key node)
  else if mode =? 1 then GuteFrame.gute_mode1_decrypt wire else Ok wire.

Definition dns_answer (wire : bytes) (node : CertifiedNode) (term : list Z) (r : bytes * Z) : Prop := ∃ frame,
  dns_frame wire node = Ok frame ∧ (0x24 ≤ length frame)%nat ∧ frame !!! 1%nat = 0xDC ∧
  rstrip0 (slice 0x24 (0x24 + Z.to_nat (undigits 256 (slice 0x18 0x1A frame))) frame) = term ∧
  Forall (λ c, 0 ≤ c < 128) term ∧
  r = (slice 0x1C 0x20 frame, undigits 256 (slice 0x20 0x24 frame)).

Lemma dns_frame_total wire node : bytes_ok wire → value_or (λ f, bytes_ok f ∧ length f = length wire) (dns_frame wire node).
Proof.
  intros Hb. destruct (GuteFrame.gute_codecs_total wire (session_key node) Hb) as (_ & H1 & _ & H2 & _).
  unfold dns_frame. cbv zeta. destruct (_ =? 2); [|destruct (_ =? 1); [|done]].
  - by destruct (GuteFrame.gute_mode2_decrypt wire (session_key node)) as [|[]].
  - by destruct (GuteFrame.gute_mode1_decrypt wire) as [|[]].
Qed.

Lemma encode_ascii_ok s : Forall (λ c, 0 ≤ c < 128) s → encode_ascii s = Ok s.
Proof.
  intros Hs. unfold encode_ascii. rewrite guard_pass; [done|]. apply negb_false_iff, forallb_forall.
  intros c Hc%list_elem_of_In. rewrite list.Forall_forall in Hs. specialize (Hs c Hc). lia.
Qed.

Lemma term_dns_total wire node term : bytes_ok wire → (0x17 ≤ length wire)%nat →
  value_or (dns_answer wire node term) (parse_term_dns wire node term).
Proof.
  intros Hb Hl. unfold parse_term_dns. rewrite index_ok, bind_ret by lia. cbv zeta. fold (dns_frame wire node).
  eapply value_or_bind; [by apply dns_frame_total|]. intros f [Hf _] Ef.
  destruct (len f <? 0x24) eqn:G; [by rewrite bind_ret|]. unfold len in G. rewrite index_ok, !bind_ret by lia.
  apply value_or_raise_if. intros Hdc%negb_false_iff%Z.eqb_eq. rewrite (unpack_from_ok 2), bind_ret by lia.
  change (0x18 + 2)%nat with 0x1A%nat. set (d := rstrip0 _). unfold encode_ascii at 1. destruct (forallb _ d) eqn:Ha; [|done].
  cbn [negb raise_if]. rewrite !bind_ret. apply value_or_raise_if. intros Ht%negb_false_iff%bool_decide_eq_true.
  rewrite (unpack_from_ok 4), bind_ret by lia. exists f. split_and!; [done|lia|done|done| |done].
  rewrite <-Ht. apply list.Forall_forall. intros c Hc%list_elem_of_In. rewrite forallb_forall in Ha. specialize (Ha c Hc). lia.
Qed.

Lemma term_dns_complete wire node term r : (0x17 ≤ length wire)%nat → dns_answer wire node term r → parse_term_dns wire node term = Ok r.
Proof.
  intros Hl (f & Ef & Lf & Hdc & Hd & Ht & ->). unfold parse_term_dns. rewrite index_ok, bind_ret by lia. cbv zeta.
  fold (dns_frame wire node). rewrite Ef, bind_ret. rewrite (proj2 (Z.ltb_ge _ _)) by (unfold len; lia).
  rewrite index_ok, !bind_ret by lia. rewrite Hdc. rewrite guard_pass by done. rewrite (unpack_from_ok 2), bind_ret by lia.
  change (0x18 + 2)%nat with 0x1A%nat. rewrite Hd, encode_ascii_ok, bind_ret by done.
  rewrite guard_pass by (by rewrite bool_decide_eq_true_2). by rewrite (unpack_from_ok 4), bind_ret by lia.
Qed.

(** [parse_term_dns] answers exactly the responses that name the term; a wire
    with no flags raises [IndexError], any other [ValueError]. *)
Lemma term_dns_exact wire node term : bytes_ok wire →
  ((length wire < 0x17)%nat → parse_term_dns wire node term = Raise IndexError) ∧
  ((0x17 ≤ length wire)%nat → value_or (dns_answer wire node term) (parse_term_dns wire node term) ∧
     ∀ r, parse_term_dns wire node term = Ok r ↔ dns_answer wire node term r).
Proof.
  intros Hb. split.
  - intros Hl. unfold parse_term_dns, index. rewrite lookup_ge_None_2 by lia. done.
  - intros Hl. pose proof (term_dns_total wire node term Hb Hl) as Ht. split; [done|]. intros r. split.
    + intros E. by rewrite E in Ht.
    + by apply term_dns_complete.
Qed.

(** The [i]th device of an initialization response. *)
Definition device_at (response : bytes) (i : nat) : OnlineDevice :=
  let record := slice (0x20 + i * 0x1C) (0x20 + (i + 1) * 0x1C) response in
  mkDevice (undigits 256 (slice 0 8 record)) (record !!! 8%nat) (negb (Z.land (record !!! 9%nat) 1 =? 0))
    (undigits 256 (slice 0x0A 0x0C record)) (slice 0x0C 0x1C record).

Lemma foldl_append {A B} (f : A → B) l acc : foldl (λ acc a, acc ++ [f a]) acc l = acc ++ map f l.
Proof.
  revert acc. induction l as [|a l IH]; intros acc; [by rewrite app_nil_r|]. simpl. by rewrite IH, <-app_assoc.
Qed.

(** The devices a response announces: none without its option. *)
Definition announced (response : bytes) : nat :=
  if Z.land (undigits 256 (slice 0x18 0x1A response)) 1 =? 0 then 0%nat
  else Z.to_nat (undigits 256 (slice 0x1C 0x1E response) + undigits 256 (slice 0x1E 0x20 response)).

Lemma init_devices_exact response : bytes_ok response → (0x20 ≤ length response)%nat →
  ((0x20 + announced response * 0x1C ≤ length response)%nat →
     parse_init_devices response = Ok (map (device_at response) (seq 0 (announced response)))) ∧
  ((length response < 0x20 + announced response * 0x1C)%nat → ∃ m, parse_init_devices response = Raise (ValueError m)).
Proof.
  intros Hb Hl. unfold parse_init_devices, announced. rewrite (unpack_from_ok 2 response 0x18), bind_ret by lia.
  change (0x18 + 2)%nat with 0x1A%nat. destruct (Z.land _ 1 =? 0); [split; [done|lia]|].
  destruct (unpack_from_field 2 response 0x1C) as (a & Ea & Ha & _); [done|lia|]. rewrite Ea, bind_ret.
  destruct (unpack_from_field 2 response 0x1E) as (b & Eb & Hb2 & _); [done|lia|]. rewrite Eb, bind_ret. cbv zeta.
  rewrite unpack_from_ok in Ea, Eb by lia. injection Ea as Ea. injection Eb as Eb.
  change (0x1C + 2)%nat with 0x1E%nat in Ea. change (0x1E + 2)%nat with 0x20%nat in Eb. rewrite Ea, Eb. unfold len. split; intros Ht.
  - rewrite guard_pass by lia. rewrite (foldM_Ok _ (λ ds i, ds ++ [device_at response i])); [by rewrite foldl_append|].
    intros ds i Hi%elem_of_seq. unfold device_step, device_at. cbv zeta. set (record := slice _ _ response).
    assert (length record = 0x1C%nat) as Lr by (subst record; rewrite length_slice; lia).
    rewrite (unpack_from_ok 8 record 0), bind_ret by lia. rewrite (index_ok record 8), bind_ret by lia.
    rewrite (index_ok record 9), bind_ret by lia. by rewrite (unpack_from_ok 2 record 0xA), bind_ret by lia.
  - eexists. unfold raise_if. rewrite (proj2 (Z.ltb_lt _ _)) by lia. reflexivity.
Qed.

(** ** Properties *)

(** C29: what an access-node builder sends is what its peer reads.  With a
    32-byte session key, a 64-byte token, a 12-byte nonce and arguments that fit
    their fields, every builder returns a wire frame; the receiver's decryption
    opens it to the subtype, identity, sequence, flags and body the builder was
    given, with a valid checksum.  A certification request also carries the
    session key wrapped under the tail of the token, and the blob signed over its
    sequence and checksum.  An acknowledgement carries the subtype and sequence
    of the response it acknowledges.  A list reply is read as the endpoints its
    records hold, each once, in their order and none of port 0; a TermDNS
    response as its address and port exactly when it names the term asked for;
    an initialization response of at least 0x20 bytes as exactly the devices it
    announces.  Otherwise the parsers raise [ValueError], and [IndexError] for a
    TermDNS wire too short to hold its flags. *)
Theorem access_frames_open (aes_encrypt aes_decrypt : bytes → bytes → bytes → bytes) (hmac_md5 : bytes → bytes → bytes)
    node material access_id sequence random millis mtu key nonce ip port term response wire :
  (∀ k iv d, bytes_ok d → bytes_ok (aes_encrypt k iv d)) → (∀ k iv d, length (aes_encrypt k iv d) = length d) →
  (∀ k m, bytes_ok (hmac_md5 k m)) → (∀ k m, length (hmac_md5 k m) = 16%nat) →
  length (session_key node) = 32%nat → length (access_token material) = 64%nat → bytes_ok (access_token material) →
  length key = 32%nat → bytes_ok key → length nonce = 12%nat → bytes_ok nonce → 0 ≤ mtu < 2 ^ 32 → 0 ≤ millis < 2 ^ 64 →
  length ip = 4%nat → bytes_ok ip → 0 ≤ port < 65536 →
  Forall (λ c, 0 ≤ c < 128) term → len term ≤ 0x8000 → bytes_ok response → (0x20 ≤ length response)%nat → bytes_ok wire →
  let id := Z.land access_id 0xFFFFFFFFFFFFFFFF in
  let sq := Z.land sequence 0xFFFFFFFF in
  let next := Z.land (next_sequence node) 0xFFFFFFFF in
  let sequence_of := undigits 256 (slice 0xC 0x10 response) in
  (∃ w, build_list_query access_id sequence random = Ok w ∧
     open_frame 0x7F 0x15 id sq (GuteFrame.randomized_flags random 1 0 0) (digits 256 4 1 ++ zeros 12) w) ∧
  (∃ w, build_nat_probe access_id sequence random millis = Ok w ∧
     open_frame 0x7F 0x01 id sq (GuteFrame.randomized_flags random 1 0 0)
       (digits 256 4 2 ++ digits 256 4 (Z.land millis 0xFFFFFFFF) ++ zeros 36) w) ∧
  (∃ w, build_certification_request aes_encrypt aes_decrypt hmac_md5 material sequence key mtu random millis nonce = Ok w ∧
     certification_read aes_encrypt aes_decrypt hmac_md5 material sequence key mtu random millis nonce w) ∧
  (∃ w, build_certification_ack response = Ok w ∧
     open_frame 0x7F 0x0D (undigits 256 (slice 4 12 response)) sequence_of (2 ^ 20 + 2 ^ 16) (digits 256 4 4 ++ zeros 4) w) ∧
  (∃ w, build_init_info node random = Ok w ∧
     session_frame node 0xA6 next (GuteFrame.randomized_flags random 2 3 0)
       (digits 256 2 0x3E ++ [0; 2] ++ zeros 4 ++ digits 256 4 0x28000000 ++ zeros 25 ++ [0x11]) w) ∧
  (∃ w, build_heartbeat node ip port random = Ok w ∧
     session_frame node 0xA0 next (GuteFrame.randomized_flags random 2 2 0)
       (digits 256 2 2 ++ digits 256 2 port ++ ip ++ [0; 1] ++ zeros 10 ++ digits 256 4 1) w) ∧
  (∃ w, build_term_dns node term random = Ok w ∧
     session_frame node 0xDB next (GuteFrame.randomized_flags random 2 1 0)
       (digits 256 2 (len term) ++ [0; 0] ++ term ++ [0]) w) ∧
  (∃ w, build_mode2_response_ack node response = Ok w ∧ length w = 32%nat ∧
     session_frame node (response !!! 1%nat) sequence_of (2 ^ 20 + 2 * 2 ^ 16) (digits 256 4 4 ++ zeros 4) w) ∧
  (∃ w, build_mode1_response_ack node response = Ok w ∧
     open_frame 0x7E (response !!! 1%nat) (Z.land (session_id node) 0xFFFFFFFFFFFFFFFF) sequence_of
       (ack_flags (undigits 256 (slice 0x14 0x18 response))) (digits 256 4 4 ++ zeros 4) w) ∧
  (value_or (listed wire) (parse_list_reply wire) ∧
   ∀ f, GuteFrame.gute_mode1_decrypt wire = Ok f → slice 0 2 f = [0x7F; 0x16] → (0x20 ≤ length f)%nat →
     len f = 0x20 + f !!! 0x1E%nat * 0x24 → ∃ es, parse_list_reply wire = Ok es) ∧
  ((length wire < 0x17)%nat → parse_term_dns wire node term = Raise IndexError) ∧
  ((0x17 ≤ length wire)%nat → value_or (dns_answer wire node term) (parse_term_dns wire node term) ∧
     ∀ r, parse_term_dns wire node term = Ok r ↔ dns_answer wire node term r) ∧
  ((0x20 + announced response * 0x1C ≤ length response)%nat →
     parse_init_devices response = Ok (map (device_at response) (seq 0 (announced response)))) ∧
  ((length response < 0x20 + announced response * 0x1C)%nat → ∃ m, parse_init_devices response = Raise (ValueError m)).
Proof.
  intros Haes Haesl Hhmac Hhmacl Hk Ht Htb Hkey Hkeyb Hn Hnb Hmtu Hms Hip Hipb Hport Hterm Htl Hr Hrl Hw. cbv zeta.
  destruct (term_dns_exact wire node term Hw) as [Hdns1 Hdns2]. destruct (init_devices_exact response Hr Hrl) as [Hinit1 Hinit2].
  split_and!; try assumption.
  - apply list_query_ok.
  - apply nat_probe_ok.
  - by apply certification_request_ok.
  - apply certification_ack_ok; [done|lia].
  - by apply init_info_ok.
  - by apply heartbeat_ok.
  - by apply term_dns_ok.
  - apply mode2_ack_ok; [done|done|lia].
  - apply mode1_ack_ok; [done|lia|]. by rewrite unpack_from_ok by lia.
  - by apply list_reply_total.
  - intros f. by apply list_reply_complete.
Qed.

Definition sample_node : CertifiedNode := mkNode ([], 0) 0x1122334455667788 (zeros 32) 7.

(** A cipher that reverses its data, and a digest of zeros. *)
Lemma access_frames_open_witness :
  (∃ w, build_heartbeat sample_node [10; 0; 0; 2] 5000 0 = Ok w ∧
     session_frame sample_node 0xA0 7 (GuteFrame.randomized_flags 0 2 2 0)
       (digits 256 2 2 ++ digits 256 2 5000 ++ [10; 0; 0; 2] ++ [0; 1] ++ zeros 10 ++ digits 256 4 1) w) ∧
  (∃ w, build_certification_request (λ _ _ d, rev d) (λ _ _ d, rev d) (λ _ _, zeros 16) (mkMaterial 1 (zeros 64)) 2 (zeros 32)
          556 0 3 (zeros 12) = Ok w ∧
     certification_read (λ _ _ d, rev d) (λ _ _ d, rev d) (λ _ _, zeros 16) (mkMaterial 1 (zeros 64)) 2 (zeros 32)
       556 0 3 (zeros 12) w) ∧
  parse_term_dns [] sample_node [65] = Raise IndexError.
Proof.
  pose proof (access_frames_open (λ _ _ d, rev d) (λ _ _ d, rev d) (λ _ _, zeros 16) sample_node (mkMaterial 1 (zeros 64))
    1 2 0 3 556 (zeros 32) (zeros 12) [10; 0; 0; 2] 5000 [65] (zeros 32) []
    ltac:(intros ? ? d Hd; by apply Forall_rev) ltac:(intros ? ? d; apply length_rev) ltac:(intros ? ?; bytes_concrete)
    ltac:(intros ? ?; reflexivity) eq_refl eq_refl ltac:(bytes_concrete) eq_refl ltac:(bytes_concrete) eq_refl ltac:(bytes_concrete)
    ltac:(lia) ltac:(lia) eq_refl ltac:(bytes_concrete) ltac:(lia) ltac:(repeat constructor; lia) ltac:(vm_compute; discriminate)
    ltac:(bytes_concrete) ltac:(vm_compute; lia) ltac:(bytes_concrete)) as H.
  cbv zeta in H. destruct H as (_ & _ & Hcert & _ & _ & Hbeat & _ & _ & _ & _ & Hshort & _).
  split; [exact Hbeat|]. split; [exact Hcert|]. apply Hshort. vm_compute. lia.
Defined.

End AccessFrames.
