(* ===== verification/Fragments.v ===== *)
(** * Fragmented broker frames

    Models the fragment carrier of [resource_service_protocol.py]: the masked
    24-byte header of the 0x70/0x01 packets and of their 0x70/0x02
    acknowledgements, and the bounded reassembler [FragmentReassembler]; with
    the parser of the catalogue response carried by the reassembled frames.

    The mask of a header is the argument of [encode_fragment_header]; without
    it the code draws sixteen random bits.  The reassembler's dictionaries are
    used by key only, so they are finite maps. *)

From Stdlib Require Import ZArith Lia.
From stdpp Require Import fin_maps.
From S2P Require Import Prelude.

Module Fragments.

(** ** The header *)

(** [range(4, 0x14, 2)] *)
Definition header_offsets : list nat := (λ i, 4 + 2 * i)%nat <$> seq 0 8.

Definition mask_step (mask : Z) (s : bytes * Z) (offset : nat) : result (bytes * Z) :=
  value ← unpack_from 2 s.1 offset;
  frame ← pack_into 2 s.1 offset (Z.lxor value mask);
  Ok (frame, Z.lor s.2 value).

Definition encode_fragment_header (decoded : bytes) (mask : Z) : result bytes :=
  bad ← (if (length decoded <? 0x18)%nat then Ok true else tag ← index decoded 0; Ok (negb (tag =? 0x70)));
  _ ← raise_if bad (ValueError "invalid decoded fragment header");
  _ ← raise_if (negb ((0 <=? mask) && (mask <=? 0xFFFF))) (ValueError "fragment mask must fit in 16 bits");
  frame ← pack_into 2 decoded 0x14 mask;
  s ← foldM (mask_step mask) (frame, mask) header_offsets;
  pack_into 2 s.1 0x16 s.2.

Record FragmentPacket := mkPacket {
  decoded_header : bytes; identity : Z; sequence : Z; original_length : Z; total : Z; f_index : Z;
  large_payload : bool; payload : bytes
}.

Definition unmask_step (mask : Z) (s : bytes * Z) (offset : nat) : result (bytes * Z) :=
  value ← unpack_from 2 s.1 offset;
  let value := Z.lxor value mask in
  frame ← pack_into 2 s.1 offset value;
  Ok (frame, Z.lor s.2 value).

Definition decode_fragment_packet (wire : bytes) : result FragmentPacket :=
  _ ← raise_if ((length wire <? 0x18)%nat || negb (bool_decide (slice 0 2 wire = [0x70; 0x01])))
        (ValueError "not a gute fragment-data packet");
  advertised ← unpack_from 2 wire 2;
  _ ← raise_if (negb (advertised =? len wire)) (ValueError "fragment packet length is invalid");
  mask ← unpack_from 2 wire 0x14;
  s ← foldM (unmask_step mask) (wire, mask) header_offsets;
  let frame := s.1 in
  checksum ← unpack_from 2 frame 0x16;
  _ ← raise_if (negb (s.2 =? checksum)) (ValueError "fragment header checksum is invalid");
  count_and_flags ← index frame 0x12;
  id ← unpack_from 8 frame 4;
  sn ← unpack_from 4 frame 0x0C;
  original ← unpack_from 2 frame 0x10;
  i ← index frame 0x13;
  Ok (mkPacket (slice 0 0x18 frame) id sn original (Z.land count_and_flags 0x7F) i
        (negb (Z.land count_and_flags 0x80 =? 0)) (drop 0x18 frame)).

Definition build_fragment_ack (packet : FragmentPacket) (mask : Z) : result bytes :=
  let ack := slice_set 0 4 [0x70; 0x02; 0x18; 0x00] (zeros 0x18) in
  let ack := slice_set 4 0x14 (slice 4 0x14 (decoded_header packet)) ack in
  encode_fragment_header ack mask.

(** ** The reassembler *)

Abbreviation key := (Z * Z * Z * Z * bool)%type.

Record FragmentReassembler := mkReassembler { _max_groups : Z; _groups : gmap key (gmap Z bytes) }.

Definition fragment_reassembler (max_groups : Z) : result FragmentReassembler :=
  _ ← raise_if (negb ((1 <=? max_groups) && (max_groups <=? 16)))
        (ValueError "fragment group limit must be between 1 and 16");
  Ok (mkReassembler max_groups ∅).

Definition on_groups (f : gmap key (gmap Z bytes) → gmap key (gmap Z bytes)) (r : FragmentReassembler) :=
  mkReassembler (_max_groups r) (f (_groups r)).

Definition key_of (p : FragmentPacket) : key :=
  (identity p, sequence p, original_length p, total p, large_payload p).

(** [parts[index]] *)
Definition part (parts : gmap Z bytes) (i : Z) : result bytes :=
  match parts !! i with Some b => Ok b | None => Raise KeyError end.

(** The checks on the pieces of a group that is complete. *)
Definition check_chunks (ordered : list bytes) : result unit :=
  first ← list_get ordered 0;
  final ← list_get ordered (length ordered - 1);
  let chunk_size := length first in
  _ ← raise_if ((chunk_size =? 0)%nat ||
                existsb (λ p : bytes, negb (length p =? chunk_size)%nat) (take (length ordered - 1) ordered))
        (ValueError "fragment chunks have inconsistent sizes");
  raise_if (chunk_size <? length final)%nat (ValueError "final fragment is larger than preceding chunks").

Definition add (packet : FragmentPacket) : M FragmentReassembler (option bytes) :=
  _ ← check (negb ((1 <=? total packet) && (total packet <=? 0x7F)) ||
             negb ((0 <=? f_index packet) && (f_index packet <? total packet)))
        (ValueError "fragment index/count is invalid");
  let k := key_of packet in
  r ← get;
  _ ← check (bool_decide (_groups r !! k = None) && (_max_groups r <=? Z.of_nat (size (_groups r))))
        (ValueError "too many incomplete fragment groups");
  _ ← (if bool_decide (_groups r !! k = None) then modify (on_groups (insert k ∅)) else mret tt);
  let parts := default ∅ (_groups r !! k) in
  match match parts !! f_index packet with Some previous => negb (bool_decide (previous = payload packet)) | None => false end with
  | true => _ ← modify (on_groups (delete k)); raise (ValueError "conflicting duplicate fragment")
  | false =>
      let parts := <[f_index packet := payload packet]> parts in
      _ ← modify (on_groups (insert k parts));
      match negb (Z.of_nat (size parts) =? total packet) with
      | true => mret None
      | false =>
          ordered ← lift (mapM (part parts) (seqZ 0 (total packet)));
          _ ← modify (on_groups (delete k));
          _ ← (if 1 <? total packet then lift (check_chunks ordered) else mret tt);
          let assembled := mjoin ordered in
          _ ← check (negb (len assembled =? original_length packet))
                (ValueError "reassembled frame length does not match the fragment header");
          mret (Some assembled)
      end
  end.

(** ** The reassembled frames *)

Definition parse_alarm_voice_catalog_response (frame : bytes) : result (option (Z * Z * bytes)) :=
  known ← (if (length frame <? 0x20)%nat then Ok false else t ← index frame 1; Ok (t =? 0xC1));
  if negb known then Ok None else
  correlation_id ← unpack_from 4 frame 0x10;
  status_code ← unpack_from 2 frame 0x1C;
  options ← index frame 0x18;
  if Z.land options 1 =? 0 then Ok (Some (correlation_id, status_code, [])) else
  payload_length ← unpack_from 2 frame 0x1E;
  if (0x7800 <? payload_length) || (len frame <? 0x20 + payload_length) then Ok None else
  Ok (Some (correlation_id, status_code, slice 0x20 (0x20 + Z.to_nat payload_length) frame)).

Definition compressed_gute_payload_length (frame : bytes) : result (option Z) :=
  _ ← raise_if (length frame <? 0x18)%nat (ValueError "gute frame is truncated");
  flags ← unpack_from 4 frame 0x14;
  if Z.land flags 1 =? 0 then Ok None else
  let n := Z.land (Z.shiftr flags 1) 0x7FFF in
  _ ← raise_if (n =? 0) (ValueError "compressed gute frame has no original length");
  Ok (Some n).

(** ** Masked words *)

Definition words (ws : list Z) : bytes := mjoin (digits 256 2 <$> ws).
Definition word_ok (w : Z) : Prop := 0 ≤ w < 65536.

Lemma words_cons w ws : words (w :: ws) = digits 256 2 w ++ words ws.
Proof. done. Qed.

Lemma length_words ws : length (words ws) = (2 * length ws)%nat.
Proof. induction ws as [|w ws IH]; [done|]. rewrite words_cons. len_simpl. rewrite IH. lia. Qed.

(** Every even byte string is a string of words. *)
Lemma words_of n : ∀ l, bytes_ok l → length l = (2 * n)%nat → ∃ ws, l = words ws ∧ length ws = n ∧ Forall word_ok ws.
Proof.
  induction n as [|n IH]; intros l Hl Hn; [destruct l; [by exists []|done]|].
  destruct (IH (drop 2 l)) as (ws & E & Hws & Hok); [auto with bytes|len_solve|].
  exists (undigits 256 (take 2 l) :: ws). split_and!; [|simpl; lia|constructor; [|done]].
  - rewrite words_cons, le_encode_decode, <-E, take_drop; [done|auto with bytes|len_solve].
  - apply (le_bound 2); [auto with bytes|len_solve].
Qed.

(** A loop over the words of a buffer, each rewritten in place. *)
Lemma foldM_words (step : bytes * Z → nat → result (bytes * Z)) (f : Z → Z) (c : Z → Z → Z) :
  (∀ pre w post s, word_ok w → step (pre ++ digits 256 2 w ++ post, s) (length pre) =
     Ok (pre ++ digits 256 2 (f w) ++ post, c s w)) →
  ∀ ws pre post s, Forall word_ok ws →
  foldM step (pre ++ words ws ++ post, s) ((λ i, length pre + 2 * i)%nat <$> seq 0 (length ws)) =
  Ok (pre ++ words (f <$> ws) ++ post, foldl c s ws).
Proof.
  intros Hstep. induction ws as [|w ws IH]; intros pre post s Hws; [done|].
  apply Forall_cons in Hws as [Hw Hws]. cbn [length seq]. rewrite fmap_cons, fmap_cons, !words_cons. cbn [foldM foldl].
  rewrite Nat.mul_0_r, Nat.add_0_r, <-!app_assoc, Hstep by done. bind_simpl.
  specialize (IH (pre ++ digits 256 2 (f w)) post (c s w) Hws). rewrite <-!app_assoc in IH. rewrite <-IH. f_equal.
  rewrite <-fmap_S_seq, <-list_fmap_compose. apply list_fmap_ext. intros i j _. simpl. len_simpl. lia.
Qed.

Lemma word_xor w m : word_ok w → word_ok m → word_ok (Z.lxor w m).
Proof. apply (lxor_bound 16). lia. Qed.

Lemma word_lor w m : word_ok w → word_ok m → word_ok (Z.lor w m).
Proof.
  unfold word_ok. intros Hw Hm. destruct (decide (w = 0)) as [->|]; [by rewrite Z.lor_0_l|].
  destruct (decide (m = 0)) as [->|]; [by rewrite Z.lor_0_r|]. split; [apply Z.lor_nonneg; lia|].
  apply (Z.log2_lt_cancel _ (2 ^ 16)). rewrite Z.log2_lor, Z.log2_pow2 by lia.
  apply Z.max_lub_lt; apply Z.log2_lt_pow2; lia.
Qed.

Lemma read_word pre w post : word_ok w → unpack_from 2 (pre ++ digits 256 2 w ++ post) (length pre) = Ok w.
Proof.
  intros Hw. apply unpack_digits; [lia|exact Hw|]. apply slice_mid; len_solve.
Qed.

Lemma write_word pre w v post : word_ok v →
  pack_into 2 (pre ++ digits 256 2 w ++ post) (length pre) v = Ok (pre ++ digits 256 2 v ++ post).
Proof. intros Hv. rewrite pack_into_ok; [|len_solve|exact Hv]. f_equal. apply slice_set_mid; len_solve. Qed.

Section Mask.
Context (mask : Z) (Hmask : word_ok mask).

Lemma mask_words ws pre post s : Forall word_ok ws →
  foldM (mask_step mask) (pre ++ words ws ++ post, s) ((λ i, length pre + 2 * i)%nat <$> seq 0 (length ws)) =
  Ok (pre ++ words ((λ w, Z.lxor w mask) <$> ws) ++ post, foldl Z.lor s ws).
Proof.
  apply foldM_words. intros pre' w post' s' Hw. unfold mask_step. cbn [fst snd].
  rewrite read_word by done. bind_simpl. by rewrite write_word by by apply word_xor.
Qed.

Lemma unmask_words ws pre post s : Forall word_ok ws →
  foldM (unmask_step mask) (pre ++ words ws ++ post, s) ((λ i, length pre + 2 * i)%nat <$> seq 0 (length ws)) =
  Ok (pre ++ words ((λ w, Z.lxor w mask) <$> ws) ++ post, foldl (λ s w, Z.lor s (Z.lxor w mask)) s ws).
Proof.
  apply foldM_words. intros pre' w post' s' Hw. unfold unmask_step. cbn [fst snd].
  rewrite read_word by done. bind_simpl. by rewrite write_word by by apply word_xor.
Qed.

Lemma unmask_mask (ws : list Z) : (λ w, Z.lxor w mask) <$> ((λ w, Z.lxor w mask) <$> ws) = ws.
Proof.
  rewrite <-list_fmap_compose. rewrite <-(list_fmap_id ws) at 2. apply list_fmap_ext. intros _ w _. simpl.
  by rewrite Z.lxor_assoc, Z.lxor_nilpotent, Z.lxor_0_r.
Qed.

Lemma checksum_mask (ws : list Z) : ∀ s,
  foldl (λ s w, Z.lor s (Z.lxor w mask)) s ((λ w, Z.lxor w mask) <$> ws) = foldl Z.lor s ws.
Proof.
  induction ws as [|w ws IH]; intros s; [done|]. cbn. rewrite IH. f_equal. f_equal.
  by rewrite Z.lxor_assoc, Z.lxor_nilpotent, Z.lxor_0_r.
Qed.

Lemma checksum_ok ws : ∀ s, word_ok s → Forall word_ok ws → word_ok (foldl Z.lor s ws).
Proof. induction ws as [|w ws IH]; intros s Hs Hws; [done|]. apply Forall_cons in Hws as [? ?]. apply IH; [by apply word_lor|done]. Qed.
End Mask.

(** A protected header: the words between the first four bytes and the mask. *)
Definition sealed (head : bytes) (mask : Z) (ws : list Z) (tail : bytes) : bytes :=
  head ++ words ((λ w, Z.lxor w mask) <$> ws) ++ digits 256 2 mask ++ digits 256 2 (foldl Z.lor mask ws) ++ tail.

Lemma encode_sealed mask t head ws tail : word_ok mask → length (0x70 :: head) = 4%nat → length ws = 8%nat → length t = 4%nat →
  Forall word_ok ws →
  encode_fragment_header ((0x70 :: head) ++ words ws ++ t ++ tail) mask = Ok (sealed (0x70 :: head) mask ws tail).
Proof.
  intros Hm Hh Hn Ht Hws. pose proof (length_words ws) as Hl. unfold encode_fragment_header.
  destruct (Nat.ltb_spec (length ((0x70 :: head) ++ words ws ++ t ++ tail)) 0x18) as [L|_]; [len_solve|].
  assert (index ((0x70 :: head) ++ words ws ++ t ++ tail) 0 = Ok 0x70) as -> by done. rewrite !bind_ret.
  rewrite guard_pass by done. rewrite guard_pass by (unfold word_ok in Hm; apply negb_false_iff, andb_true_iff; lia).
  rewrite <-(take_drop 2 t).
  replace ((0x70 :: head) ++ words ws ++ (take 2 t ++ drop 2 t) ++ tail) with
    (((0x70 :: head) ++ words ws) ++ take 2 t ++ drop 2 t ++ tail) by (by rewrite <-!app_assoc).
  assert (length ((0x70 :: head) ++ words ws) = 20%nat) as L20 by (len_simpl; lia).
  rewrite pack_into_ok; [|len_simpl; lia|exact Hm]. bind_simpl.
  rewrite slice_set_mid by (len_simpl; lia). rewrite <-app_assoc.
  change header_offsets with ((λ i, 4 + 2 * i)%nat <$> seq 0 8).
  pose proof (mask_words mask Hm ws (0x70 :: head) (digits 256 2 mask ++ drop 2 t ++ tail) mask Hws) as E.
  rewrite Hn, Hh in E. rewrite E. bind_simpl. cbn [fst snd].
  rewrite pack_into_ok; [|len_simpl; rewrite length_words, length_fmap; lia|by apply checksum_ok].
  unfold sealed. f_equal.
  transitivity (slice_set 0x16 (0x16 + 2) (digits 256 2 (foldl Z.lor mask ws))
    (((0x70 :: head) ++ words ((λ w, Z.lxor w mask) <$> ws) ++ digits 256 2 mask) ++ drop 2 t ++ tail)); [by rewrite <-!app_assoc|].
  rewrite slice_set_mid by (len_simpl; rewrite ?length_words, ?length_fmap; lia). by rewrite <-!app_assoc.
Qed.
(** The sixteen header bytes the mask protects. *)
Definition fields (id sn ol c i : Z) : bytes := digits 256 8 id ++ digits 256 4 sn ++ digits 256 2 ol ++ [c; i].

Lemma slice_at (F l m r : bytes) a b : F = l ++ m ++ r → length l = a → length m = (b - a)%nat → (a ≤ b)%nat → slice a b F = m.
Proof. intros ->. apply slice_mid. Qed.

Definition data_head (n : Z) : bytes := [0x70; 0x01] ++ digits 256 2 n.

Lemma length_sealed head mask ws tail : length head = 4%nat → length ws = 8%nat → length (sealed head mask ws tail) = (24 + length tail)%nat.
Proof. intros. unfold sealed. len_simpl. rewrite length_words, length_fmap. lia. Qed.

(** Reading the protected fields of an unmasked header. *)
Lemma decode_sealed id sn ol c i mask payload : 0 ≤ id < 2 ^ 64 → 0 ≤ sn < 2 ^ 32 → word_ok ol → 0 ≤ c < 256 → 0 ≤ i < 256 →
  word_ok mask → 24 + len payload < 65536 →
  let head := data_head (24 + len payload) in
  ∃ ws, fields id sn ol c i = words ws ∧ length ws = 8%nat ∧ Forall word_ok ws ∧
    decode_fragment_packet (sealed head mask ws payload) =
    Ok (mkPacket (head ++ fields id sn ol c i ++ digits 256 2 mask ++ digits 256 2 (foldl Z.lor mask ws))
          id sn ol (Z.land c 0x7F) i (negb (Z.land c 0x80 =? 0)) payload).
Proof.
  intros Hid Hsn Hol Hc Hi Hm Hn head.
  destruct (words_of 8 (fields id sn ol c i)) as (ws & E & Hws & Hok).
  { unfold fields. rewrite !bytes_ok_app. split_and!; auto with bytes. repeat constructor; lia. }
  { unfold fields. len_solve. }
  exists ws. split_and!; [done..|].
  assert (length head = 4%nat) as Hh by (unfold head, data_head; len_solve).
  pose proof (length_sealed head mask ws payload Hh Hws) as HL.
  set (W := sealed head mask ws payload) in *.
  assert (slice 0 2 W = [0x70; 1]) as H0 by done.
  assert (unpack_from 2 W 2 = Ok (24 + len payload)) as H2.
  { apply unpack_digits; [lia|len_simpl; lia|]. eapply (slice_at _ [0x70; 1]); [reflexivity|done..|lia]. }
  assert (unpack_from 2 W 0x14 = Ok mask) as H14.
  { apply unpack_digits; [lia|exact Hm|]. unfold W, sealed. eapply (slice_at _ (head ++ words _)); [by rewrite <-!app_assoc| |done|lia].
    len_simpl. rewrite length_words, length_fmap. lia. }
  unfold decode_fragment_packet. rewrite H0, H2, H14.
  rewrite guard_pass by (apply orb_false_iff; split; [apply Nat.ltb_ge; lia|done]). rewrite !bind_ret.
  rewrite guard_pass by (apply negb_false_iff, Z.eqb_eq; len_simpl; lia).
  change header_offsets with ((λ i, 4 + 2 * i)%nat <$> seq 0 8).
  pose proof (unmask_words mask Hm ((λ w, Z.lxor w mask) <$> ws) head
    (digits 256 2 mask ++ digits 256 2 (foldl Z.lor mask ws) ++ payload) mask) as EW.
  rewrite length_fmap, Hws, Hh, unmask_mask, checksum_mask, <-E in EW.
  fold (sealed head mask ws payload) in EW. fold W in EW. rewrite EW; clear EW.
  2:{ apply Forall_fmap. eapply list.Forall_impl; [exact Hok|]. intros w Hw. by apply word_xor. }
  rewrite !bind_ret. cbn [fst snd].
  set (C := digits 256 2 (foldl Z.lor mask ws)). set (F := head ++ fields id sn ol c i ++ digits 256 2 mask ++ C ++ payload).
  assert (length (fields id sn ol c i) = 16%nat) as Lf by (rewrite E, length_words; lia).
  assert (unpack_from 2 F 0x16 = Ok (foldl Z.lor mask ws)) as ->.
  { apply unpack_digits; [lia|by apply checksum_ok|]. eapply (slice_at _ (head ++ fields id sn ol c i ++ digits 256 2 mask)); [by rewrite <-!app_assoc| |done|lia]. len_simpl. lia. }
  rewrite bind_ret, guard_pass by (apply negb_false_iff, Z.eqb_eq; done).
  assert (index F 0x12 = Ok c) as ->.
  { apply index_slice1. eapply (slice_at _ (head ++ digits 256 8 id ++ digits 256 4 sn ++ digits 256 2 ol) [c] ([i] ++ digits 256 2 mask ++ C ++ payload));
      [unfold F, fields; by rewrite <-!app_assoc|len_simpl; lia|done|lia]. }
  assert (unpack_from 8 F 4 = Ok id) as ->.
  { apply unpack_digits; [lia|exact Hid|]. eapply (slice_at _ head); [unfold F, fields; by rewrite <-!app_assoc|done|len_simpl; lia|lia]. }
  assert (unpack_from 4 F 0x0C = Ok sn) as ->.
  { apply unpack_digits; [lia|exact Hsn|]. eapply (slice_at _ (head ++ digits 256 8 id)); [unfold F, fields; by rewrite <-!app_assoc|len_simpl; lia..|lia]. }
  assert (unpack_from 2 F 0x10 = Ok ol) as ->.
  { apply unpack_digits; [lia|exact Hol|]. eapply (slice_at _ (head ++ digits 256 8 id ++ digits 256 4 sn)); [unfold F, fields; by rewrite <-!app_assoc|len_simpl; lia..|lia]. }
  assert (index F 0x13 = Ok i) as ->.
  { apply index_slice1. eapply (slice_at _ (head ++ digits 256 8 id ++ digits 256 4 sn ++ digits 256 2 ol ++ [c]) [i] (digits 256 2 mask ++ C ++ payload));
      [unfold F, fields; by rewrite <-!app_assoc|len_simpl; lia|done|lia]. }
  rewrite !bind_ret. reflexivity.
Qed.
(** ** The groups *)

Lemma mapM_fmap {A B} (f : A → result B) (g : A → B) (l : list A) : (∀ a, a ∈ l → f a = Ok (g a)) → mapM f l = Ok (g <$> l).
Proof.
  induction l as [|a l IH]; intros H; [done|]. cbn. rewrite H by set_solver. rewrite bind_ret.
  rewrite IH by set_solver. done.
Qed.

Lemma mapM_Forall2 {A B} (f : A → result B) l k : Forall2 (λ a b, f a = Ok b) l k → mapM f l = Ok k.
Proof. induction 1 as [|a b l k E _ IH]; [done|]. cbn. by rewrite E, bind_ret, IH. Qed.

(** A group with as many pieces as its message has is complete. *)
Lemma group_full (parts : gmap Z bytes) n : (∀ i b, parts !! i = Some b → 0 ≤ i < n) → Z.of_nat (size parts) = n →
  (∀ i, 0 ≤ i < n → is_Some (parts !! i)) ∧ mapM (part parts) (seqZ 0 n) = Ok ((λ i, parts !!! i) <$> seqZ 0 n).
Proof.
  intros Hin Hn. assert (dom parts ≡@{gset Z} list_to_set (seqZ 0 n)) as Hd.
  { apply set_subseteq_size_equiv.
    - intros i [b Hb]%elem_of_dom. apply elem_of_list_to_set, elem_of_seqZ. apply Hin in Hb. lia.
    - rewrite size_list_to_set by apply NoDup_seqZ. rewrite length_seqZ, size_dom. lia. }
  assert (∀ i, 0 ≤ i < n → is_Some (parts !! i)) as Hall.
  { intros i Hi. apply elem_of_dom, Hd, elem_of_list_to_set, elem_of_seqZ. lia. }
  split; [done|]. apply mapM_fmap. intros i Hi%elem_of_seqZ. destruct (Hall i) as [b Hb]; [lia|].
  unfold part. by rewrite Hb, (lookup_total_correct _ _ _ Hb).
Qed.

(** What the groups hold was received. *)
Record holds (seen : list FragmentPacket) (r : FragmentReassembler) : Prop := {
  hold_size : Z.of_nat (size (_groups r)) ≤ _max_groups r;
  hold_parts k parts i b : _groups r !! k = Some parts → parts !! i = Some b →
    ∃ q, q ∈ seen ∧ key_of q = k ∧ f_index q = i ∧ payload q = b ∧ 0 ≤ i < total q
}.

Definition sound (seen : list FragmentPacket) (p : FragmentPacket) (res : result (option bytes)) : Prop :=
  match res with
  | Ok None => True
  | Ok (Some b) => ∃ qs, len qs = total p ∧
      (∀ j q, qs !! j = Some q → q ∈ seen ∧ key_of q = key_of p ∧ f_index q = Z.of_nat j) ∧
      b = mjoin (payload <$> qs) ∧ len b = original_length p
  | Raise e => ∃ msg, e = ValueError msg
  end.

Lemma holds_delete seen r k : holds seen r → holds seen (on_groups (delete k) r).
Proof.
  intros [Hs Hp]. split; cbn [_groups _max_groups on_groups].
  - rewrite map_size_delete. destruct (_groups r !! k); simpl; lia.
  - intros k' parts i b [_ Hk]%lookup_delete_Some. by apply Hp.
Qed.

Lemma holds_more seen seen' r : holds seen r → (∀ q, q ∈ seen → q ∈ seen') → holds seen' r.
Proof. intros [Hs Hp] H. split; [done|]. intros k parts i b Hk Hi. destruct (Hp k parts i b Hk Hi) as (q & ? & ?). eauto. Qed.

Lemma holds_insert seen r k parts : holds seen r →
  (_groups r !! k = None → Z.of_nat (size (_groups r)) < _max_groups r) →
  (∀ i b, parts !! i = Some b → ∃ q, q ∈ seen ∧ key_of q = k ∧ f_index q = i ∧ payload q = b ∧ 0 ≤ i < total q) →
  holds seen (on_groups (insert k parts) r).
Proof.
  intros [Hs Hp] Hroom Hnew. split; cbn [_groups _max_groups on_groups].
  - rewrite map_size_insert. destruct (_groups r !! k); simpl in *; [lia|]. specialize (Hroom eq_refl). lia.
  - intros k' parts' i b [[<- <-]|[Hne Hk]]%lookup_insert_Some Hi; [by apply Hnew|by eapply Hp].
Qed.

Lemma check_chunks_value ordered : (1 < length ordered)%nat → value_or (λ _, True) (check_chunks ordered).
Proof.
  intros H. unfold check_chunks. destruct (list_get_ok ordered 0) as (a & -> & _); [lia|].
  destruct (list_get_ok ordered (length ordered - 1)) as (b & -> & _); [lia|]. rewrite !bind_ret.
  apply value_or_raise_if. intros _. by destruct (_ <? _)%nat.
Qed.

Lemma value_error {A} (P : A → Prop) (r : result A) e : value_or P r → r = Raise e → ∃ msg, e = ValueError msg.
Proof. intros H ->. destruct e; try done. eauto. Qed.

Lemma open_group_same (r : FragmentReassembler) k v :
  on_groups (insert k v) (on_groups (insert k ∅) r) = on_groups (insert k v) r.
Proof. unfold on_groups. cbn [_groups _max_groups]. f_equal. apply insert_insert_eq. Qed.

Lemma open_group_delete (r : FragmentReassembler) k v : on_groups (delete k) (on_groups (insert k v) r) = on_groups (delete k) r.
Proof. unfold on_groups. cbn [_groups _max_groups]. f_equal. apply delete_insert_eq. Qed.

(** The pieces after a packet, all received and in range. *)
Lemma pieces_after seen p r : holds seen r → 0 ≤ f_index p < total p →
  let parts := <[f_index p := payload p]> (default ∅ (_groups r !! key_of p)) in
  ∀ i b, parts !! i = Some b → ∃ q, q ∈ seen ++ [p] ∧ key_of q = key_of p ∧ f_index q = i ∧ payload q = b ∧ 0 ≤ i < total q.
Proof.
  intros [_ Hp] Hi parts i b [[<- <-]|[Hne Hb]]%lookup_insert_Some.
  - exists p. split_and!; [|done..|lia|lia]. apply elem_of_app. right. by apply list_elem_of_singleton.
  - destruct (_groups r !! key_of p) as [old|] eqn:E; cbn in Hb; [|by rewrite lookup_empty in Hb].
    destruct (Hp _ _ _ _ E Hb) as (q & Hq & Hrest). exists q. split; [|exact Hrest]. apply elem_of_app. by left.
Qed.

Lemma add_outcome p r : ∀ P : result (option bytes) → FragmentReassembler → Prop,
  let k := key_of p in
  let old := default ∅ (_groups r !! k) in
  let parts := <[f_index p := payload p]> old in
  (∀ msg, ¬ (1 ≤ total p ≤ 127 ∧ 0 ≤ f_index p < total p) → P (Raise (ValueError msg)) r) →
  (_groups r !! k = None → _max_groups r ≤ Z.of_nat (size (_groups r)) →
     P (Raise (ValueError "too many incomplete fragment groups")) r) →
  (∀ b msg, 1 ≤ total p ≤ 127 → 0 ≤ f_index p < total p → old !! f_index p = Some b → b ≠ payload p →
     P (Raise (ValueError msg)) (on_groups (delete k) r)) →
  (1 ≤ total p ≤ 127 → 0 ≤ f_index p < total p → (_groups r !! k = None → Z.of_nat (size (_groups r)) < _max_groups r) →
   (Z.of_nat (size parts) ≠ total p → P (Ok None) (on_groups (insert k parts) r)) ∧
   (Z.of_nat (size parts) = total p →
    match mapM (part parts) (seqZ 0 (total p)) with
    | Ok ordered =>
        let checked := if 1 <? total p then check_chunks ordered else Ok tt in
        match checked with
        | Ok _ => if len (mjoin ordered) =? original_length p then P (Ok (Some (mjoin ordered))) (on_groups (delete k) r)
                  else ∀ msg, P (Raise (ValueError msg)) (on_groups (delete k) r)
        | Raise e => P (Raise e) (on_groups (delete k) r)
        end
    | Raise e => P (Raise e) (on_groups (insert k parts) r)
    end)) →
  wp (add p) P r.
Proof.
  intros P k old parts Hbad Hmany Hconf Hgood. unfold add. wp_step. wp_step.
  { apply Hbad. intros [[??] [??]]. apply orb_true_iff in H as [H|H]; apply negb_true_iff, andb_false_iff in H as [?|?]; lia. }
  apply orb_false_iff in H as [Hn%negb_false_iff Hi%negb_false_iff]. apply andb_true_iff in Hn as [??], Hi as [??].
  do 3 wp_step. wp_step; fold k in H3 |- *.
  { apply andb_true_iff in H3 as [E%bool_decide_eq_true ?]. apply Hmany; [done|lia]. }
  assert (_groups r !! k = None → Z.of_nat (size (_groups r)) < _max_groups r) as Hroom.
  { intros E. rewrite bool_decide_true in H3 by done. cbn in H3. lia. }
  destruct Hgood as [Hpart Hfull]; [lia..|done|].
  apply wp_bind. apply (wp_mono _ (λ res r', res = Ok tt ∧ (∀ v, on_groups (insert k v) r' = on_groups (insert k v) r) ∧
     on_groups (delete k) r' = on_groups (delete k) r)).
  { case_bool_decide as E; wp_step; (split; [done|]); [|done]. split; [intros v; apply open_group_same|apply open_group_delete]. }
  intros res r' (-> & Hi & Hd). fold old. fold parts. wp_step.
  - do 3 wp_step. rewrite Hd. destruct (old !! f_index p) as [b|] eqn:E; [|done]. eapply Hconf; [lia..|done|].
    intros ->. by rewrite bool_decide_true in Heqb.
  - do 2 wp_step. rewrite Hi. wp_step.
    + wp_step. apply Hpart. apply negb_true_iff, Z.eqb_neq in Heqb0. done.
    + specialize (Hfull (proj1 (Z.eqb_eq _ _) (proj1 (negb_false_iff _) Heqb0))).
      do 2 wp_step. destruct (mapM _ _) as [ordered|e]; [|done]. do 2 wp_step. rewrite open_group_delete.
      apply wp_bind, (wp_mono _ (λ res r', res = (if 1 <? total p then check_chunks ordered else Ok tt) ∧ r' = on_groups (delete k) r)).
      { by destruct (1 <? total p). }
      intros res r'' [-> ->]. cbv zeta in Hfull. destruct (if _ <? _ then _ else _) as [[]|e]; [|done].
      wp_step. wp_step; destruct (len (mjoin ordered) =? original_length p); done.
Qed.

(** ** Whatever arrives *)

Definition exec (history : list FragmentPacket) (r : FragmentReassembler) : FragmentReassembler :=
  foldl (λ r p, (add p r).1) r history.

Lemma add_sound seen p r : holds seen r →
  wp (add p) (λ res r', _max_groups r' = _max_groups r ∧ holds (seen ++ [p]) r' ∧ sound (seen ++ [p]) p res) r.
Proof.
  intros H. assert (holds (seen ++ [p]) r) as H' by (eapply holds_more; [done|set_solver]).
  pose proof (holds_delete _ _ (key_of p) H') as Hdel. apply add_outcome.
  - intros msg _. split_and!; [done..|by exists msg].
  - intros _ _. split_and!; [done..|by eexists].
  - intros b msg _ _ _ _. split_and!; [done..|by exists msg].
  - intros Hn Hi Hroom. pose proof (pieces_after _ _ _ H Hi) as Hpieces. cbv zeta in Hpieces.
    set (parts := <[f_index p := payload p]> _) in *.
    pose proof (holds_insert _ _ _ parts H' Hroom Hpieces) as Hins.
    split; [done|]. intros Hfull.
    assert (∀ i b, parts !! i = Some b → 0 ≤ i < total p) as Hin.
    { intros i b Hb. destruct (Hpieces i b Hb) as (q & _ & Hk & _ & _ & ?). by injection Hk as _ _ _ <- _. }
    destruct (group_full parts (total p) Hin Hfull) as [Hall ->].
    set (ordered := (λ i, parts !!! i) <$> seqZ 0 (total p)).
    assert (length ordered = Z.to_nat (total p)) as Lo by (unfold ordered; rewrite length_fmap, length_seqZ; done).
    cbv zeta. destruct (if 1 <? total p then _ else _) as [u|e] eqn:Ec.
    + destruct (len (mjoin ordered) =? original_length p) eqn:El.
      2:{ intros msg. split_and!; [done..|by exists msg]. }
      split_and!; [done..|]. assert (∃ qs, Forall2 (λ i q, q ∈ seen ++ [p] ∧ key_of q = key_of p ∧ f_index q = i ∧ payload q = parts !!! i)
        (seqZ 0 (total p)) qs) as [qs Hqs].
      { apply Forall_exists_Forall2_l with (l := seqZ 0 (total p)). apply Forall_forall. intros i Hi'%elem_of_seqZ.
        destruct (Hall i) as [b Hb]; [lia|]. destruct (Hpieces i b Hb) as (q & ? & ? & ? & ? & _). exists q.
        rewrite (lookup_total_correct _ _ _ Hb). by subst. }
      exists qs. pose proof (Forall2_length _ _ _ Hqs) as Lq. rewrite length_seqZ in Lq. split_and!.
      * unfold len. lia.
      * intros j q Hq. destruct (Forall2_lookup_r _ _ _ _ _ Hqs Hq) as (i & [-> ?]%lookup_seqZ & ? & ? & ? & _). split_and!; [done|done|lia].
      * f_equal. unfold ordered. clear -Hqs. induction Hqs as [|i q is_ qs (_ & _ & _ & E) _ IH]; [done|]. cbn. by rewrite E, IH.
      * by apply Z.eqb_eq in El.
    + split_and!; [done..|]. destruct (1 <? total p) eqn:E1; [|done]. apply Z.ltb_lt in E1.
      eapply value_error; [apply check_chunks_value|exact Ec]. lia.
Qed.

Lemma exec_holds r0 max history : fragment_reassembler max = Ok r0 →
  _max_groups (exec history r0) = max ∧ holds history (exec history r0).
Proof.
  unfold fragment_reassembler. intros (_ & Hc%raise_if_Ok & [= <-])%bind_Ok.
  apply negb_false_iff, andb_true_iff in Hc. unfold exec. induction history as [|p history [IHm IH]] using rev_ind.
  - split; [done|]. split; [cbn; rewrite map_size_empty; lia|]. intros k parts i b Hk. cbn in Hk. by rewrite lookup_empty in Hk.
  - rewrite foldl_app. cbn [foldl]. pose proof (add_sound _ p _ IH) as (Hm & Hh & _). split; [|done]. by rewrite Hm.
Qed.
(** ** Whatever a sender's fragments meet on the way *)

(** A frame a sender cut into fragments. *)
Record message := mkMessage { m_identity : Z; m_sequence : Z; m_large : bool; chunks : list bytes }.
#[global] Instance message_eq_dec : EqDecision message.
Proof. solve_decision. Defined.

Definition body (m : message) : bytes := mjoin (chunks m).
Definition count (m : message) : Z := len (chunks m).
Definition message_key (m : message) : key := (m_identity m, m_sequence m, len (body m), count m, m_large m).

Record cut_ok (m : message) : Prop := {
  cut_identity : 0 ≤ m_identity m < 2 ^ 64;
  cut_sequence : 0 ≤ m_sequence m < 2 ^ 32;
  cut_count : 1 ≤ count m ≤ 127;
  cut_body : 24 + len (body m) < 65536;
  cut_chunks : ∃ c front final, chunks m = front ++ [final] ∧ Forall (λ p : bytes, length p = c) front ∧
    (front = [] ∨ (1 ≤ c ∧ length final ≤ c)%nat)
}.

(** The wire of fragment [i]: the code's own header protection. *)
Definition fragment (m : message) (i mask : Z) : result bytes :=
  let chunk := default [] (chunks m !! Z.to_nat i) in
  encode_fragment_header
    (data_head (24 + len chunk) ++
     fields (m_identity m) (m_sequence m) (len (body m)) (count m + (if m_large m then 128 else 0)) i ++ zeros 4 ++ chunk) mask.

(** The reassembly step of [BrokerMaintenance.receive]. *)
Definition feed (wire : bytes) : M FragmentReassembler (option bytes) :=
  packet ← lift (decode_fragment_packet wire); add packet.

Fixpoint feed_all (wires : list bytes) (r : FragmentReassembler) : list (result (option bytes)) :=
  match wires with
  | [] => []
  | wire :: wires => let '(r, res) := feed wire r in res :: feed_all wires r
  end.

(** The ideal reassembler: the set of the fragments at hand, per message. *)
Definition ideal (max : Z) (m : message) (i : Z) (got : gmap key (gset Z)) : gmap key (gset Z) * result (option bytes) :=
  let k := message_key m in
  if bool_decide (got !! k = None) && (max <=? Z.of_nat (size got))
  then (got, Raise (ValueError "too many incomplete fragment groups"))
  else
    let s := {[i]} ∪ default ∅ (got !! k) in
    if Z.of_nat (size s) =? count m then (delete k got, Ok (Some (body m))) else (<[k := s]> got, Ok None).

Abbreviation event := (message * Z * Z)%type.
Definition wire_of (e : event) : result bytes := let '(m, i, mask) := e in fragment m i mask.

Fixpoint ideal_all (max : Z) (evs : list event) (got : gmap key (gset Z)) : list (result (option bytes)) :=
  match evs with
  | [] => []
  | (m, i, _) :: evs => let '(got, res) := ideal max m i got in res :: ideal_all max evs got
  end.

Lemma chunk_le_body (cs : list bytes) i c : cs !! i = Some c → (length c ≤ length (mjoin cs))%nat.
Proof.
  revert i. induction cs as [|c0 cs IH]; intros [|i] H; try done; cbn in H; change (mjoin (c0 :: cs)) with (c0 ++ mjoin cs); rewrite length_app.
  - injection H as ->. lia.
  - apply IH in H. lia.
Qed.

Lemma count_flags n (large : bool) : 1 ≤ n ≤ 127 →
  let c := n + (if large then 128 else 0) in 0 ≤ c < 256 ∧ Z.land c 0x7F = n ∧ negb (Z.land c 0x80 =? 0) = large.
Proof.
  intros Hn c. split; [unfold c; destruct large; lia|].
  assert (Forall (λ n, Z.land (n + (if large then 128 else 0)) 0x7F = n ∧
    negb (Z.land (n + (if large then 128 else 0)) 0x80 =? 0) = large) (seqZ 1 127)) as H.
  { destruct large; apply (bool_decide_unpack _); vm_compute; exact I. }
  rewrite Forall_forall in H. apply H, elem_of_seqZ. lia.
Qed.
Lemma cut_index m i : cut_ok m → 0 ≤ i < count m → ∃ c, chunks m !! Z.to_nat i = Some c ∧ 24 + len c < 65536.
Proof.
  intros H Hi. destruct (lookup_lt_is_Some_2 (chunks m) (Z.to_nat i)) as [c Hc].
  { unfold count, len in Hi. lia. }
  exists c. split; [done|]. pose proof (chunk_le_body _ _ _ Hc). pose proof (cut_body _ H). unfold body, len in *. lia.
Qed.

(** The wire of a fragment, what it decodes to, and its acknowledgement. *)
Lemma fragment_wire m i mask : cut_ok m → 0 ≤ i < count m → word_ok mask →
  ∃ w p, fragment m i mask = Ok w ∧ decode_fragment_packet w = Ok p ∧
    key_of p = message_key m ∧ total p = count m ∧ original_length p = len (body m) ∧ f_index p = i ∧
    chunks m !! Z.to_nat i = Some (payload p) ∧
    (∀ mask', word_ok mask' → ∃ ack q, build_fragment_ack p mask' = Ok ack ∧ slice 0 4 ack = [0x70; 0x02; 0x18; 0x00] ∧
       decode_fragment_packet (<[1%nat := 0x01]> ack) = Ok q ∧ key_of q = key_of p ∧ f_index q = i ∧ payload q = []).
Proof.
  intros H Hi Hm. destruct (cut_index m i H Hi) as (c & Hc & Hl). destruct (count_flags (count m) (m_large m)) as (Hf & Hn & Hlg); [apply H|].
  set (cf := count m + (if m_large m then 128 else 0)) in *. pose proof (cut_count _ H) as Hcount. pose proof (cut_body _ H).
  assert (word_ok (len (body m))) as Hol by (unfold word_ok, len in *; lia).
  destruct (decode_sealed (m_identity m) (m_sequence m) (len (body m)) cf i mask c) as (ws & E & Hws & Hok & Hdec);
    try done; [apply H|apply H|lia|].
  exists (sealed (data_head (24 + len c)) mask ws c). eexists. split; [|split; [exact Hdec|]].
  { unfold fragment. rewrite Hc. cbn [default]. fold cf. rewrite E. by apply encode_sealed. }
  unfold key_of. cbn [identity sequence original_length total f_index large_payload payload decoded_header].
  rewrite Hn, Hlg. split_and!; try done. intros mask' Hm'.
  destruct (decode_sealed (m_identity m) (m_sequence m) (len (body m)) cf i mask' []) as (ws' & E' & Hws' & Hok' & Hdec');
    try done; [apply H|apply H|lia|].
  exists (sealed [0x70; 0x02; 0x18; 0x00] mask' ws' []). eexists. split; [|split; [done|split; [exact Hdec'|]]].
  - unfold build_fragment_ack. cbn [decoded_header].
    assert (length (fields (m_identity m) (m_sequence m) (len (body m)) cf i) = 16%nat) as Lf by (unfold fields; len_solve).
    rewrite (slice_mid 4 0x14 (data_head (24 + len c))) by (try done; lia).
    rewrite E'. transitivity (encode_fragment_header ([0x70; 0x02; 0x18; 0x00] ++ words ws' ++ zeros 4 ++ []) mask'); [reflexivity|by apply encode_sealed].
  - cbn [identity sequence original_length total f_index large_payload payload]. by rewrite Hn, Hlg.
Qed.

(** The pieces of [m] at the positions [s]. *)
Definition pieces (m : message) (s : gset Z) (parts : gmap Z bytes) : Prop :=
  dom parts = s ∧ ∀ i b, parts !! i = Some b → 0 ≤ i < count m ∧ chunks m !! Z.to_nat i = Some b.

Section Honest.
Context (ms : list message) (Hcut : Forall cut_ok ms)
  (Hdistinct : ∀ m m', m ∈ ms → m' ∈ ms → message_key m = message_key m' → m = m').

Record tracks (got : gmap key (gset Z)) (r : FragmentReassembler) : Prop := {
  trk_dom : dom (_groups r) = dom got;
  trk_known k : k ∈ dom got → ∃ m, m ∈ ms ∧ message_key m = k;
  trk_parts m s : m ∈ ms → got !! message_key m = Some s →
    ∃ parts, _groups r !! message_key m = Some parts ∧ pieces m s parts ∧ Z.of_nat (size s) < count m
}.

Lemma tracks_insert got r m s parts : tracks got r → m ∈ ms → pieces m s parts → Z.of_nat (size s) < count m →
  tracks (<[message_key m := s]> got) (on_groups (insert (message_key m) parts) r).
Proof.
  intros [Hd Hk Hp] Hm Hparts Hs. split; cbn [on_groups _groups].
  - rewrite !dom_insert_L. by rewrite Hd.
  - intros k. rewrite dom_insert_L. intros [->%elem_of_singleton|?]%elem_of_union; [by exists m|auto].
  - intros m' s' Hm' [[Ek <-]|[Hne Hg]]%lookup_insert_Some.
    + apply Hdistinct in Ek as <-; [|done..]. rewrite lookup_insert_eq. by exists parts.
    + rewrite lookup_insert_ne by done. by apply Hp.
Qed.

Lemma tracks_delete got r m : tracks got r → tracks (delete (message_key m) got) (on_groups (delete (message_key m)) r).
Proof.
  intros [Hd Hk Hp]. split; cbn [on_groups _groups].
  - rewrite !dom_delete_L. by rewrite Hd.
  - intros k. rewrite dom_delete_L. intros [? _]%elem_of_difference. auto.
  - intros m' s' Hm' [Hne Hg]%lookup_delete_Some. rewrite lookup_delete_ne by done. by apply Hp.
Qed.

Lemma check_chunks_cut m : cut_ok m → (if 1 <? count m then check_chunks (chunks m) else Ok tt) = Ok tt.
Proof.
  intros [_ _ _ _ (c & front & final & E & Hfront & Hlast)]. destruct (1 <? count m) eqn:E1; [|done].
  apply Z.ltb_lt in E1. unfold count in E1. rewrite E in *. destruct front as [|p front]; [len_simpl; lia|].
  destruct Hlast as [|[Hc Hl]]; [done|]. unfold check_chunks.
  assert (length ((p :: front) ++ [final]) - 1 = length (p :: front))%nat as -> by (len_simpl; lia).
  assert (list_get ((p :: front) ++ [final]) 0 = Ok p) as -> by done.
  assert (list_get ((p :: front) ++ [final]) (length (p :: front)) = Ok final) as ->.
  { unfold list_get. by rewrite lookup_app_r, Nat.sub_diag by lia. }
  rewrite !bind_ret, take_app_length. apply Forall_cons in Hfront as [Hp Hfront]. rewrite Hp. cbv zeta.
  rewrite guard_pass; [|].
  - apply raise_if_false, Nat.ltb_ge. done.
  - apply orb_false_iff. split; [apply Nat.eqb_neq; lia|]. apply not_true_iff_false. intros (q & Hq%list_elem_of_In & Hne)%existsb_exists.
    apply negb_true_iff, Nat.eqb_neq in Hne. apply elem_of_cons in Hq as [->|Hq]; [done|]. rewrite Forall_forall in Hfront. by apply Hne, Hfront.
Qed.

Lemma ordered_chunks m parts : pieces m (dom parts) parts → (∀ i, 0 ≤ i < count m → is_Some (parts !! i)) →
  (λ i, parts !!! i) <$> seqZ 0 (count m) = chunks m.
Proof.
  intros [_ Hp] Hall. apply list_eq. intros j. rewrite list_lookup_fmap.
  destruct (decide (j < length (chunks m))%nat) as [Hj|Hj].
  - rewrite lookup_seqZ_lt by (unfold count, len; lia). cbn. destruct (Hall (Z.of_nat j)) as [b Hb]; [unfold count, len; lia|].
    rewrite (lookup_total_correct _ _ _ Hb). destruct (Hp _ _ Hb) as [_ Hc]. by rewrite Nat2Z.id in Hc.
  - rewrite lookup_seqZ_ge by (unfold count, len; lia). symmetry. apply lookup_ge_None. lia.
Qed.
Lemma tracks_get got r k : tracks got r → _groups r !! k = None ↔ got !! k = None.
Proof. intros [Hd _ _]. by rewrite <-!not_elem_of_dom, Hd. Qed.

Lemma tracks_size got r : tracks got r → size (_groups r) = size got.
Proof. intros [Hd _ _]. by rewrite <-!size_dom, Hd. Qed.

(** What [m] has at hand. *)
Lemma tracks_pieces got r m : tracks got r → m ∈ ms →
  pieces m (default ∅ (got !! message_key m)) (default ∅ (_groups r !! message_key m)).
Proof.
  intros H Hm. destruct (got !! message_key m) as [s|] eqn:E.
  - destruct (trk_parts _ _ H m s Hm E) as (parts & -> & ? & _). done.
  - apply (tracks_get _ _ _ H) in E as ->. split; [apply dom_empty_L|]. intros i b Hb. cbn in Hb. by rewrite lookup_empty in Hb.
Qed.

Lemma add_tracks got r m p : tracks got r → m ∈ ms → key_of p = message_key m → total p = count m →
  original_length p = len (body m) → 0 ≤ f_index p < count m → chunks m !! Z.to_nat (f_index p) = Some (payload p) →
  wp (add p) (λ res r', res = (ideal (_max_groups r) m (f_index p) got).2 ∧
    _max_groups r' = _max_groups r ∧ tracks (ideal (_max_groups r) m (f_index p) got).1 r') r.
Proof.
  intros H Hm Hk Hn Hol Hi Hc. pose proof (Forall_forall cut_ok ms) as [Hf _]. specialize (Hf Hcut m Hm).
  pose proof (cut_count _ Hf) as Hcount. pose proof (tracks_pieces _ _ _ H Hm) as [Hdom Hold].
  apply add_outcome; cbv beta zeta; rewrite ?Hk, ?Hn, ?Hol; unfold ideal; rewrite <-(tracks_size _ _ H), (bool_decide_ext _ _ (symmetry (tracks_get _ _ (message_key m) H))).
  - intros msg []. lia.
  - intros E ?. rewrite bool_decide_true by done. by rewrite (proj2 (Z.leb_le _ _)).
  - intros b msg _ _ Hb Hne. apply Hold in Hb as [_ Hb]. congruence.
  - intros _ _ Hroom. set (parts := <[f_index p := payload p]> _). set (s := {[f_index p]} ∪ _).
    assert (bool_decide (_groups r !! message_key m = None) && (_max_groups r <=? Z.of_nat (size (_groups r))) = false) as ->.
    { case_bool_decide as E; [|done]. apply Z.leb_gt. auto. }
    assert (pieces m s parts) as Hparts.
    { split; [unfold parts, s; by rewrite dom_insert_L, Hdom|]. intros i b [[<- <-]|[_ Hb]]%lookup_insert_Some; [done|auto]. }
    assert (size parts = size s) as -> by (rewrite <-(proj1 Hparts); symmetry; apply size_dom).
    assert (∀ i b, parts !! i = Some b → 0 ≤ i < count m) as Hin by (intros i b Hb; by apply Hparts in Hb as [? _]).
    split.
    + intros Hne. rewrite (proj2 (Z.eqb_neq _ _) Hne). split_and!; [done..|]. apply tracks_insert; try done.
      assert (size s ≤ Z.to_nat (count m))%nat; [|lia].
      transitivity (size (list_to_set (seqZ 0 (count m)) : gset Z)); [|rewrite size_list_to_set, length_seqZ; [done|apply NoDup_seqZ]].
      apply subseteq_size. rewrite <-(proj1 Hparts). intros i [b Hb]%elem_of_dom. apply elem_of_list_to_set, elem_of_seqZ. apply Hin in Hb. lia.
    + intros E. rewrite (proj2 (Z.eqb_eq _ _) E). rewrite <-(proj1 Hparts), size_dom in E.
      destruct (group_full parts (count m) Hin E) as [Hall ->].
      rewrite (ordered_chunks m parts) by (try done; rewrite (proj1 Hparts); done).
      rewrite check_chunks_cut by done. cbv zeta iota. fold (body m). rewrite Z.eqb_refl. split_and!; [done..|]. by apply tracks_delete.
Qed.

Definition event_ok (e : event) : Prop := let '(m, i, mask) := e in m ∈ ms ∧ 0 ≤ i < count m ∧ word_ok mask.

Lemma feed_all_ideal evs : ∀ got r wires, tracks got r → Forall event_ok evs →
  Forall2 (λ e w, wire_of e = Ok w) evs wires →
  feed_all wires r = ideal_all (_max_groups r) evs got.
Proof.
  induction evs as [|[[m i] mask] evs IH]; intros got r wires H Hok Hw; inversion Hw as [|? w ? wires' Ew Hw']; subst; [done|].
  apply Forall_cons in Hok as [(Hm & Hi & Hmask) Hok]. cbn [feed_all ideal_all].
  destruct (fragment_wire m i mask) as (w' & p & Ew' & Hdec & Hk & Hn & Hol & Hip & Hc & _); [by eapply Forall_forall|done..|].
  cbn [wire_of] in Ew. rewrite Ew in Ew'. apply (inj Ok) in Ew' as <-.
  pose proof (add_tracks got r m p H Hm Hk Hn Hol) as Ha. rewrite Hip in Ha. specialize (Ha Hi Hc). unfold wp in Ha.
  unfold feed. rewrite Hdec. unfold mbind, M_bind, lift. destruct (add p r) as [r' res], (ideal (_max_groups r) m i got) as [got' ires].
  cbn [fst snd] in Ha. destruct Ha as (-> & <- & Ht). f_equal. by apply IH.
Qed.
(** The fragments of [m] among the events, and what was handed over for it. *)
Definition indices (m : message) (evs : list event) : list Z :=
  omap (λ e : event, if decide (e.1.1 = m) then Some e.1.2 else None) evs.
Fixpoint deliveries (m : message) (evs : list event) (rs : list (result (option bytes))) : list bytes :=
  match evs, rs with
  | e :: evs, res :: rs =>
      match res with
      | Ok (Some b) => if decide (e.1.1 = m) then b :: deliveries m evs rs else deliveries m evs rs
      | _ => deliveries m evs rs
      end
  | _, _ => []
  end.

Definition keys : gset key := list_to_set (message_key <$> ms).

Lemma size_keys : (size keys ≤ length ms)%nat.
Proof.
  unfold keys. clear. induction ms as [|m l IH]; [done|]. cbn [fmap list_fmap list_to_set length].
  rewrite size_union_alt, size_singleton. apply le_n_S. etransitivity; [|exact IH]. apply subseteq_size. set_solver.
Qed.

Lemma ideal_room (max : Z) (m : message) (i : Z) (got : gmap key (gset Z)) : m ∈ ms → dom got ⊆ keys → len ms ≤ max →
  let s := {[i]} ∪ default ∅ (got !! message_key m) in
  ideal max m i got = if Z.of_nat (size s) =? count m then (delete (message_key m) got, Ok (Some (body m)))
                      else (<[message_key m := s]> got, Ok None).
Proof.
  intros Hm Hd Hmax s. unfold ideal. case_bool_decide as E; [|done]. apply not_elem_of_dom in E.
  assert (message_key m ∈ keys) as Hk by (apply elem_of_list_to_set, list_elem_of_fmap; eauto).
  assert (size ({[message_key m]} ∪ dom got) ≤ length ms)%nat as Hs.
  { transitivity (size keys); [apply subseteq_size; set_solver|apply size_keys]. }
  rewrite size_union, size_singleton, size_dom in Hs by set_solver.
  rewrite (proj2 (Z.leb_gt _ _)) by (unfold len in *; lia). done.
Qed.

Lemma ideal_delivers max m evs : m ∈ ms → len ms ≤ max → ∀ got, dom got ⊆ keys → Forall event_ok evs →
  let l := indices m evs in
  let s := default ∅ (got !! message_key m) in
  (l = [] → deliveries m evs (ideal_all max evs got) = []) ∧
  (l ≠ [] → NoDup l → (∀ i, i ∈ l → i ∉ s) → Z.of_nat (size s) + len l = count m →
   deliveries m evs (ideal_all max evs got) = [body m]).
Proof.
  intros Hm Hmax. induction evs as [|[[m' i] mask] evs IH]; intros got Hd Hok; [by split|].
  apply Forall_cons in Hok as [(Hm' & Hi & _) Hok]. cbn [ideal_all]. rewrite (ideal_room max m' i got) by done.
  cbv zeta. unfold indices. cbn [omap list_omap fst snd]. fold (indices m evs).
  set (s' := {[i]} ∪ default ∅ (got !! message_key m')).
  assert (∀ s, dom (<[message_key m' := s]> got) ⊆ keys) as Hins.
  { intros s. rewrite dom_insert_L. apply union_subseteq. split; [|done]. apply singleton_subseteq_l, elem_of_list_to_set, list_elem_of_fmap. eauto. }
  assert (dom (delete (message_key m') got) ⊆ keys) as Hdel by (rewrite dom_delete_L; set_solver).
  destruct (decide (m' = m)) as [->|Hne].
  - split; [done|]. intros _ [Hni Hnd]%NoDup_cons Hdisj Hsize. unfold len in Hsize. cbn [length] in Hsize.
    assert (size s' = S (size (default ∅ (got !! message_key m)))) as Es.
    { unfold s'. rewrite size_union, size_singleton; [done|]. apply disjoint_singleton_l, Hdisj. set_solver. }
    destruct (indices m evs) as [|j l] eqn:El.
    + rewrite (proj2 (Z.eqb_eq _ _)) by (cbn [length] in Hsize; lia). cbn [deliveries fst snd]. rewrite decide_True by done. f_equal.
      apply IH; done.
    + rewrite (proj2 (Z.eqb_neq _ _)) by (cbn [length] in Hsize; lia). cbn [deliveries fst snd].
      rewrite <-El in *. destruct (IH _ (Hins s') Hok) as [_ IH']. cbv zeta in IH'. rewrite lookup_insert_eq in IH'. cbn [default] in IH'. unfold id in IH'.
      apply IH'; [by rewrite El|done|..].
      * intros x Hx. unfold s'. apply not_elem_of_union. split; [apply not_elem_of_singleton; intros ->; done|]. apply Hdisj. set_solver.
      * unfold len. lia.
  - assert (message_key m' ≠ message_key m) as Hk by (intros E; by apply Hne, Hdistinct).
    destruct (Z.of_nat (size s') =? count m').
    + cbn [deliveries fst snd]. rewrite decide_False by done. specialize (IH _ Hdel Hok). cbv zeta in IH. rewrite lookup_delete_ne in IH by done. exact IH.
    + cbn [deliveries]. specialize (IH _ (Hins s') Hok). cbv zeta in IH. rewrite lookup_insert_ne in IH by done. exact IH.
Qed.
End Honest.

(** ** Properties *)

(** C10: reassembly of fragmented broker frames.  Whatever packets arrive, the
    reassembler keeps at most its limit of groups, refuses with [ValueError]
    only, and a frame it hands over is the concatenation of pieces it received,
    each under the frame's own identity, sequence, length, count and kind and
    at its own position, and has the announced length.  For the fragments a
    sender cuts from frames, decoded from their protected wires in any order,
    interleaved and repeated, the answers are those of the ideal reassembler
    that keeps the set of the fragments at hand; every fragment is acknowledged
    with its own header; and when the limit admits the frames in flight and
    every fragment arrives once, each frame is handed over exactly once, whole. *)
Theorem fragments_exact max r0 : fragment_reassembler max = Ok r0 →
  (∀ history p, let '(r, res) := add p (exec history r0) in
     Z.of_nat (size (_groups r)) ≤ max ∧ sound (history ++ [p]) p res) ∧
  (∀ ms evs, Forall cut_ok ms → (∀ m m', m ∈ ms → m' ∈ ms → message_key m = message_key m' → m = m') →
     Forall (event_ok ms) evs →
     ∃ wires, mapM wire_of evs = Ok wires ∧
       feed_all wires r0 = ideal_all max evs ∅ ∧
       Forall2 (λ '(m, i, _) w, ∃ p, decode_fragment_packet w = Ok p ∧ ∀ mask, word_ok mask →
         ∃ ack q, build_fragment_ack p mask = Ok ack ∧ slice 0 4 ack = [0x70; 0x02; 0x18; 0x00] ∧
           decode_fragment_packet (<[1%nat := 0x01]> ack) = Ok q ∧ key_of q = message_key m ∧ f_index q = i ∧ payload q = []) evs wires ∧
       (len ms ≤ max → (∀ m, m ∈ ms → indices m evs ≡ₚ seqZ 0 (count m)) →
        ∀ m, m ∈ ms → deliveries m evs (feed_all wires r0) = [body m])).
Proof.
  intros H0. destruct (exec_holds r0 max [] H0) as [Hmax _]. cbn in Hmax. split.
  - intros history p. destruct (exec_holds r0 max history H0) as [Hm Hh]. pose proof (add_sound _ p _ Hh) as Ha. unfold wp in Ha.
    destruct (add p (exec history r0)) as [r res]. cbn [fst snd] in Ha. destruct Ha as (E & [Hs _] & Hsound). split; [lia|done].
  - intros ms evs Hcut Hdist Hok.
    assert (∃ wires, Forall2 (λ e w, wire_of e = Ok w) evs wires) as [wires Hw].
    { apply Forall_exists_Forall2_l. eapply list.Forall_impl; [exact Hok|]. intros [[m i] mask] (Hm & Hi & Hmask).
      destruct (fragment_wire m i mask) as (w & _ & Hw & _); [by eapply Forall_forall|done..|]. by exists w. }
    assert (tracks ms ∅ r0) as Ht.
    { unfold fragment_reassembler in H0. apply bind_Ok in H0 as (_ & _ & [= <-]). split; [done|set_solver|]. intros m s _ Hg. by rewrite lookup_empty in Hg. }
    pose proof (feed_all_ideal ms Hcut Hdist evs ∅ r0 wires Ht Hok Hw) as Hfeed. rewrite Hmax in Hfeed.
    exists wires. split_and!; [|done|..].
    + by apply mapM_Forall2.
    + clear -Hw Hok Hcut. induction Hw as [|[[m i] mask] w evs wires Ew _ IH]; [done|]. apply Forall_cons in Hok as [(Hm & Hi & Hmask) Hok].
      constructor; [|by apply IH]. destruct (fragment_wire m i mask) as (w' & p & Ew' & Hdec & Hk & _ & _ & _ & _ & Hack); [by eapply Forall_forall|done..|].
      cbn [wire_of] in Ew. rewrite Ew in Ew'. apply (inj Ok) in Ew' as <-. exists p. split; [done|]. intros mask' Hm'.
      destruct (Hack mask' Hm') as (ack & q & ? & ? & ? & ? & ? & ?). exists ack, q. split_and!; try done. congruence.
    + intros Hlen Hperm m Hm. rewrite Hfeed. specialize (Hperm m Hm).
      assert (cut_ok m) as Hc by (by eapply Forall_forall). pose proof (cut_count _ Hc).
      destruct (ideal_delivers ms Hcut Hdist max m evs Hm Hlen ∅) as [_ Hd]; [rewrite dom_empty_L; apply empty_subseteq|done|].
      rewrite lookup_empty in Hd. apply Hd.
      * intros E. rewrite E in Hperm. apply Permutation_nil_l in Hperm. apply (f_equal length) in Hperm. rewrite length_seqZ in Hperm. cbn in Hperm. lia.
      * rewrite Hperm. apply NoDup_seqZ.
      * intros i _. apply not_elem_of_empty.
      * cbn [default]. unfold id. rewrite size_empty. unfold len. rewrite Hperm, length_seqZ. lia.
Qed.

Definition sample_frames : list message :=
  [mkMessage 0x1122334455667788 9 false [[1; 2; 3]; [4; 5; 6]; [7]]; mkMessage 5 10 true [[8; 9]; [10; 11]]].
Definition sample_events : list event :=
  match sample_frames with
  | [a; b] => [(a, 2, 0x1234); (b, 1, 0); (a, 0, 0xFFFF); (b, 0, 7); (a, 1, 0x8001)]
  | _ => []
  end.

Lemma fragments_exact_witness : ∃ r0, fragment_reassembler 2 = Ok r0 ∧
  ideal_all 2 sample_events ∅ = [Ok None; Ok None; Ok None; Ok (Some [8; 9; 10; 11]); Ok (Some [1; 2; 3; 4; 5; 6; 7])] ∧
  ∃ wires, mapM wire_of sample_events = Ok wires ∧ feed_all wires r0 = ideal_all 2 sample_events ∅.
Proof.
  exists (mkReassembler 2 ∅). split; [reflexivity|]. split; [vm_compute; reflexivity|].
  destruct (proj2 (fragments_exact 2 (mkReassembler 2 ∅) eq_refl) sample_frames sample_events) as (wires & Hw & Hf & _).
  - apply Forall_cons; split; [|apply Forall_cons; split; [|done]]; split; unfold count, len; cbn; try lia.
    + exists 3%nat, [[1; 2; 3]; [4; 5; 6]], [7]. split_and!; [done|by repeat constructor|right; cbn; lia].
    + exists 2%nat, [[8; 9]], [10; 11]. split_and!; [done|by repeat constructor|right; cbn; lia].
  - intros m m' Hm Hm' Hk. unfold sample_frames in *. rewrite !elem_of_cons, elem_of_nil in Hm, Hm'.
    destruct Hm as [->|[->|[]]], Hm' as [->|[->|[]]]; done.
  - unfold sample_events, sample_frames, event_ok, word_ok. repeat (apply Forall_cons; split; [split_and!; unfold count, len; cbn; try lia; set_solver|]). done.
  - exists wires. split; [exact Hw|exact Hf].
Defined.

(** A copy of a fragment that arrives after its frame was handed over opens a
    group that nothing completes; two of them use up a limit of two, and the
    first fragment of the next frame is refused. *)
Example late_copies_block :
  let a := mkMessage 1 1 false [[1]; [2]] in
  let b := mkMessage 2 2 false [[3]; [4]] in
  let c := mkMessage 3 3 false [[5]; [6]] in
  ideal_all 2 [(a, 0, 0); (a, 1, 0); (b, 0, 0); (b, 1, 0); (a, 1, 0); (b, 1, 0); (c, 0, 0)] ∅ =
  [Ok None; Ok (Some [1; 2]); Ok None; Ok (Some [3; 4]); Ok None; Ok None;
   Raise (ValueError "too many incomplete fragment groups")].
Proof. vm_compute. reflexivity. Qed.
End Fragments.
