(* ===== verification/Broker.v ===== *)
(** * Correlation of broker receipts, reads and heartbeats

    Models p2p [broker_transactions.py] (transport receipts), the read replies
    of [model_protocol.py] and [broker_model_reply.py], [broker_reads.py] (the
    waiters of property reads), [broker_heartbeat_reply.py] and
    [broker_heartbeat.py] (the one heartbeat waiter).

    The sequence namespace may be shared by several owners, so a state is the
    shared [BrokerSequences] object with the owner's own; times are integers in
    milliseconds, read from a clock that is an arbitrary function of the number
    of readings.  What [json.loads] makes of a reply's payload is a parameter,
    [loads]: a value, a decoding error (of the text or of the JSON), another
    [ValueError], or the recursion limit. *)

From Stdlib Require Import ZArith Lia.
From stdpp Require Import fin_maps.
From S2P Require Import Prelude GuteFrame Account AccessFrames.

Module Broker.
Import GuteFrame(gute_mode1_xor_checksum, new_header, finish_mode2, randomized_flags).
Import Account(BrokerSequences, broker_sequences, matches, allocate, is_none).
Import AccessFrames(CertifiedNode, mkNode, build_heartbeat).

(** A method of an owner: the shared sequences, the owner, the clock readings. *)
Abbreviation owned X := ((BrokerSequences * X) * nat)%type.

Definition own {X} : M (owned X) X := s ← state; mret s.2.
Definition set_own {X} (f : X → X) : M (owned X) unit := assign (λ s, (s.1, f s.2)).
Definition namespace {X A} (m : M BrokerSequences A) : M (owned X) A := on fst (λ q s, (q, s.2)) (timeless m).
(** A call of a part of the owner, which uses the same namespace. *)
Definition within {X Y A} (get : X → Y) (put : Y → X → X) (m : M (owned Y) A) : M (owned X) A :=
  on (λ s : BrokerSequences * X, (s.1, get s.2)) (λ y s, (y.1, put y.2 s.2)) m.

(** ** [broker_transactions.py] *)

Definition MAX_PENDING : Z := 8.
Definition MAX_TIMEOUT : Z := 10000.

Record ReceiptTicket := mkTicket { t_generation : Z; t_sequence : Z; t_kind : Z }.
#[global] Instance ticket_eq_dec : EqDecision ReceiptTicket.
Proof. solve_decision. Defined.

Record TransportReceipt := mkReceipt { r_ticket : ReceiptTicket; r_result : Z }.
Definition accepted (r : TransportReceipt) : bool := r_result r =? 0.

Record BrokerTransactions := mkTransactions {
  x_owns : bool; x_session : Z; x_generation : Z; x_pending : list (Z * (ReceiptTicket * Z)); x_closed : bool
}.
Definition set_pending p x := mkTransactions (x_owns x) (x_session x) (x_generation x) p (x_closed x).

Definition broker_transactions (session_id generation next_sequence : Z) (shared : option BrokerSequences) :
    result (BrokerSequences * BrokerTransactions) :=
  seed ← broker_sequences session_id generation next_sequence;
  _ ← raise_if (match shared with Some s => negb (matches s session_id generation) | None => false end)
        (ValueError "broker sequence identity mismatch");
  Ok (default seed shared, mkTransactions (is_none shared) session_id generation [] false).

Definition active (s : BrokerSequences * BrokerTransactions) : bool :=
  negb (x_closed s.2) && matches s.1 (x_session s.2) (x_generation s.2).

Definition valid_timeout (timeout : Z) : bool := (0 <? timeout) && (timeout <=? MAX_TIMEOUT).

(** ** [model_protocol.py] *)

(** The values [json.loads] returns; a Python [None] is [JNull]. *)
Inductive json : Type :=
| JNull | JBool (b : bool) | JInt (z : Z) | JFloat (text : string) | JString (s : string)
| JList (l : list json) | JDict (l : list (string * json)).

Inductive decoded : Type := Value (v : json) | Undecodable | OtherValueError | RecursionLimit.

Definition MODEL_READ_PATHS : list string := [
  "ProConst._productInfo"; "ProConst._versionInfo"; "ProConst.devFuncCfg"; "ProConst.devFunCode";
  "ProReadonly._online"; "ProReadonly.sysVer"; "ProReadonly.connectInfo"; "ProReadonly.power";
  "ProReadonly.simCard"; "ProReadonly.devInfo"; "ProReadonly.tfInfo"; "ProReadonly.aiModeDownL";
  "ProWritable._almEvtSetting"; "ProWritable._otaMode"; "ProWritable.timeZone"; "ProWritable.onvifEn";
  "ProWritable.recordParm"; "ProWritable.guardParm"; "ProWritable.videoParm"; "ProWritable.csVideoRes";
  "ProWritable.nightViewModeV2"; "ProWritable.motionZone"; "ProWritable.workMode"; "ProWritable.pressKeyCall";
  "ProWritable.screenSwitch"; "ProWritable.antiFlickerSwitch"; "ProWritable.volume"; "ProWritable.indicatorLight";
  "ProWritable.audioMode"; "ProWritable.whiteLightPlan"; "ProWritable.autoWhiteLight"; "ProWritable.autoWorkMode";
  "ProWritable.resFile"; "ProWritable.whiteLightCtrl"; "ProWritable.zoomFocusW"; "Action.whiteLightCtrl";
  "Action.expelCtrl"; "Action.laserCtrl"; "Action.ptzCheck"; "Action.zoomFocusA"]%string.

Definition is_model_path (path : string) : bool := existsb (String.eqb path) MODEL_READ_PATHS.

(** [random] is the draw of [randomized_flags]. *)
Definition build_model_read (node : CertifiedNode) (device_id : Z) (path : string) (sequence message_id random : Z) : result bytes :=
  _ ← raise_if (negb (is_model_path path)) (ValueError "thing-model path is not in the read-only allowlist");
  let encoded_path := ascii path in
  frame ← new_header 0xB7 (0x26 + length encoded_path + 1) (AccessFrames.session_id node) sequence (randomized_flags random 2 3 0);
  frame ← set_byte frame 0 0x7E;
  frame ← pack_into 8 frame 0x18 device_id;
  frame ← pack_into 4 frame 0x20 (Z.land message_id 0x7FFFFFFF);
  frame ← pack_into 2 frame 0x24 (len encoded_path);
  let frame := slice_set 0x26 (0x26 + length encoded_path) encoded_path frame in
  finish_mode2 frame (AccessFrames.session_key node).

Definition bit (x : Z) (k : Z) : bool := negb (Z.land x (Z.shiftl 1 k) =? 0).
Definition is_tag (tag : Z) : bool := (tag =? 0x7E) || (tag =? 0x7F).

(** [request_sequence is not None]: the frame does not answer that request. *)
Definition uncorrelated (frame : bytes) (request_sequence : Z) : result bool :=
  flags ← unpack_from 4 frame 0x14;
  tag ← index frame 0;
  if negb (is_tag tag) then Ok true else
  n ← unpack_from 2 frame 2;
  if negb (n =? len frame) || negb (bit flags 21) || bit flags 20 then Ok true else
  word ← unpack_from 4 frame 0x10;
  Ok (negb (word =? Z.land request_sequence 0xFFFFFFFF)).

Section Loads.
Context (loads : bytes → decoded).

(** The exceptions that are not [JSONDecodeError] or [UnicodeDecodeError]
    leave the function. *)
Definition parse_model_read_response (frame : bytes) (device_id : Z) (request_sequence : option Z) : result (option (Z * json)) :=
  subtype ← (if (length frame <? 0x26)%nat then Ok 0 else index frame 1);
  if negb (subtype =? 0xB8) then Ok None else
  other ← (match request_sequence with Some sn => uncorrelated frame sn | None => Ok false end);
  if other : bool then Ok None else
  device ← unpack_from 8 frame 0x18;
  if negb (device =? device_id) then Ok None else
  error_code ← unpack_from 2 frame 0x24;
  options ← index frame 0x20;
  if Z.land options 1 =? 0 then Ok (Some (error_code, JNull)) else
  if (length frame <? 0x28)%nat then Ok None else
  json_length ← unpack_from 2 frame 0x26;
  if len frame <? 0x28 + json_length then Ok None else
  match loads (slice 0x28 (0x28 + Z.to_nat json_length) frame) with
  | Value v => Ok (Some (error_code, v))
  | Undecodable => Ok None
  | OtherValueError => Raise (ValueError "")
  | RecursionLimit => Raise (RuntimeError "maximum recursion depth exceeded")
  end.

(** ** [broker_model_reply.py] *)

Definition MAX_REPLY_BYTES : Z := 4096.

Definition children (v : json) : list json :=
  match v with JDict l => l.*2 | JList l => l | _ => [] end.

(** The stack of [_bounded_value], its top first; the loop ends by round 257. *)
Fixpoint bounded_loop (fuel : nat) (pending : list (json * Z)) (visited : Z) : result bool :=
  match fuel with
  | O => Raise OutOfFuel
  | S fuel =>
      match pending with
      | [] => Ok true
      | (item, depth) :: pending =>
          let visited := visited + 1 in
          if (16 <? depth) || (256 <? visited) then Ok false else
          let cs := children item in
          if 256 <? len pending + len cs then Ok false else
          bounded_loop fuel (rev ((λ c, (c, depth + 1)) <$> cs) ++ pending) visited
      end
  end.
Definition _bounded_value (value : json) : result bool := bounded_loop 258 [(value, 0)] 0.

(** The error code and the value of [CorrelatedModelReply]. *)
Definition match_model_reply (plain : bytes) (ticket : ReceiptTicket) (generation session_id device_id : Z) : result (option (Z * json)) :=
  if negb (generation =? t_generation ticket) || negb (t_kind ticket =? 0xB7)
     || (len plain <? 0x26) || (MAX_REPLY_BYTES <? len plain) then Ok None else
  session ← unpack_from 8 plain 4;
  if negb (session =? session_id) then Ok None else
  flags ← unpack_from 4 plain 20;
  if negb (Z.land (Z.shiftr flags 16) 3 =? 2) then Ok None else
  match parse_model_read_response plain device_id (Some (t_sequence ticket)) with
  | Raise (ValueError _) | Raise (RuntimeError _) | Ok None => Ok None
  | Raise e => Raise e
  | Ok (Some (error, value)) =>
      bounded ← _bounded_value value;
      Ok (if bounded : bool then Some (error, value) else None)
  end.
End Loads.

(** ** Methods of the owners *)

Section Clock.
Context (clock : nat → Z) (loads : bytes → decoded).
#[local] Notation now := (now clock).

Definition register (kind timeout : Z) : M (owned BrokerTransactions) ReceiptTicket :=
  s ← state;
  _ ← check (negb (active s)) (ValueError "broker transactions closed");
  _ ← check (negb ((0 <=? kind) && (kind <=? 255)) || negb (valid_timeout timeout)) (ValueError "invalid broker transaction bounds");
  _ ← check (MAX_PENDING <=? len (x_pending s.2)) (ValueError "broker transaction capacity exhausted");
  sn ← namespace allocate;
  let ticket := mkTicket (x_generation s.2) sn kind in
  t ← now;
  _ ← set_own (λ x, set_pending (dict_set sn (ticket, t + timeout) (x_pending x)) x);
  mret ticket.

Definition expired {A} (t : Z) (d : list (Z * (A * Z))) : list A := (λ kv, kv.2.1) <$> filter (λ kv, kv.2.2 ≤ t) d.

(** [del self._pending[ticket.sequence]] for each ticket. *)
Fixpoint forget (tickets : list ReceiptTicket) : M (owned BrokerTransactions) unit :=
  match tickets with
  | [] => mret tt
  | ticket :: tickets =>
      x ← own; d ← lift (dict_pop (t_sequence ticket) (x_pending x));
      _ ← set_own (set_pending d); forget tickets
  end.

Definition poll : M (owned BrokerTransactions) (list ReceiptTicket) :=
  t ← now; x ← own;
  let gone := expired t (x_pending x) in
  _ ← forget gone; mret gone.

Definition cancel (ticket : ReceiptTicket) : M (owned BrokerTransactions) bool :=
  x ← own;
  match dict_get (t_sequence ticket) (x_pending x) with
  | Some (held, _) =>
      if decide (held = ticket)
      then _ ← set_own (set_pending (dict_del (t_sequence ticket) (x_pending x))); mret true
      else mret false
  | None => mret false
  end.

(** The frame is no sealed 32-byte frame of the session. *)
Definition unsealed (session : Z) (plain : bytes) : result bool :=
  if negb (len plain =? 32) then Ok true else
  tag ← index plain 0;
  if negb (is_tag tag) then Ok true else
  n ← unpack_from 2 plain 2;
  if negb (n =? 32) then Ok true else
  id ← unpack_from 8 plain 4;
  if negb (id =? session) then Ok true else
  c ← unpack_from 4 plain 16; computed ← gute_mode1_xor_checksum plain;
  Ok (negb (c =? computed)).

Definition accept (plain : bytes) (generation : Z) : M (owned BrokerTransactions) (option TransportReceipt) :=
  s ← state;
  bad ← (if negb (active s) || negb (generation =? x_generation s.2) then mret true else lift (unsealed (x_session s.2) plain));
  match bad with
  | true => mret None
  | false =>
      flags ← lift (unpack_from 4 plain 20);
      match negb (Z.land (Z.shiftr flags 16) 3 =? 2) || negb (bit flags 20) || bit flags 21 with
      | true => mret None
      | false =>
          sn ← lift (unpack_from 4 plain 12);
          match dict_get sn (x_pending s.2) with
          | None => mret None
          | Some (ticket, deadline) =>
              kind ← lift (index plain 1);
              late ← (if negb (kind =? t_kind ticket) then mret true else t ← now; mret (deadline <=? t));
              match late with
              | true => mret None
              | false =>
                  _ ← set_own (set_pending (dict_del sn (x_pending s.2)));
                  outcome ← lift (unpack_from 2 plain 26);
                  mret (Some (mkReceipt ticket outcome))
              end
          end
      end
  end.

Definition close : M (owned BrokerTransactions) (list ReceiptTicket) :=
  x ← own;
  _ ← set_own (λ x, mkTransactions (x_owns x) 0 (x_generation x) [] true);
  _ ← (if x_owns x then namespace Account.close else mret tt);
  mret ((λ kv, kv.2.1) <$> x_pending x).

(** ** [broker_reads.py] *)

Record ReadRequest := mkRequest { q_ticket : ReceiptTicket; q_device : Z; q_path : string }.
Inductive read_status := Response | TransportRejected | Timeout | Cancelled.
Record ReadCompletion := mkCompletion {
  c_request : ReadRequest; c_status : read_status; c_transport : option Z; c_error : option Z; c_value : json
}.
(** [_Pending] *)
Record waiter := mkWaiter { w_request : ReadRequest; w_deadline : Z; w_transport : option Z }.

Record BrokerReads := mkReads {
  b_receipts : BrokerTransactions; b_session : Z; b_pending : list (Z * waiter); b_closed : bool
}.
Definition set_receipts x b := mkReads x (b_session b) (b_pending b) (b_closed b).
Definition set_waiters p b := mkReads (b_receipts b) (b_session b) p (b_closed b).

Definition broker_reads (session_id generation next_sequence : Z) (shared : option BrokerSequences) : result (BrokerSequences * BrokerReads) :=
  s ← broker_transactions session_id generation next_sequence shared;
  Ok (s.1, mkReads s.2 session_id [] false).

Definition receipts {A} (m : M (owned BrokerTransactions) A) : M (owned BrokerReads) A := within b_receipts set_receipts m.

(** [self.closed or not self._receipts.active] *)
Definition reads_closed (s : BrokerSequences * BrokerReads) : bool := b_closed s.2 || negb (active (s.1, b_receipts s.2)).

Definition register_read (device_id : Z) (path : string) (timeout : Z) : M (owned BrokerReads) ReadRequest :=
  s ← state;
  _ ← check (reads_closed s) (ValueError "broker reads closed");
  _ ← check (negb ((0 <? device_id) && (device_id <? 2 ^ 64)) || negb (is_model_path path))
        (ValueError "invalid allowlisted broker read");
  _ ← check (MAX_PENDING <=? len (b_pending s.2)) (ValueError "broker read capacity exhausted");
  t ← now;
  ticket ← receipts (register 0xB7 timeout);
  let request := mkRequest ticket device_id path in
  _ ← set_own (λ b, set_waiters (dict_set (t_sequence ticket) (mkWaiter request (t + timeout) None) (b_pending b)) b);
  mret request.

Definition _finish (pending : waiter) (status : read_status) (error_code : option Z) (value : json) : M (owned BrokerReads) ReadCompletion :=
  let ticket := q_ticket (w_request pending) in
  b ← own;
  d ← lift (dict_pop (t_sequence ticket) (b_pending b));
  _ ← set_own (set_waiters d);
  _ ← receipts (cancel ticket);
  mret (mkCompletion (w_request pending) status (w_transport pending) error_code value).

Fixpoint finish_all (status : read_status) (ps : list waiter) : M (owned BrokerReads) (list ReadCompletion) :=
  match ps with
  | [] => mret []
  | p :: ps => c ← _finish p status None JNull; cs ← finish_all status ps; mret (c :: cs)
  end.

(** The loop over the waiters, in the order of their registration. *)
Fixpoint scan (plain : bytes) (generation : Z) (ps : list waiter) : M (owned BrokerReads) (option ReadCompletion) :=
  match ps with
  | [] => mret None
  | pending :: ps =>
      t ← now;
      match w_deadline pending <=? t with
      | true => scan plain generation ps
      | false =>
          b ← own;
          let request := w_request pending in
          response ← lift (match_model_reply loads plain (q_ticket request) generation (b_session b) (q_device request));
          match response with
          | Some (error_code, value) => c ← _finish pending Response (Some error_code) value; mret (Some c)
          | None => scan plain generation ps
          end
      end
  end.

Definition set_transport (r : Z) (w : waiter) : waiter := mkWaiter (w_request w) (w_deadline w) (Some r).

(** A receipt ends its waiter only when it is a refusal. *)
Definition on_receipt (receipt : TransportReceipt) : M (owned BrokerReads) (option ReadCompletion) :=
  let sn := t_sequence (r_ticket receipt) in
  b ← own;
  match dict_get sn (b_pending b) with
  | None => mret None
  | Some pending =>
      t ← now;
      match w_deadline pending <=? t with
      | true => mret None
      | false =>
          let pending := set_transport (r_result receipt) pending in
          _ ← set_own (λ b, set_waiters (dict_set sn pending (b_pending b)) b);
          match accepted receipt with
          | true => mret None
          | false => c ← _finish pending TransportRejected None JNull; mret (Some c)
          end
      end
  end.

Definition accept_read (plain : bytes) (generation : Z) : M (owned BrokerReads) (option ReadCompletion) :=
  s ← state;
  match reads_closed s with
  | true => mret None
  | false =>
      receipt ← receipts (accept plain generation);
      match receipt with
      | Some receipt => on_receipt receipt
      | None => b ← own; scan plain generation (b_pending b).*2
      end
  end.

Definition poll_reads : M (owned BrokerReads) (list ReadCompletion) :=
  t ← now; b ← own;
  results ← finish_all Timeout (filter (λ w, w_deadline w ≤ t) (b_pending b).*2);
  _ ← receipts poll; mret results.

Definition cancel_read (ticket : ReceiptTicket) : M (owned BrokerReads) (option ReadCompletion) :=
  b ← own;
  match dict_get (t_sequence ticket) (b_pending b) with
  | None => mret None
  | Some pending =>
      if decide (q_ticket (w_request pending) = ticket)
      then c ← _finish pending Cancelled None JNull; mret (Some c)
      else mret None
  end.

Definition close_reads : M (owned BrokerReads) (list ReadCompletion) :=
  b ← own;
  results ← finish_all Cancelled (b_pending b).*2;
  _ ← receipts close;
  _ ← set_own (λ b, mkReads (b_receipts b) 0 (b_pending b) true);
  mret results.

(** ** [broker_heartbeat_reply.py] *)

(** The interval hint of the reply. *)
Definition match_heartbeat_reply (plain : bytes) (ticket : ReceiptTicket) (generation session_id : Z) : result (option (option Z)) :=
  if negb (generation =? t_generation ticket) || negb (t_kind ticket =? 0xA0)
     || (len plain <? 40) || (4096 <? len plain) then Ok None else
  tag ← index plain 0; subtype ← index plain 1;
  if negb (is_tag tag) || negb (subtype =? 0xA1) then Ok None else
  n ← unpack_from 2 plain 2;
  if negb (n =? len plain) then Ok None else
  session ← unpack_from 8 plain 4;
  if negb (session =? session_id) then Ok None else
  request ← unpack_from 4 plain 16;
  if negb (request =? t_sequence ticket) then Ok None else
  flags ← unpack_from 4 plain 20;
  if negb (Z.land (Z.shiftr flags 16) 3 =? 2) || negb (bit flags 21) || bit flags 20 then Ok None else
  hint ← index plain 0x21;
  Ok (Some (if (10 <=? hint) && (hint <=? 60) then Some hint else None)).

(** ** [broker_heartbeat.py] *)

Record BrokerHeartbeat := mkHeartbeat {
  h_session : Z; h_generation : Z; h_pending : option (ReceiptTicket * Z); h_interval_hint : Z; h_closed : bool
}.
Definition set_beat p h := mkHeartbeat (h_session h) (h_generation h) p (h_interval_hint h) (h_closed h).
Record HeartbeatCompletion := mkBeat { beat_ticket : ReceiptTicket; beat_status : read_status; beat_hint : option Z }.

Definition broker_heartbeat (session_id generation : Z) (sequences : BrokerSequences) : result BrokerHeartbeat :=
  _ ← raise_if (negb (matches sequences session_id generation)) (ValueError "heartbeat sequence identity mismatch");
  Ok (mkHeartbeat session_id generation None 50 false).

Definition cadence_seconds (h : BrokerHeartbeat) : Z :=
  if (h_interval_hint h =? 35) || (h_interval_hint h =? 40) then h_interval_hint h else 50.

(** [self.closed or not self._sequences.matches(...)] *)
Definition beat_closed (s : BrokerSequences * BrokerHeartbeat) : bool :=
  h_closed s.2 || negb (matches s.1 (h_session s.2) (h_generation s.2)).

(** The ticket and the wire of [PreparedHeartbeat]; [local_ip] is the packed
    address and [random] the draw of the frame's flags. *)
Definition prepare (node : CertifiedNode) (local_ip : bytes) (local_port timeout random : Z) : M (owned BrokerHeartbeat) (ReceiptTicket * bytes) :=
  s ← state;
  _ ← check (beat_closed s) (ValueError "heartbeat owner closed");
  _ ← check (negb (AccessFrames.session_id node =? h_session s.2)) (ValueError "heartbeat node identity mismatch");
  _ ← check (negb (is_none (h_pending s.2))) (ValueError "heartbeat already pending; poll or cancel explicitly");
  _ ← check (negb (valid_timeout timeout)) (ValueError "invalid heartbeat deadline");
  sn ← namespace allocate;
  let ticket := mkTicket (h_generation s.2) sn 0xA0 in
  t ← now;
  wire ← lift (build_heartbeat (mkNode (AccessFrames.address node) (AccessFrames.session_id node) (AccessFrames.session_key node) sn)
                 local_ip local_port random);
  _ ← set_own (set_beat (Some (ticket, t + timeout)));
  mret (ticket, wire).

Definition accept_heartbeat (plain : bytes) (generation : Z) : M (owned BrokerHeartbeat) (option HeartbeatCompletion) :=
  s ← state;
  match h_pending s.2 with
  | Some (ticket, deadline) =>
      match beat_closed s with
      | true => mret None
      | false =>
          t ← now;
          match deadline <=? t with
          | true => mret None
          | false =>
              reply ← lift (match_heartbeat_reply plain ticket generation (h_session s.2));
              match reply with
              | None => mret None
              | Some hint =>
                  _ ← set_own (λ h, mkHeartbeat (h_session h) (h_generation h) None (default (h_interval_hint h) hint) (h_closed h));
                  mret (Some (mkBeat ticket Response hint))
              end
          end
      end
  | None => mret None
  end.

Definition poll_heartbeat : M (owned BrokerHeartbeat) (option HeartbeatCompletion) :=
  h ← own;
  match h_pending h with
  | None => mret None
  | Some (ticket, deadline) =>
      t ← now;
      match t <? deadline with
      | true => mret None
      | false => _ ← set_own (set_beat None); mret (Some (mkBeat ticket Timeout None))
      end
  end.

Definition cancel_heartbeat (ticket : ReceiptTicket) : M (owned BrokerHeartbeat) (option HeartbeatCompletion) :=
  h ← own;
  match h_pending h with
  | Some (held, _) =>
      if decide (held = ticket) then _ ← set_own (set_beat None); mret (Some (mkBeat ticket Cancelled None)) else mret None
  | None => mret None
  end.

Definition close_heartbeat : M (owned BrokerHeartbeat) (option HeartbeatCompletion) :=
  _ ← set_own (λ h, mkHeartbeat (h_session h) (h_generation h) (h_pending h) (h_interval_hint h) true);
  h ← own;
  match h_pending h with
  | Some (ticket, _) => cancel_heartbeat ticket
  | None => mret None
  end.
End Clock.

(** ** Stepping through the methods *)

Section Steps.
Context {X Y : Type}.
Implicit Types (q : BrokerSequences) (x : X).

Lemma ends_own (P : result X → BrokerSequences * X → Prop) q x : P (Ok x) (q, x) → ends own P (q, x).
Proof. intros H. unfold own. by do 3 ends_step. Qed.

Lemma ends_set_own f (P : result unit → BrokerSequences * X → Prop) q x : P (Ok tt) (q, f x) → ends (set_own f) P (q, x).
Proof. intros H. unfold set_own. by ends_step. Qed.

Lemma ends_namespace {A} (m : M BrokerSequences A) (P : result A → BrokerSequences * X → Prop) q x :
  wp m (λ r q, P r (q, x)) q → ends (namespace m) P (q, x).
Proof. intros H. unfold namespace. ends_step. by apply ends_timeless. Qed.

Lemma ends_within {A} (get : X → Y) put (m : M (owned Y) A) (P : result A → BrokerSequences * X → Prop) q x :
  ends m (λ r y, P r (y.1, put y.2 x)) (q, get x) → ends (within get put m) P (q, x).
Proof. intros H. unfold within. by ends_step. Qed.
End Steps.

Ltac go :=
  cbv beta iota;
  lazymatch goal with
  | |- ends own _ _ => apply ends_own
  | |- ends (set_own _) _ _ => apply ends_set_own
  | |- ends (namespace _) _ _ => apply ends_namespace
  | |- ends (within _ _ _) _ _ => apply ends_within
  | |- ends (receipts _) _ _ => apply ends_within
  | |- _ => ends_step
  end.

Definition value_error (e : exn) : Prop := ∃ msg, e = ValueError msg.

(** A call whose outcome is known, then the rest. *)
Lemma ends_use {X A B} (m : M (X * nat) A) (P : result A → X → Prop) (f : A → M (X * nat) B) Q x :
  ends m P x → (∀ r y, P r y → match r with Ok a => ends (f a) Q y | Raise e => Q (Raise e) y end) → ends (m ≫= f) Q x.
Proof. intros Hm Hf. apply ends_bind. eapply ends_mono; [exact Hm|exact Hf]. Qed.

(** ** The shared namespace *)

Definition taken (q : BrokerSequences) : BrokerSequences :=
  Account.mkSequences (Account._session q) (Account._generation q) (Account._next q + 1) (Account.closed q).

Lemma allocate_spec q :
  wp allocate (λ r q', match r with
    | Ok n => n = Account._next q ∧ q' = taken q ∧ n < 2 ^ 32
    | Raise e => q' = q ∧ value_error e
    end) q.
Proof.
  unfold allocate, Account.reserve. repeat wp_step; try (split; [done|eexists; reflexivity]).
  all: rewrite (seqZ_cons (Account._next q) 1) in * by lia; simplify_eq.
  split_and!; [done|done|lia].
Qed.

(** ** Reply matching *)

Lemma xor_checksum_value f : (24 ≤ length f)%nat → value_or (λ _, True) (gute_mode1_xor_checksum f).
Proof.
  intros L. unfold gute_mode1_xor_checksum, GuteFrame.bad_length.
  destruct (Nat.ltb_spec (length f) 24); [lia|]. rewrite (unpack_from_ok 2 f 2) by len_solve. rewrite !bind_ret.
  apply value_or_raise_if. intros Hd%negb_false_iff%Z.eqb_eq.
  eapply (value_or_bind (λ n, n ≤ len f - 24)).
  - unfold GuteFrame.modern_encrypted_data_len. apply value_or_raise_if. intros _. rewrite (unpack_from_ok 2 f 2), bind_ret by len_solve.
    apply value_or_raise_if. intros _. rewrite (unpack_from_ok 4 f 0x14), bind_ret by len_solve. apply value_or_raise_if. intros _.
    rewrite Hd. cbn. repeat destruct (negb _); lia.
  - intros n Hn _. rewrite (unpack_from_ok 4 f 0x14), bind_ret by len_solve.
    eapply (value_or_bind (λ _, True)).
    + apply foldM_value_or; [|done]. intros o a Ha%list_elem_of_In _. rewrite unpack_from_ok; [done|]. simpl in Ha. lia.
    + intros o _ _. eapply (value_or_bind (λ _, True)); [|done].
      apply foldM_value_or; [|done]. intros o' a (i & -> & Hi%elem_of_seq)%list_elem_of_fmap _. rewrite unpack_from_ok; [done|].
      pose proof (Z.mul_div_le n 4). unfold len in *. lia.
Qed.

(** The number of values in a value, and its depth. *)
Fixpoint jsize (v : json) : nat :=
  match v with
  | JList l => S (sum_list_with jsize l)
  | JDict l => S (sum_list_with (λ kv, jsize kv.2) l)
  | _ => 1
  end.
Fixpoint jdepth (v : json) : nat :=
  match v with
  | JList l => max_list_with (λ c, S (jdepth c)) l
  | JDict l => max_list_with (λ kv, S (jdepth kv.2)) l
  | _ => 0
  end.
Definition small (v : json) : Prop := (jsize v ≤ 256)%nat ∧ (jdepth v ≤ 16)%nat.

Lemma jsize_children v : jsize v = S (sum_list_with jsize (children v)).
Proof. destruct v; try done. simpl. f_equal. induction l as [|[k c] l IH]; [done|]. simpl. by rewrite IH. Qed.

Lemma jdepth_children v n : (jdepth v ≤ n)%nat ↔ Forall (λ c, S (jdepth c) ≤ n)%nat (children v).
Proof.
  assert (∀ l, (max_list_with (λ c, S (jdepth c)) l ≤ n)%nat ↔ Forall (λ c, S (jdepth c) ≤ n)%nat l) as H.
  { induction l as [|c l IH]; simpl; [split; [done|lia]|]. rewrite Forall_cons, <-IH. lia. }
  destruct v; simpl; try (split; [done|lia]); [apply H|]. rewrite <-H.
  assert (max_list_with (λ kv : string * json, S (jdepth kv.2)) l = max_list_with (λ c, S (jdepth c)) l.*2) as ->; [|done].
  induction l as [|[k c] l IH]; [done|]. simpl. by rewrite IH.
Qed.
Lemma sum_list_perm {A} (f : A → nat) l k : l ≡ₚ k → sum_list_with f l = sum_list_with f k.
Proof. induction 1; simpl; lia. Qed.

Lemma bounded_loop_spec fuel : ∀ pending visited, 0 ≤ visited ≤ 256 → 257 - visited < Z.of_nat fuel →
  Forall (λ p : json * Z, 0 ≤ p.2) pending →
  bounded_loop fuel pending visited =
  Ok (bool_decide (visited + Z.of_nat (sum_list_with (λ p, jsize p.1) pending) ≤ 256 ∧
                   Forall (λ p, p.2 + Z.of_nat (jdepth p.1) ≤ 16) pending)).
Proof.
  induction fuel as [|fuel IH]; intros pending visited Hv Hf Hd; [lia|]. destruct pending as [|[item depth] pending]; cbn [bounded_loop].
  - rewrite bool_decide_true; [done|]. split; [simpl; lia|done].
  - apply Forall_cons in Hd as [Hd0 Hd]. cbn [snd] in Hd0. cbn [sum_list_with fst].
    set (cs := children item). assert (sum_list_with (λ p : json * Z, jsize p.1) pending ≥ length pending)%nat as Hlen.
    { clear. induction pending as [|[v d] l IH]; simpl; [lia|]. rewrite jsize_children. lia. }
    pose proof (jsize_children item) as Hs. fold cs in Hs.
    assert (sum_list_with jsize cs ≥ length cs)%nat as Hcs.
    { clear. induction cs as [|v l IH]; simpl; [lia|]. rewrite jsize_children. lia. }
    destruct ((16 <? depth) || (256 <? visited + 1)) eqn:E1.
    { rewrite bool_decide_false; [done|]. intros [Hsum [Hdep _]%Forall_cons]. cbn [fst snd] in *.
      apply orb_true_iff in E1 as [?|?]; lia. }
    destruct (256 <? len pending + len cs) eqn:E2.
    { rewrite bool_decide_false; [done|]. intros [Hsum _]. unfold len in E2. lia. }
    apply orb_false_iff in E1 as [E1 E1']. rewrite IH; [|lia|lia|].
    + f_equal. apply bool_decide_ext. rewrite sum_list_with_app, Forall_app, Forall_cons. cbn [fst snd].
      rewrite (sum_list_perm _ (rev _) ((λ c, (c, depth + 1)) <$> cs)) by (symmetry; apply Permutation_rev).
      assert (∀ l, sum_list_with (λ p : json * Z, jsize p.1) ((λ c, (c, depth + 1)) <$> l) = sum_list_with jsize l) as ->.
      { induction l as [|c l IHl]; [done|]. rewrite fmap_cons. cbn [sum_list_with fst]. by rewrite IHl. }
      rewrite <-(Permutation_rev ((λ c, (c, depth + 1)) <$> cs)), Forall_fmap.
      assert (depth + Z.of_nat (jdepth item) ≤ 16 ↔ Forall ((λ p : json * Z, p.2 + Z.of_nat (jdepth p.1) ≤ 16) ∘ (λ c, (c, depth + 1))) cs) as ->.
      { transitivity (jdepth item ≤ Z.to_nat (16 - depth))%nat; [lia|]. rewrite jdepth_children. fold cs.
        rewrite !Forall_forall. split; intros H c Hc; specialize (H c Hc); cbn in *; lia. }
      rewrite Hs. split; intros (? & ? & ?); split_and!; try done; lia.
    + apply Forall_app; split; [|done]. rewrite <-(Permutation_rev ((λ c, (c, depth + 1)) <$> cs)). apply Forall_fmap, Forall_true. intros c. cbn. lia.
Qed.

(** [_bounded_value] admits exactly the values of at most 256 nodes, no deeper
    than 16. *)
Lemma bounded_value_spec v : _bounded_value v = Ok (bool_decide (small v)).
Proof.
  unfold _bounded_value. rewrite bounded_loop_spec; [|lia|lia|by repeat constructor]. f_equal. apply bool_decide_ext.
  unfold small. rewrite Forall_singleton. simpl. lia.
Qed.

Section Replies.
Context (loads : bytes → decoded).

Lemma uncorrelated_ok frame sn : (24 ≤ length frame)%nat → ∃ b, uncorrelated frame sn = Ok b ∧
  (b = false → is_tag (frame !!! 0%nat) = true ∧ unpack_from 4 frame 0x10 = Ok (Z.land sn 0xFFFFFFFF)).
Proof.
  intros L. unfold uncorrelated. rewrite (unpack_from_ok 4 frame 0x14), bind_ret by lia.
  rewrite (index_ok frame 0), bind_ret by lia. destruct (is_tag _) eqn:Et; cbn [negb]; [|by exists true].
  rewrite (unpack_from_ok 2 frame 2), bind_ret by lia. destruct (_ || _); [by exists true|].
  rewrite (unpack_from_ok 4 frame 0x10), bind_ret by lia. eexists; split; [done|]. intros E%negb_false_iff%Z.eqb_eq. by rewrite E.
Qed.

(** A reply matched to a ticket answers that request. *)
Record answers (plain : bytes) (ticket : ReceiptTicket) (session device error : Z) (v : json) : Prop := {
  ans_kind : t_kind ticket = 0xB7 ∧ index plain 1 = Ok 0xB8;
  ans_size : 0x26 ≤ len plain ≤ MAX_REPLY_BYTES;
  ans_session : unpack_from 8 plain 4 = Ok session;
  ans_request : unpack_from 4 plain 16 = Ok (Z.land (t_sequence ticket) 0xFFFFFFFF);
  ans_device : unpack_from 8 plain 0x18 = Ok device;
  ans_error : unpack_from 2 plain 0x24 = Ok error;
  ans_value : small v
}.

Lemma parse_reply_ok frame device sn : (0x26 ≤ length frame)%nat →
  match parse_model_read_response loads frame device (Some sn) with
  | Ok None => True
  | Ok (Some (e, v)) => index frame 1 = Ok 0xB8 ∧ unpack_from 4 frame 16 = Ok (Z.land sn 0xFFFFFFFF) ∧
      unpack_from 8 frame 0x18 = Ok device ∧ unpack_from 2 frame 0x24 = Ok e
  | Raise (ValueError _) | Raise (RuntimeError _) => True
  | Raise _ => False
  end.
Proof.
  intros L. unfold parse_model_read_response. destruct (Nat.ltb_spec (length frame) 0x26); [lia|].
  rewrite (index_ok frame 1), bind_ret by lia. destruct (Z.eqb_spec (frame !!! 1%nat) 0xB8) as [->|]; cbn [negb]; [|done].
  destruct (uncorrelated_ok frame sn) as (b & -> & Hb); [lia|]. rewrite bind_ret. destruct b; [done|].
  destruct Hb as [_ Hb]; [done|]. rewrite (unpack_from_ok 8 frame 0x18), bind_ret by lia.
  destruct (Z.eqb_spec (undigits 256 (slice 0x18 (0x18 + 8) frame)) device) as [->|]; cbn [negb]; [|done].
  rewrite (unpack_from_ok 2 frame 0x24), bind_ret by lia. rewrite (index_ok frame 0x20), bind_ret by lia.
  destruct (_ =? 0); [done|]. destruct (Nat.ltb_spec (length frame) 0x28); [done|].
  rewrite (unpack_from_ok 2 frame 0x26), bind_ret by lia. destruct (_ <? _); [done|]. by destruct (loads _).
Qed.

Lemma match_model_reply_ok plain ticket generation session device :
  ∃ r, match_model_reply loads plain ticket generation session device = Ok r ∧
    match r with
    | None => True
    | Some (e, v) => generation = t_generation ticket ∧ answers plain ticket session device e v
    end.
Proof.
  unfold match_model_reply. destruct (_ || _) eqn:E; [by exists None|].
  rewrite !orb_false_iff, !negb_false_iff, !Z.eqb_eq in E. destruct E as (((Hg & Hk) & Hl) & Hu).
  unfold len in Hl. rewrite (unpack_from_ok 8 plain 4), bind_ret by lia.
  destruct (Z.eqb_spec (undigits 256 (slice 4 (4 + 8) plain)) session) as [Es|]; cbn [negb]; [|by exists None].
  rewrite (unpack_from_ok 4 plain 20), bind_ret by lia. destruct (negb _); [by exists None|].
  pose proof (parse_reply_ok plain device (t_sequence ticket)) as Hp.
  destruct (parse_model_read_response _ _ _ _) as [[[e v]|]|[]]; try (by exists None); try (exfalso; apply Hp; lia).
  destruct Hp as (H1 & H2 & H3 & H4); [lia|]. rewrite bounded_value_spec, bind_ret. eexists; split; [done|].
  case_bool_decide; [|done]. split; [done|]. split; try done; [unfold MAX_REPLY_BYTES, len in *; lia|]. rewrite unpack_from_ok by lia. by rewrite Es.
Qed.

Lemma match_heartbeat_reply_ok plain ticket generation session :
  ∃ r, match_heartbeat_reply plain ticket generation session = Ok r ∧
    match r with
    | None => True
    | Some hint => generation = t_generation ticket ∧ t_kind ticket = 0xA0 ∧ index plain 1 = Ok 0xA1 ∧
        unpack_from 8 plain 4 = Ok session ∧ unpack_from 4 plain 16 = Ok (t_sequence ticket) ∧
        match hint with Some h => 10 ≤ h ≤ 60 | None => True end
    end.
Proof.
  unfold match_heartbeat_reply. destruct (_ || _) eqn:E; [by exists None|].
  rewrite !orb_false_iff, !negb_false_iff, !Z.eqb_eq in E. destruct E as (((Hg & Hk) & Hl) & Hu). unfold len in Hl.
  rewrite (index_ok plain 0), bind_ret by lia. rewrite (index_ok plain 1), bind_ret by lia.
  destruct (is_tag _); cbn [negb orb]; [|by exists None]. destruct (Z.eqb_spec (plain !!! 1%nat) 0xA1) as [->|]; cbn [negb]; [|by exists None].
  rewrite (unpack_from_ok 2 plain 2), bind_ret by lia. destruct (negb _); [by exists None|].
  rewrite (unpack_from_ok 8 plain 4), bind_ret by lia.
  destruct (Z.eqb_spec (undigits 256 (slice 4 (4 + 8) plain)) session) as [Es|]; cbn [negb]; [|by exists None].
  rewrite (unpack_from_ok 4 plain 16), bind_ret by lia.
  destruct (Z.eqb_spec (undigits 256 (slice 16 (16 + 4) plain)) (t_sequence ticket)) as [Er|]; cbn [negb]; [|by exists None].
  rewrite (unpack_from_ok 4 plain 20), bind_ret by lia. destruct (_ || _); [by exists None|].
  rewrite (index_ok plain 0x21), bind_ret by lia. eexists; split; [done|]. rewrite Es, Er. split_and!; try done.
  destruct (_ && _) eqn:Eh; [|done]. apply andb_true_iff in Eh. lia.
Qed.
End Replies.
(** ** The waiters of reads *)

Definition ticket_of (w : waiter) : ReceiptTicket := q_ticket (w_request w).
Definition requests (b : BrokerReads) : list ReadRequest := (λ kv, w_request kv.2) <$> b_pending b.
Definition tickets (b : BrokerReads) : list ReceiptTicket := q_ticket <$> requests b.

Lemma tickets_elem b t : t ∈ tickets b ↔ ∃ k w, (k, w) ∈ b_pending b ∧ ticket_of w = t.
Proof.
  unfold tickets, requests. rewrite <-list_fmap_compose, list_elem_of_fmap. split.
  - intros ([k w] & -> & Hin). by exists k, w.
  - intros (k & w & Hin & <-). by exists (k, w).
Qed.

Lemma tickets_ended b b' rs : requests b ≡ₚ rs ++ requests b' → tickets b ≡ₚ (q_ticket <$> rs) ++ tickets b'.
Proof. unfold tickets. intros ->. by rewrite fmap_app. Qed.

Record reads_ok (q : BrokerSequences) (b : BrokerReads) : Prop := {
  ro_keys : NoDup (b_pending b).*1;
  ro_entry k w : (k, w) ∈ b_pending b → t_sequence (ticket_of w) = k ∧ t_kind (ticket_of w) = 0xB7 ∧
    t_generation (ticket_of w) = x_generation (b_receipts b) ∧ k < Account._next q ∧ 0 ≤ k < 2 ^ 32;
  ro_size : len (b_pending b) ≤ MAX_PENDING;
  ro_tx_keys : NoDup (x_pending (b_receipts b)).*1;
  ro_tx k t d : (k, (t, d)) ∈ x_pending (b_receipts b) → t_sequence t = k ∧ ∃ w, (k, w) ∈ b_pending b ∧ ticket_of w = t;
  ro_closed : b_closed b = true → b_pending b = []
}.

(** What an operation other than [close] keeps. *)
Record same_owner (b b' : BrokerReads) : Prop := {
  same_session : b_session b' = b_session b;
  same_closed : b_closed b' = b_closed b;
  same_tx_session : x_session (b_receipts b') = x_session (b_receipts b);
  same_tx_closed : x_closed (b_receipts b') = x_closed (b_receipts b);
  same_generation : x_generation (b_receipts b') = x_generation (b_receipts b);
  same_owns : x_owns (b_receipts b') = x_owns (b_receipts b)
}.

(** The owner without the waiter [k] and its receipt. *)
Definition without (k : Z) (b : BrokerReads) : BrokerReads :=
  set_waiters (dict_del k (b_pending b)) (set_receipts (set_pending (dict_del k (x_pending (b_receipts b))) (b_receipts b)) b).

Lemma without_ok q b k : reads_ok q b → reads_ok q (without k b).
Proof.
  intros [H1 H2 H3 H4 H5 H6]. split; cbn [without set_waiters set_receipts set_pending b_receipts b_session b_pending b_closed x_pending x_generation].
  - by apply dict_del_keys.
  - intros k' w [Hin _]%dict_del_elem. by apply H2.
  - pose proof (dict_del_length k (b_pending b)). unfold len in *. lia.
  - by apply dict_del_keys.
  - intros k' t d [Hin Hne]%dict_del_elem. cbn in Hne. destruct (H5 _ _ _ Hin) as (? & w & ? & ?). split; [done|]. exists w.
    split; [|done]. by apply dict_del_elem.
  - intros Hc. by rewrite (H6 Hc).
Qed.

Lemma requests_without q b k w : reads_ok q b → (k, w) ∈ b_pending b → requests b ≡ₚ w_request w :: requests (without k b).
Proof.
  intros H Hin. pose proof (dict_del_perm k w (b_pending b) (ro_keys _ _ H) (dict_get_nodup _ _ _ (ro_keys _ _ H) Hin)) as Hp.
  unfold requests. by rewrite Hp at 1.
Qed.

(** A ticket belongs to one request. *)
Lemma requests_unique q b r r' : reads_ok q b → r ∈ requests b → r' ∈ requests b → q_ticket r = q_ticket r' → r = r'.
Proof.
  intros H ([k w] & -> & Hin)%list_elem_of_fmap ([k' w'] & -> & Hin')%list_elem_of_fmap E. cbn in *.
  destruct (ro_entry _ _ H _ _ Hin) as [Ek _]. destruct (ro_entry _ _ H _ _ Hin') as [Ek' _]. unfold ticket_of in *.
  assert (k = k') as <- by congruence.
  pose proof (dict_get_nodup _ _ _ (ro_keys _ _ H) Hin). pose proof (dict_get_nodup _ _ _ (ro_keys _ _ H) Hin'). congruence.
Qed.

Lemma reads_ok_next q q' b : reads_ok q b → Account._next q ≤ Account._next q' → reads_ok q' b.
Proof. intros [H1 H2 H3 H4 H5 H6] Hq. split; try done. intros k w Hin. destruct (H2 _ _ Hin) as (? & ? & ? & ? & ?). split_and!; try done; lia. Qed.

Section Reads.
Context (clock : nat → Z) (loads : bytes → decoded).

Lemma cancel_ok (P : result bool → BrokerSequences * BrokerTransactions → Prop) q x ticket :
  (∀ t d, dict_get (t_sequence ticket) (x_pending x) = Some (t, d) → t = ticket) →
  (∀ b, P (Ok b) (q, set_pending (dict_del (t_sequence ticket) (x_pending x)) x)) → ends (cancel ticket) P (q, x).
Proof.
  intros Hheld HP. unfold cancel. go. go. destruct (dict_get _ _) as [[t d]|] eqn:E.
  - rewrite decide_True by (by eapply Hheld). go. go. go. done.
  - go. specialize (HP false). rewrite dict_del_fresh in HP by done. by destruct x.
Qed.

Lemma _finish_ok (P : result ReadCompletion → BrokerSequences * BrokerReads → Prop) q b k w status error value :
  reads_ok q b → (k, w) ∈ b_pending b →
  P (Ok (mkCompletion (w_request w) status (w_transport w) error value)) (q, without k b) →
  ends (_finish w status error value) P (q, b).
Proof.
  intros H Hin HP. destruct (ro_entry _ _ H k w Hin) as (Hk & _). pose proof (dict_get_nodup _ _ _ (ro_keys _ _ H) Hin) as Hget.
  unfold _finish. fold (ticket_of w). rewrite Hk. do 4 go. unfold dict_pop. rewrite Hget. do 4 go. apply cancel_ok.
  - intros t d Ht%dict_get_elem. destruct (ro_tx _ _ H _ _ _ Ht) as (_ & w' & Hin' & <-). rewrite Hk in Hin'.
    pose proof (dict_get_nodup _ _ _ (ro_keys _ _ H) Hin'). congruence.
  - intros _. go. rewrite Hk. exact HP.
Qed.

Lemma finish_all_ok (P : result (list ReadCompletion) → BrokerSequences * BrokerReads → Prop) q status ps : ∀ b,
  reads_ok q b → NoDup ((λ w, t_sequence (ticket_of w)) <$> ps) → (∀ w, w ∈ ps → (t_sequence (ticket_of w), w) ∈ b_pending b) →
  (∀ b', reads_ok q b' → requests b ≡ₚ (w_request <$> ps) ++ requests b' → same_owner b b' →
     (∀ kv, kv ∈ b_pending b' → kv ∈ b_pending b) →
     P (Ok ((λ w, mkCompletion (w_request w) status (w_transport w) None JNull) <$> ps)) (q, b')) →
  ends (finish_all status ps) P (q, b).
Proof.
  revert P. induction ps as [|w ps IH]; intros P b H Hnd Hin HP; cbn [finish_all].
  - go. by apply HP.
  - apply NoDup_cons in Hnd as [Hni Hnd]. go. eapply (_finish_ok _ q b _ w); [done|apply Hin; set_solver|]. go.
    apply IH; [by apply without_ok|done| |].
    + intros w' Hw'. apply dict_del_elem. split; [apply Hin; set_solver|]. cbn. intros E. apply Hni. rewrite <-E. apply list_elem_of_fmap. by exists w'.
    + intros b' Hb' Hp Hsame Hsub. go. apply HP; try done.
      * rewrite (requests_without q b _ w H) by (apply Hin; set_solver). cbn. by rewrite Hp.
      * by destruct Hsame; split.
      * intros kv Hkv. by apply Hsub, dict_del_elem in Hkv as [? _].
Qed.

(** The waiters of some entries, for [finish_all]. *)
Lemma entries_nodup q b l : reads_ok q b → l `sublist_of` b_pending b →
  NoDup ((λ w, t_sequence (ticket_of w)) <$> l.*2) ∧ (∀ w, w ∈ l.*2 → (t_sequence (ticket_of w), w) ∈ b_pending b).
Proof.
  intros H Hl. assert (∀ k w, (k, w) ∈ l → t_sequence (ticket_of w) = k) as Hk.
  { intros k w Hin. apply (ro_entry _ _ H k w). eapply sublist_subseteq; eauto. }
  split.
  - assert ((λ w, t_sequence (ticket_of w)) <$> l.*2 = l.*1) as ->.
    { rewrite <-list_fmap_compose. apply list_fmap_ext. intros i [k w] Hin%list_elem_of_lookup_2. cbn. by apply Hk. }
    eapply sublist_NoDup; [apply (ro_keys _ _ H)|by apply fmap_sublist].
  - intros w ([k w'] & -> & Hin)%list_elem_of_fmap. cbn. rewrite (Hk k w') by done. eapply sublist_subseteq; eauto.
Qed.

Lemma tickets_nodup q b : reads_ok q b → NoDup (tickets b).
Proof.
  intros H. destruct (entries_nodup q b (b_pending b) H) as [Hn _]; [done|].
  apply (NoDup_fmap_1 t_sequence). unfold tickets, requests. by rewrite <-!list_fmap_compose in *.
Qed.

(** The completion a reply gives a waiter. *)
Definition replied (w : waiter) (error : Z) (v : json) : ReadCompletion :=
  mkCompletion (w_request w) Response (w_transport w) (Some error) v.
Definition matched (plain : bytes) (generation session : Z) (w : waiter) : result (option (Z * json)) :=
  match_model_reply loads plain (ticket_of w) generation session (q_device (w_request w)).

(** The times the clock may show during the call. *)
Context (during : Z → Prop) (Hclock : ∀ i, during (clock i)).

Lemma ends_now_in {X} (P : result Z → X → Prop) x : (∀ t, during t → P (Ok t) x) → ends (now clock) P x.
Proof. intros H n. apply H, Hclock. Qed.

(** A deadline that some reading, or every reading, precedes or reaches. *)
Definition may_hold (d : Z) : Prop := ∃ t, during t ∧ t < d.
Definition must_hold (d : Z) : Prop := ∀ t, during t → t < d.
Definition may_expire (d : Z) : Prop := ∃ t, during t ∧ d ≤ t.
Definition must_expire (d : Z) : Prop := ∀ t, during t → d ≤ t.

Lemma holds_at t d : during t → (d <=? t) = false → may_hold d.
Proof. intros Ht ?%Z.leb_gt. by exists t. Qed.
Lemma expires_at t d : during t → (d <=? t) = true → ¬ must_hold d ∧ may_expire d.
Proof. intros Ht ?%Z.leb_le. split; [|by exists t]. intros Hm. specialize (Hm t Ht). lia. Qed.

(** A frame answers at most one waiter. *)
Lemma one_match plain generation q b w w' : reads_ok q b →
  (t_sequence (ticket_of w), w) ∈ b_pending b → (t_sequence (ticket_of w'), w') ∈ b_pending b →
  matched plain generation (b_session b) w ≠ Ok None → matched plain generation (b_session b) w' ≠ Ok None → w = w'.
Proof.
  intros H Hw Hw' Hm Hm'. unfold matched in *.
  destruct (match_model_reply_ok loads plain (ticket_of w) generation (b_session b) (q_device (w_request w))) as ([[e v]|] & E & Ha); [|done].
  destruct (match_model_reply_ok loads plain (ticket_of w') generation (b_session b) (q_device (w_request w'))) as ([[e' v']|] & E' & Ha'); [|done].
  destruct Ha as [_ Ha], Ha' as [_ Ha']. pose proof (ans_request _ _ _ _ _ _ Ha) as R. rewrite (ans_request _ _ _ _ _ _ Ha') in R.
  apply (inj Ok) in R. rewrite !AccessFrames.masked32 in R by (by eapply (ro_entry _ _ H)). rewrite R in Hw'.
  pose proof (dict_get_nodup _ _ _ (ro_keys _ _ H) Hw). pose proof (dict_get_nodup _ _ _ (ro_keys _ _ H) Hw'). congruence.
Qed.

Lemma scan_ok plain generation (P : result (option ReadCompletion) → BrokerSequences * BrokerReads → Prop) q b ps :
  reads_ok q b → (∀ w, w ∈ ps → (t_sequence (ticket_of w), w) ∈ b_pending b) →
  ((∀ w, w ∈ ps → must_hold (w_deadline w) → matched plain generation (b_session b) w = Ok None) → P (Ok None) (q, b)) →
  (∀ w e v, w ∈ ps → may_hold (w_deadline w) → matched plain generation (b_session b) w = Ok (Some (e, v)) →
     P (Ok (Some (replied w e v))) (q, without (t_sequence (ticket_of w)) b)) →
  ends (scan clock loads plain generation ps) P (q, b).
Proof.
  intros H. induction ps as [|w ps IH]; intros Hps Hnone Hsome; cbn [scan].
  - go. apply Hnone. intros w Hw. by apply elem_of_nil in Hw.
  - go. apply ends_now_in. intros t Ht. cbv beta iota. destruct (w_deadline w <=? t) eqn:Ed.
    + apply IH; [set_solver| |set_solver]. intros Hall. apply Hnone. intros w' [->|Hw']%elem_of_cons Hd; [by destruct (expires_at t _ Ht Ed)|by apply Hall].
    + go. go. go. go. fold (ticket_of w). fold (matched plain generation (b_session b) w).
      destruct (match_model_reply_ok loads plain (ticket_of w) generation (b_session b) (q_device (w_request w))) as (r & E & _).
      fold (matched plain generation (b_session b) w) in E. rewrite E. destruct r as [[e v]|].
      * go. eapply (_finish_ok _ q b _ w); [done|apply Hps; set_solver|]. go. apply Hsome; [set_solver|by eapply holds_at|done].
      * apply IH; [set_solver| |set_solver]. intros Hall. apply Hnone. intros w' [->|Hw']%elem_of_cons Hd; [done|by apply Hall].
Qed.

(** A sealed receipt of the session: 32 bytes, its own checksum. *)
Record receipt_frame (plain : bytes) (session : Z) (ticket : ReceiptTicket) (outcome : Z) : Prop := {
  rcp_length : len plain = 32;
  rcp_session : unpack_from 8 plain 4 = Ok session;
  rcp_checksum : gute_mode1_xor_checksum plain = unpack_from 4 plain 16;
  rcp_kind : index plain 1 = Ok (t_kind ticket);
  rcp_sequence : unpack_from 4 plain 12 = Ok (t_sequence ticket);
  rcp_result : unpack_from 2 plain 26 = Ok outcome
}.

Lemma unsealed_value session plain :
  value_or (λ bad, bad = false → len plain = 32 ∧ unpack_from 8 plain 4 = Ok session ∧
    gute_mode1_xor_checksum plain = unpack_from 4 plain 16) (unsealed session plain).
Proof.
  unfold unsealed. destruct (Z.eqb_spec (len plain) 32) as [L|]; cbn [negb]; [|done]. unfold len in L.
  rewrite (index_ok plain 0), bind_ret by lia. destruct (is_tag _); cbn [negb]; [|done].
  rewrite (unpack_from_ok 2 plain 2), bind_ret by lia. destruct (negb _); [done|].
  rewrite (unpack_from_ok 8 plain 4), bind_ret by lia.
  destruct (Z.eqb_spec (undigits 256 (slice 4 (4 + 8) plain)) session) as [->|]; cbn [negb]; [|done].
  rewrite (unpack_from_ok 4 plain 16), bind_ret by lia.
  eapply value_or_bind; [apply xor_checksum_value; lia|]. intros c _ Ec. cbn. intros E%negb_false_iff%Z.eqb_eq.
  unfold len. split_and!; [lia|done|]. rewrite Ec. by rewrite E.
Qed.

(** The checksum of the frame can be computed, as it can for every frame that was
    decrypted. *)
Definition sealable (plain : bytes) : Prop := ∃ c, gute_mode1_xor_checksum plain = Ok c.

Lemma unsealed_sealable session plain : sealable plain → ∃ bad, unsealed session plain = Ok bad.
Proof.
  intros [c Hc]. unfold unsealed. destruct (Z.eqb_spec (len plain) 32) as [L|]; cbn [negb]; [|by eexists]. unfold len in L.
  rewrite (index_ok plain 0), bind_ret by lia. destruct (is_tag _); cbn [negb]; [|by eexists].
  rewrite (unpack_from_ok 2 plain 2), bind_ret by lia. destruct (negb _); [by eexists|].
  rewrite (unpack_from_ok 8 plain 4), bind_ret by lia. destruct (negb _); [by eexists|].
  rewrite (unpack_from_ok 4 plain 16), bind_ret by lia. rewrite Hc, bind_ret. by eexists.
Qed.

Lemma accept_ok plain generation (P : result (option TransportReceipt) → BrokerSequences * BrokerTransactions → Prop) q x :
  (∀ k t d, (k, (t, d)) ∈ x_pending x → t_sequence t = k) →
  P (Ok None) (q, x) → (∀ msg, ¬ sealable plain → P (Raise (ValueError msg)) (q, x)) →
  (∀ ticket d outcome, dict_get (t_sequence ticket) (x_pending x) = Some (ticket, d) → may_hold d →
     receipt_frame plain (x_session x) ticket outcome →
     P (Ok (Some (mkReceipt ticket outcome))) (q, set_pending (dict_del (t_sequence ticket) (x_pending x)) x)) →
  ends (accept clock plain generation) P (q, x).
Proof.
  intros Hk Hnone Hraise Hsome. unfold accept. do 3 go.
  apply (ends_mono _ (λ r s, s = (q, x) ∧ value_or (λ bad, bad = false → len plain = 32 ∧ unpack_from 8 plain 4 = Ok (x_session x) ∧
    gute_mode1_xor_checksum plain = unpack_from 4 plain 16) r ∧ (sealable plain → ∃ bad, r = Ok bad))).
  { destruct (_ || _); go; (split; [done|]); [split; [done|by eexists]|split; [apply unsealed_value|apply unsealed_sealable]]. }
  intros r s (-> & Hr & Hv). destruct r as [bad|e].
  2:{ destruct e; try done. apply Hraise. intros [bad [=]]%Hv. }
  destruct bad; [by go|]. destruct (Hr eq_refl) as (L & Hs & Hc). unfold len in L.
  do 2 go. rewrite (unpack_from_ok 4 plain 20) by lia. cbv beta iota. destruct (_ || _); [by go|].
  do 2 go. rewrite (unpack_from_ok 4 plain 12) by lia. cbv beta iota.
  destruct (dict_get _ _) as [[ticket d]|] eqn:E; [|by go].
  pose proof (Hk _ _ _ (dict_get_elem _ _ _ E)) as Ek. do 2 go. rewrite (index_ok plain 1) by lia. cbv beta iota. go.
  apply (ends_mono _ (λ r s, s = (q, x) ∧ ∃ late, r = Ok late ∧ (late = false → plain !!! 1%nat = t_kind ticket ∧ may_hold d))).
  { destruct (negb _) eqn:Ekind; [go; split; [done|]; by exists true|]. apply negb_false_iff, Z.eqb_eq in Ekind.
    go. apply ends_now_in. intros t Ht. go. split; [done|]. eexists; split; [done|]. intros Hl. split; [done|by eapply holds_at]. }
  intros r s (-> & late & -> & Hlate). destruct late; [by go|]. destruct (Hlate eq_refl) as [Ekind Hd].
  do 4 go. rewrite (unpack_from_ok 2 plain 26) by lia. go. rewrite <-Ek. apply (Hsome _ d); [by rewrite Ek|done|].
  split; try done.
  - rewrite (index_ok plain 1) by lia. by rewrite Ekind.
  - rewrite (unpack_from_ok 4 plain 12) by lia. by rewrite <-Ek.
  - by rewrite unpack_from_ok by lia.
Qed.

(** The next sequence number is in use nowhere. *)
Lemma fresh_key q b w : reads_ok q b → (Account._next q, w) ∉ b_pending b.
Proof. intros H Hin. apply (ro_entry _ _ H) in Hin as (_ & _ & _ & ? & _). lia. Qed.

Lemma reads_ok_add q b device path t t' : reads_ok q b → 0 ≤ Account._next q < 2 ^ 32 → len (b_pending b) < MAX_PENDING → b_closed b = false →
  let ticket := mkTicket (x_generation (b_receipts b)) (Account._next q) 0xB7 in
  reads_ok (taken q)
    (mkReads (set_pending (x_pending (b_receipts b) ++ [(Account._next q, (ticket, t'))]) (b_receipts b)) (b_session b)
       (b_pending b ++ [(Account._next q, mkWaiter (mkRequest ticket device path) t None)]) (b_closed b)).
Proof.
  intros H Hq Hroom Hopen ticket. pose proof (λ w, fresh_key q b w H) as Hfresh. destruct H as [E1 E2 E3 E4 E5 E6].
  split; cbn [b_pending b_receipts b_closed x_pending x_generation set_pending].
  - rewrite fmap_app. apply NoDup_app. split_and!; [done| |apply NoDup_singleton]. intros k Hk Hk'.
    apply list_elem_of_fmap in Hk as ([k' w] & -> & Hin). cbn in Hk'. apply list_elem_of_singleton in Hk' as E. subst. by eapply Hfresh.
  - intros k w [Hin|[= -> ->]%list_elem_of_singleton]%elem_of_app.
    + destruct (E2 _ _ Hin) as (? & ? & ? & ? & ?). cbn. split_and!; try done; lia.
    + cbn. split_and!; try done; lia.
  - unfold len in *. rewrite length_app. cbn. unfold MAX_PENDING in *. lia.
  - rewrite fmap_app. apply NoDup_app. split_and!; [done| |apply NoDup_singleton]. intros k Hk Hk'.
    apply list_elem_of_fmap in Hk as ([k' [t0 d0]] & -> & Hin). cbn in Hk'. apply list_elem_of_singleton in Hk' as E. subst.
    destruct (E5 _ _ _ Hin) as (_ & w & Hin' & _). by eapply Hfresh.
  - intros k t0 d0 [Hin|[= -> -> ->]%list_elem_of_singleton]%elem_of_app.
    + destruct (E5 _ _ _ Hin) as (? & w & ? & ?). split; [done|]. exists w. split; [|done]. apply elem_of_app. by left.
    + split; [done|]. eexists. split; [apply elem_of_app; right; apply list_elem_of_singleton; reflexivity|done].
  - congruence.
Qed.

Lemma register_read_ok device path timeout (P : result ReadRequest → BrokerSequences * BrokerReads → Prop) q b :
  reads_ok q b → 0 ≤ Account._next q →
  (∀ msg, P (Raise (ValueError msg)) (q, b)) →
  (∀ t x', let ticket := mkTicket (x_generation (b_receipts b)) (Account._next q) 0xB7 in
     let request := mkRequest ticket device path in
     let b' := mkReads x' (b_session b) (b_pending b ++ [(Account._next q, mkWaiter request (t + timeout) None)]) (b_closed b) in
     during t → is_model_path path = true → valid_timeout timeout = true → reads_ok (taken q) b' → same_owner b b' →
     P (Ok request) (taken q, b')) →
  ends (register_read clock device path timeout) P (q, b).
Proof.
  intros H Hq Hraise Hok. unfold register_read. do 4 go; [apply Hraise|]. cbn [snd]. do 2 go; [apply Hraise|]. do 2 go; [apply Hraise|].
  apply orb_false_iff in H0 as [Hc _]. cbn [snd] in Hc.
  apply orb_false_iff in H1 as [_ Hpath%negb_false_iff]. go. apply ends_now_in. intros t Ht. cbv beta iota. go. go.
  assert (set_receipts (b_receipts b) b = b) as Hb by (by destruct b).
  unfold register. do 4 go; [cbn [fst snd]; rewrite Hb; apply Hraise|]. cbn [snd]. do 2 go; [cbn [fst snd]; rewrite Hb; apply Hraise|].
  do 2 go; [cbn [fst snd]; rewrite Hb; apply Hraise|]. go. go.
  match goal with E : _ || negb (valid_timeout _) = false |- _ => apply orb_false_iff in E as [_ Htime%negb_false_iff] end.
  eapply wp_mono; [apply allocate_spec|]. intros [n|e] q'; cbv beta iota; [|intros [-> [msg ->]]; cbn [fst snd]; rewrite Hb; apply Hraise].
  intros (-> & -> & Hn). go. apply ends_now. intros t'. cbv beta iota. do 2 go. go. cbn [fst snd]. do 2 go. go.
  pose proof (λ w, fresh_key q b w H) as Hfresh.
  cbn [set_waiters set_receipts set_pending b_pending b_receipts b_session b_closed x_pending x_generation x_owns x_session x_closed t_sequence].
  rewrite !dict_set_fresh.
  - apply Hok; try done. apply reads_ok_add; [done|lia|lia|done].
  - apply dict_get_None. intros Hk. apply list_elem_of_fmap in Hk as ([k' [t0 d0]] & E & Hin). cbn in E. subst.
    destruct (ro_tx _ _ H _ _ _ Hin) as (_ & w & Hin' & _). by eapply Hfresh.
  - apply dict_get_None. intros Hk. apply list_elem_of_fmap in Hk as ([k' w] & E & Hin). cbn in E. subst. by eapply Hfresh.
Qed.

(** A refusal or a positive receipt recorded at a waiter. *)
Lemma reads_ok_transport q b w r : reads_ok q b → (t_sequence (ticket_of w), w) ∈ b_pending b →
  let b' := set_waiters (dict_set (t_sequence (ticket_of w)) (set_transport r w) (b_pending b)) b in
  reads_ok q b' ∧ requests b' = requests b ∧ (t_sequence (ticket_of w), set_transport r w) ∈ b_pending b'.
Proof.
  intros H Hin. pose proof (dict_get_nodup _ _ _ (ro_keys _ _ H) Hin) as Hget. cbv zeta. set (k := t_sequence (ticket_of w)) in *.
  assert ((dict_set k (set_transport r w) (b_pending b)).*1 = (b_pending b).*1) as Ek by (apply dict_set_keys; eauto).
  assert (∀ k' w', (k', w') ∈ dict_set k (set_transport r w) (b_pending b) → ∃ w0, (k', w0) ∈ b_pending b ∧ ticket_of w0 = ticket_of w') as Hold.
  { intros k' w' [[= -> ->]|?]%dict_set_elem; [by exists w|by exists w']. }
  assert (dict_get k (dict_set k (set_transport r w) (b_pending b)) = Some (set_transport r w)) as Hnew by by rewrite dict_get_set, decide_True.
  split_and!; [|  |by apply dict_get_elem].
  - destruct H as [E1 E2 E3 E4 E5 E6]. split; cbn [set_waiters b_pending b_receipts b_closed].
    + by rewrite Ek.
    + intros k' w' (w0 & Hin0 & <-)%Hold. by apply E2.
    + apply (f_equal length) in Ek. rewrite !length_fmap in Ek. unfold len in *. by rewrite Ek.
    + done.
    + intros k' t d Ht. destruct (E5 _ _ _ Ht) as (? & w0 & Hin0 & Et). split; [done|].
      destruct (decide (k = k')) as [<-|Hne].
      * exists (set_transport r w). split; [by apply dict_get_elem|]. pose proof (dict_get_nodup _ _ _ E1 Hin0). unfold ticket_of in *. cbn. congruence.
      * exists w0. split; [|done]. apply dict_get_elem. rewrite dict_get_set, decide_False by done. by apply dict_get_nodup.
    + intros Hc. rewrite (E6 Hc) in Hin. by apply elem_of_nil in Hin.
  - unfold requests. cbn [set_waiters b_pending]. clear -Hget. induction (b_pending b) as [|[k' w'] d IH]; [done|]. cbn in *.
    case_decide; [by simplify_eq|]. cbn. f_equal. by apply IH.
Qed.

(** How a frame ends a read: a reply to it, or a refusal of its request. *)
Definition ended_by (plain : bytes) (generation : Z) (b : BrokerReads) (c : ReadCompletion) : Prop :=
  ∃ w, (t_sequence (ticket_of w), w) ∈ b_pending b ∧ may_hold (w_deadline w) ∧
    ((∃ e v, c = replied w e v ∧ generation = t_generation (ticket_of w) ∧
        answers plain (ticket_of w) (b_session b) (q_device (w_request w)) e v) ∨
     (∃ r, c = mkCompletion (w_request w) TransportRejected (Some r) None JNull ∧ r ≠ 0 ∧
        receipt_frame plain (x_session (b_receipts b)) (ticket_of w) r)).

Lemma entry_key q b k w : reads_ok q b → (k, w) ∈ b_pending b → (t_sequence (ticket_of w), w) ∈ b_pending b.
Proof. intros H Hin. by destruct (ro_entry _ _ H _ _ Hin) as [-> _]. Qed.

Lemma accept_read_ok plain generation (P : result (option ReadCompletion) → BrokerSequences * BrokerReads → Prop) q b :
  reads_ok q b →
  (∀ msg, ¬ sealable plain → P (Raise (ValueError msg)) (q, b)) →
  (∀ b', reads_ok q b' → requests b' = requests b → same_owner b b' →
     (reads_closed (q, b) = false → len plain ≠ 32 → ∀ k w, (k, w) ∈ b_pending b → must_hold (w_deadline w) → matched plain generation (b_session b) w = Ok None) →
     P (Ok None) (q, b')) →
  (∀ b' c, reads_ok q b' → requests b ≡ₚ c_request c :: requests b' → same_owner b b' → ended_by plain generation b c →
     P (Ok (Some c)) (q, b')) →
  ends (accept_read clock loads plain generation) P (q, b).
Proof.
  intros H Hraise Hnone Hsome. assert (set_receipts (b_receipts b) b = b) as Hb by by destruct b.
  unfold accept_read. go. go. cbn [snd]. destruct (reads_closed (q, b)); [go; apply Hnone; done|].
  go. go. apply accept_ok; cbn [fst snd].
  - intros k t d Hin. by apply (ro_tx _ _ H) in Hin as [? _].
  - rewrite Hb. go. go. apply scan_ok; [done| |intros Hall; apply Hnone; try done|].
    + intros w ([k w'] & -> & Hin)%list_elem_of_fmap. by eapply entry_key.
    + intros _ _ k w Hin Hd. apply Hall; [|done]. apply list_elem_of_fmap. by exists (k, w).
    + intros w e v ([k w'] & -> & Hin)%list_elem_of_fmap Hd Hm. cbn in *. pose proof (entry_key _ _ _ _ H Hin) as Hkey.
      apply Hsome; [by apply without_ok|by apply (requests_without q)|done|]. exists w'. split_and!; [done|done|]. left. exists e, v. split; [done|].
      destruct (match_model_reply_ok loads plain (ticket_of w') generation (b_session b) (q_device (w_request w'))) as (r & E & Hr).
      unfold matched in Hm. rewrite Hm in E. by apply (inj Ok) in E as <-.
  - intros msg Hs. rewrite Hb. by apply Hraise.
  - intros ticket d outcome Hget Hd Hrcp. unfold on_receipt. cbn [r_ticket r_result]. do 2 go. cbn [set_receipts b_pending].
    destruct (ro_tx _ _ H _ _ _ (dict_get_elem _ _ _ Hget)) as (_ & w & Hin & <-). rewrite (dict_get_nodup _ _ _ (ro_keys _ _ H) Hin).
    set (b1 := set_receipts _ b). assert (reads_ok q b1) as H1.
    { destruct H as [E1 E2 E3 E4 E5 E6]. split; try done; cbn; [by apply dict_del_keys|]. intros k t d' [Hin' _]%dict_del_elem. by eapply E5. }
    go. apply ends_now_in. intros t Ht. cbv beta iota. destruct (w_deadline w <=? t) eqn:Ed.
    { go. apply Hnone; try done. intros _ Hl. by destruct Hl; apply (rcp_length _ _ _ _ Hrcp). }
    do 2 go. destruct (reads_ok_transport q b1 w outcome H1 Hin) as (H2 & Ht2 & Hin2). set (b2 := set_waiters _ b1) in *.
    unfold accepted. cbn [r_result]. destruct (Z.eqb_spec outcome 0) as [->|Hne].
    { go. apply Hnone; try done. intros _ Hl. by destruct Hl; apply (rcp_length _ _ _ _ Hrcp). }
    go. eapply (_finish_ok _ q b2 _ (set_transport outcome w)); [done|exact Hin2|]. go.
    apply Hsome; [by apply without_ok| |done|].
    + change (requests b) with (requests b1). rewrite <-Ht2. apply (requests_without q b2 _ (set_transport outcome w)); done.
    + exists w. split_and!; [done|by eapply holds_at|]. right. exists outcome. split_and!; [|done|done]. done.
Qed.

Lemma forget_ok (P : result unit → BrokerSequences * BrokerTransactions → Prop) q ts : ∀ x,
  NoDup (x_pending x).*1 → NoDup (t_sequence <$> ts) → (∀ t, t ∈ ts → t_sequence t ∈ (x_pending x).*1) →
  (∀ d, NoDup d.*1 → (∀ kv, kv ∈ d → kv ∈ x_pending x) → P (Ok tt) (q, set_pending d x)) →
  ends (forget ts) P (q, x).
Proof.
  induction ts as [|t ts IH]; intros x Hx Hnd Hin HP; cbn [forget].
  - go. specialize (HP (x_pending x) Hx). destruct x. by apply HP.
  - apply NoDup_cons in Hnd as [Hni Hnd]. do 4 go. unfold dict_pop.
    destruct (dict_get (t_sequence t) (x_pending x)) as [e|] eqn:E; [|apply dict_get_None in E; destruct E; apply Hin; set_solver].
    do 2 go. apply IH; [by apply dict_del_keys|done| |].
    + intros t' Ht'. assert (t_sequence t' ∈ (x_pending x).*1) as Hk by (apply Hin; set_solver).
      apply list_elem_of_fmap in Hk as ([k' e'] & Ek & Hin'). cbn in Ek. apply list_elem_of_fmap. exists (k', e'). split; [done|].
      apply dict_del_elem. split; [done|]. cbn. intros ->. apply Hni. rewrite <-Ek. apply list_elem_of_fmap. by exists t'.
    + intros d Hd Hsub. cbn in *. apply HP; [done|]. intros kv Hkv. by apply Hsub, dict_del_elem in Hkv as [? _].
Qed.

Lemma tx_poll_ok (P : result (list ReceiptTicket) → BrokerSequences * BrokerTransactions → Prop) q x :
  NoDup (x_pending x).*1 → (∀ k t d, (k, (t, d)) ∈ x_pending x → t_sequence t = k) →
  (∀ l d, NoDup d.*1 → (∀ kv, kv ∈ d → kv ∈ x_pending x) → P (Ok l) (q, set_pending d x)) →
  ends (poll clock) P (q, x).
Proof.
  intros Hx Hk HP. unfold poll. go. apply ends_now. intros t. do 3 go. unfold expired. set (gone := filter _ (x_pending x)).
  assert (gone `sublist_of` x_pending x) as Hsub by apply sublist_filter.
  assert (t_sequence <$> ((λ kv : Z * (ReceiptTicket * Z), kv.2.1) <$> gone) = gone.*1) as Ek.
  { rewrite <-list_fmap_compose. apply list_fmap_ext. intros i [k [t0 d]] Hi%list_elem_of_lookup_2. cbn. eapply Hk. eapply sublist_subseteq; eauto. }
  apply forget_ok; [done| | |].
  - rewrite Ek. eapply sublist_NoDup; [exact Hx|]. by apply fmap_sublist.
  - intros t0 Ht0. assert (t_sequence t0 ∈ gone.*1) as Hg by (rewrite <-Ek; by apply list_elem_of_fmap_2).
    eapply sublist_subseteq; [|exact Hg]. by apply fmap_sublist.
  - intros d Hd Hin. go. by apply HP.
Qed.

Definition ended (status : read_status) (w : waiter) : ReadCompletion := mkCompletion (w_request w) status (w_transport w) None JNull.

Lemma q_ticket_ended status (ps : list waiter) : (λ c, q_ticket (c_request c)) <$> (ended status <$> ps) = ticket_of <$> ps.
Proof. by rewrite <-list_fmap_compose. Qed.

Lemma c_request_ended status (ps : list waiter) : c_request <$> (ended status <$> ps) = w_request <$> ps.
Proof. by rewrite <-list_fmap_compose. Qed.

Lemma filter_waiters_sublist (d : list (Z * waiter)) (t : Z) : ∃ l, l `sublist_of` d ∧ filter (λ w, w_deadline w ≤ t) d.*2 = l.*2.
Proof.
  exists (filter (λ kv, w_deadline kv.2 ≤ t) d). split; [apply sublist_filter|].
  induction d as [|[k w] d IH]; [done|]. rewrite fmap_cons, !filter_cons. cbn. case_decide; [|done]. cbn. by rewrite IH.
Qed.

Lemma poll_reads_ok (P : result (list ReadCompletion) → BrokerSequences * BrokerReads → Prop) q b : reads_ok q b →
  (∀ b' ps, reads_ok q b' → requests b ≡ₚ (w_request <$> ps) ++ requests b' → same_owner b b' →
     (∀ w, w ∈ ps → (t_sequence (ticket_of w), w) ∈ b_pending b ∧ may_expire (w_deadline w)) →
     (∀ k w, (k, w) ∈ b_pending b → must_expire (w_deadline w) → w ∈ ps) →
     P (Ok (ended Timeout <$> ps)) (q, b')) →
  ends (poll_reads clock) P (q, b).
Proof.
  intros H HP. unfold poll_reads. go. apply ends_now_in. intros t Ht. do 3 go.
  destruct (filter_waiters_sublist (b_pending b) t) as (l & Hl & El). destruct (entries_nodup q b l H Hl) as [Hnd Hin].
  assert (∀ w, w ∈ l.*2 ↔ w_deadline w ≤ t ∧ w ∈ (b_pending b).*2) as Hmem by (intros w; by rewrite <-El, list_elem_of_filter).
  rewrite El. clear El. apply finish_all_ok; [done|done|done|].
  intros b1 H1 Hp Hsame Hsub. go. go. apply tx_poll_ok; [apply H1|intros k t0 d Hin0; by apply (ro_tx _ _ H1) in Hin0 as [? _]|].
  intros gone d Hd Hsubd. go. cbn [fst snd]. apply HP; [|exact Hp|by destruct Hsame; split|..].
  - destruct H1 as [E1 E2 E3 E4 E5 E6]. split; try done. intros k t0 d0 Hin0%Hsubd. by eapply E5.
  - intros w Hw. split; [by apply Hin|]. apply Hmem in Hw as [? _]. by exists t.
  - intros k w Hw Hd0. apply Hmem. split; [by apply Hd0|]. apply list_elem_of_fmap. by exists (k, w).
Qed.

Lemma cancel_read_ok ticket (P : result (option ReadCompletion) → BrokerSequences * BrokerReads → Prop) q b : reads_ok q b →
  (ticket ∉ tickets b → P (Ok None) (q, b)) →
  (∀ b' w, reads_ok q b' → requests b ≡ₚ w_request w :: requests b' → same_owner b b' → ticket_of w = ticket →
     P (Ok (Some (ended Cancelled w))) (q, b')) →
  ends (cancel_read ticket) P (q, b).
Proof.
  intros H Hnone Hsome. unfold cancel_read. do 2 go. destruct (dict_get _ _) as [w|] eqn:E.
  - apply dict_get_elem in E. pose proof (entry_key _ _ _ _ H E) as Hkey. fold (ticket_of w). destruct (decide (ticket_of w = ticket)) as [<-|Hne].
    + go. eapply (_finish_ok _ q b _ w); [done|exact E|]. go. apply (Hsome _ w); [by apply without_ok|by apply (requests_without q)|done|done].
    + go. apply Hnone. intros (k & w' & Hin & <-)%tickets_elem.
      pose proof (entry_key _ _ _ _ H Hin) as Hkey'. cbn in *.
      pose proof (dict_get_nodup _ _ _ (ro_keys _ _ H) E). pose proof (dict_get_nodup _ _ _ (ro_keys _ _ H) Hkey'). congruence.
  - go. apply Hnone. intros (k & w' & Hin & <-)%tickets_elem.
    pose proof (entry_key _ _ _ _ H Hin) as Hkey'. rewrite (dict_get_nodup _ _ _ (ro_keys _ _ H) Hkey') in E. done.
Qed.

Lemma close_reads_ok (P : result (list ReadCompletion) → BrokerSequences * BrokerReads → Prop) q b : reads_ok q b →
  (∀ q' b' ps, reads_ok q' b' → Account._next q' = Account._next q → requests b ≡ₚ w_request <$> ps → b_pending b' = [] → b_closed b' = true →
     x_generation (b_receipts b') = x_generation (b_receipts b) →
     (x_owns (b_receipts b) = false → q' = q) →
     P (Ok (ended Cancelled <$> ps)) (q', b')) →
  ends close_reads P (q, b).
Proof.
  intros H HP. unfold close_reads. do 3 go. destruct (entries_nodup q b (b_pending b) H) as [Hnd Hin]; [done|].
  apply finish_all_ok; [done|done|done|]. intros b1 H1 Hp Hsame Hsub.
  assert (requests b = w_request <$> (b_pending b).*2) as Et by (unfold requests; by rewrite <-list_fmap_compose).
  assert (b_pending b1 = []) as Hempty.
  { rewrite Et in Hp. apply Permutation_length in Hp. rewrite length_app in Hp. unfold requests in Hp.
    destruct (b_pending b1); [done|]. cbn in Hp. lia. }
  assert (∀ q' x', Account._next q' = Account._next q → x_pending x' = [] → x_generation x' = x_generation (b_receipts b) →
    (x_owns (b_receipts b) = false → q' = q) →
    P (Ok (ended Cancelled <$> (b_pending b).*2)) (q', mkReads x' 0 [] true)) as Hend.
  { intros q' x' Hq Hx Hg Ho. apply HP; try done; [|by rewrite Et]. split; cbn; rewrite ?Hx; try done; try apply NoDup_nil_2.
    - intros k w Hin0. by apply elem_of_nil in Hin0.
    - intros k t d Hin0. by apply elem_of_nil in Hin0. }
  do 2 go. unfold close. do 4 go. go. cbn [fst snd]. rewrite (same_owns _ _ Hsame). destruct (x_owns (b_receipts b)) eqn:Eo.
  - go. unfold Account.close. wp_step. do 3 go. go. cbn. rewrite Hempty. apply Hend; try done. cbn. apply Hsame.
  - go. do 3 go. go. cbn. rewrite Hempty. apply Hend; try done. cbn. apply Hsame.
Qed.

(** ** The heartbeat waiter *)

Definition beats (h : BrokerHeartbeat) : list ReceiptTicket := match h_pending h with Some (t, _) => [t] | None => [] end.
Definition heart_ok (q : BrokerSequences) (h : BrokerHeartbeat) : Prop :=
  Forall (λ t, t_kind t = 0xA0 ∧ t_generation t = h_generation h ∧ 0 ≤ t_sequence t < 2 ^ 32 ∧ t_sequence t < Account._next q) (beats h).

Lemma heart_ok_next q q' h : heart_ok q h → Account._next q ≤ Account._next q' → heart_ok q' h.
Proof. intros H Hq. eapply list.Forall_impl; [exact H|]. intros t (? & ? & ? & ?). split_and!; try done; lia. Qed.

Lemma prepare_ok node ip port timeout random (P : result (ReceiptTicket * bytes) → BrokerSequences * BrokerHeartbeat → Prop) q h :
  0 ≤ Account._next q →
  (∀ e q', (q' = q ∨ q' = taken q) → Account._next q' ≤ 2 ^ 32 ∨ q' = q → P (Raise e) (q', h)) →
  (∀ wire t, h_pending h = None → during t → Account._next q < 2 ^ 32 →
     let ticket := mkTicket (h_generation h) (Account._next q) 0xA0 in
     P (Ok (ticket, wire)) (taken q, set_beat (Some (ticket, t + timeout)) h)) →
  ends (prepare clock node ip port timeout random) P (q, h).
Proof.
  intros Hq Hraise Hok. unfold prepare. do 4 go; [apply Hraise; first [by left|by right]|]. cbn [snd]. do 2 go; [apply Hraise; first [by left|by right]|].
  do 2 go; [apply Hraise; first [by left|by right]|]. do 2 go; [apply Hraise; first [by left|by right]|]. go. go.
  eapply wp_mono; [apply allocate_spec|]. intros [n|e] q'; [|intros [-> _]; apply Hraise; first [by left|by right]]. intros (-> & -> & Hn).
  go. apply ends_now_in. intros t Ht. do 2 go. destruct (build_heartbeat _ _ _ _) as [wire|e].
  - do 3 go. apply Hok; try done. destruct (h_pending h); [done|done].
  - apply Hraise; [by right|]. left. cbn. lia.
Qed.

Lemma accept_heartbeat_ok plain generation (P : result (option HeartbeatCompletion) → BrokerSequences * BrokerHeartbeat → Prop) q h :
  (beat_closed (q, h) = false → (∀ t d, h_pending h = Some (t, d) → must_hold d →
     match_heartbeat_reply plain t generation (h_session h) = Ok None) → P (Ok None) (q, h)) →
  (beat_closed (q, h) = true → P (Ok None) (q, h)) →
  (∀ ticket d hint interval, h_pending h = Some (ticket, d) → may_hold d → beat_closed (q, h) = false →
     generation = t_generation ticket → index plain 1 = Ok 0xA1 → unpack_from 8 plain 4 = Ok (h_session h) →
     unpack_from 4 plain 16 = Ok (t_sequence ticket) → (∀ x, hint = Some x → 10 ≤ x ≤ 60) →
     P (Ok (Some (mkBeat ticket Response hint))) (q, mkHeartbeat (h_session h) (h_generation h) None interval (h_closed h))) →
  ends (accept_heartbeat clock plain generation) P (q, h).
Proof.
  intros Hnone Hshut Hsome. unfold accept_heartbeat. do 2 go. cbn [snd]. destruct (beat_closed (q, h)) eqn:Ec.
  { destruct (h_pending h) as [[ticket d]|]; go; by apply Hshut. }
  destruct (h_pending h) as [[ticket d]|] eqn:Ep; [|by go; apply Hnone].
  go. apply ends_now_in. intros t Ht. cbv beta iota. destruct (d <=? t) eqn:Ed.
  { go. apply Hnone; [done|]. intros ? ? [= <- <-] Hd. by destruct (expires_at t _ Ht Ed). }
  do 2 go. destruct (match_heartbeat_reply_ok plain ticket generation (h_session h)) as (r & Er & Hr). rewrite Er. destruct r as [hint|].
  - destruct Hr as (? & ? & ? & ? & ? & Hh). do 3 go. eapply Hsome; try done; [by eapply holds_at|]. intros x ->. done.
  - go. apply Hnone; [done|]. by intros ? ? [= <- <-] _.
Qed.

Lemma poll_heartbeat_ok (P : result (option HeartbeatCompletion) → BrokerSequences * BrokerHeartbeat → Prop) q h :
  ((∀ t d, h_pending h = Some (t, d) → may_hold d) → P (Ok None) (q, h)) →
  (∀ ticket d, h_pending h = Some (ticket, d) → may_expire d → P (Ok (Some (mkBeat ticket Timeout None))) (q, set_beat None h)) →
  ends (poll_heartbeat clock) P (q, h).
Proof.
  intros Hnone Hsome. unfold poll_heartbeat. do 2 go. destruct (h_pending h) as [[ticket d]|] eqn:Ep; [|by go; apply Hnone].
  go. apply ends_now_in. intros t Ht. cbv beta iota. destruct (t <? d) eqn:Ed.
  - go. apply Hnone. intros ? ? [= <- <-]. exists t. split; [done|lia].
  - do 3 go. eapply Hsome; [done|]. exists t. split; [done|lia].
Qed.

Lemma cancel_heartbeat_ok ticket (P : result (option HeartbeatCompletion) → BrokerSequences * BrokerHeartbeat → Prop) q h :
  (ticket ∉ beats h → P (Ok None) (q, h)) →
  (beats h = [ticket] → P (Ok (Some (mkBeat ticket Cancelled None))) (q, set_beat None h)) →
  ends (cancel_heartbeat ticket) P (q, h).
Proof.
  intros Hnone Hsome. unfold cancel_heartbeat, beats in *. do 2 go. destruct (h_pending h) as [[t d]|].
  - destruct (decide (t = ticket)) as [->|Hne]; [do 3 go; by apply Hsome|go; apply Hnone; set_solver].
  - go. apply Hnone. set_solver.
Qed.

Lemma close_heartbeat_ok (P : result (option HeartbeatCompletion) → BrokerSequences * BrokerHeartbeat → Prop) q h :
  (∀ h', beats h' = [] → h_generation h' = h_generation h → h_closed h' = true →
     P (Ok (match beats h with [t] => Some (mkBeat t Cancelled None) | _ => None end)) (q, h')) →
  ends close_heartbeat P (q, h).
Proof.
  intros HP. unfold close_heartbeat. do 4 go. cbn [h_pending]. unfold beats in HP. destruct (h_pending h) as [[t d]|] eqn:E.
  - apply cancel_heartbeat_ok; unfold beats; cbn [h_pending].
    + intros Hn. set_solver.
    + intros _. by apply HP.
  - go. apply HP; done.
Qed.
End Reads.

(** ** Histories of one account's waiters *)

(** The two owners over one namespace, as [BrokerAccount] creates them. *)
Abbreviation waiters := (BrokerReads * BrokerHeartbeat)%type.
Definition broker_waiters (session_id generation next_sequence : Z) : result (BrokerSequences * waiters) :=
  source ← broker_sequences session_id generation next_sequence;
  reads ← broker_reads session_id generation next_sequence (Some source);
  heartbeat ← broker_heartbeat session_id generation source;
  Ok (source, (reads.2, heartbeat)).

Definition in_reads {A} (m : M (owned BrokerReads) A) : M (owned waiters) A := within fst (λ b w, (b, w.2)) m.
Definition in_heart {A} (m : M (owned BrokerHeartbeat) A) : M (owned waiters) A := within snd (λ h w, (w.1, h)) m.

Inductive event := Opened (ticket : ReceiptTicket) | ReadEnded (c : ReadCompletion) | BeatEnded (c : HeartbeatCompletion).
Definition reads_ended (cs : list ReadCompletion) : list event := ReadEnded <$> cs.
Definition beat_ended (c : option HeartbeatCompletion) : list event := match c with Some c => [BeatEnded c] | None => [] end.

Inductive waiter_call :=
| RegisterRead (device : Z) (path : string) (timeout : Z)
| CancelRead (ticket : ReceiptTicket)
| PollReads
| CloseReads
| Prepare (node : CertifiedNode) (ip : bytes) (port timeout random : Z)
| CancelHeartbeat (ticket : ReceiptTicket)
| PollHeartbeat
| CloseHeartbeat
| Frame (plain : bytes) (generation : Z)    (* [BrokerAccount.receive]: the reads, then the heartbeat *)
| Others (count : Z)                        (* another consumer reserves sequence numbers *)
| Retire.                                   (* the account retires the namespace *)

Section Histories.
Context (clock : nat → Z) (loads : bytes → decoded).

Definition frame (plain : bytes) (generation : Z) : M (owned waiters) (list event) :=
  read ← in_reads (accept_read clock loads plain generation);
  beat ← in_heart (accept_heartbeat clock plain generation);
  mret (reads_ended (option_list read) ++ beat_ended beat).

Definition exec (c : waiter_call) : M (owned waiters) (list event) :=
  match c with
  | RegisterRead device path timeout => r ← in_reads (register_read clock device path timeout); mret [Opened (q_ticket r)]
  | CancelRead ticket => c ← in_reads (cancel_read ticket); mret (reads_ended (option_list c))
  | PollReads => cs ← in_reads (poll_reads clock); mret (reads_ended cs)
  | CloseReads => cs ← in_reads close_reads; mret (reads_ended cs)
  | Prepare node ip port timeout random => r ← in_heart (prepare clock node ip port timeout random); mret [Opened r.1]
  | CancelHeartbeat ticket => c ← in_heart (cancel_heartbeat ticket); mret (beat_ended c)
  | PollHeartbeat => c ← in_heart (poll_heartbeat clock); mret (beat_ended c)
  | CloseHeartbeat => c ← in_heart close_heartbeat; mret (beat_ended c)
  | Frame plain generation => frame plain generation
  | Others count => _ ← namespace (Account.reserve count); mret []
  | Retire => _ ← namespace Account.close; mret []
  end.

Fixpoint run (calls : list waiter_call) (s : owned waiters) : owned waiters * list event :=
  match calls with
  | [] => (s, [])
  | c :: calls =>
      let '(s, r) := exec c s in
      let '(s, es) := run calls s in
      (s, match r with Ok e => e | Raise _ => [] end ++ es)
  end.
End Histories.

Definition opened (es : list event) : list ReceiptTicket := omap (λ e, match e with Opened t => Some t | _ => None end) es.
Definition finished (es : list event) : list ReceiptTicket :=
  omap (λ e, match e with ReadEnded c => Some (q_ticket (c_request c)) | BeatEnded c => Some (beat_ticket c) | Opened _ => None end) es.
Definition live (s : BrokerSequences * waiters) : list ReceiptTicket := tickets s.2.1 ++ beats s.2.2.

Lemma opened_app es es' : opened (es ++ es') = opened es ++ opened es'.
Proof. apply omap_app. Qed.
Lemma finished_app es es' : finished (es ++ es') = finished es ++ finished es'.
Proof. apply omap_app. Qed.
Lemma opened_reads cs : opened (reads_ended cs) = [].
Proof. by induction cs. Qed.
Lemma finished_reads cs : finished (reads_ended cs) = (λ c, q_ticket (c_request c)) <$> cs.
Proof. unfold finished, reads_ended. induction cs as [|c cs IH]; [done|]. cbn. by f_equal. Qed.

(** The invariant of a history in generation [g]. *)
Record wait_ok (g : Z) (s : BrokerSequences * waiters) : Prop := {
  wk_next : 0 ≤ Account._next s.1 ≤ 2 ^ 32;
  wk_reads : reads_ok s.1 s.2.1;
  wk_heart : heart_ok s.1 s.2.2;
  wk_generation : x_generation (b_receipts s.2.1) = g ∧ h_generation s.2.2 = g
}.

(** What one call does to the tickets. *)
Definition progress (g : Z) (s s' : BrokerSequences * waiters) (res : result (list event)) : Prop :=
  wait_ok g s' ∧ Account._next s.1 ≤ Account._next s'.1 ∧
  match res with
  | Ok es => live s ++ opened es ≡ₚ finished es ++ live s' ∧ NoDup (t_sequence <$> opened es) ∧
      Forall (λ t, t_generation t = g ∧ Account._next s.1 ≤ t_sequence t < Account._next s'.1) (opened es)
  | Raise _ => live s' = live s
  end.

Lemma ends_in_reads {A} (m : M (owned BrokerReads) A) (P : result A → BrokerSequences * waiters → Prop) q b h :
  ends m (λ r y, P r (y.1, (y.2, h))) (q, b) → ends (in_reads m) P (q, (b, h)).
Proof. intros H. unfold in_reads. by apply ends_within. Qed.

Lemma ends_in_heart {A} (m : M (owned BrokerHeartbeat) A) (P : result A → BrokerSequences * waiters → Prop) q b h :
  ends m (λ r y, P r (y.1, (b, y.2))) (q, h) → ends (in_heart m) P (q, (b, h)).
Proof. intros H. unfold in_heart. by apply ends_within. Qed.

Section Steps.
Context (g : Z) (q : BrokerSequences) (b : BrokerReads) (h : BrokerHeartbeat) (H : wait_ok g (q, (b, h))).

Lemma keep_reads q' b' : reads_ok q' b' → Account._next q ≤ Account._next q' ≤ 2 ^ 32 →
  x_generation (b_receipts b') = x_generation (b_receipts b) → wait_ok g (q', (b', h)).
Proof.
  destruct H as [H1 H2 H3 [H4 H5]]. intros Hb Hq Hg. split; cbn in *; [lia|done| |by rewrite Hg]. eapply heart_ok_next; [done|lia].
Qed.

Lemma keep_heart q' h' : heart_ok q' h' → Account._next q ≤ Account._next q' ≤ 2 ^ 32 → h_generation h' = h_generation h →
  wait_ok g (q', (b, h')).
Proof.
  destruct H as [H1 H2 H3 [H4 H5]]. intros Hh Hq Hg. split; cbn in *; [lia| |done|by rewrite Hg]. eapply reads_ok_next; [done|lia].
Qed.

(** A call that ends the waiters [done_] and opens none. *)
Lemma ends_reads b' es : reads_ok q b' → same_owner b b' → opened es = [] → tickets b ≡ₚ finished es ++ tickets b' →
  progress g (q, (b, h)) (q, (b', h)) (Ok es).
Proof.
  intros Hb Hs Ho Hp. split; [apply keep_reads; [done|split; [lia|apply H]|apply Hs]|]. split; [done|]. rewrite Ho, app_nil_r.
  split_and!; [|apply NoDup_nil_2|by constructor]. unfold live. cbn. by rewrite Hp, app_assoc.
Qed.

Lemma ends_beat h' es : beats h' = [] ∨ beats h' = beats h → h_generation h' = h_generation h → opened es = [] →
  beats h ≡ₚ finished es ++ beats h' → progress g (q, (b, h)) (q, (b, h')) (Ok es).
Proof.
  intros Hb Hs Ho Hp. split; [apply keep_heart; [|split; [lia|apply H]|done]|].
  { pose proof (wk_heart _ _ H) as Hh. unfold heart_ok in *. rewrite Hs. destruct Hb as [->| ->]; [done|exact Hh]. }
  split; [done|]. rewrite Ho, app_nil_r. split_and!; [|apply NoDup_nil_2|by constructor]. unfold live. cbn.
  rewrite Hp. rewrite !app_assoc. f_equiv. apply Permutation_app_comm.
Qed.

Lemma no_progress e : progress g (q, (b, h)) (q, (b, h)) (Raise e).
Proof. by split. Qed.

Lemma opens_one q' b' h' t : wait_ok g (q', (b', h')) → q' = taken q → t_generation t = g → t_sequence t = Account._next q →
  live (q', (b', h')) ≡ₚ live (q, (b, h)) ++ [t] → progress g (q, (b, h)) (q', (b', h')) (Ok [Opened t]).
Proof.
  intros Hw -> Hg Ht Hl. split; [done|]. cbn [fst taken Account._next]. split; [lia|]. cbn. split_and!.
  - by rewrite Hl.
  - apply NoDup_singleton.
  - repeat constructor; [done|lia|lia].
Qed.

Section Calls.
Context (clock : nat → Z) (loads : bytes → decoded) (during : Z → Prop) (Hclock : ∀ i, during (clock i)).

Lemma register_progress device path timeout :
  ends (exec clock loads (RegisterRead device path timeout)) (λ res s', progress g (q, (b, h)) s' res) (q, (b, h)).
Proof.
  cbn [exec]. go. apply ends_in_reads. pose proof (wk_next _ _ H) as Hq. destruct (wk_generation _ _ H) as [Hg _]. cbn in Hq, Hg.
  apply (register_read_ok clock during Hclock); [apply (wk_reads _ _ H)|lia|intros msg; apply no_progress|].
  intros t x' ticket request b' Ht _ _ Hb' Hs. go. cbn [fst snd]. apply opens_one; try done.
  - apply keep_reads; [done| |apply Hs]. destruct (ro_entry _ _ Hb' (Account._next q) (mkWaiter request (t + timeout) None)) as (_ & _ & _ & _ & ?).
    { subst b'. cbn. apply elem_of_app. right. by apply list_elem_of_singleton. }
    cbn. lia.
  - unfold live. cbn [fst snd]. assert (tickets b' = tickets b ++ [ticket]) as ->.
    { unfold tickets, requests, b'. cbn [b_pending]. by rewrite !fmap_app. }
    rewrite <-!app_assoc. f_equiv. apply Permutation_app_comm.
Qed.

Lemma prepare_progress node ip port timeout random :
  ends (exec clock loads (Prepare node ip port timeout random)) (λ res s', progress g (q, (b, h)) s' res) (q, (b, h)).
Proof.
  cbn [exec]. go. apply ends_in_heart. pose proof (wk_next _ _ H) as Hq. destruct (wk_generation _ _ H) as [_ Hg]. cbn in Hq, Hg.
  pose proof (wk_heart _ _ H) as Hh. cbn in Hh.
  apply (prepare_ok clock during Hclock); [lia|..].
  - intros e q' Hq' Hle. assert (Account._next q ≤ Account._next q' ≤ 2 ^ 32) as Hle'.
    { destruct Hle as [?| ->]; [|lia]. destruct Hq' as [->| ->]; cbn in *; lia. }
    cbn [fst snd]. split; [apply keep_heart; [eapply heart_ok_next; [exact Hh|lia]|done|done]|]. split; [cbn; lia|done].
  - intros wire t Hnone Ht Hn ticket. go. cbn [fst snd]. apply opens_one; try done.
    + apply keep_heart; [|cbn; lia|done]. unfold heart_ok. cbn. constructor; [|done]. cbn. split_and!; try done; lia.
    + unfold live, beats. cbn. by rewrite Hnone, app_nil_r.
Qed.

Lemma beat_frame plain generation b' es : reads_ok q b' → same_owner b b' → opened es = [] → tickets b ≡ₚ finished es ++ tickets b' →
  ends (in_heart (accept_heartbeat clock plain generation) ≫= λ beat, mret (es ++ beat_ended beat))
    (λ res s', progress g (q, (b, h)) s' res) (q, (b', h)).
Proof.
  intros Hb Hs Ho Hp. go. apply ends_in_heart. pose proof (ends_reads b' es Hb Hs Ho Hp) as (Hw & Hle & Hperm & _). 
  apply (accept_heartbeat_ok clock during Hclock).
  - intros _ _. go. rewrite app_nil_r. by apply ends_reads.
  - intros _. go. rewrite app_nil_r. by apply ends_reads.
  - intros ticket d hint interval Hpend _ _ _ _ _ _ _. go. cbn [fst snd]. split.
    { destruct Hw as [W1 W2 W3 W4]. split; try done. unfold heart_ok. cbn. constructor. }
    split; [done|]. rewrite opened_app, finished_app, Ho. cbn. rewrite app_nil_r. split_and!; [|apply NoDup_nil_2|by constructor].
    unfold live, beats in *. cbn in *. rewrite Hpend, Hp, app_nil_r, <-!app_assoc. f_equiv. apply Permutation_app_comm.
Qed.

Lemma frame_progress plain generation :
  ends (exec clock loads (Frame plain generation)) (λ res s', progress g (q, (b, h)) s' res) (q, (b, h)).
Proof.
  cbn [exec]. unfold frame. go. apply ends_in_reads. pose proof (wk_reads _ _ H) as Hb. cbn in Hb.
  apply (accept_read_ok clock loads during Hclock); [done|intros msg _; apply no_progress|..].
  - intros b' Hb' Ht Hs _. cbv beta iota. cbn [fst snd]. apply (beat_frame plain generation b' []); try done. unfold tickets. by rewrite Ht.
  - intros b' c Hb' Hp Hs _. cbv beta iota. cbn [fst snd]. apply (beat_frame plain generation b' (reads_ended (option_list (Some c)))); try done.
    by apply (tickets_ended b b' [c_request c]).
Qed.

Lemma others_progress q' : Account._next q ≤ Account._next q' ≤ 2 ^ 32 → progress g (q, (b, h)) (q', (b, h)) (Ok []).
Proof.
  intros Hq. split; [apply keep_reads; [apply (reads_ok_next q); [apply (wk_reads _ _ H)|lia]|done|done]|]. split; [cbn; lia|].
  cbn. rewrite app_nil_r. split_and!; [done|apply NoDup_nil_2|by constructor].
Qed.

Lemma exec_progress c : ends (exec clock loads c) (λ res s', progress g (q, (b, h)) s' res) (q, (b, h)).
Proof.
  pose proof (wk_reads _ _ H) as Hb. cbn in Hb. pose proof (wk_next _ _ H) as Hq. cbn in Hq.
  destruct c as [device path timeout|ticket| | |node ip port timeout random|ticket| | |plain generation|count|].
  - apply register_progress.
  - cbn [exec]. go. apply ends_in_reads. apply cancel_read_ok; [done|..].
    + intros _. go. by apply ends_reads.
    + intros b' w Hb' Hp Hs Ht. go. apply ends_reads; try done. by apply (tickets_ended b b' [w_request w]).
  - cbn [exec]. go. apply ends_in_reads. apply (poll_reads_ok clock during Hclock); [done|]. intros b' ps Hb' Hp Hs _ _. go.
    apply ends_reads; try done; [apply opened_reads|]. rewrite finished_reads, q_ticket_ended. apply tickets_ended in Hp.
    by rewrite <-list_fmap_compose in Hp.
  - cbn [exec]. go. apply ends_in_reads. apply close_reads_ok; [done|]. intros q' b' ps Hb' Hn Hp He _ Hg _. go. cbn [fst snd].
    split; [apply keep_reads; [done|lia|done]|]. split; [cbn; lia|]. rewrite opened_reads, finished_reads, q_ticket_ended, app_nil_r.
    split_and!; [|apply NoDup_nil_2|by constructor]. unfold live, tickets. cbn. rewrite Hp. unfold requests. by rewrite He, <-list_fmap_compose.
  - apply prepare_progress.
  - cbn [exec]. go. apply ends_in_heart. apply (cancel_heartbeat_ok clock during Hclock).
    + intros _. go. apply ends_beat; [by right|done..].
    + intros E. go. apply ends_beat; try done; [by left|]. by rewrite E.
  - cbn [exec]. go. apply ends_in_heart. apply (poll_heartbeat_ok clock during Hclock).
    + intros _. go. apply ends_beat; [by right|done..].
    + intros ticket d E _. go. apply ends_beat; try done; [by left|]. unfold beats. by rewrite E.
  - cbn [exec]. go. apply ends_in_heart. apply (close_heartbeat_ok clock during Hclock). intros h' E Hg _. go. cbn [fst snd].
    apply ends_beat; try done; [by left| |].
    + by destruct (beats h) as [|? [|]].
    + rewrite E. unfold beats. destruct (h_pending h) as [[t d]|]; done.
  - apply frame_progress.
  - cbn [exec]. go. go. pose proof (Account.reserve_spec count q) as Hr. eapply wp_mono; [exact Hr|]. intros [l|e] q' Hq'; cbv beta iota.
    + go. apply others_progress. destruct Hq' as (? & _ & _ & _ & _ & _ & ?). lia.
    + destruct Hq' as (_ & _ & -> & _). apply no_progress.
  - cbn [exec]. go. go. unfold Account.close. wp_step. go. apply others_progress. cbn. lia.
Qed.
End Calls.
End Steps.

Lemma run_progress clock loads g calls : ∀ s n, wait_ok g s →
  let '((s', _), es) := run clock loads calls (s, n) in
  wait_ok g s' ∧ Account._next s.1 ≤ Account._next s'.1 ∧ live s ++ opened es ≡ₚ finished es ++ live s' ∧
  NoDup (t_sequence <$> opened es) ∧ Forall (λ t, t_generation t = g ∧ Account._next s.1 ≤ t_sequence t < Account._next s'.1) (opened es).
Proof.
  induction calls as [|c calls IH]; intros [q [b h]] n H; cbn [run].
  - split_and!; [done|done|cbn; by rewrite app_nil_r|apply NoDup_nil_2|by constructor].
  - pose proof (exec_progress g q b h H clock loads (λ _, True) (λ _, I) c n) as Hc. unfold wp in Hc.
    destruct (exec clock loads c (q, (b, h), n)) as [[s1 n1] res]. cbn [fst snd] in Hc. destruct Hc as (H1 & Hle & Hres).
    specialize (IH s1 n1 H1). destruct (run clock loads calls (s1, n1)) as [[s2 n2] es]. destruct IH as (H2 & Hle2 & Hp & Hnd & Hf).
    split; [done|]. split; [lia|]. destruct res as [es0|e].
    + destruct Hres as (Hp0 & Hnd0 & Hf0). rewrite opened_app, finished_app, fmap_app. split_and!.
      * by rewrite app_assoc, Hp0, <-app_assoc, Hp, app_assoc.
      * apply NoDup_app. split_and!; [done| |done]. intros k (t & -> & Ht)%list_elem_of_fmap (t' & E & Ht')%list_elem_of_fmap.
        rewrite Forall_forall in Hf, Hf0. apply Hf0 in Ht as [_ ?]. apply Hf in Ht' as [_ ?]. cbn in *. lia.
      * apply Forall_app; split; eapply list.Forall_impl; try done; intros t (? & ? & ?); cbn in *; split_and!; try done; lia.
    + rewrite Hres in Hp. split_and!; [done|done|]. eapply list.Forall_impl; [exact Hf|]. intros t (? & ? & ?). cbn in *. split_and!; try done; lia.
Qed.

Lemma fresh_waiters session_id generation next_sequence s0 : broker_waiters session_id generation next_sequence = Ok s0 →
  wait_ok generation s0 ∧ live s0 = [] ∧ Account._next s0.1 = next_sequence.
Proof.
  unfold broker_waiters, broker_reads, broker_transactions, broker_heartbeat, broker_sequences. intros H. res_inv. cbn in *.
  repeat match goal with E : negb _ || _ || _ = false |- _ => rewrite !orb_false_iff, !negb_false_iff, !andb_true_iff in E end.
  split_and!; [|done|done]. split; cbn; [lia| |by constructor|done].
  split; cbn; try done; try apply NoDup_nil_2; intros; by apply elem_of_nil in H.
Qed.

(** ** Properties *)

(** C3: every broker request ends exactly once.  In every history of reads,
    heartbeats, frames, polls, cancellations and closings over one shared
    sequence namespace, whatever the clock and the frames, each ticket issued is
    either still pending or has ended exactly once; no two share a sequence
    number; at most eight reads and one heartbeat are pending.  A frame ends a
    read only within its deadline, by a reply that carries its sequence, session
    and device and a value of at most 256 nodes, or by a sealed receipt that
    refuses it; a reply to a read in time is never lost; polling the reads ends
    exactly those whose deadline is reached, cancelling a read ends the read of
    that ticket and no other, closing ends all.  Only a 0xA1 reply to its own
    sequence within the deadline answers the heartbeat, and such a reply is never
    lost while the owner is open; polling times the heartbeat out only when its
    deadline is reached and leaves it only when it is not; cancelling ends it
    exactly when it has the given ticket, and closing ends it. *)
Theorem waiters_once clock0 loads session_id generation next_sequence s0 calls :
  broker_waiters session_id generation next_sequence = Ok s0 →
  let '(((q, (b, h)), _), es) := run clock0 loads calls (s0, 0%nat) in
  (opened es ≡ₚ finished es ++ tickets b ++ beats h ∧ NoDup (t_sequence <$> opened es) ∧
   Forall (λ t, t_generation t = generation ∧ next_sequence ≤ t_sequence t < 2 ^ 32) (opened es) ∧
   len (tickets b) ≤ 8 ∧ len (beats h) ≤ 1 ∧ (b_closed b = true → tickets b = [])) ∧
  (∀ clock during, (∀ i, during (clock i)) →
    (∀ plain g, ends (accept_read clock loads plain g) (λ res _, match res with
       | Ok (Some c) => ended_by during plain g b c
       | Ok None => reads_closed (q, b) = false → len plain ≠ 32 → ∀ k w, (k, w) ∈ b_pending b →
           must_hold during (w_deadline w) → matched loads plain g (b_session b) w = Ok None
       | Raise e => value_error e
       end) (q, b)) ∧
    ends (poll_reads clock) (λ res _, ∃ ps, res = Ok (ended Timeout <$> ps) ∧
       (∀ w, w ∈ ps → (t_sequence (ticket_of w), w) ∈ b_pending b ∧ may_expire during (w_deadline w)) ∧
       (∀ k w, (k, w) ∈ b_pending b → must_expire during (w_deadline w) → w ∈ ps)) (q, b) ∧
    (∀ ticket, ends (cancel_read ticket) (λ res s, match res with
       | Ok (Some c) => q_ticket (c_request c) = ticket ∧ c_status c = Cancelled ∧ requests b ≡ₚ c_request c :: requests s.2
       | Ok None => s = (q, b) ∧ ticket ∉ tickets b
       | Raise _ => False
       end) (q, b)) ∧
    ends close_reads (λ res s, ∃ ps, res = Ok (ended Cancelled <$> ps) ∧ tickets b ≡ₚ ticket_of <$> ps ∧ b_pending s.2 = []) (q, b) ∧
    (∀ plain g, ends (accept_heartbeat clock plain g) (λ res s, match res with
       | Ok (Some c) => ∃ d, h_pending h = Some (beat_ticket c, d) ∧ may_hold during d ∧ beat_status c = Response ∧
           g = t_generation (beat_ticket c) ∧ index plain 1 = Ok 0xA1 ∧ unpack_from 4 plain 16 = Ok (t_sequence (beat_ticket c)) ∧
           h_pending s.2 = None
       | Ok None => s = (q, h) ∧ (beat_closed (q, h) = false → ∀ t d, h_pending h = Some (t, d) → must_hold during d →
           match_heartbeat_reply plain t g (h_session h) = Ok None)
       | Raise _ => False
       end) (q, h)) ∧
    ends (poll_heartbeat clock) (λ res s, match res with
       | Ok (Some c) => ∃ d, h_pending h = Some (beat_ticket c, d) ∧ may_expire during d ∧ beat_status c = Timeout ∧ h_pending s.2 = None
       | Ok None => s = (q, h) ∧ ∀ t d, h_pending h = Some (t, d) → may_hold during d
       | Raise _ => False
       end) (q, h) ∧
    (∀ ticket, ends (cancel_heartbeat ticket) (λ res s, match res with
       | Ok (Some c) => c = mkBeat ticket Cancelled None ∧ beats h = [ticket] ∧ h_pending s.2 = None
       | Ok None => s = (q, h) ∧ ticket ∉ beats h
       | Raise _ => False
       end) (q, h)) ∧
    ends close_heartbeat (λ res s, h_closed s.2 = true ∧ h_pending s.2 = None ∧
       res = Ok ((λ t, mkBeat t Cancelled None) <$> head (beats h))) (q, h)).
Proof.
  intros H0. destruct (fresh_waiters _ _ _ _ H0) as (Hw0 & Hl0 & Hn0). pose proof (run_progress clock0 loads generation calls s0 0%nat Hw0) as Hr.
  destruct (run clock0 loads calls (s0, 0%nat)) as [[[q [b h]] n] es]. destruct Hr as (Hw & Hle & Hp & Hnd & Hf). rewrite Hl0, Hn0 in *.
  pose proof (wk_reads _ _ Hw) as Hb. cbn in Hb. split.
  - split_and!; [exact Hp|done| | | |].
    + pose proof (wk_next _ _ Hw). eapply list.Forall_impl; [exact Hf|]. cbn in *. intros t (? & ? & ?). split_and!; try done; lia.
    + pose proof (ro_size _ _ Hb). unfold len, tickets, requests in *. by rewrite !length_fmap.
    + unfold beats. by destruct (h_pending h) as [[t d]|].
    + intros Hc. unfold tickets, requests. by rewrite (ro_closed _ _ Hb Hc).
  - intros clock during Hclock. split_and!.
    + intros plain g. apply (accept_read_ok clock loads during Hclock); [done|intros msg _; by exists msg|..]; done.
    + apply (poll_reads_ok clock during Hclock); [done|]. intros b' ps _ _ _ H1 H2. by exists ps.
    + intros ticket. apply cancel_read_ok; [done|done|]. intros b' w _ Hreq _ Ht. by split_and!.
    + apply close_reads_ok; [done|]. intros q' b' ps _ _ Ht He _ _ _. exists ps. split_and!; [done| |done].
      unfold tickets. by rewrite Ht, <-list_fmap_compose.
    + intros plain g. apply (accept_heartbeat_ok clock during Hclock); [done|by intros ->|].
      intros ticket d hint interval Hpend Hd _ Hg H1 _ H16 _. exists d. cbn. by split_and!.
    + apply (poll_heartbeat_ok clock during Hclock); [done|]. intros ticket d Hpend Hd. by exists d.
    + intros ticket. by apply (cancel_heartbeat_ok clock during Hclock).
    + apply (close_heartbeat_ok clock during Hclock). intros h' He _ Hc. split_and!; [done| |].
      * unfold beats in He. cbn [snd]. by destruct (h_pending h') as [[]|].
      * unfold beats. by destruct (h_pending h) as [[]|].
Qed.

Definition sample_reply : bytes :=
  [0x7E; 0xB8; 38; 0] ++ digits 256 8 7 ++ digits 256 4 900 ++ digits 256 4 5 ++ [0; 0; 0x22; 0] ++ digits 256 8 99 ++ [0; 0; 0; 0; 3; 0].
Definition sample_calls : list waiter_call :=
  [RegisterRead 99 "ProReadonly.devInfo" 2000; RegisterRead 99 "ProWritable.volume" 2000; Others 3;
   Prepare (mkNode ([], 0) 7 (zeros 32) 0) [10; 0; 0; 2] 5000 2000 0; Frame sample_reply 1; Frame sample_reply 1; PollReads].

Definition sample_waiters : BrokerSequences * waiters :=
  match broker_waiters 7 1 5 with Ok s => s | Raise _ => (Account.mkSequences 0 0 0 true, (mkReads (mkTransactions false 0 0 [] true) 0 [] true, mkHeartbeat 0 0 None 0 true)) end.
Definition sample_run : owned waiters * list event :=
  run (λ n, 100 * Z.of_nat n) (λ _, Undecodable) sample_calls (sample_waiters, 0%nat).

Lemma waiters_once_witness : broker_waiters 7 1 5 = Ok sample_waiters ∧
  t_sequence <$> opened sample_run.2 = [5; 6; 10] ∧ t_sequence <$> finished sample_run.2 = [5] ∧
  opened sample_run.2 ≡ₚ finished sample_run.2 ++ live sample_run.1.1.
Proof.
  split; [reflexivity|]. split; [vm_compute; reflexivity|]. split; [vm_compute; reflexivity|].
  pose proof (waiters_once (λ n, 100 * Z.of_nat n) (λ _, Undecodable) 7 1 5 sample_waiters sample_calls eq_refl) as H.
  unfold sample_run. destruct (run _ _ _ _) as [[[q [b h]] n] es]. exact (proj1 (proj1 H)).
Defined.
End Broker.
