(* ===== verification/Mailbox.v ===== *)
(** * The mailbox between callers and the account worker

    Models p2p [broker_mailbox.py]: the eight slots through which callers hand
    reads to the one worker of an account and get their outcomes back.

    Every method holds the lock for its whole body, so a call is one transition
    on the mailbox.  Tickets, slots and outcomes have the fields of the source;
    the slots are a dictionary in the order of submission.  Times are integers
    in milliseconds, read from an arbitrary clock. *)

From Stdlib Require Import ZArith Lia.
From S2P Require Import Prelude Account Broker.

Module Mailbox.
Import Account(is_none).
Import Broker(value_error, may_hold, must_hold, must_expire, may_expire, ends_now_in, ReceiptTicket, t_generation, t_kind, ReadRequest, mkRequest, mkTicket, q_ticket, q_device, q_path,
  read_status(..), ReadCompletion, c_request, c_status, mkCompletion, MAX_PENDING, valid_timeout).

Definition ACCOUNT_IDENTITY_READ_PATHS : list string := [
  "ProConst._productInfo"; "ProConst._versionInfo"; "ProReadonly.devInfo"]%string.
Definition ACCOUNT_STATE_READ_PATHS : list string := [
  "ProWritable.volume"; "ProWritable.guardParm"; "ProWritable.videoParm"; "ProWritable.resFile"; "Action.expelCtrl"]%string.

Record MailboxTicket := mkMailTicket { k_generation : Z; k_sequence : Z }.
#[global] Instance mail_ticket_eq_dec : EqDecision MailboxTicket.
Proof. solve_decision. Defined.
#[global] Instance request_eq_dec : EqDecision ReadRequest.
Proof. solve_decision. Defined.

Record ReadSubmission := mkSubmission { s_ticket : MailboxTicket; s_device : Z; s_path : string; s_deadline : Z }.
Record ReadOutcome := mkOutcome { o_status : read_status; o_completion : option ReadCompletion }.
Record BoundReadOutcome := mkBound { b_request : option ReadRequest; b_outcome : ReadOutcome }.
Record MailboxWork := mkWork { submissions : list ReadSubmission; cancellations : list MailboxTicket }.

Record _Slot := mkSlot {
  submission : ReadSubmission; claimed : bool; outcome : option ReadOutcome; consumed : bool; cancel_pending : bool;
  request : option ReadRequest
}.
Definition queued (s : ReadSubmission) : _Slot := mkSlot s false None false false None.
Definition set_claimed (s : _Slot) := mkSlot (submission s) true (outcome s) (consumed s) (cancel_pending s) (request s).
Definition set_outcome o (s : _Slot) := mkSlot (submission s) (claimed s) (Some o) (consumed s) (cancel_pending s) (request s).
Definition set_consumed (s : _Slot) := mkSlot (submission s) (claimed s) None true (cancel_pending s) (request s).
Definition set_acknowledged (s : _Slot) := mkSlot (submission s) (claimed s) (outcome s) (consumed s) false (request s).
Definition set_request r (s : _Slot) := mkSlot (submission s) (claimed s) (outcome s) (consumed s) (cancel_pending s) (Some r).

Record BrokerMailbox := mkMailbox {
  _read_paths : list string; _generation : Z; _slots : list (MailboxTicket * _Slot); _next : Z; _closed : bool
}.
Definition set_slots d b := mkMailbox (_read_paths b) (_generation b) d (_next b) (_closed b).

Definition broker_mailbox (generation : Z) (state_reads : bool) : result BrokerMailbox :=
  let paths := ACCOUNT_IDENTITY_READ_PATHS ++ (if state_reads then ACCOUNT_STATE_READ_PATHS else []) in
  _ ← raise_if (generation <=? 0) (ValueError "invalid mailbox generation");
  Ok (mkMailbox paths generation [] 0 false).

(** [slot.outcome is None and not slot.consumed] *)
Definition unended (s : _Slot) : bool := is_none (outcome s) && negb (consumed s).
Definition _stop (status : read_status) (s : _Slot) : _Slot :=
  if unended s then mkSlot (submission s) (claimed s) (Some (mkOutcome status None)) (consumed s) (claimed s) (request s) else s.

(** The deadline is applied to a slot. *)
Definition expire (t : Z) (s : _Slot) : _Slot := if s_deadline (submission s) <=? t then _stop Timeout s else s.

(** One round of [poll]: the slot after it, what is submitted and whether its
    cancellation is reported. *)
Definition poll_slot (closed : bool) (t : Z) (s : _Slot) : _Slot * (option ReadSubmission * bool) :=
  let s := expire t s in
  if negb (claimed s) && is_none (outcome s) && negb closed
  then (set_claimed s, (Some (submission s), cancel_pending s))
  else (s, (None, cancel_pending s)).

Section Clock.
Context (clock : nat → Z).
#[local] Notation now := (now clock).
#[local] Abbreviation T := (M (BrokerMailbox * nat)).

(** A slot object is mutated in place. *)
Definition put_slot (ticket : MailboxTicket) (s : _Slot) : T unit :=
  assign (λ b, set_slots (dict_set ticket s (_slots b)) b).
Definition del_slot (ticket : MailboxTicket) : T unit :=
  b ← state; d ← lift (dict_pop ticket (_slots b)); assign (set_slots d).

Definition submit (device_id : Z) (path : string) (timeout : Z) : T MailboxTicket :=
  b ← state;
  _ ← check (negb ((0 <? device_id) && (device_id <? 2 ^ 64)) || negb (existsb (String.eqb path) (_read_paths b)) || negb (valid_timeout timeout))
        (ValueError "invalid bounded read submission");
  _ ← check (_closed b || (2 ^ 64 <=? _next b)) (ValueError "mailbox closed or sequence exhausted");
  _ ← check (MAX_PENDING <=? len (_slots b)) (ValueError "mailbox capacity exhausted");
  let ticket := mkMailTicket (_generation b) (_next b) in
  _ ← assign (λ b, mkMailbox (_read_paths b) (_generation b) (_slots b) (_next b + 1) (_closed b));
  t ← now;
  _ ← put_slot ticket (queued (mkSubmission ticket device_id path (t + timeout)));
  mret ticket.

Definition poll : T MailboxWork :=
  t ← now; b ← state;
  let rounds := (λ kv, (kv.1, poll_slot (_closed b) t kv.2)) <$> _slots b in
  _ ← assign (set_slots ((λ r, (r.1, r.2.1)) <$> rounds));
  mret (mkWork (omap (λ r, r.2.2.1) rounds) (filter (λ r, r.2.2.2 = true) rounds).*1).

Definition acknowledge_cancel (ticket : MailboxTicket) : T bool :=
  b ← state;
  match dict_get ticket (_slots b) with
  | None => mret false
  | Some slot =>
      match cancel_pending slot with
      | false => mret false
      | true =>
          _ ← put_slot ticket (set_acknowledged slot);
          _ ← (if consumed slot then del_slot ticket else mret tt);
          mret true
      end
  end.

(** The wire tickets bound to the slots. *)
Definition wires (d : list (MailboxTicket * _Slot)) : list ReceiptTicket := omap (λ kv, q_ticket <$> request kv.2) d.

Definition bind (ticket : MailboxTicket) (r : ReadRequest) : T bool :=
  b ← state;
  match dict_get ticket (_slots b) with
  | None => mret false
  | Some slot =>
      match negb (claimed slot) || negb (is_none (request slot)) || negb (unended slot) with
      | true => mret false
      | false =>
          t ← now;
          match (s_deadline (submission slot) <=? t) || negb (t_generation (q_ticket r) =? _generation b) || negb (t_kind (q_ticket r) =? 0xB7)
                || negb (q_device r =? s_device (submission slot)) || negb (String.eqb (q_path r) (s_path (submission slot)))
                || bool_decide (q_ticket r ∈ wires (_slots b)) with
          | true => mret false
          | false => _ ← put_slot ticket (set_request r slot); mret true
          end
      end
  end.

Definition finish (ticket : MailboxTicket) (completion : ReadCompletion) : T bool :=
  b ← state;
  match dict_get ticket (_slots b) with
  | None => mret false
  | Some slot =>
      match negb (claimed slot) || negb (unended slot) || bool_decide (request slot ≠ Some (c_request completion)) with
      | true => mret false
      | false =>
          t ← now;
          _ ← put_slot ticket
                (if s_deadline (submission slot) <=? t then set_outcome (mkOutcome Timeout None) slot
                 else set_outcome (mkOutcome (c_status completion) (Some completion)) slot);
          mret true
      end
  end.

Definition cancel (ticket : MailboxTicket) : T bool :=
  b ← state;
  match dict_get ticket (_slots b) with
  | None => mret false
  | Some slot => if unended slot then _ ← put_slot ticket (_stop Cancelled slot); mret true else mret false
  end.

Definition ready (ticket : MailboxTicket) : T bool :=
  b ← state;
  match dict_get ticket (_slots b) with
  | None => mret false
  | Some slot =>
      t ← now;
      let slot := expire t slot in
      _ ← put_slot ticket slot;
      mret (negb (is_none (request slot)) && unended slot)
  end.

Definition take_bound (ticket : MailboxTicket) : T (option BoundReadOutcome) :=
  b ← state;
  match dict_get ticket (_slots b) with
  | None => mret None
  | Some slot =>
      match consumed slot with
      | true => mret None
      | false =>
          t ← now;
          let slot := expire t slot in
          _ ← put_slot ticket slot;
          match outcome slot with
          | None => mret None
          | Some o =>
              _ ← (if cancel_pending slot then put_slot ticket (set_consumed slot) else del_slot ticket);
              mret (Some (mkBound (request slot) o))
          end
      end
  end.

Definition take (ticket : MailboxTicket) : T (option ReadOutcome) :=
  bound ← take_bound ticket; mret (b_outcome <$> bound).

Definition stop_all (which : _Slot → bool) (b : BrokerMailbox) : BrokerMailbox :=
  mkMailbox (_read_paths b) (_generation b)
    ((λ kv, (kv.1, if which kv.2 then _stop Cancelled kv.2 else kv.2)) <$> _slots b) (_next b) true.
Definition close : T unit := assign (stop_all (λ _, true)).
Definition drain : T unit := assign (stop_all (λ s, negb (claimed s))).

(** ** Histories *)

Inductive call : Type :=
| Submit (device_id : Z) (path : string) (timeout : Z) | Poll | Acknowledge (ticket : MailboxTicket)
| Bind (ticket : MailboxTicket) (r : ReadRequest) | Finish (ticket : MailboxTicket) (c : ReadCompletion)
| Cancel (ticket : MailboxTicket) | Ready (ticket : MailboxTicket) | Take (ticket : MailboxTicket) | Close | Drain.

(** What a call that returns has done: a read was submitted, handed to the
    worker, bound to its request, released or finished by the worker, or its
    outcome taken. *)
Inductive event : Type :=
| Submitted (ticket : MailboxTicket) (device_id : Z) (path : string) | Handed (ticket : MailboxTicket)
| Bound (ticket : MailboxTicket) (r : ReadRequest) | Released (ticket : MailboxTicket)
| Finished (ticket : MailboxTicket) (c : ReadCompletion) | Taken (ticket : MailboxTicket) (b : BoundReadOutcome).

Definition when (e : event) (b : bool) : list event := if b then [e] else [].

Definition exec (c : call) : T (list event) :=
  match c with
  | Submit device path timeout => t ← submit device path timeout; mret [Submitted t device path]
  | Poll => w ← poll; mret ((λ s, Handed (s_ticket s)) <$> submissions w)
  | Acknowledge t => b ← acknowledge_cancel t; mret (when (Released t) b)
  | Bind t r => b ← bind t r; mret (when (Bound t r) b)
  | Finish t c => b ← finish t c; mret (when (Finished t c) b)
  | Cancel t => _ ← cancel t; mret []
  | Ready t => _ ← ready t; mret []
  | Take t => b ← take_bound t; mret (option_list (Taken t <$> b))
  | Close => _ ← close; mret []
  | Drain => _ ← drain; mret []
  end.

Fixpoint run (calls : list call) (b : (BrokerMailbox * nat)) (log : list event) : (BrokerMailbox * nat) * list event :=
  match calls with
  | [] => (b, log)
  | c :: calls => let '(b, r) := exec c b in run calls b (log ++ match r with Ok es => es | Raise _ => [] end)
  end.
End Clock.

(** ** What a history has done *)

Definition submitted (log : list event) : list MailboxTicket := omap (λ e, match e with Submitted t _ _ => Some t | _ => None end) log.
Definition handed (log : list event) : list MailboxTicket := omap (λ e, match e with Handed t => Some t | _ => None end) log.
Definition released (log : list event) : list MailboxTicket := omap (λ e, match e with Released t => Some t | _ => None end) log.
Definition finished (log : list event) : list MailboxTicket := omap (λ e, match e with Finished t _ => Some t | _ => None end) log.
Definition bound (log : list event) : list (MailboxTicket * ReadRequest) := omap (λ e, match e with Bound t r => Some (t, r) | _ => None end) log.
Definition taken (log : list event) : list MailboxTicket := omap (λ e, match e with Taken t _ => Some t | _ => None end) log.

(** The tickets whose outcome is still to be taken, and those the worker has
    neither finished nor released. *)
Definition awaited (s : _Slot) : bool := negb (consumed s).
Definition working (s : _Slot) : bool := claimed s && (cancel_pending s || is_none (outcome s)).
Definition tickets (which : _Slot → bool) (d : list (MailboxTicket * _Slot)) : list MailboxTicket := (filter (λ kv, which kv.2 = true) d).*1.
Definition one (k : MailboxTicket) (b : bool) : list MailboxTicket := if b then [k] else [].

Record slot_ok (g n : Z) (closed : bool) (k : MailboxTicket) (s : _Slot) : Prop := {
  so_ticket : s_ticket (submission s) = k;
  so_issued : k_generation k = g ∧ 0 ≤ k_sequence k < n;
  so_consumed : consumed s = true → outcome s = None ∧ cancel_pending s = true;
  so_cancel : cancel_pending s = true → claimed s = true ∧ unended s = false;
  so_request r : request s = Some r → claimed s = true ∧ t_generation (q_ticket r) = g ∧ t_kind (q_ticket r) = 0xB7 ∧
    q_device r = s_device (submission s) ∧ q_path r = s_path (submission s);
  so_outcome o : outcome s = Some o → match o_completion o with
    | Some c => o_status o = c_status c ∧ request s = Some (c_request c) ∧ cancel_pending s = false
    | None => o_status o = Timeout ∨ o_status o = Cancelled
    end;
  so_closed : closed = true → claimed s = true ∨ unended s = false
}.

Definition box_slot (b : BrokerMailbox) := slot_ok (_generation b) (_next b) (_closed b).

Record log_ok (b : BrokerMailbox) (log : list event) : Prop := {
  lo_keys : NoDup (_slots b).*1;
  lo_size : len (_slots b) ≤ MAX_PENDING;
  lo_next : 0 ≤ _next b ≤ 2 ^ 64;
  lo_wires : NoDup (wires (_slots b));
  lo_slot k s : (k, s) ∈ _slots b → box_slot b k s ∧ (claimed s = false → k ∉ handed log) ∧
    (∀ o c, outcome s = Some o → o_completion o = Some c → Finished k c ∈ log) ∧
    Submitted k (s_device (submission s)) (s_path (submission s)) ∈ log;
  lo_bound k s r : (k, s) ∈ _slots b → request s = Some r ↔ (k, r) ∈ bound log;
  lo_known k r : (k, r) ∈ bound log → k ∈ submitted log;
  lo_submitted : submitted log = mkMailTicket (_generation b) <$> seqZ 0 (_next b);
  lo_taken : submitted log ≡ₚ taken log ++ tickets awaited (_slots b);
  lo_handed : handed log ≡ₚ finished log ++ released log ++ tickets working (_slots b);
  lo_once : NoDup (handed log);
  lo_source : handed log ⊆ submitted log;
  lo_outcomes t o c : Taken t o ∈ log → o_completion (b_outcome o) = Some c →
    Finished t c ∈ log ∧ b_request o = Some (c_request c) ∧ o_status (b_outcome o) = c_status c ∧
    Submitted t (q_device (c_request c)) (q_path (c_request c)) ∈ log
}.

(** A read the worker has bound and whose slot has not ended. *)
Definition held (b : BrokerMailbox) (k : MailboxTicket) (r : ReadRequest) : Prop :=
  ∃ s, (k, s) ∈ _slots b ∧ request s = Some r ∧ unended s = true.
Definition all_ended (b : BrokerMailbox) : Prop := _closed b = true ∧ ∀ k s, (k, s) ∈ _slots b → unended s = false.

(** A transition with the events [es]: only binding makes a slot held, and a
    closed mailbox whose reads have ended stays so. *)
Record logged (b : BrokerMailbox) (log : list event) (b' : BrokerMailbox) (es : list event) : Prop := {
  lg_ok : log_ok b' (log ++ es);
  lg_held k r : held b' k r → held b k r ∨ (k, r) ∈ bound es;
  lg_ended : all_ended b → all_ended b'
}.

Lemma logged_refl b log : log_ok b log → logged b log b [].
Proof. intros H. split; [by rewrite app_nil_r|by left|done]. Qed.

Lemma logged_trans b1 log b2 es b3 es' : logged b1 log b2 es → logged b2 (log ++ es) b3 es' → logged b1 log b3 (es ++ es').
Proof.
  intros [A1 A2 A3] [B1 B2 B3]. split; [by rewrite app_assoc| |by auto].
  intros k r [[?|?]%A2|?]%B2; [by left|right..]; unfold bound; rewrite omap_app; apply elem_of_app; [by left|by right].
Qed.

Lemma tickets_app which d1 d2 : tickets which (d1 ++ d2) = tickets which d1 ++ tickets which d2.
Proof. unfold tickets. by rewrite filter_app, fmap_app. Qed.
Lemma tickets_cons which k s d : tickets which ((k, s) :: d) = one k (which s) ++ tickets which d.
Proof. unfold tickets, one. rewrite filter_cons. cbn. by case_decide as E; destruct (which s). Qed.
Lemma wires_app d1 d2 : wires (d1 ++ d2) = wires d1 ++ wires d2.
Proof. apply omap_app. Qed.
Lemma wires_cons k s d : wires ((k, s) :: d) = option_list (q_ticket <$> request s) ++ wires d.
Proof. unfold wires. cbn. by destruct (request s). Qed.

Lemma submitted_app l1 l2 : submitted (l1 ++ l2) = submitted l1 ++ submitted l2.
Proof. apply omap_app. Qed.
Lemma handed_app l1 l2 : handed (l1 ++ l2) = handed l1 ++ handed l2.
Proof. apply omap_app. Qed.
Lemma released_app l1 l2 : released (l1 ++ l2) = released l1 ++ released l2.
Proof. apply omap_app. Qed.
Lemma finishes_app l1 l2 : finished (l1 ++ l2) = finished l1 ++ finished l2.
Proof. apply omap_app. Qed.
Lemma bound_app l1 l2 : bound (l1 ++ l2) = bound l1 ++ bound l2.
Proof. apply omap_app. Qed.
Lemma taken_app l1 l2 : taken (l1 ++ l2) = taken l1 ++ taken l2.
Proof. apply omap_app. Qed.
#[local] Hint Rewrite tickets_app tickets_cons wires_app wires_cons submitted_app handed_app released_app finishes_app taken_app : mail.

(** ** A call on one slot *)

(** The slot [k] mutated, or deleted. *)
Definition change (k : MailboxTicket) (o : option _Slot) (d : list (MailboxTicket * _Slot)) :=
  match o with Some s => dict_set k s d | None => dict_del k d end.
Definition holds (which : _Slot → bool) (o : option _Slot) : bool := match o with Some s => which s | None => false end.

(** What a change of slot [k] from [s] to [o] must satisfy beside [slot_ok]:
    the events [es] account for it. *)
Record accounts (k : MailboxTicket) (s : _Slot) (o : option _Slot) (es log : list event) : Prop := {
  ac_none : submitted es = [] ∧ handed es = [];
  ac_taken : one k (awaited s) ≡ₚ taken es ++ one k (holds awaited o);
  ac_worked : one k (working s) ≡ₚ finished es ++ released es ++ one k (holds working o);
  ac_slot s' : o = Some s' → claimed s' = claimed s ∧ submission s' = submission s ∧
    ∀ x c, outcome s' = Some x → o_completion x = Some c → Finished k c ∈ log ++ es;
  ac_outcomes t x c : Taken t x ∈ es → o_completion (b_outcome x) = Some c →
    Finished t c ∈ log ∧ b_request x = Some (c_request c) ∧ o_status (b_outcome x) = c_status c ∧
    Submitted t (q_device (c_request c)) (q_path (c_request c)) ∈ log
}.

Lemma change_split k s o d : NoDup d.*1 → dict_get k d = Some s →
  ∃ l1 l2, d = l1 ++ (k, s) :: l2 ∧ change k o d = l1 ++ match o with Some s' => [(k, s')] | None => [] end ++ l2.
Proof.
  intros Hd Hk. destruct (dict_split k s d Hd Hk) as (l1 & l2 & E & Hs & Hdel). exists l1, l2. split; [done|]. by destruct o; cbn.
Qed.

(** An entry of a changed list is an old entry of another key, or the new one. *)
Lemma split_elem (l1 l2 : list (MailboxTicket * _Slot)) k (s : _Slot) (o : option _Slot) k' s' : NoDup (l1 ++ (k, s) :: l2).*1 →
  (k', s') ∈ l1 ++ match o with Some x => [(k, x)] | None => [] end ++ l2 → (k', s') ∈ l1 ++ l2 ∧ k' ≠ k ∨ k' = k ∧ o = Some s'.
Proof.
  rewrite fmap_app, fmap_cons. intros (_ & Hd & Hn)%NoDup_app Hin. apply NoDup_cons in Hn as [Hn _].
  assert (∀ x, (k, x) ∉ l1) as K1.
  { intros x Hx. apply (Hd k); [apply list_elem_of_fmap; by exists (k, x)|]. cbn. set_solver. }
  assert (∀ x, (k, x) ∉ l2) as K2 by (intros x Hx; apply Hn, list_elem_of_fmap; by exists (k, x)).
  apply elem_of_app in Hin as [Hin|[Hin|Hin]%elem_of_app].
  - left. split; [set_solver|]. intros ->. by apply (K1 s').
  - right. destruct o; set_solver.
  - left. split; [set_solver|]. intros ->. by apply (K2 s').
Qed.

Lemma submitted_elem k d p log : Submitted k d p ∈ log → k ∈ submitted log.
Proof. intros H. apply list_elem_of_omap. by exists (Submitted k d p). Qed.

Lemma change_ok b log k s o es : log_ok b log → dict_get k (_slots b) = Some s → accounts k s o es log →
  (o = None → bound es = []) →
  (∀ s', o = Some s' → box_slot b k s' ∧
     (request s' = request s ∧ bound es = [] ∨
      request s = None ∧ ∃ r, request s' = Some r ∧ q_ticket r ∉ wires (_slots b) ∧ bound es = [(k, r)]) ∧
     (unended s' = true → unended s = true)) →
  logged b log (set_slots (change k o (_slots b)) b) es.
Proof.
  intros H Hk [[Ea1 Ea2] At Aw As Ao] Hdel Hs. destruct (change_split k s o _ (lo_keys _ _ H) Hk) as (l1 & l2 & E & Ec). rewrite Ec.
  split.
  2:{ intros k' r (s' & Hin & Hr & Hu). cbn [set_slots _slots] in Hin. pose proof (lo_keys _ _ H) as L1. rewrite E in L1.
      destruct (split_elem _ _ _ _ _ _ _ L1 Hin) as [[Hin' _]|[-> ->]].
      - left. exists s'. rewrite E. split; [set_solver|done].
      - destruct (Hs s' eq_refl) as (_ & [[Er _]|(_ & r' & Er & _ & Eb)] & Hu'); [left; exists s; rewrite E; split_and!; [set_solver|congruence|by apply Hu']|].
        right. rewrite Eb. apply list_elem_of_singleton. congruence. }
  2:{ intros [Hc Hall]. split; [done|]. intros k' s' Hin. cbn [set_slots _slots] in Hin. pose proof (lo_keys _ _ H) as L1. rewrite E in L1.
      destruct (split_elem _ _ _ _ _ _ _ L1 Hin) as [[Hin' _]|[-> ->]]; [apply (Hall k'); rewrite E; set_solver|].
      destruct (Hs s' eq_refl) as (_ & _ & Hu). destruct (unended s') eqn:U; [|done]. rewrite <-(Hu eq_refl). apply (Hall k). rewrite E. set_solver. }
  destruct H as [L1 L2 L3 L4 L5 LB LK L6 L7 L8 L9 L10 L11]. rewrite E in *.
  assert (submitted (log ++ es) = submitted log) as Es by (rewrite submitted_app, Ea1; apply app_nil_r).
  assert (handed (log ++ es) = handed log) as Eh by (rewrite handed_app, Ea2; apply app_nil_r).
  assert (bound es = [] ∨ ∃ r, bound es = [(k, r)]) as Hes.
  { destruct o as [s'|]; [|left; by apply Hdel]. destruct (Hs s' eq_refl) as (_ & [[_ ?]|(_ & r & _ & _ & ?)] & _); [by left|right; by exists r]. }
  split; cbn [set_slots _slots _next _generation _read_paths _closed].
  - eapply sublist_NoDup; [exact L1|]. rewrite !fmap_app, fmap_cons. cbn. apply sublist_app; [done|]. destruct o; [done|]. by apply sublist_cons.
  - unfold len in *. rewrite length_app in L2. cbn in L2. rewrite !length_app. destruct o; cbn; lia.
  - done.
  - rewrite wires_app, wires_cons in L4. destruct o as [s'|]; cbn [app]; rewrite wires_app, ?wires_cons.
    + destruct (Hs s' eq_refl) as (_ & [[-> _]|(Er & r & -> & Hr & _)] & _); [done|]. rewrite wires_app, wires_cons, Er in Hr. rewrite Er in L4. cbn in *.
      rewrite <-Permutation_middle. by apply NoDup_cons.
    + eapply sublist_NoDup; [exact L4|]. apply sublist_app; [done|]. by apply sublist_inserts_l.
  - intros k' s' Hin. rewrite Eh. assert ((k', s') ∈ l1 ++ (k, s) :: l2 ∨ k' = k ∧ o = Some s') as [Hin'|[-> ->]].
    { clear -Hin. apply elem_of_app in Hin as [?|[?|?]%elem_of_app]; [left|destruct o; [right|]|left]; set_solver. }
    + destruct (L5 _ _ Hin') as (S1 & S2 & S3 & S4). split_and!; [by destruct S1|done| |apply elem_of_app; by left]. intros x c Hx Hc. apply elem_of_app. left. by eapply S3.
    + destruct (Hs s' eq_refl) as [S1 _]. destruct (As s' eq_refl) as (Ec' & Esub & S3). destruct (L5 k s) as (_ & S2 & _ & S4); [set_solver|].
      split_and!; [by destruct S1|by rewrite Ec'|done|]. rewrite Esub. apply elem_of_app. by left.
  - intros k' s' r Hin. rewrite bound_app, elem_of_app. destruct (split_elem _ _ _ _ _ _ _ L1 Hin) as [[Hin' Hne]|[-> ->]].
    + rewrite <-(LB k' s' r) by set_solver. split; [by left|]. intros [?|Hb]; [done|]. destruct Hes as [Hb'|[r' Hb']]; rewrite Hb' in Hb; set_solver.
    + assert ((k, s) ∈ l1 ++ (k, s) :: l2) as Hks by (apply elem_of_app; right; left).
      destruct (Hs s' eq_refl) as (_ & [[-> Hb]|(Er & r' & -> & _ & Hb)] & _); rewrite Hb, <-(LB k s r Hks).
      * split; [by left|by intros [?|?%elem_of_nil]].
      * rewrite Er. split; [intros [= ->]; right; by left|intros [?|Hx%list_elem_of_singleton]; [done|congruence]].
  - intros k' r. rewrite bound_app, Es. intros [Hb|Hb]%elem_of_app; [by eapply LK|]. destruct Hes as [Hb'|[r' Hb']]; rewrite Hb' in Hb; [by apply elem_of_nil in Hb|].
    apply list_elem_of_singleton in Hb as [= -> ->]. destruct (L5 k s) as (_ & _ & _ & S4); [set_solver|]. by eapply submitted_elem.
  - by rewrite Es.
  - rewrite Es, L7, taken_app. rewrite tickets_app, tickets_cons, At. destruct o; cbn [app holds one]; autorewrite with mail; solve_Permutation.
  - rewrite Eh, L8, finishes_app, released_app. rewrite tickets_app, tickets_cons, Aw. destruct o; cbn [app holds one]; autorewrite with mail; solve_Permutation.
  - by rewrite Eh.
  - by rewrite Eh, Es.
  - intros t x c [Hin|Hin]%elem_of_app Hx.
    + destruct (L11 _ _ _ Hin Hx) as (? & ? & ? & ?). split_and!; try done; apply elem_of_app; by left.
    + destruct (Ao _ _ _ Hin Hx) as (? & ? & ? & ?). split_and!; try done; apply elem_of_app; by left.
Qed.

(** ** A call on every slot *)

(** What such a call does to a slot: it may hand it to the worker or stop it. *)
Record moves (s s' : _Slot) (hands : bool) : Prop := {
  mv_submission : submission s' = submission s;
  mv_request : request s' = request s;
  mv_consumed : consumed s' = consumed s;
  mv_claimed : claimed s' = hands || claimed s;
  mv_hands : hands = true → claimed s = false;
  mv_working : working s' = hands || working s;
  mv_outcome o c : outcome s' = Some o → o_completion o = Some c → outcome s = Some o;
  mv_unended : unended s' = true → unended s = true
}.

Section Map.
Context (f : _Slot → _Slot) (hands : _Slot → bool).

Definition mapped (d : list (MailboxTicket * _Slot)) : list (MailboxTicket * _Slot) := (λ kv, (kv.1, f kv.2)) <$> d.

Lemma mapped_keys d : (mapped d).*1 = d.*1.
Proof. unfold mapped. by rewrite <-list_fmap_compose. Qed.

Lemma tickets_mapped which d : (∀ k s, (k, s) ∈ d → which (f s) = which s) → tickets which (mapped d) = tickets which d.
Proof.
  induction d as [|[k s] d IH]; intros H; [done|]. unfold mapped. rewrite fmap_cons. cbn [fst snd]. rewrite !tickets_cons.
  fold (mapped d). rewrite IH by set_solver. by rewrite (H k s) by set_solver.
Qed.

Lemma working_mapped d : (∀ k s, (k, s) ∈ d → moves s (f s) (hands s)) → tickets working (mapped d) ≡ₚ tickets hands d ++ tickets working d.
Proof.
  induction d as [|[k s] d IH]; intros H; [done|]. unfold mapped. rewrite fmap_cons. cbn [fst snd]. rewrite !tickets_cons.
  fold (mapped d). rewrite IH by set_solver. destruct (H k s) as [_ _ _ _ Hh -> _]; [set_solver|].
  unfold working in *. destruct (hands s); [rewrite (Hh eq_refl)|]; cbn [orb andb one app]; solve_Permutation.
Qed.

Lemma wires_mapped d : (∀ k s, (k, s) ∈ d → moves s (f s) (hands s)) → wires (mapped d) = wires d.
Proof.
  induction d as [|[k s] d IH]; intros H; [done|]. unfold mapped. rewrite fmap_cons. cbn [fst snd]. rewrite !wires_cons.
  fold (mapped d). rewrite IH by set_solver. by destruct (H k s) as [_ -> _ _ _ _ _]; [set_solver|].
Qed.

Lemma events_handed l : let es := Handed <$> l in
  submitted es = [] ∧ handed es = l ∧ finished es = [] ∧ released es = [] ∧ taken es = [] ∧ bound es = [] ∧ ∀ t o, Taken t o ∉ es.
Proof.
  cbv zeta. split_and!; try (induction l as [|k l IH]; [done|]; first [exact IH|exact (f_equal (cons k) IH)]).
  intros t o (k & [=] & _)%list_elem_of_fmap.
Qed.

Lemma tickets_which which d k : k ∈ tickets which d ↔ ∃ s, which s = true ∧ (k, s) ∈ d.
Proof.
  unfold tickets. rewrite list_elem_of_fmap. split.
  - intros ([k' s] & -> & [? ?]%list_elem_of_filter). by exists s.
  - intros (s & ? & ?). exists (k, s). split; [done|]. by apply list_elem_of_filter.
Qed.

Lemma map_ok b log closed' : log_ok b log → (∀ k s, (k, s) ∈ _slots b → moves s (f s) (hands s)) →
  let b' := mkMailbox (_read_paths b) (_generation b) (mapped (_slots b)) (_next b) closed' in
  (∀ k s, (k, s) ∈ _slots b → box_slot b k s → box_slot b' k (f s)) →
  (_closed b = true → closed' = true) → logged b log b' (Handed <$> tickets hands (_slots b)).
Proof.
  intros H Hm b' Hs Hclosed. split.
  2:{ intros k r (s' & ([k0 s] & [= -> ->] & Hin)%list_elem_of_fmap & Hr & Hu). left. exists s. split; [done|].
      destruct (Hm _ _ Hin) as [_ Er _ _ _ _ _ Hu']. split; [congruence|by apply Hu']. }
  2:{ intros [Hc Hall]. split; [by apply Hclosed|]. intros k s' ([k0 s] & [= -> ->] & Hin)%list_elem_of_fmap. cbn. destruct (unended (f s)) eqn:U; [|done].
      by rewrite <-(Hall _ _ Hin), (mv_unended _ _ _ (Hm _ _ Hin) U). }
  revert H Hm Hs. clear Hclosed.
  intros [L1 L2 L3 L4 L5 LB LK L6 L7 L8 L9 L10 L11] Hm Hs.
  destruct (events_handed (tickets hands (_slots b))) as (E1 & E2 & E3 & E4 & E5 & EB & E6). set (es := Handed <$> _) in *.
  split; cbn [b' _slots _next _generation]; rewrite ?submitted_app, ?handed_app, ?taken_app, ?finishes_app, ?released_app, ?E1, ?E2, ?E3, ?E4, ?E5, ?app_nil_r.
  - by rewrite mapped_keys.
  - unfold mapped, len in *. by rewrite length_fmap.
  - done.
  - by rewrite wires_mapped.
  - intros k s' ([k0 s] & [= -> ->] & Hin)%list_elem_of_fmap. destruct (L5 _ _ Hin) as (S1 & S2 & S3 & S4). split_and!; [by apply Hs| | |].
    + rewrite (mv_claimed _ _ _ (Hm _ _ Hin)). intros [Hh Hc]%orb_false_iff. rewrite not_elem_of_app. split; [by apply S2|].
      intros (s' & Hs' & Hin')%tickets_which. pose proof (dict_get_nodup _ _ _ L1 Hin). pose proof (dict_get_nodup _ _ _ L1 Hin'). congruence.
    + intros o c Ho Hc. apply elem_of_app. left. eapply S3; [|exact Hc]. by eapply (mv_outcome _ _ _ (Hm _ _ Hin)).
    + rewrite (mv_submission _ _ _ (Hm _ _ Hin)). apply elem_of_app. by left.
  - intros k s' r ([k0 s] & [= -> ->] & Hin)%list_elem_of_fmap. rewrite bound_app, EB, app_nil_r, (mv_request _ _ _ (Hm _ _ Hin)). by apply LB.
  - intros k r. rewrite bound_app, EB, app_nil_r. apply LK.
  - done.
  - rewrite tickets_mapped; [done|]. intros k s Hin. unfold awaited. by rewrite (mv_consumed _ _ _ (Hm _ _ Hin)).
  - rewrite working_mapped, L8 by done. solve_Permutation.
  - apply NoDup_app. split_and!; [done| |].
    + intros k Hk (s & Hh & Hin)%tickets_which. destruct (L5 _ _ Hin) as (_ & S2 & _). apply S2; [|done]. by apply (Hm _ _ Hin).
    + unfold tickets. eapply sublist_NoDup; [exact L1|]. apply fmap_sublist, sublist_filter.
  - intros k [Hk|(s & _ & Hin)%tickets_which]%elem_of_app; [by apply L10|]. rewrite L6. destruct (L5 _ _ Hin) as (S1 & _ & _).
    destruct (so_issued _ _ _ _ _ S1). apply list_elem_of_fmap. exists (k_sequence k). rewrite elem_of_seqZ. split; [|lia]. destruct k. cbn in *. congruence.
  - intros t o c [Hin|Hin]%elem_of_app Hc; [|by apply E6 in Hin]. destruct (L11 _ _ _ Hin Hc) as (? & ? & ? & ?). split_and!; try done; apply elem_of_app; by left.
Qed.
End Map.

(** ** Stopping a slot *)

Lemma stop_ok g n closed closed' k s status : slot_ok g n closed k s → status = Timeout ∨ status = Cancelled →
  slot_ok g n closed' k (_stop status s).
Proof.
  intros [S1 S2 S3 S4 S5 S6 S7] Hst. unfold _stop, unended in *. destruct s as [sub cl oc cs cp rq]. cbn in *.
  destruct oc as [o|]; cbn; [by split; cbn; try done; right|]. destruct cs; cbn; [by split; cbn; try done; right|].
  split; cbn; try done; try (by right). by intros o [= <-].
Qed.

(** ** Polling a slot *)

Lemma expire_cases t s : expire t s = s ∨ (unended s = true ∧ s_deadline (submission s) ≤ t ∧ expire t s = _stop Timeout s).
Proof.
  unfold expire. destruct (s_deadline (submission s) <=? t) eqn:E; [|by left]. unfold _stop at 1. destruct (unended s) eqn:U; [|by left].
  right. split_and!; [done|lia|]. unfold _stop. by rewrite U.
Qed.

Lemma expire_slot_ok g n closed k s t : slot_ok g n closed k s → slot_ok g n closed k (expire t s).
Proof.
  intros H. destruct (expire_cases t s) as [->|(_ & _ & ->)]; [done|]. apply (stop_ok _ _ _ _ _ _ _ H). by left.
Qed.

(** Stopping changes neither what the caller awaits nor what the worker owes. *)
Lemma stop_moves status s : moves s (_stop status s) false.
Proof.
  destruct s as [sub cl oc cs cp rq]. destruct oc as [x|], cs; split; cbn; try done; [|by intros o c [= <-]].
  unfold working. cbn. by destruct cl, cp.
Qed.

Lemma expire_moves t s : moves s (expire t s) false.
Proof. destruct (expire_cases t s) as [->|(_ & _ & ->)]; [by split|apply stop_moves]. Qed.

Definition poll_hands (closed : bool) (t : Z) (s : _Slot) : bool := negb (is_none (poll_slot closed t s).2.1).

Lemma poll_moves closed t s : moves s (poll_slot closed t s).1 (poll_hands closed t s).
Proof.
  destruct (expire_moves t s) as [M1 M2 M3 M4 M5 M6 M7].
  unfold poll_hands, poll_slot. destruct (negb (claimed (expire t s)) && _ && _) eqn:C; cbn.
  - rewrite !andb_true_iff, !negb_true_iff in C. destruct C as [[C1 C2] C3]. cbn in M4. split; try done; cbn; [congruence|].
    unfold working. cbn. by rewrite C2, orb_true_r.
  - by split.
Qed.

Lemma poll_slot_ok g n closed k s t : slot_ok g n closed k s → slot_ok g n closed k (poll_slot closed t s).1.
Proof.
  intros Hs%(expire_slot_ok _ _ _ _ _ t). unfold poll_slot. destruct (negb _ && _ && _); cbn; [|done].
  destruct Hs as [S1 S2 S3 S4 S5 S6 S7]. split; cbn; try done; [..|by left].
  - intros Hc. split; [done|]. by apply S4.
  - intros r Hr. by destruct (S5 r Hr).
Qed.

Lemma poll_submits g n closed k s t x : slot_ok g n closed k s → (poll_slot closed t s).2.1 = Some x →
  closed = false ∧ x = submission s ∧ t < s_deadline x.
Proof.
  intros Hs. destruct (expire_moves t s) as [M1 _ _ M4 _ _ _]. unfold poll_slot. destruct (negb _ && _ && _) eqn:C; [|done].
  cbn. intros [= <-]. rewrite !andb_true_iff, !negb_true_iff in C. destruct C as [[C1 C2] C3]. split_and!; [done|done|]. rewrite M1.
  rewrite M4 in C1. revert C2. unfold expire. destruct (s_deadline (submission s) <=? t) eqn:E; [|lia].
  unfold _stop, unended. destruct (outcome s) eqn:Eo; cbn; [by rewrite Eo|]. destruct (consumed s) eqn:Ec; [|done].
  destruct (so_consumed _ _ _ _ _ Hs Ec) as [_ Hp]. destruct (so_cancel _ _ _ _ _ Hs Hp). cbn in C1. congruence.
Qed.

Lemma poll_cancels g n closed k s t : slot_ok g n closed k s →
  cancel_pending s = true ∨ (claimed s = true ∧ unended s = true ∧ s_deadline (submission s) ≤ t) → (poll_slot closed t s).2.2 = true.
Proof.
  intros Hs H. assert (cancel_pending (expire t s) = true) as E; [|unfold poll_slot; by destruct (negb _ && _ && _)].
  unfold expire, _stop. destruct H as [H|(Hc & -> & Ht)].
  - destruct (so_cancel _ _ _ _ _ Hs H) as [_ ->]. by destruct (_ <=? t).
  - by destruct (Z.leb_spec (s_deadline (submission s)) t); [|lia].
Qed.

Lemma poll_events closed t d : (∀ k s, (k, s) ∈ d → s_ticket (submission s) = k) →
  (λ x, Handed (s_ticket x)) <$> omap (λ r, r.2.2.1) ((λ kv : MailboxTicket * _Slot, (kv.1, poll_slot closed t kv.2)) <$> d) =
  Handed <$> tickets (poll_hands closed t) d.
Proof.
  induction d as [|[k s] d IH]; intros Hd; [done|]. rewrite fmap_cons, tickets_cons, fmap_app, <-IH by set_solver.
  assert (∀ x, (poll_slot closed t s).2.1 = Some x → x = submission s) as Hx.
  { pose proof (expire_moves t s) as [M1 _ _ _ _ _ _]. unfold poll_slot. destruct (negb _ && _ && _); [|done]. cbn. by intros x [= <-]. }
  unfold poll_hands. cbn. destruct (poll_slot closed t s).2.1 as [x|]; [|done]. cbn. f_equal. rewrite (Hx x eq_refl).
  f_equal. apply Hd. set_solver.
Qed.

(** ** Each method *)

(** A slot that was stopped, or expired. *)
Lemma stopped_log b log k s s' : log_ok b log → dict_get k (_slots b) = Some s → moves s s' false → box_slot b k s' →
  logged b log (set_slots (change k (Some s') (_slots b)) b) [].
Proof.
  intros H E [M1 M2 M3 M4 M5 M6 M7 M8] Hs. apply (change_ok b log k s (Some s') [] H E); [|done|intros ? [= <-]; split; [done|split; [by left|done]]].
  split; cbn; [done| | | |by intros ? ? ? ?%elem_of_nil].
  - unfold awaited. by rewrite M3.
  - by rewrite M6.
  - intros ? [= <-]. split; [done|]. split; [done|]. intros x c Hx Hc. apply elem_of_app. left.
    destruct (lo_slot _ _ H k s) as (_ & _ & Hf & _); [by apply dict_get_elem|]. by eapply Hf; [eapply M7|].
Qed.

Lemma finish_slot g n closed k s o c : slot_ok g n closed k s → claimed s = true → unended s = true → request s = Some (c_request c) →
  o = mkOutcome Timeout None ∨ o = mkOutcome (c_status c) (Some c) →
  slot_ok g n closed k (set_outcome o s) ∧ ∀ log, accounts k s (Some (set_outcome o s)) [Finished k c] log.
Proof.
  intros [S1 S2 S3 S4 S5 S6 S7] Hc Hu Hr Ho. destruct s as [sub cl oc cs cp rq]. unfold unended in *. cbn in *. subst.
  destruct oc; [done|]. destruct cs; [done|]. destruct cp; [by destruct S4|]. split.
  - split; cbn; try done; [|by left]. intros x [= <-]. destruct Ho as [->| ->]; cbn; [by left|by split_and!].
  - intros log. split; cbn; try done; [|by intros ? ? ? ?%list_elem_of_singleton]. intros ? [= <-]. split; [done|]. split; [done|]. cbn.
    intros x c' [= <-] Hx. apply elem_of_app. right. apply list_elem_of_singleton. destruct Ho as [->| ->]; cbn in Hx; [done|by injection Hx as <-].
Qed.

Lemma expire_held t s : unended (expire t s) = true → t < s_deadline (submission s) ∧ expire t s = s.
Proof.
  unfold expire. destruct (Z.leb_spec (s_deadline (submission s)) t); [|done]. unfold _stop.
  by destruct (unended s) eqn:U; [|rewrite U].
Qed.

Lemma take_slot g n closed k s o log : slot_ok g n closed k s → consumed s = false → outcome s = Some o →
  (∀ c, o_completion o = Some c → Finished k c ∈ log) → Submitted k (s_device (submission s)) (s_path (submission s)) ∈ log →
  accounts k s (if cancel_pending s then Some (set_consumed s) else None) [Taken k (mkBound (request s) o)] log ∧
  (cancel_pending s = true → slot_ok g n closed k (set_consumed s)).
Proof.
  intros [S1 S2 S3 S4 S5 S6 S7] Hc Ho Hf Hsub. specialize (S6 o Ho). destruct s as [sub cl oc cs cp rq]. unfold unended in *. cbn in *. subst. split.
  - split; cbn; try done.
    + by destruct cp.
    + destruct cp; cbn; [by destruct (S4 eq_refl) as [-> _]|]. by destruct cl.
    + intros s'. destruct cp; [|done]. by intros [= <-].
    + intros t x c [= -> ->]%list_elem_of_singleton Hx. cbn in *. rewrite Hx in S6. destruct S6 as (? & E & ?).
      destruct (S5 _ E) as (_ & _ & _ & -> & ->). split_and!; try done. by apply Hf.
  - intros ->. split; cbn; try done. 
Qed.

(** [accounts] for a slot whose completion, if any, is known to the log. *)
Ltac account Hf :=
  split; cbn; try done;
  [ try (let Hx := fresh in let Hc := fresh in intros ? [= <-]; split; [done|]; split; [done|intros ? ? Hx Hc; apply elem_of_app; left; by eapply Hf]).. |
    try (intros ? ? ? Hx; first [by apply elem_of_nil in Hx|by apply list_elem_of_singleton in Hx]) ].

Lemma slot_unique b log k s s' : log_ok b log → (k, s) ∈ _slots b → (k, s') ∈ _slots b → s = s'.
Proof. intros H Hs%(dict_get_nodup _ _ _ (lo_keys _ _ H)) Hs'%(dict_get_nodup _ _ _ (lo_keys _ _ H)). congruence. Qed.

Lemma held_found b log k s r : log_ok b log → dict_get k (_slots b) = Some s → held b k r → request s = Some r ∧ unended s = true.
Proof. intros H E%dict_get_elem (s' & Hin & ? & ?). by rewrite (slot_unique _ _ _ _ _ H E Hin). Qed.

Lemma not_held b k r : dict_get k (_slots b) = None → ¬ held b k r.
Proof. intros E%dict_get_None (s & Hin & _). destruct E. apply list_elem_of_fmap. by exists (k, s). Qed.

(** What the log says of a slot in progress. *)
Lemma working_logged b log k s : log_ok b log → (k, s) ∈ _slots b → working s = true → k ∈ handed log ∧ k ∉ finished log ∧ k ∉ released log.
Proof.
  intros H Hin Hw. assert (k ∈ tickets working (_slots b)) as Hk by (apply tickets_which; by exists s).
  pose proof (lo_once _ _ H) as Hn. rewrite (lo_handed _ _ H) in *. rewrite !elem_of_app. split; [by right; right|].
  apply NoDup_app in Hn as (_ & H1 & (_ & H2 & _)%NoDup_app). split; intros Hx; [apply (H1 k Hx), elem_of_app; by right|by apply (H2 k Hx)].
Qed.

Lemma logged_working b log k : log_ok b log → k ∈ handed log → k ∉ finished log → k ∉ released log → ∃ s, (k, s) ∈ _slots b ∧ working s = true.
Proof.
  intros H. rewrite (lo_handed _ _ H), !elem_of_app. intros [?|[?|(s & ? & ?)%tickets_which]] ? ?; try done. by exists s.
Qed.

Section Methods.
Context (clock : nat → Z) (during : Z → Prop) (Hclock : ∀ i, during (clock i)).

Context (b : BrokerMailbox) (log : list event) (H : log_ok b log).

(** The state and log a method leaves, and what it answers. *)
Definition keeps {A} (es : A → list event) (Q : A → BrokerMailbox → Prop) (r : result A) (b' : BrokerMailbox) : Prop :=
  match r with Ok a => logged b log b' (es a) ∧ Q a b' | Raise _ => False end.

Lemma same_log : logged b log b [].
Proof using H. by apply logged_refl. Qed.

Lemma slot_found k s : dict_get k (_slots b) = Some s → (k, s) ∈ _slots b ∧ box_slot b k s ∧
  (claimed s = false → k ∉ handed log) ∧ (∀ o c, outcome s = Some o → o_completion o = Some c → Finished k c ∈ log) ∧
  Submitted k (s_device (submission s)) (s_path (submission s)) ∈ log.
Proof using H. intros Hk%dict_get_elem. split; [done|]. exact (lo_slot _ _ H _ _ Hk). Qed.

Lemma ends_put (P : result unit → BrokerMailbox → Prop) k s x : P (Ok tt) (set_slots (change k (Some s) (_slots x)) x) → ends (put_slot k s) P x.
Proof using. intros HP. unfold put_slot. by ends_step. Qed.

Lemma ends_del (P : result unit → BrokerMailbox → Prop) k x :
  k ∈ (_slots x).*1 → P (Ok tt) (set_slots (change k None (_slots x)) x) → ends (del_slot k) P x.
Proof using.
  intros Hk HP. unfold del_slot. do 4 ends_step. unfold dict_pop.
  destruct (dict_get k (_slots x)) eqn:E; [|by apply dict_get_None in E]. by ends_step.
Qed.

Lemma submit_ok device path timeout :
  ends (submit clock device path timeout) (λ r b', match r with
    | Ok t => keeps (λ t, [Submitted t device path]) (λ t _, t = mkMailTicket (_generation b) (_next b)) r b'
    | Raise e => b' = b ∧ value_error e
    end) b.
Proof using H.
  unfold submit. do 4 ends_step; [split; [done|by eexists]|]. do 2 ends_step; [split; [done|by eexists]|].
  do 2 ends_step; [split; [done|by eexists]|]. apply orb_false_iff in H1 as [Hc Hn].
  do 4 ends_step. unfold put_slot. do 3 ends_step. split; [|done]. destruct H as [L1 L2 L3 L4 L5 LB LK L6 L7 L8 L9 L10 L11].
  set (k := mkMailTicket (_generation b) (_next b)). cbn [set_slots _slots _read_paths _generation _next _closed].
  assert (k ∉ (_slots b).*1) as Hk.
  { intros ([k' s] & E%(f_equal k_sequence) & Hin)%list_elem_of_fmap. cbn in E. destruct (L5 _ _ Hin) as ([_ [_ ?] _ _ _ _ _] & _). lia. }
  assert (k ∉ submitted log) as Hs.
  { rewrite L6. intros (i & [= ?] & Hi%elem_of_seqZ)%list_elem_of_fmap. lia. }
  rewrite dict_set_fresh by by apply dict_get_None.
  split.
  2:{ intros k' r' (s' & [Hin|[= -> ->]%list_elem_of_singleton]%elem_of_app & Hr & Hu); [|done]. left. by exists s'. }
  2:{ intros [Hc' _]. congruence. }
  split; cbn [set_slots _slots _generation _next]; rewrite ?submitted_app, ?handed_app, ?taken_app, ?finishes_app, ?released_app;
    cbn [submitted handed taken finished released omap list_omap]; rewrite ?app_nil_r.
  - rewrite fmap_app. apply NoDup_app. split_and!; [done| |apply NoDup_singleton]. intros k' ? ->%list_elem_of_singleton. done.
  - unfold len in *. rewrite length_app. cbn. unfold MAX_PENDING in *. lia.
  - lia.
  - rewrite wires_app. cbn. by rewrite app_nil_r.
  - intros k' s [Hin|[= -> ->]%list_elem_of_singleton]%elem_of_app.
    + destruct (L5 _ _ Hin) as ([S1 [S2 S2'] S3 S4 S5 S6 S7] & Q2 & Q3 & Q4). split_and!; [|done|intros o c Ho Hc'; apply elem_of_app; left; by eapply Q3|apply elem_of_app; by left].
      split; cbn; try done; split; try done; lia.
    + split_and!; [|by intros _ ?%L10|done|apply elem_of_app; right; by apply list_elem_of_singleton]. split; cbn; try done; try congruence. split; [done|lia].
  - intros k' s r. rewrite bound_app. cbn. rewrite app_nil_r. intros [Hin|[= -> ->]%list_elem_of_singleton]%elem_of_app; [by apply LB|].
    cbn. by split; [|intros ?%LK].
  - intros k' r. rewrite bound_app. cbn. rewrite app_nil_r. intros ?%LK. apply elem_of_app. by left.
  - rewrite L6. rewrite (seqZ_app 0 _ 1), fmap_app by lia. done.
  - rewrite L7, tickets_app, tickets_cons. cbn. solve_Permutation.
  - rewrite L8, tickets_app, tickets_cons. cbn. by rewrite app_nil_r.
  - done.
  - intros k' Hk'%L10. apply elem_of_app. by left.
  - intros k1 o c [Hin|[=]%list_elem_of_singleton]%elem_of_app Hx. destruct (L11 _ _ _ Hin Hx) as (? & ? & ? & ?). split_and!; try done; apply elem_of_app; by left.
Qed.

Lemma poll_ok :
  ends (poll clock) (keeps (λ w, (λ x, Handed (s_ticket x)) <$> submissions w) (λ w b',
    (∀ x, x ∈ submissions w → _closed b = false ∧ may_hold during (s_deadline x) ∧ Submitted (s_ticket x) (s_device x) (s_path x) ∈ log) ∧
    (∀ k s, (k, s) ∈ _slots b → cancel_pending s = true ∨ (claimed s = true ∧ unended s = true ∧ must_expire during (s_deadline (submission s))) →
       k ∈ cancellations w) ∧
    (∀ k s', k ∈ cancellations w → (k, s') ∈ _slots b' → unended s' = false))) b.
Proof using H Hclock.
  unfold poll. ends_step. apply (ends_now_in _ _ Hclock). intros t Ht. do 5 ends_step. cbn [keeps submissions cancellations].
  set (rounds := _ <$> _slots b). split.
  - assert ((λ x, Handed (s_ticket x)) <$> omap (λ r, r.2.2.1) rounds = Handed <$> tickets (poll_hands (_closed b) t) (_slots b)) as ->.
    { apply poll_events. intros k s Hin. apply (lo_slot _ _ H _ _ Hin). }
    assert ((λ r, (r.1, r.2.1)) <$> rounds = mapped (λ s, (poll_slot (_closed b) t s).1) (_slots b)) as -> by (unfold rounds; by rewrite <-list_fmap_compose).
    apply map_ok; [done|intros k s _; apply poll_moves| |done]. intros k s _ Hs. by apply poll_slot_ok.
  - split_and!.
    + intros x ([k r] & ([k' s] & [= -> ->] & Hin)%list_elem_of_fmap & Hr)%list_elem_of_omap. cbn in Hr.
      destruct (lo_slot _ _ H _ _ Hin) as (Hs & _ & _ & Hsub). destruct (poll_submits _ _ _ _ _ _ _ Hs Hr) as (? & -> & ?).
      split_and!; [done|by exists t|]. by rewrite (so_ticket _ _ _ _ _ Hs).
    + intros k s Hin Hc. apply list_elem_of_fmap. exists (k, poll_slot (_closed b) t s). split; [done|]. apply list_elem_of_filter.
      destruct (lo_slot _ _ H _ _ Hin) as (Hs & _ & _). split.
      * eapply poll_cancels; [exact Hs|]. destruct Hc as [?|(? & ? & Hd)]; [by left|right]. split_and!; try done. by apply Hd.
      * apply list_elem_of_fmap. by exists (k, s).
    + intros k s'. cbn [cancellations set_slots _slots]. unfold rounds.
      intros ([k0 [s1 [x c]]] & -> & [Hc ([k1 s] & [= -> E] & Hin)%list_elem_of_fmap]%list_elem_of_filter)%list_elem_of_fmap. cbn in Hc. subst c.
      intros ([k2 [s2 x2]] & [= -> ->] & ([k3 s3] & [= <- E3] & Hin3)%list_elem_of_fmap)%list_elem_of_fmap. cbn in *.
      rewrite (slot_unique _ _ _ _ _ H Hin3 Hin) in E3. rewrite <-E in E3. injection E3 as -> _.
      destruct (lo_slot _ _ H _ _ Hin) as (Hs & _). apply (f_equal fst) in E as E1. cbn in E1.
      apply (f_equal (snd ∘ snd)) in E as E2. cbn in E2. subst s1.
      apply (so_cancel _ _ _ _ _ (poll_slot_ok _ _ _ _ _ t Hs)).
      unfold poll_slot in *. by destruct (negb _ && _ && _).
Qed.

Lemma acknowledge_ok ticket : ends (acknowledge_cancel ticket) (keeps (when (Released ticket)) (λ _ _, True)) b.
Proof using H.
  unfold acknowledge_cancel. do 2 ends_step. destruct (dict_get _ _) as [s|] eqn:E; [|ends_step; split; [apply same_log|done]].
  destruct (slot_found _ _ E) as (Hin & Hs & Hh & Hf & Hsub). destruct (cancel_pending s) eqn:Ec; [|ends_step; split; [apply same_log|done]].
  destruct (so_cancel _ _ _ _ _ Hs Ec) as [Hcl Hu]. ends_step. apply ends_put. ends_step. 
  destruct s as [sub cl oc cs cp rq]. cbn in Hcl, Hu, Ec |- *. subst. destruct cs.
  - apply ends_del; [cbn [set_slots _slots change]; rewrite dict_set_keys by eauto; apply list_elem_of_fmap; by exists (ticket, mkSlot sub true oc true true rq)|].
    ends_step. split; [|done]. cbn [keeps when _slots set_slots change]. rewrite dict_del_set. apply (change_ok b log ticket _ None [Released ticket] H E); [|done..].
    account Hf.
  - ends_step. ends_step. split; [|done]. destruct oc as [o|]; [|done].
    eapply (change_ok b log ticket _ (Some _) [Released ticket] H E); [|done|].
    + account Hf.
    + intros s' [= <-]. split; [|split; [by left|done]]. destruct Hs as [S1 S2 S3 S4 S5 S6 S7]. split; cbn in *; try done.
      intros x Hx. specialize (S6 x Hx). destruct (o_completion x); [|done]. by destruct S6 as (? & ? & ?).
Qed.

Lemma bind_ok ticket r : ends (bind clock ticket r) (keeps (when (Bound ticket r)) (λ done b', done = true → ∃ s, (ticket, s) ∈ _slots b ∧
    claimed s = true ∧ request s = None ∧ unended s = true ∧ may_hold during (s_deadline (submission s)) ∧ q_ticket r ∉ wires (_slots b) ∧
    q_device r = s_device (submission s) ∧ q_path r = s_path (submission s))) b.
Proof using H Hclock.
  unfold bind. do 2 ends_step. destruct (dict_get _ _) as [s|] eqn:E; [|ends_step; split; [apply same_log|done]].
  destruct (slot_found _ _ E) as (Hin & Hs & Hh & Hf & Hsub). destruct (_ || _ || _) eqn:C; [ends_step; split; [apply same_log|done]|].
  rewrite !orb_false_iff, !negb_false_iff in C. destruct C as [[C1 C2] C3].
  ends_step. apply (ends_now_in _ _ Hclock). intros t Ht. destruct (_ || _) eqn:D; [ends_step; split; [apply same_log|done]|].
  rewrite !orb_false_iff, !negb_false_iff, bool_decide_eq_false in D. destruct D as (((((D1 & D2) & D3) & D4) & D5) & D6).
  apply Z.eqb_eq in D2, D3, D4. apply String.eqb_eq in D5.
  ends_step. apply ends_put. ends_step. cbn [keeps]. split; [|intros _; exists s; split_and!; try done; [by destruct (request s)|exists t; split; [done|lia]]].
  destruct (request s) eqn:Er; [done|]. apply (change_ok b log ticket s (Some (set_request r s)) [Bound ticket r] H E); [|done|].
  - account Hf.
  - intros s' [= <-]. split; [|split; [right; split; [done|by exists r]|done]]. destruct Hs as [S1 S2 S3 S4 S5 S6 S7]. split; cbn; try done.
    + intros r' [= <-]. by split_and!.
    + intros o Ho. unfold unended in C3. by rewrite Ho in C3.
Qed.

Lemma finish_ok ticket c : ends (finish clock ticket c) (keeps (when (Finished ticket c)) (λ done b', (done = true → ∃ s s',
    (ticket, s) ∈ _slots b ∧ (ticket, s') ∈ _slots b' ∧ request s = Some (c_request c) ∧
    (must_hold during (s_deadline (submission s)) → outcome s' = Some (mkOutcome (c_status c) (Some c)))) ∧
    (∀ r, held b' ticket r → r ≠ c_request c))) b.
Proof using H Hclock.
  unfold finish. do 2 ends_step. destruct (dict_get _ _) as [s|] eqn:E.
  2:{ ends_step. split; [apply same_log|]. split; [done|]. by intros r ?%not_held. }
  destruct (slot_found _ _ E) as (Hin & Hs & Hh & Hf & Hsub). destruct (_ || _ || _) eqn:C.
  { ends_step. split; [apply same_log|]. split; [done|]. intros r Hr ->. destruct (held_found _ _ _ _ _ H E Hr) as [Er Hu].
    destruct (so_request _ _ _ _ _ Hs _ Er) as [Hc _]. rewrite Hc, Hu, Er in C. cbn in C. by case_bool_decide. }
  rewrite !orb_false_iff, !negb_false_iff, bool_decide_eq_false in C. destruct C as [[C1 C2] C3%dec_stable].
  ends_step. apply (ends_now_in _ _ Hclock). intros t Ht. ends_step. apply ends_put. ends_step. cbn [keeps].
  set (o := if s_deadline (submission s) <=? t then mkOutcome Timeout None else mkOutcome (c_status c) (Some c)).
  replace (if _ <=? t then _ else _) with (set_outcome o s) by (unfold o; by destruct (_ <=? t)).
  destruct (finish_slot _ _ _ _ _ o c Hs C1 C2 C3) as [Hs' Ha]; [unfold o; destruct (_ <=? t); [by left|by right]|].
  assert (logged b log (set_slots (change ticket (Some (set_outcome o s)) (_slots b)) b) [Finished ticket c]) as HL.
  { apply (change_ok b log ticket s (Some _) [Finished ticket c] H E (Ha log)); [done|]. intros s1 [= <-]. split; [done|]. split; [by left|by rewrite C2]. }
  split; [done|]. assert (dict_get ticket (_slots (set_slots (change ticket (Some (set_outcome o s)) (_slots b)) b)) = Some (set_outcome o s)) as E'.
    { cbn [set_slots _slots change]. by rewrite dict_get_set, decide_True. }
    split.
    2:{ intros r Hr. destruct (held_found _ _ _ _ _ (lg_ok _ _ _ _ HL) E' Hr) as [_ Hu]. done. }
    intros _. exists s, (set_outcome o s). split_and!; [done| |done|].
    + apply dict_get_elem. cbn [set_slots _slots change]. by rewrite dict_get_set, decide_True.
    + intros Hd. specialize (Hd t Ht). unfold o. cbn. by destruct (Z.leb_spec (s_deadline (submission s)) t); [lia|].
Qed.

Lemma cancel_call_ok ticket : ends (cancel ticket) (keeps (λ _, []) (λ _ _, True)) b.
Proof using H.
  unfold cancel. do 2 ends_step. destruct (dict_get _ _) as [s|] eqn:E; [|ends_step; split; [apply same_log|done]].
  destruct (slot_found _ _ E) as (Hin & Hs & Hh & Hf & Hsub). destruct (unended s) eqn:U; [|ends_step; split; [apply same_log|done]].
  ends_step. apply ends_put. ends_step. split; [|done]. apply (stopped_log _ _ _ _ _ H E); [apply stop_moves|].
  apply (stop_ok _ _ _ _ _ _ _ Hs). by right.
Qed.

Lemma ready_ok ticket : ends (ready clock ticket) (keeps (λ _, []) (λ yes _, yes = true → ∃ s r,
    (ticket, s) ∈ _slots b ∧ request s = Some r ∧ unended s = true ∧ may_hold during (s_deadline (submission s)))) b.
Proof using H Hclock.
  unfold ready. do 2 ends_step. destruct (dict_get _ _) as [s|] eqn:E; [|ends_step; split; [apply same_log|done]].
  destruct (slot_found _ _ E) as (Hin & Hs & Hh & Hf & Hsub).
  ends_step. apply (ends_now_in _ _ Hclock). intros t Ht. ends_step. apply ends_put. ends_step. split.
  - apply (stopped_log _ _ _ _ _ H E); [apply expire_moves|by apply expire_slot_ok].
  - intros [Hr Hu]%andb_true_iff. destruct (expire_held _ _ Hu) as [Hd Hx]. rewrite Hx in *. destruct (request s) as [r|] eqn:Er; [|done].
    exists s, r. split_and!; try done. by exists t.
Qed.

Lemma take_ok ticket : ends (take_bound clock ticket) (keeps (λ o, option_list (Taken ticket <$> o)) (λ o _, ∀ s,
    o = None → (ticket, s) ∈ _slots b → awaited s = true → unended s = true ∧ ¬ must_expire during (s_deadline (submission s)))) b.
Proof using H Hclock.
  unfold take_bound. do 2 ends_step. destruct (dict_get _ _) as [s|] eqn:E.
  2:{ ends_step. split; [apply same_log|]. intros s _ Hin. apply dict_get_None in E. destruct E. apply list_elem_of_fmap. by exists (ticket, s). }
  assert (∀ s', (ticket, s') ∈ _slots b → s' = s) as Huniq.
  { intros s' Hin%(dict_get_nodup _ _ _ (lo_keys _ _ H)). congruence. }
  destruct (consumed s) eqn:Ec.
  { ends_step. split; [apply same_log|]. intros s' _ ->%Huniq. unfold awaited. by rewrite Ec. }
  destruct (slot_found _ _ E) as (Hin & Hs & Hh & Hf & Hsub).
  ends_step. apply (ends_now_in _ _ Hclock). intros t Ht. ends_step. apply ends_put.
  pose proof (stopped_log _ _ _ _ _ H E (expire_moves t s) (expire_slot_ok _ _ _ _ _ t Hs)) as HL. pose proof (lg_ok _ _ _ _ HL) as H1.
  set (b1 := set_slots _ b) in *.
  assert (dict_get ticket (_slots b1) = Some (expire t s)) as E1 by (cbn [b1 set_slots _slots change]; by rewrite dict_get_set, decide_True).
  destruct (lo_slot _ _ H1 _ _ (dict_get_elem _ _ _ E1)) as (Hs1 & _ & Hf1 & Hsub1).
  assert (consumed (expire t s) = false) as Ec1 by (rewrite (mv_consumed _ _ _ (expire_moves t s)); done).
  destruct (outcome (expire t s)) as [o|] eqn:Eo.
  2:{ ends_step. split; [done|]. intros s' _ ->%Huniq _. unfold unended in *.
      assert (unended (expire t s) = true) as [? Hx]%expire_held by (unfold unended; by rewrite Eo, Ec1).
      rewrite Hx in Eo. rewrite Eo, Ec. split; [done|]. intros Hd. specialize (Hd t Ht). lia. }
  ends_step. destruct (cancel_pending (expire t s)) eqn:Ep.
  - apply ends_put. ends_step. split; [|done]. apply (logged_trans b log b1 [] _ _ HL).
    destruct (take_slot _ _ _ _ _ o (log ++ []) Hs1 Ec1 Eo (λ c, Hf1 o c eq_refl) Hsub1) as [Ha Hs2]. rewrite Ep in Ha.
    apply (change_ok b1 _ ticket _ _ _ H1 E1 Ha); [done|]. intros s' [= <-]. split; [by apply Hs2|by split; [left|]].
  - apply ends_del; [apply list_elem_of_fmap; eexists; split; [|by apply dict_get_elem, E1]; done|]. ends_step. split; [|done].
    apply (logged_trans b log b1 [] _ _ HL).
    destruct (take_slot _ _ _ _ _ o (log ++ []) Hs1 Ec1 Eo (λ c, Hf1 o c eq_refl) Hsub1) as [Ha _]. rewrite Ep in Ha. by apply (change_ok b1 _ ticket _ _ _ H1 E1 Ha).
Qed.

Lemma stop_all_ok which : (∀ s, which s = false → claimed s = true) →
  ends (assign (stop_all which)) (keeps (λ _, []) (λ _ b', _closed b' = true ∧
    ∀ k s, (k, s) ∈ _slots b' → which s = true → unended s = false)) b.
Proof using H.
  intros Hw. ends_step. split.
  - assert (tickets (λ _, false) (_slots b) = []) as E by (induction (_slots b) as [|[k s] d IH]; by rewrite ?tickets_cons).
    pose proof (map_ok (λ s, if which s then _stop Cancelled s else s) (λ _, false) b log true H) as Hm. rewrite E in Hm. apply Hm; [..|done].
    + intros k s _. destruct (which s); [apply stop_moves|by split].
    + intros k s _ Hs. destruct (which s) eqn:Ew; [apply (stop_ok _ _ _ _ _ _ _ Hs); by right|].
      destruct Hs as [S1 S2 S3 S4 S5 S6 S7]. split; try done. intros _. left. by apply Hw.
  - split; [done|]. intros k s' ([k0 s] & [= -> ->] & _)%list_elem_of_fmap. cbn. destruct (which s) eqn:Ew; [|congruence].
    unfold _stop, unended. destruct (is_none (outcome s) && negb (consumed s)) eqn:U; [done|]. by rewrite U.
Qed.
End Methods.

Definition events_of (r : result (list event)) : list event := match r with Ok es => es | Raise _ => [] end.

Lemma call_ok clock c b log : log_ok b log → ends (exec clock c) (λ r b', logged b log b' (events_of r)) b.
Proof.
  intros H.
  assert (∀ {A} (m : M (BrokerMailbox * nat) A) es Q, ends m (keeps b log es Q) b →
    ends (a ← m; mret (es a)) (λ r b', logged b log b' (events_of r)) b) as Hk.
  { intros A m es Q Hm. ends_step. eapply ends_mono; [exact Hm|]. intros [a|e] b'; [|done]. intros [Hb _]. by ends_step. }
  destruct c as [device path timeout| | | | | | | | |]; cbn [exec]; [|eapply Hk..].
  - ends_step. eapply ends_mono; [by eapply submit_ok|]. intros [t|e] b'; [intros [Hb _]; by ends_step|intros [-> _]; by apply logged_refl].
  - by eapply (poll_ok clock (λ _, True)).
  - by eapply acknowledge_ok.
  - by eapply (bind_ok clock (λ _, True)).
  - by eapply (finish_ok clock (λ _, True)).
  - by eapply cancel_call_ok.
  - by eapply (ready_ok clock (λ _, True)).
  - by eapply (take_ok clock (λ _, True)).
  - by eapply (stop_all_ok b log H (λ _, true)).
  - apply (stop_all_ok b log H). by intros s ?%negb_false_iff.
Qed.

(** The calls of the callers, who are not the worker, and their events. *)
Definition from_caller (c : call) : Prop := match c with Poll | Acknowledge _ | Bind _ _ | Finish _ _ => False | _ => True end.
Definition by_caller (e : event) : Prop := match e with Submitted _ _ _ | Taken _ _ => True | _ => False end.

Lemma caller_events clock c s : from_caller c → Forall by_caller (events_of (exec clock c s).2).
Proof.
  intros Hc. assert (∀ {A} (m : M (BrokerMailbox * nat) A) es, (∀ a, Forall by_caller (es a)) → Forall by_caller (events_of ((a ← m; mret (es a)) s).2)) as Hm.
  { intros A m es He. unfold mbind, M_bind. destruct (m s) as [s' [a|e]]; [apply He|constructor]. }
  destruct c; try done; apply Hm; try (intros; by repeat constructor). intros [o|]; by repeat constructor.
Qed.

Lemma run_logged clock calls : ∀ b n log, log_ok b log →
  let '((b', _), log') := run clock calls (b, n) log in
  ∃ es, log' = log ++ es ∧ logged b log b' es ∧ (Forall from_caller calls → Forall by_caller es).
Proof.
  induction calls as [|c calls IH]; intros b n log H; cbn [run].
  { exists []. rewrite app_nil_r. split_and!; [done|by apply logged_refl|done]. }
  pose proof (call_ok clock c b log H n) as Hc. pose proof (caller_events clock c (b, n)) as Hq. unfold wp in Hc.
  destruct (exec clock c (b, n)) as [[b1 n1] r]. cbn [fst snd] in *. fold (events_of r).
  specialize (IH b1 n1 _ (lg_ok _ _ _ _ Hc)). destruct (run clock calls (b1, n1) _) as [[b2 n2] log2]. destruct IH as (es & -> & H2 & Hq2).
  exists (events_of r ++ es). split_and!; [by rewrite app_assoc|by eapply logged_trans|]. intros [? ?]%Forall_cons. apply Forall_app; auto.
Qed.

Lemma run_ok clock calls b n log : log_ok b log → let '((b', _), log') := run clock calls (b, n) log in log_ok b' log'.
Proof.
  intros H. pose proof (run_logged clock calls b n log H) as Hr. destruct (run clock calls (b, n) log) as [[b' n'] log'].
  destruct Hr as (es & -> & [? _ _] & _). done.
Qed.

Lemma new_ok generation state_reads b : broker_mailbox generation state_reads = Ok b → log_ok b [].
Proof.
  unfold broker_mailbox. intros H. res_inv. split; cbn; try done; try apply NoDup_nil_2; by intros ? ? ?%elem_of_nil || by intros ? ? ? ?%elem_of_nil.
Qed.

(** What a method that raises nothing answers. *)
Lemma answers_of {A} (m : M (BrokerMailbox * nat) A) log es Q (Q' : A → BrokerMailbox → Prop) b : ends m (keeps b log es Q) b →
  (∀ a b', Q a b' → Q' a b') → ends m (λ r b', ∃ a, r = Ok a ∧ Q' a b') b.
Proof. intros H HQ. eapply ends_mono; [exact H|]. intros [a|e] b'; [|done]. intros [_ Ha%HQ]. by exists a. Qed.

(** ** The effect of each method, exactly *)

Lemma ends_and {X A} (m : M (X * nat) A) (P Q : result A → X → Prop) x : ends m P x → ends m Q x → ends m (λ r y, P r y ∧ Q r y) x.
Proof. intros HP HQ n. split; [apply HP|apply HQ]. Qed.

(** A slot given up by its caller: the worker is told of it once it has it. *)
Definition given_up (s : _Slot) : _Slot :=
  mkSlot (submission s) (claimed s) (Some (mkOutcome Cancelled None)) (consumed s) (claimed s) (request s).
(** What a submission must satisfy. *)
Definition submittable (b : BrokerMailbox) (device : Z) (path : string) (timeout : Z) : Prop :=
  0 < device < 2 ^ 64 ∧ path ∈ _read_paths b ∧ 0 < timeout ≤ Broker.MAX_TIMEOUT ∧ _closed b = false ∧ _next b < 2 ^ 64 ∧ len (_slots b) < 8.
(** A request that may be bound to a slot. *)
Definition bindable (b : BrokerMailbox) (s : _Slot) (r : ReadRequest) : Prop :=
  claimed s = true ∧ request s = None ∧ unended s = true ∧ t_generation (q_ticket r) = _generation b ∧ t_kind (q_ticket r) = 0xB7 ∧
  q_device r = s_device (submission s) ∧ q_path r = s_path (submission s) ∧ q_ticket r ∉ wires (_slots b).
(** A completion that answers a slot. *)
Definition answers (s : _Slot) (c : ReadCompletion) : Prop := claimed s = true ∧ unended s = true ∧ request s = Some (c_request c).

Section Effects.
Context (clock : nat → Z) (during : Z → Prop) (Hclock : ∀ i, during (clock i)).
Context (b : BrokerMailbox) (Hkeys : NoDup (_slots b).*1).
Implicit Types (k : MailboxTicket) (s : _Slot).

Lemma slot_get k s : (k, s) ∈ _slots b → dict_get k (_slots b) = Some s.
Proof using Hkeys. by apply dict_get_nodup. Qed.

Lemma no_slot k : dict_get k (_slots b) = None → ∀ s, (k, s) ∉ _slots b.
Proof using Hkeys. intros E s Hin%slot_get. congruence. Qed.

Lemma cancel_exact k : ends (cancel k) (λ r b', ∃ done, r = Ok done ∧
  if done : bool then ∃ s, (k, s) ∈ _slots b ∧ unended s = true ∧ b' = set_slots (dict_set k (given_up s) (_slots b)) b
  else b' = b ∧ ∀ s, (k, s) ∈ _slots b → unended s = false) b.
Proof using Hkeys.
  unfold cancel. do 2 ends_step. destruct (dict_get _ _) as [s|] eqn:E.
  - destruct (unended s) eqn:U.
    + ends_step. apply ends_put. ends_step. exists true. split; [done|]. exists s. split; [by apply dict_get_elem|]. split; [done|].
      unfold _stop. by rewrite U.
    + ends_step. exists false. split_and!; [done|done|]. intros s' Hin%slot_get. congruence.
  - ends_step. exists false. split_and!; [done|done|]. by intros s ?%no_slot.
Qed.

Lemma acknowledge_exact k : ends (acknowledge_cancel k) (λ r b', ∃ done, r = Ok done ∧
  if done : bool then ∃ s, (k, s) ∈ _slots b ∧ cancel_pending s = true ∧
    b' = set_slots (if consumed s then dict_del k (_slots b) else dict_set k (set_acknowledged s) (_slots b)) b
  else b' = b ∧ ∀ s, (k, s) ∈ _slots b → cancel_pending s = false) b.
Proof using Hkeys.
  unfold acknowledge_cancel. do 2 ends_step. destruct (dict_get _ _) as [s|] eqn:E.
  2:{ ends_step. exists false. split_and!; [done|done|]. by intros s ?%no_slot. }
  destruct (cancel_pending s) eqn:Ec.
  2:{ ends_step. exists false. split_and!; [done|done|]. intros s' Hin%slot_get. congruence. }
  ends_step. apply ends_put. ends_step. destruct (consumed s) eqn:Es.
  - apply ends_del; [cbn [set_slots _slots change]; rewrite dict_set_keys by eauto; apply list_elem_of_fmap; exists (k, s); split; [done|by apply dict_get_elem]|].
    ends_step. exists true. split; [done|]. exists s. rewrite Es. split_and!; [by apply dict_get_elem|done|]. cbn [change set_slots _slots]. by rewrite dict_del_set.
  - ends_step. ends_step. exists true. split; [done|]. exists s. rewrite Es. split_and!; [by apply dict_get_elem|done|done].
Qed.

Lemma submit_exact device path timeout : ends (submit clock device path timeout) (λ r b', match r with
  | Ok k => submittable b device path timeout ∧ k = mkMailTicket (_generation b) (_next b) ∧ ∃ t, during t ∧
      b' = mkMailbox (_read_paths b) (_generation b) (dict_set k (queued (mkSubmission k device path (t + timeout))) (_slots b)) (_next b + 1) (_closed b)
  | Raise e => b' = b ∧ value_error e ∧ ¬ submittable b device path timeout
  end) b.
Proof using Hclock.
  assert (submittable b device path timeout ↔
    (negb ((0 <? device) && (device <? 2 ^ 64)) || negb (existsb (String.eqb path) (_read_paths b)) || negb (valid_timeout timeout)) = false ∧
    (_closed b || (2 ^ 64 <=? _next b)) = false ∧ (MAX_PENDING <=? len (_slots b)) = false) as Hs.
  { unfold submittable, valid_timeout, MAX_PENDING. rewrite !orb_false_iff, !negb_false_iff, !andb_true_iff, existsb_exists.
    assert ((∃ x, In x (_read_paths b) ∧ (path =? x)%string = true) ↔ path ∈ _read_paths b) as ->.
    { rewrite list_elem_of_In. split; [intros (x & ? & ->%String.eqb_eq)|exists path; split; [|apply String.eqb_eq]]; done. }
    split; intros; split_and!; try tauto; lia. }
  unfold submit. do 4 ends_step; [split_and!; [done|by eexists|rewrite Hs; intros (E & _); congruence]|].
  do 2 ends_step; [split_and!; [done|by eexists|rewrite Hs; intros (_ & E & _); congruence]|].
  do 2 ends_step; [split_and!; [done|by eexists|rewrite Hs; intros (_ & _ & E); congruence]|].
  do 2 ends_step. ends_step. apply (ends_now_in _ _ Hclock). intros t Ht. unfold put_slot. do 3 ends_step.
  split; [by apply Hs|]. split; [done|]. by exists t.
Qed.

Lemma bind_exact k r : ends (bind clock k r) (λ res b', ∃ done, res = Ok done ∧
  if done : bool then ∃ s, (k, s) ∈ _slots b ∧ bindable b s r ∧ may_hold during (s_deadline (submission s)) ∧
    b' = set_slots (dict_set k (set_request r s) (_slots b)) b
  else b' = b ∧ ∀ s, (k, s) ∈ _slots b → must_hold during (s_deadline (submission s)) → ¬ bindable b s r) b.
Proof using Hclock Hkeys.
  unfold bind. do 2 ends_step. destruct (dict_get _ _) as [s|] eqn:E.
  2:{ ends_step. exists false. split_and!; [done|done|]. by intros s ?%no_slot. }
  assert (∀ s', (k, s') ∈ _slots b → s' = s) as Huniq by (intros s' ?%slot_get; congruence).
  destruct (_ || _ || _) eqn:C.
  { ends_step. exists false. split_and!; [done|done|]. intros s' ->%Huniq _ (C1 & C2 & C3 & _). by rewrite C1, C2, C3 in C. }
  rewrite !orb_false_iff, !negb_false_iff in C. destruct C as [[C1 C2] C3].
  ends_step. apply (ends_now_in _ _ Hclock). intros t Ht. destruct (_ || _) eqn:D.
  { ends_step. exists false. split_and!; [done|done|]. intros s' ->%Huniq Hd (_ & _ & _ & D1 & D2 & D3 & D4 & D5). specialize (Hd t Ht).
    rewrite D1, D2, D3, D4 in D. rewrite !Z.eqb_refl, String.eqb_refl, (bool_decide_eq_false_2 _ D5) in D. cbn in D. rewrite !orb_false_r in D. lia. }
  rewrite !orb_false_iff, !negb_false_iff, bool_decide_eq_false in D. destruct D as (((((D1 & D2) & D3) & D4) & D5) & D6).
  apply Z.eqb_eq in D2, D3, D4. apply String.eqb_eq in D5.
  ends_step. apply ends_put. ends_step. exists true. split; [done|]. exists s. split_and!; [by apply dict_get_elem| |exists t; split; [done|lia]|done].
  unfold bindable. split_and!; try done. by destruct (request s).
Qed.

Lemma finish_exact k c : ends (finish clock k c) (λ res b', ∃ done, res = Ok done ∧
  if done : bool then ∃ s o, (k, s) ∈ _slots b ∧ answers s c ∧ b' = set_slots (dict_set k (set_outcome o s) (_slots b)) b ∧
    (o = mkOutcome (c_status c) (Some c) ∧ may_hold during (s_deadline (submission s)) ∨
     o = mkOutcome Timeout None ∧ may_expire during (s_deadline (submission s)))
  else b' = b ∧ ∀ s, (k, s) ∈ _slots b → ¬ answers s c) b.
Proof using Hclock Hkeys.
  unfold finish. do 2 ends_step. destruct (dict_get _ _) as [s|] eqn:E.
  2:{ ends_step. exists false. split_and!; [done|done|]. by intros s ?%no_slot. }
  destruct (_ || _ || _) eqn:C.
  { ends_step. exists false. split_and!; [done|done|]. intros s' Hin%slot_get (C1 & C2 & C3). assert (s' = s) as -> by congruence.
    rewrite C1, C2, C3 in C. cbn in C. by case_bool_decide. }
  rewrite !orb_false_iff, !negb_false_iff, bool_decide_eq_false in C. destruct C as [[C1 C2] C3%dec_stable].
  ends_step. apply (ends_now_in _ _ Hclock). intros t Ht. ends_step. apply ends_put. ends_step. exists true. split; [done|]. exists s.
  destruct (s_deadline (submission s) <=? t) eqn:D; eexists; (split; [by apply dict_get_elem|]; split; [done|]; split; [reflexivity|]).
  - right. split; [done|]. exists t. split; [done|lia].
  - left. split; [done|]. exists t. split; [done|lia].
Qed.

Lemma ready_exact k : ends (ready clock k) (λ res _, ∃ yes, res = Ok yes ∧
  ∀ s r, (k, s) ∈ _slots b → request s = Some r → unended s = true → must_hold during (s_deadline (submission s)) → yes = true) b.
Proof using Hclock Hkeys.
  unfold ready. do 2 ends_step. destruct (dict_get _ _) as [s|] eqn:E.
  2:{ ends_step. exists false. split; [done|]. by intros s r ?%no_slot. }
  ends_step. apply (ends_now_in _ _ Hclock). intros t Ht. ends_step. apply ends_put. ends_step. eexists. split; [done|].
  intros s' r Hin%slot_get Hr Hu Hd. assert (s' = s) as -> by congruence. specialize (Hd t Ht).
  unfold expire. rewrite (proj2 (Z.leb_gt _ _)) by lia. by rewrite Hr, Hu.
Qed.

(** The outcome a caller is given. *)
Lemma take_exact k : ends (take_bound clock k) (λ res _, ∃ o, res = Ok o ∧ ∀ x, o = Some x → ∃ s, (k, s) ∈ _slots b ∧ awaited s = true ∧
  b_request x = request s ∧ (outcome s = Some (b_outcome x) ∨
    unended s = true ∧ may_expire during (s_deadline (submission s)) ∧ b_outcome x = mkOutcome Timeout None)) b.
Proof using Hclock Hkeys.
  unfold take_bound. do 2 ends_step. destruct (dict_get _ _) as [s|] eqn:E; [|ends_step; by exists None].
  destruct (consumed s) eqn:Ec; [ends_step; by exists None|].
  ends_step. apply (ends_now_in _ _ Hclock). intros t Ht. ends_step. apply ends_put.
  destruct (outcome (expire t s)) as [o|] eqn:Eo; [|ends_step; by exists None].
  assert (∃ s0, (k, s0) ∈ _slots b ∧ awaited s0 = true ∧ request (expire t s) = request s0 ∧ (outcome s0 = Some o ∨
    unended s0 = true ∧ may_expire during (s_deadline (submission s0)) ∧ o = mkOutcome Timeout None)) as Hx.
  { exists s. split; [by apply dict_get_elem|]. split; [unfold awaited; by rewrite Ec|].
    destruct (expire_cases t s) as [Ex|(Hu & Hd & Ex)]; rewrite Ex in *; [by split; [|left]|]. unfold _stop in *. rewrite Hu in *. cbn in *.
    injection Eo as <-. split; [done|]. right. split_and!; [done|by exists t|done]. }
  ends_step. destruct (cancel_pending (expire t s)).
  - apply ends_put. ends_step. eexists. split; [done|]. by intros ? [= <-].
  - apply ends_del.
    + cbn [change set_slots _slots]. rewrite dict_set_keys by eauto. apply list_elem_of_fmap. exists (k, s). split; [done|by apply dict_get_elem].
    + ends_step. eexists. split; [done|]. by intros ? [= <-].
Qed.

(** Every queued read in time is handed over. *)
Lemma poll_exact : ends (poll clock) (λ res _, ∃ w, res = Ok w ∧ ∀ k s, (k, s) ∈ _slots b → _closed b = false →
  claimed s = false → unended s = true → must_hold during (s_deadline (submission s)) → submission s ∈ submissions w) b.
Proof using Hclock.
  unfold poll. ends_step. apply (ends_now_in _ _ Hclock). intros t Ht. do 5 ends_step. eexists. split; [done|].
  intros k s Hin Hc Hcl Hu Hd. specialize (Hd t Ht). cbn [submissions]. apply list_elem_of_omap.
  exists (k, poll_slot (_closed b) t s). split; [apply list_elem_of_fmap; by exists (k, s)|].
  unfold poll_slot, expire. rewrite (proj2 (Z.leb_gt _ _)) by lia. rewrite Hcl, Hc. unfold unended in Hu. by destruct (outcome s).
Qed.
End Effects.

(** ** Properties *)

(** C4: a read handed through the mailbox ends exactly once.  In every history
    of calls, whatever the clock, tickets are distinct; each is either awaited
    or its outcome was taken exactly once; each is handed to the worker at most
    once, and what was handed is in progress, or finished or released, once;
    so at most eight reads are awaited or in progress, no two of them with one
    wire ticket; and an outcome with a completion is the one the worker finished
    that ticket with, and answers the device and the path submitted.  Every call
    but a submission returns, and: a submission is queued exactly when its
    arguments are valid, the mailbox is open and fewer than eight reads are there;
    the worker is handed the queued reads in time, nothing after its deadline or
    after closing, is told of every read it must give up, and may send exactly
    the reads bound, unended and within their deadline; a request is bound
    exactly when it answers a read in progress and in time and its wire ticket is
    new; the worker's completion of a bound read ends it, and is kept when in
    time; a cancellation ends exactly an unended read, with the outcome
    [Cancelled] and the worker still to be told when it has the read; and an
    acknowledgement ends exactly a pending report, and the slot with it when its
    outcome was taken.  A caller is given the outcome its slot has, or a timeout
    past the deadline, and one whose deadline has passed gets an ending; closing
    ends all reads and draining the queued ones. *)
Theorem outcomes_once clock0 generation state_reads b0 calls : broker_mailbox generation state_reads = Ok b0 →
  let '((b, _), log) := run clock0 calls (b0, 0%nat) [] in
  (NoDup (submitted log) ∧ submitted log ≡ₚ taken log ++ tickets awaited (_slots b) ∧
   NoDup (handed log) ∧ handed log ⊆ submitted log ∧ handed log ≡ₚ finished log ++ released log ++ tickets working (_slots b) ∧
   len (_slots b) ≤ 8 ∧ NoDup (wires (_slots b)) ∧
   (∀ t o c, Taken t o ∈ log → o_completion (b_outcome o) = Some c →
      Finished t c ∈ log ∧ b_request o = Some (c_request c) ∧ o_status (b_outcome o) = c_status c ∧
      Submitted t (q_device (c_request c)) (q_path (c_request c)) ∈ log)) ∧
  (∀ clock during, (∀ i, during (clock i)) →
    ends (poll clock) (λ r b', ∃ w, r = Ok w ∧
      (∀ x, x ∈ submissions w → _closed b = false ∧ may_hold during (s_deadline x) ∧ Submitted (s_ticket x) (s_device x) (s_path x) ∈ log) ∧
      (∀ k s, (k, s) ∈ _slots b → cancel_pending s = true ∨ (claimed s = true ∧ unended s = true ∧ must_expire during (s_deadline (submission s))) →
         k ∈ cancellations w) ∧
      (∀ k s, k ∈ cancellations w → (k, s) ∈ _slots b' → unended s = false)) b ∧
    ends (poll clock) (λ r _, ∃ w, r = Ok w ∧ ∀ k s, (k, s) ∈ _slots b → _closed b = false →
      claimed s = false → unended s = true → must_hold during (s_deadline (submission s)) → submission s ∈ submissions w) b ∧
    (∀ device path timeout, ends (submit clock device path timeout) (λ r b', match r with
       | Ok k => submittable b device path timeout ∧ k = mkMailTicket (_generation b) (_next b) ∧ ∃ t, during t ∧
           b' = mkMailbox (_read_paths b) (_generation b) (dict_set k (queued (mkSubmission k device path (t + timeout))) (_slots b)) (_next b + 1) (_closed b)
       | Raise e => b' = b ∧ value_error e ∧ ¬ submittable b device path timeout
       end) b) ∧
    (∀ k, ends (cancel k) (λ r b', ∃ done, r = Ok done ∧
       if done : bool then ∃ s, (k, s) ∈ _slots b ∧ unended s = true ∧ b' = set_slots (dict_set k (given_up s) (_slots b)) b
       else b' = b ∧ ∀ s, (k, s) ∈ _slots b → unended s = false) b) ∧
    (∀ k, ends (acknowledge_cancel k) (λ r b', ∃ done, r = Ok done ∧
       if done : bool then ∃ s, (k, s) ∈ _slots b ∧ cancel_pending s = true ∧
         b' = set_slots (if consumed s then dict_del k (_slots b) else dict_set k (set_acknowledged s) (_slots b)) b
       else b' = b ∧ ∀ s, (k, s) ∈ _slots b → cancel_pending s = false) b) ∧
    (∀ k r, ends (bind clock k r) (λ res b', ∃ done, res = Ok done ∧
       if done : bool then ∃ s, (k, s) ∈ _slots b ∧ bindable b s r ∧ may_hold during (s_deadline (submission s)) ∧
         b' = set_slots (dict_set k (set_request r s) (_slots b)) b
       else b' = b ∧ ∀ s, (k, s) ∈ _slots b → must_hold during (s_deadline (submission s)) → ¬ bindable b s r) b) ∧
    (∀ k, ends (ready clock k) (λ res _, ∃ yes, res = Ok yes ∧ ∀ s r, (k, s) ∈ _slots b → request s = Some r → unended s = true →
       must_hold during (s_deadline (submission s)) → yes = true) b) ∧
    (∀ k c, ends (finish clock k c) (λ res b', ∃ done, res = Ok done ∧
       if done : bool then ∃ s o, (k, s) ∈ _slots b ∧ answers s c ∧ b' = set_slots (dict_set k (set_outcome o s) (_slots b)) b ∧
         (o = mkOutcome (c_status c) (Some c) ∧ may_hold during (s_deadline (submission s)) ∨
          o = mkOutcome Timeout None ∧ may_expire during (s_deadline (submission s)))
       else b' = b ∧ ∀ s, (k, s) ∈ _slots b → ¬ answers s c) b) ∧
    (∀ k, ends (take_bound clock k) (λ res _, ∃ o, res = Ok o ∧ ∀ x, o = Some x → ∃ s, (k, s) ∈ _slots b ∧ awaited s = true ∧
       b_request x = request s ∧ (outcome s = Some (b_outcome x) ∨
         unended s = true ∧ may_expire during (s_deadline (submission s)) ∧ b_outcome x = mkOutcome Timeout None)) b) ∧
    (∀ k, ends (ready clock k) (λ res _, ∃ yes, res = Ok yes ∧ (yes = true → ∃ s r, (k, s) ∈ _slots b ∧ request s = Some r ∧ unended s = true ∧
       may_hold during (s_deadline (submission s)))) b) ∧
    (∀ k c, ends (finish clock k c) (λ res b', ∃ done, res = Ok done ∧ (done = true → ∃ s s', (k, s) ∈ _slots b ∧ (k, s') ∈ _slots b' ∧
       request s = Some (c_request c) ∧ (must_hold during (s_deadline (submission s)) → outcome s' = Some (mkOutcome (c_status c) (Some c)))) ∧
       ¬ held b' k (c_request c)) b) ∧
    (∀ k, ends (take_bound clock k) (λ res _, ∃ o, res = Ok o ∧ ∀ s, o = None → (k, s) ∈ _slots b → awaited s = true →
       unended s = true ∧ ¬ must_expire during (s_deadline (submission s))) b) ∧
    ends close (λ res b', _closed b' = true ∧ ∀ k s, (k, s) ∈ _slots b' → unended s = false) b ∧
    ends drain (λ res b', _closed b' = true ∧ ∀ k s, (k, s) ∈ _slots b' → claimed s = false → unended s = false) b).
Proof.
  intros H0. pose proof (run_ok clock0 calls b0 0 [] (new_ok _ _ _ H0)) as H. destruct (run clock0 calls (b0, 0%nat) []) as [[b n] log]. split.
  - destruct H as [L1 L2 L3 L4 L5 LB LK L6 L7 L8 L9 L10 L11]. split_and!; try done. rewrite L6.
    assert (Inj (=) (=) (mkMailTicket (_generation b))) by by intros ? ? [= ->]. apply (NoDup_fmap_2 _), NoDup_seqZ.
  - intros clock during Hclock. pose proof (lo_keys _ _ H) as Hk. split_and!; [|by apply poll_exact|intros; by apply submit_exact
      |intros; by apply cancel_exact|intros; by apply acknowledge_exact|intros; by apply bind_exact|intros; by apply ready_exact
      |intros; by apply finish_exact|intros; by apply take_exact|intros k..| |].
    + by eapply answers_of; [by eapply poll_ok|].
    + by eapply answers_of; [by eapply ready_ok|].
    + intros c. eapply answers_of; [by eapply finish_ok|]. intros done b' [Hd Hh]. split; [done|]. intros Hx. by apply (Hh _ Hx).
    + by eapply answers_of; [by eapply take_ok|].
    + eapply ends_mono; [apply (stop_all_ok b log H (λ _, true)); done|]. intros [[]|e] b'; [|done]. intros (_ & ? & Hs). split; [done|].
      intros k s Hin. by eapply Hs.
    + eapply ends_mono; [apply (stop_all_ok b log H (λ s, negb (claimed s))); by intros s ?%negb_false_iff|].
      intros [[]|e] b'; [|done]. intros (_ & ? & Hs). split; [done|]. intros k s Hin Hc. eapply Hs; [exact Hin|]. by rewrite Hc.
Qed.

(** One read answered, one given up by its caller and released by the worker. *)
Definition sample_request : ReadRequest := mkRequest (mkTicket 1 40 0xB7) 99 "ProReadonly.devInfo".
Definition sample_calls : list call :=
  let k0 := mkMailTicket 1 0 in let k1 := mkMailTicket 1 1 in
  [Submit 99 "ProReadonly.devInfo" 2000; Submit 99 "ProConst._versionInfo" 2000; Submit 99 "ProWritable.volume" 2000; Poll; Bind k0 sample_request;
   Ready k0; Cancel k1; Take k1; Finish k0 (mkCompletion sample_request Response None (Some 0) Broker.JNull); Take k0; Take k0; Poll; Acknowledge k1; Close].
Definition sample_mailbox : BrokerMailbox := Eval vm_compute in
  match broker_mailbox 1 false with Ok b => b | Raise _ => mkMailbox [] 0 [] 0 true end.
Definition sample_run : (BrokerMailbox * nat) * list event := run (λ n, 100 * Z.of_nat n) sample_calls (sample_mailbox, 0%nat) [].

Lemma outcomes_once_witness : broker_mailbox 1 false = Ok sample_mailbox ∧
  k_sequence <$> submitted sample_run.2 = [0; 1] ∧ k_sequence <$> taken sample_run.2 = [1; 0] ∧
  k_sequence <$> finished sample_run.2 = [0] ∧ k_sequence <$> released sample_run.2 = [1] ∧
  handed sample_run.2 ≡ₚ finished sample_run.2 ++ released sample_run.2 ++ tickets working (_slots sample_run.1.1).
Proof.
  split; [reflexivity|]. do 4 (split; [vm_compute; reflexivity|]).
  pose proof (outcomes_once (λ n, 100 * Z.of_nat n) 1 false sample_mailbox sample_calls eq_refl) as H.
  unfold sample_run. destruct (run _ _ _ _) as [[b n] log]. apply H.
Defined.
End Mailbox.
