(* ===== verification/Ptz.v ===== *)
(** * PTZ gestures

    Models, under [src/backend/app/drivers/yoosee/p2p/]: the PTZ codec
    ([ptz_protocol.py]), the reserved commands ([ptz_command_reservation.py]),
    the delivery tracker of a release ([ptz_release_delivery.py]) and the
    scheduler that owns one gesture ([ptz_scheduler.py]), over the account
    budget and sequence numbers of [Account] and the frames of [AccessFrames].

    The clock is a function from the number of the reading to the reading;
    [json.loads] is a parameter that gives a value or fails with one of the
    exceptions the codec catches; random words are arguments. *)

From Stdlib Require Import ZArith QArith Lia Lqa.
From stdpp Require Import fin_maps.
From S2P Require Import Prelude GuteFrame AccessFrames Account.

#[global] Open Scope Z_scope.

Module Ptz.
Import Account AccessFrames.

(** ** [ptz_protocol.py] *)

(** A decoded JSON value; the keys of an object are distinct. *)
Inductive json : Type :=
| JNull | JBool (b : bool) | JInt (z : Z) | JFloat (repr : bytes) | JString (s : string)
| JArray (l : list json) | JObject (o : list (string * json)).

(** [value.get(key)] *)
Definition json_get (key : string) (o : list (string * json)) : option json :=
  snd <$> List.find (λ kv, bool_decide (kv.1 = key)) o.

Definition DIRECTIONS : list (string * Z) := [("left", 0); ("right", 1); ("up", 2); ("down", 3)]%string.
Definition direction_code (direction : string) : option Z :=
  snd <$> List.find (λ kv, bool_decide (kv.1 = direction)) DIRECTIONS.

Definition direction_supported (observation : json) (direction : string) : bool :=
  match direction_code direction, observation with
  | Some _, JObject o =>
      match json_get "t" o, json_get "stVal" o with
      | Some (JInt timestamp), Some (JObject value) =>
          (0 <? timestamp) && (timestamp <=? 0x7FFFFFFF) &&
          match json_get "ptzInfo" value with
          | Some (JObject info) =>
              match json_get "id0_status" info with
              | Some (JInt status) =>
                  (0 <=? status) && (status <=? 0x7FFFFFFF) &&
                  let axis := if bool_decide (direction = "left"%string) || bool_decide (direction = "right"%string) then 2 else 4 in
                  negb (Z.land status 1 =? 0) && negb (Z.land status axis =? 0)
              | _ => false
              end
          | _ => false
          end
      | _, _ => false
      end
  | _, _ => false
  end.

Definition quoted (s : string) : bytes := [34] ++ ascii s ++ [34].

(** [json.dumps] with compact separators, of the request's dictionary. *)
Definition request_text (dir touch : Z) : bytes :=
  ascii "{" ++ quoted "type" ++ ascii ":2," ++ quoted "data" ++ ascii ":{" ++ quoted "dir" ++ ascii ":" ++
  ConnAuth.ConnAuth.ascii_number dir ++ ascii "," ++ quoted "touchType" ++ ascii ":" ++
  ConnAuth.ConnAuth.ascii_number touch ++ ascii "}}".

Definition build_ptz_request (node : CertifiedNode) (access_id device_id : Z) (direction : string) (pressed : bool)
    (sequence message_id request_id random : Z) : result bytes :=
  match direction_code direction with
  | None => Raise (ValueError "PTZ requires a known direction and boolean pressed state")
  | Some dir =>
      request ← pack 4 request_id;
      let payload := [0x01; 0xFF; 0x00; 0x00] ++ request ++ request_text dir (if pressed then 0 else 1) in
      frame ← GuteFrame.new_header 0xB9 (0x34 + length payload) (session_id node) sequence
                (GuteFrame.randomized_flags random 2 1 0);
      frame ← set_byte frame 0 0x7E;
      frame ← pack_into 4 frame 0x18 2;
      frame ← pack_into 8 frame 0x1C device_id;
      frame ← pack_into 8 frame 0x24 access_id;
      frame ← pack_into 4 frame 0x2C (Z.land message_id 0x7FFFFFFF);
      frame ← pack_into 2 frame 0x30 (len payload);
      let frame := slice_set 0x34 (length frame) payload frame in
      GuteFrame.finish_mode2 frame (session_key node)
  end.

Record PtzReply := mkReply { transport_receipt : bool; peer_receipt : bool; error_code : option Z }.

Definition build_ptz_receipt (frame : bytes) (node : CertifiedNode) (sequence random : Z) : result bytes :=
  bad ← (if len frame <? 0x3C then Ok true else
         b1 ← index frame 1;
         if negb (b1 =? 0xB9) then Ok true else
         b0 ← index frame 0;
         if negb (b0 =? 0x7E) then Ok true else
         session ← unpack_from 8 frame 4; Ok (negb (session =? session_id node)));
  _ ← raise_if bad (ValueError "PTZ receipt requires a full same-session B9 response");
  flags ← unpack_from 4 frame 0x14;
  _ ← raise_if (negb (Z.land (Z.shiftr flags 16) 3 =? 2) || negb (Z.land flags (Z.shiftl 1 20) =? 0))
        (ValueError "PTZ receipt requires an encrypted application response");
  receipt ← GuteFrame.new_header 0xBA 0x34 (session_id node) sequence (GuteFrame.randomized_flags random 2 1 0);
  receipt ← set_byte receipt 0 0x7E;
  destination ← unpack_from 8 frame 0x1C; source ← unpack_from 8 frame 0x24; message ← unpack_from 4 frame 0x2C;
  receipt ← pack_into 8 receipt 0x1C source;
  receipt ← pack_into 8 receipt 0x24 destination;
  receipt ← pack_into 4 receipt 0x2C message;
  GuteFrame.finish_mode2 receipt (session_key node).

(** ** [ptz_command_reservation.py] *)

Record ReleaseCorrelation := mkCorrelation { c_sequence : Z; c_message_id : Z; c_request_id : Z }.

Record ReservedPtzCommands := mkCommands {
  release_correlation : ReleaseCorrelation;
  receipt_sequence : Z;
  cmd_session : Z; cmd_generation : Z;
  cmd_start : bytes; cmd_release : bytes;
  cmd_started : bool; cmd_cancelled : bool; cmd_release_attempts : Z
}.

Definition cancel_start (c : ReservedPtzCommands) : ReservedPtzCommands :=
  mkCommands (release_correlation c) (receipt_sequence c) (cmd_session c) (cmd_generation c) (cmd_start c) (cmd_release c)
    (cmd_started c) true (cmd_release_attempts c).

(** [_source] is the account's sequence namespace, shared with its owner. *)
Definition take_start (source : BrokerSequences) : M ReservedPtzCommands bytes :=
  c ← get;
  _ ← check (cmd_started c || cmd_cancelled c || negb (matches source (cmd_session c) (cmd_generation c)))
        (ValueError "PTZ START unavailable; do not replay");
  _ ← modify (λ c, mkCommands (release_correlation c) (receipt_sequence c) (cmd_session c) (cmd_generation c) (cmd_start c)
                     (cmd_release c) true (cmd_cancelled c) (cmd_release_attempts c));
  mret (cmd_start c).

Definition take_release : M ReservedPtzCommands bytes :=
  c ← get;
  _ ← check (negb (cmd_started c) || (3 <=? cmd_release_attempts c))
        (ValueError "PTZ RELEASE unavailable or attempts exhausted");
  _ ← modify (λ c, mkCommands (release_correlation c) (receipt_sequence c) (cmd_session c) (cmd_generation c) (cmd_start c)
                     (cmd_release c) (cmd_started c) (cmd_cancelled c) (cmd_release_attempts c + 1));
  mret (cmd_release c).

(** The words [secrets.randbits] gives, in the order they are drawn. *)
Record draws := mkDraws {
  d_message : Z; d_request : Z; d_start_message : Z; d_start_request : Z; d_start_flags : Z; d_release_flags : Z
}.

Definition reserve_ptz_commands (node : CertifiedNode) (generation access_id device_id : Z) (direction : string)
    (reviewed_directions : gset string) (d : draws) : M BrokerSequences ReservedPtzCommands :=
  source ← get;
  _ ← check (negb (matches source (session_id node) generation) ||
             negb ((0 <? access_id) && (access_id <? 2 ^ 64)) || negb ((0 <? device_id) && (device_id <? 2 ^ 64)) ||
             bool_decide (reviewed_directions = ∅) || negb (bool_decide (reviewed_directions ⊆ list_to_set DIRECTIONS.*1)) ||
             negb (bool_decide (direction ∈ reviewed_directions)))
        (ValueError "PTZ reservation requires exact reviewed account/axis identity");
  ids ← reserve 3;
  match ids with
  | [start_sequence; release_sequence; receipt] =>
      let release := mkCorrelation release_sequence (d_message d) (d_request d) in
      start_wire ← lift (build_ptz_request node access_id device_id direction true start_sequence
                           (d_start_message d) (d_start_request d) (d_start_flags d));
      release_wire ← lift (build_ptz_request node access_id device_id direction false (c_sequence release)
                             (c_message_id release) (c_request_id release) (d_release_flags d));
      mret (mkCommands release receipt (session_id node) generation start_wire release_wire false false 0)
  | _ => raise (ValueError "not enough values to unpack")
  end.

Section Loads.
(** [json.loads], with [None] for the exceptions [parse_ptz_reply] catches. *)
Context (loads : bytes → option json).

Definition reply_error (value : option json) : option PtzReply :=
  match value with
  | Some (JObject o) =>
      match json_get "type" o, json_get "err" o with
      | Some (JInt t), Some (JInt err) => if t =? 2 then Some (mkReply false false (Some err)) else None
      | _, _ => None
      end
  | _ => None
  end.

Definition parse_ptz_reply (frame : bytes) (node : CertifiedNode) (access_id device_id sequence message_id request_id : Z) :
    result (option PtzReply) :=
  if negb ((0x18 <=? len frame) && (len frame <=? 4096)) then Ok None else
  b0 ← index frame 0;
  if negb (b0 =? 0x7E) then Ok None else
  flags ← unpack_from 4 frame 0x14;
  session ← unpack_from 8 frame 4;
  if negb (Z.land (Z.shiftr flags 16) 3 =? 2) || negb (session =? session_id node) then Ok None else
  b1 ← index frame 1;
  if negb (Z.land flags (Z.shiftl 1 20) =? 0) then
    sq ← unpack_from 4 frame 0x0C;
    if negb (b1 =? 0xB9) || negb (sq =? Z.land sequence 0xFFFFFFFF) then Ok None
    else Ok (Some (mkReply true false None))
  else if (len frame <? 0x34) || negb ((b1 =? 0xB9) || (b1 =? 0xBA)) then Ok None else
  access ← unpack_from 8 frame 0x1C; device ← unpack_from 8 frame 0x24;
  if negb (access =? access_id) || negb (device =? device_id) then Ok None else
  if b1 =? 0xBA then
    message ← unpack_from 4 frame 0x2C;
    if negb (message =? Z.land message_id 0x7FFFFFFF) then Ok None else Ok (Some (mkReply false true None))
  else
    length_ ← unpack_from 2 frame 0x30;
    if (length_ <? 8) || (len frame <? 0x34 + length_) then Ok None else
    let payload := slice 0x34 (0x34 + Z.to_nat length_) frame in
    if negb (bool_decide (take 4 payload ∈ [[0x01; 0xFF; 0x00; 0x00]; [0x01; 0x00; 0x00; 0x00]])) then Ok None else
    request ← unpack_from 4 payload 4;
    if negb (request =? request_id) then Ok None else
    Ok (reply_error (loads (drop 8 payload))).

(** ** [ptz_release_delivery.py] *)

Record ReleaseDelivery := mkDelivery {
  d_generation : Z; d_access : Z; d_device : Z; d_correlation : ReleaseCorrelation;
  d_deadline : Q; d_frames : Z;
  d_transport : bool; d_peer : bool; d_application : bool; d_error : bool
}.

Definition release_delivery (generation access_id device_id : Z) (correlation : ReleaseCorrelation) (deadline now : Q) :
    result ReleaseDelivery :=
  _ ← raise_if ((generation <=? 0) || negb ((0 <? access_id) && (access_id <? 2 ^ 64)) ||
                negb ((0 <? device_id) && (device_id <? 2 ^ 64)) ||
                negb ((0 <=? c_sequence correlation) && (c_sequence correlation <? 2 ^ 32)) ||
                negb ((0 <=? c_message_id correlation) && (c_message_id correlation <? 2 ^ 31)) ||
                negb ((0 <=? c_request_id correlation) && (c_request_id correlation <? 2 ^ 32)) ||
                Qle_bool (deadline - now) 0 || negb (Qle_bool (deadline - now) 2))
        (ValueError "invalid release observation lifetime");
  Ok (mkDelivery generation access_id device_id correlation deadline 0 false false false false).

Definition confirmed (d : ReleaseDelivery) : bool :=
  negb (d_error d) && (d_application d || (d_transport d && d_peer d)).

Definition d_count (d : ReleaseDelivery) : ReleaseDelivery :=
  mkDelivery (d_generation d) (d_access d) (d_device d) (d_correlation d) (d_deadline d) (d_frames d + 1)
    (d_transport d) (d_peer d) (d_application d) (d_error d).
Definition d_fail (d : ReleaseDelivery) : ReleaseDelivery :=
  mkDelivery (d_generation d) (d_access d) (d_device d) (d_correlation d) (d_deadline d) (d_frames d)
    (d_transport d) (d_peer d) (d_application d) true.
Definition d_note (r : PtzReply) (d : ReleaseDelivery) : ReleaseDelivery :=
  mkDelivery (d_generation d) (d_access d) (d_device d) (d_correlation d) (d_deadline d) (d_frames d)
    (d_transport d || transport_receipt r) (d_peer d || peer_receipt r)
    (match error_code r with Some e => d_application d || (e =? 0) | None => d_application d end)
    (match error_code r with Some e => d_error d || negb (e =? 0) | None => d_error d end).

Definition observe_delivery (node : CertifiedNode) (now : Q) (plain : bytes) (peer : bytes * Z) (generation : Z) :
    M ReleaseDelivery (option PtzReply) :=
  d ← get;
  if Qle_bool (d_deadline d) now then mret None else
  if 64 <=? d_frames d then _ ← modify d_fail; mret None else
  _ ← modify d_count;
  if negb (bool_decide (peer = address node)) || negb (generation =? d_generation d) then mret None else
  let ids := d_correlation d in
  reply ← lift (parse_ptz_reply plain node (d_access d) (d_device d) (c_sequence ids) (c_message_id ids) (c_request_id ids));
  match reply with
  | None => mret None
  | Some r => _ ← modify (d_note r); mret (Some r)
  end.
End Loads.

(** ** [ptz_scheduler.py] *)

Inductive packet_kind : Type := KStart | KRelease | KReceipt.
#[global] Instance packet_kind_eq_dec : EqDecision packet_kind.
Proof. solve_decision. Defined.
Record PtzPacket := mkPacket { kind : packet_kind; wire : bytes }.

Definition kind_name (k : packet_kind) : string :=
  match k with KStart => "start" | KRelease => "release" | KReceipt => "receipt" end%string.

Inductive reason : Type := Cancelled | Retired | Released | ReleaseUnconfirmed.
Record ScheduledPtzResult := mkResult {
  r_reason : reason; start_attempted : bool; release_attempts : Z; release_delivery_confirmed : bool; r_send_failed : bool
}.

(** What the constructor fixes. *)
Record config := mkConfig {
  c_node : CertifiedNode; c_generation : Z; c_access : Z; c_device : Z; c_duration : Q; c_reserve : Z; c_admit_until : Q
}.

(** What changes while the gesture runs. *)
Record job := mkJob {
  commands : ReservedPtzCommands; cancel_set : bool;
  started : bool; failed : bool; receipt_prepared : bool; releases : Z;
  move_until : Q; release_until : Q; retry_at : Q; settle_until : option Q;
  delivery : option ReleaseDelivery; outcome : option ScheduledPtzResult
}.

Definition St : Type := world * job.

Definition with_commands (c : ReservedPtzCommands) (j : job) : job :=
  mkJob c (cancel_set j) (started j) (failed j) (receipt_prepared j) (releases j) (move_until j) (release_until j)
    (retry_at j) (settle_until j) (delivery j) (outcome j).
Definition with_cancel (j : job) : job :=
  mkJob (commands j) true (started j) (failed j) (receipt_prepared j) (releases j) (move_until j) (release_until j)
    (retry_at j) (settle_until j) (delivery j) (outcome j).
Definition with_failed (j : job) : job :=
  mkJob (commands j) (cancel_set j) (started j) true (receipt_prepared j) (releases j) (move_until j) (release_until j)
    (retry_at j) (settle_until j) (delivery j) (outcome j).
Definition with_started (until : Q) (j : job) : job :=
  mkJob (commands j) (cancel_set j) true (failed j) (receipt_prepared j) (releases j) until (release_until j)
    (retry_at j) (settle_until j) (delivery j) (outcome j).
Definition with_prepared (j : job) : job :=
  mkJob (commands j) (cancel_set j) (started j) (failed j) true (releases j) (move_until j) (release_until j)
    (retry_at j) (settle_until j) (delivery j) (outcome j).
Definition with_release (retry : Q) (j : job) : job :=
  mkJob (commands j) (cancel_set j) (started j) (failed j) (receipt_prepared j) (releases j + 1) (move_until j) (release_until j)
    retry (settle_until j) (delivery j) (outcome j).
Definition with_release_until (until : Q) (j : job) : job :=
  mkJob (commands j) (cancel_set j) (started j) (failed j) (receipt_prepared j) (releases j) (move_until j) until
    (retry_at j) (settle_until j) (delivery j) (outcome j).
Definition with_settle (t : option Q) (j : job) : job :=
  mkJob (commands j) (cancel_set j) (started j) (failed j) (receipt_prepared j) (releases j) (move_until j) (release_until j)
    (retry_at j) t (delivery j) (outcome j).
Definition with_delivery (d : ReleaseDelivery) (j : job) : job :=
  mkJob (commands j) (cancel_set j) (started j) (failed j) (receipt_prepared j) (releases j) (move_until j) (release_until j)
    (retry_at j) (settle_until j) (Some d) (outcome j).
Definition with_outcome (r : ScheduledPtzResult) (j : job) : job :=
  mkJob (commands j) (cancel_set j) (started j) (failed j) (receipt_prepared j) (releases j) (move_until j) (release_until j)
    (retry_at j) (settle_until j) (delivery j) (Some r).

Section Scheduler.
Context (loads : bytes → option json).
(** [clock n] is the [n]th reading of the monotonic clock. *)
Context (clock : nat → Q).
#[local] Notation tick := (tick clock).

Definition on_commands {A} (m : BrokerSequences → M ReservedPtzCommands A) : M St A := λ '(w, j),
  let '(c, r) := m (sequences w) (commands j) in ((w, with_commands c j), r).
(** [self._reserve.charge(kind, size)] *)
Definition reserve_charge (cfg : config) (kind : packet_kind) (size : Z) : M St unit :=
  charge_reserve clock ForPtz (c_reserve cfg) (kind_name kind) size.

Definition _finish (cfg : config) (reason : reason) (confirmed : bool) : M St unit :=
  j ← the_job;
  _ ← on_job (with_outcome (mkResult reason (started j) (releases j) confirmed (failed j)));
  if confirmed || negb (started j) then on_budget (ptz_close (c_reserve cfg)) else mret tt.

Definition cancel : M St unit := on_job with_cancel.
Definition send_failed : M St unit := _ ← on_job with_failed; cancel.

(** [try: wire = take_start() except ValueError: ...] *)
Definition attempt {A} (m : M St A) : M St (option A) := λ s,
  match m s with
  | (s, Ok a) => (s, Ok (Some a))
  | (s, Raise (ValueError _)) => (s, Ok None)
  | (s, Raise e) => (s, Raise e)
  end.

(** [next_packet] before START. *)
Definition start_step (cfg : config) (now : Q) : M St (option PtzPacket) :=
  j ← the_job;
  if cancel_set j || Qle_bool (c_admit_until cfg) now then
    _ ← on_job (λ j, with_commands (cancel_start (commands j)) j);
    _ ← _finish cfg Cancelled false;
    mret None
  else
    start ← attempt (on_commands take_start);
    match start with
    | None => _ ← _finish cfg Retired false; mret None
    | Some wire =>
        _ ← reserve_charge cfg KStart (len wire);
        _ ← on_job (with_started (now + c_duration cfg));
        mret (Some (mkPacket KStart wire))
    end.

(** The delivery tracker is created at the first poll after the motion;
    [true] when the gesture is still moving. *)
Definition ensure_delivery (cfg : config) (now : Q) : M St bool :=
  j ← the_job;
  match delivery j with
  | Some _ => mret false
  | None =>
      if negb (cancel_set j) && negb (Qle_bool (move_until j) now) then mret true else
      _ ← on_job (with_release_until (now + 2));
      later ← tick;
      d ← lift (release_delivery (c_generation cfg) (c_access cfg) (c_device cfg) (release_correlation (commands j)) (now + 2) later);
      _ ← on_job (with_delivery d);
      mret false
  end.

Definition settled (j : job) (d : ReleaseDelivery) (now : Q) : bool :=
  confirmed d && match settle_until j with Some t => Qle_bool t now | None => false end.

Definition release_step (cfg : config) (now : Q) : M St (option PtzPacket) :=
  j ← the_job;
  match delivery j with
  | None => mret None
  | Some d =>
      if settled j d now then _ ← _finish cfg Released true; mret None else
      if Qle_bool (release_until j) now then _ ← _finish cfg ReleaseUnconfirmed false; mret None else
      if confirmed d || (3 <=? releases j) || negb (Qle_bool (retry_at j) now) then mret None else
      wire ← on_commands (λ _, take_release);
      _ ← reserve_charge cfg KRelease (len wire);
      _ ← on_job (with_release (now + 1 / 2));
      mret (Some (mkPacket KRelease wire))
  end.

Definition next_packet (cfg : config) : M St (option PtzPacket) :=
  j ← the_job;
  match outcome j with
  | Some _ => mret None
  | None =>
      now ← tick;
      if negb (started j) then start_step cfg now else
      moving ← ensure_delivery cfg now;
      match moving with true => mret None | false => release_step cfg now end
  end.

Definition owns_release_reply (cfg : config) (j : job) (plain : bytes) : result bool :=
  if releases j =? 0 then Ok false else
  let ids := release_correlation (commands j) in
  r ← parse_ptz_reply loads plain (c_node cfg) (c_access cfg) (c_device cfg) (c_sequence ids) (c_message_id ids) (c_request_id ids);
  Ok (negb (is_none r)).

Fixpoint receipts (cfg : config) (wires : list bytes) : M St (list PtzPacket) :=
  match wires with
  | [] => mret []
  | wire :: wires =>
      _ ← reserve_charge cfg KReceipt (len wire);
      packets ← receipts cfg wires;
      mret (mkPacket KReceipt wire :: packets)
  end.

Definition settle (d : ReleaseDelivery) : M St unit :=
  j ← the_job;
  if confirmed d then
    match settle_until j with
    | None => t ← tick; on_job (with_settle (Some (t + 1 / 50)%Q))
    | Some _ => mret tt
    end
  else on_job (with_settle None).

(** The acknowledgements of a correlated response: one when its class asks for
    it, and the application receipt. *)
Definition answers (node : CertifiedNode) (plain : bytes) (sequence random : Z) : result (list bytes) :=
  flags ← unpack_from 4 plain 20;
  acks ← (if negb (Z.land (Z.shiftr flags 18) 3 =? 0)
          then ack ← build_mode2_response_ack node plain; Ok [ack] else Ok []);
  receipt ← build_ptz_receipt plain node sequence random;
  Ok (acks ++ [receipt]).

(** [self._delivery.observe(...)] on the tracker the job holds. *)
Definition observe_reply (cfg : config) (d : ReleaseDelivery) (plain : bytes) (peer : bytes * Z) (generation : Z) :
    M St (ReleaseDelivery * option PtzReply) :=
  now ← tick;
  let '(d, response) := observe_delivery loads (c_node cfg) now plain peer generation d in
  _ ← on_job (with_delivery d);
  response ← lift response;
  mret (d, response).

Definition observe (cfg : config) (plain : bytes) (peer : bytes * Z) (generation random : Z) : M St (list PtzPacket) :=
  j ← the_job;
  match outcome j, delivery j with
  | None, Some d =>
      if releases j =? 0 then mret [] else
      '(d, response) ← observe_reply cfg d plain peer generation;
      _ ← settle d;
      match response ≫= error_code with
      | None => mret []
      | Some _ =>
          if receipt_prepared j then mret [] else
          _ ← on_job with_prepared;
          wires ← lift (answers (c_node cfg) plain (receipt_sequence (commands j)) random);
          receipts cfg wires
      end
  | _, _ => mret []
  end.

(** The constructor, on the account's world. *)
Definition schedule (node : CertifiedNode) (generation access_id device_id : Z) (direction : string)
    (reviewed_directions : gset string) (duration : Q) (d : draws) (w : world) : world * result (config * job) :=
  if negb (Qle_bool (1 / 10) duration) || negb (Qle_bool duration (1 / 2))
  then (w, Raise (ValueError "PTZ duration must be 0.1..0.5 seconds")) else
  match reserve_ptz (Some (clock (ticks w))) (budget w) with
  | (b, Raise e) => (mkWorld b (sequences w) (S (ticks w)), Raise e)
  | (b, Ok id) =>
      match reserve_ptz_commands node generation access_id device_id direction reviewed_directions d (sequences w) with
      | (sq, Raise e) => (mkWorld (ptz_close id b).1 sq (S (ticks w)), Raise e)
      | (sq, Ok c) =>
          (mkWorld b sq (S (S (ticks w))),
           Ok (mkConfig node generation access_id device_id duration id (clock (S (ticks w)) + 1),
               mkJob c false false false false 0 0 0 0 None None None))
      end
  end.
End Scheduler.

(** ** The codec *)

Lemma direction_range direction dir : direction_code direction = Some dir → 0 ≤ dir ≤ 3.
Proof.
  unfold direction_code, DIRECTIONS. cbn [List.find fst].
  repeat (case_bool_decide; [intros [= <-]; simpl; lia|]). done.
Qed.

Lemma request_text_length dir touch : 0 ≤ dir ≤ 3 → 0 ≤ touch ≤ 1 →
  length (request_text dir touch) = 41%nat ∧ bytes_ok (request_text dir touch).
Proof.
  intros Hd Ht. assert (dir = 0 ∨ dir = 1 ∨ dir = 2 ∨ dir = 3) as Hd' by lia. assert (touch = 0 ∨ touch = 1) as Ht' by lia.
  destruct Hd' as [-> | [-> | [-> | ->]]], Ht' as [-> | ->]; (split; [reflexivity|bytes_concrete]).
Qed.

(** The payload of a request. *)
Definition request_payload (dir : Z) (pressed : bool) (request_id : Z) : bytes :=
  [0x01; 0xFF; 0x00; 0x00] ++ digits 256 4 request_id ++ request_text dir (if pressed then 0 else 1).

Lemma request_payload_length dir pressed request_id : 0 ≤ dir ≤ 3 →
  length (request_payload dir pressed request_id) = 49%nat ∧ bytes_ok (request_payload dir pressed request_id).
Proof.
  intros Hd. destruct (request_text_length dir (if pressed then 0 else 1) Hd ltac:(destruct pressed; lia)) as [L Hb].
  unfold request_payload. split; [rewrite !length_app, length_digits, L; done|].
  rewrite !bytes_ok_app. split_and!; auto with bytes. bytes_concrete.
Qed.

Section Codec.
Context (node : CertifiedNode) (Hk : length (session_key node) = 32%nat).
Context (access_id device_id : Z) (Ha : 0 ≤ access_id < 2 ^ 64) (Hd : 0 ≤ device_id < 2 ^ 64).

Lemma build_request_ok direction dir pressed sequence message_id request_id random :
  direction_code direction = Some dir → 0 ≤ request_id < 2 ^ 32 →
  ∃ w, build_ptz_request node access_id device_id direction pressed sequence message_id request_id random = Ok w ∧
    session_frame node 0xB9 (Z.land sequence 0xFFFFFFFF) (GuteFrame.randomized_flags random 2 1 0)
      (digits 256 4 2 ++ digits 256 8 device_id ++ digits 256 8 access_id ++ digits 256 4 (Z.land message_id 0x7FFFFFFF) ++
       digits 256 2 49 ++ [0; 0] ++ request_payload dir pressed request_id) w ∧ len w = 101.
Proof using Hk Ha Hd.
  intros Edir Hr. unfold build_ptz_request. rewrite Edir. rewrite pack_ok, bind_ret by (eval_widths; lia). cbv zeta.
  fold (request_payload dir pressed request_id). destruct (request_payload_length dir pressed request_id) as [Lp Hp]; [by eapply direction_range|].
  set (payload := request_payload dir pressed request_id) in *. rewrite Lp. unfold len. rewrite Lp.
  destruct (flags_ok random 2 1 ltac:(lia) ltac:(lia)) as (Hm & Hfr & H22 & H24 & Hmode).
  set (fl := GuteFrame.randomized_flags random 2 1 0) in *. pose proof (land31_range message_id) as Hmsg.
  rewrite new_header_eq by lia. bind_simpl. rewrite Hm. change (0x34 + 49 - 24)%nat with 77%nat. do 6 body_write. 
  match goal with |- context [frame_of ?t ?s ?i ?q ?ck ?f ?b] =>
    rewrite (length_frame_of t s i q f ck b eq_refl); set (before := b) end.
  assert (length before = 77)%nat as Lb by (subst before; len_solve). rewrite Lb. change (24 + 77)%nat with 101%nat. body_write.
  set (body := digits 256 4 2 ++ _). replace (put 28 payload before) with body.
  2:{ subst before. rewrite put_slice_set by len_solve. rewrite Lp.
      change (slice_set 28 (28 + 49)) with (@slice_set Z 28 77). unfold slice_set. subst body.
      change (drop 77 (put 24 (digits 256 2 49) (put 20 (digits 256 4 (Z.land message_id 0x7FFFFFFF))
        (put 12 (digits 256 8 access_id) (put 4 (digits 256 8 device_id) (put 0 (digits 256 4 2) (zeros 77))))))) with (@nil Z).
      rewrite app_nil_r, !(app_assoc _ _ payload). reflexivity. }
  assert (bytes_ok body) as Hb by (subst body; rewrite !bytes_ok_app; split_and!; auto with bytes; bytes_concrete).
  assert (length body = 77)%nat as Lbody by (subst body; rewrite !length_app, Lp; done).
  destruct (session_seal node 0xB9 sequence fl body Hk ltac:(lia) Hb ltac:(unfold len; lia) Hfr H22 H24 Hmode) as (w & Ew & _ & Ho).
  exists w. split; [done|]. split; [done|]. destruct Ho as (? & _ & -> & _). lia.
Qed.

Lemma build_receipt_ok plain sequence random : bytes_ok plain → (0x3C ≤ length plain)%nat →
  plain !!! 1%nat = 0xB9 → plain !!! 0%nat = 0x7E → unpack_from 8 plain 4 = Ok (session_id node) →
  (∃ fl, unpack_from 4 plain 0x14 = Ok fl ∧ Z.land (Z.shiftr fl 16) 3 = 2 ∧ Z.land fl (Z.shiftl 1 20) = 0) →
  ∃ w, build_ptz_receipt plain node sequence random = Ok w ∧
    session_frame node 0xBA (Z.land sequence 0xFFFFFFFF) (GuteFrame.randomized_flags random 2 1 0)
      (zeros 4 ++ slice 0x24 0x2C plain ++ slice 0x1C 0x24 plain ++ slice 0x2C 0x30 plain ++ zeros 4) w ∧ len w = 52.
Proof using Hk.
  intros Hb Hl H1 H0 Hs (flags & Ef & Hf1 & Hf2). unfold build_ptz_receipt.
  destruct (Z.ltb_spec (len plain) 0x3C) as [Hx|_]; [unfold len in Hx; lia|].
  rewrite (index_ok plain 1), bind_ret by lia. rewrite H1. cbn [negb Z.eqb Pos.eqb].
  rewrite (index_ok plain 0), bind_ret by lia. rewrite H0. cbn [negb Z.eqb Pos.eqb].
  rewrite Hs, bind_ret, Z.eqb_refl, bind_ret. rewrite guard_pass by done. rewrite Ef, bind_ret, Hf1, Hf2. rewrite guard_pass by done.
  destruct (flags_ok random 2 1 ltac:(lia) ltac:(lia)) as (Hm & Hfr & H22 & H24 & Hmode).
  set (fl := GuteFrame.randomized_flags random 2 1 0) in *.
  rewrite new_header_eq by lia. bind_simpl. rewrite Hm. change (0x34 - 24)%nat with 28%nat. body_write.
  destruct (unpack_from_field 8 plain 0x1C) as (dst & Edst & Hdst & Ddst); [done|lia|].
  destruct (unpack_from_field 8 plain 0x24) as (src & Esrc & Hsrc & Dsrc); [done|lia|].
  destruct (unpack_from_field 4 plain 0x2C) as (msg & Emsg & Hmsg & Dmsg); [done|lia|].
  rewrite Edst, Esrc, Emsg. bind_simpl. revert Hdst Hsrc Hmsg. eval_widths. intros Hdst Hsrc Hmsg. do 3 body_write.
  change (28 + 8)%nat with 0x24%nat in Ddst. change (0x24 + 8)%nat with 0x2C%nat in Dsrc. change (0x2C + 4)%nat with 0x30%nat in Dmsg.
  rewrite <-Ddst, <-Dsrc, <-Dmsg. set (body := zeros 4 ++ _).
  match goal with |- context [frame_of _ _ _ _ _ _ ?b] => change b with body end.
  assert (bytes_ok body) as Hbb by (subst body; rewrite !bytes_ok_app; split_and!; auto with bytes).
  destruct (session_seal node 0xBA sequence fl body Hk ltac:(lia) Hbb eq_refl Hfr H22 H24 Hmode) as (w & Ew & _ & Ho).
  exists w. split; [done|]. split; [done|]. by destruct Ho as (? & _ & Lw & _); unfold len; rewrite Lw.
Qed.
End Codec.

(** Case analysis on the outermost test. *)
Ltac case_if_as H := match goal with |- context [if ?c then _ else _] => destruct c eqn:H end.

Section Parse.
Context (loads : bytes → option json) (node : CertifiedNode) (plain : bytes) (Hb : bytes_ok plain).
Context (access_id device_id sequence message_id request_id : Z).

(** What a reply that carries an application result looks like. *)
Definition application_reply : Prop :=
  (0x3C ≤ length plain)%nat ∧ plain !!! 1%nat = 0xB9 ∧ plain !!! 0%nat = 0x7E ∧ unpack_from 8 plain 4 = Ok (session_id node) ∧
  (∃ fl, unpack_from 4 plain 0x14 = Ok fl ∧ Z.land (Z.shiftr fl 16) 3 = 2 ∧ Z.land fl (Z.shiftl 1 20) = 0) ∧
  unpack_from 4 plain 0x38 = Ok request_id.

(** Parsing never raises; an application result is read from such a reply, and
    from the JSON text after its request identifier. *)
Lemma parse_reply_spec : ∃ r,
  parse_ptz_reply loads plain node access_id device_id sequence message_id request_id = Ok r ∧
  (∀ reply e, r = Some reply → error_code reply = Some e → application_reply ∧
     ∃ n, (0x3C ≤ n ≤ length plain)%nat ∧ reply_error (loads (slice 0x3C n plain)) = Some reply).
Proof using Hb.
  assert (∀ o : option PtzReply, (∀ e, (o ≫= error_code) ≠ Some e) → ∃ r, Ok o = Ok r ∧
    (∀ reply e, r = Some reply → error_code reply = Some e → application_reply ∧
     ∃ n, (0x3C ≤ n ≤ length plain)%nat ∧ reply_error (loads (slice 0x3C n plain)) = Some reply)) as Hno.
  { intros o Ho. exists o. split; [done|]. intros reply e -> He. by destruct (Ho e). }
  unfold parse_ptz_reply. case_if_as G; [by apply Hno|].
  assert (0x18 ≤ length plain)%nat as L by (unfold len in G; lia).
  rewrite (index_ok plain 0), bind_ret by lia. destruct (Z.eqb_spec (plain !!! 0%nat) 0x7E) as [H0|]; [|by apply Hno]. cbn [negb].
  destruct (unpack_from_field 4 plain 0x14) as (fl & Ef & _ & _); [done|lia|]. rewrite Ef, bind_ret.
  destruct (unpack_from_field 8 plain 4) as (session & Es & _ & _); [done|lia|]. rewrite Es, bind_ret.
  destruct (Z.eqb_spec (Z.land (Z.shiftr fl 16) 3) 2) as [Hf|]; [|by apply Hno]. cbn [negb orb].
  destruct (Z.eqb_spec session (session_id node)) as [->|]; [|by apply Hno]. cbn [negb].
  rewrite (index_ok plain 1), bind_ret by lia.
  destruct (Z.eqb_spec (Z.land fl (Z.shiftl 1 20)) 0) as [H20|]; cbn [negb].
  2:{ rewrite (unpack_from_ok 4 plain 0xC), bind_ret by lia. case_if_as Gx; by apply Hno. }
  case_if_as G2; [by apply Hno|]. assert (0x34 ≤ length plain)%nat as L2 by (unfold len in G2; lia).
  rewrite (unpack_from_ok 8 plain 0x1C), bind_ret by lia. rewrite (unpack_from_ok 8 plain 0x24), bind_ret by lia.
  case_if_as Gx; [by apply Hno|]. destruct (Z.eqb_spec (plain !!! 1%nat) 0xBA) as [|HBA].
  { rewrite (unpack_from_ok 4 plain 0x2C), bind_ret by lia. case_if_as Gz; by apply Hno. }
  destruct (unpack_from_field 2 plain 0x30) as (n & En & Hn & _); [done|lia|]. rewrite En, bind_ret.
  case_if_as G3; [by apply Hno|]. cbv zeta. unfold len in G3.
  set (payload := slice _ _ plain). assert (length payload = Z.to_nat n) as Lp by (subst payload; rewrite length_slice; lia).
  case_if_as Gy; [by apply Hno|]. destruct (unpack_from_field 4 payload 4) as (rq & Er & _ & _); [subst payload; auto with bytes|lia|].
  rewrite Er, bind_ret. destruct (Z.eqb_spec rq request_id) as [->|]; [|by apply Hno]. cbn [negb].
  eexists. split; [done|]. intros reply e Hreply He. split.
  - split_and!; [lia|lia|done|done|by exists fl|]. subst payload. rewrite unpack_from_slice in Er by lia. exact Er.
  - exists (0x34 + Z.to_nat n)%nat. split; [lia|]. rewrite <-Hreply. do 2 f_equal. subst payload. unfold slice.
    rewrite skipn_firstn_comm, drop_drop. f_equal. lia.
Qed.
End Parse.

(** An application reply is answered by at most two small datagrams. *)
Lemma answers_ok node plain sequence random request_id : length (session_key node) = 32%nat → bytes_ok plain →
  application_reply node plain request_id →
  ∃ wires, answers node plain sequence random = Ok wires ∧ (length wires ≤ 2)%nat ∧ Forall (λ w, 0 < len w ≤ 4096) wires.
Proof.
  intros Hk Hb (Hl & H1 & H0 & Hs & Hfl & _). unfold answers. rewrite (unpack_from_ok 4 plain 20), bind_ret by lia.
  destruct (build_receipt_ok node Hk plain sequence random Hb Hl H1 H0 Hs Hfl) as (w & -> & _ & Lw).
  destruct (mode2_ack_ok node plain Hk Hb ltac:(lia)) as (a & Ea & La & _).
  destruct (negb _).
  - rewrite Ea. bind_simpl. eexists. split; [done|]. split; [simpl; lia|]. repeat constructor; unfold len in *; lia.
  - bind_simpl. eexists. split; [done|]. split; [simpl; lia|]. repeat constructor; lia.
Qed.

Lemma release_delivery_ok generation access_id device_id c now later :
  0 < generation → 0 < access_id < 2 ^ 64 → 0 < device_id < 2 ^ 64 → 0 ≤ c_sequence c < 2 ^ 32 →
  0 ≤ c_message_id c < 2 ^ 31 → 0 ≤ c_request_id c < 2 ^ 32 → (now <= later)%Q →
  release_delivery generation access_id device_id c (now + 2) later =
    if Qle_bool (now + 2) later then Raise (ValueError "invalid release observation lifetime")
    else Ok (mkDelivery generation access_id device_id c (now + 2) 0 false false false false).
Proof.
  intros. unfold release_delivery.
  assert (Qle_bool (now + 2 - later) 2 = true) as -> by (apply Qle_bool_iff; lra).
  assert (Qle_bool (now + 2 - later) 0 = Qle_bool (now + 2) later) as ->.
  { apply eq_true_iff_eq. rewrite !Qle_bool_iff. split; intros; lra. }
  destruct (Qle_bool (now + 2) later); [|by rewrite guard_pass by lia].
  by rewrite orb_true_r.
Qed.

(** ** The invariant of a gesture *)

Section Gesture.
Context (loads : bytes → option json) (clock : nat → Q).
Context (monotone : ∀ n, (clock n <= clock (S n))%Q).
Context (cfg : config) (ws wr : bytes) (corr : ReleaseCorrelation).

(** What [schedule] establishes once and for all. *)
Record config_ok : Prop := {
  ok_key : length (session_key (c_node cfg)) = 32%nat;
  ok_generation : 0 < c_generation cfg;
  ok_access : 0 < c_access cfg < 2 ^ 64;
  ok_device : 0 < c_device cfg < 2 ^ 64;
  ok_sequence : 0 ≤ c_sequence corr < 2 ^ 32;
  ok_message : 0 ≤ c_message_id corr < 2 ^ 31;
  ok_request : 0 ≤ c_request_id corr < 2 ^ 32;
  ok_start : 0 < len ws ≤ 4096;
  ok_release : 0 < len wr ≤ 4096
}.
Context (Hcfg : config_ok).

Definition slots_of (started : bool) (releases receipts : Z) : slots :=
  [("start", 1 - Z.b2z started); ("release", 3 - releases); ("receipt", receipts)]%string.

Definition count (k : packet_kind) (log : list PtzPacket) : nat := length (filter (λ p, kind p = k) log).

(** The packets handed out so far, against the state of the job. *)
Record logged (log : list PtzPacket) (j : job) : Prop := {
  l_start : if started j then ∃ rest, log = mkPacket KStart ws :: rest ∧ count KStart rest = 0%nat else log = [];
  l_release : Z.of_nat (count KRelease log) = releases j;
  l_wires : ∀ p, p ∈ log → kind p = KRelease → wire p = wr;
  l_receipts : (count KReceipt log ≤ 2)%nat ∧ (receipt_prepared j = false → count KReceipt log = 0%nat)
}.

Record inv (log : list PtzPacket) (s : St) : Prop := {
  i_cov : covered (budget s.1);
  i_hold : outcome s.2 = None → ∃ r, 0 ≤ r ∧ (receipt_prepared s.2 = false → r = 2) ∧
    undisturbed ForPtz (c_reserve cfg) (slots_of (started s.2) (releases s.2) r) (clock (ticks s.1)) (budget s.1);
  i_cmd : cmd_start (commands s.2) = ws ∧ cmd_release (commands s.2) = wr ∧ cmd_started (commands s.2) = started s.2 ∧
    cmd_release_attempts (commands s.2) = releases s.2 ∧ release_correlation (commands s.2) = corr;
  i_rel : 0 ≤ releases s.2 ≤ 3 ∧ (delivery s.2 = None → releases s.2 = 0) ∧ (started s.2 = false → delivery s.2 = None);
  i_log : logged log s.2
}.

Lemma inv_ticked log s : inv log s → inv log (ticked s).
Proof using monotone.
  intros [Hc Hh ? ? ?]. constructor; try done. cbn. intros Ho. destruct (Hh Ho) as (r & ? & ? & Hu).
  exists r. split_and!; [done|done|]. eapply undisturbed_later; [done|apply monotone].
Qed.

(** A change of the job that the packets do not depend on. *)
Lemma inv_job log s f : inv log s →
  started (f s.2) = started s.2 → releases (f s.2) = releases s.2 → receipt_prepared (f s.2) = receipt_prepared s.2 →
  outcome (f s.2) = outcome s.2 → (delivery (f s.2) = delivery s.2 ∨ (started s.2 = true ∧ delivery (f s.2) ≠ None)) →
  (cmd_start (commands (f s.2)) = cmd_start (commands s.2) ∧ cmd_release (commands (f s.2)) = cmd_release (commands s.2) ∧
   cmd_started (commands (f s.2)) = cmd_started (commands s.2) ∧
   cmd_release_attempts (commands (f s.2)) = cmd_release_attempts (commands s.2) ∧
   release_correlation (commands (f s.2)) = release_correlation (commands s.2)) →
  inv log (s.1, f s.2).
Proof using.
  intros [Hc Hh (? & ? & ? & ? & ?) (Hr & Hd & Hs) [L1 L2 L3 L4]] E1 E2 E3 E4 E5 (F1 & F2 & F3 & F4 & F5).
  constructor; cbn [fst snd]; rewrite ?E1, ?E2, ?E3, ?E4; try done.
  - split_and!; congruence.
  - split; [done|]. destruct E5 as [->|[? ?]]; [done|]. split; [done|congruence].
  - constructor; rewrite ?E1, ?E2, ?E3; done.
Qed.

Lemma inv_finished log s b r : inv log s → covered b → inv log (mkWorld b (sequences s.1) (ticks s.1), with_outcome r s.2).
Proof using. intros [Hc Hh ? ? [? ? ? ?]] Hb. by constructor. Qed.

Lemma wp_finish reason conf log (Q : result unit → St → Prop) s : inv log s →
  (∀ s', inv log s' → is_Some (outcome s'.2) → Q (Ok tt) s') → wp (_finish cfg reason conf) Q s.
Proof using.
  intros Hi HQ. unfold _finish. wp_step. apply wp_the_job. wp_step. apply wp_on_job. set (r := mkResult _ _ _ _ _).
  destruct (conf || negb (started s.2)).
  - unfold wp, on_budget. pose proof (ptz_close_covered (c_reserve cfg) (budget s.1) (i_cov _ _ Hi)) as Hc. unfold wp in Hc.
    assert (∀ b, (ptz_close (c_reserve cfg) b).2 = Ok tt) as Hok by done.
    specialize (Hok (budget s.1)). destruct s as [w j]. cbn [fst snd] in *.
    destruct (ptz_close (c_reserve cfg) (budget w)) as [b' res]. cbn [fst snd] in *. subst res. apply HQ; [|by eexists].
    by apply (inv_finished log (w, j)).
  - apply wp_ret. apply HQ; [|by eexists]. pose proof (inv_finished log s (budget s.1) r Hi (i_cov _ _ Hi)) as Hf.
    by destruct s as [[? ? ?] ?].
Qed.

Lemma wp_charge k n s sl (Q : result unit → St → Prop) size : covered (budget s.1) →
  undisturbed ForPtz (c_reserve cfg) sl (clock (ticks s.1)) (budget s.1) → slot (kind_name k) sl = Some n → n ≠ 0 → 0 < size ≤ 4096 →
  (∀ b', covered b' → undisturbed ForPtz (c_reserve cfg) (take_slot (kind_name k) sl) (clock (S (ticks s.1))) b' →
     Q (Ok tt) (mkWorld b' (sequences s.1) (S (ticks s.1)), s.2)) →
  wp (reserve_charge clock cfg k size) Q s.
Proof using monotone.
  intros. by eapply wp_charge_reserve.
Qed.

Lemma count_app k l l' : count k (l ++ l') = (count k l + count k l')%nat.
Proof using. unfold count. by rewrite filter_app, length_app. Qed.

Lemma logged_start log j t : started j = false → logged log j → logged (log ++ [mkPacket KStart ws]) (with_started t j).
Proof using.
  intros Hs [L1 L2 L3 L4]. rewrite Hs in L1. subst log. constructor; cbn in *.
  - by exists [].
  - done.
  - intros p Hp. set_unfold in Hp. destruct Hp as [-> |[]]. done.
  - split; [vm_compute; lia|done].
Qed.

Lemma logged_release log j t : started j = true → logged log j → logged (log ++ [mkPacket KRelease wr]) (with_release t j).
Proof using.
  intros Hs [L1 L2 L3 L4]. rewrite Hs in L1. constructor; cbn [started with_release releases receipt_prepared].
  - rewrite Hs. destruct L1 as (rest & -> & Hc). exists (rest ++ [mkPacket KRelease wr]). split; [done|]. by rewrite count_app, Hc.
  - rewrite count_app. change (count KRelease [mkPacket KRelease wr]) with 1%nat. lia.
  - intros p [Hp|Hp]%elem_of_app; [by apply L3|]. set_unfold in Hp. destruct Hp as [-> |[]]. done.
  - rewrite count_app. change (count KReceipt [mkPacket KRelease wr]) with 0%nat. rewrite Nat.add_0_r. done.
Qed.

Lemma logged_receipts log j out : started j = true → receipt_prepared j = false → (length out ≤ 2)%nat →
  Forall (λ p, kind p = KReceipt) out → logged log j → logged (log ++ out) (with_prepared j).
Proof using.
  intros Hs Hp Hl Hout [L1 L2 L3 [L4 L5]]. rewrite Hs in L1.
  assert (∀ k, k ≠ KReceipt → count k out = 0%nat) as Hz.
  { intros k Hk. unfold count. induction Hout as [|p out Ep Hout IH]; [done|]. rewrite filter_cons.
    rewrite decide_False by congruence. apply IH. simpl in Hl. lia. }
  assert (count KReceipt out ≤ 2)%nat as H2 by (unfold count; etrans; [apply length_filter|done]).
  constructor; cbn [started with_prepared releases receipt_prepared].
  - rewrite Hs. destruct L1 as (rest & -> & Hc). exists (rest ++ out). split; [done|]. rewrite count_app, Hc, Hz; done.
  - rewrite count_app, Hz by done. lia.
  - intros p [Hin|Hin]%elem_of_app; [by apply L3|]. rewrite list.Forall_forall in Hout. intros E. specialize (Hout p Hin). congruence.
  - rewrite count_app, (L5 Hp). split; [lia|done].
Qed.

Definition olist (o : option PtzPacket) : list PtzPacket := match o with Some p => [p] | None => [] end.

(** A poll that hands out nothing before START ends the gesture. *)
Lemma start_step_spec now log s : inv log s → outcome s.2 = None → started s.2 = false →
  wp (start_step clock cfg now) (λ r s', ∃ o, r = Ok o ∧ inv (log ++ olist o) s' ∧ (o = None → is_Some (outcome s'.2))) s.
Proof using monotone Hcfg.
  intros Hi Ho Hs. unfold start_step. wp_step. apply wp_the_job. destruct (_ || _).
  - wp_step. apply wp_on_job. wp_step. apply (wp_finish _ _ log).
    + by apply inv_job; [..|left|].
    + intros s' Hi' Hout. wp_step. exists None. split_and!; [done|by rewrite app_nil_r|done].
  - destruct (i_hold _ _ Hi Ho) as (r & Hr & Hp & Hu). destruct (i_cmd _ _ Hi) as (E1 & E2 & E3 & E4 & E5).
    pose proof (i_rel _ _ Hi) as (R1 & R2 & R3).
    wp_step. unfold attempt, on_commands. destruct s as [w j]. cbn [fst snd] in *. unfold wp at 1.
    assert (take_start (sequences w) (commands j) = (commands j, Raise (ValueError "PTZ START unavailable; do not replay")) ∨
      ∃ c, take_start (sequences w) (commands j) = (c, Ok ws) ∧ cmd_start c = ws ∧ cmd_release c = wr ∧ cmd_started c = true ∧
        cmd_release_attempts c = releases j ∧ release_correlation c = corr) as [-> |(c & -> & Hcm)].
    { unfold take_start, get, check, modify, mbind, M_bind, mret, M_ret. destruct (_ || _); cbn [raise_if]; [by left|right].
      eexists. rewrite E1. split; [done|]. cbn. done. }
    + cbn [fst snd]. wp_step. assert (inv log (w, with_commands (commands j) j)) as Hi'.
      { pose proof (inv_job log (w, j) (with_commands (commands j)) Hi) as H. apply H; try done. by left. }
      apply (wp_finish _ _ log); [done|]. intros s' Hi2 Hout. wp_step. exists None. split_and!; [done|by rewrite app_nil_r|done].
    + cbn [fst snd]. wp_step. apply (wp_charge KStart 1 _ (slots_of (started j) (releases j) r)).
      * apply (i_cov _ _ Hi).
      * exact Hu.
      * by rewrite Hs.
      * done.
      * apply Hcfg.
      * intros b' Hb' Hu'. wp_step. apply wp_on_job. wp_step. exists (Some (mkPacket KStart ws)). split_and!; [done| |done].
        destruct Hcm as (C1 & C2 & C3 & C4 & C5).
        constructor; cbn [fst snd budget ticks outcome with_commands with_started started releases receipt_prepared commands delivery]; try done.
        -- intros _. exists r. split_and!; [done|done|]. rewrite Hs in Hu'. exact Hu'.
        -- apply logged_start; [done|]. destruct (i_log _ _ Hi). by constructor.
Qed.

(** After START: the tracker exists, the gesture still moves, or two readings
    of the clock were two seconds apart. *)
Lemma ensure_delivery_spec now log s : inv log s → started s.2 = true → outcome s.2 = None →
  (∃ n, S n = ticks s.1 ∧ now = clock n) →
  wp (ensure_delivery clock cfg now) (λ r s', inv log s' ∧ started s'.2 = true ∧ outcome s'.2 = None ∧
    match r with
    | Ok true => delivery s'.2 = None ∧ (now < move_until s'.2)%Q
    | Ok false => delivery s'.2 ≠ None
    | Raise e => e = ValueError "invalid release observation lifetime" ∧ ∃ n, (clock n + 2 <= clock (S n))%Q
    end) s.
Proof using monotone Hcfg.
  intros Hi Hs Ho (n & Hn & ->). unfold ensure_delivery. wp_step. apply wp_the_job. destruct (delivery s.2) as [d|] eqn:Ed.
  { wp_step. by rewrite Ed. }
  destruct (negb _ && negb _) eqn:Em.
  - wp_step. split_and!; try done. apply andb_prop in Em as [_ Em%negb_true_iff].
    apply Qnot_le_lt. intros H%Qle_bool_iff. congruence.
  - wp_step. apply wp_on_job. wp_step. apply wp_tick. wp_step. wp_step. cbn [ticks fst ticked]. rewrite <-Hn.
    destruct (i_cmd _ _ Hi) as (_ & _ & _ & _ & ->).
    rewrite release_delivery_ok; try apply Hcfg; [|apply monotone].
    assert (inv log (ticked (s.1, with_release_until (clock n + 2) s.2))) as Hi'.
    { apply inv_ticked, inv_job; try done. by left. }
    destruct (Qle_bool (clock n + 2) (clock (S n))) eqn:Eq.
    + split_and!; [done|done|done|done|]. exists n. by apply Qle_bool_iff.
    + wp_step. apply wp_on_job. wp_step. set (d := mkDelivery _ _ _ _ _ _ _ _ _ _). split_and!; try done.
      apply (inv_job log _ (with_delivery d) Hi'); try done. right. by split.
Qed.

(** A poll after START: a release, the end, or a wait bounded by the deadline. *)
Lemma release_step_spec now log s : inv log s → started s.2 = true → outcome s.2 = None → delivery s.2 ≠ None →
  wp (release_step clock cfg now) (λ r s', ∃ o, r = Ok o ∧ inv (log ++ olist o) s' ∧
    (o = None → is_Some (outcome s'.2) ∨ (started s'.2 = true ∧ delivery s'.2 ≠ None ∧ (now < release_until s'.2)%Q))) s.
Proof using monotone Hcfg.
  intros Hi Hs Ho Hd. unfold release_step. wp_step. apply wp_the_job. destruct (delivery s.2) as [d|] eqn:Ed; [|done].
  destruct (settled _ _ _).
  { wp_step. apply (wp_finish _ _ log); [done|]. intros s' Hi' Hout. wp_step. exists None. split_and!; [done|by rewrite app_nil_r|by left]. }
  destruct (Qle_bool (release_until s.2) now) eqn:Eu.
  { wp_step. apply (wp_finish _ _ log); [done|]. intros s' Hi' Hout. wp_step. exists None. split_and!; [done|by rewrite app_nil_r|by left]. }
  destruct (_ || _) eqn:Ew.
  { wp_step. exists None. split_and!; [done|by rewrite app_nil_r|]. intros _. right. split_and!; [done|by rewrite Ed|].
    apply Qnot_le_lt. intros H%Qle_bool_iff. congruence. }
  apply orb_false_elim in Ew as [[_ E3]%orb_false_elim _].
  destruct (i_hold _ _ Hi Ho) as (r & Hr & Hp & Hu). destruct (i_cmd _ _ Hi) as (E1 & E2 & E3' & E4 & E5).
  pose proof (i_rel _ _ Hi) as (R1 & R2 & R3). wp_step. destruct s as [w j]. cbn [fst snd] in *. unfold wp at 1, on_commands.
  assert (∃ c, take_release (commands j) = (c, Ok wr) ∧ cmd_start c = ws ∧ cmd_release c = wr ∧ cmd_started c = true ∧
    cmd_release_attempts c = releases j + 1 ∧ release_correlation c = corr) as (c & -> & C1 & C2 & C3 & C4 & C5).
  { unfold take_release, get, check, modify, mbind, M_bind, mret, M_ret. rewrite E3', Hs, E4. cbn [negb orb].
    rewrite E3. cbn [raise_if]. eexists. rewrite E2. split; [done|]. cbn. split_and!; congruence. }
  cbn [fst snd]. wp_step. apply (wp_charge KRelease (3 - releases j) _ (slots_of (started j) (releases j) r)).
  - apply (i_cov _ _ Hi).
  - exact Hu.
  - done.
  - lia.
  - apply Hcfg.
  - intros b' Hb' Hu'. wp_step. apply wp_on_job. wp_step. exists (Some (mkPacket KRelease wr)). split_and!; [done| |done].
    constructor; cbn [fst snd budget ticks outcome with_commands with_release started releases receipt_prepared commands delivery]; try done.
    + intros _. exists r. split_and!; [done|done|]. cbn [ticks sequences fst] in Hu'.
      replace (slots_of (started j) (releases j + 1) r) with (take_slot (kind_name KRelease) (slots_of (started j) (releases j) r)); [done|].
      unfold slots_of at 2. replace (3 - (releases j + 1)) with (3 - releases j - 1) by lia. reflexivity.
    + split_and!; congruence.
    + rewrite Ed. split_and!; try done; lia.
    + apply logged_release; [done|]. destruct (i_log _ _ Hi). by constructor.
Qed.

(** What a poll does from any state of the gesture. *)
Lemma next_packet_spec log s : inv log s →
  wp (next_packet clock cfg) (λ r s',
    match r with
    | Ok o => inv (log ++ olist o) s' ∧
        (o = None → is_Some (outcome s'.2) ∨
           (started s'.2 = true ∧ delivery s'.2 = None ∧ (clock (ticks s.1) < move_until s'.2)%Q) ∨
           (started s'.2 = true ∧ delivery s'.2 ≠ None ∧ (clock (ticks s.1) < release_until s'.2)%Q))
    | Raise e => inv log s' ∧ e = ValueError "invalid release observation lifetime" ∧ ∃ n, (clock n + 2 <= clock (S n))%Q
    end) s.
Proof using monotone Hcfg.
  intros Hi. unfold next_packet. wp_step. apply wp_the_job. destruct (outcome s.2) as [o|] eqn:Ho.
  { wp_step. split; [by rewrite app_nil_r|]. intros _. left. by rewrite Ho. }
  wp_step. apply wp_tick. pose proof (inv_ticked _ _ Hi) as Hi'. destruct (started s.2) eqn:Hs; cbn [negb].
  - wp_step. eapply wp_mono; [apply (ensure_delivery_spec _ log); try done; by eexists|].
    intros r s1 (Hi1 & Hs1 & Ho1 & Hr). destruct r as [[]|e]; [| |by destruct Hr].
    + wp_step. split; [by rewrite app_nil_r|]. intros _. right. left. by destruct Hr.
    + eapply wp_mono; [by apply (release_step_spec _ log)|]. intros r s2 (o & -> & Hi2 & Hn). split; [done|].
      intros E. destruct (Hn E) as [?|?]; auto.
  - eapply wp_mono; [by apply (start_step_spec _ log)|]. intros r s2 (o & -> & Hi2 & Hn). split; [done|]. auto.
Qed.

Lemma wp_receipts wires sl s (Q : result (list PtzPacket) → St → Prop) r : covered (budget s.1) →
  sl = slots_of (started s.2) (releases s.2) r → Z.of_nat (length wires) ≤ r → Forall (λ w, 0 < len w ≤ 4096) wires →
  undisturbed ForPtz (c_reserve cfg) sl (clock (ticks s.1)) (budget s.1) →
  (∀ b' n, covered b' → undisturbed ForPtz (c_reserve cfg) (slots_of (started s.2) (releases s.2) (r - Z.of_nat (length wires))) (clock n) b' →
     Q (Ok (mkPacket KReceipt <$> wires)) (mkWorld b' (sequences s.1) n, s.2)) →
  wp (receipts clock cfg wires) Q s.
Proof using monotone.
  revert sl s r Q. induction wires as [|w wires IH]; intros sl s r Q Hc -> Hl Hw Hu HQ; cbn [receipts].
  - wp_step. specialize (HQ (budget s.1) (ticks s.1) Hc). rewrite Z.sub_0_r in HQ. destruct s as [[? ? ?] ?]. by apply HQ.
  - apply list.Forall_cons in Hw as [Hw Hws]. cbn [length] in Hl.
    wp_step. apply (wp_charge KReceipt r _ (slots_of (started s.2) (releases s.2) r)); [done|done|done|lia|done|].
    intros b' Hb' Hu'. wp_step. eapply (IH _ _ (r - 1)); [done|done|lia|done|exact Hu'|].
    intros b2 n Hb2 Hu2. wp_step. apply HQ; [done|]. cbn [length]. replace (r - Z.of_nat (S (length wires))) with (r - 1 - Z.of_nat (length wires)) by lia. done.
Qed.

Lemma wp_settle d log s (Q : result unit → St → Prop) : inv log s →
  (∀ s', inv log s' → outcome s'.2 = outcome s.2 → started s'.2 = started s.2 → receipt_prepared s'.2 = receipt_prepared s.2 →
     commands s'.2 = commands s.2 → Q (Ok tt) s') → wp (settle clock d) Q s.
Proof using monotone.
  intros Hi HQ. unfold settle. wp_step. apply wp_the_job. destruct (confirmed d).
  - destruct (settle_until s.2).
    + wp_step. by apply HQ.
    + wp_step. apply wp_tick. apply wp_on_job. apply HQ; try done. apply inv_job; try done; [by apply inv_ticked|by left].
  - apply wp_on_job. apply HQ; try done. apply inv_job; try done. by left.
Qed.

Lemma observe_delivery_spec now plain peer generation d : bytes_ok plain →
  let '(d', r) := observe_delivery loads (c_node cfg) now plain peer generation d in
  ∃ o, r = Ok o ∧ (∀ reply e, o = Some reply → error_code reply = Some e →
    application_reply (c_node cfg) plain (c_request_id (d_correlation d))).
Proof using.
  intros Hb. unfold observe_delivery, get, modify, lift, mbind, M_bind, mret, M_ret.
  destruct (Qle_bool _ _); [by exists None|]. destruct (64 <=? _); [by exists None|]. destruct (_ || _); [by exists None|].
  destruct (parse_reply_spec loads (c_node cfg) plain Hb (d_access d) (d_device d) (c_sequence (d_correlation d))
    (c_message_id (d_correlation d)) (c_request_id (d_correlation d))) as (r & -> & Hr).
  destruct r as [reply|]; [|by exists None]. exists (Some reply). split; [done|]. intros ? e [= <-] He. by apply (Hr reply e).
Qed.

(** Receiving never raises, and answers at most once. *)
Lemma observe_spec plain peer generation random log s : inv log s → bytes_ok plain →
  wp (observe loads clock cfg plain peer generation random) (λ r s', ∃ out, r = Ok out ∧ inv (log ++ out) s') s.
Proof using monotone Hcfg.
  intros Hi Hb. unfold observe. wp_step. apply wp_the_job.
  assert (∀ s', inv log s' → ∃ out, Ok (A := list PtzPacket) [] = Ok out ∧ inv (log ++ out) s') as Hnone.
  { intros s' H. exists []. by rewrite app_nil_r. }
  destruct (outcome s.2) eqn:Ho; [wp_step; by apply Hnone|]. destruct (delivery s.2) as [d|] eqn:Ed; [|wp_step; by apply Hnone].
  destruct (Z.eqb_spec (releases s.2) 0) as [|Hrel]; [wp_step; by apply Hnone|].
  assert (started s.2 = true) as Hs.
  { destruct (started s.2) eqn:E; [done|]. destruct (i_rel _ _ Hi) as (_ & _ & H). rewrite (H E) in Ed. done. }
  wp_step. unfold observe_reply. wp_step. apply wp_tick.
  pose proof (observe_delivery_spec (clock (ticks s.1)) plain peer generation d Hb) as Hobs.
  destruct (observe_delivery _ _ _ _ _ _ d) as [d' r]. destruct Hobs as (o & -> & Hobs).
  wp_step. apply wp_on_job. wp_step. wp_step. wp_step. wp_step. 
  assert (inv log ((ticked s).1, with_delivery d' (ticked s).2)) as Hi2.
  { apply (inv_job log (ticked s) (with_delivery d')); try done; [by apply inv_ticked|right; by split]. }
  apply (wp_settle _ log); [exact Hi2|]. intros s3 Hi3 Ho3 Hs3 Hp3 Hc3. cbn [snd outcome started receipt_prepared commands with_delivery ticked] in *.
  destruct (o ≫= error_code) as [e|] eqn:Ee; [|wp_step; by apply Hnone].
  destruct (receipt_prepared s.2) eqn:Ep; [wp_step; by apply Hnone|].
  apply bind_Some in Ee as (reply & -> & Ee).
  destruct (answers_ok (c_node cfg) plain (receipt_sequence (commands s.2)) random _ (ok_key Hcfg) Hb (Hobs reply e eq_refl Ee))
    as (wires & Ew & Hl & Hsz).
  wp_step. apply wp_on_job. wp_step. wp_step. rewrite Ew.
  destruct (i_hold _ _ Hi3) as (r & Hr & Hr2 & Hu); [by rewrite Ho3|]. rewrite Hp3 in Hr2. rewrite (Hr2 eq_refl) in Hu.
  eapply (wp_receipts wires _ _ _ 2); [apply (i_cov _ _ Hi3)|done|lia|done|exact Hu|].
  intros b' n Hb' Hu'. exists (mkPacket KReceipt <$> wires). split; [done|].
  destruct (i_cmd _ _ Hi3) as (? & ? & ? & ? & ?). constructor; cbn [fst snd budget ticks].
  - done.
  - intros _. exists (2 - Z.of_nat (length wires)). split; [lia|]. split; [done|exact Hu'].
  - done.
  - apply (i_rel _ _ Hi3).
  - apply logged_receipts; [by rewrite Hs3|by rewrite Hp3|by rewrite length_fmap| |apply (i_log _ _ Hi3)].
    apply list.Forall_forall. by intros p (x & -> & _)%list_elem_of_fmap.
Qed.

(** ** Histories *)

(** What the account's owner does between and around the polls. *)
Inductive action : Type :=
| Poll
| Observe (plain : bytes) (peer : bytes * Z) (generation random : Z)
| Cancel
| SendFailed
| Elsewhere (c : call)
| Numbers (c : seq_call).

Definition act (a : action) : M St (list PtzPacket) :=
  match a with
  | Poll => o ← next_packet clock cfg; mret (olist o)
  | Observe plain peer generation random => observe loads clock cfg plain peer generation random
  | Cancel => _ ← cancel; mret []
  | SendFailed => _ ← send_failed; mret []
  | Elsewhere c => _ ← elsewhere clock c; mret []
  | Numbers c => λ '(w, j), ((mkWorld (budget w) (seq_exec c (sequences w)).1 (ticks w), j), Ok [])
  end.

(** The rest of the account does not hold this gesture's reserve. *)
Definition action_ok (a : action) : Prop :=
  match a with
  | Observe plain _ _ _ => bytes_ok plain
  | Elsewhere c => foreign ForPtz (c_reserve cfg) c
  | _ => True
  end.

(** A history, with the packets it handed out. *)
Fixpoint run (actions : list action) (s : St) : St * list PtzPacket :=
  match actions with
  | [] => (s, [])
  | a :: actions =>
      let '(s, r) := act a s in
      let '(s, out) := run actions s in
      (s, (match r with Ok l => l | Raise _ => [] end) ++ out)
  end.

Lemma act_inv a log s : inv log s → action_ok a →
  let '(s', r) := act a s in inv (log ++ match r with Ok l => l | Raise _ => [] end) s'.
Proof using monotone Hcfg.
  intros Hi Ha. destruct a as [|plain peer generation random| | |c|c]; cbn [act].
  - pose proof (next_packet_spec log s Hi) as H. unfold wp in H. unfold mbind, M_bind, mret, M_ret.
    destruct (next_packet clock cfg s) as [s' [o|e]]; cbn [fst snd] in H; [apply H|]. rewrite app_nil_r. apply H.
  - pose proof (observe_spec plain peer generation random log s Hi Ha) as H. unfold wp in H.
    destruct (observe loads clock cfg plain peer generation random s) as [s' r]. cbn [fst snd] in H. by destruct H as (out & -> & H).
  - destruct s as [w j]. change (inv (log ++ []) (w, with_cancel j)). rewrite app_nil_r. apply (inv_job log (w, j) with_cancel); try done. by left.
  - destruct s as [w j]. change (inv (log ++ []) (w, with_cancel (with_failed j))). rewrite app_nil_r.
    pose proof (inv_job log (w, j) with_failed Hi) as H.
    apply (inv_job log (w, with_failed j) with_cancel); try done; [|by left]. apply H; try done. by left.
  - assert (wp (_ ← elsewhere clock c; mret []) (λ r s', inv (log ++ match r with Ok l => l | Raise _ => [] end) s') s) as Hw.
    { wp_step. destruct (decide (outcome s.2 = None)) as [Ho|Ho].
      - destruct (i_hold _ _ Hi Ho) as (r & Hr & Hp & Hu).
        apply (wp_elsewhere clock monotone ForPtz (c_reserve cfg) (slots_of (started s.2) (releases s.2) r)); [apply Hi|done|].
        intros b' Hc' Hu'. wp_step. rewrite app_nil_r. destruct Hi. constructor; cbn [fst snd budget ticks]; try done.
        intros _. exists r. split_and!; [done|done|by apply Hu'].
      - apply (wp_elsewhere clock monotone ForPtz (c_reserve cfg) []); [apply Hi|done|]. intros b' Hc' _. wp_step. rewrite app_nil_r.
        destruct Hi. by constructor. }
    unfold wp in Hw. match type of Hw with context [snd ?x] => by destruct x end.
  - destruct s as [w j]. rewrite app_nil_r. by destruct Hi as [? ? ? ? ?].
Qed.

Lemma run_inv actions log s : inv log s → Forall action_ok actions →
  let '(s', out) := run actions s in inv (log ++ out) s'.
Proof using monotone Hcfg.
  revert log s. induction actions as [|a actions IH]; intros log s Hi Ha; cbn [run]; [by rewrite app_nil_r|].
  apply list.Forall_cons in Ha as [Ha Has]. pose proof (act_inv a log s Hi Ha) as H. destruct (act a s) as [s1 r].
  specialize (IH _ s1 H Has). destruct (run actions s1) as [s2 out]. by rewrite app_assoc.
Qed.
End Gesture.

(** ** The start of a gesture *)

Definition draws_ok (d : draws) : Prop :=
  0 ≤ d_message d < 2 ^ 31 ∧ 0 ≤ d_request d < 2 ^ 32 ∧ 0 ≤ d_start_request d < 2 ^ 32.

Lemma known_direction direction : direction ∈ (list_to_set DIRECTIONS.*1 : gset string) → is_Some (direction_code direction).
Proof.
  intros H. unfold direction_code. rewrite elem_of_list_to_set in H. unfold DIRECTIONS in *. set_unfold in H.
  destruct H as (x & -> & [->|[->|[->|[->|[]]]]]); by eexists.
Qed.

Lemma reserve_commands_spec node generation access_id device_id direction reviewed d source :
  length (session_key node) = 32%nat → draws_ok d → 0 < _generation source → 0 ≤ _next source →
  wp (reserve_ptz_commands node generation access_id device_id direction reviewed d) (λ r _, ∀ c, r = Ok c →
    0 < generation ∧ 0 < access_id < 2 ^ 64 ∧ 0 < device_id < 2 ^ 64 ∧ len (cmd_start c) = 101 ∧ len (cmd_release c) = 101 ∧
    cmd_started c = false ∧ cmd_release_attempts c = 0 ∧ 0 ≤ c_sequence (release_correlation c) < 2 ^ 32 ∧
    0 ≤ c_message_id (release_correlation c) < 2 ^ 31 ∧ 0 ≤ c_request_id (release_correlation c) < 2 ^ 32) source.
Proof.
  intros Hk (Hd1 & Hd2 & Hd3) Hg Hn. unfold reserve_ptz_commands. do 2 wp_step. wp_step. wp_step; [done|].
  repeat match goal with H : _ || _ = false |- _ => apply orb_false_elim in H as [H ?] end.
  assert (is_Some (direction_code direction)) as [dir Edir].
  { apply known_direction. repeat match goal with H : negb (bool_decide _) = false |- _ =>
      apply negb_false_iff, bool_decide_eq_true in H end. set_solver. }
  assert (0 < generation) as Hgen.
  { match goal with H : negb (matches _ _ _) = false |- _ => unfold matches in H; lia end. }
  wp_step. eapply wp_mono; [apply reserve_spec|]. intros r s (_ & _ & Hr). destruct r as [ids|e]; [|done].
  destruct Hr as (_ & _ & -> & Hs & Hmax). rewrite !seqZ_cons by lia. cbn [seqZ Z.sub]. 
  change (seqZ (Z.succ (Z.succ (Z.succ (_next source)))) (Z.pred (Z.pred (Z.pred 3)))) with (@nil Z).
  destruct (build_request_ok node Hk access_id device_id ltac:(lia) ltac:(lia) direction dir true (_next source)
    (d_start_message d) (d_start_request d) (d_start_flags d) Edir Hd3) as (w1 & E1 & _ & L1).
  destruct (build_request_ok node Hk access_id device_id ltac:(lia) ltac:(lia) direction dir false (Z.succ (_next source))
    (d_message d) (d_request d) (d_release_flags d) Edir Hd2) as (w2 & E2 & _ & L2).
  cbv zeta. cbn [c_sequence c_message_id c_request_id]. rewrite E1, E2. repeat wp_step. intros c [= <-].
  cbn. split_and!; try done; lia.
Qed.

Lemma schedule_inv clock node generation access_id device_id direction reviewed duration d w w' cfg j :
  (∀ n, (clock n <= clock (S n))%Q) → length (session_key node) = 32%nat → draws_ok d → covered (budget w) →
  (_last (_traffic (budget w)) <= clock (ticks w))%Q → 0 < _generation (sequences w) → 0 ≤ _next (sequences w) →
  schedule clock node generation access_id device_id direction reviewed duration d w = (w', Ok (cfg, j)) →
  ∃ ws wr corr, config_ok cfg ws wr corr ∧ inv clock cfg ws wr corr [] (w', j).
Proof.
  intros Hmono Hk Hd Hc Hl Hg Hn. unfold schedule. destruct (_ || _); [done|].
  pose proof (reserve_gives ForPtz _ _ Hc Hl) as Hr. unfold wp in Hr. cbn [reserve_for] in Hr.
  destruct (reserve_ptz (Some (clock (ticks w))) (budget w)) as [b [id|e]]; [|done]. cbn [fst snd] in Hr.
  destruct (Hr id eq_refl) as [Hb Hu]. clear Hr.
  pose proof (reserve_commands_spec node generation access_id device_id direction reviewed d (sequences w) Hk Hd Hg Hn) as Hs.
  unfold wp in Hs. destruct (reserve_ptz_commands _ _ _ _ _ _ _ (sequences w)) as [sq [c|e]]; [|done]. cbn [fst snd] in Hs.
  intros E. injection E as <- <- <-. destruct (Hs c eq_refl) as (? & ? & ? & L1 & L2 & Es & Er & ? & ? & ?).
  exists (cmd_start c), (cmd_release c), (release_correlation c). split.
  - constructor; cbn; try done; lia.
  - constructor; cbn [fst snd budget ticks outcome started releases receipt_prepared commands delivery]; try done.
    + intros _. exists 2. split_and!; [lia|done|]. eapply undisturbed_later; [exact Hu|]. eapply Qle_trans; apply Hmono.
    + constructor; cbn; [done|done|intros p Hp; set_solver|split; [lia|done]].
Qed.

(** ** Properties *)

(** The account and the clock a gesture is scheduled on. *)
Record admissible (clock : nat → Q) (node : CertifiedNode) (d : draws) (w : world) : Prop := {
  ad_clock : ∀ n, (clock n <= clock (S n))%Q;
  ad_key : length (session_key node) = 32%nat;
  ad_draws : draws_ok d;
  ad_budget : reachable (budget w);
  ad_last : (_last (_traffic (budget w)) <= clock (ticks w))%Q;
  ad_sequences : 0 < _generation (sequences w) ∧ 0 ≤ _next (sequences w)
}.

(** C30: the PTZ codec.  A request reaches the device as the START or RELEASE
    of a known direction it was built from; parsing a datagram never raises;
    and every reply that carries an application result is one the receipt
    builder accepts, the receipt going back to its sender with its message
    identifier. *)
Theorem ptz_codec loads node access_id device_id direction dir pressed sequence message_id request_id random plain :
  length (session_key node) = 32%nat → 0 ≤ access_id < 2 ^ 64 → 0 ≤ device_id < 2 ^ 64 → 0 ≤ request_id < 2 ^ 32 →
  direction_code direction = Some dir → bytes_ok plain →
  (∃ w, build_ptz_request node access_id device_id direction pressed sequence message_id request_id random = Ok w ∧
     session_frame node 0xB9 (Z.land sequence 0xFFFFFFFF) (GuteFrame.randomized_flags random 2 1 0)
       (digits 256 4 2 ++ digits 256 8 device_id ++ digits 256 8 access_id ++ digits 256 4 (Z.land message_id 0x7FFFFFFF) ++
        digits 256 2 49 ++ [0; 0] ++ request_payload dir pressed request_id) w) ∧
  ∃ r, parse_ptz_reply loads plain node access_id device_id sequence message_id request_id = Ok r ∧
    ∀ reply e, r = Some reply → error_code reply = Some e →
      ∃ w, build_ptz_receipt plain node sequence random = Ok w ∧
        session_frame node 0xBA (Z.land sequence 0xFFFFFFFF) (GuteFrame.randomized_flags random 2 1 0)
          (zeros 4 ++ slice 0x24 0x2C plain ++ slice 0x1C 0x24 plain ++ slice 0x2C 0x30 plain ++ zeros 4) w.
Proof.
  intros Hk Ha Hd Hr Edir Hb. split.
  - destruct (build_request_ok node Hk access_id device_id Ha Hd direction dir pressed sequence message_id request_id random Edir Hr)
      as (w & Ew & Ho & _). by exists w.
  - destruct (parse_reply_spec loads node plain Hb access_id device_id sequence message_id request_id) as (r & Er & Hspec).
    exists r. split; [done|]. intros reply e E1 E2. destruct (Hspec reply e E1 E2) as [(Hl & H1 & H0 & Hs & Hf & _) _].
    destruct (build_receipt_ok node Hk plain sequence random Hb Hl H1 H0 Hs Hf) as (w & Ew & Ho & _). by exists w.
Qed.

Lemma ptz_codec_witness : ∃ w, build_ptz_request sample_node 5 9 "left" true 3 4 7 1 = Ok w ∧
  session_frame sample_node 0xB9 3 (GuteFrame.randomized_flags 1 2 1 0)
    (digits 256 4 2 ++ digits 256 8 9 ++ digits 256 8 5 ++ digits 256 4 4 ++ digits 256 2 49 ++ [0; 0] ++ request_payload 0 true 7) w.
Proof.
  destruct (ptz_codec (λ _, None) sample_node 5 9 "left" 0 true 3 4 7 1 []) as [H _];
    [reflexivity|lia|lia|lia|reflexivity|constructor|exact H].
Defined.

(** C1: one gesture moves once.  In every history of polls, received
    datagrams, cancellations, failed sends and other use of the account, START
    is handed out at most once and before anything else, RELEASE at most three
    times and always the same datagram, receipts at most twice; while the
    gesture runs its reserve still holds a packet for each RELEASE not yet
    used. *)
Theorem gesture_safety loads clock node generation access_id device_id direction reviewed duration d w w' cfg j actions :
  admissible clock node d w →
  schedule clock node generation access_id device_id direction reviewed duration d w = (w', Ok (cfg, j)) →
  Forall (action_ok cfg) actions →
  let '(s, out) := run loads clock cfg actions (w', j) in
  (out = [] ∨ ∃ first rest, out = first :: rest ∧ kind first = KStart ∧ count KStart rest = 0%nat) ∧
  (count KRelease out ≤ 3)%nat ∧ (count KReceipt out ≤ 2)%nat ∧
  (∀ p q, p ∈ out → q ∈ out → kind p = KRelease → kind q = KRelease → wire p = wire q) ∧
  covered (budget s.1) ∧
  (outcome s.2 = None → ∃ sl, active (_ptz (budget s.1)) (c_reserve cfg) = Some sl ∧
     slot "release" sl = Some (3 - Z.of_nat (count KRelease out))).
Proof.
  intros [Hm Hk Hd Hb Hl [Hg Hn]] Es Ha.
  destruct (schedule_inv clock node generation access_id device_id direction reviewed duration d w w' cfg j Hm Hk Hd
    (reachable_covered _ Hb) Hl Hg Hn Es) as (ws & wr & corr & Hcfg & Hi).
  pose proof (run_inv loads clock Hm cfg ws wr corr Hcfg actions [] _ Hi Ha) as H.
  destruct (run loads clock cfg actions (w', j)) as [s out]. rewrite app_nil_l in H.
  destruct H as [Hc Hh _ (Hr & _ & _) [L1 L2 L3 [L4 _]]]. split_and!; [|lia|done| |done|].
  - destruct (started s.2); [|by left]. destruct L1 as (rest & -> & Hz). right. by eexists _, rest.
  - intros p q Hp Hq Ep Eq. by rewrite (L3 p), (L3 q).
  - intros Ho. destruct (Hh Ho) as (r & _ & _ & Hu & _). eexists. split; [done|]. rewrite L2. done.
Qed.

Definition sample_clock (n : nat) : Q := Z.of_nat n # 20.
Definition sample_draws : draws := mkDraws 1 2 3 4 5 6.
Definition sample_world : world :=
  mkWorld (match account_output_budget None None FINITE (Some 0%Q) 1 with
           | Ok b => b
           | Raise _ => mkAccount (mkTraffic 0 0 0 0 FINITE 0 0) None ∅ 0 None 0
           end) (mkSequences (session_id sample_node) 1 10 false) 0.
Definition sample_schedule : world * result (config * job) :=
  schedule sample_clock sample_node 1 5 9 "left" {["left"]} (2 # 10) sample_draws sample_world.
Definition sample_config : config :=
  match sample_schedule.2 with
  | Ok (c, _) => c
  | Raise _ => mkConfig sample_node 0 0 0 0 0 0
  end.
Definition sample_job : job :=
  match sample_schedule.2 with
  | Ok (_, j) => j
  | Raise _ => mkJob (mkCommands (mkCorrelation 0 0 0) 0 0 0 [] [] false false 0) false false false false 0 0 0 0 None None None
  end.
Definition sample_actions : list action := Poll :: Elsewhere (Charge None 100) :: SendFailed :: replicate 40 Poll.

Lemma sample_clock_monotone n : (sample_clock n <= sample_clock (S n))%Q.
Proof. unfold sample_clock, Qle. cbn [Qnum Qden]. lia. Qed.

Lemma sample_admissible : admissible sample_clock sample_node sample_draws sample_world.
Proof.
  constructor.
  - exact sample_clock_monotone.
  - reflexivity.
  - unfold draws_ok. simpl. lia.
  - apply (reachable_new None None FINITE (Some 0%Q) 1). reflexivity.
  - vm_compute. discriminate.
  - simpl. lia.
Qed.

Lemma sample_schedule_ok : sample_schedule = (sample_schedule.1, Ok (sample_config, sample_job)).
Proof. unfold sample_config, sample_job. vm_compute. reflexivity. Qed.

Lemma gesture_safety_witness :
  kind <$> (run (λ _, None) sample_clock sample_config sample_actions (sample_schedule.1, sample_job)).2 =
    [KStart; KRelease; KRelease; KRelease] ∧
  let '(_, out) := run (λ _, None) sample_clock sample_config sample_actions (sample_schedule.1, sample_job) in
  (count KRelease out ≤ 3)%nat.
Proof.
  split; [vm_compute; reflexivity|].
  pose proof (gesture_safety (λ _, None) sample_clock sample_node 1 5 9 "left" {["left"]} (2 # 10) sample_draws sample_world
    sample_schedule.1 sample_config sample_job sample_actions sample_admissible sample_schedule_ok) as H.
  destruct (run (λ _, None) sample_clock sample_config sample_actions (sample_schedule.1, sample_job)) as [s out].
  apply H. repeat constructor.
Defined.

(** C18: a gesture never gets stuck.  From every state of every history a
    received datagram is processed without an exception, and a poll raises
    nothing but the refusal of a release tracker when two successive readings of
    the clock were two seconds apart, which leaves the gesture to the next poll.
    A poll that hands nothing out has ended the gesture or waits for a time
    already fixed: the end of the motion, or the deadline of the release. *)
Theorem gesture_progress loads clock node generation access_id device_id direction reviewed duration d w w' cfg j actions
    plain peer gen random :
  admissible clock node d w →
  schedule clock node generation access_id device_id direction reviewed duration d w = (w', Ok (cfg, j)) →
  Forall (action_ok cfg) actions → bytes_ok plain →
  let '(s, _) := run loads clock cfg actions (w', j) in
  (∃ out, (observe loads clock cfg plain peer gen random s).2 = Ok out) ∧
  match next_packet clock cfg s with
  | (_, Ok (Some _)) => True
  | (s', Ok None) =>
      is_Some (outcome s'.2) ∨
      (started s'.2 = true ∧ delivery s'.2 = None ∧ (clock (ticks s.1) < move_until s'.2)%Q) ∨
      (started s'.2 = true ∧ delivery s'.2 ≠ None ∧ (clock (ticks s.1) < release_until s'.2)%Q)
  | (_, Raise e) => e = ValueError "invalid release observation lifetime" ∧ ∃ n, (clock n + 2 <= clock (S n))%Q
  end.
Proof.
  intros [Hm Hk Hd Hb Hl [Hg Hn]] Es Ha Hp.
  destruct (schedule_inv clock node generation access_id device_id direction reviewed duration d w w' cfg j Hm Hk Hd
    (reachable_covered _ Hb) Hl Hg Hn Es) as (ws & wr & corr & Hcfg & Hi).
  pose proof (run_inv loads clock Hm cfg ws wr corr Hcfg actions [] _ Hi Ha) as H.
  destruct (run loads clock cfg actions (w', j)) as [s out]. rewrite app_nil_l in H. split.
  - pose proof (observe_spec loads clock Hm cfg ws wr corr Hcfg plain peer gen random out s H Hp) as Ho. unfold wp in Ho.
    destruct Ho as (o & Eo & _). by exists o.
  - pose proof (next_packet_spec clock Hm cfg ws wr corr Hcfg out s H) as Hs. unfold wp in Hs.
    destruct (next_packet clock cfg s) as [s' [[p|]|e]]; cbn [fst snd] in Hs; [done|by apply Hs|].
    destruct Hs as (_ & He). exact He.
Qed.

Lemma gesture_progress_witness :
  let '(s, _) := run (λ _, None) sample_clock sample_config [Poll; Cancel; Poll] (sample_schedule.1, sample_job) in
  ∃ out, (observe (λ _, None) sample_clock sample_config (zeros 60) ([], 0) 1 0 s).2 = Ok out.
Proof.
  pose proof (gesture_progress (λ _, None) sample_clock sample_node 1 5 9 "left" {["left"]} (2 # 10) sample_draws sample_world
    sample_schedule.1 sample_config sample_job [Poll; Cancel; Poll] (zeros 60) ([], 0) 1 0 sample_admissible sample_schedule_ok) as H.
  destruct (run (λ _, None) sample_clock sample_config [Poll; Cancel; Poll] (sample_schedule.1, sample_job)) as [s out].
  apply H; [repeat constructor|bytes_concrete].
Defined.

End Ptz.
