(* ===== verification/BrokerAccount.v ===== *)
(** * The broker account

    Models p2p [broker_account.py]: the one owner of an authenticated broker
    session.  It composes the read and heartbeat waiters of [Broker] over one
    sequence namespace with an input budget, a lifetime, draining and a final
    retirement.

    The jobs an account drives besides (the PTZ gesture, the siren pulse, the
    media routes) are seen through the interface [Jobs]: what the account reads
    of them, and the two methods it calls on them.  Times are integers in
    milliseconds, read from an arbitrary clock; [None] is the infinite
    deadline. *)

From Stdlib Require Import ZArith QArith Lia.
From S2P Require Import Prelude GuteFrame Account AccessFrames Broker Ptz.
#[local] Open Scope Z_scope.

Module BrokerAccount.
Import Account(BrokerSequences, broker_sequences, AccountPolicy(..), TrafficBudget, traffic_budget, traffic_charge, is_none).
Import AccessFrames(CertifiedNode, endpoint).
Import Broker.

Inductive Retirement : Type := Closed | Transport | Lifetime | HeartbeatTimeout | InputBudget | Drained | DrainTimeout | Prepared.

(** The jobs of an account: [_ptz] and its result, [_siren], [_media]. *)
Class Jobs (J : Type) := {
  motion_cleanup_pending : J → bool;
  (** the last gesture started and its release is not confirmed *)
  release_unconfirmed : J → bool;
  siren_cleanup_pending : J → bool;
  media_cleanup_pending : J → bool;
  media_release_uncertain : J → bool;
  (** [self._ptz.cancel()], then [self._media.cancel_all()] *)
  cancel_jobs : J → J;
  (** [self._media.observe(...)] *)
  observe : bytes → endpoint → Z → M (J * nat) unit
}.

(** What the account relies on: watching a frame that was decrypted does not
    fail. *)
Class JobsLaws (J : Type) `{JobsJ : Jobs J} : Prop :=
  observe_returns plain peer generation (j : J) : sealable plain → ends (observe plain peer generation) (λ r _, r = Ok tt) j.

Record AccountRead := mkAccountRead { ar_request : ReadRequest; ar_wire : bytes }.
Record AccountEvents := mkEvents {
  reads : list ReadCompletion; heartbeats : list HeartbeatCompletion; outgoing : list bytes; retired : option Retirement
}.
Definition no_events : AccountEvents := mkEvents [] [] [] None.

Section Account.
Context {J : Type} `{JobsJ : Jobs J}.

Record BrokerAccount := mkAccount {
  a_input : TrafficBudget; a_reads : BrokerReads; a_heartbeat : BrokerHeartbeat; a_node : option CertifiedNode;
  a_generation : Z; a_local : bytes * Z; a_deadline : option Z; a_next_heartbeat : Z;
  a_drain_deadline : option Z; a_reason : option Retirement; a_jobs : J
}.

Definition put_waiters (w : waiters) a := mkAccount (a_input a) w.1 w.2 (a_node a) (a_generation a) (a_local a) (a_deadline a)
  (a_next_heartbeat a) (a_drain_deadline a) (a_reason a) (a_jobs a).
Definition put_input t a := mkAccount t (a_reads a) (a_heartbeat a) (a_node a) (a_generation a) (a_local a) (a_deadline a)
  (a_next_heartbeat a) (a_drain_deadline a) (a_reason a) (a_jobs a).
Definition put_jobs j a := mkAccount (a_input a) (a_reads a) (a_heartbeat a) (a_node a) (a_generation a) (a_local a) (a_deadline a)
  (a_next_heartbeat a) (a_drain_deadline a) (a_reason a) j.
Definition put_next_heartbeat t a := mkAccount (a_input a) (a_reads a) (a_heartbeat a) (a_node a) (a_generation a) (a_local a) (a_deadline a)
  t (a_drain_deadline a) (a_reason a) (a_jobs a).
Definition put_drain d a := mkAccount (a_input a) (a_reads a) (a_heartbeat a) (a_node a) (a_generation a) (a_local a) (a_deadline a)
  (a_next_heartbeat a) d (a_reason a) (a_jobs a).
Definition put_reason r a := mkAccount (a_input a) (a_reads a) (a_heartbeat a) (a_node a) (a_generation a) (a_local a) (a_deadline a)
  (a_next_heartbeat a) (a_drain_deadline a) r (a_jobs a).
Definition clear_node a := mkAccount (a_input a) (a_reads a) (a_heartbeat a) None (a_generation a) (a_local a) (a_deadline a)
  (a_next_heartbeat a) (a_drain_deadline a) (a_reason a) (a_jobs a).

(** A reading of the clock as the input budget takes it. *)
Definition seconds (t : Z) : option Q := Some (t # 1000).

(** The clock is read by the budget, then by the account. *)
Definition broker_account (node : CertifiedNode) (generation : Z) (local : bytes * Z) (policy : AccountPolicy) (jobs : J) (t0 t1 : Z) :
    result (BrokerSequences * BrokerAccount) :=
  input ← traffic_budget 512 (1024 * 1024) policy (seconds t0) 1;
  s ← broker_waiters (AccessFrames.session_id node) generation (AccessFrames.next_sequence node);
  let deadline := match policy with FINITE => Some (t1 + 120000) | CONTINUOUS => None end in
  Ok (s.1, mkAccount input s.2.1 s.2.2 (Some node) generation local deadline (t1 + 50000) None None jobs).

Inductive account_state := Active | Draining | Retired.
Definition state_of (a : BrokerAccount) : account_state :=
  match a_reason a, a_drain_deadline a with Some _, _ => Retired | None, Some _ => Draining | None, None => Active end.
Definition is_active (a : BrokerAccount) : bool := match state_of a with Active => true | _ => false end.

(** [t >= self._deadline], for a deadline that may be infinite. *)
Definition reached (t : Z) (deadline : option Z) : bool := match deadline with Some d => d <=? t | None => false end.
(** [self._deadline - t < span] *)
Definition closer (t : Z) (deadline : option Z) (span : Z) : bool := match deadline with Some d => d - t <? span | None => false end.

#[local] Abbreviation T := (M (owned BrokerAccount)).

(** The owned objects. *)
Definition to_waiters {A} (m : M (owned waiters) A) : T A := within (λ a, (a_reads a, a_heartbeat a)) put_waiters m.
Definition to_reads {A} (m : M (owned BrokerReads) A) : T A := to_waiters (in_reads m).
Definition to_heart {A} (m : M (owned BrokerHeartbeat) A) : T A := to_waiters (in_heart m).
Definition to_jobs {A} (m : M (owned J) A) : T A := within a_jobs put_jobs m.
Definition to_input {A} (m : M TrafficBudget A) : T A := on (λ s, a_input s.2) (λ t s, (s.1, put_input t s.2)) (timeless m).

(** The result of a call, its exception caught. *)
Definition attempt {S A} (m : M S A) : M S (result A) := λ s, let '(s, r) := m s in (s, Ok r).

Section Clock.
Context (clock : nat → Z) (loads : bytes → decoded).
#[local] Notation now := (now clock).

Definition retire (reason : Retirement) : T AccountEvents :=
  a ← own;
  match a_reason a with
  | Some r => mret (mkEvents [] [] [] (Some r))
  | None =>
      _ ← set_own (λ a, put_jobs (cancel_jobs (a_jobs a)) a);
      _ ← set_own (put_reason (Some reason));
      _ ← namespace Account.close;
      reads ← to_reads close_reads;
      heartbeat ← to_heart close_heartbeat;
      _ ← set_own clear_node;
      mret (mkEvents reads (option_list heartbeat) [] (Some reason))
  end.

(** The constructor of a job, [start], runs once the account admits it. *)
Definition prepare_media {A} (start : M (owned J) A) : T A :=
  a ← own;
  busy ← (if negb (is_active a) then mret true else t ← now; mret (closer t (a_deadline a) 6000));
  _ ← check busy (ValueError "account not accepting media route");
  to_jobs start.

Definition prepare_ptz {A} (start : M (owned J) A) : T A :=
  a ← own;
  busy ← (if negb (is_active a) then mret true else t ← now;
          mret (closer t (a_deadline a) 4000 || motion_cleanup_pending (a_jobs a) || media_release_uncertain (a_jobs a)
                || siren_cleanup_pending (a_jobs a)));
  _ ← check busy (ValueError "account not accepting PTZ");
  match release_unconfirmed (a_jobs a) with
  | true => _ ← retire Transport; raise (ValueError "previous PTZ release unconfirmed")
  | false => to_jobs start
  end.

(** [deadline > self._deadline] *)
Definition later (deadline : Z) (a : BrokerAccount) : bool := match a_deadline a with Some d => d <? deadline | None => false end.
Definition gone (a : BrokerAccount) : bool := negb (is_active a) || media_release_uncertain (a_jobs a) || is_none (a_node a).

Definition prepare_siren_pulse {A} (span : Z) (start : M (owned J) A) : T A :=
  a ← own;
  busy ← (if gone a || siren_cleanup_pending (a_jobs a) || motion_cleanup_pending (a_jobs a) then mret true
          else t ← now; mret (closer t (a_deadline a) (span + 4000) || release_unconfirmed (a_jobs a)));
  _ ← check busy (ValueError "account not accepting siren pulse");
  to_jobs start.

Definition prepare_catalog_read {A} (deadline : Z) (start : M (owned J) A) : T A :=
  a ← own;
  _ ← check (gone a || later deadline a || motion_cleanup_pending (a_jobs a)) (ValueError "account not accepting catalogue reads");
  to_jobs start.

Definition prepare_lamp_read {A} (deadline : Z) (start : M (owned J) A) : T A :=
  a ← own;
  _ ← check (gone a || later deadline a || release_unconfirmed (a_jobs a)) (ValueError "account not accepting lamp-state reads");
  to_jobs start.

Definition prepare_control_write {A} (deadline : Z) (start : M (owned J) A) : T A :=
  a ← own;
  _ ← check (gone a || later deadline a || motion_cleanup_pending (a_jobs a) || release_unconfirmed (a_jobs a))
        (ValueError "account not accepting volume changes");
  to_jobs start.

Definition prepare_lamp_write {A} (deadline : Z) (start : M (owned J) A) : T A :=
  a ← own;
  _ ← check (gone a || later deadline a || motion_cleanup_pending (a_jobs a) || release_unconfirmed (a_jobs a))
        (ValueError "account not accepting lamp changes");
  to_jobs start.

(** [random] and [message_id] are the draws of the frame. *)
Definition submit_read (device_id : Z) (path : string) (timeout message_id random : Z) : T AccountRead :=
  a ← own;
  refused ← (if negb (is_active a) then mret true else t ← now;
             mret (reached t (a_deadline a) || media_release_uncertain (a_jobs a) || release_unconfirmed (a_jobs a)));
  _ ← check refused (ValueError "account not accepting reads; poll for terminal events");
  t ← now;
  _ ← check (closer t (a_deadline a) timeout) (ValueError "read exceeds account lifetime");
  request ← to_reads (register_read clock device_id path timeout);
  match a_node a with
  | None => raise (RuntimeError "assertion failed")
  | Some node =>
      wire ← attempt (lift (build_model_read node device_id path (t_sequence (q_ticket request)) message_id random));
      match wire with
      | Ok wire => mret (mkAccountRead request wire)
      | Raise e => _ ← to_reads (cancel_read (q_ticket request)); raise e
      end
  end.

Definition account_cancel_read (ticket : ReceiptTicket) : T (option ReadCompletion) := to_reads (cancel_read ticket).

(** Whether nothing is outstanding. *)
Definition idle (a : BrokerAccount) : bool :=
  (len (b_pending (a_reads a)) =? 0) && is_none (h_pending (a_heartbeat a)) && negb (motion_cleanup_pending (a_jobs a))
  && negb (media_cleanup_pending (a_jobs a)).

Definition _expire : T AccountEvents :=
  a ← own;
  match a_reason a with
  | Some r => mret (mkEvents [] [] [] (Some r))
  | None =>
      match media_release_uncertain (a_jobs a) || release_unconfirmed (a_jobs a) with
      | true => retire Transport
      | false =>
          t ← now;
          match reached t (a_deadline a) with
          | true => retire Lifetime
          | false =>
              reads_ended ← to_reads (poll_reads clock);
              heartbeat ← to_heart (poll_heartbeat clock);
              match heartbeat with
              | Some heartbeat =>
                  tail ← retire HeartbeatTimeout;
                  mret (mkEvents (reads_ended ++ reads tail) [heartbeat] [] (retired tail))
              | None =>
                  a ← own;
                  match a_drain_deadline a with
                  | None => mret (mkEvents reads_ended [] [] None)
                  | Some deadline =>
                      over ← (if idle a then mret true else t ← now; mret (deadline <=? t));
                      match over with
                      | true =>
                          tail ← retire (if idle a then Drained else DrainTimeout);
                          mret (mkEvents (reads_ended ++ reads tail) (heartbeats tail) [] (retired tail))
                      | false => mret (mkEvents reads_ended [] [] None)
                      end
                  end
              end
          end
      end
  end.

(** [random] is the draw of the heartbeat's flags. *)
Definition tick (random : Z) : T AccountEvents :=
  events ← _expire;
  a ← own;
  quiet ← (if negb (is_active a) || negb (is_none (h_pending (a_heartbeat a))) then mret true
           else t ← now; mret (t <? a_next_heartbeat a));
  match quiet with
  | true => mret events
  | false =>
      match a_node a with
      | None => raise (RuntimeError "assertion failed")
      | Some node =>
          prepared ← attempt (to_heart (prepare clock node (a_local a).1 (a_local a).2 2000 random));
          match prepared with
          | Ok prepared => mret (mkEvents (reads events) [] [prepared.2] None)
          | Raise _ =>
              tail ← retire Prepared;
              mret (mkEvents (reads events ++ reads tail) (heartbeats tail) [] (retired tail))
          end
      end
  end.

(** The charge of a frame, which refuses an oversized one. *)
Definition charge_input (size : Z) : T unit :=
  _ ← check (4096 <? size) (ValueError "oversized broker frame");
  t ← now;
  to_input (traffic_charge (seconds t) size 0).

Definition receive (plain : bytes) (peer : endpoint) (generation : Z) : T AccountEvents :=
  events ← _expire;
  a ← own;
  match a_node a with
  | None => mret events
  | Some node =>
      charged ← attempt (charge_input (len plain));
      match charged with
      | Raise (ValueError _) =>
          tail ← retire InputBudget;
          mret (mkEvents (reads events ++ reads tail) (heartbeats tail) [] (retired tail))
      | Raise e => raise e
      | Ok _ =>
          if negb (bool_decide (peer = AccessFrames.address node)) || negb (generation =? a_generation a) then mret events else
          _ ← to_jobs (on snd (λ j s, (s.1, j)) (observe plain peer generation));
          read ← to_reads (accept_read clock loads plain generation);
          heartbeat ← to_heart (accept_heartbeat clock plain generation);
          _ ← (if heartbeat then t ← now; set_own (λ a, put_next_heartbeat (t + cadence_seconds (a_heartbeat a) * 1000) a) else mret tt);
          mret (mkEvents (reads events ++ option_list read) (option_list heartbeat) [] None)
      end
  end.

Definition drain : T AccountEvents :=
  a ← own;
  _ ← (if is_active a then
         t ← now;
         _ ← set_own (put_drain (Some (t + 2000)));
         set_own (λ a, put_jobs (cancel_jobs (a_jobs a)) a)
       else mret tt);
  _expire.
End Clock.

(** ** What a call does to the requests *)

(** What an account waits for: the reply of a read, or of a heartbeat. *)
Inductive awaiting : Type := ReadOf (r : ReadRequest) | BeatOf (ticket : ReceiptTicket).
Definition ticket_in (p : awaiting) : ReceiptTicket := match p with ReadOf r => q_ticket r | BeatOf t => t end.
Definition number (p : awaiting) : Z := t_sequence (ticket_in p).

Definition awaited (b : BrokerReads) (h : BrokerHeartbeat) : list awaiting := (ReadOf <$> requests b) ++ (BeatOf <$> beats h).
Definition outstanding (s : BrokerSequences * BrokerAccount) : list awaiting := awaited (a_reads s.2) (a_heartbeat s.2).
Definition of_reads (cs : list ReadCompletion) : list awaiting := ReadOf <$> (c_request <$> cs).
Definition of_beats (cs : list HeartbeatCompletion) : list awaiting := BeatOf <$> (beat_ticket <$> cs).
Definition ended_of (e : AccountEvents) : list awaiting := of_reads (reads e) ++ of_beats (heartbeats e).

Lemma outstanding_read s r : ReadOf r ∈ outstanding s ↔ r ∈ requests (a_reads s.2).
Proof using.
  unfold outstanding, awaited. rewrite elem_of_app, !list_elem_of_fmap. split.
  - intros [(? & [= ->] & ?)|(? & [=] & _)]. done.
  - intros Hr. left. by exists r.
Qed.

Record account_ok (g : Z) (s : BrokerSequences * BrokerAccount) : Prop := {
  ac_wait : wait_ok g (s.1, (a_reads s.2, a_heartbeat s.2));
  ac_generation : a_generation s.2 = g;
  ac_live : a_reason s.2 = None → is_Some (a_node s.2);
  ac_retired : a_reason s.2 ≠ None → a_node s.2 = None ∧ outstanding s = []
}.

(** A step opens the requests [o], numbered anew, and ends the requests [e]. *)
Record step_ok (g : Z) (s s' : BrokerSequences * BrokerAccount) (o e : list awaiting) : Prop := {
  st_ok : account_ok g s';
  st_next : Account._next s.1 ≤ Account._next s'.1;
  st_reason r : a_reason s.2 = Some r → a_reason s'.2 = Some r;
  st_drain d : a_drain_deadline s.2 = Some d → a_drain_deadline s'.2 = Some d;
  st_deadline : a_deadline s'.2 = a_deadline s.2;
  st_requests : outstanding s ++ o ≡ₚ e ++ outstanding s';
  st_fresh : Forall (λ p, t_generation (ticket_in p) = g ∧ Account._next s.1 ≤ number p < Account._next s'.1) o;
  st_distinct : NoDup (number <$> o)
}.

Lemma step_refl g s : account_ok g s → step_ok g s s [] [].
Proof using. intros H. split; try done; [by rewrite app_nil_r|apply NoDup_nil_2]. Qed.

Lemma step_trans g s1 s2 s3 o1 e1 o2 e2 : step_ok g s1 s2 o1 e1 → step_ok g s2 s3 o2 e2 → step_ok g s1 s3 (o1 ++ o2) (e1 ++ e2).
Proof using.
  intros [A1 A2 A3 A4 A8 A5 A6 A7] [B1 B2 B3 B4 B8 B5 B6 B7]. split; auto; [lia|congruence| | |].
  - rewrite app_assoc, A5, <-app_assoc, B5. by rewrite app_assoc.
  - apply Forall_app; split; eapply list.Forall_impl; try done; intros t (? & ? & ?); split_and!; try done; lia.
  - rewrite fmap_app. apply NoDup_app. split_and!; [done| |done]. intros k (t & -> & Ht)%list_elem_of_fmap (t' & E & Ht')%list_elem_of_fmap.
    rewrite Forall_forall in A6, B6. apply A6 in Ht as [_ ?]. apply B6 in Ht' as [_ ?]. lia.
Qed.

(** ** Calls of the parts *)

Lemma ends_to_waiters {A} (m : M (owned waiters) A) (P : result A → BrokerSequences * BrokerAccount → Prop) q a :
  ends m (λ r y, P r (y.1, put_waiters y.2 a)) (q, (a_reads a, a_heartbeat a)) → ends (to_waiters m) P (q, a).
Proof using. intros Hm. unfold to_waiters. by apply ends_within. Qed.

Lemma ends_to_reads {A} (m : M (owned BrokerReads) A) (P : result A → BrokerSequences * BrokerAccount → Prop) q a :
  ends m (λ r y, P r (y.1, put_waiters (y.2, a_heartbeat a) a)) (q, a_reads a) → ends (to_reads m) P (q, a).
Proof using. intros Hm. by apply ends_to_waiters, ends_in_reads. Qed.

Lemma ends_to_heart {A} (m : M (owned BrokerHeartbeat) A) (P : result A → BrokerSequences * BrokerAccount → Prop) q a :
  ends m (λ r y, P r (y.1, put_waiters (a_reads a, y.2) a)) (q, a_heartbeat a) → ends (to_heart m) P (q, a).
Proof using. intros Hm. by apply ends_to_waiters, ends_in_heart. Qed.

Lemma charge_raises now size reserved t : wp (traffic_charge now size reserved) (λ r _, r = Ok tt ∨ ∃ msg, r = Raise (ValueError msg)) t.
Proof using.
  unfold traffic_charge, Account.available. repeat wp_step; try (by left); right; by eexists.
Qed.

Lemma ends_attempt {X A} (m : M (X * nat) A) (P : result (result A) → X → Prop) x : ends m (λ r x, P (Ok r) x) x → ends (attempt m) P x.
Proof using. intros Hm n. specialize (Hm n). unfold wp, attempt in *. by destruct (m (x, n)). Qed.

(** A call whose result is wrapped. *)
Lemma ends_wrapped {X A B} (m : M (X * nat) A) (f : A → B) (P : result B → X → Prop) x :
  ends (a ← m; mret (f a)) P x → ends m (λ r x, match r with Ok a => P (Ok (f a)) x | Raise e => P (Raise e) x end) x.
Proof using. intros Hm n. specialize (Hm n). unfold wp, mbind, M_bind in *. by destruct (m (x, n)) as [[y n'] [a|e]]. Qed.

(** A call of the waiters of an account that stays in service. *)
Lemma waiters_step g q a q' b' h' o e : account_ok g (q, a) → a_reason a = None →
  wait_ok g (q', (b', h')) → Account._next q ≤ Account._next q' → awaited (a_reads a) (a_heartbeat a) ++ o ≡ₚ e ++ awaited b' h' →
  Forall (λ p, t_generation (ticket_in p) = g ∧ Account._next q ≤ number p < Account._next q') o → NoDup (number <$> o) →
  step_ok g (q, a) (q', put_waiters (b', h') a) o e.
Proof using. intros [H1 H2 H3 H4] Hr Hw Hq Hp Hf Hd. by split. Qed.

Lemma reads_step g q a b' cs : account_ok g (q, a) → a_reason a = None → reads_ok q b' → same_owner (a_reads a) b' →
  requests (a_reads a) ≡ₚ (c_request <$> cs) ++ requests b' → step_ok g (q, a) (q, put_waiters (b', a_heartbeat a) a) [] (of_reads cs).
Proof using.
  intros H Hr Hb Hs Hp. pose proof (ac_wait _ _ H) as Hw. pose proof (wk_next _ _ Hw) as Hn. cbn [fst snd] in *.
  apply waiters_step; try done; [|by rewrite app_nil_r; unfold awaited, of_reads; rewrite Hp, fmap_app, app_assoc|apply NoDup_nil_2].
  apply (keep_reads g q _ _ Hw); [done|lia|apply Hs].
Qed.

Lemma beat_step g q a h' cs : account_ok g (q, a) → a_reason a = None → heart_ok q h' → h_generation h' = h_generation (a_heartbeat a) →
  beats (a_heartbeat a) ≡ₚ (beat_ticket <$> cs) ++ beats h' → step_ok g (q, a) (q, put_waiters (a_reads a, h') a) [] (of_beats cs).
Proof using.
  intros H Hr Hh Hs Hp. pose proof (ac_wait _ _ H) as Hw. pose proof (wk_next _ _ Hw) as Hn. cbn [fst snd] in *.
  apply waiters_step; try done; [| |apply NoDup_nil_2].
  - apply (keep_heart g q _ _ Hw); [done|lia|done].
  - rewrite app_nil_r. unfold awaited, of_beats. rewrite Hp, fmap_app. solve_Permutation.
Qed.

(** One request is opened, with the next number. *)
Lemma open_step g q a b' h' p : account_ok g (q, a) → a_reason a = None → wait_ok g (taken q, (b', h')) →
  t_generation (ticket_in p) = g → number p = Account._next q → awaited b' h' ≡ₚ awaited (a_reads a) (a_heartbeat a) ++ [p] →
  step_ok g (q, a) (taken q, put_waiters (b', h') a) [p] [].
Proof using.
  intros H Hr Hw Hg Hn Hp. apply waiters_step; try done; [cbn; lia| |apply NoDup_singleton].
  constructor; [|done]. split; [done|]. cbn. lia.
Qed.

(** A call that changes no waiter. *)
Lemma other_step g q a a' : account_ok g (q, a) → a_reads a' = a_reads a → a_heartbeat a' = a_heartbeat a → a_generation a' = a_generation a →
  a_node a' = a_node a → a_reason a' = a_reason a → a_deadline a' = a_deadline a →
  (∀ d, a_drain_deadline a = Some d → a_drain_deadline a' = Some d) → step_ok g (q, a) (q, a') [] [].
Proof using.
  intros [H1 H2 H3 H4] E1 E2 E3 E4 E5 E6 E7. split; cbn in *; try done; rewrite ?E5; try done; [|by rewrite app_nil_r; unfold outstanding; cbn; rewrite E1, E2|apply NoDup_nil_2].
  split; unfold outstanding in *; cbn in *; rewrite ?E1, ?E2, ?E3, ?E4, ?E5; done.
Qed.

Section Calls.
Context (clock : nat → Z) (loads : bytes → decoded) (during : Z → Prop) (Hclock : ∀ i, during (clock i)).
Context (g : Z).

Lemma retire_ok reason q a : account_ok g (q, a) →
  ends (retire reason) (λ res s', ∃ e, res = Ok e ∧ step_ok g (q, a) s' [] (ended_of e) ∧ outgoing e = [] ∧
    retired e = a_reason s'.2 ∧ a_reason s'.2 = Some (default reason (a_reason a)) ∧
    (h_pending (a_heartbeat a) = None → heartbeats e = [])) (q, a).
Proof using Hclock.
  intros H. unfold retire. do 2 go. destruct (a_reason a) as [r|] eqn:Er.
  { go. eexists. split; [done|]. split; [by apply step_refl|]. cbn. by rewrite Er. }
  do 4 go. go. go. unfold Account.close. wp_step. go. apply ends_to_reads. cbn [a_reads a_heartbeat put_jobs put_reason].
  destruct H as [[W1 W2 W3 [W4 W5]] H2 H3 H4]. cbn [fst snd] in *.
  apply close_reads_ok; [apply (reads_ok_next q); [done|cbn; lia]|]. intros q' b' ps Hb' Hn Hp He Hc Hg _. cbn [fst snd].
  go. apply ends_to_heart. apply (close_heartbeat_ok clock during Hclock). intros h' Hh Hgh _. cbn [fst snd].
  do 3 go. cbn [ended_of outgoing retired]. eexists. split; [done|].
  split; [|split_and!; try done; cbn; unfold beats; by intros ->].
  cbn [a_reads a_heartbeat put_waiters put_reason put_jobs] in *. cbn in Hn.
  assert (awaited b' h' = []) as Hl by (unfold awaited, requests; by rewrite He, Hh).
  split; cbn [fst snd clear_node put_waiters put_reason put_jobs a_reads a_heartbeat a_reason a_generation a_node].
  - split; cbn; try done. split; cbn; [lia|done| |by rewrite Hg, Hgh]. unfold heart_ok. rewrite Hh. constructor.
  - lia.
  - intros r Hr. congruence.
  - done.
  - done.
  - match goal with |- _ ≡ₚ _ ++ ?x => change x with (awaited b' h') end.
    rewrite Hl, !app_nil_r. unfold outstanding, awaited, ended_of, of_reads. cbn [fst snd reads heartbeats].
    rewrite c_request_ended, Hp. f_equiv. unfold beats. by destruct (h_pending (a_heartbeat a)) as [[t d]|].
  - done.
  - apply NoDup_nil_2.
Qed.

Lemma poll_reads_step q a : account_ok g (q, a) → a_reason a = None →
  ends (to_reads (poll_reads clock)) (λ r s', ∃ cs b', r = Ok cs ∧ s'.2 = put_waiters (b', a_heartbeat a) a ∧ step_ok g (q, a) s' [] (of_reads cs)) (q, a).
Proof using Hclock.
  intros H Hr. apply ends_to_reads. pose proof (ac_wait _ _ H) as Hw. cbn [fst snd] in Hw.
  apply (poll_reads_ok clock during Hclock); [apply Hw|]. intros b' ps Hb' Hp Hs _ _. eexists _, _. split; [done|]. split; [done|].
  cbn [fst snd]. apply reads_step; try done. by rewrite c_request_ended.
Qed.

Lemma poll_heart_step q a : account_ok g (q, a) → a_reason a = None →
  ends (to_heart (poll_heartbeat clock)) (λ r s', ∃ c h', r = Ok c ∧ s'.2 = put_waiters (a_reads a, h') a ∧ step_ok g (q, a) s' [] (of_beats (option_list c)) ∧
    (c ≠ None → h_pending h' = None) ∧
    (∀ t d, h_pending (a_heartbeat a) = Some (t, d) → must_expire during d → c ≠ None)) (q, a).
Proof using Hclock.
  intros H Hr. apply ends_to_heart. pose proof (ac_wait _ _ H) as Hw. cbn [fst snd] in Hw.
  apply (poll_heartbeat_ok clock during Hclock).
  - intros Hp. exists None, (a_heartbeat a). split; [done|]. split; [done|]. split; [by apply other_step|]. split; [done|].
    intros t d E Hd. destruct (Hp t d E) as (x & Hx & ?). specialize (Hd x Hx). lia.
  - intros t d E _. exists (Some (mkBeat t Timeout None)), (set_beat None (a_heartbeat a)). split; [done|]. split; [done|]. split; [|done].
    apply (beat_step g q a _ [mkBeat t Timeout None]); try done; [by constructor|]. unfold beats. by rewrite E.
Qed.

(** The account must be retired by a call that looks at its deadlines. *)
Definition overdue (a : BrokerAccount) : Prop :=
  a_reason a ≠ None ∨ media_release_uncertain (a_jobs a) = true ∨ release_unconfirmed (a_jobs a) = true ∨
  (∃ d, (a_deadline a = Some d ∨ a_drain_deadline a = Some d) ∧ must_expire during d) ∨
  (∃ t d, h_pending (a_heartbeat a) = Some (t, d) ∧ must_expire during d).

(** What a call that reports its events does. *)
Definition reports (s : BrokerSequences * BrokerAccount) (res : result AccountEvents) (s' : BrokerSequences * BrokerAccount) : Prop :=
  ∃ e, res = Ok e ∧ step_ok g s s' [] (ended_of e) ∧ outgoing e = [] ∧ retired e = a_reason s'.2 ∧ (retired e = None → heartbeats e = []).

(** Events reported with those of a retirement. *)
Lemma reports_then q a q1 a1 reason cs bs k : account_ok g (q1, a1) →
  step_ok g (q, a) (q1, a1) [] (of_reads cs ++ of_beats bs) →
  (∀ e, (h_pending (a_heartbeat a1) = None → heartbeats e = []) → k e = mkEvents (cs ++ reads e) (bs ++ heartbeats e) [] (retired e)) →
  ends (tail ← retire reason; mret (k tail)) (λ res s', reports (q, a) res s' ∧ a_reason s'.2 ≠ None) (q1, a1).
Proof using Hclock.
  intros H1 Hs Hk. eapply ends_use; [by apply retire_ok|].
  intros r s' (e & -> & He & Ho & Hr & Hn & Hb). ends_step. split; [|by rewrite Hn]. rewrite (Hk e Hb). eexists. split; [done|]. split; [|split_and!; [done|done|cbn; congruence]].
  pose proof (step_trans _ _ _ _ _ _ _ _ Hs He) as Ht. cbn [app] in Ht. destruct Ht as [T1 T2 T3 T4 T5 T6 T7 T8]. split; try done.
  rewrite T6. unfold ended_of, of_reads, of_beats. cbn [reads heartbeats]. rewrite !fmap_app. solve_Permutation.
Qed.

Lemma expire_account_ok q a : account_ok g (q, a) →
  ends (_expire clock) (λ res s', reports (q, a) res s' ∧ (overdue a → a_reason s'.2 ≠ None)) (q, a).
Proof using Hclock.
  intros H. unfold _expire. do 2 go. destruct (a_reason a) as [r|] eqn:Er.
  { go. split; [|intros _; cbn; by rewrite Er]. eexists. split; [done|]. split; [by apply step_refl|]. split_and!; [done| |done]. cbn. by rewrite Er. }
  assert (∀ reason, ends (retire reason) (λ res s', reports (q, a) res s' ∧ (overdue a → a_reason s'.2 ≠ None)) (q, a)) as Hretire.
  { intros reason. eapply ends_mono; [by apply retire_ok|]. intros r s' (e & -> & He & Ho & Hr & Hn & Hb). split; [|by rewrite Hn].
    exists e. split_and!; try done. congruence. }
  destruct (_ || _) eqn:Eu; [apply Hretire|]. go. apply (ends_now_in clock during Hclock). intros t Ht. cbv beta iota.
  destruct (reached t (a_deadline a)) eqn:Ed; [apply Hretire|].
  eapply ends_use; [by apply poll_reads_step|]. intros r [q1 a1] (cs & b' & -> & E1 & S1). cbn in E1. subst a1.
  eapply ends_use; [apply poll_heart_step; [apply (st_ok _ _ _ _ _ S1)|done]|]. intros r [q2 a2] (c & h' & -> & E2 & S2 & Hnone & Hdue). cbn in E2. subst a2.
  pose proof (step_trans _ _ _ _ _ _ _ _ S1 S2) as S12. cbn [app] in S12. destruct c as [c|].
  { eapply ends_mono; [apply (reports_then q a _ _ _ cs [c]); [apply (st_ok _ _ _ _ _ S12)|exact S12|]|].
    - intros e ->; [done|]. by apply Hnone.
    - intros r s' [? ?]. by split. }
  assert (∀ d, a_deadline a = Some d → ¬ must_expire during d) as Hlife.
  { intros d E Hd. rewrite E in Ed. specialize (Hd t Ht). cbn in Ed. lia. }
  assert (a_drain_deadline a = None ∨ (∃ d, a_drain_deadline a = Some d ∧ ¬ must_expire during d) → ¬ overdue a) as Hover.
  { apply orb_false_iff in Eu as [Eu1 Eu2]. intros Hdr [?|[?|[?|[(d & [Hd|Hd] & Hx)|(t0 & d & Hp & Hx)]]]]; try congruence.
    - by eapply Hlife.
    - destruct Hdr as [Hn|(d' & Hd' & Hx')]; congruence.
    - by eapply Hdue. }
  set (a2 := put_waiters (b', h') _) in *.
  assert (¬ overdue a → ends (mret (mkEvents cs [] [] None)) (λ res s', reports (q, a) res s' ∧ (overdue a → a_reason s'.2 ≠ None)) (q2, a2)) as Hstay.
  { intros Hno. ends_step. split; [|done]. eexists. split; [done|]. split; [exact S12|]. split_and!; [done| |done]. cbn. by rewrite Er. }
  do 2 go. change (a_drain_deadline a2) with (a_drain_deadline a). destruct (a_drain_deadline a) as [d|] eqn:Edr; [|apply Hstay, Hover; by left].
  eapply ends_use.
  { apply (ends_mono _ (λ r s, s = (q2, a2) ∧ ∃ over, r = Ok over ∧ (over = false → ¬ must_expire during d))).
    - destruct (idle a2); [ends_step; split; [done|]; by exists true|]. go. apply (ends_now_in clock during Hclock). intros t' Ht'. ends_step.
      split; [done|]. eexists; split; [done|]. intros Hl Hx. specialize (Hx t' Ht'). lia.
    - intros r s Hs. exact Hs. }
  intros r s' (-> & over & -> & Hd). destruct over.
  - eapply ends_mono; [apply (reports_then q a _ _ _ cs []); [apply (st_ok _ _ _ _ _ S12)|exact S12|done]|].
    intros r s' [? ?]. by split.
  - apply Hstay, Hover. right. exists d. split; [done|]. by apply Hd.
Qed.

Lemma next_step q q' a : account_ok g (q, a) → Account._next q ≤ Account._next q' ≤ 2 ^ 32 → step_ok g (q, a) (q', a) [] [].
Proof using.
  intros [H1 H2 H3 H4] Hq. split; cbn in *; try done; [|lia|by rewrite app_nil_r|apply NoDup_nil_2].
  split; try done. cbn. apply (keep_heart g q _ _ H1); [|lia|done]. eapply heart_ok_next; [apply H1|cbn; lia].
Qed.

(** The heartbeat, if one was opened, is the frame to send. *)
Definition opens (a : BrokerAccount) (e : AccountEvents) : list awaiting := match outgoing e with [] => [] | _ => BeatOf <$> beats (a_heartbeat a) end.

Lemma tick_ok random q a : account_ok g (q, a) →
  ends (tick clock random) (λ res s', ∃ e, res = Ok e ∧ step_ok g (q, a) s' (opens s'.2 e) (ended_of e) ∧ retired e = a_reason s'.2 ∧
    (overdue a → a_reason s'.2 ≠ None) ∧ (outgoing e = [] ∨ is_active s'.2 = true ∧ len (outgoing e) = 1 ∧ heartbeats e = [])) (q, a).
Proof using Hclock.
  intros H. unfold tick. eapply ends_use; [by apply expire_account_ok|]. intros r [q1 a1] [(e & -> & S1 & Ho & Hr & Hh) Hover]. cbn [fst snd] in *.
  pose proof (st_ok _ _ _ _ _ S1) as H1. do 2 go.
  assert (ends (mret e) (λ res s', ∃ e, res = Ok e ∧ step_ok g (q, a) s' (opens s'.2 e) (ended_of e) ∧ retired e = a_reason s'.2 ∧
    (overdue a → a_reason s'.2 ≠ None) ∧ (outgoing e = [] ∨ is_active s'.2 = true ∧ len (outgoing e) = 1 ∧ heartbeats e = [])) (q1, a1)) as Hquiet.
  { ends_step. exists e. split; [done|]. unfold opens. rewrite Ho. split_and!; try done. by left. }
  eapply ends_use.
  { apply (ends_mono _ (λ r s, s = (q1, a1) ∧ ∃ quiet, r = Ok quiet ∧ (quiet = false → is_active a1 = true ∧ h_pending (a_heartbeat a1) = None))).
    - destruct (negb (is_active a1) || _) eqn:E; [ends_step; split; [done|]; by exists true|]. go. apply ends_now. intros t. ends_step.
      split; [done|]. eexists; split; [done|]. intros _. apply orb_false_iff in E as [E1%negb_false_iff E2%negb_false_iff].
      split; [done|]. by destruct (h_pending _).
    - intros r s Hs. exact Hs. }
  intros r s' (-> & quiet & -> & Hq). destruct quiet; [exact Hquiet|]. destruct (Hq eq_refl) as [Hact Hp].
  assert (a_reason a1 = None) as Er by (unfold is_active, state_of in Hact; by destruct (a_reason a1)).
  destruct (ac_live _ _ H1 Er) as [node En]. cbn in En. rewrite En.
  cbn [snd] in Hr. rewrite Er in Hr. specialize (Hh Hr). pose proof (ac_wait _ _ H1) as Hw. cbn [fst snd] in Hw.
  assert (ended_of e = of_reads (reads e) ++ of_beats []) as Ee by (unfold ended_of; by rewrite Hh).
  rewrite Ee in S1. go. apply ends_attempt, ends_to_heart. apply (prepare_ok clock during Hclock); [apply Hw|..].
  - intros ex q2 Hq2 Hle. cbn [fst snd]. replace (put_waiters (a_reads a1, a_heartbeat a1) a1) with a1 by (by destruct a1).
    assert (Account._next q1 ≤ Account._next q2 ≤ 2 ^ 32) as Hn2.
    { pose proof (wk_next _ _ Hw) as Hn. cbn in Hn. destruct Hq2 as [->| ->]; [lia|]. destruct Hle as [?|E]; [cbn in *; lia|].
      apply (f_equal Account._next) in E. cbn in E. lia. }
    pose proof (next_step q1 q2 a1 H1 Hn2) as S2. pose proof (step_trans _ _ _ _ _ _ _ _ S1 S2) as S12. rewrite !app_nil_r in S12. cbn [app] in S12.
    eapply ends_mono; [apply (reports_then q a q2 a1 _ (reads e) []); [apply (st_ok _ _ _ _ _ S2)|rewrite app_nil_r; exact S12|done]|].
    intros r s' [(e' & -> & S & Ho' & Hr' & Hh') Hnn]. exists e'. split; [done|]. unfold opens. rewrite Ho'. split_and!; try done. by left.
  - intros wire t Hn Ht Hlt. cbv zeta. set (ticket := mkTicket _ _ _). ends_step. eexists. split; [done|]. cbn [fst snd opens outgoing].
    assert (step_ok g (q1, a1) (taken q1, put_waiters (a_reads a1, set_beat (Some (ticket, t + 2000)) (a_heartbeat a1)) a1) [BeatOf ticket] []) as S2.
    { destruct (wk_generation _ _ Hw) as [_ Hg]. apply open_step; try done.
      - pose proof (wk_next _ _ Hw) as Hb. cbn in Hb. apply (keep_heart g q1 _ _ Hw); [|cbn; lia|done]. unfold heart_ok. cbn. constructor; [|done]. cbn. split_and!; try done; lia.
      - unfold awaited, beats. cbn. by rewrite Hn, app_nil_r. }
    split; [|split_and!; [by cbn|intros Ho'; by apply Hover in Ho'|right; by split_and!]].
    pose proof (step_trans _ _ _ _ _ _ _ _ S1 S2) as S12. rewrite app_nil_r in S12. exact S12.
Qed.

(** ** Reads *)

Lemma cancel_step ticket q a : account_ok g (q, a) →
  ends (account_cancel_read ticket) (λ r s', ∃ c, r = Ok c ∧ step_ok g (q, a) s' [] (of_reads (option_list c)) ∧
    match c with Some c => q_ticket (c_request c) = ticket | None => ticket ∉ tickets (a_reads a) end ∧ a_reason s'.2 = a_reason a) (q, a).
Proof using.
  intros H. pose proof (ac_wait _ _ H) as Hw. cbn [fst snd] in Hw. apply ends_to_reads. apply cancel_read_ok; [apply Hw|..].
  - intros Hn. exists None. split; [done|]. split; [|by split]. cbn [fst snd]. replace (put_waiters _ a) with a by (by destruct a). by apply step_refl.
  - intros b' w Hb' Hp Hs Ht. exists (Some (ended Cancelled w)). split; [done|]. unfold ticket_of in Ht. split; [|by split].
    destruct (a_reason a) eqn:Er.
    + destruct (ac_retired _ _ H) as [_ E]; [cbn; by rewrite Er|]. apply app_eq_nil in E as [E _]. cbn in E. apply fmap_nil_inv in E. rewrite E in Hp. by apply Permutation_nil_cons in Hp.
    + by apply (reads_step g q a b' [ended Cancelled w]).
Qed.

(** A request opened and ended unseen. *)
Lemma step_unseen s s' p : step_ok g s s' [p] [p] → step_ok g s s' [] [].
Proof using.
  intros [S1 S2 S3 S4 S5 S6 S7 S8]. split; try done; [|apply NoDup_nil_2]. rewrite app_nil_r. cbn in *.
  apply (Permutation_cons_inv (a := p)). by rewrite <-S6, Permutation_app_comm.
Qed.

Lemma submit_read_ok device path timeout message_id random q a : account_ok g (q, a) →
  ends (submit_read clock device path timeout message_id random) (λ res s', match res with
    | Ok r => is_active a = true ∧ step_ok g (q, a) s' [ReadOf (ar_request r)] [] ∧ q_device (ar_request r) = device ∧ q_path (ar_request r) = path ∧ a_reason s'.2 = None
    | Raise _ => step_ok g (q, a) s' [] []
    end) (q, a).
Proof using Hclock.
  intros H. pose proof (step_refl _ _ H) as Hrefl. pose proof (ac_wait _ _ H) as Hw. cbn [fst snd] in Hw. unfold submit_read. do 2 go.
  eapply ends_use.
  { apply (ends_mono _ (λ r s, s = (q, a) ∧ ∃ refused, r = Ok refused ∧ (refused = false → is_active a = true))).
    - destruct (negb (is_active a)) eqn:E; [ends_step; split; [done|]; by exists true|]. go. apply ends_now. intros t. ends_step.
      split; [done|]. eexists; split; [done|]. intros _. by apply negb_false_iff.
    - intros r s Hs. exact Hs. }
  intros r s' (-> & refused & -> & Hq). go. apply ends_check; intros E; [done|]. specialize (Hq E).
  assert (a_reason a = None) as Er by (unfold is_active, state_of in Hq; by destruct (a_reason a)).
  go. apply ends_now. intros t. go. apply ends_check; intros E'; [done|]. go. apply ends_to_reads.
  pose proof (wk_next _ _ Hw) as Hn. cbn in Hn.
  apply (register_read_ok clock during Hclock); [apply Hw|lia|intros msg; cbn [fst snd]; replace (put_waiters _ a) with a by (by destruct a); done|].
  intros t' x' ticket request b' Ht' _ _ Hb' Hs. cbn [fst snd].
  assert (step_ok g (q, a) (taken q, put_waiters (b', a_heartbeat a) a) [ReadOf request] []) as S1.
  { destruct (wk_generation _ _ Hw) as [Hg _]. apply open_step; try done.
    - apply (keep_reads g q _ _ Hw); [done| |apply Hs]. destruct (ro_entry _ _ Hb' (Account._next q) (mkWaiter request (t' + timeout) None)) as (_ & _ & _ & _ & ?).
      { subst b'. cbn. apply elem_of_app. right. by apply list_elem_of_singleton. }
      cbn. lia.
    - unfold awaited, requests, b'. cbn [b_pending]. rewrite !fmap_app. cbn. solve_Permutation. }
  destruct (a_node a) as [node|] eqn:En; [|destruct (ac_live _ _ H Er) as [? E2]; cbn in E2; congruence].
  go. apply ends_attempt, ends_lift. destruct (build_model_read _ _ _ _ _ _) as [wire|e].
  { ends_step. done. }
  cbv beta iota. eapply ends_use; [apply cancel_step; apply (st_ok _ _ _ _ _ S1)|]. intros r s' (c & -> & S2 & Hc & _). ends_step.
  pose proof (step_trans _ _ _ _ _ _ _ _ S1 S2) as S12. cbn [app] in S12. destruct c as [c|].
  - assert (c_request c = request) as Ec.
    { pose proof (st_ok _ _ _ _ _ S1) as H1. pose proof (ac_wait _ _ H1) as Hw1. cbn [fst snd a_reads a_heartbeat put_waiters] in Hw1.
      eapply requests_unique; [apply (wk_reads _ _ Hw1)| | |exact Hc].
      - apply (outstanding_read (taken q, put_waiters (b', a_heartbeat a) a)). rewrite <-(app_nil_r (outstanding _)), (st_requests _ _ _ _ _ S2). by left.
      - cbn. unfold requests, b'. cbn. rewrite fmap_app. apply elem_of_app. right. by left. }
    cbn in S12. rewrite Ec in S12. by eapply step_unseen.
  - destruct Hc. unfold tickets, requests. cbn. rewrite !fmap_app. apply elem_of_app. right. by apply list_elem_of_singleton.
Qed.

(** ** Frames *)

Lemma accept_step plain generation q a : account_ok g (q, a) → a_reason a = None →
  ends (to_reads (accept_read clock loads plain generation)) (λ r s', match r with
    | Ok c => step_ok g (q, a) s' [] (of_reads (option_list c)) ∧ ∃ b', s'.2 = put_waiters (b', a_heartbeat a) a
    | Raise e => step_ok g (q, a) s' [] [] ∧ ¬ sealable plain
    end) (q, a).
Proof using Hclock.
  intros H Er. pose proof (ac_wait _ _ H) as Hw. cbn [fst snd] in Hw. apply ends_to_reads.
  apply (accept_read_ok clock loads during Hclock); [apply Hw|..]; cbn [fst snd].
  - intros msg Hs. replace (put_waiters _ a) with a by (by destruct a). split; [by apply step_refl|done].
  - intros b' Hb' Ht Hs _. split; [|by exists b'].
    apply (reads_step g q a b' []); try done. by rewrite Ht.
  - intros b' c Hb' Hp Hs _. split; [|by exists b'].
    by apply (reads_step g q a b' [c]).
Qed.

Lemma accept_beat_step plain generation q a : account_ok g (q, a) → a_reason a = None →
  ends (to_heart (accept_heartbeat clock plain generation)) (λ r s', ∃ c h', r = Ok c ∧ s'.2 = put_waiters (a_reads a, h') a ∧ step_ok g (q, a) s' [] (of_beats (option_list c))) (q, a).
Proof using Hclock.
  intros H Er. pose proof (ac_wait _ _ H) as Hw. cbn [fst snd] in Hw. apply ends_to_heart.
  assert (∃ c h', Ok None = Ok c ∧ put_waiters (a_reads a, a_heartbeat a) a = put_waiters (a_reads a, h') a ∧
    step_ok g (q, a) (q, put_waiters (a_reads a, a_heartbeat a) a) [] (of_beats (option_list c))) as Hstay.
  { exists None, (a_heartbeat a). split; [done|]. split; [done|]. replace (put_waiters _ a) with a by (by destruct a). by apply step_refl. }
  apply (accept_heartbeat_ok clock during Hclock); cbn [fst snd]; [done|done|].
  - intros ticket d hint interval Hp _ _ _ _ _ _ _. eexists (Some (mkBeat ticket Response hint)), _. split; [done|]. split; [done|].
    apply (beat_step g q a _ [mkBeat ticket Response hint]); try done; [by constructor|].
    unfold beats. cbn. by rewrite Hp.
Qed.

Lemma charge_step size q a : account_ok g (q, a) →
  ends (charge_input clock size) (λ r s', (r = Ok tt ∨ ∃ msg, r = Raise (ValueError msg)) ∧ (∃ t, s' = (q, put_input t a)) ∧ step_ok g (q, a) s' [] []) (q, a).
Proof using.
  intros H. unfold charge_input. go. apply ends_check; intros _.
  { split; [right; by eexists|]. split; [exists (a_input a); by destruct a|by apply step_refl]. }
  go. apply ends_now. intros t. cbv beta iota. unfold to_input. go. apply ends_timeless. eapply wp_mono; [apply charge_raises|]. intros r t' Hr. cbn [fst snd].
  split; [done|]. split; [by exists t'|]. by apply other_step.
Qed.

Definition received (s : BrokerSequences * BrokerAccount) (res : result AccountEvents) (s' : BrokerSequences * BrokerAccount) : Prop :=
  ∃ e, res = Ok e ∧ step_ok g s s' [] (ended_of e) ∧ outgoing e = [] ∧ retired e = a_reason s'.2.

Lemma receive_ok `{!JobsLaws J} plain peer generation q a : account_ok g (q, a) → sealable plain →
  ends (receive clock loads plain peer generation) (λ res s', received (q, a) res s' ∧ (overdue a → a_reason s'.2 ≠ None)) (q, a).
Proof using Hclock.
  intros H Hseal. unfold receive. eapply ends_use; [by apply expire_account_ok|]. intros r [q1 a1] [(e & -> & S1 & Ho & Hr & Hh) Hover]. cbn [fst snd] in *.
  pose proof (st_ok _ _ _ _ _ S1) as H1. do 2 go.
  destruct (a_node a1) as [node|] eqn:En; [|by ends_step; split; [exists e|]].
  assert (a_reason a1 = None) as Er.
  { destruct (a_reason a1) eqn:Er; [|done]. destruct (ac_retired _ _ H1) as [E _]; [cbn; by rewrite Er|]. cbn in E. congruence. }
  rewrite Er in Hr, Hover. specialize (Hh Hr).
  assert (ended_of e = of_reads (reads e) ++ of_beats []) as Ee by (unfold ended_of; by rewrite Hh).
  assert (a_reason a1 ≠ None → False) as Hno by done.
  go. apply ends_attempt. eapply ends_mono; [by apply charge_step|]. intros r s2 (Hcharge & (ti & ->) & S2). cbv beta iota.
  pose proof (step_trans _ _ _ _ _ _ _ _ S1 S2) as S12. rewrite !app_nil_r in S12.
  destruct Hcharge as [->|[msg ->]].
  2:{ rewrite Ee in S12. eapply ends_mono; [apply (reports_then q a _ _ _ (reads e) []); [apply (st_ok _ _ _ _ _ S2)|exact S12|done]|].
      intros r s' [(e' & -> & S & Ho' & Hr' & Hh') Hnn]. split; [|done]. by exists e'. }
  destruct (_ || _).
  { ends_step. split; [|by intros ?%Hover]. exists e. split; [done|]. split; [done|]. split; [done|]. cbn. by rewrite Er. }
  set (a2 := put_input ti a1) in *. assert (a_reason a2 = None) as Er2 by done.
  go. unfold to_jobs. apply ends_within. apply ends_on. eapply ends_mono; [by apply observe_returns|]. intros r j' ->. cbv beta iota. cbn [fst snd].
  set (a3 := put_jobs j' a2). assert (step_ok g (q1, a2) (q1, a3) [] []) as S3 by (apply other_step; try done; apply (st_ok _ _ _ _ _ S2)).
  pose proof (step_trans _ _ _ _ _ _ _ _ S12 S3) as S13. rewrite !app_nil_r in S13.
  eapply ends_use; [apply accept_step; [apply (st_ok _ _ _ _ _ S3)|done]|]. intros r [q4 a4] Hr4. destruct r as [read|ex]; [|by destruct Hr4].
  destruct Hr4 as [S4 [b' E4]]. cbn in E4. subst a4. pose proof (step_trans _ _ _ _ _ _ _ _ S13 S4) as S14. cbn [app] in S14.
  eapply ends_use; [apply accept_beat_step; [apply (st_ok _ _ _ _ _ S4)|done]|]. intros r [q5 a5] (c & h' & -> & E5 & S5). cbn in E5.
  pose proof (step_trans _ _ _ _ _ _ _ _ S14 S5) as S15. cbn [app] in S15. assert (a_reason a5 = None) as Er5 by by subst a5.
  eapply ends_use.
  { apply (ends_mono _ (λ r s, r = Ok tt ∧ step_ok g (q5, a5) s [] [] ∧ a_reason s.2 = None)); [|intros r s Hs; exact Hs].
    pose proof (st_ok _ _ _ _ _ S5) as H5. destruct c; [|ends_step; split_and!; [done|by apply step_refl|done]].
    go. apply ends_now. intros t. go. split_and!; [done|by apply other_step|done]. }
  intros r s6 (-> & S6 & Er6). ends_step. split; [|by intros ?%Hover]. eexists. split; [done|]. split; [|by rewrite Er6].
  pose proof (step_trans _ _ _ _ _ _ _ _ S15 S6) as [T1 T2 T3 T4 T5 T6 T7 T8]. split; try done. rewrite T6, Ee. unfold ended_of, of_reads, of_beats. cbn [reads heartbeats].
  rewrite !fmap_app. solve_Permutation.
Qed.

(** ** Draining and the jobs *)

Lemma inactive_stays s s' o e : step_ok g s s' o e → is_active s.2 = false → is_active s'.2 = false.
Proof using.
  intros S Ha. unfold is_active, state_of in *. destruct (a_reason s.2) as [r|] eqn:Er; [by rewrite (st_reason _ _ _ _ _ S r Er)|].
  destruct (a_drain_deadline s.2) as [d|] eqn:Ed; [|done]. rewrite (st_drain _ _ _ _ _ S d Ed). by destruct (a_reason s'.2).
Qed.

Lemma drain_ok q a : account_ok g (q, a) →
  ends (drain clock) (λ res s', reports (q, a) res s' ∧ is_active s'.2 = false) (q, a).
Proof using Hclock.
  intros H. unfold drain. do 2 go. destruct (is_active a) eqn:Ea.
  - assert (a_reason a = None ∧ a_drain_deadline a = None) as [Er Ed].
    { unfold is_active, state_of in Ea. by destruct (a_reason a), (a_drain_deadline a). }
    go. go. apply ends_now. intros t. do 3 go. set (a1 := put_jobs _ _).
    assert (step_ok g (q, a) (q, a1) [] []) as S1 by (apply other_step; try done; congruence).
    eapply ends_mono; [apply expire_account_ok, (st_ok _ _ _ _ _ S1)|]. intros r s' [(e & -> & S2 & Ho & Hr & Hh) _]. split.
    + exists e. split; [done|]. split; [|done]. exact (step_trans _ _ _ _ _ _ _ _ S1 S2).
    + eapply inactive_stays; [exact S2|]. unfold is_active, state_of. cbn. by rewrite Er.
  - do 2 ends_step. eapply ends_mono; [by apply expire_account_ok|]. intros r s' [Hrep _]. split; [done|]. destruct Hrep as (e & _ & S & _).
    by eapply inactive_stays.
Qed.

(** A retirement ends every ticket. *)
Lemma all_ended s s' e : step_ok g s s' [] e → a_reason s'.2 ≠ None → step_ok g s s' [] (outstanding s).
Proof using.
  intros S Hr. destruct (ac_retired _ _ (st_ok _ _ _ _ _ S) Hr) as [_ E]. destruct S as [T1 T2 T3 T4 T5 T6 T7 T8]. split; try done. by rewrite E.
Qed.

(** A constructor of a job: it numbers its frames from the account's sequences. *)
Definition starts {A} (start : M (owned J) A) : Prop :=
  ∀ q j, 0 ≤ Account._next q ≤ 2 ^ 32 → ends start (λ _ s, Account._next q ≤ Account._next s.1 ≤ 2 ^ 32) (q, j).

Lemma start_step {A} (start : M (owned J) A) q a : account_ok g (q, a) → starts start →
  ends (to_jobs start) (λ _ s', step_ok g (q, a) s' [] [] ∧ a_reason s'.2 = a_reason a) (q, a).
Proof using.
  intros H Hs. unfold to_jobs. apply ends_within. pose proof (ac_wait _ _ H) as Hw. pose proof (wk_next _ _ Hw) as Hn. cbn in Hn.
  eapply ends_mono; [by apply Hs|]. intros r [q' j'] Hq. cbn [fst snd] in *. pose proof (next_step q q' a H Hq) as S1.
  pose proof (other_step g q' a (put_jobs j' a) (st_ok _ _ _ _ _ S1) eq_refl eq_refl eq_refl eq_refl eq_refl eq_refl (λ d E, E)) as S2.
  split; [|done]. exact (step_trans _ _ _ _ _ _ _ _ S1 S2).
Qed.

(** A job that is admitted starts; one that is refused changes nothing, save
    that a PTZ gesture after an unconfirmed release retires the account. *)
Lemma prepare_ptz_ok {A} (start : M (owned J) A) q a : account_ok g (q, a) → starts start →
  ends (prepare_ptz clock start) (λ _ s', (step_ok g (q, a) s' [] [] ∧ a_reason s'.2 = a_reason a) ∨
    (release_unconfirmed (a_jobs a) = true ∧ a_reason a = None ∧ a_reason s'.2 = Some Transport ∧ step_ok g (q, a) s' [] (outstanding (q, a)))) (q, a).
Proof using Hclock.
  intros H Hs. pose proof (step_refl _ _ H) as Hrefl. unfold prepare_ptz. do 2 go. eapply ends_use.
  { apply (ends_mono _ (λ r s, s = (q, a) ∧ ∃ busy, r = Ok busy ∧ (busy = false → is_active a = true))).
    - destruct (negb (is_active a)) eqn:E; [ends_step; split; [done|]; by exists true|]. go. apply ends_now. intros t. ends_step.
      split; [done|]. eexists; split; [done|]. intros _. by apply negb_false_iff.
    - intros r s Hr. exact Hr. }
  intros r s' (-> & busy & -> & Hb). go. apply ends_check; intros E; [by left|]. specialize (Hb E). destruct (release_unconfirmed (a_jobs a)) eqn:Eu.
  - eapply ends_use; [by apply retire_ok|]. intros r s' (e & -> & S & _ & _ & Er & _). ends_step. right. split; [done|].
    assert (a_reason a = None) as Er' by (unfold is_active, state_of in Hb; by destruct (a_reason a)). rewrite Er' in Er. split_and!; try done.
    by eapply all_ended; [exact S|rewrite Er].
  - eapply ends_mono; [by apply start_step|]. intros r s' S. by left.
Qed.
End Calls.

(** ** Histories *)

(** How the jobs are when a call has started one, and the sequence numbers that
    took. *)
Inductive account_call :=
| SubmitRead (device_id : Z) (path : string) (timeout message_id random : Z)
| CancelRead (ticket : ReceiptTicket)
| Tick (random : Z)
| Receive (plain : bytes) (peer : endpoint) (generation : Z)
| Drain
| Retire (reason : Retirement)
| PreparePtz (count : Z) (jobs : J)
| PrepareMedia (count : Z) (jobs : J)
| PrepareSiren (span count : Z) (jobs : J)
| PrepareCatalog (deadline count : Z) (jobs : J)
| PrepareLampRead (deadline count : Z) (jobs : J)
| PrepareControl (deadline count : Z) (jobs : J)
| PrepareLampWrite (deadline count : Z) (jobs : J)
| JobsMove (count : Z) (jobs : J).    (* the jobs proceed by themselves *)

Inductive account_event := Opened (p : awaiting) | Ended (p : awaiting) | Dropped (p : awaiting).

Definition start (count : Z) (jobs : J) : M (owned J) unit := _ ← namespace (Account.reserve count); set_own (λ _, jobs).

Section Histories.
Context (clock : nat → Z) (loads : bytes → decoded).

(** [prepare_ptz] with what it leaves unreported: the requests a retirement
    of its own ends. *)
Definition prepare_ptz_observed (m : M (owned J) unit) : T (list account_event) :=
  before ← state;
  _ ← attempt (prepare_ptz clock m);
  after ← own;
  mret (if is_none (a_reason before.2) && negb (is_none (a_reason after)) then Dropped <$> outstanding before else []).

Definition account_exec (c : account_call) : T (list account_event) :=
  match c with
  | SubmitRead device path timeout message_id random =>
      r ← submit_read clock device path timeout message_id random; mret [Opened (ReadOf (ar_request r))]
  | CancelRead ticket => c ← account_cancel_read ticket; mret (Ended <$> of_reads (option_list c))
  | Tick random => e ← tick clock random; a ← own; mret ((Opened <$> opens a e) ++ (Ended <$> ended_of e))
  | Receive plain peer generation => e ← receive clock loads plain peer generation; mret (Ended <$> ended_of e)
  | Drain => e ← drain clock; mret (Ended <$> ended_of e)
  | Retire reason => e ← retire reason; mret (Ended <$> ended_of e)
  | PreparePtz count jobs => prepare_ptz_observed (start count jobs)
  | PrepareMedia count jobs => _ ← prepare_media clock (start count jobs); mret []
  | PrepareSiren span count jobs => _ ← prepare_siren_pulse clock span (start count jobs); mret []
  | PrepareCatalog deadline count jobs => _ ← prepare_catalog_read deadline (start count jobs); mret []
  | PrepareLampRead deadline count jobs => _ ← prepare_lamp_read deadline (start count jobs); mret []
  | PrepareControl deadline count jobs => _ ← prepare_control_write deadline (start count jobs); mret []
  | PrepareLampWrite deadline count jobs => _ ← prepare_lamp_write deadline (start count jobs); mret []
  | JobsMove count jobs => _ ← to_jobs (start count jobs); mret []
  end.

Fixpoint account_run (calls : list account_call) (s : owned BrokerAccount) (log : list account_event) : owned BrokerAccount * list account_event :=
  match calls with
  | [] => (s, log)
  | c :: calls => let '(s, r) := account_exec c s in account_run calls s (log ++ match r with Ok es => es | Raise _ => [] end)
  end.
End Histories.

Definition opened_in (log : list account_event) : list awaiting := omap (λ e, match e with Opened t => Some t | _ => None end) log.
Definition ended_in (log : list account_event) : list awaiting := omap (λ e, match e with Ended t => Some t | _ => None end) log.
Definition dropped_in (log : list account_event) : list awaiting := omap (λ e, match e with Dropped t => Some t | _ => None end) log.

(** The frames given to an account were decrypted. *)
Definition admissible (c : account_call) : Prop := match c with Receive plain _ _ => sealable plain | _ => True end.

(** What a call does, by its events. *)
Definition accounted (g : Z) (s : BrokerSequences * BrokerAccount) (res : result (list account_event)) (s' : BrokerSequences * BrokerAccount) : Prop :=
  let es := match res with Ok es => es | Raise _ => [] end in
  step_ok g s s' (opened_in es) (ended_in es ++ dropped_in es) ∧ (dropped_in es ≠ [] → a_reason s'.2 = Some Transport).

Lemma opened_ended o e : opened_in ((Opened <$> o) ++ (Ended <$> e)) = o ∧ ended_in ((Opened <$> o) ++ (Ended <$> e)) = e ∧
  dropped_in ((Opened <$> o) ++ (Ended <$> e)) = [].
Proof using.
  unfold opened_in, ended_in, dropped_in. rewrite !omap_app. split_and!.
  - rewrite (omap_made _ Opened), (omap_none _ Ended) by done. apply app_nil_r.
  - by rewrite (omap_none _ Opened), (omap_made _ Ended) by done.
  - by rewrite (omap_none _ Opened), (omap_none _ Ended) by done.
Qed.

Section Runs.
Context `{!JobsLaws J} (clock : nat → Z) (loads : bytes → decoded) (g : Z).
#[local] Abbreviation any := (λ _ : Z, True).

Lemma accounted_none s s' res : step_ok g s s' [] [] → (∀ es, res = Ok es → es = []) → accounted g s res s'.
Proof using. intros S He. unfold accounted. destruct res as [es|e]; [rewrite (He es eq_refl)|]; by split. Qed.

Lemma accounted_events s s' o e : step_ok g s s' o e → accounted g s (Ok ((Opened <$> o) ++ (Ended <$> e))) s'.
Proof using. intros S. unfold accounted. destruct (opened_ended o e) as (-> & -> & ->). rewrite app_nil_r. by split. Qed.

Lemma start_ok count jobs : starts (start count jobs).
Proof using.
  intros q j Hq. unfold start. do 2 go. pose proof (Account.reserve_spec count q) as Hr. eapply wp_mono; [exact Hr|]. intros [l|e] q' Hq'; cbv beta iota.
  - go. cbn. lia.
  - destruct Hq' as (_ & _ & -> & _). cbn. lia.
Qed.

(** A constructor behind a guard, and a call that answers nothing. *)
Lemma guarded_ok {A} (m : M (owned J) A) refuse msg q a : account_ok g (q, a) → starts m →
  ends (_ ← check refuse (ValueError msg); to_jobs m) (λ _ s', step_ok g (q, a) s' [] []) (q, a).
Proof using.
  intros H Hm. go. apply ends_check; intros _; [by apply step_refl|]. cbv beta iota. eapply ends_mono; [by apply start_step|]. by intros r s' [S _].
Qed.

Lemma timed_guard {A} (m : M (owned J) A) (early : bool) (late : Z → bool) msg q a : account_ok g (q, a) → starts m →
  ends (busy ← (if early then mret true else t ← now clock; mret (late t)); _ ← check busy (ValueError msg); to_jobs m) (λ _ s', step_ok g (q, a) s' [] []) (q, a).
Proof using.
  intros H Hm. go. destruct early; [go|go; apply ends_now; intros t; go]; cbv beta iota; by apply guarded_ok.
Qed.

(** The constructors of jobs, PTZ apart. *)
Lemma prepares_ok {A} (m : M (owned J) A) q a : account_ok g (q, a) → starts m →
  let quiet (call : T A) := ends call (λ _ s', step_ok g (q, a) s' [] []) (q, a) in
  quiet (prepare_media clock m) ∧ (∀ span, quiet (prepare_siren_pulse clock span m)) ∧ (∀ deadline, quiet (prepare_catalog_read deadline m)) ∧
  (∀ deadline, quiet (prepare_lamp_read deadline m)) ∧ (∀ deadline, quiet (prepare_control_write deadline m)) ∧
  (∀ deadline, quiet (prepare_lamp_write deadline m)).
Proof using.
  intros H Hm quiet. unfold quiet, prepare_media, prepare_siren_pulse, prepare_catalog_read, prepare_lamp_read, prepare_control_write, prepare_lamp_write.
  split_and!; intros; do 2 go; first [by apply guarded_ok|by apply timed_guard].
Qed.

Lemma quiet_ok {A} (m : T A) q a : ends m (λ _ s', step_ok g (q, a) s' [] []) (q, a) →
  ends (_ ← m; mret []) (λ res s', accounted g (q, a) res s') (q, a).
Proof using.
  intros Hm. eapply ends_use; [exact Hm|]. intros [x|e] s' S; [ends_step|]; apply accounted_none; try done; by intros es [= <-].
Qed.

Lemma account_exec_ok c q a : account_ok g (q, a) → admissible c → ends (account_exec clock loads c) (λ res s', accounted g (q, a) res s') (q, a).
Proof using JobsLaws0.
  intros H Hc. assert (∀ i, any (clock i)) as Hclock by done. pose proof (λ count jobs, start_ok count jobs) as Hstart.
  pose proof (step_refl _ _ H) as Hrefl.
  destruct c as [device path timeout mid random|ticket|random|plain peer generation| |reason|count jobs|count jobs|span count jobs|d count jobs|d count jobs|d count jobs|d count jobs|count jobs];
    cbn [account_exec].
  - eapply ends_use; [by apply (submit_read_ok clock any Hclock)|]. intros [r|e] s' Hs; [|by apply accounted_none].
    ends_step. destruct Hs as (_ & S & _). exact (accounted_events _ _ [_] [] S).
  - eapply ends_use; [by apply (cancel_step g)|]. intros r s' (c & -> & S & _). ends_step. exact (accounted_events _ _ [] _ S).
  - eapply ends_use; [by apply (tick_ok clock any Hclock)|]. intros r [q' a'] (e & -> & S & _). do 3 go. exact (accounted_events _ _ _ _ S).
  - eapply ends_use; [by apply (receive_ok clock loads any Hclock)|]. intros r s' [(e & -> & S & _) _]. ends_step. exact (accounted_events _ _ [] _ S).
  - eapply ends_use; [by apply (drain_ok clock any Hclock)|]. intros r s' [(e & -> & S & _) _]. ends_step. exact (accounted_events _ _ [] _ S).
  - eapply ends_use; [by apply (retire_ok clock any Hclock)|]. intros r s' (e & -> & S & _). ends_step. exact (accounted_events _ _ [] _ S).
  - unfold prepare_ptz_observed. do 2 go. go. apply ends_attempt. eapply ends_mono; [by apply (prepare_ptz_ok clock any Hclock)|].
    intros r [q' a'] Hs. cbv beta iota. do 3 go. cbn [snd]. destruct Hs as [[S E]|(_ & E & E' & S)]; cbn in *.
    + rewrite E. apply accounted_none; [done|]. destruct (a_reason a); by intros es [= <-].
    + rewrite E, E'. cbn. unfold accounted, opened_in, ended_in, dropped_in. rewrite (omap_none _ Dropped), (omap_none _ Dropped), (omap_made _ Dropped) by done.
      by split.
  - apply quiet_ok. by apply prepares_ok.
  - apply quiet_ok. by apply prepares_ok.
  - apply quiet_ok. by apply prepares_ok.
  - apply quiet_ok. by apply prepares_ok.
  - apply quiet_ok. by apply prepares_ok.
  - apply quiet_ok. by apply prepares_ok.
  - apply quiet_ok. eapply ends_mono; [by apply start_step|]. by intros r s' [S _].
Qed.

(** The invariant of a history that began with the number [first]. *)
Record history_ok (first : Z) (s : BrokerSequences * BrokerAccount) (log : list account_event) : Prop := {
  ho_account : account_ok g s;
  ho_first : first ≤ Account._next s.1;
  ho_tickets : opened_in log ≡ₚ ended_in log ++ dropped_in log ++ outstanding s;
  ho_distinct : NoDup (number <$> opened_in log);
  ho_fresh : Forall (λ p, t_generation (ticket_in p) = g ∧ first ≤ number p < Account._next s.1) (opened_in log);
  ho_dropped : dropped_in log ≠ [] → a_reason s.2 = Some Transport
}.

Lemma history_step first s s' log res : history_ok first s log → accounted g s res s' →
  history_ok first s' (log ++ match res with Ok es => es | Raise _ => [] end).
Proof using.
  intros [H1 H2 H3 H4 H5 H6] [S Hd]. set (es := match res with Ok es => es | Raise _ => [] end) in *.
  split; unfold opened_in, ended_in, dropped_in; rewrite ?omap_app; fold (opened_in log) (ended_in log) (dropped_in log) (opened_in es) (ended_in es) (dropped_in es).
  - apply S.
  - pose proof (st_next _ _ _ _ _ S). lia.
  - rewrite H3. transitivity (ended_in log ++ dropped_in log ++ ended_in es ++ dropped_in es ++ outstanding s'); [|solve_Permutation].
    rewrite <-!app_assoc. do 2 f_equiv. rewrite (st_requests _ _ _ _ _ S). by rewrite <-app_assoc.
  - rewrite fmap_app. apply NoDup_app. split_and!; [done| |apply S]. intros k (t & -> & Ht)%list_elem_of_fmap (t' & E & Ht')%list_elem_of_fmap.
    pose proof (st_fresh _ _ _ _ _ S) as Hf. rewrite Forall_forall in H5, Hf. apply H5 in Ht as [_ ?]. apply Hf in Ht' as [_ ?]. lia.
  - pose proof (st_next _ _ _ _ _ S). apply Forall_app; split; eapply list.Forall_impl; [exact H5| |apply S|]; intros t (? & ? & ?); split_and!; try done; lia.
  - destruct (dropped_in es) eqn:E; [|by intros _; apply Hd]. rewrite app_nil_r. intros Hl. apply (st_reason _ _ _ _ _ S). by apply H6.
Qed.

Lemma account_run_ok first calls : ∀ s n log, Forall admissible calls → history_ok first s log →
  let '((s', _), log') := account_run clock loads calls (s, n) log in history_ok first s' log'.
Proof using JobsLaws0.
  induction calls as [|c calls IH]; intros [q a] n log Hc H; cbn [account_run]; [done|]. apply Forall_cons in Hc as [Hc Hcs].
  pose proof (account_exec_ok c q a (ho_account _ _ _ H) Hc n) as He. unfold wp in He.
  destruct (account_exec clock loads c (q, a, n)) as [[s1 n1] r]. cbn [fst snd] in He. apply IH; [done|]. by eapply history_step.
Qed.
End Runs.

Lemma new_account_ok node generation local policy jobs t0 t1 s : broker_account node generation local policy jobs t0 t1 = Ok s →
  history_ok generation (AccessFrames.next_sequence node) s [].
Proof using.
  unfold broker_account. intros H. res_inv.
  destruct x0 as [q [b h]]. destruct (fresh_waiters _ _ _ _ H1) as (Hw & Hl & Hn). cbn in *.
  split; [|cbn; lia| |apply NoDup_nil_2|by constructor|done].
  - by split.
  - unfold live, tickets in Hl. apply app_eq_nil in Hl as [Hr%fmap_nil_inv Hh]. unfold outstanding, awaited. cbn [fst snd a_reads a_heartbeat] in *. by rewrite Hr, Hh.
Qed.

(** Only a PTZ request drops what was pending, and only when it finds the
    release of the previous gesture unconfirmed. *)
Definition ptz_request (c : account_call) : bool := match c with PreparePtz _ _ => true | _ => false end.

Lemma exec_keeps_reports clock loads c s : ptz_request c = false →
  dropped_in (match (account_exec clock loads c s).2 with Ok es => es | Raise _ => [] end) = [].
Proof using.
  intros Hc. assert (∀ {A} (m : T A) es, (∀ a, dropped_in (es a) = []) →
    dropped_in (match ((a ← m; mret (es a)) s).2 with Ok es => es | Raise _ => [] end) = []) as Hm.
  { intros A m es He. unfold mbind, M_bind. destruct (m s) as [s' [a|e]]; [apply He|done]. }
  assert (∀ l, dropped_in (Ended <$> l) = []) as He by (intros l; apply (opened_ended [] l)).
  destruct c; try done; cbn [account_exec]; try (apply Hm; intros; first [apply He|done]).
  unfold mbind at 1, M_bind at 1. destruct (tick clock random s) as [s1 [e|e]]; [|done]. unfold mbind, M_bind.
  destruct (own s1) as [s2 [a|e']]; [|done]. apply opened_ended.
Qed.

Lemma run_keeps_reports clock loads calls : ∀ s log, Forall (λ c, ptz_request c = false) calls → dropped_in log = [] →
  dropped_in (account_run clock loads calls s log).2 = [].
Proof using.
  induction calls as [|c calls IH]; intros s log Hc Hl; cbn [account_run]; [done|]. apply Forall_cons in Hc as [Hc Hcs].
  pose proof (exec_keeps_reports clock loads c s Hc) as He. destruct (account_exec clock loads c s) as [s1 r]. apply IH; [done|].
  cbn [snd] in He. unfold dropped_in in *. by rewrite omap_app, Hl, He.
Qed.

Lemma ptz_request_ok clock loads g count jobs q a : account_ok g (q, a) →
  ends (account_exec clock loads (PreparePtz count jobs)) (λ res s', ∃ es, res = Ok es ∧
    ((es = [] ∧ a_reason s'.2 = a_reason a ∧ outstanding s' ≡ₚ outstanding (q, a)) ∨
     (es = Dropped <$> outstanding (q, a) ∧ release_unconfirmed (a_jobs a) = true ∧ a_reason a = None ∧
      a_reason s'.2 = Some Transport ∧ outstanding s' = []))) (q, a).
Proof using.
  intros H. cbn [account_exec]. unfold prepare_ptz_observed. do 2 go. go. apply ends_attempt.
  eapply ends_mono; [apply (prepare_ptz_ok clock (λ _, True) (λ _, I)); [exact H|apply start_ok]|].
  intros r [q' a'] Hs. cbv beta iota. do 3 go. cbn [fst snd]. eexists. split; [done|]. destruct Hs as [[S E]|(Eu & E & E' & S)]; cbn in E.
  - left. split_and!; [rewrite E; by destruct (a_reason a)|done|]. pose proof (st_requests _ _ _ _ _ S) as Hp. rewrite app_nil_r in Hp. by symmetry.
  - right. cbn in E'. rewrite E, E'. split_and!; try done. apply (ac_retired _ _ (st_ok _ _ _ _ _ S)). cbn. by rewrite E'.
Qed.

(** ** Properties *)

(** C5: an account reports every broker request it opens, one path apart.  In
    every history of reads, frames, ticks, jobs, draining and retirement, whatever
    the clock, the jobs and the decrypted frames, each request opened is pending,
    or was reported ended exactly once, or was pending when a PTZ request retired
    the account: that request ends what is pending and reports none of it.  It
    does so only on an active account whose previous gesture has its release
    unconfirmed, it then retires the account with reason [Transport], and it
    loses exactly what was pending; any other PTZ request loses nothing, and a
    history without PTZ requests drops nothing.  No two requests share a sequence
    number; at most eight reads and one heartbeat are pending, and none once the
    account is retired.  From then on the reason stays; an account that has
    reached its lifetime, its draining deadline or its heartbeat's deadline, or
    whose release is unconfirmed, is retired by the next tick or frame; a drained
    account is never active again; only an active account opens reads or sends
    keepalives; and ticks and frames never raise. *)
Theorem account_reports `{!JobsLaws J} clock0 loads node generation local policy jobs t0 t1 s0 calls :
  broker_account node generation local policy jobs t0 t1 = Ok s0 → Forall admissible calls →
  let '(((q, a), _), log) := account_run clock0 loads calls (s0, 0%nat) [] in
  (opened_in log ≡ₚ ended_in log ++ dropped_in log ++ outstanding (q, a) ∧ (dropped_in log ≠ [] → a_reason a = Some Transport) ∧
   (Forall (λ c, ptz_request c = false) calls → dropped_in log = []) ∧
   NoDup (number <$> opened_in log) ∧ Forall (λ p, t_generation (ticket_in p) = generation) (opened_in log) ∧
   len (b_pending (a_reads a)) ≤ 8 ∧ (a_reason a ≠ None → outstanding (q, a) = [] ∧ a_node a = None)) ∧
  (∀ clock during, (∀ i, during (clock i)) →
    (∀ random, ends (tick clock random) (λ res s', ∃ e, res = Ok e ∧ retired e = a_reason s'.2 ∧ (overdue during a → retired e ≠ None) ∧
       (∀ r, a_reason a = Some r → retired e = Some r) ∧ (outgoing e = [] ∨ is_active s'.2 = true ∧ len (outgoing e) = 1)) (q, a)) ∧
    (∀ plain peer g, sealable plain → ends (receive clock loads plain peer g) (λ res s', ∃ e, res = Ok e ∧ retired e = a_reason s'.2 ∧
       (overdue during a → retired e ≠ None) ∧ (∀ r, a_reason a = Some r → retired e = Some r) ∧ outgoing e = []) (q, a)) ∧
    (∀ reason, ends (retire reason) (λ res s', ∃ e, res = Ok e ∧ retired e = Some (default reason (a_reason a)) ∧ a_reason s'.2 = retired e) (q, a)) ∧
    ends (drain clock) (λ res s', (∃ e, res = Ok e) ∧ is_active s'.2 = false) (q, a) ∧
    (∀ device path timeout mid random, ends (submit_read clock device path timeout mid random) (λ res s', match res with
       | Ok r => is_active a = true ∧ q_device (ar_request r) = device ∧ q_path (ar_request r) = path
       | Raise _ => outstanding s' ≡ₚ outstanding (q, a)
       end) (q, a)) ∧
    (∀ count jobs', ends (account_exec clock loads (PreparePtz count jobs')) (λ res s', ∃ es, res = Ok es ∧
       ((es = [] ∧ a_reason s'.2 = a_reason a ∧ outstanding s' ≡ₚ outstanding (q, a)) ∨
        (es = Dropped <$> outstanding (q, a) ∧ release_unconfirmed (a_jobs a) = true ∧ a_reason a = None ∧
         a_reason s'.2 = Some Transport ∧ outstanding s' = []))) (q, a))).
Proof using.
  intros H0 Hc. pose proof (account_run_ok clock0 loads generation (AccessFrames.next_sequence node) calls s0 0%nat [] Hc (new_account_ok _ _ _ _ _ _ _ _ H0)) as H.
  pose proof (run_keeps_reports clock0 loads calls (s0, 0%nat) []) as Hquiet.
  destruct (account_run clock0 loads calls (s0, 0%nat) []) as [[[q a] n] log]. destruct H as [H1 H2 H3 H4 H5 H6]. split.
  - split_and!; try done.
    + intros Hq. by apply Hquiet.
    + eapply list.Forall_impl; [exact H5|]. by intros t [? _].
    + pose proof (ro_size _ _ (wk_reads _ _ (ac_wait _ _ H1))). done.
    + intros Hr. destruct (ac_retired _ _ H1 Hr). done.
  - intros clock during Hclock. split_and!.
    + intros random. eapply ends_mono; [by apply (tick_ok clock during Hclock generation)|]. intros r s' (e & -> & S & Hr & Ho & Hs). exists e. split; [done|].
      rewrite Hr. split_and!; try done; [intros r; by apply (st_reason _ _ _ _ _ S)|]. destruct Hs as [?|(? & ? & ?)]; [by left|by right].
    + intros plain peer g Hp. eapply ends_mono; [by apply (receive_ok clock loads during Hclock generation)|].
      intros r s' [(e & -> & S & Ho & Hr) Hover]. exists e. rewrite Hr. split_and!; try done. intros r. by apply (st_reason _ _ _ _ _ S).
    + intros reason. eapply ends_mono; [by apply (retire_ok clock during Hclock generation)|]. intros r s' (e & -> & S & _ & Hr & Hn & _).
      exists e. by rewrite Hr, Hn.
    + eapply ends_mono; [by apply (drain_ok clock during Hclock generation)|]. intros r s' [(e & -> & _) ?]. split; [by eexists|done].
    + intros device path timeout mid random. eapply ends_mono; [by apply (submit_read_ok clock during Hclock generation)|].
      intros [r|e] s'; [by intros (? & _ & ? & ? & _)|]. intros S. pose proof (st_requests _ _ _ _ _ S) as E. rewrite app_nil_r in E. by symmetry.
    + intros count jobs'. by apply (ptz_request_ok clock loads generation).
Qed.
End Account.

(** ** The PTZ gesture as a job *)

(** An account whose only job is the gesture of [Ptz]. *)
#[global] Instance ptz_jobs : Jobs (option Ptz.job) := {
  motion_cleanup_pending j := match j with Some j => is_none (Ptz.outcome j) | None => false end;
  release_unconfirmed j := match j ≫= Ptz.outcome with Some r => Ptz.start_attempted r && negb (Ptz.release_delivery_confirmed r) | None => false end;
  siren_cleanup_pending _ := false;
  media_cleanup_pending _ := false;
  media_release_uncertain _ := false;
  cancel_jobs := fmap Ptz.with_cancel;
  observe _ _ _ := mret tt
}.
#[global] Instance ptz_jobs_laws : JobsLaws (option Ptz.job).
Proof. intros plain peer generation j _. by apply ends_ret. Qed.

(** A read answered, one refused with the account's drain, a keepalive between. *)
Definition sample_node : CertifiedNode := AccessFrames.mkNode ([], 0) 7 (zeros 32) 5.
Definition sample_account : result (BrokerSequences * BrokerAccount (J := option Ptz.job)) :=
  broker_account sample_node 1 ([10; 0; 0; 2], 5000) FINITE None 0 0.
Definition sample_state : BrokerSequences * BrokerAccount (J := option Ptz.job) :=
  match sample_account with Ok s => s | Raise _ =>
    (Account.mkSequences 0 0 0 true, mkAccount (Account.mkTraffic 0 0 0 0 FINITE 0 0) (mkReads (mkTransactions false 0 0 [] true) 0 [] true)
      (mkHeartbeat 0 0 None 0 true) None 0 ([], 0) None 0 None None None)
  end.
Definition sample_calls : list (account_call (J := option Ptz.job)) :=
  [SubmitRead 99 "ProReadonly.devInfo" 2000 0 0; Receive Broker.sample_reply ([], 0) 1; SubmitRead 99 "ProWritable.volume" 2000 0 0;
   JobsMove 3 None; Tick 0; Drain; SubmitRead 99 "ProWritable.volume" 2000 0 0; Retire Closed; Tick 0].
Definition sample_run := account_run (λ n, 100 * Z.of_nat n) (λ _, Undecodable) sample_calls (sample_state, 0%nat) [].

Lemma account_reports_witness : sample_account = Ok sample_state ∧ Forall admissible sample_calls ∧
  number <$> opened_in sample_run.2 = [5; 6] ∧ number <$> ended_in sample_run.2 = [5; 6] ∧
  a_reason sample_run.1.1.2 = Some Closed ∧
  opened_in sample_run.2 ≡ₚ ended_in sample_run.2 ++ dropped_in sample_run.2 ++ outstanding sample_run.1.1.
Proof.
  assert (sample_account = Ok sample_state) as E by reflexivity.
  assert (Forall admissible sample_calls) as Hc by (repeat (constructor; [first [exact I|eexists; vm_compute; reflexivity]|]); constructor).
  split; [exact E|]. split; [exact Hc|]. split; [vm_compute; reflexivity|]. split; [vm_compute; reflexivity|]. split; [vm_compute; reflexivity|].
  pose proof (account_reports (λ n, 100 * Z.of_nat n) (λ _, Undecodable) sample_node 1 ([10; 0; 0; 2], 5000) FINITE None 0 0 sample_state sample_calls E Hc) as H.
  unfold sample_run. destruct (account_run _ _ _ _ _) as [[[q a] n] log]. exact (proj1 (proj1 H)).
Defined.
End BrokerAccount.
