(* ===== verification/Dispatch.v ===== *)
(** * The read dispatcher of an account

    Models p2p [account_read_dispatcher.py]: the composition of the mailbox
    between callers and worker ([Mailbox]) with the account that owns the
    broker session ([BrokerAccount]).  It keeps two tables, from mailbox tickets
    to the requests sent for them and from wire tickets back to the mailbox.

    The callers run in other threads and touch the mailbox only.  They may act
    between any two accesses of the dispatcher to it: a history is given the
    calls they make, as a function of the steps made so far, and each access
    runs the calls that come before it.  The log of the mailbox is a ghost part
    of the state. *)

From Stdlib Require Import ZArith Lia.
From S2P Require Import Prelude Account AccessFrames Broker Mailbox Ptz BrokerAccount.

Module Dispatch.
Import Account(BrokerSequences, AccountPolicy(..), is_none).
Import AccessFrames(CertifiedNode, endpoint).
Import Broker(ReceiptTicket, ReadRequest, ReadCompletion, c_request, q_ticket, q_device, q_path, owned, requests, tickets, decoded, sealable, ends_use).
Import Mailbox(MailboxTicket, BrokerMailbox, _slots, request, unended, working, held, all_ended, lg_held, submissions, cancellations, s_ticket, s_device, s_path,
  s_deadline, event, Submitted, Handed, Bound, Released, Finished, bound, handed, finished, released, log_ok).
Import BrokerAccount(Jobs, JobsLaws, BrokerAccount, AccountRead, ar_request, AccountEvents, mkEvents, reads, heartbeats, outgoing, retired, Retirement(..),
  a_reads, a_heartbeat, a_reason, account_ok, step_ok).

#[local] Ltac go := cbv beta iota; ends_step.

Section Dispatch.
Context {J : Type} `{JobsJ : Jobs J}.

Record DispatchRead := mkRead { ticket : MailboxTicket; prepared : AccountRead }.
Record DispatchBatch := mkBatch { batch_reads : list DispatchRead; maintenance : AccountEvents }.

Record AccountReadDispatcher := mkDispatcher {
  mailbox : BrokerMailbox; _account : BrokerSequences * BrokerAccount (J := J);
  _requests : list (MailboxTicket * ReadRequest); _routes : list (ReceiptTicket * MailboxTicket)
}.

Definition account_read_dispatcher (node : CertifiedNode) (generation : Z) (local : bytes * Z) (policy : AccountPolicy) (state_reads : bool)
    (jobs : J) (t0 t1 : Z) : result AccountReadDispatcher :=
  mailbox ← Mailbox.broker_mailbox generation state_reads;
  account ← BrokerAccount.broker_account node generation local policy jobs t0 t1;
  Ok (mkDispatcher mailbox account [] []).

(** The dispatcher and the log of its mailbox. *)
Definition world : Type := AccountReadDispatcher * list event.
#[local] Abbreviation T := (M (world * nat)).

Definition set_mailbox b (x : world) : world := (mkDispatcher b (_account x.1) (_requests x.1) (_routes x.1), x.2).
Definition set_account a (x : world) : world := (mkDispatcher (mailbox x.1) a (_requests x.1) (_routes x.1), x.2).
Definition set_requests d (x : world) : world := (mkDispatcher (mailbox x.1) (_account x.1) d (_routes x.1), x.2).
Definition set_routes d (x : world) : world := (mkDispatcher (mailbox x.1) (_account x.1) (_requests x.1) d, x.2).

Definition to_account {A} (m : M (owned BrokerAccount) A) : T A := on (λ x, _account x.1) set_account m.

Section Clock.
Context (clock : nat → Z) (loads : bytes → decoded) (callers : nat → list Mailbox.call).
#[local] Notation now := (now clock).

(** The callers act. *)
Definition others : T unit := λ '(x, n),
  let '((b, n'), log) := Mailbox.run clock (callers n) (mailbox x.1, S n) x.2 in
  (((mkDispatcher b (_account x.1) (_requests x.1) (_routes x.1), log), n'), Ok tt).

(** One access to the mailbox, with its events. *)
Definition at_mailbox {A} (es : A → list event) (m : M (BrokerMailbox * nat) A) : T A :=
  _ ← others;
  a ← on (λ x, mailbox x.1) set_mailbox m;
  _ ← assign (λ x, (x.1, x.2 ++ es a));
  mret a.

Definition mail_poll : T Mailbox.MailboxWork := at_mailbox (λ w, (λ s, Handed (s_ticket s)) <$> submissions w) (Mailbox.poll clock).
Definition mail_acknowledge (k : MailboxTicket) : T bool := at_mailbox (Mailbox.when (Released k)) (Mailbox.acknowledge_cancel k).
Definition mail_bind (k : MailboxTicket) (r : ReadRequest) : T bool := at_mailbox (Mailbox.when (Bound k r)) (Mailbox.bind clock k r).
Definition mail_finish (k : MailboxTicket) (c : ReadCompletion) : T bool := at_mailbox (Mailbox.when (Finished k c)) (Mailbox.finish clock k c).
Definition mail_close : T unit := at_mailbox (λ _, []) Mailbox.close.
Definition mail_drain : T unit := at_mailbox (λ _, []) Mailbox.drain.

(** [dict.pop(key, None)] *)
Definition pop_request (k : MailboxTicket) : T (option ReadRequest) :=
  x ← state; _ ← assign (set_requests (dict_del k (_requests x.1))); mret (dict_get k (_requests x.1)).
Definition pop_route (t : ReceiptTicket) : T (option MailboxTicket) :=
  x ← state; _ ← assign (set_routes (dict_del t (_routes x.1))); mret (dict_get t (_routes x.1)).

Definition _release (k : MailboxTicket) : T unit :=
  request ← pop_request k;
  _ ← match request with
      | Some request =>
          _ ← pop_route (q_ticket request);
          _ ← to_account (BrokerAccount.account_cancel_read (q_ticket request));
          mret tt
      | None => mret tt
      end;
  _ ← mail_acknowledge k;
  mret tt.

(** One completion goes to the mailbox. *)
Definition publish_read (completion : ReadCompletion) : T unit :=
  ticket ← pop_route (q_ticket (c_request completion));
  match ticket with
  | Some ticket => _ ← pop_request ticket; _ ← mail_finish ticket completion; mret tt
  | None => mret tt
  end.

Definition _publish (events : AccountEvents) : T AccountEvents :=
  _ ← for_each publish_read (reads events);
  _ ← match retired events with
      | Some _ => _ ← mail_close; work ← mail_poll; for_each _release (cancellations work)
      | None => mret tt
      end;
  mret (mkEvents [] (heartbeats events) (outgoing events) (retired events)).

Definition close (reason : Retirement) : T AccountEvents :=
  events ← to_account (BrokerAccount.retire reason); _publish events.

(** The submissions of one [step]; [draws] are the message id and the random
    word of each frame. *)
Fixpoint prepare_reads (draws : MailboxTicket → Z * Z) (work : list Mailbox.ReadSubmission) (maintenance : AccountEvents) (prepared : list DispatchRead) :
    T DispatchBatch :=
  match work with
  | [] => mret (mkBatch prepared maintenance)
  | s :: work =>
      t ← now;
      let remaining := s_deadline s - t in
      if remaining <=? 0 then prepare_reads draws work maintenance prepared else
      read ← BrokerAccount.attempt (to_account (BrokerAccount.submit_read clock (s_device s) (s_path s) remaining (draws (s_ticket s)).1 (draws (s_ticket s)).2));
      match read with
      | Raise _ => m ← close Prepared; mret (mkBatch [] m)
      | Ok read =>
          accepted ← mail_bind (s_ticket s) (ar_request read);
          match accepted with
          | false => _ ← to_account (BrokerAccount.account_cancel_read (q_ticket (ar_request read))); prepare_reads draws work maintenance prepared
          | true =>
              _ ← assign (λ x, set_requests (dict_set (s_ticket s) (ar_request read) (_requests x.1)) x);
              _ ← assign (λ x, set_routes (dict_set (q_ticket (ar_request read)) (s_ticket s) (_routes x.1)) x);
              prepare_reads draws work maintenance (prepared ++ [mkRead (s_ticket s) read])
          end
      end
  end.

Definition step (random : Z) (draws : MailboxTicket → Z * Z) : T DispatchBatch :=
  events ← to_account (BrokerAccount.tick clock random);
  maintenance ← _publish events;
  work ← mail_poll;
  _ ← for_each _release (cancellations work);
  prepare_reads draws (submissions work) maintenance [].

Definition receive (plain : bytes) (peer : endpoint) (generation : Z) : T AccountEvents :=
  events ← to_account (BrokerAccount.receive clock loads plain peer generation); _publish events.

Definition drain : T AccountEvents :=
  _ ← mail_drain;
  events ← to_account (BrokerAccount.drain clock); _publish events.

(** The constructors of jobs are passed on to the account. *)
Definition prepare_ptz {A} (start : M (owned J) A) : T A := to_account (BrokerAccount.prepare_ptz clock start).
Definition prepare_media {A} (start : M (owned J) A) : T A := to_account (BrokerAccount.prepare_media clock start).
Definition prepare_siren_pulse {A} (span : Z) (start : M (owned J) A) : T A := to_account (BrokerAccount.prepare_siren_pulse clock span start).
Definition prepare_catalog_read {A} (deadline : Z) (start : M (owned J) A) : T A := to_account (BrokerAccount.prepare_catalog_read deadline start).
Definition prepare_lamp_read {A} (deadline : Z) (start : M (owned J) A) : T A := to_account (BrokerAccount.prepare_lamp_read deadline start).
Definition prepare_lamp_write {A} (deadline : Z) (start : M (owned J) A) : T A := to_account (BrokerAccount.prepare_lamp_write deadline start).
Definition prepare_control_write {A} (deadline : Z) (start : M (owned J) A) : T A := to_account (BrokerAccount.prepare_control_write deadline start).

(** ** Histories *)

(** A call of the owner.  A constructor of a job takes [count] sequence numbers
    and leaves the jobs as [jobs]; so does a step they make by themselves. *)
Inductive dispatch_call : Type :=
| Step (random : Z) (draws : MailboxTicket → Z * Z)
| Receive (plain : bytes) (peer : endpoint) (generation : Z)
| Close (reason : Retirement)
| Drain
| PreparePtz (count : Z) (jobs : J)
| PrepareMedia (count : Z) (jobs : J)
| PrepareSiren (span count : Z) (jobs : J)
| PrepareCatalog (deadline count : Z) (jobs : J)
| PrepareLampRead (deadline count : Z) (jobs : J)
| PrepareLampWrite (deadline count : Z) (jobs : J)
| PrepareControl (deadline count : Z) (jobs : J)
| JobsMove (count : Z) (jobs : J).

Definition dispatch_exec (c : dispatch_call) : T unit :=
  match c with
  | Step random draws => _ ← step random draws; mret tt
  | Receive plain peer generation => _ ← receive plain peer generation; mret tt
  | Close reason => _ ← close reason; mret tt
  | Drain => _ ← drain; mret tt
  | PreparePtz count jobs => prepare_ptz (BrokerAccount.start count jobs)
  | PrepareMedia count jobs => prepare_media (BrokerAccount.start count jobs)
  | PrepareSiren span count jobs => prepare_siren_pulse span (BrokerAccount.start count jobs)
  | PrepareCatalog deadline count jobs => prepare_catalog_read deadline (BrokerAccount.start count jobs)
  | PrepareLampRead deadline count jobs => prepare_lamp_read deadline (BrokerAccount.start count jobs)
  | PrepareLampWrite deadline count jobs => prepare_lamp_write deadline (BrokerAccount.start count jobs)
  | PrepareControl deadline count jobs => prepare_control_write deadline (BrokerAccount.start count jobs)
  | JobsMove count jobs => to_account (BrokerAccount.to_jobs (BrokerAccount.start count jobs))
  end.

Fixpoint dispatch_run (calls : list dispatch_call) (x : world * nat) : world * nat :=
  match calls with [] => x | c :: calls => let '(x, _) := (_ ← others; dispatch_exec c) x in dispatch_run calls x end.
End Clock.

(** ** The invariant *)

Definition reads_in (l : list BrokerAccount.awaiting) : list ReadRequest :=
  omap (λ p, match p with BrokerAccount.ReadOf r => Some r | _ => None end) l.
Definition inflight (x : world) : list ReadRequest := requests (a_reads (_account x.1).2).

Lemma reads_in_app l1 l2 : reads_in (l1 ++ l2) = reads_in l1 ++ reads_in l2.
Proof using. apply omap_app. Qed.
Lemma reads_in_reads rs : reads_in (BrokerAccount.ReadOf <$> rs) = rs.
Proof using. by apply omap_made. Qed.
Lemma reads_in_beats ts : reads_in (BrokerAccount.BeatOf <$> ts) = [].
Proof using. by apply omap_none. Qed.
Lemma reads_in_ended e : reads_in (BrokerAccount.ended_of e) = c_request <$> reads e.
Proof using. unfold BrokerAccount.ended_of, BrokerAccount.of_reads, BrokerAccount.of_beats. by rewrite reads_in_app, reads_in_reads, reads_in_beats, app_nil_r. Qed.
Lemma reads_in_outstanding (s : BrokerSequences * BrokerAccount (J := J)) : reads_in (BrokerAccount.outstanding s) = requests (a_reads s.2).
Proof using. unfold BrokerAccount.outstanding, BrokerAccount.awaited. by rewrite reads_in_app, reads_in_reads, reads_in_beats, app_nil_r. Qed.

Lemma step_reads g (s s' : BrokerSequences * BrokerAccount (J := J)) o e : step_ok g s s' o e → requests (a_reads s.2) ++ reads_in o ≡ₚ reads_in e ++ requests (a_reads s'.2).
Proof using.
  intros S. rewrite <-!reads_in_outstanding, <-!reads_in_app. unfold reads_in. by rewrite (BrokerAccount.st_requests _ _ _ _ _ S).
Qed.

(** The tables are inverse, and hold the reads in flight at the account, save
    the [ended] ones still to be published; [extra] are in flight and not yet in
    the tables.  A gesture that retires the account may leave stale entries.  A
    read that was bound and has not ended is in the tables, save at the ticket
    [hole]. *)
Record routed (g : Z) (ended extra : list ReadRequest) (hole : option MailboxTicket) (x : world) : Prop := {
  rt_mail : log_ok (mailbox x.1) x.2;
  rt_account : account_ok g (_account x.1);
  rt_keys : NoDup (_requests x.1).*1;
  rt_wires : NoDup (q_ticket <$> (_requests x.1).*2);
  rt_routes : _routes x.1 ≡ₚ (λ kr, (q_ticket kr.2, kr.1)) <$> _requests x.1;
  rt_bound k r : (k, r) ∈ _requests x.1 → (k, r) ∈ bound x.2 ∧ k ∈ handed x.2 ∧ k ∉ finished x.2 ∧ k ∉ released x.2;
  rt_kept k r : held (mailbox x.1) k r → (k, r) ∈ _requests x.1 ∨ hole = Some k;
  rt_reads : ∃ stale, (_requests x.1).*2 ++ extra ≡ₚ ended ++ stale ++ inflight x ∧ (stale ≠ [] → a_reason (_account x.1).2 ≠ None)
}.

Definition settled (x : world) : Prop := all_ended (mailbox x.1) ∧ _requests x.1 = [].

(** What others, and the worker itself, keep. *)
Record later (x x' : world) : Prop := {
  lt_held k r : held (mailbox x'.1) k r → held (mailbox x.1) k r;
  lt_ended : all_ended (mailbox x.1) → all_ended (mailbox x'.1);
  lt_requests : (_requests x'.1).*1 ⊆ (_requests x.1).*1;
  lt_reason : a_reason (_account x'.1).2 = a_reason (_account x.1).2
}.

Lemma later_refl x : later x x.
Proof using. by split. Qed.
Lemma later_trans x y z : later x y → later y z → later x z.
Proof using. intros [A1 A2 A3 A4] [B1 B2 B3 B4]. split; auto; [set_solver|congruence]. Qed.
Lemma later_settled x x' : later x x' → settled x → settled x'.
Proof using.
  intros [A1 A2 A3 A4] [E1 E2]. split; [by apply A2|]. rewrite E2 in A3. destruct (_requests x'.1) as [|[k r] d]; [done|].
  exfalso. specialize (A3 k). cbn in A3. set_solver.
Qed.

(** ** The mailbox of a dispatcher *)

Definition with_mail b es (x : world) : world := (mkDispatcher b (_account x.1) (_requests x.1) (_routes x.1), x.2 ++ es).

Lemma routed_mail g ended extra hole hole' x b es : routed g ended extra hole x → Mailbox.logged (mailbox x.1) x.2 b es →
  (∀ k, k ∈ (_requests x.1).*1 → k ∉ finished es ∧ k ∉ released es) →
  (∀ k r, held b k r → (k, r) ∈ _requests x.1 ∨ hole' = Some k) → routed g ended extra hole' (with_mail b es x).
Proof using.
  intros [R1 R2 R3 R4 R5 R6 R7 R8] [L1 L2 L3] Hes Hk. split; try done. cbn [with_mail fst snd _requests].
  intros k r Hin. destruct (R6 _ _ Hin) as (? & ? & ? & ?). destruct (Hes k) as [? ?]; [apply list_elem_of_fmap; by exists (k, r)|].
  unfold bound, handed. rewrite Mailbox.finishes_app, Mailbox.released_app, !omap_app, !not_elem_of_app, !elem_of_app.
  split_and!; try done; by left.
Qed.

Lemma caller_log es : Forall Mailbox.by_caller es → bound es = [] ∧ finished es = [] ∧ released es = [].
Proof using.
  induction es as [|e es IH]; [done|]. intros [He Hes]%Forall_cons. destruct (IH Hes) as (? & ? & ?). by destruct e.
Qed.

(** ** The tables *)

Lemma route_found g ended extra hole x k r : routed g ended extra hole x → (k, r) ∈ _requests x.1 →
  dict_get k (_requests x.1) = Some r ∧ dict_get (q_ticket r) (_routes x.1) = Some k.
Proof using.
  intros [R1 R2 R3 R4 R5 R6 R7 R8] Hin. split; [by apply dict_get_nodup|]. apply dict_get_nodup.
  - rewrite R5, <-list_fmap_compose. by rewrite <-list_fmap_compose in R4.
  - rewrite R5. apply list_elem_of_fmap. by exists (k, r).
Qed.

Definition unroute (k : MailboxTicket) (r : ReadRequest) (x : world) : world :=
  set_routes (dict_del (q_ticket r) (_routes x.1)) (set_requests (dict_del k (_requests x.1)) x).

Lemma unroute_ok g ended extra x k r : routed g ended extra None x → (k, r) ∈ _requests x.1 →
  routed g ended (r :: extra) (Some k) (unroute k r x) ∧ k ∉ (_requests (unroute k r x).1).*1.
Proof using.
  intros H Hin. destruct (route_found _ _ _ _ _ _ _ H Hin) as [Eq Er]. destruct H as [R1 R2 R3 R4 R5 R6 R7 (stale & R8 & R9)].
  pose proof (dict_del_perm k r _ R3 Eq) as Hp. unfold unroute. cbn [set_routes set_requests fst snd _requests].
  assert (NoDup (_routes x.1).*1) as Hr by (rewrite R5, <-list_fmap_compose; by rewrite <-list_fmap_compose in R4).
  pose proof (dict_del_perm (q_ticket r) k _ Hr Er) as Hpr.
  split.
  2:{ intros ([k' r'] & -> & [_ Hne]%dict_del_elem)%list_elem_of_fmap. done. }
  split; cbn [set_routes set_requests fst snd _requests _routes mailbox _account]; try done.
  - by apply dict_del_keys.
  - rewrite Hp in R4. cbn in R4. by apply NoDup_cons in R4 as [_ ?].
  - apply (Permutation_cons_inv (a := (q_ticket r, k))). rewrite <-Hpr, R5. by rewrite Hp at 1.
  - intros k' r' [Hin' _]%dict_del_elem. by apply R6.
  - intros k' r' [Hin'|?]%R7; [|done]. destruct (decide (k' = k)) as [->|Hne]; [by right|left]. by apply dict_del_elem.
  - exists stale. split; [|done]. rewrite Hp in R8. cbn in R8. change (inflight _) with (inflight x). rewrite <-R8. cbn. solve_Permutation.
Qed.

Lemma routed_cancel g ended extra hole x r : routed g (r :: ended) (r :: extra) hole x → routed g ended extra hole x.
Proof using.
  intros [R1 R2 R3 R4 R5 R6 R7 (stale & R8 & R9)]. split; try done. exists stale. split; [|done].
  apply (Permutation_cons_inv (a := r)). cbn in R8. rewrite <-R8. solve_Permutation.
Qed.

(** What is left in the tables of a retired account is stale. *)
Lemma routed_stale g ended extra hole x : routed g ended extra hole x → a_reason (_account x.1).2 ≠ None → routed g [] extra hole x.
Proof using.
  intros [R1 R2 R3 R4 R5 R6 R7 (stale & R8 & R9)] Hr. split; try done. exists (ended ++ stale). split; [|done]. by rewrite <-app_assoc.
Qed.

Lemma account_move g ended extra hole x s o e : routed g ended extra hole x → step_ok g (_account x.1) s o e →
  routed g (reads_in e ++ ended) (extra ++ reads_in o) hole (set_account s x).
Proof using.
  intros [R1 R2 R3 R4 R5 R6 R7 (stale & R8 & R9)] S. split; try done; [apply (BrokerAccount.st_ok _ _ _ _ _ S)|].
  exists stale. split.
  - pose proof (step_reads _ _ _ _ _ S) as Hs. unfold inflight in *. cbn [set_account fst _account _requests].
    rewrite app_assoc, R8. transitivity (ended ++ stale ++ requests (a_reads (_account x.1).2) ++ reads_in o); [solve_Permutation|].
    rewrite Hs. solve_Permutation.
  - intros Hn. cbn [set_account fst _account]. destruct (a_reason (_account x.1).2) eqn:E; [|by destruct (R9 Hn)].
    by rewrite (BrokerAccount.st_reason _ _ _ _ _ S _ E).
Qed.

(** The request of a cancelled read was the one in the tables. *)
Lemma same_request g ended extra hole x k r r' : routed g ended extra hole x → (k, r) ∈ _requests x.1 → r' ∈ inflight x → extra = [] →
  q_ticket r = q_ticket r' → r = r'.
Proof using.
  intros H Hin Hr -> E. destruct (rt_reads _ _ _ _ _ H) as (stale & R8 & _). rewrite app_nil_r in R8.
  assert (r' ∈ (_requests x.1).*2) as ([k' r''] & -> & Hin')%list_elem_of_fmap by (rewrite R8, !elem_of_app; by right; right).
  cbn in *. pose proof (route_found _ _ _ _ _ _ _ H Hin) as [H1 H2]. pose proof (route_found _ _ _ _ _ _ _ H Hin') as [H3 H4]. congruence.
Qed.

Lemma routed_drop g hole x r : routed g [] [r] hole x → r ∉ inflight x → routed g [] [] hole x.
Proof using.
  intros [R1 R2 R3 R4 R5 R6 R7 (stale & R8 & R9)] Hr. split; try done. cbn [app] in R8.
  assert (r ∈ stale) as [stale' E]%elem_of_Permutation.
  { assert (r ∈ stale ++ inflight x) as [?|?]%elem_of_app; [|done..]. rewrite <-R8. apply elem_of_app. right. by left. }
  exists stale'. split; [|intros _; apply R9; intros ->; by apply Permutation_nil_cons in E].
  apply (Permutation_cons_inv (a := r)). rewrite app_nil_r, Permutation_cons_append, R8, E. done.
Qed.

Lemma ends_to_account {A} (m : M (owned BrokerAccount) A) (P : result A → world → Prop) x :
  ends m (λ r s, P r (set_account s x)) (_account x.1) → ends (to_account m) P x.
Proof using. intros Hm. unfold to_account. by ends_step. Qed.

Section Runs.
Context (clock : nat → Z) (loads : bytes → decoded) (callers : nat → list Mailbox.call).
Context (Hcallers : ∀ n, Forall Mailbox.from_caller (callers n)) (g : Z).
#[local] Abbreviation any := (λ _ : Z, True).

Lemma others_ok ended extra hole x : routed g ended extra hole x →
  ends (others clock callers) (λ r x', r = Ok tt ∧ routed g ended extra hole x' ∧ later x x' ∧ _requests x'.1 = _requests x.1 ∧ _account x'.1 = _account x.1) x.
Proof using Hcallers.
  intros H n. unfold others, wp. pose proof (Mailbox.run_logged clock (callers n) (mailbox x.1) (S n) x.2 (rt_mail _ _ _ _ _ H)) as Hr.
  destruct (Mailbox.run clock (callers n) (mailbox x.1, S n) x.2) as [[b n'] log]. destruct Hr as (es & -> & HL & Hes).
  destruct (caller_log es (Hes (Hcallers n))) as (Eb & Ef & Er). cbn [fst snd]. destruct HL as [L1 L2 L3].
  assert (∀ k r, held b k r → held (mailbox x.1) k r) as Hheld by (intros k r [?|Hb]%L2; [done|rewrite Eb in Hb; by apply elem_of_nil in Hb]).
  split; [done|]. split; [|split; [by split|done]]. apply (routed_mail _ _ _ hole _ x b es); [done|by split|..].
  - intros k _. rewrite Ef, Er. split; apply not_elem_of_nil.
  - intros k r Hk. by apply (rt_kept _ _ _ _ _ H), Hheld.
Qed.

(** An access: the others move first. *)
Lemma ends_at {A} (es : A → list event) (m : M (BrokerMailbox * nat) A) (P : result A → world → Prop) ended extra hole x :
  routed g ended extra hole x →
  (∀ x', routed g ended extra hole x' → later x x' → _requests x'.1 = _requests x.1 → _account x'.1 = _account x.1 →
     ends m (λ r b, match r with Ok a => P (Ok a) (with_mail b (es a) x') | Raise e => P (Raise e) (set_mailbox b x') end) (mailbox x'.1)) →
  ends (at_mailbox clock callers es m) P x.
Proof using Hcallers.
  intros H Hm. unfold at_mailbox. eapply ends_use; [by apply others_ok|]. intros r x' (-> & H' & Hl & Er & Ea).
  ends_step. ends_step. eapply ends_mono; [by apply Hm|]. intros [a|e] b HP; [|done]. do 3 ends_step. done.
Qed.

Lemma ends_pop_request k (P : result (option ReadRequest) → world → Prop) x :
  P (Ok (dict_get k (_requests x.1))) (set_requests (dict_del k (_requests x.1)) x) → ends (pop_request k) P x.
Proof using. intros HP. unfold pop_request. by do 5 ends_step. Qed.

Lemma ends_pop_route t (P : result (option MailboxTicket) → world → Prop) x :
  P (Ok (dict_get t (_routes x.1))) (set_routes (dict_del t (_routes x.1)) x) → ends (pop_route t) P x.
Proof using. intros HP. unfold pop_route. by do 5 ends_step. Qed.

Lemma acknowledge_step ended extra hole k x : routed g ended extra hole x → hole = None ∨ hole = Some k → (∀ r, ¬ held (mailbox x.1) k r) →
  k ∉ (_requests x.1).*1 →
  ends (mail_acknowledge clock callers k) (λ r x', (∃ b, r = Ok b) ∧ routed g ended extra None x' ∧ later x x' ∧ _requests x'.1 = _requests x.1 ∧ _account x'.1 = _account x.1) x.
Proof using Hcallers.
  intros H Hhole Hk Hn. eapply ends_at; [done..|]. intros x' H' Hl Er Ea.
  eapply ends_mono; [apply (Mailbox.acknowledge_ok (mailbox x'.1) x'.2 (rt_mail _ _ _ _ _ H'))|]. intros [b|e] m; [|done]. intros [HL _].
  split; [by eexists|]. destruct HL as [L1 L2 L3].
  assert (∀ k r, held m k r → held (mailbox x'.1) k r) as Hheld by (intros k' r [?|Hb]%L2; [done|destruct b; by apply elem_of_nil in Hb]).
  split; [|split_and!; try done; split; cbn; try congruence; [intros k' r ?; by apply Hl, Hheld|intros ?; by apply L3, Hl]].
  apply (routed_mail _ _ _ _ _ x' m _ H'); [by split|..].
  - intros k' Hk'. destruct b; [|by split; apply not_elem_of_nil]. split; [apply not_elem_of_nil|]. intros ->%list_elem_of_singleton.
    rewrite Er in Hk'. done.
  - intros k' r Hr. apply Hheld in Hr. destruct (rt_kept _ _ _ _ _ H' _ _ Hr) as [?|Eh]; [by left|]. exfalso.
    destruct Hhole as [->| ->]; [done|]. injection Eh as <-. by apply (Hk r), Hl.
Qed.

(** A request outside the tables is cancelled at the account. *)
Lemma cancel_extra hole x r : routed g [] [r] hole x → (∀ r', r' ∈ inflight x → q_ticket r' = q_ticket r → r' = r) →
  ends (to_account (BrokerAccount.account_cancel_read (q_ticket r)))
    (λ res x', (∃ c, res = Ok c) ∧ routed g [] [] hole x' ∧ ∃ s, x' = set_account s x ∧ a_reason s.2 = a_reason (_account x.1).2) x.
Proof using.
  intros H1 Huniq. apply ends_to_account. pose proof (rt_account _ _ _ _ _ H1) as Ha. destruct (_account x.1) as [q a] eqn:Eqa.
  eapply ends_mono; [by apply (BrokerAccount.cancel_step g)|]. intros res s (c & -> & S & Hc & Hr). rewrite <-Eqa in S.
  pose proof (account_move _ _ _ _ _ _ _ _ H1 S) as H2. pose proof (step_reads _ _ _ _ _ S) as Hs. split; [by eexists|].
  split; [|exists s; split; [done|by rewrite Hr]]. destruct c as [c|]; cbn in H2, Hs.
  - assert (c_request c = r) as E by (apply Huniq; [unfold inflight; rewrite <-(app_nil_r (requests _)), Hs; by left|done]).
    rewrite E in H2. by apply routed_cancel in H2.
  - apply (routed_drop _ _ _ r); [exact H2|]. intros Hx. apply Hc. unfold tickets. apply list_elem_of_fmap. exists r. split; [done|].
    rewrite app_nil_r, Eqa in Hs. cbn [snd] in Hs. rewrite Hs. exact Hx.
Qed.

(** A read given up by its caller is released: its entries, its reservation at
    the account, then its slot. *)
Lemma cancel_part x k r : routed g [] [] None x → (k, r) ∈ _requests x.1 →
  ends (to_account (BrokerAccount.account_cancel_read (q_ticket r)))
    (λ res x', (∃ c, res = Ok c) ∧ routed g [] [] (Some k) x' ∧ later x x' ∧ k ∉ (_requests x'.1).*1) (unroute k r x).
Proof using.
  intros H Hin. destruct (unroute_ok _ _ _ _ _ _ H Hin) as [H1 Hn].
  eapply ends_mono; [apply (cancel_extra (Some k) (unroute k r x) r H1)|].
  - intros r' Hr E. symmetry. eapply same_request; [exact H|exact Hin|exact Hr|done|by rewrite E].
  - intros res x' (? & H2 & s & -> & Hr). split_and!; [done|done| |done]. split; try done.
    intros k' Hk'. apply list_elem_of_fmap in Hk' as ([k0 r0] & -> & [Hin0 _]%dict_del_elem). apply list_elem_of_fmap. by exists (k0, r0).
Qed.

Lemma release_ok k x : routed g [] [] None x → (∀ r, ¬ held (mailbox x.1) k r) →
  ends (_release clock callers k) (λ res x', res = Ok tt ∧ routed g [] [] None x' ∧ later x x' ∧ k ∉ (_requests x'.1).*1) x.
Proof using Hcallers.
  intros H Hk. assert (∀ x1 hole, routed g [] [] hole x1 → hole = None ∨ hole = Some k → later x x1 → k ∉ (_requests x1.1).*1 →
    ends (_ ← mail_acknowledge clock callers k; mret tt) (λ res x', res = Ok tt ∧ routed g [] [] None x' ∧ later x x' ∧ k ∉ (_requests x'.1).*1) x1) as Hack.
  { intros x1 hole H1 Hhole Hl Hn. eapply ends_use; [eapply (acknowledge_step [] [] hole k x1); try done; intros r Hr; by apply (Hk r), Hl|].
    intros res x2 ([b ->] & H2 & Hl2 & Er & _). ends_step. split_and!; [done|done|by eapply later_trans|by rewrite Er]. }
  unfold _release. ends_step. apply ends_pop_request. destruct (dict_get k (_requests x.1)) as [r|] eqn:E.
  - pose proof (dict_get_elem _ _ _ E) as Hin. destruct (route_found _ _ _ _ _ _ _ H Hin) as [_ Er].
    do 2 ends_step. apply ends_pop_route. cbv beta iota.
    match goal with |- ends ?m ?P _ => change (ends m P (unroute k r x)) end. eapply ends_use; [by apply cancel_part|]. intros res x1 ([c ->] & H1 & Hl & Hn). ends_step.
    eapply Hack; [exact H1|by right|done|done].
  - do 2 ends_step. rewrite dict_del_fresh by done. replace (set_requests _ x) with x by by destruct x as [[] ?].
    eapply Hack; [exact H|by left|apply later_refl|by apply dict_get_None].
Qed.

(** Releasing all of [ks], which are not held. *)
Lemma releases_ok ks x : routed g [] [] None x → (∀ k r, k ∈ ks → ¬ held (mailbox x.1) k r) →
  ends (for_each (_release clock callers) ks) (λ res x', res = Ok tt ∧ routed g [] [] None x' ∧ later x x' ∧
    ∀ k, k ∈ (_requests x'.1).*1 → k ∈ (_requests x.1).*1 ∧ k ∉ ks) x.
Proof using Hcallers.
  intros H Hks. eapply ends_mono; [apply (ends_each _ (λ l x', routed g [] [] None x' ∧ later x x' ∧ l ⊆ ks ∧
    ∀ k, k ∈ (_requests x'.1).*1 → k ∈ (_requests x.1).*1 ∧ (k ∈ ks → k ∈ l)))|].
  - intros k l x1 (H1 & Hl & Hsub & Hk). eapply ends_mono; [apply (release_ok k x1); [done|]|].
    + intros r Hr. apply (Hks k r); [set_solver|]. by apply Hl.
    + intros res x2 (-> & H2 & Hl2 & Hn). split; [done|]. split_and!; [done|by eapply later_trans|set_solver|].
      intros k' Hk'. destruct (Hk k') as [Hk1 Hk2]; [by apply Hl2|]. split; [done|]. intros [->|?]%Hk2%elem_of_cons; [|done]. by destruct Hn.
  - split_and!; [done|apply later_refl|done|]. intros k ?. by split.
  - intros res x' (-> & H' & Hl & _ & Hk). split_and!; [done|done|done|]. intros k Hin. destruct (Hk k Hin) as [? Hks']. split; [done|].
    intros ?%Hks'. by eapply not_elem_of_nil.
Qed.

(** A completion reaches the slot of its request, unless it has ended. *)
Lemma publish_read_ok c ended x : routed g (c_request c :: ended) [] None x →
  ends (publish_read clock callers c) (λ res x', res = Ok tt ∧ routed g ended [] None x' ∧ later x x') x.
Proof using Hcallers.
  intros H. destruct (rt_reads _ _ _ _ _ H) as (stale & R8 & _). rewrite app_nil_r in R8.
  assert (c_request c ∈ (_requests x.1).*2) as ([k r] & Ec & Hin)%list_elem_of_fmap by (rewrite R8; by left). cbn in Ec.
  destruct (route_found _ _ _ _ _ _ _ H Hin) as [_ Er]. destruct (unroute_ok _ _ _ _ _ _ H Hin) as [H1 Hn]. rewrite Ec in H1. apply routed_cancel in H1.
  unfold publish_read. ends_step. apply ends_pop_route. rewrite Ec, Er. cbv beta iota. ends_step. apply ends_pop_request. cbv beta iota.
  match goal with |- ends ?m ?P _ => change (ends m P (unroute k r x)) end. ends_step. eapply ends_at; [done..|]. intros x' H' Hl Eq Ea.
  eapply ends_mono; [apply (Mailbox.finish_ok clock any (λ _, I) (mailbox x'.1) x'.2 (rt_mail _ _ _ _ _ H'))|]. intros [b|e] m; [|done].
  intros [[L1 L2 L3] [_ Hheld]]. ends_step. split; [done|].
  assert (∀ k r, held m k r → held (mailbox x'.1) k r) as Hold by (intros k' r' [?|Hb]%L2; [done|destruct b; by apply elem_of_nil in Hb]).
  assert (∀ r', held m k r' → False) as Hend.
  { intros r' Hr. apply (Hheld _ Hr). apply Hold, Hl in Hr. destruct (rt_kept _ _ _ _ _ H _ _ Hr) as [Hin'|?]; [|done].
    rewrite Ec. apply (dict_get_nodup _ _ _ (rt_keys _ _ _ _ _ H)) in Hin, Hin'. congruence. }
  split.
  - apply (routed_mail _ _ _ _ _ x' m _ H'); [by split|..].
    + intros k' Hk'. destruct b; [|by split; apply not_elem_of_nil]. split; [|apply not_elem_of_nil]. intros ->%list_elem_of_singleton.
      rewrite Eq in Hk'. done.
    + intros k' r' Hr. destruct (rt_kept _ _ _ _ _ H' _ _ (Hold _ _ Hr)) as [?|[= <-]]; [by left|by apply Hend in Hr].
  - destruct Hl as [E1 E2 E3 E4]. split; cbn [with_mail fst mailbox _requests _account]; [intros k' r' ?; by apply E1, Hold|intros ?; by apply L3, E2| |by rewrite E4].
    rewrite Eq. intros k' Hk'. apply list_elem_of_fmap in Hk' as ([k0 r0] & -> & [Hin0 _]%dict_del_elem). apply list_elem_of_fmap. by exists (k0, r0).
Qed.

(** A slot of the tables in an ended mailbox is reported for release. *)
Lemma pending_release x k : routed g [] [] None x → all_ended (mailbox x.1) → k ∈ (_requests x.1).*1 →
  ∃ s, (k, s) ∈ _slots (mailbox x.1) ∧ Mailbox.cancel_pending s = true.
Proof using.
  intros H [_ Hend] ([k' r] & -> & Hin)%list_elem_of_fmap. destruct (rt_bound _ _ _ _ _ H _ _ Hin) as (_ & H1 & H2 & H3).
  destruct (Mailbox.logged_working _ _ _ (rt_mail _ _ _ _ _ H) H1 H2 H3) as (s & Hs & Hw). exists s. split; [done|].
  destruct (Mailbox.lo_slot _ _ (rt_mail _ _ _ _ _ H) _ _ Hs) as (Hok & _). specialize (Hend _ _ Hs).
  unfold working, unended in *. destruct (Mailbox.cancel_pending s) eqn:Ec; [done|]. cbn in Hw. apply andb_true_iff in Hw as [_ Hw].
  rewrite Hw in Hend. cbn in Hend. apply negb_false_iff in Hend. destruct (Mailbox.so_consumed _ _ _ _ _ Hok Hend). congruence.
Qed.

Lemma poll_step x : routed g [] [] None x →
  ends (mail_poll clock callers) (λ res x', ∃ w, res = Ok w ∧ routed g [] [] None x' ∧ later x x' ∧ _requests x'.1 = _requests x.1 ∧
    (∀ k r, k ∈ cancellations w → ¬ held (mailbox x'.1) k r) ∧
    (all_ended (mailbox x.1) → submissions w = [] ∧ ∀ k, k ∈ (_requests x.1).*1 → k ∈ cancellations w)) x.
Proof using Hcallers.
  intros H. eapply ends_at; [done..|]. intros x' H' Hl Eq Ea.
  eapply ends_mono; [apply (Mailbox.poll_ok clock any (λ _, I) (mailbox x'.1) x'.2 (rt_mail _ _ _ _ _ H'))|]. intros [w|e] m; [|done].
  intros [[L1 L2 L3] (Hsub & Hcan & Hun)]. exists w. split; [done|].
  set (es := (λ s, Handed (s_ticket s)) <$> submissions w) in *. assert (finished es = [] ∧ released es = [] ∧ bound es = []) as (Ef & Er & Eb).
  { destruct (Mailbox.events_handed (s_ticket <$> submissions w)) as (_ & _ & Ef & Er & _ & Eb & _). rewrite <-list_fmap_compose in Ef, Er, Eb. done. }
  assert (∀ k r, held m k r → held (mailbox x'.1) k r) as Hold by (intros k r [?|Hb]%L2; [done|by rewrite Eb in Hb; apply elem_of_nil in Hb]).
  split; [|split_and!].
  - apply (routed_mail _ _ _ _ _ x' m _ H'); [by split|..].
    + intros k _. rewrite Ef, Er. split; apply not_elem_of_nil.
    + intros k r Hr. by apply (rt_kept _ _ _ _ _ H'), Hold.
  - destruct Hl as [E1 E2 E3 E4]. split; cbn; try done; [intros k r ?; by apply E1, Hold|intros ?; by apply L3, E2].
  - done.
  - intros k r Hk (s & Hs & _ & Hu). specialize (Hun _ _ Hk Hs). congruence.
  - intros Hend%(lt_ended _ _ Hl). split.
    + destruct (submissions w) as [|s l]; [done|]. destruct (Hsub s) as [Hc _]; [by left|]. destruct Hend. congruence.
    + intros k Hk. rewrite <-Eq in Hk. destruct (pending_release _ _ H' Hend Hk) as (s & Hs & Hp). apply (Hcan _ _ Hs). by left.
Qed.

Lemma publish_ok events x : routed g (c_request <$> reads events) [] None x →
  ends (_publish clock callers events) (λ res x', res = Ok (mkEvents [] (heartbeats events) (outgoing events) (retired events)) ∧
    routed g [] [] None x' ∧ later x x' ∧ (retired events ≠ None → settled x')) x.
Proof using Hcallers.
  intros H. unfold _publish. eapply ends_use.
  { apply (ends_each _ (λ l x', routed g (c_request <$> l) [] None x' ∧ later x x')); [|split; [exact H|apply later_refl]].
    intros c l x1 [H1 Hl]. eapply ends_mono; [by apply publish_read_ok|]. intros res x2 (-> & H2 & Hl2). split_and!; [done|done|by eapply later_trans]. }
  intros res x1 (-> & H1 & Hl). cbn [fmap list_fmap] in H1.
  destruct (retired events) as [reason|]; [|do 3 go; by split_and!].
  do 2 go. eapply ends_at; [done..|]. intros x2 H2 Hl2 _ _.
  eapply ends_mono; [apply (Mailbox.stop_all_ok (mailbox x2.1) x2.2 (rt_mail _ _ _ _ _ H2) (λ _, true)); done|]. intros [[]|e] m; [|done].
  intros [[L1 L2 L3] [Hc Hun]]. set (x3 := with_mail m [] x2).
  assert (∀ k r, held m k r → held (mailbox x2.1) k r) as Hold by (intros k r [?|Hb]%L2; [done|by apply elem_of_nil in Hb]).
  assert (routed g [] [] None x3) as H3.
  { apply (routed_mail _ _ _ _ _ x2 m _ H2); [by split|intros k _; split; apply not_elem_of_nil|intros k r Hr; by apply (rt_kept _ _ _ _ _ H2), Hold]. }
  assert (all_ended (mailbox x3.1)) as Hend by (split; [done|]; intros k s Hs; by eapply Hun).
  assert (later x x3) as Hl3.
  { eapply later_trans; [exact Hl|]. destruct Hl2 as [E1 E2 E3 E4]. split; cbn; try done. intros k r ?. by apply E1, Hold. }
  eapply ends_use; [by apply poll_step|]. intros res x4 (w & -> & H4 & Hl4 & Eq4 & Hk & Hall). destruct (Hall Hend) as [_ Hkeys].
  eapply ends_mono; [by apply releases_ok|]. intros res x5 (-> & H5 & Hl5 & Hrest). ends_step.
  split_and!; [done|done|by do 2 (eapply later_trans; [done|])|]. intros _. split; [by apply Hl5, Hl4|].
  destruct (_requests x5.1) as [|[k r] d]; [done|]. destruct (Hrest k) as [Hk1 Hk2]; [by left|]. destruct Hk2. apply Hkeys. by rewrite <-Eq4.
Qed.

(** ** The calls of the owner *)

Definition served (x : world) : Prop := routed g [] [] None x ∧ (a_reason (_account x.1).2 ≠ None → settled x).

(** The account acts and its events are published. *)
Lemma serve_ok (m : M (owned BrokerAccount) AccountEvents) (o : BrokerSequences * BrokerAccount → AccountEvents → list BrokerAccount.awaiting) x :
  routed g [] [] None x →
  ends m (λ res s', ∃ e, res = Ok e ∧ step_ok g (_account x.1) s' (o s' e) (BrokerAccount.ended_of e) ∧ reads_in (o s' e) = [] ∧ retired e = a_reason s'.2) (_account x.1) →
  ends (e ← to_account m; _publish clock callers e) (λ res x', ∃ e, res = Ok e ∧ retired e = a_reason (_account x'.1).2 ∧ served x') x.
Proof using Hcallers.
  intros H Hm. go. apply ends_to_account. eapply ends_mono; [exact Hm|]. intros res s' (e & -> & S & Ho & Hr). cbv beta iota.
  pose proof (account_move _ _ _ _ _ _ _ _ H S) as H1. rewrite Ho, reads_in_ended, !app_nil_r in H1.
  eapply ends_mono; [by apply publish_ok|]. intros res x' (-> & H2 & Hl & Hs). eexists. split; [done|]. cbn [retired].
  rewrite (lt_reason _ _ Hl). split; [done|]. split; [done|]. rewrite (lt_reason _ _ Hl). cbn [set_account fst _account]. rewrite <-Hr. exact Hs.
Qed.

Lemma close_ok reason x : routed g [] [] None x →
  ends (close clock callers reason) (λ res x', ∃ e, res = Ok e ∧ retired e = a_reason (_account x'.1).2 ∧ served x' ∧ a_reason (_account x'.1).2 ≠ None) x.
Proof using Hcallers.
  intros H. unfold close. pose proof (rt_account _ _ _ _ _ H) as Ha. go. apply ends_to_account. destruct (_account x.1) as [q a] eqn:Eqa.
  eapply ends_mono; [by apply (BrokerAccount.retire_ok clock any (λ _, I) g)|]. intros res s' (e & -> & S & _ & Hr & Hn & _). cbv beta iota. rewrite <-Eqa in S.
  pose proof (account_move _ _ _ _ _ _ _ _ H S) as H1. rewrite reads_in_ended, !app_nil_r in H1.
  eapply ends_mono; [by apply publish_ok|]. intros res x' (-> & H2 & Hl & Hs). pose proof (lt_reason _ _ Hl) as El. cbn [set_account fst _account] in El.
  eexists. split; [done|]. cbn [retired]. rewrite El. split; [done|]. split; [|by rewrite Hn]. split; [done|]. rewrite El, <-Hr. exact Hs.
Qed.

Lemma receive_served `{!JobsLaws J} plain peer generation x : routed g [] [] None x → sealable plain →
  ends (receive clock loads callers plain peer generation) (λ res x', ∃ e, res = Ok e ∧ retired e = a_reason (_account x'.1).2 ∧ served x') x.
Proof using Hcallers.
  intros H Hp. apply (serve_ok _ (λ _ _, [])); [done|]. pose proof (rt_account _ _ _ _ _ H) as Ha. destruct (_account x.1) as [q a].
  eapply ends_mono; [by apply (BrokerAccount.receive_ok clock loads any (λ _, I) g)|]. intros res s' [(e & -> & S & _ & Hr) _]. by exists e.
Qed.

Lemma drain_served x : routed g [] [] None x →
  ends (drain clock callers) (λ res x', ∃ e, res = Ok e ∧ retired e = a_reason (_account x'.1).2 ∧ served x') x.
Proof using Hcallers.
  intros H. unfold drain, mail_drain. go. eapply ends_at; [done..|]. intros x1 H1 Hl _ _.
  eapply ends_mono; [apply (Mailbox.stop_all_ok (mailbox x1.1) x1.2 (rt_mail _ _ _ _ _ H1) (λ s, negb (Mailbox.claimed s))); by intros s ?%negb_false_iff|].
  intros [[]|e] m; [|done]. intros [[L1 L2 L3] _]. cbv beta iota.
  assert (routed g [] [] None (with_mail m [] x1)) as H2.
  { apply (routed_mail _ _ _ _ _ x1 m _ H1); [by split|intros k _; split; apply not_elem_of_nil|].
    intros k r [Hr|Hb]%L2; [by apply (rt_kept _ _ _ _ _ H1)|by apply elem_of_nil in Hb]. }
  apply (serve_ok _ (λ _ _, [])); [done|]. pose proof (rt_account _ _ _ _ _ H2) as Ha. destruct (_account _) as [q a].
  eapply ends_mono; [by apply (BrokerAccount.drain_ok clock any (λ _, I) g)|]. intros res s' [(e & -> & S & _ & Hr & _) _]. by exists e.
Qed.

(** A request bound to its slot enters the tables. *)
Lemma bind_step x k r : routed g [] [r] None x → a_reason (_account x.1).2 = None →
  ends (mail_bind clock callers k r) (λ res x', ∃ b : bool, res = Ok b ∧ _account x'.1 = _account x.1 ∧ _requests x'.1 = _requests x.1 ∧
    if b then dict_get k (_requests x'.1) = None ∧ routed g [] [] None (set_routes (dict_set (q_ticket r) k (_routes x'.1)) (set_requests (dict_set k r (_requests x'.1)) x'))
    else routed g [] [r] None x') x.
Proof using Hcallers.
  intros H Hreason. eapply ends_at; [done..|]. intros x1 H1 _ Eq Ea.
  eapply ends_mono; [apply (Mailbox.bind_ok clock any (λ _, I) (mailbox x1.1) x1.2 (rt_mail _ _ _ _ _ H1))|]. intros [b|e] m; [|done].
  intros [HL Hb]. exists b. split; [done|]. split; [done|]. split; [done|]. destruct b.
  2:{ apply (routed_mail _ _ _ _ _ x1 m _ H1 HL); [intros k' _; split; apply not_elem_of_nil|].
      intros k' r' [Hr|Hx]%(lg_held _ _ _ _ HL); [by apply (rt_kept _ _ _ _ _ H1)|by apply elem_of_nil in Hx]. }
  destruct (Hb eq_refl) as (s & Hs & Hcl & Hnone & Hu & _). destruct HL as [L1 L2 L3]. rewrite <-Ea in Hreason.
  destruct H1 as [R1 R2 R3 R4 R5 R6 R7 (stale & R8 & R9)].
  assert (stale = []) as -> by (destruct stale; [done|by destruct R9]). cbn [app] in R8.
  destruct (Mailbox.working_logged _ _ k s R1 Hs) as (Hw1 & Hw2 & Hw3).
  { unfold working, unended in *. apply andb_true_iff in Hu as [Hu _]. by rewrite Hcl, Hu, orb_true_r. }
  assert (∀ r', (k, r') ∉ bound x1.2) as Hfresh by (intros r' Hx; apply (Mailbox.lo_bound _ _ R1 _ _ r' Hs) in Hx; congruence).
  assert (k ∉ (_requests x1.1).*1) as Hk by (intros ([k' r'] & -> & Hin)%list_elem_of_fmap; destruct (R6 _ _ Hin) as [Hx _]; by apply Hfresh in Hx).
  assert (NoDup (q_ticket <$> (_requests x1.1).*2 ++ [r])) as Hnd.
  { rewrite R8. destruct (_account x1.1) as [q a] eqn:Eqa. unfold inflight. rewrite Eqa. eapply Broker.tickets_nodup, (Broker.wk_reads _ _ (BrokerAccount.ac_wait _ _ R2)). }
  assert (q_ticket r ∉ (_routes x1.1).*1) as Ht.
  { rewrite R5, <-list_fmap_compose. rewrite fmap_app in Hnd. apply NoDup_app in Hnd as (_ & Hd & _). rewrite <-list_fmap_compose in Hd.
    intros Hx. apply (Hd _ Hx). by left. }
  unfold with_mail, set_routes, set_requests. cbn [fst snd _requests _routes mailbox _account].
  split; [by apply dict_get_None|]. rewrite !dict_set_fresh by by apply dict_get_None.
  split; cbn [fst snd _requests _routes mailbox _account]; try done.
  - rewrite fmap_app. apply NoDup_app. split_and!; [done| |apply NoDup_singleton]. by intros ? ? ->%list_elem_of_singleton.
  - by rewrite fmap_app.
  - by rewrite R5, fmap_app.
  - unfold bound, handed, finished, released. rewrite !omap_app. cbn. rewrite !app_nil_r.
    intros k' r' [Hin|[= -> ->]%list_elem_of_singleton]%elem_of_app.
    + destruct (R6 _ _ Hin) as (? & ? & ? & ?). split_and!; try done. apply elem_of_app. by left.
    + split_and!; try done. apply elem_of_app. right. by left.
  - intros k' r' [Hr|Hx]%L2; left; apply elem_of_app; [by destruct (R7 _ _ Hr); [left|]|right]. exact Hx.
  - exists []. rewrite fmap_app, app_nil_r. by split.
Qed.

Lemma prepare_reads_ok draws maint work : ∀ prepared0 x, routed g [] [] None x → (a_reason (_account x.1).2 ≠ None → settled x ∧ work = []) →
  retired maint = a_reason (_account x.1).2 → (∀ p, p ∈ prepared0 → (ticket p, ar_request (prepared p)) ∈ _requests x.1) →
  ends (prepare_reads clock callers draws work maint prepared0) (λ res x', ∃ batch, res = Ok batch ∧ served x' ∧
    retired (maintenance batch) = a_reason (_account x'.1).2 ∧ (∀ p, p ∈ batch_reads batch → (ticket p, ar_request (prepared p)) ∈ _requests x'.1)) x.
Proof using Hcallers.
  induction work as [|s work IH]; intros done_ x H Hset Hret Hp; cbn [prepare_reads].
  { go. eexists. split; [done|]. split; [|by split]. split; [done|]. by intros [? _]%Hset. }
  assert (a_reason (_account x.1).2 = None) as Hreason by (destruct (a_reason _) eqn:E; [by destruct Hset|done]).
  go. apply ends_now. intros t. cbv beta iota zeta. destruct (_ <=? 0).
  { by apply IH. }
  go. apply BrokerAccount.ends_attempt, ends_to_account. pose proof (rt_account _ _ _ _ _ H) as Ha. destruct (_account x.1) as [q a] eqn:Eqa.
  eapply ends_mono; [by apply (BrokerAccount.submit_read_ok clock any (λ _, I) g)|]. cbn [snd] in Hreason. intros [read|e] s1; cbv beta iota; rewrite <-Eqa.
  2:{ intros S. pose proof (account_move _ _ _ _ _ _ _ _ H S) as H1. cbn [app] in H1. eapply ends_use; [by apply close_ok|].
      intros res x2 (m & -> & Hm & Hs & _). go. eexists. split; [done|]. split; [done|]. split; [done|]. by intros p ?%elem_of_nil. }
  intros (_ & S & _ & _ & Hr1). pose proof (account_move _ _ _ _ _ _ _ _ H S) as H1. cbn in H1.
  eapply ends_use; [by apply bind_step|]. intros res x2 (b & -> & Ea & Eq & H2). cbn [set_account fst _requests _account] in Ea, Eq. destruct b.
  - destruct H2 as [Hnew H2]. do 2 go. do 2 go. apply IH; [exact H2|by cbn; rewrite Ea, Hr1|cbn; by rewrite Ea, Hr1, Hret|].
    cbn [set_routes set_requests fst _requests]. rewrite dict_set_fresh, Eq by done.
    intros p [Hin|Hin]%elem_of_app; apply elem_of_app; [left; by apply Hp|right]. apply list_elem_of_singleton in Hin as ->. by left.
  - eapply ends_use; [apply (cancel_extra None x2 (ar_request read) H2)|].
    + intros r' Hr' E. pose proof (rt_account _ _ _ _ _ H2) as H2a. destruct (rt_reads _ _ _ _ _ H2) as (stale & R8 & R9).
      assert (stale = []) as -> by (destruct stale; [done|destruct R9; [done|by rewrite Ea]]). cbn [app] in R8.
      destruct (_account x2.1) as [q2 a2] eqn:E2. unfold inflight in *. rewrite E2 in *. eapply Broker.requests_unique; [apply (Broker.wk_reads _ _ (BrokerAccount.ac_wait _ _ H2a))|exact Hr'| |exact E].
      cbn [fst snd] in *. rewrite <-R8. apply elem_of_app. right. by left.
    + intros res x3 ([c ->] & H3 & s3 & -> & Hr3). rewrite Ea in Hr3.
      apply IH; [done|cbn; by rewrite Hr3, Hr1|cbn; by rewrite Hr3, Hr1, Hret|]. cbn [set_account fst _requests]. by rewrite Eq.
Qed.

Lemma ends_assoc {X A B C} (m : M (X * nat) A) (f : A → M (X * nat) B) (h : B → M (X * nat) C) P x :
  ends ((m ≫= f) ≫= h) P x → ends (m ≫= λ a, f a ≫= h) P x.
Proof using. intros H n. specialize (H n). unfold wp, mbind, M_bind in *. by destruct (m (x, n)) as [s [a|e]]. Qed.

Lemma step_served random draws x : routed g [] [] None x →
  ends (step clock callers random draws) (λ res x', ∃ batch, res = Ok batch ∧ served x' ∧ retired (maintenance batch) = a_reason (_account x'.1).2 ∧
    (∀ p, p ∈ batch_reads batch → (ticket p, ar_request (prepared p)) ∈ _requests x'.1)) x.
Proof using Hcallers.
  intros H. unfold step.
  assert (ends (e ← to_account (BrokerAccount.tick clock random); _publish clock callers e)
    (λ res x', ∃ e, res = Ok e ∧ retired e = a_reason (_account x'.1).2 ∧ served x') x) as Htick.
  { apply (serve_ok _ (λ s e, BrokerAccount.opens s.2 e)); [done|]. pose proof (rt_account _ _ _ _ _ H) as Ha. destruct (_account x.1) as [q a].
    eapply ends_mono; [by apply (BrokerAccount.tick_ok clock any (λ _, I) g)|]. intros res s' (e & -> & S & Hr & _). exists e. split_and!; try done.
    unfold BrokerAccount.opens. destruct (outgoing e); [done|apply reads_in_beats]. }
  apply ends_assoc. eapply ends_use; [exact Htick|]. intros res x1 (maint & -> & Hr & H1 & Hset).
  eapply ends_use; [by apply poll_step|]. intros res x2 (w & -> & H2 & Hl2 & _ & Hk & Hall).
  eapply ends_use; [by apply releases_ok|]. intros res x3 (-> & H3 & Hl3 & _). pose proof (later_trans _ _ _ Hl2 Hl3) as Hl.
  apply prepare_reads_ok; [done| |by rewrite (lt_reason _ _ Hl)|by intros p ?%elem_of_nil].
  rewrite (lt_reason _ _ Hl). intros Hs%Hset. split; [by eapply later_settled|]. by apply Hall, Hs.
Qed.

Definition dispatch_admissible (c : dispatch_call) : Prop :=
  match c with Receive plain _ _ => sealable plain | _ => True end.

(** A constructor of a job; a gesture may retire the account, and then the
    entries are stale. *)
Lemma passed_on {A} (m : M (owned BrokerAccount) A) x : routed g [] [] None x →
  ends m (λ _ s', ∃ e, step_ok g (_account x.1) s' [] e ∧ (e ≠ [] → a_reason s'.2 ≠ None)) (_account x.1) →
  ends (to_account m) (λ _ x', routed g [] [] None x') x.
Proof using.
  intros H Hm. apply ends_to_account. eapply ends_mono; [exact Hm|]. intros res s (e & S & He).
  pose proof (account_move _ _ _ _ _ _ _ _ H S) as H1. cbn [app] in H1. destruct e as [|p e]; [exact H1|]. eapply routed_stale; [exact H1|]. by apply He.
Qed.

Lemma passed_quiet {A} (m : M (owned BrokerAccount) A) x : routed g [] [] None x →
  ends m (λ _ s', step_ok g (_account x.1) s' [] []) (_account x.1) → ends (to_account m) (λ _ x', routed g [] [] None x') x.
Proof using. intros H Hm. apply passed_on; [done|]. eapply ends_mono; [exact Hm|]. intros res s S. by exists []. Qed.

Lemma dispatch_exec_ok `{!JobsLaws J} c x : routed g [] [] None x → dispatch_admissible c →
  ends (dispatch_exec clock loads callers c) (λ _ x', routed g [] [] None x') x.
Proof using Hcallers.
  intros H Hc. pose proof (rt_account _ _ _ _ _ H) as Ha. pose proof (BrokerAccount.start_ok (J := J)) as Hstart.
  destruct c as [random draws|plain peer generation|reason| |count jobs|count jobs|span count jobs|d count jobs|d count jobs|d count jobs|d count jobs|count jobs];
    cbn [dispatch_exec].
  - eapply ends_use; [by apply step_served|]. intros res x' (b & -> & [? _] & _). by go.
  - eapply ends_use; [by apply receive_served|]. intros res x' (b & -> & _ & [? _]). by go.
  - eapply ends_use; [by apply close_ok|]. intros res x' (b & -> & _ & [? _] & _). by go.
  - eapply ends_use; [by apply drain_served|]. intros res x' (b & -> & _ & [? _]). by go.
  - apply passed_on; [done|]. destruct (_account x.1) as [q a]. eapply ends_mono; [by apply (BrokerAccount.prepare_ptz_ok clock any (λ _, I) g)|].
    intros r s [[S _]|(_ & _ & Hr & S)]; [by exists []|eexists; split; [exact S|by rewrite Hr]].
  - apply passed_quiet; [done|]. destruct (_account x.1) as [q a]. by apply (BrokerAccount.prepares_ok clock g).
  - apply passed_quiet; [done|]. destruct (_account x.1) as [q a]. by apply (BrokerAccount.prepares_ok clock g).
  - apply passed_quiet; [done|]. destruct (_account x.1) as [q a]. by apply (BrokerAccount.prepares_ok clock g).
  - apply passed_quiet; [done|]. destruct (_account x.1) as [q a]. by apply (BrokerAccount.prepares_ok clock g).
  - apply passed_quiet; [done|]. destruct (_account x.1) as [q a]. by apply (BrokerAccount.prepares_ok clock g).
  - apply passed_quiet; [done|]. destruct (_account x.1) as [q a]. by apply (BrokerAccount.prepares_ok clock g).
  - apply passed_quiet; [done|]. destruct (_account x.1) as [q a]. eapply ends_mono; [by apply (BrokerAccount.start_step g)|]. by intros r s [S _].
Qed.
End Runs.

Lemma dispatch_run_ok `{!JobsLaws J} clock loads callers g calls : (∀ n, Forall Mailbox.from_caller (callers n)) → ∀ x n,
  Forall dispatch_admissible calls → routed g [] [] None x → routed g [] [] None (dispatch_run clock loads callers calls (x, n)).1.
Proof using.
  intros Hcallers. induction calls as [|c calls IH]; intros x n Hc H; cbn [dispatch_run]; [done|]. apply Forall_cons in Hc as [Hc Hcs].
  assert (ends (_ ← others clock callers; dispatch_exec clock loads callers c) (λ _ x', routed g [] [] None x') x) as He.
  { eapply ends_use; [by eapply (others_ok clock callers Hcallers)|]. intros r x' (-> & H' & _). by apply dispatch_exec_ok. }
  specialize (He n). unfold wp in He. destruct ((_ ← others clock callers; _) (x, n)) as [[x' n'] r]. by apply IH.
Qed.

Lemma new_dispatcher_ok node generation local policy state_reads jobs t0 t1 d :
  account_read_dispatcher node generation local policy state_reads jobs t0 t1 = Ok d → routed generation [] [] None (d, []).
Proof using.
  unfold account_read_dispatcher. intros H. res_inv.
  match goal with E : Mailbox.broker_mailbox _ _ = Ok _ |- _ => pose proof (Mailbox.new_ok _ _ _ E) as Hm end.
  match goal with E : BrokerAccount.broker_account _ _ _ _ _ _ _ = Ok _ |- _ => pose proof (BrokerAccount.new_account_ok _ _ _ _ _ _ _ _ E) as Ha end.
  pose proof (BrokerAccount.ho_tickets _ _ _ _ Ha) as Ho. cbn in Ho. apply Permutation_nil_l in Ho.
  split; cbn [fst snd mailbox _account _requests _routes]; try done; try apply NoDup_nil_2; [apply Ha|..].
  - intros k r Hx. by apply elem_of_nil in Hx.
  - intros k r (s & Hs & Hr & _). apply (Mailbox.lo_bound _ _ Hm _ _ _ Hs) in Hr. by apply elem_of_nil in Hr.
  - exists []. split; [|done]. unfold inflight. cbn [fst _account]. by rewrite <-reads_in_outstanding, <-Ho.
Qed.

(** The tables of a retired account, after a call of the owner. *)
Definition cleared (x : world) : Prop :=
  a_reason (_account x.1).2 ≠ None → _requests x.1 = [] ∧ _routes x.1 = [] ∧ all_ended (mailbox x.1).

Lemma served_cleared g x : served g x → cleared x.
Proof using.
  intros [H Hs] [Hend E]%Hs. split; [done|]. split; [|done]. pose proof (rt_routes _ _ _ _ _ H) as Hr. rewrite E in Hr. by apply Permutation_nil_r in Hr.
Qed.

(** ** Properties *)

(** C6: the dispatcher loses no read and answers no caller with another's.  In
    every history of its calls, interleaved at each access with arbitrary calls
    of the mailbox's callers, whatever the clock and the decrypted frames, its
    two tables are inverse; while the account is in service they hold exactly
    the reads in flight there; each entry is a ticket handed to the worker and
    in progress, bound to that request, for the device and the path submitted;
    conversely a read that was bound and has not ended is in the tables, so a
    completion finds it; and an outcome with a completion answers what its
    ticket asked.  Each call returns, reports the account's retirement, and
    leaves a retired account with empty tables and a closed mailbox all of whose
    reads have an ending; the reads a step gives to be sent are in the tables. *)
Theorem reads_routed `{!JobsLaws J} clock0 loads callers0 node generation local policy state_reads jobs t0 t1 d0 calls :
  account_read_dispatcher node generation local policy state_reads jobs t0 t1 = Ok d0 →
  (∀ n, Forall Mailbox.from_caller (callers0 n)) → Forall dispatch_admissible calls →
  let '((d, log), _) := dispatch_run clock0 loads callers0 calls ((d0, []), 0%nat) in
  (NoDup (_requests d).*1 ∧ NoDup (_routes d).*1 ∧ _routes d ≡ₚ (λ kr, (q_ticket kr.2, kr.1)) <$> _requests d ∧
   (a_reason (_account d).2 = None → (_requests d).*2 ≡ₚ requests (a_reads (_account d).2)) ∧
   (∀ k r, (k, r) ∈ _requests d → ∃ s, (k, s) ∈ _slots (mailbox d) ∧ request s = Some r ∧ working s = true ∧
      Submitted k (q_device r) (q_path r) ∈ log) ∧
   (∀ k r, held (mailbox d) k r → (k, r) ∈ _requests d) ∧
   (∀ t o c, Mailbox.Taken t o ∈ log → Mailbox.o_completion (Mailbox.b_outcome o) = Some c →
      Submitted t (q_device (c_request c)) (q_path (c_request c)) ∈ log)) ∧
  (∀ clock callers, (∀ n, Forall Mailbox.from_caller (callers n)) →
    (∀ random draws, ends (step clock callers random draws) (λ res x, ∃ b, res = Ok b ∧ retired (maintenance b) = a_reason (_account x.1).2 ∧ cleared x ∧
       ∀ p, p ∈ batch_reads b → (ticket p, ar_request (prepared p)) ∈ _requests x.1) (d, log)) ∧
    (∀ plain peer g, sealable plain → ends (receive clock loads callers plain peer g) (λ res x, ∃ e, res = Ok e ∧
       retired e = a_reason (_account x.1).2 ∧ cleared x) (d, log)) ∧
    (∀ reason, ends (close clock callers reason) (λ res x, ∃ e, res = Ok e ∧ retired e = a_reason (_account x.1).2 ∧ retired e ≠ None ∧ cleared x) (d, log)) ∧
    ends (drain clock callers) (λ res x, ∃ e, res = Ok e ∧ retired e = a_reason (_account x.1).2 ∧ cleared x) (d, log)).
Proof using.
  intros H0 Hcallers Hc.
  pose proof (dispatch_run_ok clock0 loads callers0 generation calls Hcallers (d0, []) 0%nat Hc (new_dispatcher_ok _ _ _ _ _ _ _ _ _ H0)) as H.
  destruct (dispatch_run _ _ _ _ _) as [[d log] n]. cbn [fst] in H. split.
  - pose proof H as [R1 R2 R3 R4 R5 R6 R7 (stale & R8 & R9)]. cbn [fst snd] in *. split_and!; try done.
    + rewrite R5, <-list_fmap_compose. by rewrite <-list_fmap_compose in R4.
    + intros Er. destruct stale; [|by destruct R9]. by rewrite app_nil_r in R8.
    + intros k r Hin. destruct (R6 _ _ Hin) as (Hb & H1 & H2 & H3). destruct (Mailbox.logged_working _ _ _ R1 H1 H2 H3) as (s & Hs & Hw).
      pose proof (proj2 (Mailbox.lo_bound _ _ R1 _ _ _ Hs) Hb) as Hr. exists s. split_and!; try done.
      destruct (Mailbox.lo_slot _ _ R1 _ _ Hs) as (Hok & _ & _ & Hsub). by destruct (Mailbox.so_request _ _ _ _ _ Hok _ Hr) as (_ & _ & _ & -> & ->).
    + intros k r Hh. by destruct (R7 _ _ Hh).
    + intros t o c Ht Ho. by apply (Mailbox.lo_outcomes _ _ R1 _ _ _ Ht Ho).
  - intros clock callers Hcal. split_and!.
    + intros random draws. eapply ends_mono; [by apply step_served|]. intros res x (b & -> & Hs & Hr & Hb). exists b. split_and!; try done. by eapply served_cleared.
    + intros plain peer g Hp. eapply ends_mono; [by apply receive_served|]. intros res x (e & -> & Hr & Hs). exists e. split_and!; try done. by eapply served_cleared.
    + intros reason. eapply ends_mono; [by apply close_ok|]. intros res x (e & -> & Hr & Hs & Hn). exists e. rewrite Hr. split_and!; try done. by eapply served_cleared.
    + eapply ends_mono; [by apply drain_served|]. intros res x (e & -> & Hr & Hs). exists e. split_and!; try done. by eapply served_cleared.
Qed.
End Dispatch.

(** Two reads submitted by callers while the owner steps: one is answered and
    taken, one is ended by closing. *)
Definition sample_callers (n : nat) : list Mailbox.call :=
  match n with
  | O => [Mailbox.Submit 99 "ProReadonly.devInfo" 2000; Mailbox.Submit 99 "ProConst._versionInfo" 2000]
  | _ => [Mailbox.Take (Mailbox.mkMailTicket 1 0)]
  end.
Definition sample_made : result (AccountReadDispatcher (J := option Ptz.job)) :=
  account_read_dispatcher BrokerAccount.sample_node 1 ([10; 0; 0; 2], 5000) FINITE false None 0 0.
Definition sample_dispatcher : AccountReadDispatcher (J := option Ptz.job) :=
  match sample_made with Ok d => d | Raise _ => mkDispatcher (Mailbox.mkMailbox [] 0 [] 0 true) BrokerAccount.sample_state [] [] end.
Definition sample_run (calls : list (dispatch_call (J := option Ptz.job))) :=
  dispatch_run (λ n, Z.of_nat n) (λ _, Broker.Undecodable) sample_callers calls ((sample_dispatcher, []), 0%nat).
Definition sample_calls : list (dispatch_call (J := option Ptz.job)) :=
  [Step 0 (λ _, (0, 0)); Receive Broker.sample_reply ([], 0) 1; Step 0 (λ _, (0, 0)); Close Closed].

Lemma reads_routed_witness : sample_made = Ok sample_dispatcher ∧ (∀ n, Forall Mailbox.from_caller (sample_callers n)) ∧ Forall dispatch_admissible sample_calls ∧
  Mailbox.k_sequence <$> (_requests (sample_run (firstn 1 sample_calls)).1.1).*1 = [0; 1] ∧
  Mailbox.k_sequence <$> (_requests (sample_run (firstn 2 sample_calls)).1.1).*1 = [1] ∧
  Mailbox.k_sequence <$> Mailbox.taken (sample_run sample_calls).1.2 = [0] ∧ Mailbox.k_sequence <$> finished (sample_run sample_calls).1.2 = [0; 1] ∧
  NoDup (_requests (sample_run (firstn 2 sample_calls)).1.1).*1 ∧
  (∀ k r, held (mailbox (sample_run (firstn 2 sample_calls)).1.1) k r → (k, r) ∈ _requests (sample_run (firstn 2 sample_calls)).1.1).
Proof.
  assert (sample_made = Ok sample_dispatcher) as E by reflexivity.
  assert (∀ n, Forall Mailbox.from_caller (sample_callers n)) as Hcal by (intros [|n]; cbn; repeat constructor).
  assert (Forall dispatch_admissible sample_calls) as Hc by (repeat (constructor; [first [exact I|eexists; vm_compute; reflexivity]|]); constructor).
  split; [exact E|]. split; [exact Hcal|]. split; [exact Hc|]. do 4 (split; [vm_compute; reflexivity|]).
  assert (Forall dispatch_admissible (firstn 2 sample_calls)) as Hc2 by by apply Forall_take.
  pose proof (reads_routed (λ n, Z.of_nat n) (λ _, Broker.Undecodable) sample_callers BrokerAccount.sample_node 1 ([10; 0; 0; 2], 5000) FINITE false None 0 0
    sample_dispatcher (firstn 2 sample_calls) E Hcal Hc2) as H.
  unfold sample_run. destruct (dispatch_run _ _ _ _ _) as [[d log] n]. destruct H as [(H1 & _ & _ & _ & _ & H2 & _) _]. exact (conj H1 H2).
Defined.
End Dispatch.
