(* ===== verification/Admission.v ===== *)
(** * Source admission

    Models [src/backend/app/media/source_registry.py] (at most one source per
    camera and per driver resource) and [valid_camera_id] of
    [camera_identity.py].

    The registry is shared by threads under a lock.  A method's critical section
    is one transition; [run], which has several, is a thread with a program
    counter ([pc]), and [step] interleaves the threads freely.  An object
    identity (an entry's owner, a source) is a number the caller supplies; an
    exception of the driver is a nondeterministic step.  [begin_shutdown] takes
    the lock once per camera, so its interleavings are those of
    [close_admission] and [stop]; the definition is the run without them. *)

From Stdlib Require Import ZArith Lia.
From stdpp Require Import fin_maps.
From S2P Require Import Prelude.

(** ** [camera_identity.py] *)

Module Identity.

Definition lower_hex (c : Z) : bool := ((48 <=? c) && (c <=? 57)) || ((97 <=? c) && (c <=? 102)).

(** [re.fullmatch(r"cam_[0-9a-f]{24}", value)] *)
Definition valid_camera_id (value : string) : bool :=
  match ascii value with
  | 99 :: 97 :: 109 :: 95 :: digits => (length digits =? 24)%nat && forallb lower_hex digits
  | _ => false
  end.
End Identity.

(** ** [source_registry.py] *)

Module Registry.
Import Identity.

Inductive phase : Type := Starting | Running | Stopping | Blocked.
#[global] Instance phase_eq_dec : EqDecision phase.
Proof. solve_decision. Defined.

Record entry := mkEntry {
  e_domain : string; e_owner : Z; e_stop : bool; e_source : option Z; e_phase : phase
}.

Record registry := mkRegistry {
  r_capacity : option Z; r_entries : gmap string entry; r_closed : bool
}.

Definition source_registry (capacity : option Z) : result registry :=
  _ ← raise_if (match capacity with Some c => c <? 1 | None => false end)
        (ValueError "source capacity must be positive or automatic");
  Ok (mkRegistry capacity ∅ false).

Definition _validate {S} (camera_id : string) : M S unit :=
  check (negb (valid_camera_id camera_id)) (ValueError "public camera ID required").

Definition set_entries (m : gmap string entry) (r : registry) : registry := mkRegistry (r_capacity r) m (r_closed r).

Definition state (camera_id : string) : M registry (option phase) :=
  _ ← _validate camera_id; r ← get; mret (e_phase <$> r_entries r !! camera_id).

Definition camera_ids (r : registry) : list string := (map_to_list (r_entries r)).*1.

(** [getattr(source, "recovering", False)] and [recording] are read off the
    source. *)
Definition shown_phase (recovering : Z → bool) (r : registry) (e : entry) : string :=
  if r_closed r && negb (bool_decide (e_phase e = Blocked)) then "stopping"
  else if bool_decide (e_phase e = Running) && match e_source e with Some s => recovering s | None => false end
  then "recovering"
  else match e_phase e with
       | Starting => "starting" | Running => "running" | Stopping => "stopping" | Blocked => "blocked"
       end.
Definition states (recovering : Z → bool) (r : registry) : gmap string string := shown_phase recovering r <$> r_entries r.
Definition is_recording (recording : Z → bool) (camera_id : string) (r : registry) : bool :=
  match r_entries r !! camera_id with
  | Some e => negb (r_closed r) && bool_decide (e_phase e = Running) &&
              match e_source e with Some s => recording s | None => false end
  | None => false
  end.

Definition owns (camera_id : string) (owner : Z) : M registry bool :=
  _ ← _validate camera_id; r ← get;
  mret (match r_entries r !! camera_id with Some e => e_owner e =? owner | None => false end).

Definition valid_domain (domain : string) : bool :=
  let cs := ascii domain in
  ((1 <=? length cs) && (length cs <=? 128))%nat && forallb (λ c, (33 <=? c) && (c <=? 126)) cs.

(** [SourceUnavailable] is a [RuntimeError]. *)
Definition unavailable (why : string) : exn := RuntimeError why.

Definition full (r : registry) : bool :=
  match r_capacity r with Some c => c <=? Z.of_nat (size (r_entries r)) | None => false end.
Definition domain_taken (domain : string) (r : registry) : bool :=
  existsb (λ ke, String.eqb (e_domain ke.2) domain) (map_to_list (r_entries r)).

(** [run] up to the reservation of the entry. *)
Definition admit_source (camera_id domain : string) (owner : Z) (cancelled : bool) : M registry unit :=
  _ ← _validate camera_id;
  _ ← check (negb (valid_domain domain)) (ValueError "driver resource domain required");
  _ ← check cancelled (unavailable "source admission cancelled");
  r ← get;
  _ ← check (r_closed r) (unavailable "source registry shutting down");
  _ ← check (bool_decide (is_Some (r_entries r !! camera_id)) || full r || domain_taken domain r)
        (unavailable "source or driver resource already reserved");
  modify (λ r : registry, set_entries (<[camera_id := mkEntry domain owner false None Starting]> (r_entries r)) r).

Definition on_entry (camera_id : string) (f : entry → entry) (r : registry) : registry :=
  set_entries (alter f camera_id (r_entries r)) r.

(** [entry.source = source; entry.phase = ...] *)
Definition started (source : Z) (e : entry) : entry :=
  mkEntry (e_domain e) (e_owner e) (e_stop e) (Some source) (if e_stop e then Stopping else Running).
Definition set_phase (p : phase) (e : entry) : entry :=
  mkEntry (e_domain e) (e_owner e) (e_stop e) (e_source e) p.

Definition begin_source (camera_id : string) (source : Z) : M registry unit := modify (on_entry camera_id (started source)).

(** The source returned: [true] when its cleanup is confirmed. *)
Definition confirm (camera_id : string) : M registry bool :=
  r ← get; mret (match r_entries r !! camera_id with Some e => negb (bool_decide (e_phase e = Blocked)) | None => false end).

(** The [finally] clause. *)
Definition retire (camera_id : string) (confirmed : bool) : M registry unit :=
  modify (λ r,
    if confirmed && match r_entries r !! camera_id with Some e => negb (bool_decide (e_phase e = Blocked)) | None => false end
    then set_entries (delete camera_id (r_entries r)) r
    else on_entry camera_id (set_phase Blocked) r).

Definition subscribe (camera_id : string) (owner : option Z) : M registry Z :=
  _ ← _validate camera_id;
  r ← get;
  match r_entries r !! camera_id with
  | Some (mkEntry _ o _ (Some source) Running) =>
      _ ← check (r_closed r || match owner with Some x => negb (o =? x) | None => false end)
            (unavailable "source is not accepting readers");
      mret source
  | _ => raise (unavailable "source is not accepting readers")
  end.

Definition signal (e : entry) : entry := mkEntry (e_domain e) (e_owner e) true (e_source e) Stopping.

Definition stop (camera_id : string) (owner : option Z) : M registry bool :=
  _ ← _validate camera_id;
  r ← get;
  match r_entries r !! camera_id with
  | None => mret false
  | Some e =>
      if match owner with Some x => negb (e_owner e =? x) | None => false end then mret false else
      _ ← check (bool_decide (e_phase e = Blocked)) (unavailable "source cleanup already uncertain");
      _ ← modify (on_entry camera_id signal);
      mret true
  end.

Definition close_admission : M registry unit := modify (λ r, mkRegistry (r_capacity r) (r_entries r) true).

(** [begin_shutdown]: one [stop] per reservation, an uncertain one last. *)
Definition stop_each (failed : bool) (camera_id : string) : M registry bool := λ r,
  match stop camera_id None r with
  | (r, Ok _) => (r, Ok failed)
  | (r, Raise (RuntimeError _)) => (r, Ok true)
  | (r, Raise e) => (r, Raise e)
  end.
Fixpoint stop_all (failed : bool) (cameras : list string) : M registry bool :=
  match cameras with
  | [] => mret failed
  | c :: cameras => failed ← stop_each failed c; stop_all failed cameras
  end.
Definition begin_shutdown : M registry unit :=
  _ ← close_admission;
  r ← get;
  failed ← stop_all false (camera_ids r);
  check failed (unavailable "one or more sources have uncertain cleanup").

(** ** Interleavings *)

(** Where a thread is in [run]. *)
Inductive pc : Type :=
| InFactory (camera : string)
| InSource (camera : string)
| InFinally (camera : string) (confirmed : bool).

Definition camera_of (p : pc) : string :=
  match p with InFactory c | InSource c | InFinally c _ => c end.

Record system := mkSystem { reg : registry; threads : gmap Z pc }.

Inductive step : system → system → Prop :=
| step_admit r r' ts t c d o x :
    ts !! t = None → admit_source c d o x r = (r', Ok tt) → step (mkSystem r ts) (mkSystem r' (<[t := InFactory c]> ts))
| step_refused r ts t c d o x r' e :
    ts !! t = None → admit_source c d o x r = (r', Raise e) → step (mkSystem r ts) (mkSystem r' ts)
| step_factory r ts t c src :
    ts !! t = Some (InFactory c) → step (mkSystem r ts) (mkSystem (begin_source c src r).1 (<[t := InSource c]> ts))
| step_factory_raises r ts t c :
    ts !! t = Some (InFactory c) → step (mkSystem r ts) (mkSystem r (<[t := InFinally c false]> ts))
| step_source r ts t c b :
    ts !! t = Some (InSource c) → (confirm c r).2 = Ok b → step (mkSystem r ts) (mkSystem r (<[t := InFinally c b]> ts))
| step_source_raises r ts t c :
    ts !! t = Some (InSource c) → step (mkSystem r ts) (mkSystem r (<[t := InFinally c false]> ts))
| step_finally r ts t c b :
    ts !! t = Some (InFinally c b) → step (mkSystem r ts) (mkSystem (retire c b r).1 (delete t ts))
| step_stop r ts c o : step (mkSystem r ts) (mkSystem (stop c o r).1 ts)
| step_close r ts : step (mkSystem r ts) (mkSystem (close_admission r).1 ts).

Inductive reachable (capacity : option Z) : system → Prop :=
| reachable_new r : source_registry capacity = Ok r → reachable capacity (mkSystem r ∅)
| reachable_step s s' : reachable capacity s → step s s' → reachable capacity s'.

(** An entry's phase agrees with its source and stop flag. *)
Definition coherent (e : entry) : Prop :=
  match e_phase e with
  | Starting => e_source e = None ∧ e_stop e = false
  | Running => is_Some (e_source e) ∧ e_stop e = false
  | Stopping => e_stop e = true
  | Blocked => True
  end.

Record registry_ok (s : system) : Prop := {
  ro_capacity : match r_capacity (reg s) with Some c => Z.of_nat (size (r_entries (reg s))) ≤ c | None => True end;
  ro_domains : ∀ c1 c2 e1 e2, r_entries (reg s) !! c1 = Some e1 → r_entries (reg s) !! c2 = Some e2 →
    e_domain e1 = e_domain e2 → c1 = c2;
  ro_valid : ∀ c e, r_entries (reg s) !! c = Some e → valid_camera_id c = true;
  ro_coherent : map_Forall (λ _ e, coherent e) (r_entries (reg s));
  ro_thread : ∀ t p, threads s !! t = Some p →
    ∃ e, r_entries (reg s) !! camera_of p = Some e ∧ e_phase e ≠ Blocked ∧
      match p with InSource _ | InFinally _ true => is_Some (e_source e) | _ => True end;
  ro_unique : ∀ t u p q, threads s !! t = Some p → threads s !! u = Some q → camera_of p = camera_of q → t = u;
  ro_live : ∀ c e, r_entries (reg s) !! c = Some e → e_phase e ≠ Blocked → ∃ t p, threads s !! t = Some p ∧ camera_of p = c
}.

(** ** Lemmas *)

Lemma domain_taken_false d r :
  domain_taken d r = false → ∀ c e, r_entries r !! c = Some e → e_domain e ≠ d.
Proof.
  intros H c e He Hd. apply not_true_iff_false in H. apply H, existsb_exists.
  exists (c, e). split; [|by apply String.eqb_eq].
  by apply list_elem_of_In, elem_of_map_to_list.
Qed.

Lemma admit_source_spec c d o x r :
  wp (admit_source c d o x) (λ res r',
    match res with
    | Ok _ => r' = set_entries (<[c := mkEntry d o false None Starting]> (r_entries r)) r ∧
              valid_camera_id c = true ∧ r_entries r !! c = None ∧ full r = false ∧ r_closed r = false ∧
              ∀ c' e, r_entries r !! c' = Some e → e_domain e ≠ d
    | Raise _ => r' = r
    end) r.
Proof.
  unfold admit_source, _validate.
  repeat (wp_step; try (intros ?; done)); intros; try done.
  destruct (r_entries r !! c) eqn:?; [by rewrite bool_decide_eq_true_2 in * by eauto|].
  split_and!; try done.
  - by apply negb_false_iff.
  - by destruct (full r); rewrite ?orb_true_r in *.
  - apply domain_taken_false. by destruct (domain_taken d r); rewrite ?orb_true_r in *.
Qed.

Lemma on_entry_Some c f r e :
  r_entries r !! c = Some e → on_entry c f r = set_entries (<[c := f e]> (r_entries r)) r.
Proof. intros He. unfold on_entry. by rewrite (alter_alt_Some _ _ _ _ He). Qed.

(** What [run] needs to know of its entry. *)
Definition held (p : pc) (e : entry) : Prop :=
  e_phase e ≠ Blocked ∧ match p with InSource _ | InFinally _ true => is_Some (e_source e) | _ => True end.

(** The entry of one camera is replaced. *)
Lemma ok_put r ts c e e' :
  registry_ok (mkSystem r ts) → r_entries r !! c = Some e → e_domain e' = e_domain e → coherent e' →
  (e_phase e = Blocked → e_phase e' = Blocked) →
  (∀ t p, ts !! t = Some p → camera_of p = c → held p e → held p e') →
  registry_ok (mkSystem (set_entries (<[c := e']> (r_entries r)) r) ts).
Proof.
  intros [H1 H2 H0 H3 H4 H5 H6] He Hd Hc Hbl Hp; split; cbn in *.
  - by rewrite map_size_insert, He.
  - intros c1 c2 e1 e2 [[<- <-]|[? ?]]%lookup_insert_Some [[<- <-]|[? ?]]%lookup_insert_Some Heq;
      rewrite ?Hd in Heq; eauto.
  - intros c1 e1 [[<- <-]|[? ?]]%lookup_insert_Some; eauto.
  - by apply map_Forall_insert_2.
  - intros t p Ht. destruct (H4 _ _ Ht) as (e0 & E0 & Hh). destruct (decide (camera_of p = c)) as [E|].
    + rewrite E in *. exists e'. rewrite lookup_insert_eq. simplify_eq. split; [done|]. by apply (Hp t).
    + exists e0. by rewrite lookup_insert_ne.
  - done.
  - intros c' e0 [[<- <-]|[? ?]]%lookup_insert_Some Hb; [|by eauto]. apply (H6 c e He). auto.
Qed.

(** A thread moves on within [run]. *)
Lemma ok_move r ts t p q :
  registry_ok (mkSystem r ts) → ts !! t = Some p → camera_of q = camera_of p →
  (∀ e, r_entries r !! camera_of p = Some e → held p e → held q e) →
  registry_ok (mkSystem r (<[t := q]> ts)).
Proof.
  intros [H1 H2 H0 H3 H4 H5 H6] Ht Hc Hq; split; cbn in *; try done.
  - intros u p' [[<- <-]|[? ?]]%lookup_insert_Some; [|by eauto].
    destruct (H4 _ _ Ht) as (e & He & Hh). exists e. rewrite Hc. split; [done|]. by apply Hq.
  - intros u v p1 p2 [[<- <-]|[? ?]]%lookup_insert_Some [[<- <-]|[? ?]]%lookup_insert_Some; rewrite ?Hc; eauto.
  - intros c e He Hb. destruct (H6 c e He Hb) as (u & p' & Hu & Hp).
    destruct (decide (t = u)) as [<-|]; [exists t, q|exists u, p'].
    + rewrite lookup_insert_eq. split; congruence.
    + by rewrite lookup_insert_ne.
Qed.

Lemma ok_new r ts t c d o :
  registry_ok (mkSystem r ts) → valid_camera_id c = true → ts !! t = None → r_entries r !! c = None → full r = false →
  (∀ c' e, r_entries r !! c' = Some e → e_domain e ≠ d) →
  registry_ok (mkSystem (set_entries (<[c := mkEntry d o false None Starting]> (r_entries r)) r) (<[t := InFactory c]> ts)).
Proof.
  intros [H1 H2 H0 H3 H4 H5 H6] Hval Ht Hc Hf Hd; split; cbn in *.
  - rewrite map_size_insert, Hc. unfold full in Hf. case_match; lia.
  - intros c1 c2 e1 e2 [[<- <-]|[? ?]]%lookup_insert_Some [[<- <-]|[? ?]]%lookup_insert_Some Heq; cbn in *; eauto.
    + by edestruct Hd.
    + by edestruct Hd.
  - intros c1 e1 [[<- <-]|[? ?]]%lookup_insert_Some; eauto.
  - by apply map_Forall_insert_2.
  - intros u p [[<- <-]|[? Hu]]%lookup_insert_Some; cbn; [by eexists; rewrite lookup_insert_eq|].
    destruct (H4 _ _ Hu) as (e & He & Hh). exists e. rewrite lookup_insert_ne by congruence. done.
  - intros u v p1 p2 [[<- <-]|[? Hu]]%lookup_insert_Some [[<- <-]|[? Hv]]%lookup_insert_Some; cbn; eauto;
      intros E; [destruct (H4 _ _ Hv) as (? & ? & _)|destruct (H4 _ _ Hu) as (? & ? & _)]; congruence.
  - intros c' e [[<- <-]|[? ?]]%lookup_insert_Some Hb; [by exists t, (InFactory c); rewrite lookup_insert_eq|].
    destruct (H6 c' e ltac:(done) Hb) as (u & p & Hu & Hp). exists u, p. by rewrite lookup_insert_ne by congruence.
Qed.

(** [run] returns and its reservation goes, or stays blocked. *)
Lemma ok_gone r ts t p m :
  registry_ok (mkSystem r ts) → ts !! t = Some p →
  m = delete (camera_of p) (r_entries r) ∨
  (∃ e, r_entries r !! camera_of p = Some e ∧ m = <[camera_of p := set_phase Blocked e]> (r_entries r)) →
  registry_ok (mkSystem (set_entries m r) (delete t ts)).
Proof.
  intros [H1 H2 H0 H3 H4 H5 H6] Ht Hm. cbn in *.
  assert (Hsub : ∀ c e, m !! c = Some e → ∃ e0, r_entries r !! c = Some e0 ∧ e_domain e0 = e_domain e ∧ (c ≠ camera_of p → e = e0) ∧
            (c = camera_of p → e_phase e = Blocked)).
  { destruct Hm as [->|(e0 & He0 & ->)]; intros c e.
    - intros [? ?]%lookup_delete_Some. exists e. naive_solver.
    - intros [[<- <-]|[? ?]]%lookup_insert_Some; [exists e0|exists e]; naive_solver. }
  assert (Hoth : ∀ c e, c ≠ camera_of p → r_entries r !! c = Some e → m !! c = Some e).
  { destruct Hm as [->|(e0 & He0 & ->)]; intros c e ??; [by rewrite lookup_delete_ne|by rewrite lookup_insert_ne]. }
  split; cbn.
  - assert (size m ≤ size (r_entries r))%nat; [|case_match; lia].
    destruct Hm as [->|(e0 & He0 & ->)]; [rewrite map_size_delete; destruct (r_entries r !! camera_of p); cbn; lia|by rewrite map_size_insert, He0].
  - intros c1 c2 e1 e2 (a & ? & Ea & _)%Hsub (b & ? & Eb & _)%Hsub ?. eapply H2; eauto. congruence.
  - intros c e (e0 & He0 & _)%Hsub. eauto.
  - intros c e He. destruct (Hsub _ _ He) as (e0 & He0 & _ & Hn & Hy).
    destruct (decide (c = camera_of p)) as [->|Hc]; [by unfold coherent; rewrite Hy|]. rewrite (Hn Hc). by apply (H3 c).
  - intros u q [Hne Hu]%lookup_delete_Some. destruct (H4 _ _ Hu) as (e & He & Hh). exists e. split; [|done].
    apply Hoth; [|done]. intros E. by apply Hne, (H5 _ _ p q).
  - intros u v q1 q2 [? Hu]%lookup_delete_Some [? Hv]%lookup_delete_Some. eauto.
  - intros c e He Hb. destruct (Hsub _ _ He) as (e0 & He0 & _ & Hn & Hy).
    assert (Hc : c ≠ camera_of p) by auto. rewrite (Hn Hc) in Hb. destruct (H6 _ _ He0 Hb) as (u & q & Hu & <-).
    exists u, q. rewrite lookup_delete_ne by congruence. done.
Qed.

Lemma stop_spec c o r :
  (stop c o r).1 = r ∨
  (valid_camera_id c = true ∧ ∃ e, r_entries r !! c = Some e ∧ e_phase e ≠ Blocked ∧ match o with Some x => e_owner e = x | None => True end ∧
     stop c o r = (set_entries (<[c := signal e]> (r_entries r)) r, Ok true)).
Proof.
  unfold stop, _validate, get, check, modify, mret, mbind, M_bind, M_ret.
  destruct (valid_camera_id c) eqn:Hc; cbn; [|by left].
  destruct (r_entries r !! c) as [e|] eqn:He; cbn; [|by left].
  destruct (match o with Some x => negb (e_owner e =? x) | None => false end) eqn:Ho; cbn; [by left|].
  destruct (decide (e_phase e = Blocked)) as [Hb|Hb]; [rewrite bool_decide_eq_true_2 by done; by left|].
  rewrite bool_decide_eq_false_2 by done. cbn. right. split; [done|]. exists e. erewrite on_entry_Some by done.
  split_and!; try done. destruct o; [lia|done].
Qed.

Lemma registry_ok_step s s' : registry_ok s → step s s' → registry_ok s'.
Proof.
  intros Hok Hs. destruct Hs as [r r' ts t c d o x Ht Ha|r ts t c d o x r' e Ht Ha|r ts t c src Ht|r ts t c Ht
    |r ts t c b Ht Hb|r ts t c Ht|r ts t c b Ht|r ts c o|r ts].
  - pose proof (admit_source_spec c d o x r) as H. unfold wp in H. rewrite Ha in H. cbn in H. destruct H as (-> & ? & ? & ? & _ & ?).
    by apply ok_new.
  - pose proof (admit_source_spec c d o x r) as H. unfold wp in H. rewrite Ha in H. cbn in H. by subst.
  - destruct (ro_thread _ Hok t _ Ht) as (e & He & Hh). cbn in *. erewrite on_entry_Some by done.
    eapply ok_move with (p := InFactory c); [|done|done|].
    + pose proof (ro_coherent _ Hok c e He) as Hco. eapply ok_put; try done.
      * unfold coherent, started in *. cbn. by destruct (e_stop e).
      * by destruct Hh.
      * intros u p Hu Hp Hp'. split; [by cbn; case_match|]. cbn. case_match; try done. by case_match.
    + cbn. rewrite lookup_insert_eq. intros ? [= <-] [? ?]. by split.
  - eapply ok_move; [done..|]. intros e _ [? ?]. done.
  - eapply ok_move; [done..|]. intros e _ [? ?]. split; [done|]. by destruct b.
  - eapply ok_move; [done..|]. intros e _ [? ?]. done.
  - destruct (ro_thread _ Hok t _ Ht) as (e & He & Hh & _). cbn in *. rewrite He.
    rewrite bool_decide_eq_false_2 by done. unfold on_entry. rewrite (alter_alt_Some _ _ _ _ He).
    destruct b; cbn; eapply ok_gone; [done..| |done|done|]; cbn; eauto.
  - destruct (stop_spec c o r) as [->|(_ & e & He & Hb & _ & ->)]; [done|]. cbn.
    eapply ok_put; try done. intros ???? [? ?]. by split.
  - by destruct Hok; split.
Qed.

Lemma reachable_ok capacity s : reachable capacity s → registry_ok s.
Proof.
  induction 1 as [r Hr|]; [|by eapply registry_ok_step].
  unfold source_registry in Hr. res_inv. split; cbn; try done.
  destruct capacity; [|done]. rewrite map_size_empty. lia.
Qed.

(** What one transition does to the reservation of a camera. *)
Definition evolves (s : system) (c : string) (e : entry) (s' : system) : Prop :=
  (∃ e', r_entries (reg s') !! c = Some e' ∧ e_owner e' = e_owner e ∧ e_domain e' = e_domain e ∧
         (e_stop e = true → e_stop e' = true)) ∨
  r_entries (reg s') !! c = None ∧ ∃ t, threads s !! t = Some (InFinally c true).

Lemma put_evolves r ts ts' c c0 e e0 e0' :
  r_entries r !! c0 = Some e0 → r_entries r !! c = Some e →
  e_owner e0' = e_owner e0 → e_domain e0' = e_domain e0 → (e_stop e0 = true → e_stop e0' = true) →
  evolves (mkSystem r ts) c e (mkSystem (set_entries (<[c0 := e0']> (r_entries r)) r) ts').
Proof.
  intros He0 He Ho Hd Hs. left. destruct (decide (c = c0)) as [->|]; simplify_eq.
  - exists e0'. cbn. by rewrite lookup_insert_eq.
  - exists e. cbn. by rewrite lookup_insert_ne.
Qed.

Lemma step_evolves s s' c e :
  registry_ok s → step s s' → r_entries (reg s) !! c = Some e → evolves s c e s'.
Proof.
  intros Hok Hs He. destruct Hs as [r r' ts t c0 d o x Ht Ha|r ts t c0 d o x r' e0 Ht Ha|r ts t c0 src Ht|r ts t c0 Ht
    |r ts t c0 b Ht Hb|r ts t c0 Ht|r ts t c0 b Ht|r ts c0 o|r ts]; try by left; exists e.
  - pose proof (admit_source_spec c0 d o x r) as H. unfold wp in H. rewrite Ha in H. cbn in H. destruct H as (-> & _ & Hn & _).
    cbn in *. left. exists e. cbn. by rewrite lookup_insert_ne by congruence.
  - pose proof (admit_source_spec c0 d o x r) as H. unfold wp in H. rewrite Ha in H. cbn in H. subst. by left; exists e.
  - destruct (ro_thread _ Hok t _ Ht) as (e0 & He0 & Hh). cbn in *. erewrite on_entry_Some by done. by eapply put_evolves.
  - destruct (ro_thread _ Hok t _ Ht) as (e0 & He0 & Hh & _). cbn in *. rewrite He0.
    rewrite bool_decide_eq_false_2 by done. destruct b; cbn; [|erewrite on_entry_Some by done; by eapply put_evolves].
    destruct (decide (c = c0)) as [->|]; [right|left; exists e; cbn; by rewrite lookup_delete_ne].
    cbn. rewrite lookup_delete_eq. eauto.
  - destruct (stop_spec c0 o r) as [->|(_ & e0 & He0 & Hb & _ & ->)]; [by left; exists e|]. by eapply put_evolves.
Qed.

Lemma blocked_stays s s' c e :
  registry_ok s → step s s' → r_entries (reg s) !! c = Some e → e_phase e = Blocked → r_entries (reg s') !! c = Some e.
Proof.
  intros Hok Hs He Hbl.
  assert (Hne : ∀ t p, threads s !! t = Some p → camera_of p ≠ c).
  { intros t p Ht <-. destruct (ro_thread _ Hok t _ Ht) as (e0 & He0 & Hh & _). congruence. }
  destruct Hs as [r r' ts t c0 d o x Ht Ha|r ts t c0 d o x r' e0 Ht Ha|r ts t c0 src Ht|r ts t c0 Ht
    |r ts t c0 b Ht Hb|r ts t c0 Ht|r ts t c0 b Ht|r ts c0 o|r ts]; try done; cbn in *.
  - pose proof (admit_source_spec c0 d o x r) as H. unfold wp in H. rewrite Ha in H. cbn in H. destruct H as (-> & _ & Hn & _).
    cbn in *. by rewrite lookup_insert_ne by congruence.
  - pose proof (admit_source_spec c0 d o x r) as H. unfold wp in H. rewrite Ha in H. cbn in H. by subst.
  - rewrite lookup_alter_ne; [done|]. by apply (Hne _ _ Ht).
  - pose proof (Hne _ _ Ht). cbn in *. case_match; cbn; [by rewrite lookup_delete_ne|by rewrite lookup_alter_ne].
  - destruct (stop_spec c0 o r) as [->|(_ & e0 & He0 & Hb & _ & ->)]; [done|]. cbn.
    rewrite lookup_insert_ne; [done|]. congruence.
Qed.

(** [begin_shutdown] signals every reservation that is not blocked. *)
Definition signalled (e : entry) : entry := if bool_decide (e_phase e = Blocked) then e else signal e.

Lemma signalled_blocked e : e_phase (signalled e) = Blocked ↔ e_phase e = Blocked.
Proof. unfold signalled. case_bool_decide; [done|]. by split. Qed.

Lemma signalled_idem e : signalled (signalled e) = signalled e.
Proof. by destruct e as [? ? ? ? []]. Qed.

Lemma stop_all_spec cs : ∀ failed r,
  (∀ c, c ∈ cs → valid_camera_id c = true ∧ is_Some (r_entries r !! c)) →
  ∃ r' failed', stop_all failed cs r = (r', Ok failed') ∧ r_capacity r' = r_capacity r ∧ r_closed r' = r_closed r ∧
    (∀ c, c ∈ cs → r_entries r' !! c = signalled <$> r_entries r !! c) ∧
    (∀ c, ¬ c ∈ cs → r_entries r' !! c = r_entries r !! c) ∧
    (failed' = true ↔ failed = true ∨ ∃ c e, c ∈ cs ∧ r_entries r !! c = Some e ∧ e_phase e = Blocked).
Proof.
  induction cs as [|c cs IH]; intros failed r Hcs; [exists r, failed; set_solver|].
  destruct (Hcs c (list_elem_of_here c cs)) as [Hv [e He]].
  assert (Hstop : ∃ f1, stop_each failed c r = (set_entries (<[c := signalled e]> (r_entries r)) r, Ok f1) ∧
    (f1 = true ↔ failed = true ∨ e_phase e = Blocked)).
  { unfold stop_each, stop, _validate, get, check, modify, raise_if, mret, mbind, M_bind, M_ret. rewrite Hv, He. cbn.
    unfold signalled. case_bool_decide; cbn.
    - exists true. rewrite insert_id by done. destruct r. naive_solver.
    - exists failed. erewrite on_entry_Some by done. naive_solver. }
  destruct Hstop as (f1 & Hst & Hf1).
  destruct (IH f1 (set_entries (<[c := signalled e]> (r_entries r)) r)) as (r' & f' & Hr & Hc & Hcl & Hin & Hout & Hf).
  { intros c' Hc'. destruct (Hcs c' (list_elem_of_further c' c cs Hc')). split; [done|]. cbn.
    destruct (decide (c' = c)) as [->|]; [rewrite lookup_insert_eq|rewrite lookup_insert_ne]; eauto. }
  exists r', f'. cbn [stop_all]. unfold mbind, M_bind. rewrite Hst. cbn in *.
  split_and!; [done..| | |].
  - intros c' Hc'. destruct (decide (c' ∈ cs)) as [H|H].
    + rewrite Hin by done. destruct (decide (c' = c)) as [->|]; [|by rewrite lookup_insert_ne].
      rewrite lookup_insert_eq, He. cbn. by rewrite signalled_idem.
    + assert (c' = c) as -> by set_solver. by rewrite Hout, lookup_insert_eq, He.
  - intros c' Hc'. rewrite Hout by set_solver. apply lookup_insert_ne. set_solver.
  - rewrite Hf, Hf1. split.
    + intros [[?|?]|(c' & e' & H & [[<- <-]|[? ?]]%lookup_insert_Some & Hb)]; [by left|right|right|right].
      * exists c, e. set_solver.
      * exists c, e. apply (signalled_blocked e) in Hb. set_solver.
      * exists c', e'. set_solver.
    + intros [?|(c' & e' & [->|H]%elem_of_cons & He' & Hb)]; [by left; left|left; right; congruence|].
      destruct (decide (c' = c)) as [->|]; [left; right; congruence|right]. exists c', e'. by rewrite lookup_insert_ne.
Qed.

Lemma begin_shutdown_spec s :
  registry_ok s →
  ∃ r', r_closed r' = true ∧ (∀ c, r_entries r' !! c = signalled <$> r_entries (reg s) !! c) ∧
    ∃ res, begin_shutdown (reg s) = (r', res) ∧
      (res = Ok tt ∧ (∀ c e, r_entries (reg s) !! c = Some e → e_phase e ≠ Blocked) ∨
       res = Raise (unavailable "one or more sources have uncertain cleanup") ∧
       ∃ c e, r_entries (reg s) !! c = Some e ∧ e_phase e = Blocked).
Proof.
  intros Hok. set (r := reg s). set (r1 := mkRegistry (r_capacity r) (r_entries r) true).
  assert (Hids : ∀ c, c ∈ camera_ids r ↔ is_Some (r_entries r !! c)).
  { intros c. unfold camera_ids. rewrite list_elem_of_fmap. split.
    - intros ([c' e] & -> & H%elem_of_map_to_list). eauto.
    - intros [e He]. exists (c, e). by rewrite elem_of_map_to_list. }
  destruct (stop_all_spec (camera_ids r) false r1) as (r' & f & Hst & _ & Hcl & Hin & Hout & Hf).
  { intros c Hc%Hids. split; [|done]. destruct Hc as [e He]. by apply (ro_valid _ Hok c e). }
  exists r'. split; [done|]. split.
  { intros c. destruct (decide (c ∈ camera_ids r)) as [H|H]; [by apply Hin|].
    rewrite Hout by done. rewrite Hids in H. cbn. by destruct (r_entries r !! c) eqn:E; [destruct H; eauto|]. }
  eexists. unfold begin_shutdown, close_admission, get, check, modify, mbind, M_bind. cbn. fold r r1.
  change (camera_ids r1) with (camera_ids r). rewrite Hst. split; [done|].
  destruct f; cbn; [right|left]; (split; [done|]).
  - destruct Hf as [Hf _]. destruct (Hf eq_refl) as [?|(c & e & _ & H)]; [done|]. exists c, e. exact H.
  - intros c e He Hb. destruct Hf as [_ Hf]. enough (false = true) by done. apply Hf. right. exists c, e.
    rewrite Hids. split; [|done]. by exists e.
Qed.

Lemma subscribe_Ok c o r r' src :
  subscribe c o r = (r', Ok src) →
  r' = r ∧ r_closed r = false ∧ ∃ e, r_entries r !! c = Some e ∧ e_phase e = Running ∧ e_source e = Some src ∧
    match o with Some x => e_owner e = x | None => True end.
Proof.
  unfold subscribe, _validate, get, check, raise_if, mret, mbind, M_bind, M_ret, raise.
  destruct (valid_camera_id c); cbn; [|done].
  destruct (r_entries r !! c) as [[d ow st [sc|] []]|]; cbn; try done.
  destruct (r_closed r) eqn:Hc; cbn; [done|].
  destruct (match o with Some x => negb (ow =? x) | None => false end) eqn:Ho; cbn; [done|].
  intros [= <- <-]. split_and!; try done. eexists. split_and!; try done. destruct o; [cbn; lia|done].
Qed.

(** C8 [SourceRegistry]: however [run], [stop] and shutdown interleave, the
    registry never exceeds its capacity, no two cameras share a driver resource,
    every reservation that is not blocked belongs to exactly one running thread,
    and no thread runs without its reservation, so the cleanup check at the end
    of [run] never finds the entry blocked by another. A reservation keeps its
    owner and disappears only when its own thread retires it after a confirmed
    cleanup; a blocked one stays for ever; a closed registry admits nothing. A
    reader is handed the source of a running, unsignalled reservation of an open
    registry. Shutdown signals every reservation that is not blocked and reports
    exactly whether a blocked one is left. *)
Theorem registry_safe capacity s :
  reachable capacity s →
  registry_ok s ∧
  (∀ t c, threads s !! t = Some (InSource c) → (confirm c (reg s)).2 = Ok true) ∧
  (∀ s' c e, step s s' → r_entries (reg s) !! c = Some e →
     evolves s c e s' ∧ (e_phase e = Blocked → r_entries (reg s') !! c = Some e)) ∧
  (∀ c d o x r', r_closed (reg s) = true → admit_source c d o x (reg s) ≠ (r', Ok tt)) ∧
  (∀ c o r' src, subscribe c o (reg s) = (r', Ok src) →
     r' = reg s ∧ r_closed (reg s) = false ∧
     ∃ e, r_entries (reg s) !! c = Some e ∧ e_phase e = Running ∧ e_stop e = false ∧ e_source e = Some src ∧
       match o with Some x => e_owner e = x | None => True end ∧
       ∃ t p, threads s !! t = Some p ∧ camera_of p = c) ∧
  ∃ r' res, begin_shutdown (reg s) = (r', res) ∧ r_closed r' = true ∧
    (∀ c, r_entries r' !! c = signalled <$> r_entries (reg s) !! c) ∧
    (res = Ok tt ∧ (∀ c e, r_entries (reg s) !! c = Some e → e_phase e ≠ Blocked) ∨
     res = Raise (unavailable "one or more sources have uncertain cleanup") ∧
     ∃ c e, r_entries (reg s) !! c = Some e ∧ e_phase e = Blocked).
Proof.
  intros Hr. pose proof (reachable_ok _ _ Hr) as Hok. split; [done|]. split_and!.
  - intros t c Ht. destruct (ro_thread _ Hok t _ Ht) as (e & He & Hb & _). cbn in He.
    unfold confirm, get, mret, mbind, M_bind, M_ret. cbn. rewrite He. by rewrite bool_decide_eq_false_2.
  - intros s' c e Hs He. split; [by apply step_evolves|intros; by eapply blocked_stays].
  - intros c d o x r' Hc Ha. pose proof (admit_source_spec c d o x (reg s)) as H. unfold wp in H. rewrite Ha in H.
    cbn in H. destruct H as (_ & _ & _ & _ & H & _). congruence.
  - intros c o r' src (-> & ? & e & He & Hp & ? & ?)%subscribe_Ok. split_and!; [done..|]. exists e.
    pose proof (ro_coherent _ Hok c e He) as Hco. unfold coherent in Hco. rewrite Hp in Hco. destruct Hco.
    split_and!; try done. apply (ro_live _ Hok c e He). by rewrite Hp.
  - destruct (begin_shutdown_spec s Hok) as (r' & ? & ? & res & ? & ?). exists r', res. done.
Qed.

(** A source is admitted, started, signalled by shutdown and retired; a second
    camera on the same resource is refused. *)
Definition cam_a : string := "cam_0123456789abcdef01234567".
Definition cam_b : string := "cam_0123456789abcdef01234568".

Lemma registry_safe_witness :
  let e1 := mkEntry "driver/1" 9 false None Starting in
  let r1 := mkRegistry (Some 2) {[cam_a := e1]} false in
  let s1 := mkSystem r1 {[1 := InFactory cam_a]} in
  reachable (Some 2) s1 ∧ registry_ok s1 ∧
  (admit_source cam_b "driver/1" 8 false r1).2 = Raise (unavailable "source or driver resource already reserved") ∧
  (subscribe cam_a None (begin_source cam_a 5 r1).1).2 = Ok 5.
Proof.
  set (r0 := mkRegistry (Some 2) ∅ false).
  intros e1 r1 s1.
  assert (Hr : reachable (Some 2) s1).
  { apply (reachable_step _ (mkSystem r0 ∅)); [by apply reachable_new|].
    apply (step_admit r0 r1 ∅ 1 cam_a "driver/1" 9 false); [done|by vm_compute]. }
  split; [exact Hr|]. split; [apply (registry_safe _ _ Hr)|]. split; by vm_compute.
Defined.
End Registry.
