(* ===== verification/Viewers.v ===== *)
(** * Viewer admission and drain

    Models [src/backend/app/media/viewer_gate.py]: viewers are admitted up to a
    capacity, and a camera's viewers are drained before its ingress is replaced.

    The gate is shared by threads under one condition variable.  [suspend] gives
    the lock up while it waits, so it is a thread: it enters ([suspend_enter]),
    and at each wake-up reads the clock and looks again ([drain_pass]).
    [gate_step] interleaves every method with the waiting drains.  A lease is a
    number, fresh at its admission; clock readings are parameters. *)

From Stdlib Require Import ZArith Lia QArith Lqa.
From stdpp Require Import fin_maps.
From S2P Require Import Prelude Admission.
#[local] Open Scope Z_scope.

Module Viewers.
Import Admission.Identity.

Inductive hold_state : Type := HBlocked | HDraining | HDrained.
#[global] Instance hold_state_eq_dec : EqDecision hold_state.
Proof. solve_decision. Defined.

Record ViewerLease := mkLease { l_camera : string; l_cancelled : bool }.
Record gate := mkGate { g_capacity : Z; g_leases : gmap Z ViewerLease; g_holds : gmap string hold_state }.

Definition viewer_gate (capacity : Z) : result gate :=
  _ ← raise_if (negb ((1 <=? capacity) && (capacity <=? 256)))
        (ValueError "viewer capacity must be between 1 and 256");
  Ok (mkGate capacity ∅ ∅).

Definition _validate (camera_id : string) : M gate unit :=
  check (negb (valid_camera_id camera_id)) (ValueError "public camera ID required").

Definition unavailable (why : string) : exn := RuntimeError why.
Definition unconfirmed (why : string) : exn := RuntimeError why.

Definition set_leases (ls : gmap Z ViewerLease) (g : gate) : gate := mkGate (g_capacity g) ls (g_holds g).
Definition set_hold (camera_id : string) (h : hold_state) (g : gate) : gate :=
  mkGate (g_capacity g) (g_leases g) (<[camera_id := h]> (g_holds g)).
Definition held (camera_id : string) (g : gate) : bool := bool_decide (is_Some (g_holds g !! camera_id)).
Definition is_hold (h : hold_state) (camera_id : string) (g : gate) : bool := bool_decide (g_holds g !! camera_id = Some h).

(** [any(lease.camera_id == camera_id for lease in self._leases)] *)
Definition watched (camera_id : string) (g : gate) : bool :=
  existsb (λ il, String.eqb (l_camera il.2) camera_id) (map_to_list (g_leases g)).

(** [for lease in self._leases: if ...: lease.cancelled.set()] *)
Definition cancel_lease (camera_id : string) (l : ViewerLease) : ViewerLease :=
  if String.eqb (l_camera l) camera_id then mkLease (l_camera l) true else l.
Definition cancel_all (camera_id : string) (g : gate) : gate := set_leases (cancel_lease camera_id <$> g_leases g) g.

Definition admit_viewer (camera_id : string) (lease : Z) : M gate unit :=
  _ ← _validate camera_id;
  g ← get;
  _ ← check (held camera_id g || (g_capacity g <=? Z.of_nat (size (g_leases g))))
        (unavailable "viewer admission unavailable");
  modify (λ g, set_leases (<[lease := mkLease camera_id false]> (g_leases g)) g).

(** [discard] the lease; the waiting drains wake up. *)
Definition release (lease : Z) : M gate unit := modify (λ g, set_leases (delete lease (g_leases g)) g).

Definition is_suspended (camera_id : string) : M gate bool :=
  _ ← _validate camera_id; g ← get; mret (held camera_id g).

Definition is_drained (camera_id : string) : M gate bool :=
  _ ← _validate camera_id; g ← get; mret (is_hold HDrained camera_id g && negb (watched camera_id g)).

Definition holds_full (camera_id : string) (g : gate) : bool :=
  negb (held camera_id g) && (32 <=? Z.of_nat (size (g_holds g))).

Definition hold (camera_id : string) : M gate unit :=
  _ ← _validate camera_id;
  g ← get;
  _ ← check (holds_full camera_id g) (unavailable "viewer suspension capacity reached");
  _ ← modify (λ g, if held camera_id g then g else set_hold camera_id HBlocked g);
  modify (cancel_all camera_id).

(** [0 < timeout <= 30], [None] for a timeout that is not finite. *)
Definition bad_timeout (timeout : option Q) : bool :=
  match timeout with Some t => negb (negb (Qle_bool t 0) && Qle_bool t 30) | None => true end.

(** One pass of the wait loop: [Some tt] when the drain is over, [None] when it
    goes on waiting for [deadline - now]. *)
Definition drain_pass (camera_id : string) (now deadline : Q) : M gate (option unit) :=
  g ← get;
  match watched camera_id g with
  | false => _ ← modify (set_hold camera_id HDrained); mret (Some tt)
  | true =>
      match Qle_bool (deadline - now) 0 with
      | true => _ ← modify (set_hold camera_id HBlocked); raise (unconfirmed "viewer drain unconfirmed")
      | false => mret None
      end
  end.

(** [suspend] up to its first wait; returns the deadline with the outcome of
    the first pass. *)
Definition suspend_enter (camera_id : string) (timeout : option Q) (start now : Q) : M gate (Q * option unit) :=
  _ ← _validate camera_id;
  _ ← check (bad_timeout timeout) (ValueError "bounded viewer drain timeout required");
  let deadline := (start + match timeout with Some t => t | None => 0 end)%Q in
  g ← get;
  _ ← check (is_hold HDraining camera_id g) (unavailable "viewer drain already in progress");
  _ ← check (holds_full camera_id g) (unavailable "viewer suspension capacity reached");
  _ ← modify (set_hold camera_id HDraining);
  _ ← modify (cancel_all camera_id);
  over ← drain_pass camera_id now deadline;
  mret (deadline, over).

(** The wait itself was interrupted: [except BaseException]. *)
Definition drain_interrupted (camera_id : string) : M gate unit := modify (set_hold camera_id HBlocked).

Definition resume (camera_id : string) : M gate unit :=
  _ ← _validate camera_id;
  g ← get;
  match held camera_id g with
  | false => mret tt
  | true =>
      _ ← check (negb (is_hold HDrained camera_id g) || watched camera_id g)
            (unconfirmed "viewer suspension unconfirmed");
      modify (λ g, mkGate (g_capacity g) (g_leases g) (delete camera_id (g_holds g)))
  end.

(** ** Interleavings *)

(** The threads waiting inside [suspend]: camera and deadline. *)
Record gsystem := mkGSystem { the_gate : gate; drains : gmap Z (string * Q) }.

Inductive gate_step : gsystem → gsystem → Prop :=
| gs_admit g ds c l :
    g_leases g !! l = None → gate_step (mkGSystem g ds) (mkGSystem (admit_viewer c l g).1 ds)
| gs_release g ds l : gate_step (mkGSystem g ds) (mkGSystem (release l g).1 ds)
| gs_hold g ds c : gate_step (mkGSystem g ds) (mkGSystem (hold c g).1 ds)
| gs_resume g ds c : gate_step (mkGSystem g ds) (mkGSystem (resume c g).1 ds)
| gs_suspend_waits g ds t c timeout start now g' deadline :
    ds !! t = None → suspend_enter c timeout start now g = (g', Ok (deadline, None)) →
    gate_step (mkGSystem g ds) (mkGSystem g' (<[t := (c, deadline)]> ds))
| gs_suspend_ends g ds c timeout start now g' res :
    suspend_enter c timeout start now g = (g', res) → (∀ d, res ≠ Ok (d, None)) →
    gate_step (mkGSystem g ds) (mkGSystem g' ds)
| gs_wake g ds t c deadline now g' :
    ds !! t = Some (c, deadline) → drain_pass c now deadline g = (g', Ok None) →
    gate_step (mkGSystem g ds) (mkGSystem g' ds)
| gs_wake_ends g ds t c deadline now g' res :
    ds !! t = Some (c, deadline) → drain_pass c now deadline g = (g', res) → res ≠ Ok None →
    gate_step (mkGSystem g ds) (mkGSystem g' (delete t ds))
| gs_interrupted g ds t c deadline :
    ds !! t = Some (c, deadline) → gate_step (mkGSystem g ds) (mkGSystem (drain_interrupted c g).1 (delete t ds)).

Inductive gate_reachable (capacity : Z) : gsystem → Prop :=
| gr_new g : viewer_gate capacity = Ok g → gate_reachable capacity (mkGSystem g ∅)
| gr_step s s' : gate_reachable capacity s → gate_step s s' → gate_reachable capacity s'.

(** ** Invariant *)

Record gate_inv (g : gate) : Prop := {
  gi_capacity : Z.of_nat (size (g_leases g)) ≤ g_capacity g;
  gi_holds : Z.of_nat (size (g_holds g)) ≤ 32;
  gi_cancelled : ∀ l le, g_leases g !! l = Some le → held (l_camera le) g = true → l_cancelled le = true;
  gi_drained : ∀ c, g_holds g !! c = Some HDrained → watched c g = false
}.

(** A camera is draining exactly while one thread waits for it. *)
Record drains_ok (hs : gmap string hold_state) (ds : gmap Z (string * Q)) : Prop := {
  do_held : ∀ t c d, ds !! t = Some (c, d) → hs !! c = Some HDraining;
  do_unique : ∀ t u c d d', ds !! t = Some (c, d) → ds !! u = Some (c, d') → t = u;
  do_waited : ∀ c, hs !! c = Some HDraining → ∃ t d, ds !! t = Some (c, d)
}.

Definition gate_ok (s : gsystem) : Prop := gate_inv (the_gate s) ∧ drains_ok (g_holds (the_gate s)) (drains s).

(** ** Lemmas *)

Lemma watched_true c g :
  watched c g = true ↔ ∃ l le, g_leases g !! l = Some le ∧ l_camera le = c.
Proof.
  unfold watched. rewrite existsb_exists. split.
  - intros ([l le] & H & E%String.eqb_eq). apply list_elem_of_In, elem_of_map_to_list in H. eauto.
  - intros (l & le & H & <-). exists (l, le). split; [|by apply String.eqb_eq].
    by apply list_elem_of_In, elem_of_map_to_list.
Qed.

Lemma watched_false c g :
  watched c g = false ↔ ∀ l le, g_leases g !! l = Some le → l_camera le ≠ c.
Proof.
  rewrite <- not_true_iff_false, watched_true. naive_solver.
Qed.

Lemma cancel_camera c l : l_camera (cancel_lease c l) = l_camera l.
Proof. unfold cancel_lease. by case_match. Qed.

Lemma watched_cancel c c' g : watched c' (cancel_all c g) = watched c' g.
Proof.
  apply Bool.eq_true_iff_eq. rewrite !watched_true. cbn. split.
  - intros (l & le & H & <-). rewrite lookup_fmap in H. destruct (g_leases g !! l) eqn:E; [|done].
    simplify_eq/=. rewrite cancel_camera. eauto.
  - intros (l & le & H & <-). exists l, (cancel_lease c le). by rewrite lookup_fmap, H, cancel_camera.
Qed.

Lemma held_set c c' h g : held c' (set_hold c h g) = (bool_decide (c = c') || held c' g).
Proof.
  unfold held, set_hold. cbn. destruct (decide (c = c')) as [->|].
  - rewrite lookup_insert_eq, (bool_decide_eq_true_2 (c' = c')), bool_decide_eq_true_2; by eauto.
  - by rewrite lookup_insert_ne, (bool_decide_eq_false_2 (c = c')).
Qed.

Lemma inv_cancel c g : gate_inv g → gate_inv (cancel_all c g).
Proof.
  intros [H1 H2 H3 H4]. split; cbn.
  - by rewrite map_size_fmap.
  - done.
  - intros l le H Hh. rewrite lookup_fmap in H. destruct (g_leases g !! l) as [le0|] eqn:E; simplify_eq/=.
    rewrite cancel_camera in Hh. unfold cancel_lease. case_match; [done|]. by apply (H3 l le0).
  - intros c' Hc'. rewrite watched_cancel. by apply H4.
Qed.

Lemma cancel_cancelled c g l le :
  g_leases (cancel_all c g) !! l = Some le → l_camera le = c → l_cancelled le = true.
Proof.
  cbn. rewrite lookup_fmap. destruct (g_leases g !! l) as [le0|]; [|done]. intros [= <-].
  rewrite cancel_camera. intros <-. unfold cancel_lease. by rewrite String.eqb_refl.
Qed.

Lemma inv_set_hold c h g :
  gate_inv g → holds_full c g = false →
  (∀ l le, g_leases g !! l = Some le → l_camera le = c → l_cancelled le = true) →
  (h = HDrained → watched c g = false) → gate_inv (set_hold c h g).
Proof.
  intros [H1 H2 H3 H4] Hf Hl Hd. split; cbn.
  - done.
  - rewrite map_size_insert. unfold holds_full, held in Hf. case_match; [done|].
    rewrite bool_decide_eq_false_2 in Hf by (intros [? ?]; congruence). cbn in Hf. lia.
  - intros l le H. rewrite held_set. case_bool_decide; [intros _; by eapply (Hl l)|]. cbn. by apply (H3 l).
  - intros c' [[<- ?]|[? ?]]%lookup_insert_Some; [by apply Hd|]. by apply H4.
Qed.

Lemma held_not_full c g : held c g = true → holds_full c g = false.
Proof. unfold holds_full. by intros ->. Qed.

Lemma draining_held c g : g_holds g !! c = Some HDraining → held c g = true.
Proof. intros H. apply bool_decide_eq_true_2. eauto. Qed.

(** A camera already held gets another state. *)
Lemma inv_rehold c h g :
  gate_inv g → held c g = true → (h = HDrained → watched c g = false) → gate_inv (set_hold c h g).
Proof.
  intros Hg Hh Hd. apply inv_set_hold; [done|by apply held_not_full| |done].
  intros l le H <-. by eapply (gi_cancelled g Hg l).
Qed.

Lemma drains_set hs ds c h :
  drains_ok hs ds → hs !! c ≠ Some HDraining → h ≠ HDraining → drains_ok (<[c := h]> hs) ds.
Proof.
  intros [H1 H2 H3] Hc Hh. split; [|done|].
  - intros t c' d Ht. rewrite lookup_insert_ne; [by eapply H1|]. intros <-. by apply Hc, (H1 _ _ _ Ht).
  - intros c' [[<- ?]|[? ?]]%lookup_insert_Some; [done|]. by apply H3.
Qed.

Lemma drains_delete hs ds c : drains_ok hs ds → hs !! c ≠ Some HDraining → drains_ok (delete c hs) ds.
Proof.
  intros [H1 H2 H3] Hc. split; [|done|].
  - intros t c' d Ht. rewrite lookup_delete_ne; [by eapply H1|]. intros <-. by apply Hc, (H1 _ _ _ Ht).
  - intros c' [? ?]%lookup_delete_Some. by apply H3.
Qed.

Lemma drains_enter hs ds t c d :
  drains_ok hs ds → hs !! c ≠ Some HDraining → ds !! t = None →
  drains_ok (<[c := HDraining]> hs) (<[t := (c, d)]> ds).
Proof.
  intros [H1 H2 H3] Hc Ht. split.
  - intros u c' d' [[<- ?]|[? Hu]]%lookup_insert_Some; simplify_eq; [by rewrite lookup_insert_eq|].
    rewrite lookup_insert_ne; [by eapply H1|]. intros <-. by apply Hc, (H1 _ _ _ Hu).
  - intros u v c' d1 d2 [[<- ?]|[? Hu]]%lookup_insert_Some [[<- ?]|[? Hv]]%lookup_insert_Some; simplify_eq; try done.
    + by destruct Hc; eapply (H1 v).
    + by destruct Hc; eapply (H1 u).
    + by eapply H2.
  - intros c' [[<- ?]|[? Hc']]%lookup_insert_Some; [exists t, d; by rewrite lookup_insert_eq|].
    destruct (H3 _ Hc') as (u & d' & Hu). exists u, d'. rewrite lookup_insert_ne by congruence. done.
Qed.

Lemma drains_leave hs ds t c d h :
  drains_ok hs ds → ds !! t = Some (c, d) → h ≠ HDraining → drains_ok (<[c := h]> hs) (delete t ds).
Proof.
  intros [H1 H2 H3] Ht Hh. split.
  - intros u c' d' [Hne Hu]%lookup_delete_Some. rewrite lookup_insert_ne; [by eapply H1|].
    intros <-. by apply Hne; eapply H2.
  - intros u v c' d1 d2 [? Hu]%lookup_delete_Some [? Hv]%lookup_delete_Some. by eapply H2.
  - intros c' [[<- ?]|[? Hc']]%lookup_insert_Some; [done|]. destruct (H3 _ Hc') as (u & d' & Hu). exists u, d'.
    rewrite lookup_delete_ne by congruence. done.
Qed.

Ltac run_gate := unfold _validate, get, check, modify, raise, raise_if, mret, mbind, M_bind, M_ret; cbn.

Lemma drain_pass_eq c now deadline g :
  drain_pass c now deadline g =
  if watched c g
  then if Qle_bool (deadline - now) 0
       then (set_hold c HBlocked g, Raise (unconfirmed "viewer drain unconfirmed")) else (g, Ok None)
  else (set_hold c HDrained g, Ok (Some tt)).
Proof. unfold drain_pass. run_gate. destruct (watched c g); [by case_match|done]. Qed.

Definition entered (c : string) (g : gate) : gate := cancel_all c (set_hold c HDraining g).

Lemma suspend_enter_eq c timeout start now g :
  (∃ e, suspend_enter c timeout start now g = (g, Raise e)) ∨
  valid_camera_id c = true ∧ g_holds g !! c ≠ Some HDraining ∧ holds_full c g = false ∧
  ∃ t, timeout = Some t ∧
  suspend_enter c timeout start now g =
    match drain_pass c now (start + t) (entered c g) with
    | (g', Ok over) => (g', Ok ((start + t)%Q, over))
    | (g', Raise e) => (g', Raise e)
    end.
Proof.
  unfold suspend_enter, entered. run_gate.
  destruct (valid_camera_id c); cbn; [|eauto]. destruct (bad_timeout timeout) eqn:Ht; cbn; [eauto|].
  destruct (is_hold HDraining c g) eqn:Hd; cbn; [eauto|]. destruct (holds_full c g); cbn; [eauto|].
  right. split_and!; [done|by eapply bool_decide_eq_false_1|done|]. destruct timeout as [t|]; [|done]. by exists t.
Qed.

Lemma entered_ok c g :
  gate_inv g → holds_full c g = false → gate_inv (entered c g).
Proof.
  intros Hg Hf. change (gate_inv (set_hold c HDraining (cancel_all c g))).
  apply inv_set_hold; [by apply inv_cancel|done|apply cancel_cancelled|done].
Qed.

(** A pass of the wait loop keeps the invariant. *)
Lemma pass_inv c now deadline g g' res :
  gate_inv g → held c g = true → drain_pass c now deadline g = (g', res) → gate_inv g'.
Proof.
  intros Hg Hh. rewrite drain_pass_eq. destruct (watched c g) eqn:Hw; [case_match|]; intros [= <- _]; [|done|];
    by apply inv_rehold.
Qed.

Lemma admit_viewer_spec c l g :
  wp (admit_viewer c l) (λ res g',
    match res with
    | Ok _ => g' = set_leases (<[l := mkLease c false]> (g_leases g)) g ∧ valid_camera_id c = true ∧
              held c g = false ∧ Z.of_nat (size (g_leases g)) < g_capacity g
    | Raise _ => g' = g
    end) g.
Proof.
  unfold admit_viewer, _validate. repeat (wp_step; try (intros ?; done)); intros; try done.
  destruct (held c g); [done|]. split_and!; [done|by apply negb_false_iff|done|lia].
Qed.

Lemma hold_spec c g :
  (hold c g).1 = g ∨
  holds_full c g = false ∧ (hold c g).1 = cancel_all c (if held c g then g else set_hold c HBlocked g).
Proof.
  unfold hold. run_gate. destruct (valid_camera_id c); cbn; [|by left].
  destruct (holds_full c g); cbn; [by left|by right].
Qed.

Lemma resume_spec c g :
  valid_camera_id c = true →
  resume c g =
  match g_holds g !! c with
  | None => (g, Ok tt)
  | Some HDrained =>
      if watched c g then (g, Raise (unconfirmed "viewer suspension unconfirmed"))
      else (mkGate (g_capacity g) (g_leases g) (delete c (g_holds g)), Ok tt)
  | Some _ => (g, Raise (unconfirmed "viewer suspension unconfirmed"))
  end.
Proof.
  intros Hv. unfold resume, held, is_hold. run_gate. rewrite Hv. cbn.
  destruct (g_holds g !! c) as [[]|] eqn:E; cbn; try done. by destruct (watched c g).
Qed.

Lemma resume_cases c g :
  (resume c g).1 = g ∨
  g_holds g !! c = Some HDrained ∧ watched c g = false ∧
  (resume c g).1 = mkGate (g_capacity g) (g_leases g) (delete c (g_holds g)).
Proof.
  destruct (valid_camera_id c) eqn:Hv; [|left; unfold resume; run_gate; by rewrite Hv].
  rewrite resume_spec by done. destruct (g_holds g !! c) as [[]|]; try by left.
  destruct (watched c g); [by left|by right].
Qed.

Lemma gate_ok_hold s c :
  gate_ok s → gate_ok (mkGSystem (hold c (the_gate s)).1 (drains s)).
Proof.
  intros [Hg Hd]. destruct (hold_spec c (the_gate s)) as [->|[Hf ->]]; [by split|].
  destruct (held c (the_gate s)) eqn:Hh; [by split; [apply inv_cancel|]|]. split; cbn.
  - change (gate_inv (set_hold c HBlocked (cancel_all c (the_gate s)))).
    apply inv_set_hold; [by apply inv_cancel|done|apply cancel_cancelled|done].
  - apply drains_set; [done| |done]. intros H%draining_held. congruence.
Qed.

Lemma gate_ok_pass s t c d now g' res :
  gate_ok s → drains s !! t = Some (c, d) → drain_pass c now d (the_gate s) = (g', res) →
  gate_ok (mkGSystem g' (match res with Ok None => drains s | _ => delete t (drains s) end)).
Proof.
  intros [Hg Hd] Ht Hp. pose proof (do_held _ _ Hd _ _ _ Ht) as Hh.
  split; [by eapply pass_inv; [| |exact Hp]; [|by apply draining_held]|]. cbn.
  rewrite drain_pass_eq in Hp. repeat case_match; simplify_eq; try done; by eapply drains_leave.
Qed.

(** [suspend] leaves a waiting thread, or none. *)
Lemma gate_ok_enter s c timeout start now g' res :
  gate_ok s → suspend_enter c timeout start now (the_gate s) = (g', res) →
  match res with
  | Ok (d, None) => ∀ t, drains s !! t = None → gate_ok (mkGSystem g' (<[t := (c, d)]> (drains s)))
  | _ => gate_ok (mkGSystem g' (drains s))
  end.
Proof.
  intros [Hg Hd] He. destruct (suspend_enter_eq c timeout start now (the_gate s)) as [[e Hr]|(_ & Hn & Hf & t & -> & Hr)];
    rewrite Hr in He; [by simplify_eq|]. clear Hr.
  pose proof (entered_ok c _ Hg Hf) as Hin.
  assert (Hh : held c (entered c (the_gate s)) = true) by (apply draining_held; apply lookup_insert_eq).
  destruct (drain_pass c now (start + t) (entered c (the_gate s))) as [g1 r1] eqn:Hp.
  pose proof (pass_inv _ _ _ _ _ _ Hin Hh Hp) as Hg1.
  assert (Hset : ∀ h, h ≠ HDraining → drains_ok (g_holds (set_hold c h (entered c (the_gate s)))) (drains s)).
  { intros h Hh'. cbn. rewrite insert_insert_eq. by apply drains_set. }
  rewrite drain_pass_eq in Hp. repeat case_match; simplify_eq; try (split; [done|by apply Hset]).
  intros u Hu. split; [done|]. by apply drains_enter.
Qed.

Lemma gate_ok_step s s' : gate_ok s → gate_step s s' → gate_ok s'.
Proof.
  intros Hok Hs. destruct Hs as [g ds c l Hl|g ds l|g ds c|g ds c|g ds t c o a b g' d Ht He|g ds c o a b g' res He Hres
    |g ds t c d now g' Ht Hp|g ds t c d now g' res Ht Hp Hres|g ds t c d Ht].
  - pose proof (admit_viewer_spec c l g) as H. unfold wp in H. destruct (admit_viewer c l g) as [g' [u|e]]; cbn in *; subst; [|done].
    destruct H as (-> & _ & Hh & Hc), Hok as [[H1 H2 H3 H4] Hd]. split; [split|done]; cbn in *.
    + rewrite map_size_insert, Hl. lia.
    + done.
    + intros l' le [[<- <-]|[? ?]]%lookup_insert_Some Hh'; [|by eapply H3]. cbn in Hh'. unfold held in *. cbn in *. congruence.
    + intros c' Hc'. apply watched_false. cbn. intros l' le [[<- <-]|[? ?]]%lookup_insert_Some.
      * cbn. intros ->. apply bool_decide_eq_false_1 in Hh. eauto.
      * by apply (proj1 (watched_false c' g) (H4 _ Hc') l').
  - destruct Hok as [[H1 H2 H3 H4] Hd]. split; [split|done]; cbn in *.
    + rewrite map_size_delete. destruct (g_leases g !! l); cbn; lia.
    + done.
    + intros l' le [? ?]%lookup_delete_Some. by apply (H3 l').
    + intros c' Hc'. apply watched_false. cbn. intros l' le [? ?]%lookup_delete_Some.
      by apply (proj1 (watched_false c' g) (H4 _ Hc') l').
  - by apply (gate_ok_hold (mkGSystem g ds)).
  - destruct (resume_cases c g) as [->|(Hc & Hw & ->)]; [done|]. destruct Hok as [[H1 H2 H3 H4] Hd]. cbn in *. split; [split|]; cbn.
    + done.
    + rewrite map_size_delete, Hc. cbn. lia.
    + intros l le Hl Hh. apply (H3 l); [done|]. unfold held in *. apply bool_decide_eq_true in Hh as [h Hh]. cbn in Hh.
      apply lookup_delete_Some in Hh as [? ?]. apply bool_decide_eq_true_2. eauto.
    + intros c' [? ?]%lookup_delete_Some. by apply H4.
    + apply drains_delete; [done|]. congruence.
  - by apply (gate_ok_enter (mkGSystem g ds) _ _ _ _ _ _ Hok He).
  - pose proof (gate_ok_enter (mkGSystem g ds) _ _ _ _ _ _ Hok He) as H. destruct res as [[d [[]|]]|]; try done.
    by destruct (Hres d).
  - exact (gate_ok_pass (mkGSystem g ds) t c d now g' (Ok None) Hok Ht Hp).
  - pose proof (gate_ok_pass (mkGSystem g ds) t c d now g' res Hok Ht Hp) as H. by destruct res as [[[]|]|].
  - destruct Hok as [Hg Hd]. pose proof (do_held _ _ Hd _ _ _ Ht) as Hh. split; cbn in *.
    + apply inv_rehold; [done|by apply draining_held|done].
    + by eapply drains_leave.
Qed.

(** Leases only go or get cancelled, and holds only come. *)
Record tightens (g g' : gate) : Prop := {
  ti_capacity : g_capacity g' = g_capacity g;
  ti_leases : ∀ l le', g_leases g' !! l = Some le' →
    ∃ le, g_leases g !! l = Some le ∧ l_camera le = l_camera le' ∧ (l_cancelled le = true → l_cancelled le' = true);
  ti_holds : ∀ c, held c g = true → held c g' = true
}.

#[global] Instance tightens_preorder : PreOrder tightens.
Proof.
  split; [intros g; split; eauto|]. intros g1 g2 g3 [C1 A1 B1] [C2 A2 B2]. split; [congruence| |auto].
  intros l le3 (le2 & H2 & ? & ?)%A2. destruct (A1 _ _ H2) as (le1 & ? & ? & ?). exists le1. split_and!; [done|congruence|auto].
Qed.

Lemma tightens_set c h g : tightens g (set_hold c h g).
Proof. split; [done|cbn; eauto|]. intros c' Hc'. rewrite held_set, Hc'. apply orb_true_r. Qed.

Lemma tightens_cancel c g : tightens g (cancel_all c g).
Proof.
  split; [done| |done]. cbn. intros l le'. rewrite lookup_fmap. destruct (g_leases g !! l) as [le|] eqn:E; [|done].
  intros [= <-]. exists le. rewrite cancel_camera. split_and!; [done..|]. unfold cancel_lease. by case_match.
Qed.

Lemma tightens_release l g : tightens g (release l g).1.
Proof. split; [done| |done]. cbn. intros l' le' [? ?]%lookup_delete_Some. eauto. Qed.

Lemma tightens_hold c g : tightens g (hold c g).1.
Proof.
  destruct (hold_spec c g) as [->|[_ ->]]; [done|]. etrans; [|apply tightens_cancel]. case_match; [done|apply tightens_set].
Qed.

Lemma tightens_pass c now d g g' res : drain_pass c now d g = (g', res) → tightens g g'.
Proof. rewrite drain_pass_eq. repeat case_match; intros [= <- _]; [apply tightens_set|done|apply tightens_set]. Qed.

Lemma tightens_enter c o a b g g' res : suspend_enter c o a b g = (g', res) → tightens g g'.
Proof.
  destruct (suspend_enter_eq c o a b g) as [[e ->]|(_ & _ & _ & t & _ & ->)]; [by intros [= <- _]|].
  destruct (drain_pass _ _ _ _) as [g1 r1] eqn:Hp. apply tightens_pass in Hp.
  intros H. assert (g1 = g') as <- by (destruct r1; congruence).
  etrans; [|exact Hp]. etrans; [apply tightens_set|apply tightens_cancel].
Qed.

(** One transition admits only to a camera that is not held, and takes away only
    the hold of a drained camera. *)
Lemma gate_step_cases s s' :
  gate_step s s' →
  tightens (the_gate s) (the_gate s') ∨
  (∃ c l, held c (the_gate s) = false ∧ g_leases (the_gate s) !! l = None ∧ valid_camera_id c = true ∧
     the_gate s' = set_leases (<[l := mkLease c false]> (g_leases (the_gate s))) (the_gate s)) ∨
  (∃ c, g_holds (the_gate s) !! c = Some HDrained ∧ watched c (the_gate s) = false ∧
     the_gate s' = mkGate (g_capacity (the_gate s)) (g_leases (the_gate s)) (delete c (g_holds (the_gate s)))).
Proof.
  intros Hs. destruct Hs as [g ds c l Hl|g ds l|g ds c|g ds c|g ds t c o a b g' d Ht He|g ds c o a b g' res He Hres
    |g ds t c d now g' Ht Hp|g ds t c d now g' res Ht Hp Hres|g ds t c d Ht]; cbn [the_gate].
  - pose proof (admit_viewer_spec c l g) as H. unfold wp in H. destruct (admit_viewer c l g) as [g' [u|e]]; cbn in *; subst; [|by left].
    destruct H as (-> & ? & ? & ?). right; left. by exists c, l.
  - left. apply tightens_release.
  - left. apply tightens_hold.
  - destruct (resume_cases c g) as [->|(? & ? & ->)]; [by left|]. right; right. by exists c.
  - left. by eapply tightens_enter.
  - left. by eapply tightens_enter.
  - left. by eapply tightens_pass.
  - left. by eapply tightens_pass.
  - left. apply tightens_set.
Qed.

Lemma gate_reachable_ok capacity s :
  gate_reachable capacity s → gate_ok s ∧ g_capacity (the_gate s) = capacity ∧ 1 ≤ capacity ≤ 256.
Proof.
  induction 1 as [g Hg|s s' Hr (Hok & Hc & Hb) Hs].
  - unfold viewer_gate in Hg. res_inv. cbn. split; [|lia]. split; split; cbn; try done.
    rewrite map_size_empty. lia.
  - split; [by eapply gate_ok_step|]. split; [|done]. rewrite <- Hc.
    destruct (gate_step_cases _ _ Hs) as [Ht|[(?&?&_&_&_& ->)|(?&_&_& ->)]]; [by apply ti_capacity|done..].
Qed.

(** C11 [ViewerGate]: however admissions, releases, holds, drains, time-outs,
    interruptions and resumes interleave, at most [capacity] viewers are
    registered and at most 32 cameras held; every registered viewer of a held
    camera has been cancelled; a drained camera has no viewer left; and a
    camera is draining exactly while one thread waits for it. A held camera gets
    no new viewer, cancellation is never taken back, and a hold is lifted only
    from a drained camera without viewers, by a [resume] that otherwise raises
    and changes nothing. A waiting drain succeeds at its next wake-up once the
    viewers are gone, and never waits past its deadline. *)
Theorem viewers_safe capacity s :
  gate_reachable capacity s →
  let g := the_gate s in
  gate_ok s ∧ Z.of_nat (size (g_leases g)) ≤ capacity ≤ 256 ∧
  (∀ s' l le', gate_step s s' → g_leases (the_gate s') !! l = Some le' →
     (∃ le, g_leases g !! l = Some le ∧ l_camera le = l_camera le' ∧ (l_cancelled le = true → l_cancelled le' = true)) ∨
     g_leases g !! l = None ∧ held (l_camera le') g = false) ∧
  (∀ s' c, gate_step s s' → held c g = true →
     held c (the_gate s') = true ∨ g_holds g !! c = Some HDrained ∧ watched c g = false) ∧
  (∀ c, valid_camera_id c = true →
     (resume c g).2 = Ok tt ∧ held c (resume c g).1 = false ∧
       (held c g = false ∨ (is_drained c g).2 = Ok true) ∨
     (resume c g) = (g, Raise (unconfirmed "viewer suspension unconfirmed")) ∧ held c g = true ∧
       (is_drained c g).2 = Ok false) ∧
  (∀ t c deadline now, drains s !! t = Some (c, deadline) →
     (watched c g = false → drain_pass c now deadline g = (set_hold c HDrained g, Ok (Some tt))) ∧
     (deadline <= now → (drain_pass c now deadline g).2 ≠ Ok None)%Q).
Proof.
  intros Hr g. destruct (gate_reachable_ok _ _ Hr) as (Hok & Hc & Hb).
  pose proof (proj1 Hok) as Hg. fold g in Hg. split_and!; try done.
  - rewrite <- Hc. apply Hg.
  - lia.
  - intros s' l le' Hs Hl. destruct (gate_step_cases _ _ Hs) as [Ht|[(c & l0 & Hh & Hn & _ & E)|(c & _ & _ & E)]].
    + left. by apply (ti_leases _ _ Ht).
    + rewrite E in Hl. cbn in Hl. apply lookup_insert_Some in Hl as [[<- <-]|[? ?]]; [by right|left; eauto].
    + rewrite E in Hl. cbn in Hl. left. eauto.
  - intros s' c Hs Hh. destruct (gate_step_cases _ _ Hs) as [Ht|[(c0 & l0 & _ & _ & _ & E)|(c0 & Hd & Hw & E)]].
    + left. by apply (ti_holds _ _ Ht).
    + left. by rewrite E.
    + destruct (decide (c0 = c)) as [<-|]; [by right|left]. rewrite E. unfold held. cbn. by rewrite lookup_delete_ne.
  - intros c Hv. rewrite resume_spec by done. unfold is_drained, is_hold, held. run_gate. rewrite Hv. cbn.
    destruct (g_holds g !! c) as [[]|] eqn:E; cbn; try (right; done).
    + rewrite (gi_drained g Hg c E). left. cbn. rewrite lookup_delete_eq. by split_and!; [..|right].
    + left. rewrite E. by split_and!; [..|left].
  - intros t c deadline now _. rewrite drain_pass_eq. split; [by intros ->|]. intros Hle.
    destruct (watched c g); [|done]. assert (Qle_bool (deadline - now) 0 = true) as -> by (apply Qle_bool_iff; lra). done.
Qed.

(** Two viewers of a camera; its drain waits, the viewers leave, it resumes. *)
Definition cam : string := "cam_0123456789abcdef01234567".

Lemma viewers_safe_witness :
  let g1 := mkGate 4 {[1 := mkLease cam false]} ∅ in
  let g2 := mkGate 4 {[1 := mkLease cam true]} {[cam := HDraining]} in
  let s2 := mkGSystem g2 {[7 := (cam, (0 + 8)%Q)]} in
  gate_reachable 4 s2 ∧ gate_ok s2 ∧ (admit_viewer cam 2 g2).2 = Raise (unavailable "viewer admission unavailable") ∧
  (drain_pass cam 8 8 g2).2 = Raise (unconfirmed "viewer drain unconfirmed").
Proof.
  intros g1 g2 s2.
  assert (Hr : gate_reachable 4 s2).
  { apply (gr_step _ (mkGSystem g1 ∅)).
    - apply (gr_step _ (mkGSystem (mkGate 4 ∅ ∅) ∅)); [by apply gr_new|].
      exact (gs_admit (mkGate 4 ∅ ∅) ∅ cam 1 eq_refl).
    - apply (gs_suspend_waits g1 ∅ 7 cam (Some 8%Q) 0 0 g2 (0 + 8)%Q); [done|]. by vm_compute. }
  split; [exact Hr|]. split; [apply (viewers_safe _ _ Hr)|]. split; by vm_compute.
Defined.
End Viewers.
