(* ===== verification/Recorder.v ===== *)
(** * Recording supervision

    Models the supervision of the recording processes: [Recorder] of
    [src/backend/app/recording/recorder.py] (pause, resume, retirement, respawn
    with backoff, the memory watchdog), the admission gate of
    [ingress_gate.py] and the disk policy of [storage.py].

    Everything that touches a process runs under the recorder's lock, so a method
    is one operation.  What the system answers during it is an [env]: whether a
    child has exited, how a retirement or a spawn ends, memory sizes, the source
    policy and the clock.  A [Popen] object is a number.  [children] is a ghost
    field, the processes started whose exit the recorder has not seen; it is
    written where a child is created, reaped or found dead, and never read.

    Left out: paths, command lines, logs, the index of finished segments, and
    the threads of the two loops. *)

From Stdlib Require Import ZArith QArith Qminmax Lia Lqa.
From stdpp Require Import fin_maps fin_sets.
From S2P Require Import Prelude Admission.
#[local] Open Scope Z_scope.

Module Recorder.
Import Admission.Identity.

Definition _RSS_LIMIT_BYTES : Z := 256 * 1024 * 1024.
Definition _BACKOFF_BASE : Q := 5.
Definition _BACKOFF_MAX : Q := 120.
Definition _HEALTHY_AFTER : Q := 60.
Definition MAX_HOLDS : Z := 32.

(** The exception a call into the system raised, if any. *)
Record env := mkEnv {
  exited : string → bool;              (* [proc.poll() is not None] *)
  retire_process : string → option exn;
  rss_bytes : string → option Z;
  kill : string → option exn;          (* [proc.kill(); proc.wait(timeout=5)] *)
  permits : string → result bool;      (* the source policy and the owned ingress *)
  popen : string → option exn;
  clock : string → nat → Q             (* the readings made for a camera, in order *)
}.

Record Recorder := mkRecorder {
  _procs : gmap string Z; _spawned_at : gmap string Q; _fails : gmap string Z; _retry_at : gmap string Q;
  _cameras : list string; _paused : bool; _held : gmap string bool;
  next_process : Z; children : gmap Z string
}.

Definition recorder : Recorder := mkRecorder ∅ ∅ ∅ ∅ [] false ∅ 0 ∅.

Definition set_procs m r := mkRecorder m (_spawned_at r) (_fails r) (_retry_at r) (_cameras r) (_paused r) (_held r) (next_process r) (children r).
Definition set_spawned m r := mkRecorder (_procs r) m (_fails r) (_retry_at r) (_cameras r) (_paused r) (_held r) (next_process r) (children r).
Definition set_fails m r := mkRecorder (_procs r) (_spawned_at r) m (_retry_at r) (_cameras r) (_paused r) (_held r) (next_process r) (children r).
Definition set_retry m r := mkRecorder (_procs r) (_spawned_at r) (_fails r) m (_cameras r) (_paused r) (_held r) (next_process r) (children r).
Definition set_cameras cs r := mkRecorder (_procs r) (_spawned_at r) (_fails r) (_retry_at r) cs (_paused r) (_held r) (next_process r) (children r).
Definition set_paused b r := mkRecorder (_procs r) (_spawned_at r) (_fails r) (_retry_at r) (_cameras r) b (_held r) (next_process r) (children r).
Definition set_held h r := mkRecorder (_procs r) (_spawned_at r) (_fails r) (_retry_at r) (_cameras r) (_paused r) h (next_process r) (children r).

(** The child of a camera is dead. *)
Definition buried (camera_id : string) (r : Recorder) : Recorder :=
  mkRecorder (_procs r) (_spawned_at r) (_fails r) (_retry_at r) (_cameras r) (_paused r) (_held r) (next_process r)
    (match _procs r !! camera_id with Some p => delete p (children r) | None => children r end).

(** [2 ** (fails - 1)] is converted to a float, which fails from 2^1024 on. *)
Definition _retry_delay (camera_id : string) (r : Recorder) : result Q :=
  let fails := default 0 (_fails r !! camera_id) in
  if fails <=? 0 then Ok 0%Q else
  _ ← raise_if (1024 <=? fails - 1) OverflowError;
  Ok (Qmin (_BACKOFF_BASE * inject_Z (2 ^ (fails - 1))) _BACKOFF_MAX).

Definition _forget (camera_id : string) (r : Recorder) : Recorder :=
  set_procs (delete camera_id (_procs r)) (set_spawned (delete camera_id (_spawned_at r))
    (set_fails (delete camera_id (_fails r)) (set_retry (delete camera_id (_retry_at r)) r))).

(** [self._retry_at[camera_id] = time.monotonic() + self._retry_delay(camera_id)] *)
Definition back_off (camera_id : string) (now : Q) : M Recorder unit :=
  r ← get;
  delay ← lift (_retry_delay camera_id r);
  modify (λ r, set_retry (<[camera_id := (now + delay)%Q]> (_retry_at r)) r).

(** The running child exited on its own: the failure is booked. *)
Definition book_exit (E : env) (camera_id : string) : M Recorder unit :=
  r ← get;
  let ran := (clock E camera_id 0 - default 0 (_spawned_at r !! camera_id))%Q in
  _ ← modify (λ r, set_spawned (delete camera_id (_spawned_at r)) r);
  _ ← modify (λ r, set_procs (delete camera_id (_procs r)) (buried camera_id r));
  _ ← modify (λ r, set_fails (<[camera_id := if Qle_bool _HEALTHY_AFTER ran then 0 else default 0 (_fails r !! camera_id) + 1]> (_fails r)) r);
  back_off camera_id (clock E camera_id 1).

Definition started (camera_id : string) (now : Q) (r : Recorder) : Recorder :=
  mkRecorder (<[camera_id := next_process r]> (_procs r)) (<[camera_id := now]> (_spawned_at r)) (_fails r) (_retry_at r)
    (_cameras r) (_paused r) (_held r) (next_process r + 1) (<[next_process r := camera_id]> (children r)).

Definition _spawn_hub_locked (E : env) (camera_id : string) : M Recorder unit :=
  r ← get;
  match _procs r !! camera_id with
  | Some _ => match exited E camera_id with true => book_exit E camera_id | false => mret tt end
  | None =>
      match Qle_bool (default 0%Q (_retry_at r !! camera_id)) (clock E camera_id 0) with
      | false => mret tt
      | true =>
          match popen E camera_id with
          | Some e => raise e
          | None => modify (started camera_id (clock E camera_id 1))
          end
      end
  end.

Definition held_locked (camera_id : string) (r : Recorder) : bool := bool_decide (is_Some (_held r !! camera_id)).

Definition _spawn_locked (E : env) (camera_id : string) : M Recorder unit :=
  r ← get;
  match _paused r || held_locked camera_id r with
  | true => mret tt
  | false =>
      ok ← lift (permits E camera_id);
      match ok with true => _spawn_hub_locked E camera_id | false => mret tt end
  end.

Definition _retire_locked (E : env) (camera_id : string) : M Recorder unit :=
  r ← get;
  match _procs r !! camera_id, retire_process E camera_id with
  | Some _, Some e => raise e
  | _, _ => modify (λ r, _forget camera_id (buried camera_id r))
  end.

(** One child of [_terminate_all_locked]; [true] when it would not go. *)
Definition terminate_one (E : env) (failed : bool) (camera_id : string) (r : Recorder) : Recorder * bool :=
  match retire_process E camera_id with
  | Some _ => (r, true)
  | None => (_forget camera_id (buried camera_id r), failed)
  end.

Definition terminate_each (E : env) (cameras : list string) (r : Recorder) : Recorder * bool :=
  foldl (λ '(r, failed) c, terminate_one E failed c r) (r, false) cameras.

(** [{*self._fails, *self._retry_at, *self._spawned_at} - self._procs.keys()] *)
Definition idle_keys (r : Recorder) : gset string := (dom (_fails r) ∪ dom (_retry_at r) ∪ dom (_spawned_at r)) ∖ dom (_procs r).

Definition _terminate_all_locked (E : env) : M Recorder unit := λ r,
  let '(r, failed) := terminate_each E (map_to_list (_procs r)).*1 r in
  let r := foldl (λ r c, _forget c r) r (elements (idle_keys r)) in
  (r, raise_if failed (RuntimeError "one or more recording processes did not confirm exit")).

(** [start], the part under the lock. *)
Definition start (E : env) (cameras : list string) : M Recorder unit :=
  _ ← modify (set_cameras cameras);
  r ← get;
  _ ← for_each (_retire_locked E) (List.filter (λ c, negb (bool_decide (c ∈ cameras))) (map_to_list (_procs r)).*1);
  for_each (_spawn_locked E) cameras.

Definition pause (E : env) : M Recorder unit :=
  r ← get;
  match _paused r && bool_decide (_procs r = ∅) with
  | true => mret tt
  | false => _ ← modify (set_paused true); _terminate_all_locked E
  end.

Definition resume (E : env) : M Recorder unit :=
  r ← get;
  _ ← (match _paused r && negb (bool_decide (_procs r = ∅)) with true => _terminate_all_locked E | false => mret tt end);
  modify (set_paused false).

(** One camera of [_watchdog_locked]. *)
Definition watch (E : env) (camera_id : string) : M Recorder unit :=
  match exited E camera_id with
  | true => mret tt
  | false =>
      match rss_bytes E camera_id with
      | None => mret tt
      | Some rss =>
          match rss <=? _RSS_LIMIT_BYTES, kill E camera_id with
          | true, _ | false, Some _ => mret tt
          | false, None =>
              _ ← modify (λ r, set_procs (delete camera_id (_procs r)) (buried camera_id r));
              _ ← modify (λ r, set_spawned (delete camera_id (_spawned_at r)) r);
              _ ← modify (λ r, set_fails (<[camera_id := default 0 (_fails r !! camera_id) + 1]> (_fails r)) r);
              back_off camera_id (clock E camera_id 0)
          end
      end
  end.

Definition _watchdog_locked (E : env) : M Recorder unit :=
  r ← get; for_each (watch E) (map_to_list (_procs r)).*1.

(** One supervision pass of [_maintain]; [E] answers the watchdog, [E'] the
    respawns after it. *)
Definition supervise (E E' : env) : M Recorder unit :=
  r ← get;
  match _paused r with
  | true => mret tt
  | false => _ ← _watchdog_locked E; r ← get; for_each (_spawn_locked E') (_cameras r)
  end.

(** ** [ingress_gate.py] *)

Definition _validate (camera_id : string) : M Recorder unit :=
  check (negb (valid_camera_id camera_id)) (ValueError "public camera ID required").

Definition is_retired (camera_id : string) : M Recorder bool :=
  _ ← _validate camera_id; r ← get;
  mret (bool_decide (_held r !! camera_id = Some true) && negb (bool_decide (is_Some (_procs r !! camera_id)))).

Definition suspend (E : env) (camera_id : string) : M Recorder unit :=
  _ ← _validate camera_id;
  r ← get;
  _ ← check (negb (held_locked camera_id r) && (MAX_HOLDS <=? Z.of_nat (size (_held r))))
        (RuntimeError "recording suspension capacity reached");
  _ ← modify (λ r, set_held (<[camera_id := false]> (_held r)) r);
  _ ← _retire_locked E camera_id;
  modify (λ r, set_held (<[camera_id := true]> (_held r)) r).

Definition resume_ingress (camera_id : string) : M Recorder unit :=
  _ ← _validate camera_id;
  r ← get;
  match _held r !! camera_id with
  | None => mret tt
  | Some confirmed =>
      _ ← check (negb confirmed || bool_decide (is_Some (_procs r !! camera_id)))
            (RuntimeError "recording suspension cleanup unconfirmed");
      modify (λ r, set_held (delete camera_id (_held r)) r)
  end.

(** ** [storage.py] *)

Inductive status := StatusOk | Alert | Full.

Record policy := mkPolicy { alert_percent : Z; full_percent : Z; resume_percent : Z }.
Record monitor := mkMonitor { _paused_by_full : bool; _pause_pending : bool }.

(** [(du.used / du.total * 100) if du.total else 0.0], of a reading [(total, used)]. *)
Definition used_percent (du : Z * Z) : Q := if du.1 =? 0 then 0%Q else (inject_Z du.2 / inject_Z du.1 * 100)%Q.

Definition at_least (pct : Q) (percent : Z) : bool := Qle_bool (inject_Z percent) pct.

Definition storage_state (cfg : policy) (pct : Q) (s : Recorder * monitor) : status * bool :=
  (if at_least pct (full_percent cfg) || _paused_by_full s.2 then Full
   else if at_least pct (alert_percent cfg) then Alert else StatusOk,
   _paused s.1).

Definition on_recorder {A} (m : M Recorder A) : M (Recorder * monitor) A := λ '(r, o),
  let '(r, res) := m r in ((r, o), res).
Definition set_monitor (o : monitor) : M (Recorder * monitor) unit := modify (λ s, (s.1, o)).

Definition apply_policy (cfg : policy) (E : env) (pct : Q) : M (Recorder * monitor) unit :=
  s ← get;
  let o := s.2 in
  match _pause_pending o || (negb (_paused_by_full o) && at_least pct (full_percent cfg)) with
  | true =>
      _ ← set_monitor (mkMonitor true true);
      _ ← on_recorder (pause E);
      set_monitor (mkMonitor true false)
  | false =>
      match _paused_by_full o && Qle_bool pct (inject_Z (resume_percent cfg)) with
      | true => _ ← on_recorder (resume E); set_monitor (mkMonitor false (_pause_pending o))
      | false => mret tt
      end
  end.

(** [check]; the disk is read before the decision and again for the report. *)
Definition check_storage (cfg : policy) (E : env) (disk disk' : result (Z * Z)) : M (Recorder * monitor) (status * bool) :=
  du ← lift disk;
  _ ← apply_policy cfg E (used_percent du);
  du' ← lift disk';
  s ← get;
  mret (storage_state cfg (used_percent du') s).

(** ** Histories *)

Inductive call :=
| Start (E : env) (cameras : list string)
| Supervise (E E' : env)
| Stop (E : env)
| Suspend (E : env) (camera_id : string)
| ResumeIngress (camera_id : string)
| Check (E : env) (disk disk' : result (Z * Z)).

Definition exec (cfg : policy) (c : call) (s : Recorder * monitor) : Recorder * monitor :=
  match c with
  | Start E cameras => (on_recorder (start E cameras) s).1
  | Supervise E E' => (on_recorder (supervise E E') s).1
  | Stop E => (on_recorder (_terminate_all_locked E) s).1
  | Suspend E c => (on_recorder (suspend E c) s).1
  | ResumeIngress c => (on_recorder (resume_ingress c) s).1
  | Check E disk disk' => (check_storage cfg E disk disk' s).1
  end.
Definition history (cfg : policy) (calls : list call) : Recorder * monitor :=
  foldl (λ s c, exec cfg c s) (recorder, mkMonitor false false) calls.

(** ** Invariants *)

(** The recorder holds a handle of every child, and of nothing else. *)
Record owned (r : Recorder) : Prop := {
  ow_handle : ∀ p c, children r !! p = Some c ↔ _procs r !! c = Some p;
  ow_fresh : ∀ p c, children r !! p = Some c → p < next_process r;
  ow_held : ∀ c, _held r !! c = Some true → _procs r !! c = None
}.

(** ** Lemmas *)

(** What every operation does to a property that does not look at the
    bookkeeping of failures. *)
Section Preserved.
Context (P : Recorder → Prop).
Context (P_spawned : ∀ m r, P r → P (set_spawned m r)) (P_fails : ∀ m r, P r → P (set_fails m r))
  (P_retry : ∀ m r, P r → P (set_retry m r)) (P_cameras : ∀ cs r, P r → P (set_cameras cs r))
  (P_lose : ∀ c r, P r → P (set_procs (delete c (_procs r)) (buried c r)))
  (P_started : ∀ c now r, P r → _paused r = false → _held r !! c = None → _procs r !! c = None →
     (default 0 (_retry_at r !! c) <= now)%Q → ∀ now', P (started c now' r)).

Lemma keep_for_each (f : string → M Recorder unit) cs :
  (∀ c r, P r → wp (f c) (λ _, P) r) → ∀ r, P r → wp (for_each f cs) (λ _, P) r.
Proof.
  intros Hf. induction cs as [|c cs IH]; intros r Hr; cbn [for_each]; [done|].
  wp_step. eapply wp_mono; [by apply Hf|]. intros [|] r' Hr'; [by apply IH|done].
Qed.

Lemma keep_back_off c now r : P r → wp (back_off c now) (λ _, P) r.
Proof. intros Hr. unfold back_off. repeat wp_step. case_match; repeat wp_step; auto. Qed.

Lemma keep_spawn E c r : P r → wp (_spawn_locked E c) (λ _, P) r.
Proof.
  intros Hr. unfold _spawn_locked, _spawn_hub_locked. wp_step. wp_step. wp_step; [done|].
  apply orb_false_elim in Heqb as [Hp Hh]. unfold held_locked in Hh. apply bool_decide_eq_false in Hh.
  repeat wp_step. case_match; [|done]. repeat wp_step; try done.
  - unfold book_exit. repeat wp_step. apply keep_back_off. auto.
  - eapply P_started; try done; [by apply eq_None_not_Some|by apply Qle_bool_iff].
Qed.

Lemma forget_eq c r : _forget c (buried c r) = set_retry (delete c (_retry_at r)) (set_fails (delete c (_fails r))
  (set_spawned (delete c (_spawned_at r)) (set_procs (delete c (_procs r)) (buried c r)))).
Proof. done. Qed.

Lemma keep_forget c r : P r → P (_forget c (buried c r)).
Proof. intros Hr. rewrite forget_eq. auto. Qed.

Lemma forget_idle c r : _procs r !! c = None → P r → P (_forget c r).
Proof.
  intros Hn Hr. assert (buried c r = r) as <- by (unfold buried; rewrite Hn; by destruct r). by apply keep_forget.
Qed.

Lemma keep_retire E c r : P r → wp (_retire_locked E c) (λ _, P) r.
Proof. intros Hr. unfold _retire_locked. repeat wp_step; try done; by apply keep_forget. Qed.

Lemma keep_terminate_each E cs : ∀ r b, P r → P (foldl (λ '(r, failed) c, terminate_one E failed c r) (r, b) cs).1.
Proof.
  induction cs as [|c cs IH]; intros r b Hr; [done|]. cbn [foldl]. unfold terminate_one at 2.
  destruct (retire_process E c); apply IH; [done|by apply keep_forget].
Qed.

Lemma keep_forget_idle cs : ∀ r, (∀ c, c ∈ cs → _procs r !! c = None) → P r →
  P (foldl (λ r c, _forget c r) r cs) ∧ _procs (foldl (λ r c, _forget c r) r cs) = _procs r.
Proof.
  induction cs as [|c cs IH]; intros r Hcs Hr; [done|]. cbn [foldl].
  assert (Hc : _procs r !! c = None) by (apply Hcs; by left).
  assert (Hp : _procs (_forget c r) = _procs r) by (cbn; by rewrite delete_id).
  destruct (IH (_forget c r)) as [H1 H2]; [|by apply forget_idle|by rewrite H2].
  intros c' Hc'. rewrite Hp. apply Hcs. by right.
Qed.

Lemma idle_none r c : c ∈ elements (idle_keys r) → _procs r !! c = None.
Proof. rewrite elem_of_elements. unfold idle_keys. rewrite elem_of_difference, not_elem_of_dom. naive_solver. Qed.

Lemma keep_terminate E r : P r → wp (_terminate_all_locked E) (λ _, P) r.
Proof.
  intros Hr. unfold wp, _terminate_all_locked, terminate_each.
  pose proof (keep_terminate_each E (map_to_list (_procs r)).*1 r false Hr) as H.
  destruct (foldl _ (r, false) _) as [r1 failed]. cbn in *. by apply keep_forget_idle; [apply idle_none|].
Qed.

Lemma keep_start E cs r : P r → wp (start E cs) (λ _, P) r.
Proof.
  intros Hr. unfold start. repeat wp_step. eapply wp_mono; [apply keep_for_each; [|by auto]; intros; by apply keep_retire|].
  intros [|] r' Hr'; [|done]. apply keep_for_each; [|done]. intros. by apply keep_spawn.
Qed.

Lemma keep_watch E c r : P r → wp (watch E c) (λ _, P) r.
Proof. intros Hr. unfold watch. repeat wp_step; try done. apply keep_back_off. auto. Qed.

Lemma keep_supervise E E' r : P r → wp (supervise E E') (λ _, P) r.
Proof.
  intros Hr. unfold supervise, _watchdog_locked. repeat wp_step; try done.
  eapply wp_mono; [apply keep_for_each; [|done]; intros; by apply keep_watch|].
  intros [|] r' Hr'; [|done]. wp_step. wp_step. apply keep_for_each; [|done]. intros. by apply keep_spawn.
Qed.
End Preserved.

(** A termination that succeeds leaves no child. *)
Lemma terminate_each_gone E cs : ∀ r b r' failed,
  foldl (λ '(r, failed) c, terminate_one E failed c r) (r, b) cs = (r', failed) →
  _procs r' ⊆ _procs r ∧ (failed = false → b = false ∧ ∀ c, c ∈ cs → _procs r' !! c = None).
Proof.
  induction cs as [|c cs IH]; intros r b r' failed; cbn [foldl]; [intros [= <- <-]; split; [done|]; set_solver|].
  unfold terminate_one at 2. destruct (retire_process E c) as [e|]; intros H.
  - destruct (IH _ _ _ _ H) as [H1 H2]. split; [done|]. intros Hf. by destruct (H2 Hf).
  - destruct (IH _ _ _ _ H) as [H1 H2]. cbn in H1. split; [etrans; [exact H1|apply delete_subseteq]|].
    intros Hf. destruct (H2 Hf) as [-> H3]. split; [done|]. intros c' [->|Hc']%elem_of_cons; [|by apply H3].
    eapply lookup_weaken_None; [|exact H1]. apply lookup_delete_eq.
Qed.

Lemma terminate_Ok E r r' : _terminate_all_locked E r = (r', Ok tt) → _procs r' = ∅.
Proof.
  unfold _terminate_all_locked, terminate_each. destruct (foldl _ (r, false) _) as [r1 failed] eqn:Ht.
  destruct (terminate_each_gone _ _ _ _ _ _ Ht) as [Hsub Hgone]. destruct failed; [done|]. intros [= <-].
  destruct (keep_forget_idle (λ _, True) ltac:(done) ltac:(done) ltac:(done) ltac:(done) (elements (idle_keys r1)) r1 (idle_none r1) I)
    as [_ ->].
  apply map_empty. intros c. destruct (_procs r !! c) as [p|] eqn:E1; [|by eapply lookup_weaken_None].
  apply Hgone; [done|]. apply list_elem_of_fmap. exists (c, p). by rewrite elem_of_map_to_list.
Qed.

(** *** Ownership *)

Lemma owned_meta r r' :
  _procs r' = _procs r → children r' = children r → next_process r' = next_process r → _held r' = _held r → owned r → owned r'.
Proof. intros E1 E2 E3 E4 [H1 H2 H3]. split; rewrite ?E1, ?E2, ?E3, ?E4; done. Qed.

Lemma owned_lose c r : owned r → owned (set_procs (delete c (_procs r)) (buried c r)).
Proof.
  intros [H1 H2 H3]. split; cbn.
  - intros p c'. destruct (_procs r !! c) as [p0|] eqn:E; rewrite !lookup_delete_Some, H1; [|naive_solver].
    split; [intros [? ?]; split; [|done]; intros <-; congruence|]. intros [? Hp]. split; [|done]. intros <-.
    apply H1 in E, Hp. congruence.
  - intros p c'. destruct (_procs r !! c); rewrite ?lookup_delete_Some; naive_solver.
  - intros c' Hc'. rewrite lookup_delete_None. right. by apply H3.
Qed.

Lemma owned_started c r now : owned r → _held r !! c = None → _procs r !! c = None → owned (started c now r).
Proof.
  intros [H1 H2 H3] Hh Hp. split; cbn.
  - intros p c'. rewrite !lookup_insert_Some, H1. split.
    + intros [[<- <-]|[Hne Hc']]; [by left|right]. split; [|done]. intros <-. congruence.
    + intros [[<- <-]|[Hne Hc']]; [by left|right]. split; [|done]. intros <-. apply H1, H2 in Hc'. lia.
  - intros p c'. rewrite lookup_insert_Some. intros [[<- _]|[_ Hc']]; [lia|]. apply H2 in Hc'. lia.
  - intros c' Hc'. rewrite lookup_insert_ne by (intros <-; congruence). by apply H3.
Qed.

(** No child writes, and none will be started. *)
Definition quiet (r : Recorder) : Prop := _paused r = true ∧ _procs r = ∅.

Lemma quiet_children r : owned r → quiet r → children r = ∅.
Proof.
  intros Ho [_ Hq]. apply map_empty. intros p. destruct (children r !! p) as [c|] eqn:E; [|done].
  apply (ow_handle _ Ho) in E. by rewrite Hq in E.
Qed.

(** A camera that is held, and whose children are among [old]. *)
Definition no_new (c : string) (old : gmap Z string) (r : Recorder) : Prop :=
  is_Some (_held r !! c) ∧ ∀ p, children r !! p = Some c → old !! p = Some c.

(** The premises of the [keep_] lemmas, at each invariant. *)
Ltac owned_auto := intros;
  lazymatch goal with
  | H : owned ?r |- owned (set_procs _ (buried _ ?r)) => by apply owned_lose
  | H : owned ?r |- owned (started _ _ ?r) => by apply owned_started
  | H : owned ?r |- owned (_ ?r) => by apply (owned_meta r)
  end.
Ltac quiet_auto := intros;
  lazymatch goal with
  | H : quiet ?r |- quiet (started _ _ ?r) => by destruct H; congruence
  | H : quiet ?r |- quiet _ => destruct H as [? E]; split; [done|]; cbn; by rewrite ?E, ?delete_empty
  end.

Lemma no_new_lose c old c' r : no_new c old r → no_new c old (set_procs (delete c' (_procs r)) (buried c' r)).
Proof.
  intros [Hh Hc]. split; [done|]. cbn. intros p. destruct (_procs r !! c'); [|by apply Hc].
  intros [_ ?]%lookup_delete_Some. by apply Hc.
Qed.

Lemma no_new_started c old c' now r : no_new c old r → _held r !! c' = None → no_new c old (started c' now r).
Proof.
  intros [Hh Hc] Hn. split; [done|]. cbn. intros p [[_ <-]|[_ ?]]%lookup_insert_Some; [|by apply Hc].
  rewrite Hn in Hh. by destruct Hh.
Qed.

(** The operations that neither pause nor resume nor touch the gate. *)
Definition routine (c : call) : bool := match c with Start _ _ | Supervise _ _ | Stop _ => true | _ => false end.

Lemma on_recorder_eq {A} (m : M Recorder A) r o : (on_recorder m (r, o)).1 = ((m r).1, o).
Proof. unfold on_recorder. by destruct (m r). Qed.

Lemma keep_routine (P : Recorder → Prop) cfg c r o :
  (∀ m r, P r → P (set_spawned m r)) → (∀ m r, P r → P (set_fails m r)) → (∀ m r, P r → P (set_retry m r)) →
  (∀ cs r, P r → P (set_cameras cs r)) → (∀ c r, P r → P (set_procs (delete c (_procs r)) (buried c r))) →
  (∀ c now r, P r → _paused r = false → _held r !! c = None → _procs r !! c = None →
     (default 0 (_retry_at r !! c) <= now)%Q → ∀ now', P (started c now' r)) →
  routine c = true → P r → P (exec cfg c (r, o)).1.
Proof.
  intros H1 H2 H3 H4 H5 H6 Hc Hr. destruct c; try discriminate Hc; cbn [exec]; rewrite on_recorder_eq; cbn [fst].
  - by apply (keep_start P).
  - by apply (keep_supervise P).
  - by apply (keep_terminate P).
Qed.

Lemma owned_terminate E r : owned r → owned (_terminate_all_locked E r).1.
Proof.
  intros Hr. apply (keep_terminate owned); [owned_auto..|done].
Qed.

Lemma owned_retire E c r : owned r → owned (_retire_locked E c r).1.
Proof.
  intros Hr. apply (keep_retire owned); [owned_auto..|done].
Qed.

Ltac no_new_auto := intros;
  lazymatch goal with
  | H : no_new _ _ ?r |- no_new _ _ (set_procs _ (buried _ ?r)) => by apply no_new_lose
  | H : no_new _ _ ?r |- no_new _ _ (started _ _ ?r) => by apply no_new_started
  | H : no_new _ _ ?r |- no_new _ _ _ => by destruct H; split
  end.

Lemma owned_paused b r : owned r → owned (set_paused b r).
Proof. intros Hr. by apply (owned_meta r). Qed.

Lemma pause_cases E r :
  pause E r = (r, Ok tt) ∧ quiet r ∨ pause E r = _terminate_all_locked E (set_paused true r).
Proof.
  unfold pause, get, modify, mret, mbind, M_bind, M_ret. destruct (_paused r && bool_decide (_procs r = ∅)) eqn:Hq; [left|by right].
  split; [done|]. apply andb_prop in Hq as [? ?%bool_decide_eq_true]. done.
Qed.

Lemma owned_pause E r : owned r → owned (pause E r).1.
Proof.
  intros Hr. destruct (pause_cases E r) as [[-> _]| ->]; [done|]. by apply owned_terminate, owned_paused.
Qed.

Lemma paused_terminate E r : _paused r = true → _paused (_terminate_all_locked E r).1 = true.
Proof. intros Hr. by apply (keep_terminate (λ r, _paused r = true)). Qed.

Lemma pause_Ok E r r' : pause E r = (r', Ok tt) → quiet r'.
Proof.
  intros H. destruct (pause_cases E r) as [[E1 Hq]|E1]; rewrite H in E1; [by injection E1 as <-|].
  split; [|by eapply terminate_Ok]. pose proof (paused_terminate E (set_paused true r) eq_refl) as Hp. by rewrite <- E1 in Hp.
Qed.

Lemma recorder_resume_cases E r :
  (∃ r1, (r1 = r ∧ (_paused r = true → _procs r = ∅) ∨ _paused r = true ∧ _terminate_all_locked E r = (r1, Ok tt)) ∧
     resume E r = (set_paused false r1, Ok tt)) ∨
  (_paused r = true ∧ _procs r ≠ ∅ ∧ ∃ r1 e, _terminate_all_locked E r = (r1, Raise e) ∧ resume E r = (r1, Raise e)).
Proof.
  unfold resume, get, modify, mret, mbind, M_bind, M_ret. destruct (_paused r) eqn:Hp; cbn [andb]; [|left; exists r; split; [by left|done]].
  case_bool_decide as Hq; cbn [negb]; [left; exists r; split; [by left|done]|].
  destruct (_terminate_all_locked E r) as [r1 [[]|e]] eqn:Ht; [left; exists r1; split; [by right|done]|].
  right. split_and!; [done..|]. by exists r1, e.
Qed.

Lemma owned_resume E r : owned r → owned (resume E r).1.
Proof.
  intros Hr. pose proof (owned_terminate E r Hr) as Ht.
  destruct (recorder_resume_cases E r) as [(r1 & [[-> _]|[_ H]] & ->)|(_ & _ & r1 & e & H & ->)]; cbn.
  - by apply owned_paused.
  - rewrite H in Ht. by apply owned_paused.
  - by rewrite H in Ht.
Qed.

(** *** The gate *)

Lemma retire_cases E c r :
  (∃ e, _procs r !! c ≠ None ∧ retire_process E c = Some e ∧ _retire_locked E c r = (r, Raise e)) ∨
  _retire_locked E c r = (_forget c (buried c r), Ok tt).
Proof.
  unfold _retire_locked, get, modify, raise, mbind, M_bind. destruct (_procs r !! c) eqn:Hp; [|by right].
  destruct (retire_process E c) as [e|]; [left; by exists e|by right].
Qed.

Lemma suspend_cases E c r :
  (∃ e, suspend E c r = (r, Raise e)) ∨
  (valid_camera_id c = true ∧ let r1 := set_held (<[c := false]> (_held r)) r in
    (∃ e, _procs r !! c ≠ None ∧ suspend E c r = (r1, Raise e)) ∨
    suspend E c r = (set_held (<[c := true]> (_held r)) (_forget c (buried c r)), Ok tt)).
Proof.
  unfold suspend, _validate, get, check, modify, raise_if, mbind, M_bind. destruct (valid_camera_id c); cbn [negb]; [|left; eauto].
  destruct (negb (held_locked c r) && (MAX_HOLDS <=? Z.of_nat (size (_held r)))); [left; eauto|right]. split; [done|].
  cbn zeta. destruct (retire_cases E c (set_held (<[c := false]> (_held r)) r)) as [(e & Hp & _ & ->)| ->]; [left; by exists e|right].
  cbn. by rewrite insert_insert_eq.
Qed.

Lemma owned_suspend E c r : owned r → owned (suspend E c r).1.
Proof.
  intros Hr. destruct (suspend_cases E c r) as [[e ->]|(_ & [(e & _ & ->)| ->])]; [done| |]; cbn [fst].
  - destruct Hr as [H1 H2 H3]. split; cbn; try done. intros c' [[_ ?]|[_ Hc]]%lookup_insert_Some; [done|by apply H3].
  - pose proof (keep_forget owned ltac:(owned_auto) ltac:(owned_auto) ltac:(owned_auto) ltac:(owned_auto) c r Hr) as [H1 H2 H3].
    split; try done. cbn. intros c' [[<- _]|[_ Hc]]%lookup_insert_Some; [by rewrite lookup_delete_eq|]. by apply (H3 c').
Qed.

Lemma resume_ingress_cases c r :
  (resume_ingress c r).1 = r ∨
  _held r !! c = Some true ∧ _procs r !! c = None ∧ resume_ingress c r = (set_held (delete c (_held r)) r, Ok tt).
Proof.
  unfold resume_ingress, _validate, get, check, modify, raise_if, mret, mbind, M_bind, M_ret.
  destruct (valid_camera_id c); cbn [negb]; [|by left]. destruct (_held r !! c) as [[]|] eqn:Hh; cbn [negb orb]; [|by left..].
  case_bool_decide as Hp; [by left|right]. split_and!; [done| |done]. by apply eq_None_not_Some.
Qed.

Lemma owned_resume_ingress c r : owned r → owned (resume_ingress c r).1.
Proof.
  intros Hr. destruct (resume_ingress_cases c r) as [->|(_ & _ & ->)]; [done|]. destruct Hr as [H1 H2 H3]. split; cbn; try done.
  intros c' [_ ?]%lookup_delete_Some. by apply H3.
Qed.

(** *** The disk policy *)

Definition acts (cfg : policy) (pct : Q) (o : monitor) : bool :=
  _pause_pending o || (negb (_paused_by_full o) && at_least pct (full_percent cfg)).
Definition recovers (cfg : policy) (pct : Q) (o : monitor) : bool :=
  _paused_by_full o && Qle_bool pct (inject_Z (resume_percent cfg)).

Lemma policy_eq cfg E pct r o :
  apply_policy cfg E pct (r, o) =
  if acts cfg pct o then
    match pause E r with
    | (r', Ok _) => ((r', mkMonitor true false), Ok tt)
    | (r', Raise e) => ((r', mkMonitor true true), Raise e)
    end
  else if recovers cfg pct o then
    match resume E r with
    | (r', Ok _) => ((r', mkMonitor false (_pause_pending o)), Ok tt)
    | (r', Raise e) => ((r', o), Raise e)
    end
  else ((r, o), Ok tt).
Proof.
  unfold apply_policy, acts, recovers, set_monitor, on_recorder, get, modify, mret, mbind, M_bind, M_ret. cbn.
  destruct (_pause_pending o || _); [cbn; by destruct (pause E r) as [r' [[]|e]]|].
  destruct (_paused_by_full o && _); [cbn; by destruct (resume E r) as [r' [[]|e]]|done].
Qed.

(** The report changes nothing and fails only with the second reading. *)
Lemma check_eq cfg E disk disk' s :
  check_storage cfg E disk disk' s =
  match disk with
  | Raise e => (s, Raise e)
  | Ok du =>
      let '(s', res) := apply_policy cfg E (used_percent du) s in
      (s', _ ← res; du' ← disk'; Ok (storage_state cfg (used_percent du') s'))
  end.
Proof.
  unfold check_storage, get, lift, mret, mbind, M_bind, M_ret. destruct disk as [du|e]; [|done].
  by destruct (apply_policy _ _ _ _) as [s' [[]|e]]; [destruct disk'|].
Qed.

Lemma check_state cfg E disk disk' s :
  (check_storage cfg E disk disk' s).1 = match disk with Ok du => (apply_policy cfg E (used_percent du) s).1 | Raise _ => s end.
Proof. rewrite check_eq. destruct disk; [|done]. by destruct (apply_policy _ _ _ _). Qed.

Lemma check_recorder (P : Recorder → Prop) cfg E disk disk' r o :
  P r → P (pause E r).1 → P (resume E r).1 → P (check_storage cfg E disk disk' (r, o)).1.1.
Proof.
  intros H1 H2 H3. rewrite check_state. destruct disk; [|done].
  rewrite policy_eq. destruct (acts _ _ _); [by destruct (pause E r) as [r' [[]|e]]|].
  destruct (recovers _ _ _); [by destruct (resume E r) as [r' [[]|e]]|done].
Qed.

(** What the monitor's flags say of the recorder. *)
Definition monitor_ok (s : Recorder * monitor) : Prop :=
  if _paused_by_full s.2 then _pause_pending s.2 = false → quiet s.1
  else _pause_pending s.2 = false ∧ _paused s.1 = false.

Lemma exec_owned cfg c s : owned s.1 → owned (exec cfg c s).1.
Proof.
  destruct s as [r o]. cbn. intros Hr. destruct (routine c) eqn:Hc; [by apply keep_routine; [owned_auto..| |]|].
  destruct c as [| | |E c|c|E disk disk']; try discriminate Hc; cbn [exec]; rewrite ?on_recorder_eq; cbn [fst].
  - by apply owned_suspend.
  - by apply owned_resume_ingress.
  - apply check_recorder; [done|by apply owned_pause|by apply owned_resume].
Qed.

Definition checks (c : call) : bool := match c with Check _ _ _ => true | _ => false end.

Lemma exec_quiet cfg c s : checks c = false → quiet s.1 → quiet (exec cfg c s).1.
Proof.
  destruct s as [r o]. cbn. intros Hk Hr. destruct (routine c) eqn:Hc; [by apply keep_routine; [quiet_auto..| |]|].
  destruct c as [| | |E c|c|E disk disk']; try discriminate; cbn [exec]; rewrite ?on_recorder_eq; cbn [fst].
  - destruct (suspend_cases E c r) as [[e ->]|(_ & [(e & _ & ->)| ->])]; [done..|]. destruct Hr as [? Hq]. split; [done|].
    cbn. by rewrite Hq, delete_empty.
  - by destruct (resume_ingress_cases c r) as [->|(_ & _ & ->)].
Qed.

Lemma exec_no_new cfg c s k old :
  c ≠ ResumeIngress k → no_new k old s.1 → no_new k old (exec cfg c s).1.
Proof.
  destruct s as [r o]. cbn. intros Hk Hr. destruct (routine c) eqn:Hc; [by apply keep_routine; [no_new_auto..| |]|].
  assert (Hterm : ∀ E r, no_new k old r → no_new k old (_terminate_all_locked E r).1).
  { intros E r' Hr'. by apply (keep_terminate (no_new k old)); [no_new_auto..|]. }
  destruct c as [| | |E c|c|E disk disk']; try discriminate; cbn [exec]; rewrite ?on_recorder_eq; cbn [fst].
  - assert (Hset : ∀ b r', no_new k old r' → no_new k old (set_held (<[c := b]> (_held r')) r')).
    { intros b r' [Hh Hc']. split; [|done]. cbn. destruct (decide (c = k)) as [->|]; [by rewrite lookup_insert_eq|by rewrite lookup_insert_ne]. }
    destruct (suspend_cases E c r) as [[e ->]|(_ & [(e & _ & ->)| ->])]; [done|by apply Hset|].
    apply (Hset true (_forget c (buried c r))). by apply (keep_forget (no_new k old)); [no_new_auto..|].
  - destruct (resume_ingress_cases c r) as [->|(_ & _ & ->)]; [done|]. destruct Hr as [Hh Hc']. split; [|done].
    cbn. rewrite lookup_delete_ne; [done|]. by intros ->.
  - apply check_recorder; [done| |].
    + destruct (pause_cases E r) as [[-> _]| ->]; [done|]. apply Hterm. by destruct Hr; split.
    + pose proof (Hterm E r Hr) as Ht.
      destruct (recorder_resume_cases E r) as [(r1 & [[-> _]|[_ H]] & ->)|(_ & _ & r1 & e & H & ->)]; cbn;
        [by destruct Hr; split|rewrite H in Ht; by destruct Ht; split|by rewrite H in Ht].
Qed.

Lemma history_owned cfg calls : owned (history cfg calls).1.
Proof.
  unfold history. assert (owned (recorder, mkMonitor false false).1) as H by (by split).
  revert H. generalize (recorder, mkMonitor false false).
  induction calls as [|c calls IH]; intros s Hs; [done|]. by apply IH, exec_owned.
Qed.

Lemma exec_monitor cfg c s : monitor_ok s → monitor_ok (exec cfg c s).
Proof.
  destruct s as [r o]. intros Hok. destruct (checks c) eqn:Hk.
  - destruct c as [| | | | |E disk disk']; try discriminate. cbn [exec]. rewrite check_state. destruct disk as [du|]; [|done].
    rewrite policy_eq. unfold acts, recovers. unfold monitor_ok in *. cbn in *.
    destruct (_pause_pending o || _) eqn:Ha.
    + destruct (pause E r) as [r' [[]|e]] eqn:Hp; cbn; [|done]. intros _. by eapply pause_Ok.
    + apply orb_false_elim in Ha as [Hpend _]. destruct (_paused_by_full o) eqn:Hf; cbn; [|by rewrite Hf].
      destruct (Qle_bool _ _); cbn; [|by rewrite Hf].
      destruct (recorder_resume_cases E r) as [(r1 & _ & ->)|(_ & Hne & _)]; [done|]. by destruct (Hok Hpend).
  - assert (Ho : (exec cfg c (r, o)).2 = o).
    { destruct c; try discriminate; cbn [exec]; by rewrite on_recorder_eq. }
    unfold monitor_ok in *. rewrite Ho. cbn in *. destruct (_paused_by_full o).
    + intros Hp. by apply exec_quiet; [|apply Hok].
    + split; [apply Hok|]. destruct Hok as [_ Hok]. destruct (routine c) eqn:Hc.
      * apply (keep_routine (λ r, _paused r = false)); try done.
      * destruct c as [| | |E c|c|]; try discriminate; cbn [exec]; rewrite ?on_recorder_eq; cbn [fst].
        -- by destruct (suspend_cases E c r) as [[e ->]|(_ & [(e & _ & ->)| ->])].
        -- by destruct (resume_ingress_cases c r) as [->|(_ & _ & ->)].
Qed.

Lemma history_monitor cfg calls : monitor_ok (history cfg calls).
Proof.
  unfold history. assert (monitor_ok (recorder, mkMonitor false false)) as H by done.
  revert H. generalize (recorder, mkMonitor false false).
  induction calls as [|c calls IH]; intros s Hs; [done|]. by apply IH, exec_monitor.
Qed.

(** *** Respawning *)

Lemma spawn_guards E c r :
  next_process (_spawn_locked E c r).1 ≠ next_process r →
  _paused r = false ∧ _held r !! c = None ∧ _procs r !! c = None ∧ permits E c = Ok true ∧
  (default 0 (_retry_at r !! c) <= clock E c 0)%Q.
Proof.
  unfold _spawn_locked, _spawn_hub_locked, book_exit, back_off, held_locked, get, modify, lift, raise, mret, mbind, M_bind, M_ret.
  destruct (_paused r) eqn:Hp; [done|]. case_bool_decide as Hh; [done|]. cbn [orb].
  destruct (permits E c) as [[]|]; try done. destruct (_procs r !! c) eqn:Hc.
  - destruct (exited E c); [|done]. cbn. by destruct (_retry_delay c _).
  - destruct (Qle_bool _ _) eqn:Hq; [|done]. destruct (popen E c); [done|]. intros _.
    split_and!; [done|by apply eq_None_not_Some|done..|by apply Qle_bool_iff].
Qed.

Lemma retry_delay_spec c r :
  let fails := default 0 (_fails r !! c) in
  (fails <= 0 → _retry_delay c r = Ok 0%Q) ∧
  (0 < fails <= 1024 → ∃ d, _retry_delay c r = Ok d ∧ (0 < d)%Q ∧ (d <= _BACKOFF_MAX)%Q ∧ (6 ≤ fails → d == _BACKOFF_MAX)) ∧
  (1024 < fails → _retry_delay c r = Raise OverflowError).
Proof.
  intros fails. unfold _retry_delay. fold fails. split_and!; intros Hf.
  - by rewrite (proj2 (Z.leb_le fails 0)).
  - rewrite (proj2 (Z.leb_gt fails 0)), (proj2 (Z.leb_gt 1024 (fails - 1))) by lia. cbn. eexists. split; [done|].
    assert (1 ≤ 2 ^ (fails - 1)) as Hpow by (pose proof (Z.pow_pos_nonneg 2 (fails - 1)); lia).
    assert (1 <= inject_Z (2 ^ (fails - 1)))%Q as HpowQ by (change 1%Q with (inject_Z 1); by rewrite <- Zle_Qle).
    unfold _BACKOFF_BASE, _BACKOFF_MAX. split_and!.
    + apply Q.min_glb_lt; lra.
    + apply Q.le_min_r.
    + intros H6. apply Q.min_r. assert (2 ^ 5 ≤ 2 ^ (fails - 1)) as H32 by (apply Z.pow_le_mono_r; lia).
      assert (32 <= inject_Z (2 ^ (fails - 1)))%Q by (change 32%Q with (inject_Z (2 ^ 5)); by rewrite <- Zle_Qle). lra.
  - rewrite (proj2 (Z.leb_gt fails 0)), (proj2 (Z.leb_le 1024 (fails - 1))) by lia. done.
Qed.

(** C9 [Recorder]: in every history of starts, supervision passes, disk checks,
    suspensions and stops, whatever the system answers, the recorder holds a
    handle of exactly the children it has not seen exit, so a camera never has
    two. A camera whose suspension succeeded has none, and a held camera gets
    none until its hold is lifted, which needs a confirmed retirement. A pause
    that succeeds leaves no child, and nothing but the disk policy starts one
    afterwards; a resume that fails leaves the recorder paused. A child is
    started only when the recorder is neither paused nor holding the camera, has
    no handle for it, the policy permits it and the backoff is over. The backoff
    is capped, but from the 1025th short run in a row its computation raises. *)
Theorem recorder_owns_children cfg calls :
  let s := history cfg calls in
  let r := s.1 in
  owned r ∧
  (∀ c p p', children r !! p = Some c → children r !! p' = Some c → p = p') ∧
  (∀ c, _held r !! c = Some true → ∀ p, children r !! p ≠ Some c) ∧
  (∀ call, checks call = false → quiet r → quiet (exec cfg call s).1) ∧
  (∀ call c, call ≠ ResumeIngress c → is_Some (_held r !! c) →
     is_Some (_held (exec cfg call s).1 !! c) ∧
     ∀ p, children (exec cfg call s).1 !! p = Some c → children r !! p = Some c) ∧
  (∀ E r', pause E r = (r', Ok tt) → _paused r' = true ∧ children r' = ∅) ∧
  (∀ E, match resume E r with
        | (r', Ok _) => _paused r' = false
        | (r', Raise _) => _paused r = true ∧ _paused r' = true
        end) ∧
  (∀ E c r', suspend E c r = (r', Ok tt) → _held r' !! c = Some true ∧ ∀ p, children r' !! p ≠ Some c) ∧
  (∀ c, is_Some (_held r !! c) → _held (resume_ingress c r).1 !! c = None → (is_retired c r).2 = Ok true) ∧
  (∀ E c, next_process (_spawn_locked E c r).1 ≠ next_process r →
     _paused r = false ∧ _held r !! c = None ∧ _procs r !! c = None ∧ permits E c = Ok true ∧
     (default 0 (_retry_at r !! c) <= clock E c 0)%Q) ∧
  (∀ c, let fails := default 0 (_fails r !! c) in
     (0 < fails <= 1024 → ∃ d, _retry_delay c r = Ok d ∧ (0 < d)%Q ∧ (d <= _BACKOFF_MAX)%Q) ∧
     (1024 < fails → _retry_delay c r = Raise OverflowError)).
Proof.
  intros s r. pose proof (history_owned cfg calls) as Ho. fold s r in Ho. split_and!; try done.
  - intros c p p' Hp Hp'. apply (ow_handle _ Ho) in Hp, Hp'. congruence.
  - intros c Hc p Hp. apply (ow_handle _ Ho) in Hp. by rewrite (ow_held _ Ho) in Hp.
  - intros call. apply exec_quiet.
  - intros call c Hne Hh. apply (exec_no_new cfg call s c (children r) Hne). by split.
  - intros E r' Hp. pose proof (pause_Ok _ _ _ Hp) as Hq. pose proof (owned_pause E r Ho) as Ho'. rewrite Hp in Ho'.
    split; [apply Hq|by apply quiet_children].
  - intros E. destruct (recorder_resume_cases E r) as [(r1 & _ & ->)|(Hp & _ & r1 & e & Ht & ->)]; [done|]. split; [done|].
    pose proof (paused_terminate E r Hp) as H. by rewrite Ht in H.
  - intros E c r' Hs. pose proof (owned_suspend E c r Ho) as Ho'. rewrite Hs in Ho'. cbn in Ho'.
    destruct (suspend_cases E c r) as [[e H]|(_ & [(e & _ & H)|H])]; rewrite Hs in H; [done..|].
    assert (Hc : _held r' !! c = Some true) by (injection H as ->; apply lookup_insert_eq). split; [done|].
    intros p Hp. apply (ow_handle _ Ho') in Hp. by rewrite (ow_held _ Ho') in Hp.
  - intros c [b Hb] Hn. destruct (resume_ingress_cases c r) as [H|(Hh & Hp & _)]; [congruence|].
    unfold resume_ingress, is_retired, _validate, get, check, raise_if, mret, mbind, M_bind, M_ret in *.
    destruct (valid_camera_id c); cbn in *; [|congruence]. rewrite Hh, Hp. by rewrite bool_decide_eq_true_2.
  - intros E c. apply spawn_guards.
  - intros c fails. destruct (retry_delay_spec c r) as (_ & H1 & H2). split; [|done].
    intros Hf. destruct (H1 Hf) as (d & ? & ? & ? & _). by exists d.
Qed.

(** C20 [StorageMonitor]: in every history the monitor's flag says what the
    recorder does: while it is raised and no pause is outstanding nothing is
    recorded, while it is down the recorder is not paused. A check of a disk at
    or above the full mark, and one after a pause that failed whatever the disk
    shows, leaves no child writing and reports it, or raises and is repeated at
    the next check. Recording comes back only at or below the resume mark and
    never fails to come back there; between the marks a check changes nothing.
    A disk that cannot be read changes nothing. *)
Theorem storage_hysteresis cfg calls E disk disk' :
  resume_percent cfg < full_percent cfg →
  let s := history cfg calls in
  let s' := (check_storage cfg E disk disk' s).1 in
  let res := (check_storage cfg E disk disk' s).2 in
  monitor_ok s ∧
  match disk with
  | Raise e => s' = s ∧ res = Raise e
  | Ok du =>
      let pct := used_percent du in
      (at_least pct (full_percent cfg) = true ∨ _pause_pending s.2 = true →
         quiet s'.1 ∧ children s'.1 = ∅ ∧ (∀ shown, res = Ok shown → shown = (Full, true)) ∨
         s'.2 = mkMonitor true true ∧ ∃ e, res = Raise e) ∧
      (_paused_by_full s.2 = true → _paused_by_full s'.2 = false →
         (pct <= inject_Z (resume_percent cfg))%Q ∧ _paused s'.1 = false ∧ _pause_pending s.2 = false) ∧
      (_paused_by_full s.2 = true → _pause_pending s.2 = false → (pct <= inject_Z (resume_percent cfg))%Q →
         _paused s'.1 = false) ∧
      (_pause_pending s.2 = false → (inject_Z (resume_percent cfg) < pct)%Q → (pct < inject_Z (full_percent cfg))%Q → s' = s)
  end.
Proof.
  intros Hcfg s s' res. pose proof (history_monitor cfg calls) as Hm. pose proof (history_owned cfg calls) as Ho. fold s in Hm, Ho.
  assert (inject_Z (resume_percent cfg) < inject_Z (full_percent cfg))%Q as HcfgQ by (by rewrite <- Zlt_Qlt).
  split; [done|]. subst s' res. rewrite check_eq. destruct disk as [du|e]; [|done].
  generalize (used_percent du). intros pct. clearbody s. destruct s as [r o]. cbn in Ho.
  rewrite policy_eq. unfold acts, recovers, monitor_ok in *. cbn [fst snd] in *. cbn zeta.
  destruct (_pause_pending o || _) eqn:Ha.
  - pose proof (owned_pause E r Ho) as Ho'. destruct (pause E r) as [r' [[]|e]] eqn:Hp; cbn [fst snd].
    + pose proof (pause_Ok _ _ _ Hp) as Hq. split_and!; try done.
      * intros _. left. split_and!; [done|by apply quiet_children|]. intros shown. cbn. destruct disk' as [du'|]; [|done].
        cbn. intros [= <-]. unfold storage_state. cbn. rewrite orb_true_r. by rewrite (proj1 Hq).
      * intros _ Hpend. rewrite Hpend in Ha. cbn in Ha. apply andb_prop in Ha as [_ Ha%Qle_bool_iff]. lra.
      * intros Hpend Hlo Hhi. rewrite Hpend in Ha. cbn in Ha. apply andb_prop in Ha as [_ Ha%Qle_bool_iff]. lra.
    + split_and!; try done.
      * intros _. right. split; [done|by eexists].
      * intros Hf Hpend. rewrite Hpend, Hf in Ha. done.
      * intros Hpend Hlo Hhi. rewrite Hpend in Ha. cbn in Ha. apply andb_prop in Ha as [_ Ha%Qle_bool_iff]. lra.
  - apply orb_false_elim in Ha as [Hpend Ha]. rewrite Hpend in *. destruct (_paused_by_full o) eqn:Hf; cbn in Ha |- *.
    + specialize (Hm eq_refl). destruct (Qle_bool pct (inject_Z (resume_percent cfg))) eqn:Hr.
      * apply Qle_bool_iff in Hr. destruct (recorder_resume_cases E r) as [(r1 & _ & ->)|(_ & Hne & _)]; [|by destruct Hm].
        cbn. split_and!; try done; [intros [H%Qle_bool_iff|]; [lra|done]|intros; lra].
      * cbn. rewrite Hf. split_and!; try done.
        -- intros _. left. split_and!; [done|by apply quiet_children|]. intros shown. cbn. destruct disk' as [du'|]; [|done].
           cbn. intros [= <-]. unfold storage_state. cbn. rewrite Hf, orb_true_r. by rewrite (proj1 Hm).
        -- intros _ _ H. apply Qle_bool_iff in H. congruence.
    + unfold at_least in *. cbn. rewrite Ha, Hf. split_and!; try done. by intros [|].
Qed.

(** A camera is recorded; at 99% the disk policy pauses, at 96% nothing changes,
    at 90% it resumes and a pass starts the camera again. *)
Definition sample_camera : string := "cam_0123456789abcdef01234567".
Definition sample_env : env :=
  mkEnv (λ _, false) (λ _, None) (λ _, None) (λ _, None) (λ _, Ok true) (λ _, None) (λ _ _, 100%Q).
Definition sample_policy : policy := mkPolicy 80 98 95.

Lemma recorder_owns_children_witness :
  let s := history sample_policy [Start sample_env [sample_camera]; Suspend sample_env sample_camera; Supervise sample_env sample_env;
             ResumeIngress sample_camera; Supervise sample_env sample_env] in
  owned s.1 ∧ children s.1 = {[1 := sample_camera]}.
Proof. intros s. split; [apply (recorder_owns_children sample_policy)|by vm_compute]. Defined.

Lemma storage_hysteresis_witness :
  let calls := [Start sample_env [sample_camera]; Check sample_env (Ok (100, 99)) (Ok (100, 99)); Supervise sample_env sample_env] in
  let s := history sample_policy calls in
  monitor_ok s ∧ (check_storage sample_policy sample_env (Ok (100, 96)) (Ok (100, 96)) s).2 = Ok (Full, true) ∧
  (check_storage sample_policy sample_env (Ok (100, 90)) (Ok (100, 90)) s).2 = Ok (Alert, false).
Proof.
  intros calls s. destruct (storage_hysteresis sample_policy calls sample_env (Ok (100, 96)) (Ok (100, 96)) ltac:(done)) as [H _].
  split; [exact H|]. clear H. split; by vm_compute.
Defined.
End Recorder.
