(* ===== verification/Motion.v ===== *)
(** * The bounded PTZ gesture and its owners

    Models [src/backend/app/drivers/yoosee/p2p/ptz_motion.py]: [PtzMotion.run],
    which drives a prepared route through START, a wait and up to three RELEASEs,
    and [PtzOwners], the reservations acquired before a route is prepared.

    The route is not under this file: what each call of it does is an [answer]
    chosen by the number of the call, either a value or the name of the exception
    it raised.  The clock is a function of the number of the reading.  The stop
    flag is set by other threads and never cleared: its two readings are the
    arguments [cancelled] and [stopped].  [except Exception] does not cover
    interpreter exits, which are left out. *)

From Stdlib Require Import ZArith QArith Qminmax Lia Lqa.
From stdpp Require Import fin_sets.
From S2P Require Import Prelude.
#[local] Open Scope Z_scope.

Module Motion.

(** ** [PtzMotion] *)

Inductive route_call := SendStart | Wait (timeout : Q) | SendRelease | ConfirmRelease (deadline : Q) | CloseRoute.

Definition PtzBusy (m : string) : exn := RuntimeError m.

Record MotionResult := mkMotionResult {
  start_attempted : bool; r_cancelled : bool; release_attempts : Z; release_delivery_confirmed : bool; error_types : list string
}.

Definition fallback_allowed (r : MotionResult) : bool := negb (start_attempted r) && negb (r_cancelled r).

(** [PtzMotion.__init__]; [None] for a duration that is not finite. *)
Definition ptz_motion (duration : option Q) : result Q :=
  match duration with
  | Some d =>
      _ ← raise_if (negb (Qle_bool (1 # 10) d && Qle_bool d (1 # 2))) (ValueError "native PTZ gesture must be 0.10..0.50 seconds");
      Ok d
  | None => Raise (ValueError "native PTZ gesture must be 0.10..0.50 seconds")
  end.

(** The readings and calls made so far, and the variables of [run]. *)
Record trace := mkTrace { readings : nat; log : list route_call; attempts : Z; is_confirmed : bool; errors : list string }.

Section Run.
Context (clock : nat → Q) (answer : nat → string + bool).

Definition now (t : trace) : trace * Q :=
  (mkTrace (S (readings t)) (log t) (attempts t) (is_confirmed t) (errors t), clock (readings t)).

(** A call of the route, with its answer. *)
Definition ask (c : route_call) (t : trace) : trace * (string + bool) :=
  (mkTrace (readings t) (log t ++ [c]) (attempts t) (is_confirmed t) (errors t), answer (length (log t))).

Definition note (e : string) (t : trace) : trace := mkTrace (readings t) (log t) (attempts t) (is_confirmed t) (errors t ++ [e]).
Definition attempted (t : trace) : trace := mkTrace (readings t) (log t) (attempts t + 1) (is_confirmed t) (errors t).
Definition confirm (b : bool) (t : trace) : trace := mkTrace (readings t) (log t) (attempts t) b (errors t).

(** [route.send_start(); self._stop.wait(max(0.0, expires - self._clock()))] *)
Definition start_and_wait (expires : Q) (t : trace) : trace :=
  match ask SendStart t with
  | (t, inl e) => note e t
  | (t, inr _) =>
      let '(t, at_wait) := now t in
      (ask (Wait (Qmax 0 (expires - at_wait))) t).1
  end.

(** [route.send_release(); confirmed = route.confirm_release(...) is True] *)
Definition release_once (deadline : Q) (t : trace) : trace :=
  match ask SendRelease t with
  | (t, inl e) => note e t
  | (t, inr _) =>
      let '(t, at_confirm) := now t in
      match ask (ConfirmRelease (Qmin deadline (at_confirm + 1 / 2))) t with
      | (t, inl e) => note e t
      | (t, inr b) => confirm b t
      end
  end.

Fixpoint release_loop (tries : nat) (deadline : Q) (t : trace) : trace :=
  match tries with
  | O => t
  | S tries =>
      let t := release_once deadline (attempted t) in
      if is_confirmed t then t else
      let '(t, after) := now t in
      if Qle_bool deadline after then t else release_loop tries deadline t
  end.

Definition gesture (duration : Q) (t : trace) : trace :=
  let '(t, begun) := now t in
  let t := start_and_wait (begun + duration) t in
  let '(t, moved) := now t in
  release_loop 3 (moved + 2) t.

(** [PtzMotion.run]; [used] is the flag the lock guards. *)
Definition run (duration : Q) (used cancelled stopped : bool) : bool * list route_call * result MotionResult :=
  if used then (true, [], Raise (PtzBusy "gesture has already been claimed")) else
  let t := mkTrace 0 [] 0 false [] in
  let t := if cancelled then t else gesture duration t in
  let t := match ask CloseRoute t with (t, inl e) => note e t | (t, inr _) => t end in
  (true, log t, Ok (mkMotionResult (negb cancelled) (cancelled || stopped) (attempts t) (is_confirmed t) (errors t))).
End Run.

(** ** [PtzOwners] *)

Record PtzOwners := mkOwners { _limit : Z; _active : gset string }.

Definition ptz_owners (limit : Z) : result PtzOwners :=
  _ ← raise_if (negb ((1 <=? limit) && (limit <=? 8))) (ValueError "PTZ owner limit must be 1..8");
  Ok (mkOwners limit ∅).

(** [reserve] up to its [yield], and after it. *)
Definition reserve (camera_id : string) : M PtzOwners unit :=
  _ ← check (camera_id =? "")%string (ValueError "camera identity is required");
  o ← get;
  _ ← check (bool_decide (camera_id ∈ _active o) || (_limit o <=? Z.of_nat (size (_active o))))
        (PtzBusy "native PTZ camera/session capacity is busy");
  modify (λ o, mkOwners (_limit o) ({[camera_id]} ∪ _active o)).
Definition unreserve (camera_id : string) : M PtzOwners unit :=
  o ← get;
  _ ← check (negb (bool_decide (camera_id ∈ _active o))) KeyError;
  modify (λ o, mkOwners (_limit o) (_active o ∖ {[camera_id]})).

(** The owners and the callers inside the [with], in the order they entered. *)
Inductive owners_step : PtzOwners * list string → PtzOwners * list string → Prop :=
| enter_with o inside c o' : reserve c o = (o', Ok tt) → owners_step (o, inside) (o', inside ++ [c])
| leave_with o before c after : owners_step (o, before ++ c :: after) ((unreserve c o).1, before ++ after).

(** ** Lemmas *)

Definition is_release (c : route_call) : bool := match c with SendRelease => true | _ => false end.
Definition releases (rs : list route_call) : Z := Z.of_nat (length (List.filter is_release rs)).

(** What the release loop may ask of the route. *)
Definition release_call (deadline : Q) (c : route_call) : Prop :=
  match c with SendRelease => True | ConfirmRelease d => (d <= deadline)%Q | _ => False end.

Lemma releases_app a b : releases (a ++ b) = releases a + releases b.
Proof. unfold releases. rewrite List.filter_app, length_app. lia. Qed.

Section RunLemmas.
Context (clock : nat → Q) (answer : nat → string + bool).

(** The part of the log a release attempt adds. *)
Record attempt_ok (deadline : Q) (t t' : trace) : Prop := {
  at_log : ∃ more, log t' = log t ++ SendRelease :: more ∧ Forall (release_call deadline) more ∧ releases more = 0;
  at_attempts : attempts t' = attempts t;
  at_confirmed : is_confirmed t' = true → is_confirmed t = true ∨
    (∃ d, last (log t') = Some (ConfirmRelease d)) ∧ answer (length (log t') - 1) = inr true
}.

Lemma release_once_ok deadline t : attempt_ok deadline t (release_once clock answer deadline t).
Proof.
  unfold release_once, ask, now. cbn.
  destruct (answer (length (log t))) as [e|b]; cbn; [split; cbn; [exists []; by split_and!|done|by left]|].
  destruct (answer (length (log t ++ [SendRelease]))) as [e|b'] eqn:Ha; cbn.
  - split; cbn; [|done|by left]. eexists [_]. rewrite <- app_assoc. split_and!; try done.
    constructor; [|done]. apply Q.le_min_l.
  - split; cbn; [|done|]; [eexists [_]; rewrite <- app_assoc; split_and!; try done; constructor; [|done]; apply Q.le_min_l|].
    intros ->. right. split; [eexists; apply last_snoc|]. rewrite length_app, Nat.add_sub. exact Ha.
Qed.

Record releases_ok (deadline : Q) (tries : nat) (t t' : trace) : Prop := {
  rl_log : ∃ rs, log t' = log t ++ rs ∧ Forall (release_call deadline) rs ∧ attempts t' = attempts t + releases rs ∧
    (tries ≠ 0%nat → head rs = Some SendRelease);
  rl_attempts : attempts t' - attempts t ≤ Z.of_nat tries;
  rl_confirmed : is_confirmed t' = true → (∃ d, last (log t') = Some (ConfirmRelease d)) ∧ answer (length (log t') - 1) = inr true;
  rl_gave_up : is_confirmed t' = false → attempts t' = attempts t + Z.of_nat tries ∨ (deadline <= clock (readings t' - 1))%Q
}.

Lemma release_loop_ok deadline tries : ∀ t,
  is_confirmed t = false → releases_ok deadline tries t (release_loop clock answer tries deadline t).
Proof.
  induction tries as [|tries IH]; intros t Ht; cbn [release_loop].
  { split; [exists []; rewrite app_nil_r; change (releases []) with 0; split_and!; try done; lia|lia|congruence|left; lia]. }
  generalize (release_once_ok deadline (attempted t)). generalize (release_once clock answer deadline (attempted t)).
  intros t1 [(more & Hlog & Hall & Hcount) Hatt Hconf]. cbn in Hlog, Hatt, Hconf.
  assert (Hone : attempts t1 = attempts t + releases (SendRelease :: more)).
  { rewrite Hatt. change (SendRelease :: more) with ([SendRelease] ++ more). rewrite releases_app, Hcount. done. }
  destruct (is_confirmed t1) eqn:Hc1.
  - split; [exists (SendRelease :: more); split_and!; try done; by constructor|lia| |congruence].
    intros _. destruct (Hconf eq_refl) as [?|?]; [congruence|done].
  - cbn. destruct (Qle_bool deadline (clock (readings t1))) eqn:Hd.
    + split; cbn; [exists (SendRelease :: more); split_and!; try done; by constructor|lia|congruence|].
      intros _. right. rewrite Nat.sub_0_r. by apply Qle_bool_iff.
    + match goal with
      | |- releases_ok _ _ _ (release_loop _ _ _ _ ?t2) => generalize (IH t2 Hc1); generalize (release_loop clock answer tries deadline t2)
      end.
      intros t3 [(rs & Hl & Ha & Hn & _) Hmax Hcf Hgu]. cbn in Hl, Hn, Hmax, Hgu. split.
      * exists (SendRelease :: more ++ rs). rewrite Hl, Hlog, <- app_assoc. split_and!; try done.
        -- constructor; [done|]. by apply Forall_app.
        -- rewrite Hn, Hone. change (SendRelease :: more ++ rs) with ((SendRelease :: more) ++ rs). rewrite releases_app. lia.
      * lia.
      * done.
      * intros H. destruct (Hgu H); [left; lia|by right].
Qed.

(** The whole gesture. *)
Lemma gesture_ok duration :
  let t' := gesture clock answer duration (mkTrace 0 [] 0 false []) in
  ∃ wait rs moved, log t' = SendStart :: wait ++ rs ∧ (∃ k, moved = clock k) ∧
    (wait = [] ∨ ∃ q, wait = [Wait q] ∧ (0 <= q)%Q ∧ ((clock 0 <= clock 1)%Q → (q <= Qmax 0 duration)%Q)) ∧
    Forall (release_call (moved + 2)) rs ∧ head rs = Some SendRelease ∧ releases rs = attempts t' ∧ 1 ≤ attempts t' ≤ 3 ∧
    (is_confirmed t' = true → (∃ d, last rs = Some (ConfirmRelease d)) ∧ answer (length (log t') - 1) = inr true) ∧
    (is_confirmed t' = false → attempts t' = 3 ∨ (moved + 2 <= clock (readings t' - 1))%Q).
Proof.
  cbn zeta. unfold gesture. cbn [now readings log attempts is_confirmed errors].
  set (t1 := start_and_wait _ _ _ _).
  assert (Ht1 : is_confirmed t1 = false ∧ attempts t1 = 0 ∧ ∃ wait, log t1 = SendStart :: wait ∧
    (wait = [] ∨ ∃ q, wait = [Wait q] ∧ (0 <= q)%Q ∧ ((clock 0 <= clock 1)%Q → (q <= Qmax 0 duration)%Q))).
  { unfold t1, start_and_wait, ask, now, note. cbn. destruct (answer 0) as [e|b]; cbn; split_and!; try done.
    - exists []. split; [done|by left].
    - eexists [_]. split; [done|]. right. eexists. split_and!; [done|apply Q.le_max_l|].
      intros Hmono. apply Q.max_le_compat_l. lra. }
  clearbody t1. destruct Ht1 as (Hc & Ha & wait & Hl & Hw).
  destruct (release_loop_ok (clock (readings t1) + 2) 3 (mkTrace (S (readings t1)) (log t1) (attempts t1) (is_confirmed t1) (errors t1)) Hc)
    as [(rs & Hlog & Hall & Hn & Hhd) Hmax Hcf Hgu].
  revert Hlog Hn Hmax Hcf Hgu. generalize (release_loop clock answer 3 (clock (readings t1) + 2)
    (mkTrace (S (readings t1)) (log t1) (attempts t1) (is_confirmed t1) (errors t1))). intros t2 Hlog Hn Hmax Hcf Hgu.
  cbn [log attempts] in Hlog, Hn, Hmax, Hgu. rewrite Ha in Hn, Hmax, Hgu. rewrite Hl in Hlog. specialize (Hhd ltac:(done)).
  destruct rs as [|r0 rs']; [done|]. injection Hhd as ->.
  assert (Hpos : 0 < releases (SendRelease :: rs')) by (unfold releases; cbn [List.filter is_release length]; lia).
  exists wait, (SendRelease :: rs'), (clock (readings t1)).
  split; [exact Hlog|]. split; [by eexists|]. split; [exact Hw|]. split; [exact Hall|]. split; [done|]. split; [lia|]. split; [lia|]. split.
  - intros H. destruct (Hcf H) as [[d Hd] Hans]. split; [|exact Hans]. exists d. rewrite Hlog, last_app in Hd. destruct (last (SendRelease :: rs')) eqn:Hlast; [done|by apply last_None in Hlast].
  - intros H. destruct (Hgu H) as [?|?]; [left; lia|by right].
Qed.
End RunLemmas.

(** The active set is that of the callers inside, who hold different cameras. *)
Record owners_ok (o : PtzOwners) (inside : list string) : Prop := {
  oo_active : _active o = list_to_set inside;
  oo_distinct : NoDup inside;
  oo_bound : Z.of_nat (length inside) ≤ _limit o ≤ 8
}.

Lemma reserve_cases c o :
  (∃ e, reserve c o = (o, Raise e)) ∨
  c ≠ "" ∧ c ∉ _active o ∧ Z.of_nat (size (_active o)) < _limit o ∧ reserve c o = (mkOwners (_limit o) ({[c]} ∪ _active o), Ok tt).
Proof.
  unfold reserve, get, modify, check, raise_if, mbind, M_bind. destruct (c =? "")%string eqn:Hc; [left; by eexists|]. cbn.
  case_bool_decide as Hin; [left; by eexists|]. destruct (Z.leb_spec (_limit o) (Z.of_nat (size (_active o)))); [left; by eexists|].
  right. split_and!; try done. by apply String.eqb_neq.
Qed.

Lemma owners_preserved s s' : owners_ok s.1 s.2 → owners_step s s' → owners_ok s'.1 s'.2 ∧ _limit s'.1 = _limit s.1.
Proof.
  intros [Ha Hd Hb] Hs. destruct Hs as [o inside c o' Hr|o before c after]; cbn in *.
  - destruct (reserve_cases c o) as [[e H]|(_ & Hn & Hl & H)]; rewrite H in Hr; [done|]. injection Hr as <-.
    rewrite Ha in Hn, Hl. rewrite size_list_to_set in Hl by done. split; [|done]. split; cbn.
    + rewrite Ha, list_to_set_app_L. set_solver.
    + apply NoDup_app. split_and!; [done| |apply NoDup_singleton]. intros x Hx ->%list_elem_of_singleton. set_solver.
    + rewrite length_app. cbn. lia.
  - unfold unreserve, get, modify, check, raise_if, mbind, M_bind. cbn.
    rewrite bool_decide_eq_true_2 by (rewrite Ha; set_solver). cbn. split; [|done].
    apply NoDup_app in Hd as (Hd1 & Hd2 & Hd3%NoDup_cons). destruct Hd3 as [Hc Hd3]. split; cbn.
    + rewrite Ha, !list_to_set_app_L, list_to_set_cons.
      assert (c ∉ before) by (intros H; apply (Hd2 c H); left). set_solver.
    + apply NoDup_app. split_and!; try done. intros x Hx Hx'. apply (Hd2 x Hx). by right.
    + rewrite length_app in *. cbn in Hb. lia.
Qed.

(** ** Properties *)

(** C19 [PtzMotion.run]: whatever the route answers or raises and whatever the
    clock says, a gesture runs once: the second caller is refused before any
    call of the route. A gesture cancelled beforehand only closes the route. Any
    other sends one START first, waits at most once and never longer than its
    duration, then sends between one and three RELEASEs, also when START failed,
    and closes the route last. A release is reported confirmed only if the last
    receipt said so; otherwise three were tried or the two seconds were over.
    No result of a run permits a fallback to another transport. The owners of
    the gestures are at most the limit, one for each camera, and leaving the
    reservation never fails. A duration is between a tenth and half of a second. *)
Theorem ptz_motion_bounded :
  (∀ clock answer duration used cancelled stopped,
     match run clock answer duration used cancelled stopped with
     | (used', calls, Raise e) => used = true ∧ used' = true ∧ calls = [] ∧ e = PtzBusy "gesture has already been claimed"
     | (used', calls, Ok r) =>
         used = false ∧ used' = true ∧ start_attempted r = negb cancelled ∧ fallback_allowed r = false ∧
         if cancelled then calls = [CloseRoute] ∧ release_attempts r = 0 ∧ release_delivery_confirmed r = false
         else ∃ wait rs moved k, calls = SendStart :: wait ++ rs ++ [CloseRoute] ∧ moved = clock k ∧
           (wait = [] ∨ ∃ q, wait = [Wait q] ∧ (0 <= q)%Q ∧ ((clock 0%nat <= clock 1%nat)%Q → (q <= Qmax 0 duration)%Q)) ∧
           Forall (release_call (moved + 2)) rs ∧ head rs = Some SendRelease ∧
           releases rs = release_attempts r ∧ 1 ≤ release_attempts r ≤ 3 ∧
           (release_delivery_confirmed r = true →
              (∃ d, last rs = Some (ConfirmRelease d)) ∧ answer (length calls - 2)%nat = inr true) ∧
           (release_delivery_confirmed r = false → release_attempts r = 3 ∨ ∃ k, (moved + 2 <= clock k)%Q)
     end) ∧
  (∀ limit o s, ptz_owners limit = Ok o → rtc owners_step (o, []) s →
     _limit s.1 = limit ∧ owners_ok s.1 s.2 ∧ ∀ c, c ∈ s.2 → (unreserve c s.1).2 = Ok tt) ∧
  (∀ d duration, ptz_motion d = Ok duration → (1 # 10 <= duration <= 1 # 2)%Q).
Proof.
  split_and!.
  - intros clock answer duration used cancelled stopped. unfold run. destruct used; [done|]. unfold ask. destruct cancelled; cbn zeta.
    { cbn. destruct (answer 0%nat) as [e|b]; cbn; split_and!; done. }
    destruct (gesture_ok clock answer duration) as (wait & rs & moved & Hl & [k Hk] & Hw & Ha & Hh & Hn & Hb & Hc & Hg).
    revert Hl Hn Hb Hc Hg. generalize (gesture clock answer duration (mkTrace 0 [] 0 false [])). intros t Hl Hn Hb Hc Hg.
    assert (Hlen : (length (log t ++ [CloseRoute]) - 2 = length (log t) - 1)%nat) by (rewrite length_app; cbn; lia).
    destruct (answer (length (log t))) as [e|b]; cbn [note log attempts is_confirmed errors start_attempted release_attempts release_delivery_confirmed];
      rewrite Hlen; (split; [done|]; split; [done|]; split; [done|]; split; [done|]); exists wait, rs, moved, k;
      (split; [rewrite Hl, <- app_comm_cons, <- app_assoc; reflexivity|]); split_and!; try assumption; try lia;
      intros Hf; destruct (Hg Hf); [by left|right; by eexists|by left|right; by eexists].
  - intros limit o s Hnew Hs. unfold ptz_owners in Hnew. destruct (negb _) eqn:Hl in Hnew; [done|]. injection Hnew as <-.
    apply negb_false_iff, andb_true_iff in Hl as [Hlo%Z.leb_le Hhi%Z.leb_le].
    assert (Hinv : owners_ok s.1 s.2 ∧ _limit s.1 = limit).
    { revert s Hs. apply (@rtc_ind_r _ owners_step (λ s, owners_ok s.1 s.2 ∧ _limit s.1 = limit) (mkOwners limit ∅, [])); [|intros s1 s2 _ Hstep [IH1 IH2]].
      - split; [|done]. split; cbn; [done|apply NoDup_nil_2|lia].
      - destruct (owners_preserved s1 s2 IH1 Hstep) as [? ->]. done. }
    destruct Hinv as [[Ha Hd Hb] Hlim]. split_and!; [done|by split|].
    intros c Hc. unfold unreserve, get, modify, check, raise_if, mbind, M_bind. cbn.
    rewrite bool_decide_eq_true_2 by (rewrite Ha; set_solver). done.
  - intros [d|] duration Hd; [|done]. unfold ptz_motion in Hd. destruct (negb _) eqn:Hl in Hd; [done|]. injection Hd as <-.
    apply negb_false_iff, andb_true_iff in Hl as [Hlo%Qle_bool_iff Hhi%Qle_bool_iff]. done.
Qed.

(** START raises, the first receipt is missing and the second arrives. *)
Definition sample_clock (k : nat) : Q := inject_Z (Z.of_nat k) / 10.
Definition sample_answer (k : nat) : string + bool := match k with 0%nat => inl "OSError" | 4%nat => inr true | _ => inr false end.

Lemma ptz_motion_bounded_witness :
  run sample_clock sample_answer (2 # 5) false false false =
    (true, [SendStart; SendRelease; ConfirmRelease (14 # 20); SendRelease; ConfirmRelease (18 # 20); CloseRoute],
     Ok (mkMotionResult true false 2 true ["OSError"])) ∧
  ∃ o, ptz_owners 1 = Ok o ∧ reserve "cam" o = (mkOwners 1 {["cam"]}, Ok tt) ∧
    (reserve "cam2" (mkOwners 1 {["cam"]})).2 = Raise (PtzBusy "native PTZ camera/session capacity is busy") ∧
    (unreserve "cam" (mkOwners 1 {["cam"]})).2 = Ok tt.
Proof.
  split; [by vm_compute|]. eexists. split; [reflexivity|]. split; [by vm_compute|]. split; [by vm_compute|].
  destruct ptz_motion_bounded as (_ & H & _).
  destruct (H 1 _ (mkOwners 1 {["cam"]}, ["cam"]) eq_refl) as (_ & _ & Hc); [|by apply Hc; left].
  apply rtc_once. apply (enter_with _ [] "cam"). by vm_compute.
Defined.
End Motion.
