(* ===== verification/Throttle.v ===== *)
(** * Login pacing

    Models [src/backend/app/login_throttle.py]: [LoginThrottle], which paces the
    login attempts of each origin with a fixed number of hashed buckets.

    The clock is an argument of each call, in exact seconds where the source has
    floats.  [identity] is what the [ipaddress] module makes of a host, and
    [digest] the keyed BLAKE2s digest of it; nothing is assumed of either but
    that the digest has four bytes.  The HTTP route around it is not modelled. *)

From Stdlib Require Import ZArith QArith Qminmax Qround Lia Lqa.
From S2P Require Import Prelude.
#[local] Open Scope Z_scope.

Module Throttle.

Definition BURST : Z := 10.
Definition INTERVAL : Q := 6.
Definition SLOTS : Z := 4096.

Record LoginThrottle := mkThrottle { _next : list Q }.

Definition login_throttle : LoginThrottle := mkThrottle (replicate (Z.to_nat SLOTS) 0%Q).

Section Throttle.
Context (identity : string → string) (digest : string → bytes).

(** [int.from_bytes(digest, "big") % self.SLOTS] *)
Definition _slot (host : string) : nat := Z.to_nat (undigits 256 (rev (digest (identity host))) mod SLOTS).

(** The earliest instant at which the slot takes another attempt. *)
Definition earliest (next : Q) : Q := (next - inject_Z (BURST - 1) * INTERVAL)%Q.

(** [max(now, self._next[slot]) + self.INTERVAL] *)
Definition advance (now next : Q) : Q := (Qmax now next + INTERVAL)%Q.

Definition retry_after (host : string) (now : Q) : M LoginThrottle Z :=
  let slot := _slot host in
  t ← get;
  match _next t !! slot with
  | None => raise IndexError
  | Some next =>
      match Qle_bool (earliest next) now with
      | false => mret (Qceiling (earliest next - now))
      | true => _ ← modify (λ t, mkThrottle (<[slot := advance now next]> (_next t))); mret 0
      end
  end.

(** ** Histories *)

(** A history of attempts and the seconds each was told to wait. *)
Fixpoint attempts (calls : list (string * Q)) (t : LoginThrottle) : LoginThrottle * list (string * Q * result Z) :=
  match calls with
  | [] => (t, [])
  | (host, now) :: calls =>
      let '(t1, r) := retry_after host now t in
      let '(t2, rs) := attempts calls t1 in (t2, (host, now, r) :: rs)
  end.

Definition admitted (slot : nat) (o : string * Q * result Z) : bool :=
  (_slot o.1.1 =? slot)%nat && match o.2 with Ok 0 => true | _ => false end.

(** The clock does not go back. *)
Fixpoint monotone (from : Q) (calls : list (string * Q)) : Prop :=
  match calls with [] => True | (_, now) :: calls => (from <= now)%Q ∧ monotone now calls end.

(** ** Lemmas *)

Definition sized (t : LoginThrottle) : Prop := length (_next t) = Z.to_nat SLOTS.

Lemma slot_lt host : (_slot host < Z.to_nat SLOTS)%nat.
Proof. unfold _slot. pose proof (Z.mod_pos_bound (undigits 256 (rev (digest (identity host)))) SLOTS ltac:(done)). lia. Qed.

Lemma next_slot t host : sized t → ∃ next, _next t !! _slot host = Some next.
Proof. intros Ht. apply lookup_lt_is_Some_2. rewrite Ht. apply slot_lt. Qed.

Lemma retry_cases host now t next :
  _next t !! _slot host = Some next →
  (earliest next <= now)%Q ∧ retry_after host now t = (mkThrottle (<[_slot host := advance now next]> (_next t)), Ok 0) ∨
  (now < earliest next)%Q ∧ retry_after host now t = (t, Ok (Qceiling (earliest next - now))) ∧
    0 < Qceiling (earliest next - now).
Proof.
  intros Hn. unfold retry_after, get, modify, mret, mbind, M_bind, M_ret. rewrite Hn.
  destruct (Qle_bool (earliest next) now) eqn:E; [left; split; [by apply Qle_bool_iff|done]|right].
  assert (now < earliest next)%Q as H by (apply Qnot_le_lt; intros H%Qle_bool_iff; congruence).
  split_and!; [done..|]. rewrite Zlt_Qlt. change (inject_Z 0) with 0%Q.
  apply Qlt_le_trans with (earliest next - now)%Q; [lra|apply Qle_ceiling].
Qed.

Lemma sized_step host now t : sized t → sized (retry_after host now t).1.
Proof.
  intros Ht. destruct (next_slot t host Ht) as [next Hn].
  destruct (retry_cases host now t next Hn) as [[_ ->]|(_ & -> & _)]; [|done].
  unfold sized. cbn. by rewrite length_insert.
Qed.

(** Every admission of a slot moves its next instant at least [INTERVAL] on. *)
Lemma slot_moves host now t s next :
  sized t → _next t !! s = Some next →
  let '(t', r) := retry_after host now t in
  ∃ next', _next t' !! s = Some next' ∧
    if admitted s (host, now, r)
    then (earliest next <= now)%Q ∧ next' = advance now next
    else next' = next.
Proof.
  intros Ht Hs. destruct (next_slot t host Ht) as [n Hn].
  destruct (retry_cases host now t n Hn) as [[Hle ->]|(Hlt & -> & Hpos)]; unfold admitted; cbn.
  - destruct (Nat.eqb_spec (_slot host) s) as [E|Hne]; cbn.
    + rewrite E in *; simplify_eq. exists (advance now next). split; [|done]. apply list_lookup_insert_eq. by eapply lookup_lt_Some.
    + exists next. by rewrite list_lookup_insert_ne.
  - exists next. split; [done|]. destruct (_slot host =? s)%nat; cbn; [|done].
    destruct (Qceiling (earliest n - now)); [lia|done..].
Qed.

Lemma advance_lower now next : (next + INTERVAL <= advance now next)%Q ∧ (now + INTERVAL <= advance now next)%Q.
Proof. unfold advance. split; apply Qplus_le_compat; try apply Qle_refl; [apply Q.le_max_r|apply Q.le_max_l]. Qed.

Lemma advance_upper now next b :
  (earliest next <= now)%Q → (now <= b)%Q → (advance now next <= b + inject_Z BURST * INTERVAL)%Q.
Proof.
  unfold advance, earliest, INTERVAL, BURST. change (inject_Z (10 - 1)) with (9 # 1). change (inject_Z 10) with (10 # 1).
  intros H1 H2. destruct (Q.max_spec now next) as [[_ ->]|[_ ->]]; lra.
Qed.

Definition admissions (s : nat) (outs : list (string * Q * result Z)) : nat := length (List.filter (admitted s) outs).

Lemma admissions_cons s o outs :
  inject_Z (Z.of_nat (admissions s (o :: outs))) ==
  (if admitted s o then 1 else 0) + inject_Z (Z.of_nat (admissions s outs)).
Proof.
  unfold admissions. cbn [List.filter]. destruct (admitted s o); cbn [length]; [|lra].
  rewrite Nat2Z.inj_succ. unfold Z.succ. rewrite inject_Z_plus. change (inject_Z 1) with 1%Q. lra.
Qed.

(** Where a history leaves the next instant of a slot. *)
Lemma history_moves calls : ∀ t from a b s next,
  sized t → monotone from calls → (a <= from)%Q → Forall (λ c, (c.2 <= b)%Q) calls → _next t !! s = Some next →
  let '(t', outs) := attempts calls t in
  ∃ next', _next t' !! s = Some next' ∧
    (next + inject_Z (Z.of_nat (admissions s outs)) * INTERVAL <= next')%Q ∧
    (if decide (admissions s outs = 0%nat) then next' = next else
     (a + inject_Z (Z.of_nat (admissions s outs)) * INTERVAL <= next')%Q ∧ (next' <= b + inject_Z BURST * INTERVAL)%Q).
Proof.
  induction calls as [|[host now] calls IH]; intros t from a b s next Ht Hm Ha Hb Hs; cbn [attempts].
  { exists next. split; [done|]. split; [|done]. change (inject_Z _) with 0%Q. lra. }
  destruct Hm as [Hfrom Hm]. apply Forall_cons_1 in Hb as [Hnow Hb]. cbn in Hnow.
  pose proof (slot_moves host now t s next Ht Hs) as H. pose proof (sized_step host now t Ht) as Ht1.
  destruct (retry_after host now t) as [t1 r]. destruct H as (n1 & Hn1 & H). cbn in Ht1.
  specialize (IH t1 now a b s n1 Ht1 Hm ltac:(lra) Hb Hn1). destruct (attempts calls t1) as [t2 outs].
  destruct IH as (n2 & Hn2 & Hlow & Hk). exists n2. split; [done|]. pose proof (admissions_cons s (host, now, r) outs) as A.
  destruct (admitted s (host, now, r)) eqn:E.
  - destruct H as [He ->]. pose proof (advance_lower now next) as [L1 L2].
    pose proof (advance_upper now next b He Hnow) as U. unfold INTERVAL in *. split; [lra|].
    rewrite decide_False by (unfold admissions; cbn [List.filter]; by rewrite E).
    destruct (decide (admissions s outs = 0%nat)) as [Z0|_].
    + subst n2. rewrite Z0 in *. change (inject_Z (Z.of_nat 0)) with 0%Q in *. split; lra.
    + destruct Hk. split; [|done]. lra.
  - subst n1. unfold INTERVAL in *. split; [lra|].
    replace (admissions s ((host, now, r) :: outs)) with (admissions s outs)
      by (unfold admissions; cbn [List.filter]; by rewrite E).
    case_decide; [done|]. destruct Hk. split; lra.
Qed.

(** No slot is ever more than [BURST] intervals ahead of the clock. *)
Definition bounded (now : Q) (t : LoginThrottle) : Prop :=
  sized t ∧ Forall (λ n, (n <= now + inject_Z BURST * INTERVAL)%Q) (_next t).

Lemma bounded_later now now' t : (now <= now')%Q → bounded now t → bounded now' t.
Proof. intros H [Hs Hb]. split; [done|]. eapply Forall_impl; [exact Hb|]. cbn. intros x Hx. lra. Qed.

Lemma bounded_step host now t :
  bounded now t → bounded now (retry_after host now t).1 ∧ ∃ k, (retry_after host now t).2 = Ok k ∧ 0 ≤ k ≤ 6.
Proof.
  intros [Hs Hb]. destruct (next_slot t host Hs) as [next Hn].
  pose proof (Forall_lookup_1 _ _ _ _ Hb Hn) as Hnext. cbn in Hnext.
  destruct (retry_cases host now t next Hn) as [[Hle ->]|(Hlt & -> & Hpos)]; cbn.
  - split; [|by exists 0]. split; [unfold sized; cbn; by rewrite length_insert|].
    apply Forall_insert; [done|]. apply advance_upper; [done|apply Qle_refl].
  - split; [done|]. eexists. split; [done|]. split; [lia|]. change 6 with (Qceiling 6). apply Qceiling_resp_le.
    unfold earliest, INTERVAL, BURST in *. change (inject_Z (10 - 1)) with (9 # 1). change (inject_Z 10) with (10 # 1) in Hnext. lra.
Qed.

Lemma bounded_history calls : ∀ from t,
  monotone from calls → bounded from t →
  Forall (λ o, ∃ k, o.2 = Ok k ∧ 0 ≤ k ≤ 6) (attempts calls t).2 ∧ sized (attempts calls t).1.
Proof.
  induction calls as [|[host now] calls IH]; intros from t Hm Hb; cbn [attempts]; [split; [done|apply Hb]|].
  destruct Hm as [Hf Hm]. destruct (bounded_step host now t (bounded_later _ _ _ Hf Hb)) as [Hb1 Hk].
  destruct (retry_after host now t) as [t1 r]. specialize (IH now t1 Hm Hb1).
  destruct (attempts calls t1) as [t2 outs]. destruct IH as [IH1 IH2]. by split; [constructor|].
Qed.

(** C25 [LoginThrottle]: in any stretch of a history, whatever the state it
    starts from, a slot admits at most [BURST] attempts and one more for each
    interval the stretch lasts. From a fresh throttle no call raises and none is
    told to wait more than six seconds. An admission touches no other slot; a
    refusal changes nothing, the wait it names is enough, and a wait of one
    second less is not. *)
Theorem login_paced :
  (∀ calls from a b t s,
     sized t → monotone from calls → (a <= from)%Q → (a <= b)%Q → Forall (λ c, (c.2 <= b)%Q) calls →
     ((inject_Z (Z.of_nat (admissions s (attempts calls t).2)) - inject_Z BURST) * INTERVAL <= b - a)%Q) ∧
  (∀ calls, monotone 0 calls →
     Forall (λ o, ∃ k, o.2 = Ok k ∧ 0 ≤ k ≤ 6) (attempts calls login_throttle).2) ∧
  (∀ t host now t' k, sized t → retry_after host now t = (t', Ok k) →
     (k = 0 → ∀ s, s ≠ _slot host → _next t' !! s = _next t !! s) ∧
     (k ≠ 0 → t' = t ∧
        (∀ later, (now + inject_Z k <= later)%Q → (retry_after host later t).2 = Ok 0) ∧
        (∀ later, (later <= now + inject_Z (k - 1))%Q → (retry_after host later t).2 ≠ Ok 0))).
Proof.
  split_and!.
  - intros calls from a b t s Ht Hm Ha Hab Hb.
    destruct (Nat.lt_ge_cases s (Z.to_nat SLOTS)) as [Hs|Hs].
    + assert (∃ next, _next t !! s = Some next) as [next Hn] by (apply lookup_lt_is_Some_2; by rewrite Ht).
      pose proof (history_moves calls t from a b s next Ht Hm Ha Hb Hn) as H.
      destruct (attempts calls t) as [t' outs]. cbn [snd]. destruct H as (n' & _ & _ & H). unfold INTERVAL, BURST in *.
      change (inject_Z 10) with (10 # 1) in *. case_decide as E; [rewrite E; change (inject_Z (Z.of_nat 0)) with 0%Q; lra|lra].
    + assert (admissions s (attempts calls t).2 = 0%nat) as ->; [|unfold INTERVAL, BURST; change (inject_Z (Z.of_nat 0)) with 0%Q; change (inject_Z 10) with (10 # 1); lra].
      clear -Hs. revert t. induction calls as [|[host now] calls IH]; intros t; cbn [attempts]; [done|].
      destruct (retry_after host now t) as [t1 r]. specialize (IH t1). destruct (attempts calls t1) as [t2 outs].
      unfold admissions in *. cbn [snd List.filter] in *. unfold admitted at 1. cbn [fst snd]. pose proof (slot_lt host).
      by rewrite (proj2 (Nat.eqb_neq (_slot host) s)) by lia.
  - intros calls Hm. apply (bounded_history calls 0); [done|]. split; [done|].
    apply Forall_replicate. unfold INTERVAL, BURST. change (inject_Z 10) with (10 # 1). lra.
  - intros t host now t' k Ht H. destruct (next_slot t host Ht) as [next Hn].
    destruct (retry_cases host now t next Hn) as [[_ E]|(Hlt & E & Hpos)]; rewrite E in H; injection H as <- <-.
    + split; [|done]. intros _ s Hs. cbn. by rewrite list_lookup_insert_ne.
    + split; [lia|]. intros _. split; [done|]. pose proof (Qle_ceiling (earliest next - now)) as C1.
      pose proof (Qceiling_lt (earliest next - now)) as C2. split; intros later Hl.
      * destruct (retry_cases host later t next Hn) as [[_ ->]|(Hlt' & _)]; [done|lra].
      * destruct (retry_cases host later t next Hn) as [[Hle _]|(Hlt' & -> & ?)]; [lra|]. cbn. intros [=]. lia.
Qed.
End Throttle.

(** Twelve attempts at once: ten pass, two are told to wait. *)
Lemma login_paced_witness :
  let host := "203.0.113.7"%string in
  let calls := replicate 12 (host, 100%Q) in
  let outs := (attempts id (λ _, [1; 2; 3; 4]) calls login_throttle).2 in
  monotone 0 calls ∧ admissions id (λ _, [1; 2; 3; 4]) 772 outs = 10%nat ∧
  Forall (λ o, ∃ k, o.2 = Ok k ∧ 0 ≤ k ≤ 6) outs ∧ last outs = Some (host, 100%Q, Ok 6).
Proof.
  intros host calls outs.
  assert (Hm : monotone 0 calls) by (unfold calls; cbn; repeat split; lra).
  split; [exact Hm|]. split; [by vm_compute|]. split; [|by vm_compute].
  exact (proj1 (proj2 (login_paced id (λ _, [1; 2; 3; 4]))) calls Hm).
Defined.
End Throttle.
