(* ===== verification/Mp4.v ===== *)
(** * Fragmented MP4 output

    Models [src/backend/app/media/fragmented_mp4.py]: the collector that cuts
    the local muxer's byte stream into boxes, checks their order and queues one
    initialization chunk and then media fragments, within a fixed budget.

    The box loop runs with the buffer length as fuel; a box has at least eight
    bytes.  The exception classes derive from [ValueError]; the diagnostics they
    carry are their message here. *)

From Stdlib Require Import ZArith Lia.
From S2P Require Import Prelude.

Module Mp4.

Definition MAX_BYTES : Z := 2 * 1024 * 1024.
Definition MAX_CHUNKS : Z := 8.

Definition ftyp : bytes := [0x66; 0x74; 0x79; 0x70].
Definition moov : bytes := [0x6D; 0x6F; 0x6F; 0x76].
Definition moof : bytes := [0x6D; 0x6F; 0x6F; 0x66].
Definition mdat : bytes := [0x6D; 0x64; 0x61; 0x74].

Record Mp4Chunk := mkChunk { initialization : bool; c_data : bytes }.

Record FragmentedMp4 := mkMp4 {
  _buffer : bytes; _pair : bytes; _expected : bytes; _chunks : list Mp4Chunk; _queued_bytes : Z;
  started : bool; _claimed : bool; closed : bool
}.

Definition fragmented_mp4 : FragmentedMp4 := mkMp4 [] [] ftyp [] 0 false false false.

Definition Mp4CapacityError (m : string) : exn := ValueError m.
Definition Mp4SizeError : exn := ValueError "unsupported MP4 box size".
Definition Mp4OrderError : exn := ValueError "unexpected MP4 box order".

Definition claim : M FragmentedMp4 unit :=
  s ← get;
  _ ← check (closed s || started s || _claimed s) (ValueError "fresh MP4 output required");
  modify (λ s, mkMp4 (_buffer s) (_pair s) (_expected s) (_chunks s) (_queued_bytes s) (started s) true (closed s)).

Definition buffered_bytes (s : FragmentedMp4) : Z := len (_buffer s) + len (_pair s) + _queued_bytes s.

Definition close (s : FragmentedMp4) : FragmentedMp4 :=
  mkMp4 [] [] (_expected s) [] 0 (started s) (_claimed s) true.

(** [int.from_bytes(data, "big")] *)
Definition from_be (data : bytes) : Z := undigits 256 (rev data).

(** [self.started = self.started or bool(data); self._buffer.extend(data)] *)
Definition extend (data : bytes) (s : FragmentedMp4) : FragmentedMp4 :=
  mkMp4 (_buffer s ++ data) (_pair s) (_expected s) (_chunks s) (_queued_bytes s)
    (started s || negb (length data =? 0)%nat) (_claimed s) (closed s).

(** A complete first half of a pair is kept. *)
Definition keep_pair (size : nat) (kind : bytes) (s : FragmentedMp4) : FragmentedMp4 :=
  mkMp4 (drop size (_buffer s)) (take size (_buffer s)) (if bool_decide (kind = ftyp) then moov else mdat)
    (_chunks s) (_queued_bytes s) (started s) (_claimed s) (closed s).

(** A complete pair is queued. *)
Definition queue_chunk (size : nat) (kind : bytes) (s : FragmentedMp4) : FragmentedMp4 :=
  let chunk := mkChunk (bool_decide (kind = moov)) (_pair s ++ take size (_buffer s)) in
  mkMp4 (drop size (_buffer s)) [] moof (_chunks s ++ [chunk]) (_queued_bytes s + len (c_data chunk))
    (started s) (_claimed s) (closed s).

(** [while len(self._buffer) >= 8] *)
Fixpoint box_loop (fuel : nat) (boxes : Z) : M FragmentedMp4 unit :=
  s ← get;
  if len (_buffer s) <? 8 then mret tt else
  let size := from_be (take 4 (_buffer s)) in
  let kind := slice 4 8 (_buffer s) in
  _ ← check (negb ((8 <=? size) && (size <=? MAX_BYTES))) Mp4SizeError;
  _ ← check (negb (bool_decide (kind = _expected s))) Mp4OrderError;
  match len (_buffer s) <? size with
  | true => mret tt
  | false =>
      let boxes := boxes + 1 in
      _ ← check (64 <? boxes) (Mp4CapacityError "MP4 box budget exceeded");
      _ ← (if bool_decide (kind = ftyp ∨ kind = moof) then modify (keep_pair (Z.to_nat size) kind)
           else
             _ ← check (MAX_CHUNKS <=? Z.of_nat (length (_chunks s))) (Mp4CapacityError "MP4 consumer stalled");
             modify (queue_chunk (Z.to_nat size) kind));
      match fuel with
      | O => raise OutOfFuel
      | S fuel => box_loop fuel boxes
      end
  end.

Definition feed_body (data : bytes) : M FragmentedMp4 unit :=
  s ← get;
  _ ← check (MAX_BYTES <? buffered_bytes s + len data) (Mp4CapacityError "MP4 output capacity exceeded");
  _ ← modify (extend data);
  s ← get;
  box_loop (length (_buffer s)) 0.

Definition feed (data : bytes) : M FragmentedMp4 unit := λ s,
  if closed s then (s, Raise (ValueError "MP4 output closed")) else
  match feed_body data s with
  | (s, Raise e) => (close s, Raise e)
  | r => r
  end.

Definition take_chunk (s : FragmentedMp4) : FragmentedMp4 * option Mp4Chunk :=
  match _chunks s with
  | [] => (s, None)
  | chunk :: rest =>
      (mkMp4 (_buffer s) (_pair s) (_expected s) rest (_queued_bytes s - len (c_data chunk)) (started s) (_claimed s)
         (closed s), Some chunk)
  end.

(** ** The stream as boxes *)

(** The kind of the box at a position of the stream. *)
Definition kind_at (i : nat) : bytes :=
  if (i =? 0)%nat then ftyp else if (i =? 1)%nat then moov else if Nat.even i then moof else mdat.

Definition is_box (kind b : bytes) : Prop :=
  8 ≤ len b ≤ MAX_BYTES ∧ from_be (take 4 b) = len b ∧ slice 4 8 b = kind.

(** The chunks of a sequence of boxes, and the box that waits for its second. *)
Fixpoint pairs (first : bool) (boxes : list bytes) : list Mp4Chunk :=
  match boxes with b1 :: b2 :: rest => mkChunk first (b1 ++ b2) :: pairs false rest | _ => [] end.
Fixpoint odd_one (boxes : list bytes) : bytes :=
  match boxes with [] => [] | [b] => b | _ :: _ :: rest => odd_one rest end.

(** No complete box is at the head of a buffer. *)
Definition incomplete (buffer : bytes) : Prop := len buffer < 8 ∨ len buffer < from_be (take 4 buffer).

Definition total_data (chunks : list Mp4Chunk) : Z := foldr Z.add 0 ((λ c, len (c_data c)) <$> chunks).

(** An open collector after [fed] has come in and [taken] gone out. *)
Record holds (fed : bytes) (taken : list Mp4Chunk) (boxes : list bytes) (s : FragmentedMp4) : Prop := {
  ho_open : closed s = false;
  ho_boxes : ∀ i b, boxes !! i = Some b → is_box (kind_at i) b;
  ho_fed : concat boxes ++ _buffer s = fed;
  ho_chunks : taken ++ _chunks s = pairs true boxes;
  ho_pair : _pair s = odd_one boxes;
  ho_expected : _expected s = kind_at (length boxes);
  ho_queued : _queued_bytes s = total_data (_chunks s);
  ho_budget : buffered_bytes s ≤ MAX_BYTES;
  ho_count : Z.of_nat (length (_chunks s)) ≤ MAX_CHUNKS
}.

(** ** Lemmas *)

Lemma two_at_a_time {A} (P : list A → Prop) :
  P [] → (∀ a, P [a]) → (∀ a b l, P l → P (a :: b :: l)) → ∀ l, P l.
Proof. intros H0 H1 H2. fix IH 1. intros [|a [|b l]]; [done|apply H1|apply H2, IH]. Qed.

Lemma pairs_snoc first bs b :
  pairs first (bs ++ [b]) =
  (if Nat.even (length bs) then pairs first bs
   else pairs first bs ++ [mkChunk (first && (length bs =? 1)%nat) (odd_one bs ++ b)]) ∧
  odd_one (bs ++ [b]) = if Nat.even (length bs) then b else [].
Proof.
  revert first. induction bs as [|a|b1 b2 bs IH] using two_at_a_time; intros first; [done|by rewrite andb_true_r|].
  cbn [app pairs odd_one length Nat.even]. destruct (IH false) as [-> ->]. split; [|done].
  destruct (Nat.even (length bs)) eqn:E; [done|]. cbn. rewrite ?andb_false_r. by destruct bs.
Qed.

Lemma kind_even i : Nat.even i = true → kind_at i = if (i =? 0)%nat then ftyp else moof.
Proof. intros H. unfold kind_at. rewrite H. by destruct i as [|[|i]]. Qed.

Lemma kind_odd i : Nat.even i = false → kind_at i = if (i =? 1)%nat then moov else mdat.
Proof. intros H. unfold kind_at. rewrite H. by destruct i as [|[|i]]. Qed.

Lemma kind_first i : bool_decide (kind_at i = ftyp ∨ kind_at i = moof) = Nat.even i.
Proof.
  destruct (Nat.even i) eqn:E; [rewrite kind_even by done|rewrite kind_odd by done]; by case_match.
Qed.

Lemma total_data_snoc l c : total_data (l ++ [c]) = total_data l + len (c_data c).
Proof. unfold total_data. induction l as [|x l IH]; cbn in *; [lia|]. rewrite IH. lia. Qed.

Lemma len_take_drop n (l : bytes) : len (take n l) + len (drop n l) = len l.
Proof. unfold len. rewrite <- (take_drop n l) at 3. rewrite length_app. lia. Qed.

(** Taking one complete box off the buffer. *)
Lemma holds_box fed taken boxes s :
  holds fed taken boxes s → 8 ≤ len (_buffer s) →
  let size := from_be (take 4 (_buffer s)) in
  8 ≤ size ≤ MAX_BYTES → slice 4 8 (_buffer s) = _expected s → size ≤ len (_buffer s) →
  (Nat.even (length boxes) = false → Z.of_nat (length (_chunks s)) < MAX_CHUNKS) →
  let box := take (Z.to_nat size) (_buffer s) in
  holds fed taken (boxes ++ [box])
    (if Nat.even (length boxes) then keep_pair (Z.to_nat size) (_expected s) s
     else queue_chunk (Z.to_nat size) (_expected s) s).
Proof.
  intros [Ho Hb Hf Hc Hp He Hq Hbud Hcnt] H8 size Hsize Hkind Hlen Hroom box.
  assert (Hbox : is_box (kind_at (length boxes)) box).
  { unfold is_box, box. rewrite <- He, <- Hkind. unfold len in *. rewrite length_take, take_take, Nat.min_l by lia.
    replace (4 `min` Z.to_nat size)%nat with 4%nat by lia. split_and!; [lia..|].
    unfold slice. rewrite !take_drop_commute, take_take. do 2 f_equal. lia. }
  destruct (pairs_snoc true boxes box) as [P1 P2]. pose proof (len_take_drop (Z.to_nat size) (_buffer s)) as Hcut.
  assert (Hboxes : ∀ i b, (boxes ++ [box]) !! i = Some b → is_box (kind_at i) b).
  { intros i b [[_ Hi]|[-> <-]]%lookup_snoc_Some; [by apply Hb|done]. }
  assert (Hcat : concat (boxes ++ [box]) ++ drop (Z.to_nat size) (_buffer s) = fed).
  { rewrite concat_app. cbn. rewrite app_nil_r, <- app_assoc. unfold box. by rewrite take_drop. }
  unfold buffered_bytes in Hbud. destruct (Nat.even (length boxes)) eqn:E; split; cbn; try done.
  - by rewrite P1.
  - rewrite length_app. cbn. rewrite kind_odd by (rewrite Nat.add_1_r, Nat.even_succ; by rewrite <- Nat.negb_even, E).
    rewrite He, (kind_even _ E). by destruct boxes as [|? [|]].
  - unfold buffered_bytes. cbn. unfold len in *. lia.
  - rewrite app_assoc, Hc, P1. repeat f_equal; [|by rewrite Hp].
    rewrite He, (kind_odd _ E). cbn. by destruct boxes as [|? [|]].
  - rewrite length_app. cbn. rewrite kind_even by (rewrite Nat.add_1_r, Nat.even_succ; by rewrite <- Nat.negb_even, E).
    by destruct boxes.
  - etrans; [|symmetry; apply total_data_snoc]. cbn [c_data]. lia.
  - unfold buffered_bytes. cbn. unfold len in *. rewrite !length_app. cbn. lia.
  - rewrite length_app. cbn. specialize (Hroom eq_refl). lia.
Qed.

Definition fed_ok (fed : bytes) (taken : list Mp4Chunk) (r : result unit) (s : FragmentedMp4) : Prop :=
  match r with
  | Ok _ => ∃ boxes, holds fed taken boxes s ∧ incomplete (_buffer s)
  | Raise (ValueError _) => True
  | Raise _ => False
  end.

Lemma box_loop_ok fed taken fuel : ∀ n boxes s,
  holds fed taken boxes s → (length (_buffer s) ≤ fuel)%nat → wp (box_loop fuel n) (fed_ok fed taken) s.
Proof.
  induction fuel as [|fuel IH]; intros n boxes s Hs Hf; cbn [box_loop]; repeat wp_step; try done;
    try (by exists boxes; split; [done|]; unfold incomplete; lia); try (exfalso; unfold len in *; lia).
  all: assert (slice 4 8 (_buffer s) = _expected s) as Hkind by (eapply bool_decide_eq_true_1, negb_false_iff; eassumption).
  all: pose proof (holds_box fed taken boxes s Hs ltac:(lia) ltac:(lia) Hkind ltac:(lia)) as Hbox.
  all: rewrite (ho_expected _ _ _ _ Hs) in Hkind, Hbox; rewrite Hkind in *.
  all: match goal with H : bool_decide _ = _ |- _ => rewrite kind_first in H; rewrite H in Hbox end.
  all: eapply IH; [apply Hbox; lia|]; cbn; rewrite length_drop; unfold len in *; lia.
Qed.

Lemma feed_ok fed taken boxes data s :
  holds fed taken boxes s → wp (feed_body data) (fed_ok (fed ++ data) taken) s.
Proof.
  intros Hs. unfold feed_body. repeat wp_step; [done|]. apply box_loop_ok with (boxes := boxes); [|done].
  destruct Hs as [Ho Hb Hf Hc Hp He Hq Hbud Hcnt]. split; cbn; try done.
  - by rewrite app_assoc, Hf.
  - unfold buffered_bytes in *. cbn. unfold len in *. rewrite length_app. lia.
Qed.

(** ** Histories *)

Inductive mp4_call := Feed (data : bytes) | Take | Claim | Close.

(** The collector with the bytes it accepted and the chunks taken from it. *)
Definition mp4_exec (h : FragmentedMp4 * bytes * list Mp4Chunk) (c : mp4_call) : FragmentedMp4 * bytes * list Mp4Chunk :=
  let '(s, fed, taken) := h in
  match c with
  | Feed data => match feed data s with (s, Ok _) => (s, fed ++ data, taken) | (s, Raise _) => (s, fed, taken) end
  | Take => let '(s, o) := take_chunk s in (s, fed, taken ++ match o with Some c => [c] | None => [] end)
  | Claim => ((claim s).1, fed, taken)
  | Close => (close s, fed, taken)
  end.
Definition mp4_history (calls : list mp4_call) : FragmentedMp4 * bytes * list Mp4Chunk :=
  foldl mp4_exec (fragmented_mp4, [], []) calls.

(** What has gone out is a prefix of the chunks of the stream that came in. *)
Definition issued (fed : bytes) (taken : list Mp4Chunk) : Prop :=
  ∃ boxes, (∀ i b, boxes !! i = Some b → is_box (kind_at i) b) ∧ concat boxes `prefix_of` fed ∧
    taken `prefix_of` pairs true boxes.

Definition mp4_ok (h : FragmentedMp4 * bytes * list Mp4Chunk) : Prop :=
  let '(s, fed, taken) := h in
  if closed s then _buffer s = [] ∧ _pair s = [] ∧ _chunks s = [] ∧ _queued_bytes s = 0 ∧ issued fed taken
  else ∃ boxes, holds fed taken boxes s ∧ incomplete (_buffer s).

Lemma holds_issued fed taken boxes s : holds fed taken boxes s → issued fed taken.
Proof.
  intros [Ho Hb Hf Hc _ _ _ _ _]. exists boxes. split; [done|]. rewrite <- Hf, <- Hc. split; by eexists.
Qed.

Lemma mp4_ok_issued s fed taken : mp4_ok (s, fed, taken) → issued fed taken.
Proof. unfold mp4_ok. destruct (closed s); [by intros (_ & _ & _ & _ & ?)|]. intros (boxes & H & _). by eapply holds_issued. Qed.

Lemma mp4_ok_exec h c : mp4_ok h → mp4_ok (mp4_exec h c).
Proof.
  destruct h as [[s fed] taken]. intros Hok. pose proof (mp4_ok_issued _ _ _ Hok) as Hi. destruct c as [data| | |]; cbn [mp4_exec].
  - unfold feed. destruct (closed s) eqn:Hc; [done|]. cbn in Hok. rewrite Hc in Hok. destruct Hok as (boxes & Hh & _).
    pose proof (feed_ok fed taken boxes data s Hh) as H. unfold wp in H.
    destruct (feed_body data s) as [s' [u|e]]; cbn in *; [|done].
    destruct H as (boxes' & H & ?). rewrite (ho_open _ _ _ _ H). eauto.
  - unfold take_chunk. destruct (_chunks s) as [|ch rest] eqn:E; [by rewrite app_nil_r|]. cbn in *.
    destruct (closed s); [by destruct Hok as (_ & _ & ? & _); congruence|]. destruct Hok as (boxes & [Ho Hb Hf Hc Hp He Hq Hbud Hcnt] & Hw).
    exists boxes. split; [|done]. rewrite E in *. cbn in *. split; cbn; try done.
    + by rewrite <- app_assoc.
    + unfold total_data in *. cbn in *. lia.
    + unfold buffered_bytes in *. cbn. unfold len in *. lia.
    + lia.
  - assert ((claim s).1 = s ∨ (claim s).1 = mkMp4 (_buffer s) (_pair s) (_expected s) (_chunks s) (_queued_bytes s) (started s) true (closed s)) as [->| ->].
    { unfold claim, get, check, modify, raise_if, mbind, M_bind. cbn. destruct (closed s || started s || _claimed s); [by left|by right]. }
    { done. }
    cbn in *. destruct (closed s); [done|]. destruct Hok as (boxes & [] & Hw). by exists boxes.
  - done.
Qed.

Lemma mp4_history_ok calls : mp4_ok (mp4_history calls).
Proof.
  unfold mp4_history. assert (mp4_ok (fragmented_mp4, [], [])) as H.
  { exists []. split; [|by left]. by split. }
  revert H. generalize (fragmented_mp4, [] : bytes, [] : list Mp4Chunk).
  induction calls as [|c calls IH]; intros h Hh; [done|]. apply IH. by apply mp4_ok_exec.
Qed.

(** A stream has one reading as boxes and an incomplete rest. *)
Lemma boxes_unique bs1 : ∀ bs2 r1 r2 i,
  (∀ j b, bs1 !! j = Some b → is_box (kind_at (i + j)) b) → (∀ j b, bs2 !! j = Some b → is_box (kind_at (i + j)) b) →
  incomplete r1 → incomplete r2 → concat bs1 ++ r1 = concat bs2 ++ r2 → bs1 = bs2 ∧ r1 = r2.
Proof.
  assert (Hhead : ∀ b x k, is_box k b → from_be (take 4 (b ++ x)) = len b ∧ 8 ≤ len b).
  { intros b x k ([? ?] & Hb & _). rewrite take_app_le by (unfold len in *; lia). by split. }
  assert (Hno : ∀ b x k, is_box k b → ¬ incomplete (b ++ x)).
  { intros b x k Hb. destruct (Hhead b x k Hb) as [E ?]. unfold incomplete, len in *. rewrite E, length_app. lia. }
  induction bs1 as [|b1 bs1 IH]; intros [|b2 bs2] r1 r2 i H1 H2 I1 I2 E; cbn in E; rewrite <- ?app_assoc in E.
  - done.
  - subst r1. by destruct (Hno b2 (concat bs2 ++ r2) _ (H2 0%nat b2 eq_refl)).
  - subst r2. by destruct (Hno b1 (concat bs1 ++ r1) _ (H1 0%nat b1 eq_refl)).
  - destruct (Hhead b1 (concat bs1 ++ r1) _ (H1 0%nat b1 eq_refl)) as [E1 _].
    destruct (Hhead b2 (concat bs2 ++ r2) _ (H2 0%nat b2 eq_refl)) as [E2 _].
    rewrite E, E2 in E1. apply app_inj_1 in E as [-> E]; [|unfold len in E1; lia].
    destruct (IH bs2 r1 r2 (S i)) as [-> ->]; [| |done..|done]; intros j b Hj.
    + rewrite Nat.add_succ_comm. by apply H1.
    + rewrite Nat.add_succ_comm. by apply H2.
Qed.

(** C14 [FragmentedMp4]: in every history the collector stays within its budget
    and never runs out of step with the stream: what was taken, what is queued,
    the half pair and the buffer are exactly the bytes accepted, cut at box
    boundaries, in the order one initialization pair and then fragment pairs,
    with no complete box left unread. Hence two histories that accepted the same
    bytes, however they were cut, issued the same chunks. A feed succeeds or
    raises [ValueError], and then the collector is closed and empty for good;
    even so, what was taken is a prefix of the stream's chunks. *)
Theorem mp4_output_exact calls :
  let '(s, fed, taken) := mp4_history calls in
  buffered_bytes s ≤ MAX_BYTES ∧ Z.of_nat (length (_chunks s)) ≤ MAX_CHUNKS ∧ issued fed taken ∧
  (closed s = false → ∃ boxes, holds fed taken boxes s ∧ incomplete (_buffer s)) ∧
  (closed s = true → buffered_bytes s = 0 ∧ _chunks s = []) ∧
  (∀ data, match feed data s with
           | (s', Ok _) => closed s' = false
           | (s', Raise (ValueError _)) => closed s' = true ∧ buffered_bytes s' = 0
           | (_, Raise _) => False
           end) ∧
  (∀ calls', let '(s', fed', taken') := mp4_history calls' in
     closed s = false → closed s' = false → fed = fed' → taken ++ _chunks s = taken' ++ _chunks s').
Proof.
  pose proof (mp4_history_ok calls) as Hok. destruct (mp4_history calls) as [[s fed] taken].
  pose proof (mp4_ok_issued _ _ _ Hok) as Hi. cbn in Hok.
  assert (Hempty : closed s = true → buffered_bytes s = 0 ∧ _chunks s = []).
  { intros E. rewrite E in Hok. destruct Hok as (Hb & Hp & Hc & Hq & _). unfold buffered_bytes. by rewrite Hb, Hp, Hq. }
  assert (Hopen : closed s = false → ∃ boxes, holds fed taken boxes s ∧ incomplete (_buffer s)).
  { intros E. by rewrite E in Hok. }
  split_and!; try done.
  - destruct (closed s) eqn:E; [by destruct (Hempty eq_refl) as [-> _]|]. destruct (Hopen eq_refl) as (? & H & _). apply H.
  - destruct (closed s) eqn:E; [by destruct (Hempty eq_refl) as [_ ->]|]. destruct (Hopen eq_refl) as (? & H & _). apply H.
  - intros data. unfold feed. destruct (closed s) eqn:E; [by destruct (Hempty eq_refl) as [-> _]|].
    destruct (Hopen eq_refl) as (boxes & H & _). pose proof (feed_ok fed taken boxes data s H) as Hf. unfold wp in Hf.
    destruct (feed_body data s) as [s' [u|e]]; cbn in *; [|by destruct e]. destruct Hf as (? & Hf & _). apply Hf.
  - intros calls'. pose proof (mp4_history_ok calls') as Hok'. destruct (mp4_history calls') as [[s' fed'] taken'].
    cbn in Hok'. intros Ho Ho' <-. rewrite Ho' in Hok'. destruct (Hopen Ho) as (bs & H & Hw), Hok' as (bs' & H' & Hw').
    rewrite (ho_chunks _ _ _ _ H), (ho_chunks _ _ _ _ H'). f_equal.
    eapply (boxes_unique bs bs' _ _ 0); [apply H|apply H'|exact Hw|exact Hw'|].
    by rewrite (ho_fed _ _ _ _ H), (ho_fed _ _ _ _ H').
Qed.

(** An initialization and one fragment, cut in two different ways. *)
Definition sample_box (kind payload : bytes) : bytes := [0; 0; 0; 8 + len payload] ++ kind ++ payload.
Definition sample_stream : bytes :=
  sample_box ftyp [1] ++ sample_box moov [2; 3] ++ sample_box moof [4] ++ sample_box mdat [5; 6; 7].

Lemma mp4_output_exact_witness :
  let h := mp4_history [Claim; Feed (take 13 sample_stream); Take; Feed (drop 13 sample_stream); Take] in
  let h' := mp4_history [Feed sample_stream] in
  closed h.1.1 = false ∧ h.2 = [mkChunk true (take 19 sample_stream)] ∧
  h.2 ++ _chunks h.1.1 = h'.2 ++ _chunks h'.1.1 ∧ length (_chunks h'.1.1) = 2%nat.
Proof.
  intros h h'. split; [by vm_compute|]. split; [by vm_compute|]. split; [|by vm_compute].
  pose proof (mp4_output_exact [Claim; Feed (take 13 sample_stream); Take; Feed (drop 13 sample_stream); Take]) as H.
  fold h in H. destruct h as [[s fed] taken] eqn:E. destruct H as (_ & _ & _ & _ & _ & _ & H).
  specialize (H [Feed sample_stream]). fold h' in H. destruct h' as [[s' fed'] taken'] eqn:E'. vm_compute in E, E'.
  injection E as <- <- <-. injection E' as <- <- <-. by apply H.
Defined.
End Mp4.
