(* ===== verification/Fanout.v ===== *)
(** * The shared MP4 epoch

    Models [src/backend/app/media/mp4_fanout.py]: one bounded ring of media
    fragments with an initialization, read by up to sixteen subscriptions, each
    with its own cursor.

    Every method runs under the hub's lock and is one operation.  A
    [Subscription] object is a number, fresh at its creation; the hub's state
    carries the fields of all of them ([subs]), also of those it no longer
    refers to ([_readers]).  The two exception classes derive from
    [RuntimeError]; the class is the first word of the message here. *)

From Stdlib Require Import ZArith Lia.
From stdpp Require Import fin_maps fin_sets.
From S2P Require Import Prelude Mp4.

Module Fanout.
Import Mp4.

Definition MAX_READERS : Z := 16.
Definition MAX_INIT_BYTES : Z := 256 * 1024.

Inductive stream_error := Closed | Slow.
Definition stream_exn (e : stream_error) (m : string) : exn :=
  RuntimeError (match e with Closed => "StreamClosedError: " | Slow => "SlowConsumerError: " end +:+ m).

Record Subscription := mkSub { s_sequence : Z; s_initialization_pending : bool; s_error : option stream_error }.

Record Mp4Fanout := mkFanout {
  _initialization : option Mp4Chunk; _fragments : list (Z * Mp4Chunk); _readers : gset Z; _bytes : Z; _sequence : Z;
  _closed : bool; subs : gmap Z Subscription
}.

Definition mp4_fanout : Mp4Fanout := mkFanout None [] ∅ 0 0 false ∅.

Definition reader_count (h : Mp4Fanout) : Z := Z.of_nat (size (_readers h)).

Definition fail (e : stream_error) (s : Subscription) : Subscription :=
  mkSub (s_sequence s) (s_initialization_pending s) (Some e).

(** [for reader in self._readers: reader._error = StreamClosedError] and the
    clearing of the rest. *)
Definition _close (h : Mp4Fanout) : Mp4Fanout :=
  mkFanout None [] ∅ 0 (_sequence h) true
    (map_imap (λ id s, Some (if bool_decide (id ∈ _readers h) then fail Closed s else s)) (subs h)).

(** [while self._fragments and (... or ...): popleft] *)
Fixpoint evict (size : Z) (fragments : list (Z * Mp4Chunk)) (bytes : Z) : list (Z * Mp4Chunk) * Z :=
  match fragments with
  | [] => ([], bytes)
  | (_, removed) :: rest =>
      if (MAX_CHUNKS <=? Z.of_nat (length fragments)) || (MAX_BYTES <? bytes + size)
      then evict size rest (bytes - len (c_data removed))
      else (fragments, bytes)
  end.

Definition late (first : Z) (h : Mp4Fanout) (id : Z) : bool :=
  match subs h !! id with Some s => s_sequence s <? first | None => false end.

(** [for reader in tuple(self._readers): if reader._sequence < first: ...] *)
Definition drop_late (first : Z) (h : Mp4Fanout) : Mp4Fanout :=
  mkFanout (_initialization h) (_fragments h) (filter (λ id, late first h id = false) (_readers h)) (_bytes h) (_sequence h) (_closed h)
    (map_imap (λ id s, Some (if bool_decide (id ∈ _readers h) && (s_sequence s <? first) then fail Slow s else s)) (subs h)).

Definition append (chunk : Mp4Chunk) (h : Mp4Fanout) : Mp4Fanout :=
  let '(fragments, bytes) := evict (len (c_data chunk)) (_fragments h) (_bytes h) in
  let fragments := fragments ++ [(_sequence h, chunk)] in
  drop_late (match fragments with (first, _) :: _ => first | [] => 0 end)
    (mkFanout (_initialization h) fragments (_readers h) (bytes + len (c_data chunk)) (_sequence h + 1) (_closed h) (subs h)).

Definition publish_body (chunk : Mp4Chunk) : M Mp4Fanout unit :=
  h ← get;
  _ ← check (length (c_data chunk) =? 0)%nat (ValueError "invalid MP4 chunk");
  match initialization chunk with
  | true =>
      _ ← check (bool_decide (is_Some (_initialization h)) || (MAX_INIT_BYTES <? len (c_data chunk)))
            (ValueError "invalid MP4 initialization");
      modify (λ h, mkFanout (Some chunk) (_fragments h) (_readers h) (len (c_data chunk)) (_sequence h) (_closed h) (subs h))
  | false =>
      match _initialization h with
      | None => raise (ValueError "MP4 initialization required")
      | Some init =>
          _ ← check (MAX_BYTES <? len (c_data chunk) + len (c_data init)) (ValueError "MP4 fragment exceeds ring budget");
          modify (append chunk)
      end
  end.

Definition publish (chunk : Mp4Chunk) : M Mp4Fanout unit := λ h,
  if _closed h then (h, Raise (stream_exn Closed "native output epoch ended")) else
  match publish_body chunk h with
  | (h, Raise e) => (_close h, Raise e)
  | r => r
  end.

Definition subscribe (id : Z) : M Mp4Fanout unit :=
  h ← get;
  match last (_fragments h) with
  | Some (newest, _) =>
      _ ← check (_closed h) (stream_exn Closed "native output is not ready");
      _ ← check (MAX_READERS <=? reader_count h) (stream_exn Closed "native output reader capacity reached");
      modify (λ h, mkFanout (_initialization h) (_fragments h) ({[id]} ∪ _readers h) (_bytes h) (_sequence h) (_closed h)
                (<[id := mkSub newest true None]> (subs h)))
  | None => raise (stream_exn Closed "native output is not ready")
  end.

Definition set_sub (id : Z) (s : Subscription) (h : Mp4Fanout) : Mp4Fanout :=
  mkFanout (_initialization h) (_fragments h) (_readers h) (_bytes h) (_sequence h) (_closed h) (<[id := s]> (subs h)).

(** [self._fragments[index]], a negative index counting from the end. *)
Definition fragment_at (index : Z) (h : Mp4Fanout) : option (Z * Mp4Chunk) :=
  let i := if index <? 0 then index + Z.of_nat (length (_fragments h)) else index in
  if i <? 0 then None else _fragments h !! Z.to_nat i.

Definition _take (id : Z) (reader : Subscription) : M Mp4Fanout (option Mp4Chunk) :=
  h ← get;
  match s_error reader with
  | Some e => raise (stream_exn e "native output subscription ended")
  | None =>
      _ ← check (bool_decide (id ∉ _readers h) || _closed h) (stream_exn Closed "native output subscription ended");
      match s_initialization_pending reader with
      | true => _ ← modify (set_sub id (mkSub (s_sequence reader) false None)); mret (_initialization h)
      | false =>
          match _fragments h with
          | [] => raise IndexError
          | (first, _) :: _ =>
              let index := s_sequence reader - first in
              match Z.of_nat (length (_fragments h)) <=? index with
              | true => mret None
              | false =>
                  match fragment_at index h with
                  | None => raise IndexError
                  | Some (_, chunk) => _ ← modify (set_sub id (mkSub (s_sequence reader + 1) false None)); mret (Some chunk)
                  end
              end
          end
      end
  end.

(** [Subscription.take] *)
Definition take_sub (id : Z) : M Mp4Fanout (option Mp4Chunk) :=
  h ← get;
  match subs h !! id with Some reader => _take id reader | None => raise AssertionError end.

(** [Subscription.close] *)
Definition close_sub (id : Z) : M Mp4Fanout unit :=
  modify (λ h, mkFanout (_initialization h) (_fragments h) (_readers h ∖ {[id]}) (_bytes h) (_sequence h) (_closed h)
    (alter (λ s, match s_error s with Some _ => s | None => fail Closed s end) id (subs h))).

(** ** Histories *)

Inductive fan_call := Publish (chunk : Mp4Chunk) | Subscribe (id : Z) | TakeSub (id : Z) | CloseSub (id : Z) | CloseHub.

(** The hub with what has been published and what each reader has been given:
    the sequence it joined at and its chunks. *)
Record fan := mkFan {
  hub : Mp4Fanout; heading : option Mp4Chunk; published : list Mp4Chunk; given : gmap Z (Z * list Mp4Chunk)
}.

Definition fan_exec (f : fan) (c : fan_call) : fan :=
  let '(mkFan h i l g) := f in
  match c with
  | Publish chunk =>
      match publish chunk h with
      | (h, Ok _) => if initialization chunk then mkFan h (Some chunk) l g else mkFan h i (l ++ [chunk]) g
      | (h, Raise _) => mkFan h i l g
      end
  | Subscribe id =>
      if bool_decide (is_Some (subs h !! id)) then f else
      match subscribe id h with
      | (h, Ok _) => mkFan h i l (<[id := (Z.of_nat (length l) - 1, [])]> g)
      | (h, Raise _) => mkFan h i l g
      end
  | TakeSub id =>
      match take_sub id h with
      | (h, Ok (Some chunk)) => mkFan h i l (alter (λ '(s, out), (s, out ++ [chunk])) id g)
      | (h, _) => mkFan h i l g
      end
  | CloseSub id => mkFan (close_sub id h).1 i l g
  | CloseHub => mkFan (_close h) i l g
  end.
Definition fan_history (calls : list fan_call) : fan := foldl fan_exec (mkFan mp4_fanout None [] ∅) calls.

(** ** Invariant *)

(** The fragments with their sequence numbers. *)
Definition numbered (l : list Mp4Chunk) : list (Z * Mp4Chunk) := imap (λ k c, (Z.of_nat k, c)) l.
Definition ring_bytes (fs : list (Z * Mp4Chunk)) : Z := foldr Z.add 0 ((λ kc, len (c_data kc.2)) <$> fs).
Definition heading_bytes (i : option Mp4Chunk) : Z := match i with Some c => len (c_data c) | None => 0 end.

(** The ring of an open hub holds the newest fragments, from number [k] on. *)
Record ring_ok (i : option Mp4Chunk) (l : list Mp4Chunk) (k : nat) (h : Mp4Fanout) : Prop := {
  ri_init : _initialization h = i;
  ri_none : i = None → l = [];
  ri_sequence : _sequence h = Z.of_nat (length l);
  ri_fragments : _fragments h = drop k (numbered l);
  ri_newest : (l = [] ∧ k = 0 ∨ k < length l)%nat;
  ri_bytes : _bytes h = heading_bytes i + ring_bytes (_fragments h);
  ri_budget : _bytes h ≤ MAX_BYTES;
  ri_count : Z.of_nat (length (_fragments h)) ≤ MAX_CHUNKS;
  ri_cursors : ∀ id s, id ∈ _readers h → subs h !! id = Some s → Z.of_nat k ≤ s_sequence s
}.

(** What a reader was given: the initialization, then every fragment from the
    one it joined at up to its cursor. *)
Definition reader_ok (i : option Mp4Chunk) (l : list Mp4Chunk) (s : Subscription) (start : Z) (out : list Mp4Chunk) : Prop :=
  0 ≤ start ∧ start ≤ s_sequence s ≤ Z.of_nat (length l) ∧ start < Z.of_nat (length l) ∧
  if s_initialization_pending s then s_sequence s = start ∧ out = []
  else ∃ init, i = Some init ∧ out = init :: slice (Z.to_nat start) (Z.to_nat (s_sequence s)) l.

Record readers_ok (f : fan) : Prop := {
  rd_given : ∀ id s, subs (hub f) !! id = Some s →
    ∃ start out, given f !! id = Some (start, out) ∧ reader_ok (heading f) (published f) s start out;
  rd_error : ∀ id s, subs (hub f) !! id = Some s → (id ∈ _readers (hub f) ↔ s_error s = None);
  rd_known : ∀ id, id ∈ _readers (hub f) → is_Some (subs (hub f) !! id);
  rd_count : reader_count (hub f) ≤ MAX_READERS
}.

Definition fan_ok (f : fan) : Prop :=
  readers_ok f ∧
  if _closed (hub f)
  then _initialization (hub f) = None ∧ _fragments (hub f) = [] ∧ _readers (hub f) = ∅ ∧ _bytes (hub f) = 0
  else ∃ k, ring_ok (heading f) (published f) k (hub f).

(** ** Lemmas *)

Lemma length_numbered l : length (numbered l) = length l.
Proof. apply length_imap. Qed.

Lemma numbered_snoc l c : numbered (l ++ [c]) = numbered l ++ [(Z.of_nat (length l), c)].
Proof. unfold numbered. rewrite imap_app. cbn. by rewrite Nat.add_0_r. Qed.

Lemma lookup_numbered l j : numbered l !! j = (λ c, (Z.of_nat j, c)) <$> l !! j.
Proof. unfold numbered. by rewrite list_lookup_imap. Qed.

Lemma ring_bytes_app a b : ring_bytes (a ++ b) = ring_bytes a + ring_bytes b.
Proof. unfold ring_bytes. induction a as [|x a IH]; cbn in *; [done|]. rewrite IH. lia. Qed.

Lemma ring_bytes_nonneg fs : 0 ≤ ring_bytes fs.
Proof.
  induction fs as [|x fs IH]; [done|]. change (0 ≤ len (c_data x.2) + ring_bytes fs). unfold len. lia.
Qed.

Lemma evict_spec size fs : ∀ bytes,
  ∃ k, (k ≤ length fs)%nat ∧ evict size fs bytes = (drop k fs, bytes - ring_bytes (take k fs)) ∧
    (drop k fs = [] ∨ Z.of_nat (length (drop k fs)) < MAX_CHUNKS ∧ bytes - ring_bytes (take k fs) + size ≤ MAX_BYTES).
Proof.
  induction fs as [|[q c] fs IH]; intros bytes; cbn [evict].
  - exists 0%nat. split; [done|]. split; [|by left]. cbn. by rewrite Z.sub_0_r.
  - destruct ((MAX_CHUNKS <=? Z.of_nat (length ((q, c) :: fs))) || (MAX_BYTES <? bytes + size)) eqn:E.
    + destruct (IH (bytes - len (c_data c))) as (k & Hk & -> & H). exists (S k). cbn [drop take length].
      change (ring_bytes ((q, c) :: take k fs)) with (len (c_data c) + ring_bytes (take k fs)).
      rewrite Z.sub_add_distr. split_and!; [lia|done|done].
    + exists 0%nat. split; [lia|]. cbn [drop take]. change (ring_bytes []) with 0. rewrite Z.sub_0_r. split; [done|]. right. lia.
Qed.

Lemma drop_numbered l k c : l !! k = Some c → drop k (numbered l) = (Z.of_nat k, c) :: drop (S k) (numbered l).
Proof. intros H. apply drop_S. by rewrite lookup_numbered, H. Qed.

Lemma drop_late_sub first h id s' :
  subs (drop_late first h) !! id = Some s' →
  ∃ s, subs h !! id = Some s ∧ s_sequence s' = s_sequence s ∧ s_initialization_pending s' = s_initialization_pending s ∧
    s' = if bool_decide (id ∈ _readers h) && (s_sequence s <? first) then fail Slow s else s.
Proof.
  cbn. rewrite map_lookup_imap. destruct (subs h !! id) as [s|]; [|done]. cbn. intros [= <-]. exists s.
  by case_match.
Qed.

Lemma append_eq chunk h l k i :
  ring_ok i l k h → ∃ k1 fs b, (k + k1 ≤ length l)%nat ∧
    fs = drop (k + k1) (numbered (l ++ [chunk])) ∧ b = heading_bytes i + ring_bytes fs ∧
    (len (c_data chunk) + heading_bytes i ≤ MAX_BYTES → b ≤ MAX_BYTES) ∧ Z.of_nat (length fs) ≤ MAX_CHUNKS ∧
    append chunk h = drop_late (Z.of_nat (k + k1))
      (mkFanout (_initialization h) fs (_readers h) b (_sequence h + 1) (_closed h) (subs h)).
Proof.
  intros [Hi Hn Hs Hf Hk Hb Hbud Hc Hcur]. unfold append.
  destruct (evict_spec (len (c_data chunk)) (_fragments h) (_bytes h)) as (k1 & Hk1 & -> & Hev).
  assert (Hlen : length (_fragments h) = (length l - k)%nat) by (rewrite Hf, length_drop, length_numbered; done).
  assert (Hkk : (k + k1 ≤ length l)%nat) by (destruct Hk as [[-> ->]|]; cbn in *; lia).
  assert (Hfs : drop k1 (_fragments h) ++ [(_sequence h, chunk)] = drop (k + k1) (numbered (l ++ [chunk]))).
  { rewrite Hf, drop_drop, numbered_snoc, Hs. rewrite drop_app_le; [done|]. by rewrite length_numbered. }
  rewrite Hfs. pose proof (f_equal ring_bytes Hfs) as Hrb. rewrite ring_bytes_app in Hrb.
  change (ring_bytes [(_sequence h, chunk)]) with (len (c_data chunk) + 0) in Hrb.
  pose proof (ring_bytes_app (take k1 (_fragments h)) (drop k1 (_fragments h))) as Hsum. rewrite take_drop in Hsum.
  pose proof (f_equal length Hfs) as Hl. rewrite length_app in Hl. cbn in Hl.
  exists k1, (drop (k + k1) (numbered (l ++ [chunk]))), (_bytes h - ring_bytes (take k1 (_fragments h)) + len (c_data chunk)).
  split; [done|]. split; [done|]. split; [|split; [|split]].
  4:{ destruct ((l ++ [chunk]) !! (k + k1)%nat) as [c|] eqn:E; [by rewrite (drop_numbered _ _ _ E)|].
      apply lookup_ge_None_1 in E. rewrite length_app in E. cbn in E. lia. }
  - lia.
  - intros Hfit. destruct Hev as [Hev|[_ Hev]]; [|done]. rewrite Hev in Hsum. change (ring_bytes []) with 0 in Hsum. lia.
  - destruct Hev as [Hev|[Hev _]]; [rewrite Hev in Hl; cbn in Hl; unfold MAX_CHUNKS; lia|lia].
Qed.

Lemma reader_ok_grow i l c s s' start out :
  s_sequence s' = s_sequence s → s_initialization_pending s' = s_initialization_pending s →
  reader_ok i l s start out → reader_ok i (l ++ [c]) s' start out.
Proof.
  intros E1 E2 (H0 & H1 & H2 & H3). unfold reader_ok. rewrite E1, E2, length_app. cbn. split_and!; try lia.
  case_match; [done|]. destruct H3 as (init & -> & ->). exists init. split; [done|]. f_equal. symmetry. apply slice_app_l. lia.
Qed.

Lemma fan_ok_append f chunk k init :
  readers_ok f → ring_ok (Some init) (published f) k (hub f) → heading f = Some init →
  _closed (hub f) = false → len (c_data chunk) + len (c_data init) ≤ MAX_BYTES →
  fan_ok (mkFan (append chunk (hub f)) (heading f) (published f ++ [chunk]) (given f)).
Proof.
  intros Hrd Hr Hh Hcl Hfit. destruct f as [h i l g]. cbn in *. subst i.
  destruct (append_eq chunk h l k (Some init) Hr) as (k1 & fs & b & Hkk & Hfs & Hb & Hbud & Hc & ->).
  destruct Hrd as [Hg He Hkn Hct]. cbn in *. split; [split|]; cbn [hub heading published given].
  - intros id s' (s & Hs & E1 & E2 & _)%drop_late_sub. destruct (Hg _ _ Hs) as (start & out & ? & ?).
    exists start, out. split; [done|]. by eapply reader_ok_grow.
  - intros id s' (s & Hs & E1 & E2 & ->)%drop_late_sub. cbn in *. unfold late. cbn. rewrite elem_of_filter, Hs.
    specialize (He _ _ Hs). case_bool_decide; cbn; [destruct (s_sequence s <? _) eqn:E; cbn|]; naive_solver.
  - intros id. cbn. rewrite elem_of_filter. intros [_ Hid]. destruct (Hkn _ Hid) as [s Hs].
    rewrite map_lookup_imap, Hs. by eexists.
  - unfold reader_count in *. cbn. etrans; [|exact Hct]. apply inj_le, subseteq_size. set_solver.
  - cbn. rewrite Hcl. exists (k + k1)%nat. split; cbn; try done.
    + apply Hr.
    + rewrite (ri_sequence _ _ _ _ Hr), length_app. cbn. lia.
    + right. rewrite length_app. cbn. lia.
    + apply Hbud. cbn. lia.
    + intros id s' Hid (s & Hs & E1 & _)%(drop_late_sub (Z.of_nat (k + k1)) (mkFanout (_initialization h) fs (_readers h) b (_sequence h + 1) (_closed h) (subs h))).
      apply elem_of_filter in Hid as [Hlate _]. unfold late in Hlate. cbn in Hlate, Hs. rewrite Hs in Hlate. lia.
Qed.

Lemma close_readers f : readers_ok f → readers_ok (mkFan (_close (hub f)) (heading f) (published f) (given f)).
Proof.
  intros [Hg He Hkn Hct]. split; cbn [hub heading published given].
  - intros id s'. cbn. rewrite map_lookup_imap. destruct (subs (hub f) !! id) as [s|] eqn:Hs; [|done]. cbn. intros [= <-].
    destruct (Hg _ _ Hs) as (start & out & ? & ?). exists start, out. split; [done|]. by case_bool_decide.
  - intros id s'. cbn. rewrite map_lookup_imap. destruct (subs (hub f) !! id) as [s|] eqn:Hs; [|done]. cbn. intros [= <-].
    specialize (He _ _ Hs). split; [set_solver|]. case_bool_decide; [done|]. naive_solver.
  - intros id. cbn. set_solver.
  - unfold reader_count. cbn. by rewrite size_empty.
Qed.

Lemma fan_ok_close f : readers_ok f → fan_ok (mkFan (_close (hub f)) (heading f) (published f) (given f)).
Proof. intros H. split; [by apply close_readers|done]. Qed.

(** The outcome of [publish]. *)
Lemma publish_cases chunk h :
  (_closed h = true ∧ publish chunk h = (h, Raise (stream_exn Closed "native output epoch ended"))) ∨
  (_closed h = false ∧ ∃ m, publish chunk h = (_close h, Raise (ValueError m))) ∨
  (_closed h = false ∧ initialization chunk = true ∧ _initialization h = None ∧ len (c_data chunk) ≤ MAX_INIT_BYTES ∧
     publish chunk h = (mkFanout (Some chunk) (_fragments h) (_readers h) (len (c_data chunk)) (_sequence h) (_closed h) (subs h), Ok tt)) ∨
  (_closed h = false ∧ initialization chunk = false ∧ ∃ init, _initialization h = Some init ∧
     len (c_data chunk) + len (c_data init) ≤ MAX_BYTES ∧ publish chunk h = (append chunk h, Ok tt)).
Proof.
  unfold publish, publish_body, get, check, modify, raise, raise_if, mbind, M_bind.
  destruct (_closed h) eqn:Hcl; [by left|right]. destruct (length (c_data chunk) =? 0)%nat; [left; eauto|].
  destruct (initialization chunk) eqn:E.
  - destruct (_initialization h) as [init|]; [rewrite bool_decide_eq_true_2 by eauto; left; eauto|].
    rewrite bool_decide_eq_false_2 by (by intros [? ?]). destruct (MAX_INIT_BYTES <? len (c_data chunk)) eqn:El; [left; eauto|].
    right; left. split_and!; try done; [lia|]. cbn. by rewrite Hcl.
  - destruct (_initialization h) as [init|]; [|left; eauto].
    destruct (MAX_BYTES <? len (c_data chunk) + len (c_data init)) eqn:El; [left; eauto|].
    right; right. split_and!; try done. exists init. split_and!; try done. lia.
Qed.

Lemma fan_ok_publish f chunk : fan_ok f → fan_ok (fan_exec f (Publish chunk)).
Proof.
  destruct f as [h i l g]. intros Hok. cbn [fan_exec]. destruct Hok as [Hrd Hring].
  destruct (publish_cases chunk h) as [[Hc ->]|[(Hc & m & ->)|[(Hc & Hi & Hn & Hlen & ->)|(Hc & Hi & init & Hin & Hlen & ->)]]];
    [by split|by apply (fan_ok_close (mkFan h i l g))| |]; rewrite Hi; cbn in Hring; rewrite Hc in Hring; destruct Hring as [k Hr].
  - pose proof (ri_init _ _ _ _ Hr) as E. rewrite Hn in E. subst i. pose proof (ri_none _ _ _ _ Hr eq_refl) as ->.
    destruct Hrd as [Hg He Hkn Hct]. cbn in *. split; [split|]; cbn; try done.
    + intros id s Hs. destruct (Hg _ _ Hs) as (start & out & ? & (? & ? & ? & ?)). cbn in *. lia.
    + rewrite Hc. exists k. destruct Hr. split; cbn in *; try done.
      * rewrite ri_fragments0, drop_nil. cbn. lia.
      * unfold MAX_INIT_BYTES, MAX_BYTES in *. lia.
  - pose proof (ri_init _ _ _ _ Hr) as E. rewrite Hin in E. subst i.
    by apply (fan_ok_append (mkFan h (Some init) l g) chunk k init).
Qed.

Lemma last_drop_numbered l k : (k < length l)%nat → ∃ c, last (drop k (numbered l)) = Some (Z.of_nat (length l) - 1, c).
Proof.
  intros Hk. destruct l as [|c l' _] using rev_ind; [cbn in Hk; lia|]. exists c. rewrite length_app in *. cbn in *.
  rewrite numbered_snoc, drop_app_le by (rewrite length_numbered; lia). rewrite last_snoc. do 2 f_equal. lia.
Qed.

Lemma fan_ok_subscribe f id : fan_ok f → fan_ok (fan_exec f (Subscribe id)).
Proof.
  destruct f as [h i l g]. intros Hok. cbn [fan_exec]. case_bool_decide as Hnew; [done|].
  assert (Hfresh : subs h !! id = None) by (destruct (subs h !! id); [by destruct Hnew; eexists|done]).
  unfold subscribe, get, check, modify, raise, raise_if, mbind, M_bind.
  destruct (last (_fragments h)) as [[newest c]|] eqn:Hlast; [|done].
  destruct (_closed h) eqn:Hc; [done|]. destruct (MAX_READERS <=? reader_count h) eqn:Hcap; [done|]. cbn.
  destruct Hok as [[Hg He Hkn Hct] Hring]. cbn in *. rewrite Hc in Hring. destruct Hring as [k Hr].
  assert (Hk : (k < length l)%nat).
  { destruct (ri_newest _ _ _ _ Hr) as [[-> ->]|]; [|done]. rewrite (ri_fragments _ _ _ _ Hr) in Hlast. done. }
  destruct (last_drop_numbered l k Hk) as [c' Hl]. rewrite (ri_fragments _ _ _ _ Hr), Hl in Hlast. injection Hlast as <- <-.
  assert (Hid : id ∉ _readers h) by (intros [s Hs]%Hkn; congruence).
  split; [split|]; cbn.
  - intros id' s. rewrite !lookup_insert_Some. intros [[<- <-]|[Hne Hs]].
    + exists (Z.of_nat (length l) - 1), []. rewrite lookup_insert_eq. split; [done|]. unfold reader_ok. cbn. split_and!; try lia; done.
    + rewrite lookup_insert_ne by done. by apply Hg.
  - intros id' s. rewrite lookup_insert_Some. intros [[<- <-]|[Hne Hs]]; cbn; [set_solver|]. rewrite <- (He _ _ Hs). set_solver.
  - intros id' [->%elem_of_singleton|Hin]%elem_of_union; [by rewrite lookup_insert_eq|].
    rewrite lookup_insert_ne by set_solver. by apply Hkn.
  - unfold reader_count in *. cbn. rewrite size_union by set_solver. rewrite size_singleton. lia.
  - try rewrite Hc. exists k. destruct Hr. split; cbn; try done.
    intros id' s [->%elem_of_singleton|Hin]%elem_of_union; [rewrite lookup_insert_eq; intros [= <-]; cbn; lia|].
    rewrite lookup_insert_ne by set_solver. by apply ri_cursors0.
Qed.

(** A reader whose cursor moves. *)
Lemma fan_ok_cursor f id s s' start out out' :
  fan_ok f → subs (hub f) !! id = Some s → given f !! id = Some (start, out) → s_error s' = s_error s →
  s_sequence s ≤ s_sequence s' → reader_ok (heading f) (published f) s' start out' →
  fan_ok (mkFan (set_sub id s' (hub f)) (heading f) (published f) (<[id := (start, out')]> (given f))).
Proof.
  intros [[Hg He Hkn Hct] Hring] Hs Hgiv Herr Hseq Hok. split; [split|]; cbn.
  - intros id' s2 [[<- <-]|[Hne Hs2]]%lookup_insert_Some; [exists start, out'; by rewrite lookup_insert_eq|].
    rewrite lookup_insert_ne by done. by apply Hg.
  - intros id' s2 [[<- <-]|[Hne Hs2]]%lookup_insert_Some; [rewrite Herr; by apply He|by apply He].
  - intros id' Hid'. destruct (decide (id = id')) as [<-|]; [by rewrite lookup_insert_eq|]. rewrite lookup_insert_ne by done. by apply Hkn.
  - done.
  - destruct (_closed (hub f)); [done|]. destruct Hring as [k Hr]. exists k. destruct Hr. split; cbn; try done.
    intros id' s2 Hid' [[<- <-]|[Hne Hs2]]%lookup_insert_Some; [|by eapply ri_cursors0].
    etrans; [by eapply ri_cursors0|done].
Qed.

Lemma slice_snoc {A} a b (l : list A) c : (a ≤ b)%nat → l !! b = Some c → slice a (S b) l = slice a b l ++ [c].
Proof.
  intros Hab Hb. rewrite <- (slice_concat a b (S b)) by lia. f_equal. unfold slice.
  replace (S b - b)%nat with 1%nat by lia. by rewrite (drop_S _ _ _ Hb).
Qed.

(** The outcome of [take]: the initialization, the next fragment, nothing yet,
    or the error the subscription ended with. *)
Lemma take_cases f id s start out :
  fan_ok f → subs (hub f) !! id = Some s → given f !! id = Some (start, out) → reader_ok (heading f) (published f) s start out →
  (∃ e, s_error s = Some e ∧ take_sub id (hub f) = (hub f, Raise (stream_exn e "native output subscription ended"))) ∨
  (s_error s = None ∧ s_initialization_pending s = true ∧ ∃ init, heading f = Some init ∧
     take_sub id (hub f) = (set_sub id (mkSub (s_sequence s) false None) (hub f), Ok (Some init))) ∨
  (s_error s = None ∧ s_initialization_pending s = false ∧ s_sequence s = Z.of_nat (length (published f)) ∧
     take_sub id (hub f) = (hub f, Ok None)) ∨
  (s_error s = None ∧ s_initialization_pending s = false ∧ ∃ chunk, published f !! Z.to_nat (s_sequence s) = Some chunk ∧
     take_sub id (hub f) = (set_sub id (mkSub (s_sequence s + 1) false None) (hub f), Ok (Some chunk))).
Proof.
  destruct f as [h i l g]. cbn. intros [Hrd Hring] Hs Hgiv (H0 & H1 & H2 & H3). cbn in *.
  unfold take_sub, _take, get, check, modify, raise, raise_if, mret, mbind, M_bind, M_ret. rewrite Hs.
  destruct (s_error s) as [e|] eqn:He; [left; eauto|right].
  pose proof (proj2 (rd_error _ Hrd _ _ Hs) He) as Hid. cbn in Hid. destruct (_closed h) eqn:Hc.
  { destruct Hring as (_ & _ & E & _). rewrite E in Hid. set_solver. }
  rewrite bool_decide_eq_false_2 by (intros ?; done). cbn.
  destruct Hring as [k Hr]. pose proof (ri_cursors _ _ _ _ Hr id s Hid Hs) as Hcur.
  destruct (s_initialization_pending s); [left|right].
  - split_and!; try done. rewrite (ri_init _ _ _ _ Hr). destruct i as [init|]; [by exists init|].
    rewrite (ri_none _ _ _ _ Hr eq_refl) in H2. cbn in H2. lia.
  - destruct (l !! k) as [c|] eqn:Hk.
    2:{ apply lookup_ge_None_1 in Hk. destruct (ri_newest _ _ _ _ Hr) as [[-> ->]|]; cbn in *; lia. }
    pose proof (ri_fragments _ _ _ _ Hr) as Hf. pose proof (drop_numbered l k c Hk) as Hd.
    unfold fragment_at. destruct (_fragments h) as [|[first c0] rest] eqn:F; [by rewrite Hd in Hf|].
    assert (first = Z.of_nat k) as -> by (rewrite Hd in Hf; by injection Hf). rewrite Hf, length_drop, length_numbered. apply lookup_lt_Some in Hk.
    destruct (Z.of_nat (length l - k) <=? s_sequence s - Z.of_nat k) eqn:E; [left|right].
    + split_and!; try done. lia.
    + split_and!; try done. rewrite !(proj2 (Z.ltb_ge (s_sequence s - Z.of_nat k) 0)) by lia.
      rewrite lookup_drop, lookup_numbered. replace (k + Z.to_nat (s_sequence s - Z.of_nat k))%nat with (Z.to_nat (s_sequence s)) by lia.
      destruct (l !! Z.to_nat (s_sequence s)) as [chunk|] eqn:El; [by exists chunk|]. apply lookup_ge_None_1 in El. lia.
Qed.

Lemma alter_given f id start out chunk :
  given f !! id = Some (start, out) →
  alter (λ '(s, out), (s, out ++ [chunk])) id (given f) = <[id := (start, out ++ [chunk])]> (given f).
Proof. intros H. by rewrite (alter_alt_Some _ _ _ _ H). Qed.

Lemma fan_ok_take f id : fan_ok f → fan_ok (fan_exec f (TakeSub id)).
Proof.
  intros Hok. destruct f as [h i l g]. cbn [fan_exec]. destruct (subs h !! id) as [s|] eqn:Hs.
  2:{ unfold take_sub, get, raise, mbind, M_bind. by rewrite Hs. }
  destruct (rd_given _ (proj1 Hok) id s Hs) as (start & out & Hg & Hrd). cbn in Hg, Hrd.
  destruct (take_cases (mkFan h i l g) id s start out Hok Hs Hg Hrd) as [(e & He & E)|[(He & Hp & init & Hi & E)|[(He & Hp & Hq & E)|(He & Hp & chunk & Hch & E)]]];
    cbn in E; rewrite E; try done; rewrite (alter_given (mkFan h i l g) id start out _ Hg); cbn [given];
    destruct Hrd as (H0 & H1 & H2 & H3); rewrite Hp in H3; cbn in *; eapply (fan_ok_cursor (mkFan h i l g)); try done; cbn; try lia.
  - split_and!; cbn; try lia. exists init. split; [done|]. destruct H3 as [-> ->]. cbn. unfold slice. by rewrite Nat.sub_diag.
  - apply lookup_lt_Some in Hch as Hlt. split_and!; cbn; try lia. destruct H3 as (init & Hi & ->). exists init. split; [done|].
    cbn. f_equal. replace (Z.to_nat (s_sequence s + 1)) with (S (Z.to_nat (s_sequence s))) by lia. symmetry. apply slice_snoc; [lia|done].
Qed.

Lemma fan_ok_close_sub f id : fan_ok f → fan_ok (fan_exec f (CloseSub id)).
Proof.
  destruct f as [h i l g]. intros [[Hg He Hkn Hct] Hring]. cbn in *.
  assert (Hsub : ∀ id' s', alter (λ s, match s_error s with Some _ => s | None => fail Closed s end) id (subs h) !! id' = Some s' →
    ∃ s, subs h !! id' = Some s ∧ s_sequence s' = s_sequence s ∧ s_initialization_pending s' = s_initialization_pending s ∧
      (id' = id → s_error s' ≠ None) ∧ (id' ≠ id → s' = s)).
  { intros id' s'. destruct (decide (id = id')) as [<-|Hne].
    - rewrite lookup_alter_eq. destruct (subs h !! id) as [s|]; [|done]. intros [= <-]. exists s.
      destruct (s_error s) eqn:E; split_and!; try done. by rewrite E.
    - rewrite lookup_alter_ne by done. intros Hs. exists s'. split_and!; done. }
  split; [split|]; cbn.
  - intros id' s' (s & Hs & E1 & E2 & _)%Hsub. destruct (Hg _ _ Hs) as (start & out & ? & ?). exists start, out. split; [done|].
    unfold reader_ok in *. by rewrite E1, E2.
  - intros id' s' (s & Hs & _ & _ & E3 & E4)%Hsub. specialize (He _ _ Hs). destruct (decide (id' = id)) as [->|Hne].
    + split; [set_solver|]. by intros ?%E3.
    + rewrite (E4 Hne), <- He. set_solver.
  - intros id' [Hid' Hne]%elem_of_difference. destruct (Hkn _ Hid') as [s Hs].
    rewrite lookup_alter_ne by set_solver. by exists s.
  - unfold reader_count in *. cbn. etrans; [|exact Hct]. apply inj_le, subseteq_size. set_solver.
  - destruct (_closed h); [destruct Hring as (? & ? & -> & ?); split_and!; try done; set_solver|].
    destruct Hring as [k Hr]. exists k. destruct Hr. split; cbn; try done.
    intros id' s' [Hid' _]%elem_of_difference (s & Hs & -> & _)%Hsub. by eapply ri_cursors0.
Qed.

Lemma fan_ok_exec f c : fan_ok f → fan_ok (fan_exec f c).
Proof.
  intros Hf. destruct c.
  - by apply fan_ok_publish.
  - by apply fan_ok_subscribe.
  - by apply fan_ok_take.
  - by apply fan_ok_close_sub.
  - destruct f. apply (fan_ok_close _ (proj1 Hf)).
Qed.

Lemma fan_history_ok calls : fan_ok (fan_history calls).
Proof.
  unfold fan_history. assert (fan_ok (mkFan mp4_fanout None [] ∅)) as H.
  { split; [by split|]. exists 0%nat. split; cbn; try done. by left. }
  revert H. generalize (mkFan mp4_fanout None [] ∅).
  induction calls as [|c calls IH]; intros f Hf; [done|]. by apply IH, fan_ok_exec.
Qed.

(** A publication keeps a reader, unless it closes the hub or evicts the
    reader's next fragment. *)
Lemma publish_keeps f chunk id s :
  fan_ok f → id ∈ _readers (hub f) → subs (hub f) !! id = Some s →
  let h' := (publish chunk (hub f)).1 in
  ∃ s', subs h' !! id = Some s' ∧ s_sequence s' = s_sequence s ∧
    (id ∈ _readers h' ∧ s' = s ∨ s_error s' = Some Closed ∧ _closed h' = true ∨
     s_error s' = Some Slow ∧ ∃ first c rest, _fragments h' = (first, c) :: rest ∧ s_sequence s < first).
Proof.
  intros [Hrd Hring] Hid Hs.
  destruct (publish_cases chunk (hub f)) as [[Hc ->]|[(Hc & m & ->)|[(Hc & Hi & Hn & Hlen & ->)|(Hc & Hi & init & Hin & Hlen & ->)]]]; cbn [fst].
  - exists s. split_and!; try done. by left.
  - exists (fail Closed s). cbn. rewrite map_lookup_imap, Hs. cbn. rewrite bool_decide_eq_true_2 by done. split_and!; try done. by right; left.
  - exists s. split_and!; try done. by left.
  - rewrite Hc in Hring. destruct Hring as [k Hr].
    destruct (append_eq chunk (hub f) _ k _ Hr) as (k1 & fs & b & Hkk & Hfs & _ & _ & _ & ->). cbn.
    rewrite map_lookup_imap, Hs. cbn. rewrite bool_decide_eq_true_2 by done. cbn.
    destruct (s_sequence s <? Z.of_nat (k + k1)) eqn:E; (eexists; split; [done|]; split; [done|]); [right; right|left].
    2:{ split; [|done]. apply elem_of_filter. split; [|done]. unfold late. cbn. by rewrite Hs. }
    split; [done|]. destruct ((published f ++ [chunk]) !! (k + k1)%nat) as [c|] eqn:El.
    + rewrite Hfs, (drop_numbered _ _ _ El). eexists _, _, _. split; [done|]. lia.
    + apply lookup_ge_None_1 in El. rewrite length_app in El. cbn in El. lia.
Qed.

(** C15 [Mp4Fanout]: in every history the ring keeps within two megabytes, eight
    fragments and sixteen readers. Every subscription has been given the
    initialization and then, without a gap, the fragments published from the
    newest one at the time it joined; its next [take] gives the initialization,
    or the next fragment, or nothing exactly when it has caught up, or the error
    that ended it, and never raises anything else. A publication leaves a reader
    as it is unless it closes the hub or evicts the fragment that reader needs
    next, and then that reader is told so. *)
Theorem fanout_readers_exact calls :
  let f := fan_history calls in
  _bytes (hub f) ≤ MAX_BYTES ∧ Z.of_nat (length (_fragments (hub f))) ≤ MAX_CHUNKS ∧ reader_count (hub f) ≤ MAX_READERS ∧
  (∀ id s, subs (hub f) !! id = Some s →
     ∃ start out, given f !! id = Some (start, out) ∧ reader_ok (heading f) (published f) s start out ∧
     ((∃ e, s_error s = Some e ∧ take_sub id (hub f) = (hub f, Raise (stream_exn e "native output subscription ended"))) ∨
      (s_error s = None ∧ s_initialization_pending s = true ∧ ∃ init, heading f = Some init ∧ (take_sub id (hub f)).2 = Ok (Some init)) ∨
      (s_error s = None ∧ s_sequence s = Z.of_nat (length (published f)) ∧ take_sub id (hub f) = (hub f, Ok None)) ∨
      (s_error s = None ∧ s_initialization_pending s = false ∧ ∃ chunk,
         published f !! Z.to_nat (s_sequence s) = Some chunk ∧ (take_sub id (hub f)).2 = Ok (Some chunk)))) ∧
  (∀ id h', subscribe id (hub f) = (h', Ok tt) →
     subs h' !! id = Some (mkSub (Z.of_nat (length (published f)) - 1) true None)) ∧
  (∀ chunk id s, id ∈ _readers (hub f) → subs (hub f) !! id = Some s →
     let h' := (publish chunk (hub f)).1 in
     ∃ s', subs h' !! id = Some s' ∧ s_sequence s' = s_sequence s ∧
       (id ∈ _readers h' ∧ s' = s ∨ s_error s' = Some Closed ∧ _closed h' = true ∨
        s_error s' = Some Slow ∧ ∃ first c rest, _fragments h' = (first, c) :: rest ∧ s_sequence s < first)).
Proof.
  intros f. pose proof (fan_history_ok calls) as Hok. fold f in Hok. pose proof Hok as [Hrd Hring]. split_and!.
  - destruct (_closed (hub f)); [by destruct Hring as (_ & _ & _ & ->)|]. destruct Hring as [k Hr]. apply Hr.
  - destruct (_closed (hub f)); [by destruct Hring as (_ & -> & _)|]. destruct Hring as [k Hr]. apply Hr.
  - apply Hrd.
  - intros id s Hs. destruct (rd_given _ Hrd id s Hs) as (start & out & Hg & Ho). exists start, out. split; [done|]. split; [done|].
    destruct (take_cases f id s start out Hok Hs Hg Ho) as [H|[(? & ? & init & ? & ->)|[(? & ? & ? & ->)|(? & ? & chunk & ? & ->)]]].
    + by left.
    + right; left. split_and!; try done. by exists init.
    + right; right; left. done.
    + right; right; right. split_and!; try done. by exists chunk.
  - intros id h'. unfold subscribe, get, check, modify, raise, raise_if, mbind, M_bind.
    destruct (last (_fragments (hub f))) as [[newest c]|] eqn:Hlast; [|done].
    destruct (_closed (hub f)); [done|]. destruct (MAX_READERS <=? reader_count (hub f)); [done|]. cbn. intros [= <-]. cbn.
    rewrite lookup_insert_eq. destruct Hring as [k Hr].
    assert (Hk : (k < length (published f))%nat).
    { destruct (ri_newest _ _ _ _ Hr) as [[E1 ->]|]; [|done]. rewrite (ri_fragments _ _ _ _ Hr), E1 in Hlast. done. }
    destruct (last_drop_numbered _ k Hk) as [c' Hl]. rewrite (ri_fragments _ _ _ _ Hr), Hl in Hlast. by injection Hlast as <- <-.
  - intros chunk id s Hid Hs. by apply publish_keeps.
Qed.

(** A reader joins at the second fragment and takes twice; nine fragments later
    it is told that it was too slow. *)
Definition sample_calls : list fan_call :=
  Publish (mkChunk true [1]) :: Publish (mkChunk false [2]) :: Publish (mkChunk false [3]) :: Subscribe 7 :: TakeSub 7 :: TakeSub 7 ::
  map (λ k, Publish (mkChunk false [k])) (seqZ 4 9).

Lemma fanout_readers_exact_witness :
  let f := fan_history sample_calls in
  given f !! 7 = Some (1, [mkChunk true [1]; mkChunk false [3]]) ∧
  (take_sub 7 (hub f)).2 = Raise (RuntimeError "SlowConsumerError: native output subscription ended") ∧
  Z.of_nat (length (_fragments (hub f))) ≤ MAX_CHUNKS.
Proof.
  intros f. split; [by vm_compute|]. split; [by vm_compute|]. apply (fanout_readers_exact sample_calls).
Defined.
End Fanout.
